(* ===== verification/_CoqProject ===== *)
-Q . S2P
Prelude.v
External.v
BitUtils.v
Hash.v
Encoding.v
Serializer.v
PathCodec.v
BinaryWriter.v
Format.v
NomLib.v
NomReader.v
Zarith.v
Derive.v
DeriveRoundTrip.v
ReaderSound.v
Sizes.v
Make.v
Crypto.v
SeededStep.v
MerklePath.v
BinaryMessage.v
Messages.v
MessageTypes.v
Network.v
MessageSizes.v
Stream.v
P2pStream.v
Handshake.v
HandshakeAgree.v
Kv.v
Blocks.v
BlockMeta.v
Predecessors.v
OperationsMeta.v
BlockStorage.v
ChainMeta.v
StorageOps.v
Fitness.v
Prevalidator.v
MempoolThread.v
Validation.v
ShellState.v
Requester.v
OperationsStorage.v
ChainState.v
Downloads.v
Bootstrap.v
BootstrapFacts.v
BootstrapSchedule.v
BlockApplier.v
BlockApplierFacts.v
ChainFeeder.v
FeederWitnesses.v
ChainManager.v
HeadManager.v
ChainManagerFacts.v
HeadManagerFacts.v
ShellWitnesses.v
PeerManager.v
PeerManagerFacts.v
PeerManagerWitnesses.v
MerkleTree.v
ContextStore.v
ContextGc.v
MarkMove.v
MarkMoveFacts.v
MerkleStorage.v
MerkleFacts.v
MerkleCommit.v
MerkleBinding.v
MerkleWitnesses.v
MarkMoveWitnesses.v
TezedgeContext.v
TezedgeWitnesses.v
