(* ===== verification/Prelude.v ===== *)
(** * Verification of the TezEdge node: wire formats, cryptography, peer-to-peer stream, storage, shell

    TezEdge is a Tezos node.  This library follows the data of the node from
    the bytes of a TCP stream upwards.  It models the encoding library and its
    derive macros, every peer-to-peer message with its limits, the hashes,
    nonces, boxes and proofs of work of the handshake, the encrypted stream
    that carries the messages, the storages in which the shell keeps blocks,
    their metadata and the facts about chains, and the state of the shell: the
    heads, the mempool, the queues of peers and the download of blocks.

    *** The program's parts and how they interact

    - [src/tezos/encoding] turns values into bytes (a serde serializer builds a
      [Value], the binary writer lays it out under a schema [Encoding]) and
      bytes into values (readers built from nom combinators).
    - [src/tezos/encoding-derive] computes a schema from the attributes of a
      declaration ([make.rs]) and generates from it both the [Encoding] for the
      writer ([enc.rs]) and the reader ([nom.rs]).
    - [src/tezos/messages] declares the messages with these attributes, and
      cuts encoded messages into chunks of at most 65535 bytes.
    - [src/crypto] has the typed hashes, base58check, nonces, boxes, proofs of
      work and the seeded steps of block locators.
    - [src/networking] seals the pieces of a message with a nonce that advances
      on both ends, writes them as chunks, and reassembles the messages.
    - [src/storage] keeps what was received: headers and results in a log,
      indices and metadata in tables of a key-value store, some of which are
      written with a merge operator.
    - [src/shell] decides on heads and keeps operations that wait for a block;
      it asks the protocol, which runs in another process, through [src/tezos/wrapper].
    - [src/rpc], [src/tezos/api] and the programs use the messages, the storages
      and the state of the shell: see "not modelled" below.

    *** Files

    - [Prelude]: results and the [?] operator, bytes, big-endian integers at
      their width, checked arithmetic, generic lemmas.
    - [External]: the crates [bytes], [hex], [bit-vec] and [num-bigint] as
      classes of operations, with classes of laws and a concrete instance.
    - [BitUtils]: [encoding/src/bit_utils.rs].
    - [Hash]: [crypto/src/hash.rs], [crypto/src/base58.rs].
    - [Encoding]: [encoding/src/types.rs] and [encoding.rs]: [Value], [Encoding],
      [TagMap] with its hash maps.
    - [Serializer]: [encoding/src/ser.rs], [error_context.rs]: every method of
      the serializers and the errors with their context.
    - [PathCodec]: the custom codec of Merkle paths
      ([messages/src/p2p/encoding/operations_for_blocks.rs]).
    - [BinaryWriter]: [encoding/src/binary_writer.rs], operating on the buffer as
      the code does: a placeholder for a length is written first and patched.
    - [Format]: the abstract format (which bytes a value has under a schema, no
      buffer and no patching) and the refinement of it by the writer.
    - [NomLib]: the combinators of the crate [nom]: operations, laws, instance.
    - [NomReader]: [encoding/src/nom.rs], [binary_reader.rs], and UTF-8 as the
      Rust standard library checks it.
    - [Zarith]: arbitrary precision integers, writer against reader.
    - [Derive]: [encoding-derive/src/encoding.rs], [enc.rs], [nom.rs]: what the
      generated code evaluates to, for any schema.
    - [DeriveRoundTrip]: which schemas are well formed, which data have a type,
      and that the generated reader inverts the writer for all of them.
    - [ReaderSound]: the converse: what a generated reader accepts has the type.
    - [Sizes]: least and largest size of the bytes of a schema.
    - [Make]: [encoding-derive/src/make.rs], [symbol.rs] on syntax trees.
    - [Crypto]: [crypto/src/blake2b.rs], [nonce.rs], [crypto_box.rs],
      [proof_of_work.rs].
    - [SeededStep]: [crypto/src/seeded_step.rs].
    - [MerklePath]: the reader of Merkle paths and its round trip.
    - [BinaryMessage]: [messages/src/p2p/binary_message.rs]: [as_bytes],
      [from_bytes], [size_from_chunk], chunks.
    - [Messages]: the declarations of [messages/src/p2p/encoding/*.rs] as input
      of [Make], the limits of [limits.rs], and the types they give.
    - [MessageTypes]: what is decoded from arbitrary bytes has the declared type.
    - [Network]: the messages of the handshake as records, and the negotiation
      of versions ([networking/src/lib.rs]).
    - [MessageSizes]: sizes of all messages against the limits.
    - [Stream]: [networking/src/p2p/stream.rs] over an abstract transport.
    - [P2pStream]: conversations between two ends.
    - [Handshake]: [bootstrap] of [networking/src/p2p/peer.rs], with its timeouts
      and errors, and what a node knows when it succeeds.
    - [HandshakeAgree]: two nodes that run it against each other.
    - [Kv]: [storage/src/persistent/codec.rs], [database.rs], [mod.rs]: codecs,
      typed access to a key-value store, errors.  The crates rocksdb and bincode
      are parameters.  State is passed by a small monad.
    - [Blocks]: the headers, heads and fitness that the storages share.
    - [BlockMeta]: [storage/src/block_meta_storage.rs]: the records of blocks, their
      bytes, the merge operator, the update for a header.
    - [Predecessors]: [storage/src/predecessor_storage.rs] and the searches of
      [block_meta_storage.rs] over the index of predecessors.
    - [OperationsMeta]: [storage/src/operations_meta_storage.rs]: which operations
      of a block have arrived.
    - [BlockStorage]: [storage/src/persistent/commit_log.rs],
      [storage/src/block_storage.rs]: headers and results in a log with indices.
    - [ChainMeta]: [storage/src/chain_meta_storage.rs]: heads of chains.
    - [StorageOps]: [storage/src/lib.rs]: the writes over several storages when a
      block was applied or the genesis block was committed.
    - [Fitness]: [shell/src/validation/mod.rs]: the two orders of fitness and the
      decisions that use them.
    - [Prevalidator]: results of validation ([tezos/api/src/ffi.rs]),
      [storage/src/mempool_storage.rs], [shell/src/mempool/mempool_state.rs] and the
      thread of [shell/src/mempool/mempool_prevalidator.rs].
    - [MempoolThread]: the steps that change memory and storage of the mempool, the
      invariant between them, the recovery at a restart.
    - [Validation]: the other decisions of [shell/src/validation/mod.rs], and the
      current head in memory and in the database ([shell/src/state/head_state.rs]).
    - [ShellState]: [shell/src/state/mod.rs], [peer_state.rs] and
      [synchronization_state.rs]: batches, peers with their queues, when the node is
      bootstrapped.
    - [Requester]: [shell/src/state/data_requester.rs]: what is asked from peers and
      accepted from them, which block of a batch is applied next.
    - [OperationsStorage]: [storage/src/operations_storage.rs].
    - [ChainState]: [shell/src/state/chain_state.rs] with the handlers of
      [shell/src/chain_manager.rs] for headers and operations.
    - [Downloads]: the steps of a node with many peers that concern operations, and
      the invariant between queues and storages.
    - [Bootstrap]: [shell/src/state/bootstrap_state.rs] and the handlers of
      [shell/src/peer_branch_bootstrapper.rs]: branches cut into intervals, what is
      downloaded next, batches of blocks to apply.
    - [BootstrapFacts]: the invariant of the branches under all messages.
    - [BootstrapSchedule]: the search for headers, the blocks that are sent, and two
      situations in which a branch does not go on.
    - [BlockApplier]: the thread of [shell/src/chain_feeder.rs] that gives blocks to the
      protocol, waits for the context and stores the results.
    - [BlockApplierFacts]: what a batch does to the storages and tells others.
    - [ChainFeeder]: the actor of the same file, with its queue and tickets, interleaved
      with the thread.
    - [FeederWitnesses]: a ledger of two blocks, and these theorems at it.
    - [ChainManager]: [shell/src/chain_manager.rs]: every message of the actor, from peers,
      from the shell and from timers, with what it tells others.
    - [HeadManager]: [shell/src/chain_current_head_manager.rs].
    - [ChainManagerFacts]: what a message can change, and how requests and injected
      blocks are answered.
    - [HeadManagerFacts]: both managers on the state they share.
    - [ShellWitnesses]: these theorems at the ledger with a connected peer.
    - [PeerManager]: [shell/src/peer_manager.rs]: the number of peers, the blacklist, the
      listener and the tasks that open connections, interleaved.
    - [PeerManagerFacts]: permits, limits, the blacklist, the check of the number of peers.
    - [PeerManagerWitnesses]: these theorems at runs of a node, and two runs that end
      otherwise than the code intends.
    - [MerkleTree]: [storage/src/context/merkle/mod.rs] and [merkle/hash/mod.rs]: entries
      of the context, ordered maps, the hashes that agree with those of Irmin, inodes.
    - [ContextStore]: [storage/src/context/kv_store], [storage/src/context/gc]: the
      interface of a store of entries, the store in memory, mark and sweep.
    - [ContextGc]: what the stores promise, and what a sweep keeps and removes.
    - [MarkMove]: [storage/src/context/gc/mark_move_gced.rs]: the store with a thread
      that collects garbage, as the steps of two threads over shared state.
    - [MarkMoveFacts], [MarkMoveWitnesses]: what it keeps and removes under all
      interleavings, that it comes to an end, and a concrete run.
    - [MerkleStorage]: [storage/src/context/merkle/merkle_storage.rs]: the working tree,
      its actions, commits and checkouts.
    - [MerkleFacts]: plain trees, and that the operations of [MerkleStorage] refine them.
    - [MerkleCommit]: commits followed by checkouts, and commits that are refused.
    - [MerkleBinding]: equal root hashes have equal trees.
    - [MerkleWitnesses]: these theorems at concrete trees.
    - [TezedgeContext]: [storage/src/context/tezedge_context.rs] and the replay of
      recorded actions ([storage/src/context/mod.rs], [actions]).
    - [TezedgeWitnesses]: a concrete replay.

    *** How the model corresponds to the code

    A Rust function is a Rocq function of the same name; a struct is a record,
    an enum an inductive type with the same constructors.  [Result] is
    [result], [?] is [let?].  Code that mutates a buffer or a counter takes the
    old one and returns the new one.  Machine integers are [Z] with the
    conversions, checked operations and wrap-around written out; [usize] has 64
    bits.  A panic (slice out of range, [unreachable!]) is an error value of
    its own or [None].  Third-party crates are parameters: a class of the
    operations that the code calls, a class of the laws that the theorems use,
    which are the documented behaviour of the crate, and a concrete instance on
    which the witnesses of the theorems are evaluated.

    The derive macros are modelled twice over, as they work: [Make] computes
    the schema of a declaration from its attributes, and [Derive] gives the
    writer's [Encoding] and the reader of a schema.  [Messages] feeds the
    declarations of the source into [Make], so that a limit, an attribute or a
    tag of a message is stated once, where the source has it.

    *** What the theorems show

    - Writer: it appends exactly the bytes of the abstract format, counts them,
      and fails exactly where the format is undefined ([writer_refines_format]).
    - Round trips: for any well-formed schema ([derive_roundtrip]), for every
      declared message ([message_roundtrip]), for Merkle paths, arbitrary
      precision integers, chunks and base58check texts.
    - Types: whatever bytes arrive, a decoded message is a value of its declared
      type ([message_decoded_typed]).
    - Sizes: lower and upper bounds for every message ([message_sizes]); no
      limit of the outer message refuses an inner one ([peer_message_fits]);
      announced sizes are exact, or off where the code is off
      ([size_from_chunk_exact], [ack_size_announced], [mempool_capacity]).
    - Errors: an unknown tag is not reported as such ([unknown_tag_not_reported]);
      writing fails on transport errors only ([write_fails_on_transport_only]).
    - Macros: no schema that [unreachable!] would hit ([make_encoding_no_unit]),
      order of attributes, termination of the attribute loops.
    - Cryptography: both ends compute matching nonces of 24 bytes, the search
      for a proof of work is sound and finds a stamp if there is one, the steps
      of a locator do not overflow.
    - Stream: messages written on one end are read on the other, in order, and
      the ends agree on nonces again afterwards ([stream_delivers]).
    - Handshake: a handshake that succeeds has made every check, whatever the
      other end did ([handshake_checks]); two compatible nodes succeed and agree
      ([handshake_agrees], [versions_agree]).
    - Tables: the merge operator on bytes is a merge of records ([merge_refines]);
      headers that arrive in any order are linked in both directions
      ([headers_linked]); the index of powers of two finds the same ancestor as
      a walk ([find_block_is_walk]); operations are complete exactly when all
      passes have arrived ([complete_exactly_when_all_arrived]); the block
      storage is a map ([block_storage_is_map]) and the facts of chains are cells
      ([chain_facts_are_cells]).
    - Composition of the tables: a block that is marked as applied has all its
      data, on every error path ([applied_block_stored]); the genesis block is
      stored consistently in all of them ([genesis_stored]).  A record that was
      read before a child arrived and is written back later loses the child
      ([applied_write_loses_successor]).
    - Shell: fitness is compared as documented ([fitness_cmp_is_documented]) by one
      of two orders that differ ([fitness_orders_differ]).  The mempool and its
      storage stay consistent for all answers of the protocol and all interleavings
      ([mempool_invariant]) and a restart recovers what is stored ([restart_recovers]).
      The head in memory is the head in the database and grows as long as the mempool
      is not behind it ([current_head_grows], [stale_context_lowers_head]).
    - Downloads: whatever peers send, receiving operations does not fail
      ([receive_operations_never_fails]) and complete blocks have exactly their
      operations ([complete_blocks_have_operations]); requests for the mempool
      ([mempool_requests_exact]), the next block of a batch
      ([batch_from_first_unapplied]) and the bootstrapped state
      ([bootstrapped_exactly]) are characterised exactly.
    - Bootstrapping: the intervals of branches stay linked and are worked on in order
      ([branches_in_order]); the search for headers and the collection of blocks end
      and return what they should ([next_missing_header], [interval_blocks_chain]);
      only blocks that are ready are sent, each once ([scheduled_blocks_ready]).  A
      batch over several intervals leaves its branch unfinished
      ([batch_over_intervals_idle]), and a failed block blocks its successors
      ([failed_block_blocks_successors]).
    - Application of blocks: whatever the protocol answers, a batch keeps the storages
      consistent and applies blocks in its order, each once ([batch_applies_in_order]);
      the cache of the block before makes no difference ([batch_cache_transparent]);
      permits, answers and reports are given as often as they should be
      ([batch_effects]); for all interleavings of the actor and the thread the tickets are
      respected, batches are taken in order, and none waits forever for a notice
      ([feeder_schedules]).
    - Managers: a message of a peer changes only what belongs to this peer, and gets at most
      the answers it asks for ([peer_message_confined]), which are what is stored
      ([requests_answered]); the contents of the mempool go only to peers that want them
      ([mempool_contents_private]); an injected block is answered exactly once
      ([injected_block_answered]); the head in memory, the head in the database and
      the head that was announced agree ([shell_heads_agree]).
    - Peers: permits for incoming connections are never lost or used twice
      ([peer_limits]); a blacklisted address is not contacted
      ([blacklisted_not_contacted]); a check brings the number of peers between the
      thresholds ([peer_count_checked]).
    - Context: reads after any sequence of changes agree with a plain tree
      ([context_refines]) and a change at one path leaves the others alone
      ([updates_are_local]); what was committed is found again after a checkout
      ([commit_checkout]), except that a directory with more than 256 entries cannot be
      committed ([large_directory_not_committed]); a root hash determines its tree as far as the
      hash function is free of collisions ([root_hash_binding]); a replayed commit is
      refused unless it gives the recorded hash ([replay_checks_hash]).  The sweep of
      old cycles removes the entries below a directory that is still in use
      ([sweep_removes_directories]).  The collecting thread keeps what is marked with all it
      refers to ([marked_entries_survive]), removes the rest
      ([unmarked_entries_removed]), and ends ([gc_finishes]).

    *** Fuel and bounds

    Loops that are not structural take a number of rounds.  The nom loops get
    the length of the input, enough since each iteration must consume a byte.
    The attribute loops of [Make] get the number of attributes, each round
    removing one ([make_rounds_enough]).  [chunks] gets the length of the
    content.  [read_message] runs for as many rounds as its caller allows and
    [stream_delivers] shows that the number of pieces is enough.  The search
    for a proof of work is over at most 2^192 candidates ([pow_generate]).
    The search for a power of two takes 31 rounds, since a distance has 31 bits,
    and the walk over the index as many rounds as the distance, which decreases
    ([find_block_is_walk] shows that they are enough).  Removing a scheduled block
    takes as many rounds as there are scheduled blocks.  The walks over predecessors
    of [Bootstrap] take a number of rounds; any number above the height of the block is
    enough ([next_missing_header], [interval_blocks_chain]).  The recursions over entries
    of the context read each level from the store, so that they are bounded by the
    store and not by a value; they take a number of rounds, the depth to which the
    stack allows them to go, and a tree of a smaller height is read completely
    ([context_refines], [commit_checkout]).  The wait for a context takes 480002 rounds:
    each of them lasts at least 15 milliseconds, and the timeout is two hours
    ([wait_for_context_ends]).

    *** What is not modelled, and why

    - The actor runtime, sockets, processes, HTTP, logging, command lines and the
      OCaml runtime: input and output without a functional content of its own.  Where
      actors or threads share state ([MarkMove], [ChainFeeder], [Downloads],
      [MempoolThread], [HeadManagerFacts], [PeerManager]) their steps are interleaved; memory is sequentially consistent.
    - Blake2b, SHA-256, the box primitive and [BigUint]: third-party code, kept
      as parameters.  [make_target] computes in floating point; its result, the
      target, is an argument.
    - The text of error messages beyond its arguments.
    - The database, the log and bincode: third-party code, kept as parameters
      with laws for a device that does not fail.  The tuning of the database.
    - The protocol: its answers are arguments of the steps that ask it. *)

From stdpp Require Export base list numbers strings.
From Stdlib Require Export ZArith Lia.

#[global] Open Scope Z_scope.

(** ** Rust's [Result] and the [?] operator *)

Inductive result (A E : Type) : Type :=
| Ok (a : A)
| Err (e : E).
Arguments Ok {A E} a.
Arguments Err {A E} e.

Declare Scope rust_scope.
Delimit Scope rust_scope with rust.

Notation "'let?' x ':=' c 'in' k" :=
  (match c with Ok x => k | Err e => Err e end)
  (at level 10, x pattern, c at level 100, k at level 200,
   format "'[v' 'let?'  x  ':='  c  'in' '/' k ']'") : rust_scope.

#[global] Open Scope rust_scope.

Definition map_err {A E F} (f : E → F) (r : result A E) : result A F :=
  match r with Ok a => Ok a | Err e => Err (f e) end.

Definition ok_or {A E} (o : option A) (e : E) : result A E :=
  match o with Some a => Ok a | None => Err e end.

#[global] Instance result_eq_dec {A E} `{EqDecision A, EqDecision E} :
  EqDecision (result A E).
Proof. solve_decision. Defined.

(** ** Bytes

    A [u8] is a [Z] in [0, 256); a [Vec<u8>] or [&[u8]] is a list of them. *)

Abbreviation bytes := (list Z).

Definition is_byte (b : Z) : Prop := 0 ≤ b < 256.
Abbreviation bytes_ok := (Forall is_byte).

Definition len {A} (l : list A) : Z := Z.of_nat (length l).

(** [usize] is 64 bits wide on the targets of the node. *)
Definition usize_max : Z := 2 ^ 64 - 1.
Definition u32_max : Z := 2 ^ 32 - 1.

Definition checked_add (a b : Z) : option Z :=
  if decide (a + b ≤ usize_max) then Some (a + b) else None.

Definition checked_sub (a b : Z) : option Z :=
  if decide (b ≤ a) then Some (a - b) else None.

(** Big-endian bytes of an integer, taken modulo [2^(8n)]; this is the two's
    complement representation for a negative number. *)
Fixpoint be_bytes (n : nat) (v : Z) : bytes :=
  match n with
  | O => []
  | S m => (v / 256 ^ Z.of_nat m) mod 256 :: be_bytes m v
  end.

Definition be_val (l : bytes) : Z := fold_left (λ acc b, acc * 256 + b) l 0.

(** The signed reading of a [w]-bit pattern. *)
Definition to_signed (w v : Z) : Z := if decide (v < 2 ^ (w - 1)) then v else v - 2 ^ w.

Definition int_range (w v : Z) : Prop := - 2 ^ (w - 1) ≤ v < 2 ^ (w - 1).
Definition uint_range (w v : Z) : Prop := 0 ≤ v < 2 ^ w.

(** ** Generic lemmas *)

Lemma len_nil {A} : len (@nil A) = 0.
Proof. done. Qed.
Lemma len_cons {A} (x : A) l : len (x :: l) = 1 + len l.
Proof. unfold len; simpl; lia. Qed.
Lemma len_app {A} (l k : list A) : len (l ++ k) = len l + len k.
Proof. unfold len; rewrite length_app; lia. Qed.
Lemma len_nonneg {A} (l : list A) : 0 ≤ len l.
Proof. unfold len; lia. Qed.
Lemma len_nat {A} (l : list A) : Z.to_nat (len l) = length l.
Proof. unfold len; lia. Qed.
Lemma len_map {A B} (f : A → B) l : len (map f l) = len l.
Proof. unfold len; rewrite length_map; done. Qed.

Lemma len_rev {A} (l : list A) : len (rev l) = len l.
Proof. unfold len; rewrite length_rev; done. Qed.

Lemma length_be_bytes n v : length (be_bytes n v) = n.
Proof. induction n; simpl; congruence. Qed.

Lemma len_be_bytes n v : len (be_bytes n v) = Z.of_nat n.
Proof. unfold len; rewrite length_be_bytes; done. Qed.

Lemma be_bytes_ok n v : bytes_ok (be_bytes n v).
Proof.
  induction n; simpl; constructor; [|done].
  apply Z.mod_pos_bound; lia.
Qed.

Lemma be_val_app l k : be_val (l ++ k) = be_val l * 256 ^ len k + be_val k.
Proof.
  unfold be_val. rewrite fold_left_app.
  generalize (fold_left (λ acc b, acc * 256 + b) l 0) as a.
  induction k as [|b k IH] using rev_ind; intros a.
  - rewrite len_nil; simpl; lia.
  - rewrite (fold_left_app _ k [b] a), (fold_left_app _ k [b] 0), (IH a); simpl.
    rewrite len_app, Z.pow_add_r by apply len_nonneg.
    change (len [b]) with 1. lia.
Qed.

Lemma be_val_cons b l : be_val (b :: l) = b * 256 ^ len l + be_val l.
Proof. apply (be_val_app [b] l). Qed.

Lemma pow256_pos n : 0 < 256 ^ Z.of_nat n.
Proof. apply Z.pow_pos_nonneg; lia. Qed.

Lemma be_val_bound l : bytes_ok l → 0 ≤ be_val l < 256 ^ len l.
Proof.
  induction 1 as [|b l Hb Hl IH]; [done|].
  rewrite be_val_cons, len_cons, Z.pow_add_r by (pose proof (len_nonneg l); lia).
  unfold is_byte in *. pose proof (pow256_pos (length l)) as Hp.
  unfold len in *. nia.
Qed.

Lemma be_val_be_bytes n v : be_val (be_bytes n v) = v mod 256 ^ Z.of_nat n.
Proof.
  induction n as [|n IH]; [simpl; symmetry; apply Z.mod_1_r|].
  cbn [be_bytes]. rewrite be_val_cons, len_be_bytes, IH, Nat2Z.inj_succ, Z.pow_succ_r by lia.
  pose proof (pow256_pos n). rewrite (Z.mul_comm 256), Z.rem_mul_r by lia. lia.
Qed.

Lemma be_bytes_mod n k v : (n ≤ k)%nat → be_bytes n (v mod 256 ^ Z.of_nat k) = be_bytes n v.
Proof.
  induction n as [|n IH]; intros Hk; [done|]. cbn [be_bytes]. rewrite IH by lia. f_equal.
  replace (Z.of_nat k) with (Z.of_nat n + 1 + (Z.of_nat k - Z.of_nat n - 1)) by lia.
  rewrite !Z.pow_add_r by lia. rewrite Z.pow_1_r.
  pose proof (pow256_pos n).
  assert (0 < 256 ^ (Z.of_nat k - Z.of_nat n - 1)) by (apply Z.pow_pos_nonneg; lia).
  set (B := 256 ^ (Z.of_nat k - Z.of_nat n - 1)) in *.
  rewrite (Z.mod_eq v) by nia. set (q := v / (256 ^ Z.of_nat n * 256 * B)).
  replace (v - 256 ^ Z.of_nat n * 256 * B * q)
    with (v + (- (B * q) * 256) * 256 ^ Z.of_nat n) by lia.
  rewrite Z.div_add by lia. by rewrite Z.mod_add by lia.
Qed.

Lemma be_bytes_be_val l : bytes_ok l → be_bytes (length l) (be_val l) = l.
Proof.
  induction 1 as [|b l Hb Hl IH]; [done|].
  cbn [length be_bytes]. rewrite be_val_cons. pose proof (be_val_bound l Hl) as Hb2.
  unfold len in *. unfold is_byte in Hb. f_equal.
  - rewrite Z.div_add_l by (pose proof (pow256_pos (length l)); lia).
    rewrite Z.div_small by lia. rewrite Z.add_0_r. by apply Z.mod_small.
  - rewrite <- (be_bytes_mod _ (length l)) by lia.
    rewrite Z.add_comm, Z.mod_add by (pose proof (pow256_pos (length l)); lia).
    rewrite Z.mod_small by lia. done.
Qed.

Lemma to_signed_mod w v : 0 < w → int_range w v → to_signed w (v mod 2 ^ w) = v.
Proof.
  intros Hw [Hl Hh]. unfold to_signed.
  assert (2 ^ w = 2 * 2 ^ (w - 1)) as E
    by (rewrite <- Z.pow_succ_r by lia; f_equal; lia).
  assert (0 < 2 ^ (w - 1)) by (apply Z.pow_pos_nonneg; lia).
  destruct (decide (0 ≤ v)).
  - rewrite Z.mod_small by lia. by rewrite decide_True by lia.
  - assert (v mod 2 ^ w = v + 2 ^ w) as ->.
    { symmetry. apply Z.mod_unique with (-1); lia. }
    rewrite decide_False by lia. lia.
Qed.

Lemma checked_add_small a b : a + b ≤ usize_max → checked_add a b = Some (a + b).
Proof. intros. unfold checked_add. by rewrite decide_True. Qed.

Lemma checked_sub_len {A} (data l : list A) : checked_sub (len (data ++ l)) (len data) = Some (len l).
Proof.
  unfold checked_sub. rewrite len_app. pose proof (len_nonneg l).
  rewrite decide_True by lia. f_equal; lia.
Qed.

Lemma checked_sub_nil {A} (l : list A) : checked_sub (len l) (len (@nil A)) = Some (len l).
Proof. apply (checked_sub_len [] l). Qed.

Lemma take_len_app {A} (l k : list A) : take (length l) (l ++ k) = l.
Proof. apply take_app_length. Qed.
Lemma drop_len_app {A} (l k : list A) : drop (length l) (l ++ k) = k.
Proof. apply drop_app_length. Qed.

Lemma fold_left_snoc {A} (l acc : list A) :
  fold_left (λ acc x, acc ++ [x]) l acc = acc ++ l.
Proof.
  revert acc. induction l as [|b k IH]; intros acc; simpl; [by rewrite app_nil_r|].
  by rewrite IH, <- app_assoc.
Qed.

Lemma combine_app {A B} (l1 l2 : list A) (k1 k2 : list B) :
  length l1 = length k1 → combine (l1 ++ l2) (k1 ++ k2) = combine l1 k1 ++ combine l2 k2.
Proof.
  revert k1. induction l1 as [|a l1 IH]; intros [|b k1] H; simplify_eq/=; [done|].
  by rewrite IH.
Qed.

(** A decidable statement about one byte is proved by trying the 256 bytes. *)
Lemma byte_check (P : Z → Prop) `{∀ b, Decision (P b)} :
  forallb (λ n, bool_decide (P (Z.of_nat n))) (seq 0 256) = true →
  ∀ b, is_byte b → P b.
Proof.
  intros Hall b Hb. unfold is_byte in Hb. rewrite forallb_forall in Hall.
  specialize (Hall (Z.to_nat b)). rewrite Z2Nat.id in Hall by lia.
  assert (bool_decide (P b) = true) as E by (apply Hall, in_seq; lia).
  by apply bool_decide_eq_true in E.
Qed.

(** ** Slices *)

(** [<[T]>::chunks]; every round takes something, so the length is enough. *)
Fixpoint chunks_loop {A} (rounds n : nat) (l : list A) : list (list A) :=
  match rounds, l with
  | S rounds', _ :: _ => take n l :: chunks_loop rounds' n (drop n l)
  | _, _ => []
  end.
Definition chunks {A} (n : nat) (l : list A) : list (list A) := chunks_loop (length l) n l.

Lemma chunks_loop_concat {A} n rounds (l : list A) :
  (0 < n)%nat → (length l ≤ rounds)%nat →
  concat (chunks_loop rounds n l) = l ∧
  Forall (λ c, c ≠ [] ∧ (length c ≤ n)%nat) (chunks_loop rounds n l).
Proof.
  intros Hn. revert l. induction rounds as [|rounds IH]; intros [|x l] Hl; cbn in Hl; try (by split);
    try lia.
  destruct (IH (drop n (x :: l))) as [E F]; [rewrite length_drop; cbn; lia|].
  cbn [chunks_loop concat]. rewrite E, take_drop. split; [done|].
  constructor; [|done]. split; [destruct n; [lia|done]|]. rewrite length_take. lia.
Qed.

Lemma chunks_concat {A} n (l : list A) :
  (0 < n)%nat →
  concat (chunks n l) = l ∧ Forall (λ c, c ≠ [] ∧ (length c ≤ n)%nat) (chunks n l).
Proof. intros Hn. by apply chunks_loop_concat. Qed.

Lemma chunks_head {A} n (l : list A) :
  (0 < n)%nat → l ≠ [] → ∃ cs, chunks n l = take n l :: cs.
Proof. intros Hn Hl. unfold chunks. destruct l as [|x l]; [done|]. cbn [length chunks_loop]. eauto. Qed.

Lemma chunks_one {A} n (l : list A) :
  l ≠ [] → (length l ≤ n)%nat → chunks n l = [l].
Proof.
  intros Hl Hn. unfold chunks. destruct l as [|x l]; [done|]. cbn [length chunks_loop].
  rewrite take_ge, drop_ge by done. by destruct (length l).
Qed.
