(* ===== verification/External.v ===== *)
(** * Interfaces of the third-party crates used by the encoding code

    The crates [bytes], [byteorder], [hex], [bit-vec] and [num-bigint] are not
    part of the repository.  Each one is a class of operations, which the
    definitions that call it take as an argument, and a class of laws, which
    state the documented behaviour that the theorems rely on.  The instances
    at the end are concrete functions that satisfy the laws; the witnesses
    evaluate the model with them. *)

From S2P Require Import Prelude.

(** ** [bytes::BufMut] on a [Vec<u8>] and [byteorder::WriteBytesExt] on a slice *)

Class BufMut : Type := {
  put_i8 : bytes → Z → bytes;
  put_u8 : bytes → Z → bytes;
  put_i16 : bytes → Z → bytes;
  put_u16 : bytes → Z → bytes;
  put_i32 : bytes → Z → bytes;
  put_u32 : bytes → Z → bytes;
  put_i64 : bytes → Z → bytes;
  put_f64 : bytes → Z → bytes;
  put_slice : bytes → bytes → bytes;
  (** [slice.write_u32::<BigEndian>(v)]: the contents of the slice afterwards,
      [None] for an I/O error. *)
  write_u32_be : bytes → Z → option bytes
}.

(** [put_X] appends the big-endian representation; an [f64] is given by its
    64-bit pattern. *)
Class BufMutLaws `{BufMut} : Prop := {
  put_i8_eq d v : put_i8 d v = d ++ be_bytes 1 v;
  put_u8_eq d v : put_u8 d v = d ++ be_bytes 1 v;
  put_i16_eq d v : put_i16 d v = d ++ be_bytes 2 v;
  put_u16_eq d v : put_u16 d v = d ++ be_bytes 2 v;
  put_i32_eq d v : put_i32 d v = d ++ be_bytes 4 v;
  put_u32_eq d v : put_u32 d v = d ++ be_bytes 4 v;
  put_i64_eq d v : put_i64 d v = d ++ be_bytes 8 v;
  put_f64_eq d v : put_f64 d v = d ++ be_bytes 8 v;
  put_slice_eq d s : put_slice d s = d ++ s;
  write_u32_be_eq s v : length s = 4%nat → write_u32_be s v = Some (be_bytes 4 v)
}.

Create Rewrite HintDb bufmut.
#[export] Hint Rewrite @put_i8_eq @put_u8_eq @put_i16_eq @put_u16_eq @put_i32_eq
  @put_u32_eq @put_i64_eq @put_f64_eq @put_slice_eq using typeclasses eauto : bufmut.

(** ** [hex::decode] on the bytes of a string *)

Definition hex_char (d : Z) : Z := if decide (d < 10) then 48 + d else 87 + d.

Class HexLib : Type := { hex_decode : bytes → option bytes }.

(** Two hexadecimal digits make a byte, high digit first; anything that is not
    a hexadecimal digit is an error. *)
Class HexLaws `{HexLib} : Prop := {
  hex_decode_nil : hex_decode [] = Some [];
  hex_decode_cons h l s :
    0 ≤ h < 16 → 0 ≤ l < 16 →
    hex_decode (hex_char h :: hex_char l :: s)
    = (λ bs, h * 16 + l :: bs) <$> hex_decode s
}.

(** ** [bit_vec::BitVec], a sequence of bits *)

(** The bits of a byte, most significant first. *)
Definition byte_bits (b : Z) : list bool :=
  map (λ i, Z.testbit b i) [7; 6; 5; 4; 3; 2; 1; 0].

Class BitVecLib : Type := {
  bitvec_from_bytes : bytes → list bool;
  bitvec_to_bytes : list bool → bytes
}.

Class BitVecLaws `{BitVecLib} : Prop := {
  bitvec_from_bytes_eq bs : bytes_ok bs → bitvec_from_bytes bs = concat (map byte_bits bs);
  bitvec_to_bytes_eq bs : bytes_ok bs → bitvec_to_bytes (concat (map byte_bits bs)) = bs
}.

(** ** [num_bigint::BigInt], an integer *)

Inductive Sign := Minus | NoSign | Plus.

Class BigIntLib : Type := {
  to_str_radix16 : Z → bytes;
  from_bytes_be : Sign → bytes → Z
}.

Definition digits_val (ds : list Z) : Z := fold_left (λ a d, a * 16 + d) ds 0.

Definition hex_digit (d : Z) : Prop := 0 ≤ d < 16.

(** [to_str_radix(16)] prints the digits of the absolute value without leading
    zeros, after a minus sign if the number is negative. *)
Class BigIntLaws `{BigIntLib} : Prop := {
  to_str_radix16_eq z : ∃ d ds,
    to_str_radix16 z = (if decide (z < 0) then [45] else []) ++ map hex_char (d :: ds) ∧
    Forall hex_digit (d :: ds) ∧ digits_val (d :: ds) = Z.abs z ∧ (d = 0 → ds = []);
  from_bytes_be_plus bs : bytes_ok bs → from_bytes_be Plus bs = be_val bs;
  from_bytes_be_minus bs : bytes_ok bs → from_bytes_be Minus bs = - be_val bs
}.

(** ** Concrete instances *)

Module Concrete.

#[export] Instance bufmut : BufMut := {|
  put_i8 d v := d ++ be_bytes 1 v; put_u8 d v := d ++ be_bytes 1 v;
  put_i16 d v := d ++ be_bytes 2 v; put_u16 d v := d ++ be_bytes 2 v;
  put_i32 d v := d ++ be_bytes 4 v; put_u32 d v := d ++ be_bytes 4 v;
  put_i64 d v := d ++ be_bytes 8 v; put_f64 d v := d ++ be_bytes 8 v;
  put_slice d s := d ++ s;
  write_u32_be s v :=
    if decide (4 ≤ length s)%nat then Some (be_bytes 4 v ++ drop 4 s) else None
|}.

#[export] Instance bufmut_laws : BufMutLaws.
Proof.
  constructor; try reflexivity.
  intros s v Hs. cbn -[be_bytes]. rewrite decide_True by lia.
  by rewrite drop_ge, app_nil_r by lia.
Qed.

Definition unhex (c : Z) : option Z :=
  if decide (48 ≤ c ≤ 57) then Some (c - 48)
  else if decide (97 ≤ c ≤ 102) then Some (c - 87)
  else if decide (65 ≤ c ≤ 70) then Some (c - 55)
  else None.

Fixpoint hex_pairs (s : bytes) : option bytes :=
  match s with
  | [] => Some []
  | [_] => None
  | a :: b :: s' =>
      match unhex a, unhex b, hex_pairs s' with
      | Some h, Some l, Some bs => Some (h * 16 + l :: bs)
      | _, _, _ => None
      end
  end.

#[export] Instance hexlib : HexLib := {| hex_decode := hex_pairs |}.

Lemma unhex_hex_char d : 0 ≤ d < 16 → unhex (hex_char d) = Some d.
Proof.
  intros Hd. unfold unhex, hex_char. destruct (decide (d < 10)).
  - rewrite decide_True by lia. f_equal; lia.
  - rewrite decide_False, decide_True by lia. f_equal; lia.
Qed.

#[export] Instance hex_laws : HexLaws.
Proof.
  constructor; [done|]. intros h l s Hh Hl. cbn.
  rewrite !unhex_hex_char by done. by destruct (hex_pairs s).
Qed.

Fixpoint bits_to_bytes (bits : list bool) : bytes :=
  match bits with
  | a :: b :: c :: d :: e :: f :: g :: h :: rest =>
      fold_left (λ acc (x : bool), acc * 2 + Z.b2z x) [a; b; c; d; e; f; g; h] 0
      :: bits_to_bytes rest
  | [] => []
  | short =>
      [fold_left (λ acc (x : bool), acc * 2 + Z.b2z x)
                 (short ++ replicate (8 - length short) false) 0]
  end.

#[export] Instance bitveclib : BitVecLib := {|
  bitvec_from_bytes bs := concat (map byte_bits bs);
  bitvec_to_bytes := bits_to_bytes
|}.

Lemma byte_of_bits b :
  is_byte b → fold_left (λ acc (x : bool), acc * 2 + Z.b2z x) (byte_bits b) 0 = b.
Proof.
  revert b. refine (byte_check (λ b, fold_left _ (byte_bits b) 0 = b) _). by vm_compute.
Qed.

#[export] Instance bitvec_laws : BitVecLaws.
Proof.
  constructor; [done|]. cbn [bitvec_to_bytes bitveclib].
  induction 1 as [|b bs Hb Hbs IH]; [done|].
  cbn [map concat]. rewrite <- (byte_of_bits b Hb) at 2. rewrite <- IH at 2. done.
Qed.

Fixpoint hex_digits (fuel : nat) (n : Z) (acc : list Z) : list Z :=
  match fuel with
  | O => n :: acc
  | S f => if decide (n < 16) then n :: acc else hex_digits f (n / 16) (n mod 16 :: acc)
  end.

#[export] Instance bigintlib : BigIntLib := {|
  to_str_radix16 z :=
    (if decide (z < 0) then [45] else [])
    ++ map hex_char (hex_digits (Z.to_nat (Z.log2_up (Z.abs z + 1))) (Z.abs z) []);
  from_bytes_be s bs :=
    match s with Minus => - be_val bs | NoSign => 0 | Plus => be_val bs end
|}.

Lemma digits_val_app ds k d :
  fold_left (λ a d, a * 16 + d) (ds ++ k) d = fold_left (λ a d, a * 16 + d) k
    (fold_left (λ a d, a * 16 + d) ds d).
Proof. apply fold_left_app. Qed.

Lemma hex_digits_spec fuel n acc :
  0 ≤ n < 2 ^ Z.of_nat fuel → Forall hex_digit acc →
  ∃ d ds, hex_digits fuel n acc = d :: ds ∧ Forall hex_digit (d :: ds)
    ∧ digits_val (d :: ds) = fold_left (λ a d, a * 16 + d) acc n
    ∧ (d = 0 → n = 0 ∧ ds = acc).
Proof.
  revert n acc. induction fuel as [|f IH]; intros n acc Hn Hacc; cbn [hex_digits].
  - change (2 ^ Z.of_nat 0) with 1 in Hn. exists n, acc. assert (n = 0) as -> by lia.
    repeat split; [constructor; [split; lia|done]|done..].
  - destruct (decide (n < 16)).
    + exists n, acc. repeat split; [constructor; [split; lia|done]|done..].
    + rewrite Nat2Z.inj_succ, Z.pow_succ_r in Hn by lia.
      destruct (IH (n / 16) (n mod 16 :: acc)) as (d & ds & E & F & V & N).
      * split; [apply Z.div_pos; lia|]. apply Z.div_lt_upper_bound; lia.
      * constructor; [apply Z.mod_pos_bound; lia|done].
      * exists d, ds. split; [done|]. split; [done|]. split.
        -- rewrite V. cbn [fold_left]. f_equal. pose proof (Z.div_mod n 16). lia.
        -- intros H0. destruct (N H0) as [? ?].
           assert (0 < n / 16) by (apply Z.div_str_pos; lia). lia.
Qed.

#[export] Instance bigint_laws : BigIntLaws.
Proof.
  constructor; try done. intros z.
  destruct (hex_digits_spec (Z.to_nat (Z.log2_up (Z.abs z + 1))) (Z.abs z) [])
    as (d & ds & E & F & V & N).
  - rewrite Z2Nat.id by apply Z.log2_up_nonneg. split; [lia|].
    destruct (decide (z = 0)) as [->|]; [done|].
    pose proof (Z.log2_log2_up_spec (Z.abs z + 1)). lia.
  - constructor.
  - exists d, ds. cbn [to_str_radix16 bigintlib]. rewrite E. repeat split; try done.
    intros H0. by destruct (N H0).
Qed.

End Concrete.
