(* ===== verification/BitUtils.v ===== *)
(** * Bit manipulation: [tezos/encoding/src/bit_utils.rs]

    The trait [Bits] on unsigned machine integers (parameterised here by the
    width [w]: 8, 16 or 32) and the extensions of [BitVec] by [reverse],
    [trim_left] and [to_byte_vec].  A [BitVec] is a [list bool]. *)

From S2P Require Import Prelude.

Inductive BitsError := IndexOutOfRange.

#[global] Instance BitsError_eq_dec : EqDecision BitsError.
Proof. solve_decision. Defined.

(** ** The trait [Bits] *)

Module Bits.

Definition MASK (w : Z) : Z := w - 1.

(** [!x] on a [w]-bit unsigned integer. *)
Definition bnot (w x : Z) : Z := Z.lxor x (Z.ones w).

Definition set (w self place : Z) (value : bool) : result Z BitsError :=
  if decide (place > MASK w) then Err IndexOutOfRange
  else
    (* Blank the selected bit *)
    let self := Z.land self (bnot w (Z.shiftl 1 place)) in
    (* Set the selected bit *)
    Ok (Z.lor self (Z.shiftl (Z.b2z value) place)).

Definition get (w self place : Z) : result bool BitsError :=
  if decide (place > MASK w) then Err IndexOutOfRange
  else Ok (Z.land (Z.shiftr self place) 1 =? 1).

(** [take] returns the bit and the integer with that bit reset. *)
Definition take (w self place : Z) : result (bool * Z) BitsError :=
  if decide (place > MASK w) then Err IndexOutOfRange
  else
    let mask := Z.shiftl 1 place in
    let neg_mask := bnot w mask in
    let mask := Z.land mask self in
    Ok (negb (mask =? 0), Z.land self neg_mask).

End Bits.

(** ** Extensions of [BitVec] *)

Definition bit_reverse (self : list bool) : list bool :=
  fold_left (λ reversed bit, reversed ++ [bit]) (rev self) [].

Definition trim_left (self : list bool) : list bool :=
  fst (fold_left
    (λ '(trimmed, notrim) (bit : bool),
       if bit then (trimmed ++ [bit], true)
       else if (notrim : bool) then (trimmed ++ [bit], notrim)
       else (trimmed, notrim))
    self ([], false)).

(** The loop body of [to_byte_vec]; its state is [(bytes, byte, offset)]. *)
Definition to_byte_vec_step (st : bytes * Z * Z) (p : nat * bool) : bytes * Z * Z :=
  let '(bs, byte, _) := st in
  let '(idx_bit, bit) := p in
  let idx_byte := Z.of_nat idx_bit mod 8 in
  (* the index is below 8, so [set] does not fail *)
  let byte := match Bits.set 8 byte idx_byte bit with Ok b => b | Err _ => byte end in
  if idx_byte =? 7 then (bs ++ [byte], 0, idx_byte) else (bs, byte, idx_byte).

Definition to_byte_vec (self : list bool) : bytes :=
  let '(bs, byte, offset) :=
    fold_left to_byte_vec_step (combine (seq 0 (length self)) (rev self)) ([], 0, 0) in
  rev (if offset =? 7 then bs else bs ++ [byte]).

(** ** Theorems on [Bits] *)

Lemma testbit_bnot w x i :
  0 ≤ i < w → Z.testbit (Bits.bnot w x) i = negb (Z.testbit x i).
Proof.
  intros Hi. unfold Bits.bnot. rewrite Z.lxor_spec, Z.ones_spec_low by lia.
  apply xorb_true_r.
Qed.

Lemma testbit_one_shiftl place i :
  0 ≤ place → 0 ≤ i → Z.testbit (Z.shiftl 1 place) i = bool_decide (i = place).
Proof.
  intros Hp Hi. rewrite Z.shiftl_1_l, Z.pow2_bits_eqb by lia.
  destruct (Z.eqb_spec place i), (decide (i = place)); subst; try lia.
  - by rewrite bool_decide_true.
  - by rewrite bool_decide_false.
Qed.

Lemma testbit_b2z_shiftl (v : bool) place i :
  0 ≤ place → 0 ≤ i → Z.testbit (Z.shiftl (Z.b2z v) place) i = v && bool_decide (i = place).
Proof.
  intros Hp Hi. destruct v; simpl Z.b2z.
  - by apply testbit_one_shiftl.
  - by rewrite Z.shiftl_0_l, Z.bits_0.
Qed.

Lemma uint_range_testbit w x i : uint_range w x → w ≤ i → Z.testbit x i = false.
Proof.
  intros [H0 H1] Hi. destruct (decide (x = 0)) as [->|]; [apply Z.bits_0|].
  apply Z.bits_above_log2; [lia|]. apply Z.log2_lt_pow2; [lia|].
  apply Z.lt_le_trans with (2 ^ w); [done|].
  apply Z.pow_le_mono_r; lia.
Qed.

Lemma testbit_uint_range w x :
  0 ≤ w → 0 ≤ x → (∀ i, w ≤ i → Z.testbit x i = false) → uint_range w x.
Proof.
  intros Hw Hx H. split; [done|].
  destruct (Z.lt_ge_cases x (2 ^ w)) as [|Hge]; [done|]. exfalso.
  assert (0 < x) by (pose proof (Z.pow_pos_nonneg 2 w); lia).
  specialize (H (Z.log2 x)). rewrite Z.bit_log2 in H by done.
  assert (w ≤ Z.log2 x) by (apply Z.log2_le_pow2; lia). by apply H in H1.
Qed.

Lemma bits_set_spec w self place value :
  0 ≤ place < w → uint_range w self →
  ∃ r, Bits.set w self place value = Ok r ∧ uint_range w r ∧
    ∀ i, 0 ≤ i → Z.testbit r i = if decide (i = place) then value else Z.testbit self i.
Proof.
  intros Hp Hs. unfold Bits.set, Bits.MASK. rewrite decide_False by lia.
  eexists; split; [done|].
  assert (∀ i, 0 ≤ i → Z.testbit (Z.lor (Z.land self (Bits.bnot w (Z.shiftl 1 place)))
      (Z.shiftl (Z.b2z value) place)) i
      = if decide (i = place) then value else Z.testbit self i) as Hbit.
  { intros i Hi. rewrite Z.lor_spec, Z.land_spec, testbit_b2z_shiftl by lia.
    destruct (Z.lt_ge_cases i w).
    - rewrite testbit_bnot, testbit_one_shiftl by lia.
      destruct (decide (i = place)) as [->|Hne].
      + rewrite !bool_decide_true by done. by rewrite andb_false_r, andb_true_r.
      + rewrite !bool_decide_false by done. by rewrite andb_true_r, andb_false_r, orb_false_r.
    - rewrite (uint_range_testbit w self) by (done || lia).
      rewrite decide_False by lia. rewrite bool_decide_false by lia. by rewrite andb_false_r. }
  split; [|done].
  apply testbit_uint_range; [lia| |].
  - apply Z.lor_nonneg. split; [apply Z.land_nonneg; left; apply Hs|].
    apply Z.shiftl_nonneg; destruct value; simpl; lia.
  - intros i Hi. rewrite Hbit by lia. rewrite decide_False by lia.
    by apply (uint_range_testbit w).
Qed.

Lemma bits_get_spec w self place :
  0 ≤ place < w → Bits.get w self place = Ok (Z.testbit self place).
Proof.
  intros Hp. unfold Bits.get, Bits.MASK. rewrite decide_False by lia. f_equal.
  change 1 with (Z.ones 1) at 1. rewrite Z.land_ones by lia. change (2 ^ 1) with 2.
  rewrite <- Z.bit0_mod, Z.shiftr_spec, Z.add_0_l by lia. by destruct (Z.testbit self place).
Qed.

Lemma bits_take_spec w self place :
  0 ≤ place < w → uint_range w self →
  ∃ r, Bits.take w self place = Ok (Z.testbit self place, r) ∧ uint_range w r ∧
    ∀ i, 0 ≤ i → Z.testbit r i = if decide (i = place) then false else Z.testbit self i.
Proof.
  intros Hp Hs. destruct (bits_set_spec w self place false Hp Hs) as (r & E & R & T).
  unfold Bits.set, Bits.take, Bits.MASK in *.
  rewrite decide_False in E by lia. rewrite decide_False by lia.
  injection E as <-. simpl Z.b2z in *. rewrite Z.shiftl_0_l, Z.lor_0_r in *.
  exists (Z.land self (Bits.bnot w (Z.shiftl 1 place))). split; [|done].
  f_equal. f_equal. rewrite Z.shiftl_1_l, Z.land_comm.
  destruct (Z.testbit self place) eqn:Ht.
  - destruct (Z.eqb_spec (Z.land self (2 ^ place)) 0) as [H0|]; [|done].
    apply (f_equal (λ x, Z.testbit x place)) in H0.
    by rewrite Z.land_spec, Ht, Z.pow2_bits_true, Z.bits_0 in H0 by lia.
  - replace (Z.land self (2 ^ place)) with 0; [done|]. symmetry. apply Z.bits_inj'.
    intros i Hi. rewrite Z.land_spec, Z.bits_0, Z.pow2_bits_eqb by lia.
    destruct (Z.eqb_spec place i) as [<-|]; [by rewrite Ht|apply andb_false_r].
Qed.

(** Setting a bit that is clear adds its weight. *)
Lemma bits_set_add w self place (value : bool) :
  0 ≤ place < w → uint_range w self → Z.testbit self place = false →
  Bits.set w self place value = Ok (self + Z.b2z value * 2 ^ place).
Proof.
  intros Hp Hs Ht. destruct (bits_set_spec w self place value Hp Hs) as (r & -> & _ & T).
  f_equal. rewrite <- Z.shiftl_mul_pow2 by lia.
  assert (Z.land self (Z.shiftl (Z.b2z value) place) = 0) as Hl.
  { apply Z.bits_inj'. intros i Hi. rewrite Z.land_spec, testbit_b2z_shiftl, Z.bits_0 by lia.
    destruct (decide (i = place)) as [->|]; [by rewrite Ht|].
    by rewrite bool_decide_false, !andb_false_r. }
  rewrite Z.add_nocarry_lxor, Z.lxor_lor by done. apply Z.bits_inj'. intros i Hi.
  rewrite T, Z.lor_spec, testbit_b2z_shiftl by lia.
  destruct (decide (i = place)) as [->|]; [by rewrite Ht, bool_decide_true, andb_true_r|].
  by rewrite bool_decide_false, andb_false_r, orb_false_r.
Qed.

Lemma testbit_small x i : 0 ≤ x < 2 ^ i → Z.testbit x i = false.
Proof. intros Hx. by apply (uint_range_testbit i). Qed.

(** ** Theorems on [BitVec] *)

Lemma bit_reverse_rev l : bit_reverse l = rev l.
Proof. apply fold_left_snoc. Qed.

(** The number written by a sequence of bits, most significant first. *)
Definition bits_val (l : list bool) : Z := fold_left (λ a (b : bool), a * 2 + Z.b2z b) l 0.

Lemma bits_val_app l k : bits_val (l ++ k) = bits_val l * 2 ^ len k + bits_val k.
Proof.
  unfold bits_val. rewrite fold_left_app.
  generalize (fold_left (λ a (b : bool), a * 2 + Z.b2z b) l 0) as a.
  induction k as [|b k IH] using rev_ind; intros a.
  - rewrite len_nil; simpl; lia.
  - rewrite (fold_left_app _ k [b] a), (fold_left_app _ k [b] 0), (IH a); simpl.
    rewrite len_app, Z.pow_add_r by apply len_nonneg.
    change (len [b]) with 1. lia.
Qed.

Lemma bits_val_cons b l : bits_val (b :: l) = Z.b2z b * 2 ^ len l + bits_val l.
Proof. apply (bits_val_app [b] l). Qed.

Lemma bits_val_snoc l b : bits_val (l ++ [b]) = bits_val l * 2 + Z.b2z b.
Proof. rewrite bits_val_app. change (len [b]) with 1. by destruct b. Qed.

Lemma bits_val_bound l : 0 ≤ bits_val l < 2 ^ len l.
Proof.
  induction l as [|b l IH] using rev_ind; [done|].
  rewrite bits_val_snoc, len_app, Z.pow_add_r by apply len_nonneg.
  change (len [b]) with 1. destruct b; simpl; lia.
Qed.

Lemma trim_left_aux l acc :
  fold_left (λ '(trimmed, notrim) (bit : bool),
     if bit then (trimmed ++ [bit], true)
     else if (notrim : bool) then (trimmed ++ [bit], notrim)
     else (trimmed, notrim)) l (acc, true) = (acc ++ l, true).
Proof.
  revert acc. induction l as [|b l IH]; intros acc; simpl; [by rewrite app_nil_r|].
  destruct b; rewrite IH, <- app_assoc; done.
Qed.

Lemma trim_left_cons b l : trim_left (b :: l) = if b then b :: l else trim_left l.
Proof.
  unfold trim_left; destruct b; simpl; [|done]. by rewrite trim_left_aux.
Qed.

(** [trim_left] drops the leading zeros and nothing else. *)
Lemma trim_left_spec l :
  ∃ n, l = replicate n false ++ trim_left l ∧
       (trim_left l = [] ∨ ∃ k, trim_left l = true :: k).
Proof.
  induction l as [|b l (n & E & H)]; [exists 0%nat; auto|].
  rewrite trim_left_cons. destruct b.
  - exists 0%nat. eauto.
  - exists (S n). simpl. by rewrite <- E.
Qed.

Lemma bits_val_replicate_false n l : bits_val (replicate n false ++ l) = bits_val l.
Proof. induction n; simpl; [done|]. by rewrite bits_val_cons, IHn. Qed.

Lemma trim_left_val l : bits_val (trim_left l) = bits_val l.
Proof.
  destruct (trim_left_spec l) as (n & E & _). rewrite E at 2.
  by rewrite bits_val_replicate_false.
Qed.

Lemma bits_val_inj l k : length l = length k → bits_val l = bits_val k → l = k.
Proof.
  revert k. induction l as [|a l IH] using rev_ind; intros k Hl Hv.
  - by destruct k.
  - destruct k as [|b k _] using rev_ind; [rewrite length_app in Hl; simpl in Hl; lia|].
    rewrite !length_app in Hl; simpl in Hl. rewrite !bits_val_snoc in Hv.
    rewrite (IH k) by (destruct a, b; simpl in *; lia).
    f_equal. destruct a, b; simpl in *; try done; lia.
Qed.

Lemma combine_seq_snoc {A} (k : list A) b :
  combine (seq 0 (length (k ++ [b]))) (k ++ [b]) = combine (seq 0 (length k)) k ++ [(length k, b)].
Proof.
  rewrite length_app, Nat.add_1_r, seq_S. simpl. rewrite combine_app by apply length_seq. done.
Qed.

(** The state of the loop of [to_byte_vec] after the bits [k] (least
    significant first). *)
Definition to_byte_vec_inv (k : list bool) (st : bytes * Z * Z) : Prop :=
  let '(bs, byte, offset) := st in
  len bs = len k / 8 ∧ bytes_ok bs ∧ 0 ≤ byte < 2 ^ (len k mod 8) ∧
  bits_val (rev k) = byte * 256 ^ len bs + be_val (rev bs) ∧
  (offset = if decide (k = []) then 0 else (len k - 1) mod 8).

Lemma to_byte_vec_set byte i bit :
  0 ≤ i < 8 → 0 ≤ byte < 2 ^ i →
  Bits.set 8 byte i bit = Ok (byte + Z.b2z bit * 2 ^ i) ∧
  0 ≤ byte + Z.b2z bit * 2 ^ i < 2 ^ (i + 1) ∧ 2 ^ (i + 1) ≤ 256.
Proof.
  intros Hi Hb.
  assert (2 ^ (i + 1) ≤ 256) as Hle
    by (change 256 with (2 ^ 8); apply Z.pow_le_mono_r; lia).
  rewrite Z.pow_add_r, Z.pow_1_r in * by lia. split; [|destruct bit; simpl; lia].
  apply bits_set_add; [done| |by apply testbit_small].
  split; [lia|]. change (2 ^ 8) with 256. lia.
Qed.

Lemma pow2_len_split (n m : Z) : 0 ≤ n → m = n / 8 → 2 ^ n = 256 ^ m * 2 ^ (n mod 8).
Proof.
  intros Hn ->. change 256 with (2 ^ 8).
  rewrite <- Z.pow_mul_r, <- Z.pow_add_r
    by (try apply Z.mul_nonneg_nonneg; try apply Z.div_pos; try apply Z.mod_pos_bound; lia).
  f_equal. apply Z.div_mod; lia.
Qed.

Lemma to_byte_vec_inv_step k b st :
  to_byte_vec_inv k st → to_byte_vec_inv (k ++ [b]) (to_byte_vec_step st (length k, b)).
Proof.
  destruct st as [[bs byte] offset]. intros (L & B & R & V & O).
  cbn [to_byte_vec_step]. fold (len k).
  pose proof (len_nonneg k) as Hk. pose proof (Z.div_mod (len k) 8 ltac:(lia)) as Hdm.
  pose proof (Z.mod_pos_bound (len k) 8 ltac:(lia)) as Hi.
  pose proof (pow2_len_split (len k) (len bs) Hk L) as Hpow.
  set (i := len k mod 8) in *. destruct (to_byte_vec_set byte i b Hi R) as (-> & Hr & H256).
  assert (bits_val (rev (k ++ [b])) = (byte + Z.b2z b * 2 ^ i) * 256 ^ len bs + be_val (rev bs)) as V'.
  { rewrite rev_unit, bits_val_cons, V. rewrite len_rev, Hpow. lia. }
  assert (len (k ++ [b]) = len k + 1) as Hl by (rewrite len_app; done).
  assert (i = if decide (k ++ [b] = []) then 0 else (len (k ++ [b]) - 1) mod 8) as O'.
  { rewrite decide_False by (by destruct k). rewrite Hl. unfold i. f_equal. lia. }
  unfold to_byte_vec_inv.
  destruct (Z.eqb_spec i 7) as [H7|H7]; rewrite V', Hl in *.
  - replace ((len k + 1) mod 8) with 0 by (apply Z.mod_unique with (len k / 8 + 1); lia).
    replace ((len k + 1) / 8) with (len bs + 1) by (apply Z.div_unique with 0; lia).
    rewrite rev_unit, be_val_cons, len_app, len_rev.
    repeat split; try done; try lia. apply Forall_app; split; [done|].
    constructor; [unfold is_byte; lia|done].
  - replace ((len k + 1) mod 8) with (i + 1) by (apply Z.mod_unique with (len k / 8); lia).
    replace ((len k + 1) / 8) with (len bs) by (apply Z.div_unique with (i + 1); lia).
    repeat split; try done; lia.
Qed.

Lemma to_byte_vec_loop k :
  to_byte_vec_inv k
    (fold_left to_byte_vec_step (combine (seq 0 (length k)) k) ([], 0, 0)).
Proof.
  induction k as [|b k IH] using rev_ind; [repeat split; done|].
  rewrite combine_seq_snoc, fold_left_app. by apply to_byte_vec_inv_step.
Qed.

(** [to_byte_vec] is the big-endian byte representation of the number the bits
    write. *)
Lemma to_byte_vec_val l : be_val (to_byte_vec l) = bits_val l.
Proof.
  unfold to_byte_vec. pose proof (to_byte_vec_loop (rev l)) as Hinv. rewrite length_rev in Hinv.
  destruct (fold_left _ _ _) as [[bs byte] o]. destruct Hinv as (L & B & R & V & O).
  rewrite rev_involutive in V. rewrite V.
  destruct (Z.eqb_spec o 7) as [H7|H7].
  - destruct (decide (rev l = [])); [lia|].
    assert (len (rev l) mod 8 = 0) as H0.
    { rewrite O in H7. pose proof (Z.div_mod (len (rev l) - 1) 8).
      symmetry. apply Z.mod_unique with ((len (rev l) - 1) / 8 + 1); lia. }
    rewrite H0 in R. change (2 ^ 0) with 1 in R. replace byte with 0 by lia. lia.
  - by rewrite rev_unit, be_val_cons, len_rev.
Qed.
