(* ===== verification/Hash.v ===== *)
(** * Typed hashes and base58check: [crypto/src/hash.rs], [crypto/src/base58.rs]

    A hash is a byte vector whose length is fixed by its [HashType]; the text
    form is the base58 encoding of a type prefix, the bytes and the first four
    bytes of a double SHA-256.  SHA-256 ([sodiumoxide]) and the base58 digits
    (crate [base58]) are parameters. *)

From S2P Require Import Prelude.

(** ** Hash types *)

Inductive HashType :=
| ChainId | BlockHash | BlockMetadataHash | ProtocolHash | ContextHash
| OperationHash | OperationListListHash | OperationMetadataHash
| OperationMetadataListListHash | CryptoboxPublicKeyHash | ContractKt1Hash
| ContractTz1Hash | ContractTz2Hash | ContractTz3Hash | PublicKeyEd25519
| PublicKeySecp256k1 | PublicKeyP256.

#[global] Instance HashType_eq_dec : EqDecision HashType.
Proof. solve_decision. Defined.

Definition base58check_prefix (self : HashType) : bytes :=
  match self with
  | ChainId => [87; 82; 0]
  | BlockHash => [1; 52]
  | BlockMetadataHash => [234; 249]
  | ContextHash => [79; 199]
  | ProtocolHash => [2; 170]
  | OperationHash => [5; 116]
  | OperationListListHash => [29; 159; 109]
  | OperationMetadataHash => [5; 183]
  | OperationMetadataListListHash => [29; 159; 182]
  | CryptoboxPublicKeyHash => [153; 103]
  | ContractKt1Hash => [2; 90; 121]
  | ContractTz1Hash => [6; 161; 159]
  | ContractTz2Hash => [6; 161; 161]
  | ContractTz3Hash => [6; 161; 164]
  | PublicKeyEd25519 => [13; 15; 37; 217]
  | PublicKeySecp256k1 => [3; 254; 226; 86]
  | PublicKeyP256 => [3; 178; 139; 127]
  end.

(** Size of hash in bytes. *)
Definition size (self : HashType) : Z :=
  match self with
  | ChainId => 4
  | BlockHash | BlockMetadataHash | ContextHash | ProtocolHash | OperationHash
  | OperationListListHash | OperationMetadataHash | OperationMetadataListListHash
  | PublicKeyEd25519 => 32
  | CryptoboxPublicKeyHash => 16
  | ContractKt1Hash | ContractTz1Hash | ContractTz2Hash | ContractTz3Hash => 20
  | PublicKeySecp256k1 | PublicKeyP256 => 33
  end.

Inductive FromBytesError := InvalidSize.

(** [X::try_from_bytes] of the hash type [X] (all the conversions from bytes go
    through this check). *)
Definition try_from_bytes (self : HashType) (data : bytes) : result bytes FromBytesError :=
  if decide (len data = size self) then Ok data else Err InvalidSize.

(** ** base58check *)

Inductive FromBase58CheckError :=
| InvalidBase58
| InvalidChecksum
| MissingChecksum
| FromDataTooLong
| MismatchedLength (expected actual : Z).

Inductive ToBase58CheckError := ToDataTooLong.

(** Outcome of a function that reaches [unreachable!] for some errors. *)
Inductive hash_error :=
| FromBytes (e : FromBytesError)
| Unreachable.

Class Base58Lib : Type := {
  sha256_hash : bytes → bytes;
  to_base58 : bytes → string;
  from_base58 : string → option bytes
}.

Class Base58Laws `{Base58Lib} : Prop := {
  (** a SHA-256 digest has 32 bytes *)
  sha256_length d : length (sha256_hash d) = 32%nat;
  sha256_bytes d : bytes_ok (sha256_hash d);
  (** base58 is a positional encoding that decoding inverts *)
  from_to_base58 d : bytes_ok d → from_base58 (to_base58 d) = Some d;
  (** a byte takes less than 1.38 base58 digits *)
  to_base58_length d : (100 * String.length (to_base58 d) ≤ 138 * length d + 100)%nat
}.

Section Base58.
Context `{Base58Lib}.

Definition CHECKSUM_BYTE_SIZE : Z := 4.

Definition double_sha256 (data : bytes) : bytes := sha256_hash (sha256_hash data).

Definition to_base58check (self : bytes) : result string ToBase58CheckError :=
  if decide (len self > 128) then Err ToDataTooLong
  else
    let checksum := double_sha256 self in
    let payload := self ++ take 4 checksum in
    Ok (to_base58 payload).

Definition from_base58check (self : string) : result bytes FromBase58CheckError :=
  if decide (Z.of_nat (String.length self) > 128) then Err FromDataTooLong
  else
    match from_base58 self with
    | Some payload =>
        if decide (len payload >= CHECKSUM_BYTE_SIZE) then
          let data_len := Z.to_nat (len payload - CHECKSUM_BYTE_SIZE) in
          let data := take data_len payload in
          let checksum_provided := drop data_len payload in
          let checksum_expected := take 4 (double_sha256 data) in
          if decide (checksum_expected = checksum_provided) then Ok data
          else Err InvalidChecksum
        else Err MissingChecksum
    | None => Err InvalidBase58
    end.

(** ** Typed hashes to and from text *)

Definition hash_to_b58check (self : HashType) (data : bytes) : result string hash_error :=
  if decide (size self ≠ len data) then Err (FromBytes InvalidSize)
  else
    let hash := base58check_prefix self ++ data in
    map_err (λ _, Unreachable) (to_base58check hash).

Definition b58check_to_hash (self : HashType) (data : string)
    : result bytes FromBase58CheckError :=
  let? hash := from_base58check data in
  let expected_len := size self + len (base58check_prefix self) in
  if decide (expected_len ≠ len hash) then Err (MismatchedLength expected_len (len hash))
  else
    (* prefix is not present in a binary representation *)
    Ok (drop (length (base58check_prefix self)) hash).

End Base58.

(** ** Theorems *)

Lemma base58check_prefix_ok t : bytes_ok (base58check_prefix t).
Proof. destruct t; repeat constructor; done. Qed.

Lemma prefix_size_bound t : 6 ≤ len (base58check_prefix t) + size t ≤ 37.
Proof. destruct t; vm_compute; split; discriminate. Qed.

Section Base58Theorems.
Context `{Base58Laws}.

Lemma to_base58check_ok d : len d ≤ 128 → ∃ s, to_base58check d = Ok s.
Proof. intros. unfold to_base58check. rewrite decide_False by lia. eauto. Qed.

Lemma from_to_base58check d s :
  bytes_ok d → len d ≤ 80 → to_base58check d = Ok s → from_base58check s = Ok d.
Proof.
  intros Hd Hl. unfold to_base58check. rewrite decide_False by lia. intros [= <-].
  set (c := take 4 (double_sha256 d)).
  assert (length c = 4%nat) as Hc.
  { unfold c, double_sha256. rewrite length_take, sha256_length. lia. }
  unfold from_base58check.
  pose proof (to_base58_length (d ++ c)) as Hlen. rewrite length_app, Hc in Hlen.
  rewrite decide_False by (unfold len in *; lia).
  rewrite from_to_base58 by (apply Forall_app; split; [done|apply Forall_take, sha256_bytes]).
  unfold CHECKSUM_BYTE_SIZE, len. rewrite length_app, Hc. rewrite decide_True by lia.
  replace (Z.to_nat (Z.of_nat (length d + 4) - 4)) with (length d) by lia.
  rewrite take_len_app, drop_len_app. by rewrite decide_True.
Qed.

(** A typed hash has a text form, and no [unreachable!] is reached. *)
Lemma hash_to_b58check_ok t d :
  len d = size t →
  ∃ s, to_base58check (base58check_prefix t ++ d) = Ok s ∧ hash_to_b58check t d = Ok s.
Proof.
  intros Hl. pose proof (prefix_size_bound t).
  destruct (to_base58check_ok (base58check_prefix t ++ d)) as [s E]; [rewrite len_app; lia|].
  exists s. split; [done|]. unfold hash_to_b58check.
  rewrite decide_False by lia. by rewrite E.
Qed.

(** Any text form of [t1] is accepted as a [t2] when the lengths agree. *)
Lemma b58check_to_hash_lengths t1 t2 d s :
  len (base58check_prefix t1) = len (base58check_prefix t2) → size t1 = size t2 →
  bytes_ok d → hash_to_b58check t1 d = Ok s → b58check_to_hash t2 s = Ok d.
Proof.
  intros Hp Hs Hd He. pose proof (prefix_size_bound t1).
  destruct (decide (len d = size t1)) as [Hl|Hl];
    [|unfold hash_to_b58check in He; by rewrite decide_True in He by lia].
  destruct (hash_to_b58check_ok t1 d Hl) as (s' & E & E'). rewrite E' in He. injection He as <-.
  unfold b58check_to_hash. rewrite (from_to_base58check (base58check_prefix t1 ++ d)); try done.
  - rewrite len_app. rewrite decide_False by lia.
    replace (length (base58check_prefix t2)) with (length (base58check_prefix t1))
      by (unfold len in *; lia).
    by rewrite drop_len_app.
  - apply Forall_app; split; [apply base58check_prefix_ok|done].
  - rewrite len_app; lia.
Qed.

End Base58Theorems.

(** ** A concrete instance *)

Module ConcreteHash.

(** The digits of the instance are the bytes themselves; its digest is the zero
    digest. *)
#[export] Instance base58lib : Base58Lib := {|
  sha256_hash _ := replicate 32 0;
  to_base58 d := String.string_of_list_ascii (map (λ b, Ascii.ascii_of_N (Z.to_N b)) d);
  from_base58 s := Some (map (λ a, Z.of_N (Ascii.N_of_ascii a)) (String.list_ascii_of_string s))
|}.

#[export] Instance base58laws : Base58Laws.
Proof.
  constructor.
  - done.
  - intros d. apply Forall_replicate. done.
  - intros d Hd. cbn. rewrite String.list_ascii_of_string_of_list_ascii. f_equal.
    rewrite map_map. induction Hd as [|b d Hb Hd IH]; [done|]. cbn [map]. rewrite IH. f_equal.
    unfold is_byte in Hb. rewrite Ascii.N_ascii_embedding by lia. lia.
  - intros d. cbn [to_base58 base58lib].
    enough (String.length (String.string_of_list_ascii
      (map (λ b, Ascii.ascii_of_N (Z.to_N b)) d)) = length d) by lia.
    induction d as [|b d IH]; [done|]. cbn. by rewrite IH.
Qed.

End ConcreteHash.

(** ** Properties *)

Section HashProperties.
Context `{Base58Laws}.

(** The text form of a typed hash exists ([unreachable!] is not reached)
    and reading it back as the same type gives the hash. *)
Theorem b58check_roundtrip t d :
  bytes_ok d → len d = size t →
  ∃ s, hash_to_b58check t d = Ok s ∧ b58check_to_hash t s = Ok d.
Proof.
  intros Hd Hl. destruct (hash_to_b58check_ok t d Hl) as (s & _ & E).
  exists s. split; [done|]. by apply (b58check_to_hash_lengths t t).
Qed.

(** The prefix is removed but not compared: the text form of a hash of one
    type is accepted as a hash of any other type with the same lengths. *)
Theorem b58check_prefix_not_checked t1 t2 d :
  len (base58check_prefix t1) = len (base58check_prefix t2) → size t1 = size t2 →
  bytes_ok d → len d = size t1 →
  ∃ s, hash_to_b58check t1 d = Ok s ∧ b58check_to_hash t2 s = Ok d.
Proof.
  intros Hp Hs Hd Hl. destruct (hash_to_b58check_ok t1 d Hl) as (s & _ & E).
  exists s. split; [done|]. by apply (b58check_to_hash_lengths t1 t2).
Qed.

End HashProperties.

Import ConcreteHash.

Lemma b58check_roundtrip_witness :
  ∃ s, hash_to_b58check ChainId [142; 206; 218; 47] = Ok s
     ∧ b58check_to_hash ChainId s = Ok [142; 206; 218; 47].
Proof.
  apply (b58check_roundtrip ChainId [142; 206; 218; 47]); [repeat constructor; done|done].
Defined.

Lemma b58check_prefix_not_checked_witness :
  ∃ s, hash_to_b58check ContractTz1Hash (replicate 20 7) = Ok s
     ∧ b58check_to_hash ContractTz2Hash s = Ok (replicate 20 7).
Proof.
  apply (b58check_prefix_not_checked ContractTz1Hash ContractTz2Hash (replicate 20 7));
    [done|done|repeat constructor; done|done].
Defined.
