(* ===== verification/Encoding.v ===== *)
(** * Schemas and the intermediate form:
      [tezos/encoding/src/types.rs], [tezos/encoding/src/encoding.rs] *)

From S2P Require Import Prelude Hash.

#[local] Set Warnings "-register-all".

(** ** Marker bytes of [types.rs] *)

Definition BYTE_VAL_TRUE : Z := 255.
Definition BYTE_VAL_FALSE : Z := 0.
Definition BYTE_VAL_SOME : Z := 1.
Definition BYTE_VAL_NONE : Z := 0.
Definition BYTE_FIELD_SOME : Z := 255.
Definition BYTE_FIELD_NONE : Z := 0.

(** ** The intermediate form [types::Value]

    Integers are [Z]s in the range of their constructor, a float is its 64-bit
    pattern, a string is its UTF-8 bytes. *)

Module Value.
Inductive Value :=
| Unit
| Int8 (v : Z)
| Uint8 (v : Z)
| Int16 (v : Z)
| Uint16 (v : Z)
| Int31 (v : Z)
| Int32 (v : Z)
| Int64 (v : Z)
| RangedInt (v : Z)
| Float (v : Z)
| RangedFloat (v : Z)
| Bool (v : bool)
| String (v : bytes)
| Bytes (v : bytes)
| Option (v : option Value)
| List (v : list Value)
| Enum (name : option string) (ordinal : option Z)
| Tag (variant : string) (v : Value)
| Record (fields : list (string * Value))
| Tuple (v : list Value).
End Value.
Abbreviation Value := Value.Value.

(** ** Fields and tags

    The payload type is a parameter: it is [Encoding] in the schemas. *)

Record Field (E : Type) := mkField { get_name : string; get_encoding : E }.
Arguments mkField {E}.
Arguments get_name {E}.
Arguments get_encoding {E}.

Record Tag (E : Type) := mkTag { get_id : Z; get_variant : string; tag_encoding : E }.
Arguments mkTag {E}.
Arguments get_id {E}.
Arguments get_variant {E}.
Arguments tag_encoding {E}.

(** [HashMap]s as association lists without duplicate keys. *)
Section HashMapAsList.
Context {K V : Type} `{EqDecision K}.

Fixpoint hm_get (k : K) (m : list (K * V)) : option V :=
  match m with
  | [] => None
  | (k', v) :: m' => if decide (k' = k) then Some v else hm_get k m'
  end.

Fixpoint hm_insert (k : K) (v : V) (m : list (K * V)) : list (K * V) :=
  match m with
  | [] => [(k, v)]
  | (k', v') :: m' => if decide (k' = k) then (k, v) :: m' else (k', v') :: hm_insert k v m'
  end.

Lemma hm_get_insert k k' v m :
  hm_get k' (hm_insert k v m) = if decide (k = k') then Some v else hm_get k' m.
Proof.
  induction m as [|[a b] m IH]; simpl; [done|].
  repeat (case_decide; simplify_eq/=; try done).
Qed.

Lemma hm_get_elem k v m : hm_get k m = Some v → (k, v) ∈ m.
Proof.
  induction m as [|[a b] m IH]; simpl; [done|].
  case_decide; intros; simplify_eq; [constructor|]. constructor; auto.
Qed.
End HashMapAsList.

Lemma hm_get_map {K V W} `{EqDecision K} (f : V → W) (k : K) m :
  hm_get k (map (λ p, (p.1, f p.2)) m) = f <$> hm_get k m.
Proof. induction m as [|[a b] m IH]; simpl; [done|]. by case_decide. Qed.

Record TagMap (E : Type) := mkTagMap {
  id_to_tag : list (Z * Tag E);
  variant_to_id : list (string * Z)
}.
Arguments mkTagMap {E}.
Arguments id_to_tag {E}.
Arguments variant_to_id {E}.

Definition TagMap_new {E} (tags : list (Tag E)) : TagMap E :=
  fold_left
    (λ tm tag,
       {| id_to_tag := hm_insert (get_id tag) tag (id_to_tag tm);
          variant_to_id := hm_insert (get_variant tag) (get_id tag) (variant_to_id tm) |})
    tags {| id_to_tag := []; variant_to_id := [] |}.

Definition find_by_id {E} (self : TagMap E) (id : Z) : option (Tag E) :=
  hm_get id (id_to_tag self).

Definition find_by_variant {E} (self : TagMap E) (variant : string) : option (Tag E) :=
  match hm_get variant (variant_to_id self) with
  | Some tag_id => hm_get tag_id (id_to_tag self)
  | None => None
  end.

(** ** Schemas [encoding::Encoding] *)

(** The implementations of the trait [CustomCodec] in the repository: only
    [PathCodec] of [operations_for_blocks.rs]. *)
Inductive CustomCodec := PathCodec.

Module Encoding.
Inductive Encoding :=
| Unit
| Int8
| Uint8
| Int16
| Uint16
| Int31
| Int32
| Uint32
| Int64
| RangedInt
| Z
| Mutez
| Float
| RangedFloat
| Bool
| String
| BoundedString (max : BinNums.Z)
| Bytes
| Tags (tag_sz : BinNums.Z) (tag_map : TagMap Encoding)
| List (e : Encoding)
| BoundedList (max : BinNums.Z) (e : Encoding)
| Enum
| Option (e : Encoding)
| OptionalField (e : Encoding)
| Obj (name : string) (schema : list (Field Encoding))
| Tup (es : list Encoding)
| Dynamic (e : Encoding)
| BoundedDynamic (max : BinNums.Z) (e : Encoding)
| Sized (bytes_sz : BinNums.Z) (e : Encoding)
| Bounded (max : BinNums.Z) (e : Encoding)
| Greedy (e : Encoding)
| Hash (h : HashType)
| Timestamp
| Custom (codec : CustomCodec).
End Encoding.
Abbreviation Encoding := Encoding.Encoding.

(** ** Changing the payload of tags *)

Definition tag_map {A B} (f : A → B) (t : Tag A) : Tag B :=
  {| get_id := get_id t; get_variant := get_variant t; tag_encoding := f (tag_encoding t) |}.

Definition tagmap_map {A B} (f : A → B) (tm : TagMap A) : TagMap B :=
  {| id_to_tag := map (λ p, (p.1, tag_map f p.2)) (id_to_tag tm);
     variant_to_id := variant_to_id tm |}.

Lemma find_by_variant_map {A B} (f : A → B) (tm : TagMap A) v :
  find_by_variant (tagmap_map f tm) v = tag_map f <$> find_by_variant tm v.
Proof.
  unfold find_by_variant, tagmap_map; cbn.
  destruct (hm_get v (variant_to_id tm)); [|done]. apply hm_get_map.
Qed.

Lemma hm_insert_map {A B} (f : A → B) (i : BinNums.Z) (t : Tag A) m :
  map (λ p, (p.1, tag_map f p.2)) (hm_insert i t m)
  = hm_insert i (tag_map f t) (map (λ p, (p.1, tag_map f p.2)) m).
Proof.
  induction m as [|[a b] m IH]; simpl; [done|]. case_decide; simpl; [done|]. by rewrite IH.
Qed.

Lemma TagMap_new_map {A B} (f : A → B) tags :
  tagmap_map f (TagMap_new tags) = TagMap_new (map (tag_map f) tags).
Proof.
  unfold TagMap_new.
  change {| id_to_tag := @nil (BinNums.Z * Tag B); variant_to_id := [] |}
    with (tagmap_map f {| id_to_tag := []; variant_to_id := [] |}).
  generalize ({| id_to_tag := @nil (BinNums.Z * Tag A); variant_to_id := [] |}).
  induction tags as [|t tags IH]; intros tm; [done|]. cbn [map fold_left].
  rewrite IH. f_equal. unfold tagmap_map; cbn. by rewrite hm_insert_map.
Qed.

(** In a map built from tags with distinct ids and distinct names, a tag is
    found by its name and by its id. *)
Lemma TagMap_new_find {E} (tags : list (Tag E)) :
  NoDup (map get_id tags) → NoDup (map get_variant tags) →
  ∀ t, t ∈ tags →
  find_by_variant (TagMap_new tags) (get_variant t) = Some t ∧
  find_by_id (TagMap_new tags) (get_id t) = Some t.
Proof.
  unfold TagMap_new, find_by_variant, find_by_id.
  assert (∀ tm, NoDup (map get_id tags) → NoDup (map get_variant tags) →
    let tm' := fold_left (λ tm tag,
       {| id_to_tag := hm_insert (get_id tag) tag (id_to_tag tm);
          variant_to_id := hm_insert (get_variant tag) (get_id tag) (variant_to_id tm) |})
       tags tm in
    (∀ t, t ∈ tags → hm_get (get_variant t) (variant_to_id tm') = Some (get_id t)
                   ∧ hm_get (get_id t) (id_to_tag tm') = Some t) ∧
    (∀ v, v ∉ map get_variant tags → hm_get v (variant_to_id tm') = hm_get v (variant_to_id tm)) ∧
    (∀ i, i ∉ map get_id tags → hm_get i (id_to_tag tm') = hm_get i (id_to_tag tm))) as H.
  { induction tags as [|u tags IH]; intros tm N1 N2; cbn [map fold_left] in *.
    - split_and!; [intros t Ht; by apply not_elem_of_nil in Ht|done..].
    - apply NoDup_cons in N1 as [N1 N1'], N2 as [N2 N2'].
      edestruct IH as (H1 & H2 & H3); [done..|]. split_and!.
      + intros t [->|Ht]%elem_of_cons; [|by apply H1].
        rewrite H2, H3 by done. cbn. by rewrite !hm_get_insert, !decide_True.
      + intros v [Hv Hv']%not_elem_of_cons. rewrite H2 by done. cbn.
        rewrite hm_get_insert, decide_False; congruence.
      + intros i [Hv Hv']%not_elem_of_cons. rewrite H3 by done. cbn.
        rewrite hm_get_insert, decide_False; congruence. }
  intros N1 N2 t Ht.
  destruct (H {| id_to_tag := []; variant_to_id := [] |} N1 N2) as (H1 & _ & _).
  destruct (H1 t Ht) as [-> ->]. done.
Qed.

(** ** Induction on schemas *)

Section EncodingInd.
Variable P : Encoding → Prop.
Hypothesis HLeaf : ∀ e,
  match e with
  | Encoding.Tags _ _ | Encoding.List _ | Encoding.BoundedList _ _ | Encoding.Option _
  | Encoding.OptionalField _ | Encoding.Obj _ _ | Encoding.Tup _ | Encoding.Dynamic _
  | Encoding.BoundedDynamic _ _ | Encoding.Sized _ _ | Encoding.Bounded _ _
  | Encoding.Greedy _ => False
  | _ => True
  end → P e.
Hypothesis HTags : ∀ sz tm, Forall (λ p, P (tag_encoding p.2)) (id_to_tag tm) →
  P (Encoding.Tags sz tm).
Hypothesis HList : ∀ e, P e → P (Encoding.List e).
Hypothesis HBoundedList : ∀ m e, P e → P (Encoding.BoundedList m e).
Hypothesis HOption : ∀ e, P e → P (Encoding.Option e).
Hypothesis HOptionalField : ∀ e, P e → P (Encoding.OptionalField e).
Hypothesis HObj : ∀ n s, Forall (λ f, P (get_encoding f)) s → P (Encoding.Obj n s).
Hypothesis HTup : ∀ es, Forall P es → P (Encoding.Tup es).
Hypothesis HDynamic : ∀ e, P e → P (Encoding.Dynamic e).
Hypothesis HBoundedDynamic : ∀ m e, P e → P (Encoding.BoundedDynamic m e).
Hypothesis HSized : ∀ n e, P e → P (Encoding.Sized n e).
Hypothesis HBounded : ∀ m e, P e → P (Encoding.Bounded m e).
Hypothesis HGreedy : ∀ e, P e → P (Encoding.Greedy e).

Fixpoint Encoding_rect' (e : Encoding) : P e :=
  match e with
  | Encoding.Tags sz tm =>
      HTags sz tm
        ((fix go (l : list (BinNums.Z * Tag Encoding))
            : Forall (λ p, P (tag_encoding p.2)) l :=
           match l with
           | [] => Forall_nil_2 _
           | (i, t) :: l' =>
               Forall_cons_2 _ (i, t) l'
                 (match t as t return P (tag_encoding t) with
                  | mkTag _ _ e' => Encoding_rect' e'
                  end) (go l')
           end) (id_to_tag tm))
  | Encoding.List e' => HList e' (Encoding_rect' e')
  | Encoding.BoundedList m e' => HBoundedList m e' (Encoding_rect' e')
  | Encoding.Option e' => HOption e' (Encoding_rect' e')
  | Encoding.OptionalField e' => HOptionalField e' (Encoding_rect' e')
  | Encoding.Obj n s =>
      HObj n s
        ((fix go (l : list (Field Encoding)) : Forall (λ f, P (get_encoding f)) l :=
           match l with
           | [] => Forall_nil_2 _
           | f :: l' =>
               Forall_cons_2 _ f l'
                 (match f as f return P (get_encoding f) with
                  | mkField _ e' => Encoding_rect' e'
                  end) (go l')
           end) s)
  | Encoding.Tup es =>
      HTup es
        ((fix go (l : list Encoding) : Forall P l :=
           match l with
           | [] => Forall_nil_2 _
           | e' :: l' => Forall_cons_2 _ e' l' (Encoding_rect' e') (go l')
           end) es)
  | Encoding.Dynamic e' => HDynamic e' (Encoding_rect' e')
  | Encoding.BoundedDynamic m e' => HBoundedDynamic m e' (Encoding_rect' e')
  | Encoding.Sized n e' => HSized n e' (Encoding_rect' e')
  | Encoding.Bounded m e' => HBounded m e' (Encoding_rect' e')
  | Encoding.Greedy e' => HGreedy e' (Encoding_rect' e')
  | e' => HLeaf e' I
  end.

End EncodingInd.

Definition Encoding_ind' (P : Encoding → Prop) := Encoding_rect' P.
