(* ===== verification/Serializer.v ===== *)
(** * The serde serializer and its errors:
      [tezos/encoding/src/ser.rs], [tezos/encoding/src/error_context.rs]

    A Rust value reaches the serializer through serde's data model: [Data] has
    one constructor per kind of that model, and each kind calls the method of
    [Serializer] of the same name.  The result is the intermediate form
    [Value]. *)

From S2P Require Import Prelude Hash Encoding External.

#[local] Set Warnings "-register-all".

(** ** Errors *)

(** The arguments of a formatted message; their rendering is not modelled. *)
Inductive Arg :=
| AStr (s : string)
| AText (s : bytes)
| ANum (n : Z)
| AEnc (e : Encoding)
| AVal (v : Value).

(** [ser::Error]: the format string of the message and its arguments. *)
Record Error := custom { message : string; args : list Arg }.

Definition encoding_mismatch (encoding : Encoding) (value : Value) : Error :=
  custom "Unsupported encoding {:?} for value: {:?}" [AEnc encoding; AVal value].

Definition unimplemented (method : string) : Error :=
  custom "Serialization method {} unimplemented" [AStr method].

(** [error_context::EncodingError]: an error with the place where it happened. *)
Record EncodingError := mkEncodingError { kind : Error; location : string }.

(** [From<Error>]: no location yet. *)
Definition into_error (kind : Error) : EncodingError := mkEncodingError kind "".

(** [ErrorInfo::field] *)
Definition error_field (name : string) (e : EncodingError) : EncodingError :=
  mkEncodingError (kind e)
    (if decide (location e = ""%string) then ("field `" +:+ name +:+ "`")%string
     else (location e +:+ " @ field `" +:+ name +:+ "`")%string).

(** [ErrorInfo::element_of] *)
Definition error_element_of (e : EncodingError) : EncodingError :=
  mkEncodingError (kind e)
    (if decide (location e = ""%string) then "list element"%string
     else (location e +:+ " @ list element")%string).

(** ** serde's data model *)

Inductive Data :=
| DBool (v : bool)
| DI8 (v : Z) | DI16 (v : Z) | DI32 (v : Z) | DI64 (v : Z)
| DU8 (v : Z) | DU16 (v : Z) | DU32 (v : Z) | DU64 (v : Z)
| DF32 (bits : Z) | DF64 (bits : Z)
| DChar (v : Z)
| DStr (v : bytes)
| DBytes (v : bytes)
| DNone
| DSome (v : Data)
| DUnit
| DUnitStruct (name : string)
| DUnitVariant (name : string) (variant_index : Z) (variant : string)
| DNewtypeStruct (name : string) (v : Data)
| DNewtypeVariant (name : string) (variant_index : Z) (variant : string) (v : Data)
| DSeq (v : list Data)
| DTuple (v : list Data)
| DTupleStruct (name : string) (v : list Data)
| DTupleVariant (name : string) (variant_index : Z) (variant : string) (v : list Data)
| DMap (v : list (Data * Data))
| DStruct (name : string) (fields : list (string * Data))
| DStructVariant (name : string) (variant_index : Z) (variant : string)
    (fields : list (string * Data)).

(** ** The methods of [Serializer] *)

Definition SerResult := result Value Error.

Definition serialize_bool (v : bool) : SerResult := Ok (Value.Bool v).
Definition serialize_i8 (v : Z) : SerResult := Ok (Value.Int8 v).
Definition serialize_i16 (v : Z) : SerResult := Ok (Value.Int16 v).
Definition serialize_i32 (v : Z) : SerResult := Ok (Value.Int32 v).
Definition serialize_i64 (v : Z) : SerResult := Ok (Value.Int64 v).
Definition serialize_u8 (v : Z) : SerResult := Ok (Value.Uint8 v).
Definition serialize_u16 (v : Z) : SerResult := Ok (Value.Uint16 v).

Definition serialize_u32 (v : Z) : SerResult :=
  if decide (v ≤ 2 ^ 31 - 1) then Ok (Value.Int32 v) else Ok (Value.Int64 v).

Definition serialize_u64 (v : Z) : SerResult :=
  if decide (v ≤ 2 ^ 63 - 1) then Ok (Value.Int64 v)
  else Err (custom "u64 is too large" []).

(** [f64::from] on the bit pattern of an [f32]: the number is kept exactly, and
    a NaN becomes a quiet NaN with the same leading payload. *)
Definition f64_from_f32 (b : Z) : Z :=
  let s := Z.shiftr b 31 in
  let e := Z.land (Z.shiftr b 23) 255 in
  let m := Z.land b (2 ^ 23 - 1) in
  let pack e' m' := s * 2 ^ 63 + e' * 2 ^ 52 + m' in
  if decide (e = 255) then
    (if decide (m = 0) then pack 2047 0 else pack 2047 (Z.lor (m * 2 ^ 29) (2 ^ 51)))
  else if decide (e = 0) then
    (if decide (m = 0) then pack 0 0
     else let k := Z.log2 m in pack (874 + k) ((m - 2 ^ k) * 2 ^ (52 - k)))
  else pack (e + 896) (m * 2 ^ 29).

Definition serialize_f32 (v : Z) : SerResult := Ok (Value.Float (f64_from_f32 v)).
Definition serialize_f64 (v : Z) : SerResult := Ok (Value.Float v).

(** [v as u8] keeps the low byte of the code point. *)
Definition serialize_char (v : Z) : SerResult := Ok (Value.Uint8 (v mod 256)).

Definition serialize_str (v : bytes) : SerResult := Ok (Value.String v).
Definition serialize_bytes (v : bytes) : SerResult := Ok (Value.Bytes v).
Definition serialize_none : SerResult := Ok (Value.Option None).
Definition serialize_some (r : SerResult) : SerResult :=
  let? v := r in Ok (Value.Option (Some v)).
Definition serialize_unit : SerResult := Ok Value.Unit.
Definition serialize_unit_variant (variant_index : Z) (variant : string) : SerResult :=
  Ok (Value.Enum (Some variant) (Some variant_index)).
Definition serialize_newtype_variant (variant : string) (r : SerResult) : SerResult :=
  let? s := r in Ok (Value.Tag variant s).

(** [SeqSerializer]: each element is serialized and pushed, [end] gives the list. *)
Fixpoint serialize_elements (rs : list SerResult) (items : list Value) : SerResult :=
  match rs with
  | [] => Ok (Value.List items)
  | r :: rs' => let? v := r in serialize_elements rs' (items ++ [v])
  end.

(** [StructSerializer] *)
Fixpoint serialize_fields (rs : list (string * SerResult)) (fields : list (string * Value))
    : SerResult :=
  match rs with
  | [] => Ok (Value.Record fields)
  | (name, r) :: rs' => let? v := r in serialize_fields rs' (fields ++ [(name, v)])
  end.

(** [data.serialize(&mut serializer)]: which method each kind of data calls.
    The kinds that the serializer refuses do so before looking at the
    contents. *)
Fixpoint serialize (d : Data) : SerResult :=
  match d with
  | DBool v => serialize_bool v
  | DI8 v => serialize_i8 v
  | DI16 v => serialize_i16 v
  | DI32 v => serialize_i32 v
  | DI64 v => serialize_i64 v
  | DU8 v => serialize_u8 v
  | DU16 v => serialize_u16 v
  | DU32 v => serialize_u32 v
  | DU64 v => serialize_u64 v
  | DF32 v => serialize_f32 v
  | DF64 v => serialize_f64 v
  | DChar v => serialize_char v
  | DStr v => serialize_str v
  | DBytes v => serialize_bytes v
  | DNone => serialize_none
  | DSome v => serialize_some (serialize v)
  | DUnit => serialize_unit
  | DUnitStruct _ => serialize_unit
  | DUnitVariant _ i variant => serialize_unit_variant i variant
  | DNewtypeStruct _ v => serialize v
  | DNewtypeVariant _ _ variant v => serialize_newtype_variant variant (serialize v)
  | DSeq l => serialize_elements (map serialize l) []
  | DTuple l => serialize_elements (map serialize l) []
  | DTupleStruct _ l => serialize_elements (map serialize l) []
  | DTupleVariant _ _ _ _ => Err (unimplemented "Serializer::serialize_tuple_variant")
  | DMap _ => Err (unimplemented "Serializer::serialize_map")
  | DStruct _ fs => serialize_fields (map (λ p, (p.1, serialize p.2)) fs) []
  | DStructVariant _ _ _ _ => Err (unimplemented "Serializer::serialize_struct_variant")
  end.

(** [impl Serialize for types::BigInt]: a string of hexadecimal digits. *)
Definition bigint_data `{BigIntLib} (z : Z) : Data := DStr (to_str_radix16 z).

(** ** Lemmas *)

Lemma serialize_elements_ok rs vs acc :
  Forall2 (λ r v, r = Ok v) rs vs → serialize_elements rs acc = Ok (Value.List (acc ++ vs)).
Proof.
  intros H. revert acc. induction H as [|r v rs vs -> H IH]; intros acc; simpl.
  - by rewrite app_nil_r.
  - by rewrite IH, <- app_assoc.
Qed.

Lemma serialize_elements_inv rs acc v :
  serialize_elements rs acc = Ok v →
  ∃ vs, Forall2 (λ r v, r = Ok v) rs vs ∧ v = Value.List (acc ++ vs).
Proof.
  revert acc. induction rs as [|r rs IH]; intros acc E; simpl in E.
  - injection E as <-. exists []. by rewrite app_nil_r.
  - destruct r as [w|]; [|done]. destruct (IH _ E) as (vs & F & ->).
    exists (w :: vs). split; [by constructor|]. by rewrite <- app_assoc.
Qed.

Lemma serialize_fields_ok rs vs acc :
  Forall2 (λ r v, r.1 = v.1 ∧ r.2 = Ok v.2) rs vs →
  serialize_fields rs acc = Ok (Value.Record (acc ++ vs)).
Proof.
  intros H. revert acc. induction H as [|[n r] [m v] rs vs [E1 E2] H IH]; intros acc; simplify_eq/=.
  - by rewrite app_nil_r.
  - by rewrite IH, <- app_assoc.
Qed.

Lemma serialize_fields_inv rs acc v :
  serialize_fields rs acc = Ok v →
  ∃ vs, Forall2 (λ r v, r.1 = v.1 ∧ r.2 = Ok v.2) rs vs ∧ v = Value.Record (acc ++ vs).
Proof.
  revert acc. induction rs as [|[n r] rs IH]; intros acc E; simpl in E.
  - injection E as <-. exists []. by rewrite app_nil_r.
  - destruct r as [w|]; [|done]. destruct (IH _ E) as (vs & F & ->).
    exists ((n, w) :: vs). split; [by constructor|]. by rewrite <- app_assoc.
Qed.
