(* ===== verification/PathCodec.v ===== *)
(** * The custom encoder of Merkle paths: [PathCodec] of
      [tezos/messages/src/p2p/encoding/operations_for_blocks.rs]

    It is the only implementation of the trait [CustomCodec], which
    [Encoding::Custom] calls. *)

From S2P Require Import Prelude Encoding Serializer.

Module PathCodec.

Definition value_to_u8 (value : Value) (encoding : Encoding) : result Z Error :=
  match value with
  | Value.Uint8 u => Ok u
  | _ => Err (encoding_mismatch encoding value)
  end.

(** [iter().map(value_to_u8).collect()] *)
Fixpoint collect_u8s (l : list Value) (encoding : Encoding) : result bytes Error :=
  match l with
  | [] => Ok []
  | i :: l' =>
      let? u := value_to_u8 i encoding in
      let? us := collect_u8s l' encoding in
      Ok (u :: us)
  end.

Definition list_to_u8s (value : Value) (encoding : Encoding) : result bytes Error :=
  match value with
  | Value.List l => collect_u8s l encoding
  | _ => Err (encoding_mismatch encoding value)
  end.

Definition encode_bytes (data : bytes) (value : Value) (encoding : Encoding)
    : result bytes Error :=
  let? bs := list_to_u8s value encoding in
  Ok (data ++ bs).

(** The functions below return the extended buffer and the optional tail. *)

Definition encode_left (data : bytes) (value : Value) (encoding : Encoding)
    : result (bytes * option bytes) Error :=
  match value with
  | Value.Record [(name, v)] =>
      if decide (name = "right"%string) then
        let data := data ++ [240] in
        let? hash := encode_bytes [] v encoding in
        Ok (data, Some hash)
      else Err (encoding_mismatch encoding value)
  | _ => Err (encoding_mismatch encoding value)
  end.

Definition encode_right (data : bytes) (value : Value) (encoding : Encoding)
    : result (bytes * option bytes) Error :=
  match value with
  | Value.Record [(name, v)] =>
      if decide (name = "left"%string) then
        let data := data ++ [15] in
        let? data := encode_bytes data v encoding in
        Ok (data, None)
      else Err (encoding_mismatch encoding value)
  | _ => Err (encoding_mismatch encoding value)
  end.

Definition encode_path_item (data : bytes) (value : Value) (encoding : Encoding)
    : result (bytes * option bytes) Error :=
  match value with
  | Value.Tag name inner =>
      if decide (name = "Left"%string) then encode_left data inner encoding
      else if decide (name = "Right"%string) then encode_right data inner encoding
      else Err (encoding_mismatch encoding value)
  | _ => Err (encoding_mismatch encoding value)
  end.

(** The loop over the path items; [tails] is a [VecDeque] used with
    [push_front]. *)
Fixpoint encode_items (data : bytes) (tails : list (option bytes)) (values : list Value)
    (encoding : Encoding) : result (bytes * list (option bytes)) Error :=
  match values with
  | [] => Ok (data, tails)
  | path_item :: values' =>
      let? (data, tail) := encode_path_item data path_item encoding in
      encode_items data (tail :: tails) values' encoding
  end.

(** [tails.into_iter().filter_map(|e| e).flatten()] *)
Definition flatten_tails (tails : list (option bytes)) : bytes := concat (omap id tails).

Definition encode (data : bytes) (value : Value) (encoding : Encoding)
    : result (bytes * Z) Error :=
  match value with
  | Value.List values =>
      let prev_size := len data in
      let? (data, tails) := encode_items data [] values encoding in
      let data := data ++ [0] in
      let data := data ++ flatten_tails tails in
      let? n := ok_or (checked_sub (len data) prev_size) (encoding_mismatch encoding value) in
      Ok (data, n)
  | _ => Err (encoding_mismatch encoding value)
  end.

(** ** The buffer is only extended, and the size returned is what was added *)

Lemma encode_bytes_app data v e :
  encode_bytes data v e = (let? bs := encode_bytes [] v e in Ok (data ++ bs)).
Proof. unfold encode_bytes. by destruct (list_to_u8s v e). Qed.

Lemma encode_path_item_app data v e :
  encode_path_item data v e =
  (let? (bs, t) := encode_path_item [] v e in Ok (data ++ bs, t)).
Proof.
  destruct v; try done. simpl. unfold encode_left, encode_right.
  repeat case_decide; try done; destruct v; try done;
    destruct fields as [|[n w] [|]]; try done; case_decide; try done;
    rewrite ?(encode_bytes_app (data ++ _)), ?(encode_bytes_app ([] ++ _));
    destruct (encode_bytes [] w e); try done; by rewrite <- app_assoc.
Qed.

Lemma encode_items_app data ts vs e :
  encode_items data ts vs e = (let? (bs, t) := encode_items [] ts vs e in Ok (data ++ bs, t)).
Proof.
  revert data ts. induction vs as [|v vs IH]; intros data ts; simpl; [by rewrite app_nil_r|].
  rewrite encode_path_item_app. destruct (encode_path_item [] v e) as [[bs t]|]; [|done].
  rewrite IH, (IH bs). destruct (encode_items [] (t :: ts) vs e) as [[bs' t']|]; [|done].
  by rewrite app_assoc.
Qed.

Lemma encode_app data v e :
  encode data v e = (let? (bs, n) := encode [] v e in Ok (data ++ bs, n)).
Proof.
  destruct v; try done. simpl. rewrite encode_items_app.
  destruct (encode_items [] [] v e) as [[bs t]|]; [|done].
  rewrite <- !app_assoc. by rewrite checked_sub_len, checked_sub_nil.
Qed.

Lemma encode_size v e bs n : encode [] v e = Ok (bs, n) → n = len bs.
Proof.
  destruct v; try done. simpl. destruct (encode_items [] [] v e) as [[ds t]|]; [|done].
  rewrite checked_sub_nil. simpl. by intros [= <- <-].
Qed.

End PathCodec.

(** Dynamic dispatch of [codec.encode(data, value, encoding)]. *)
Definition codec_encode (codec : CustomCodec) (data : bytes) (value : Value)
    (encoding : Encoding) : result (bytes * Z) Error :=
  match codec with PathCodec => PathCodec.encode data value encoding end.
