(* ===== verification/BinaryWriter.v ===== *)
(** * The binary writer: [tezos/encoding/src/binary_writer.rs]

    The buffer [data: &mut Vec<u8>] is threaded through the functions: a
    successful call returns the new buffer and the number of bytes it reports.
    After an error the buffer is dropped by [write], so it is not returned. *)

From S2P Require Import Prelude External BitUtils Hash Encoding Serializer PathCodec.

Definition WriteResult := result (bytes * Z) EncodingError.

Definition bound_error (encoding : Encoding) (max act : Z) : Error :=
  custom "{:?} maximum size {} exceeded: {}" [AEnc encoding; ANum max; ANum act].

Definition size_overflow (msg : string) : EncodingError := into_error (custom msg []).

Definition find_value_in_record_values (name : string) (values : list (string * Value))
    : option Value :=
  snd <$> find (λ p, bool_decide (p.1 = name)) values.

Section Writer.
Context `{BufMut, HexLib, BitVecLib}.

Definition write_tag_id (data : bytes) (tag_sz tag_id : Z) : result bytes Error :=
  if decide (tag_sz = 1) then Ok (put_u8 data (tag_id mod 256))
  else if decide (tag_sz = 2) then Ok (put_u16 data tag_id)
  else Err (custom "Unsupported tag size {}" [ANum tag_sz]).

(** ** Arbitrary precision integers: [encode_z] *)

(** [BitVec::pop] *)
Definition bitvec_pop (bits : list bool) : option (bool * list bool) :=
  match rev bits with
  | [] => None
  | b :: l => Some (b, rev l)
  end.

Definition bits_error (e : BitsError) : Error := custom "Error operating with bits: {:?}" [].

(** [for bit_idx in from..from+count { n.set(bit_idx, bits.pop()?)?; }] *)
Fixpoint set_popped (from : Z) (count : nat) (n : Z) (bits : list bool)
    : result (Z * list bool) Error :=
  match count with
  | O => Ok (n, bits)
  | S count' =>
      let? (bit, bits) := ok_or (bitvec_pop bits) (custom "Not enough bits to pop" []) in
      let? n := map_err bits_error (Bits.set 8 n from bit) in
      set_popped (from + 1) count' n bits
  end.

(** [for chunk_idx in chunk_idx..=last_chunk_idx], [rest] iterations left
    before the last one. *)
Fixpoint put_chunks (data : bytes) (rest : nat) (bits : list bool) : result bytes Error :=
  let bit_count := Z.to_nat (Z.min 7 (len bits)) in
  let? (n, bits) := set_popped 0 bit_count 0 bits in
  match rest with
  | O => Ok (put_u8 data n)
  | S rest' =>
      (* set continuation bit if there are other chunks to be processed *)
      let? n := map_err bits_error (Bits.set 8 n 7 true) in
      put_chunks (put_u8 data n) rest' bits
  end.

Definition is_ascii_alphanumeric (c : Z) : bool :=
  bool_decide (48 ≤ c ≤ 57) || bool_decide (65 ≤ c ≤ 90) || bool_decide (97 ≤ c ≤ 122).

(** The sign of the text and where its digits start.  A first character that
    is not ASCII leads to a failure in either branch of the code (it is not a
    hexadecimal digit; and if it is not alphanumeric, slicing at 1 is inside
    the character). *)
Definition z_sign (value : bytes) : result (nat * bool) Error :=
  match value with
  | [] => Err (custom "Cannot process empty value" [])
  | sign :: _ =>
      if decide (128 ≤ sign) then Err (custom "Error decoding hex value. Reason: {:?}" [])
      else if is_ascii_alphanumeric sign then Ok (0%nat, false)
      else if decide (sign = 45) then Ok (1%nat, true)
      else Ok (1%nat, false)
  end.

Definition encode_z (data : bytes) (value : bytes) : result (bytes * Z) Error :=
  let? (decode_offset, negative) := z_sign value in
  let hex_value := drop decode_offset value in
  let hex_value := if decide (len hex_value mod 2 = 1) then 48 :: hex_value else hex_value in
  let? bytes := ok_or (hex_decode hex_value)
                  (custom "Error decoding hex value. Reason: {:?}" []) in
  if decide (len bytes = 1 ∧ default 0 (bytes !! 0%nat) ≤ 63) then
    let byte := default 0 (bytes !! 0%nat) in
    let byte := if (negative : bool) then Z.lor byte 64 else byte in
    Ok (put_u8 data byte, 1)
  else
    let data_len_before_write := len data in
    let bits := trim_left (bitvec_from_bytes bytes) in
    let n := if (negative : bool) then 192 else 128 in
    let? (n, bits) := set_popped 0 6 n bits in
    let data := put_u8 data n in
    (* [bits.len() - 1] underflows when no bit is left *)
    let? last := ok_or (checked_sub (len bits) 1)
                   (custom "attempt to subtract with overflow" []) in
    let last_chunk_idx := last / 7 in
    let? data := put_chunks data (Z.to_nat last_chunk_idx) bits in
    let? n := ok_or (checked_sub (len data) data_len_before_write)
      (custom "Encoded message size overflow while encoding a Z data" []) in
    Ok (data, n).

(** ** Loops over sequences

    [enc] stands for the recursive call of [encode_value]. *)

(** [for value in values { enc(data, value).with_context(element_of)?; }] *)
Fixpoint encode_elements (enc : bytes → Value → WriteResult) (data : bytes)
    (values : list Value) : result bytes EncodingError :=
  match values with
  | [] => Ok data
  | value :: values' =>
      let? (data, _) := map_err error_element_of (enc data value) in
      encode_elements enc data values'
  end.

(** The loop of [Encoding::Bytes] and [Encoding::Hash]. *)
Fixpoint put_u8_values (msg : string) (data : bytes) (values : list Value)
    : result bytes EncodingError :=
  match values with
  | [] => Ok data
  | Value.Uint8 u8_val :: values' => put_u8_values msg (put_u8 data u8_val) values'
  | value :: _ => Err (into_error (custom msg [AVal value]))
  end.

Definition written (msg : string) (before : Z) (data : bytes) : WriteResult :=
  let? n := ok_or (checked_sub (len data) before) (size_overflow msg) in
  Ok (data, n).

(** The body of [encode_record] on the fields of the schema. *)
Fixpoint encode_fields (enc : bytes → Value → Encoding → WriteResult) (data : bytes)
    (values : list (string * Value)) (bytes_sz : Z) (schema : list (Field Encoding))
    : WriteResult :=
  match schema with
  | [] => Ok (data, bytes_sz)
  | field :: schema' =>
      let name := get_name field in
      let? value := ok_or (find_value_in_record_values name values)
                      (into_error (custom "No values found for {}" [AStr name])) in
      let encoding := get_encoding field in
      let? (data, n) := map_err (error_field name) (enc data value encoding) in
      let? bytes_sz := ok_or (checked_add bytes_sz n)
        (into_error (custom
          "Encoded message size overflow while encoding record field {}" [AStr name])) in
      encode_fields enc data values bytes_sz schema'
  end.

Definition encode_record (enc : bytes → Value → Encoding → WriteResult) (data : bytes)
    (value : Value) (schema : list (Field Encoding)) : WriteResult :=
  match value with
  | Value.Record values => encode_fields enc data values 0 schema
  | _ => Err (into_error (encoding_mismatch (Encoding.Obj "" schema) value))
  end.

(** The body of [encode_tuple] on the encodings from [index] on; [value] is the
    tuple and [all] its whole schema, for the error. *)
Fixpoint encode_items (enc : bytes → Value → Encoding → WriteResult) (data : bytes)
    (value : Value) (values : list Value) (bytes_sz : Z) (index : nat)
    (all encodings : list Encoding) : WriteResult :=
  match encodings with
  | [] => Ok (data, bytes_sz)
  | encoding :: encodings' =>
      match values !! index with
      | Some v =>
          let? (data, n) := enc data v encoding in
          let? bytes_sz := ok_or (checked_add bytes_sz n)
            (size_overflow "Encoded message size overflow while encoding a tuple item") in
          encode_items enc data value values bytes_sz (S index) all encodings'
      | None => Err (into_error (encoding_mismatch (Encoding.Tup all) value))
      end
  end.

Definition encode_tuple (enc : bytes → Value → Encoding → WriteResult) (data : bytes)
    (value : Value) (encodings : list Encoding) : WriteResult :=
  match value with
  | Value.Tuple values => encode_items enc data value values 0 0%nat encodings encodings
  | _ => Err (into_error (encoding_mismatch (Encoding.Tup encodings) value))
  end.

(** Writing the size of a dynamic block over its placeholder
    [data[before..after]]. *)
Definition patch_size (data : bytes) (before after bytes_sz : Z) : WriteResult :=
  let msg := "Encoded message size overflow while encoding a dynamic value"%string in
  let slice := take (Z.to_nat (after - before)) (drop (Z.to_nat before) data) in
  if decide (bytes_sz ≤ u32_max) then
    let? slice := ok_or (write_u32_be slice bytes_sz)
                    (into_error (custom "I/O error. Reason: {:?}" [])) in
    let data := take (Z.to_nat before) data ++ slice ++ drop (Z.to_nat after) data in
    written msg before data
  else Err (size_overflow msg).

(** ** [encode_value]

    The source calls [encode_any] for the fields of a record and the items of
    a tuple; [encode_any] sends [Obj] and [Tup] to [encode_record] and
    [encode_tuple] and the rest to [encode_value], which does the same for the
    two ([encode_any_eq] below), so the recursive call is [encode_value]. *)

Fixpoint encode_value (data : bytes) (value : Value) (encoding : Encoding) {struct encoding}
    : WriteResult :=
  let mismatch := Err (into_error (encoding_mismatch encoding value)) in
  match encoding with
  | Encoding.Unit => Ok (data, 0)
  | Encoding.Int8 =>
      match value with Value.Int8 v => Ok (put_i8 data v, 1) | _ => mismatch end
  | Encoding.Uint8 =>
      match value with Value.Uint8 v => Ok (put_u8 data v, 1) | _ => mismatch end
  | Encoding.Int16 =>
      match value with Value.Int16 v => Ok (put_i16 data v, 2) | _ => mismatch end
  | Encoding.Uint16 =>
      match value with Value.Uint16 v => Ok (put_u16 data v, 2) | _ => mismatch end
  | Encoding.Int32 =>
      match value with Value.Int32 v => Ok (put_i32 data v, 4) | _ => mismatch end
  | Encoding.Int31 =>
      match value with
      | Value.Int32 v =>
          if decide (Z.land v 0x7FFFFFFF = v) then Ok (put_i32 data v, 4)
          else Err (into_error (custom "Value is outside of Int31 range" []))
      | _ => mismatch
      end
  | Encoding.Uint32 =>
      match value with
      | Value.Int32 v =>
          if decide (v >= 0) then Ok (put_i32 data v, 4)
          else Err (into_error (custom "Value is outside of Uint32 range" []))
      | _ => mismatch
      end
  | Encoding.RangedInt =>
      Err (into_error (custom "Encoding::RangedInt is not implemented" []))
  | Encoding.RangedFloat =>
      Err (into_error (custom "Encoding::RangedFloat is not implemented" []))
  | Encoding.Int64 | Encoding.Timestamp =>
      match value with Value.Int64 v => Ok (put_i64 data v, 8) | _ => mismatch end
  | Encoding.Float =>
      match value with Value.Float v => Ok (put_f64 data v, 8) | _ => mismatch end
  | Encoding.Bool =>
      match value with
      | Value.Bool v =>
          Ok ((if v then put_u8 data BYTE_VAL_TRUE else put_u8 data BYTE_VAL_FALSE), 1)
      | _ => mismatch
      end
  | Encoding.Z | Encoding.Mutez =>
      match value with
      | Value.String v => map_err into_error (encode_z data v)
      | _ => mismatch
      end
  | Encoding.String =>
      match value with
      | Value.String v =>
          let data := put_u32 data (len v mod 2 ^ 32) in
          let data := put_slice data v in
          let? n := ok_or (checked_add 4 (len v))
            (size_overflow "Encoded message size overflow while encoding a string") in
          Ok (data, n)
      | _ => mismatch
      end
  | Encoding.BoundedString max =>
      match value with
      | Value.String v =>
          if decide (len v > max) then Err (into_error (bound_error encoding max (len v)))
          else
            let data := put_u32 data (len v mod 2 ^ 32) in
            let data := put_slice data v in
            let? n := ok_or (checked_add 4 (len v))
              (size_overflow "Encoded message size overflow while encoding a string") in
            Ok (data, n)
      | _ => mismatch
      end
  | Encoding.Enum =>
      match value with
      | Value.Enum _ (Some ordinal) =>
          if decide (0 ≤ ordinal ≤ 255) then Ok (put_u8 data ordinal, 1)
          else Err (into_error (custom "Enum ordinal {} is greater than {}"
                                  [ANum ordinal; ANum 255]))
      | Value.Enum _ None =>
          Err (into_error (custom "Was expecting enum ordinal value" []))
      | _ => mismatch
      end
  | Encoding.List list_inner_encoding =>
      match value with
      | Value.List values =>
          let data_len_before_write := len data in
          let? data := encode_elements
            (λ data value, encode_value data value list_inner_encoding) data values in
          written "Encoded message size overflow while encoding a list"
            data_len_before_write data
      | _ => mismatch
      end
  | Encoding.BoundedList max list_inner_encoding =>
      match value with
      | Value.List values =>
          if decide (len values > max) then
            Err (into_error (bound_error encoding max (len values)))
          else
            let data_len_before_write := len data in
            let? data := encode_elements
              (λ data value, encode_value data value list_inner_encoding) data values in
            written "Encoded message size overflow while encoding a list"
              data_len_before_write data
      | _ => mismatch
      end
  | Encoding.Bytes =>
      match value with
      | Value.List values =>
          let data_len_before_write := len data in
          let? data := put_u8_values
            "Encoding::Bytes could be applied only to &[u8] value but found: {:?}"
            data values in
          written "Encoded message size overflow while encoding bytes"
            data_len_before_write data
      | _ => mismatch
      end
  | Encoding.Hash hash_type =>
      match value with
      | Value.List values =>
          let data_len_before_write := len data in
          let? data := put_u8_values
            "Encoding::Hash could be applied only to &[u8] value but found: {:?}"
            data values in
          let? (data, bytes_sz) :=
            written "Encoded message size overflow while encoding a hash value"
              data_len_before_write data in
          if decide (bytes_sz = size hash_type) then Ok (data, bytes_sz)
          else Err (into_error (custom "Was expecting {} bytes but got {}"
                                  [ANum (size hash_type); ANum bytes_sz]))
      | _ => mismatch
      end
  | Encoding.Option option_encoding =>
      match value with
      | Value.Option (Some option_value) =>
          let data := put_u8 data BYTE_VAL_SOME in
          let? (data, bytes_sz) := encode_value data option_value option_encoding in
          let? n := ok_or (checked_add 1 bytes_sz)
            (size_overflow "Encoded message size overflow while encoding an option value") in
          Ok (data, n)
      | Value.Option None => Ok (put_u8 data BYTE_VAL_NONE, 1)
      | _ => mismatch
      end
  | Encoding.OptionalField option_encoding =>
      match value with
      | Value.Option (Some option_value) =>
          let data := put_u8 data BYTE_FIELD_SOME in
          let? (data, bytes_sz) := encode_value data option_value option_encoding in
          let? n := ok_or (checked_add 1 bytes_sz)
            (size_overflow "Encoded message size overflow while encoding an optional field") in
          Ok (data, n)
      | Value.Option None => Ok (put_u8 data BYTE_FIELD_NONE, 1)
      | _ => mismatch
      end
  | Encoding.Dynamic dynamic_encoding =>
      let data_len_before_write := len data in
      (* put 0 as a placeholder *)
      let data := put_u32 data 0 in
      let data_len_after_size_placeholder := len data in
      let? (data, bytes_sz) := encode_value data value dynamic_encoding in
      patch_size data data_len_before_write data_len_after_size_placeholder bytes_sz
  | Encoding.BoundedDynamic max dynamic_encoding =>
      let data_len_before_write := len data in
      let data := put_u32 data 0 in
      let data_len_after_size_placeholder := len data in
      let? (data, bytes_sz) := encode_value data value dynamic_encoding in
      if decide (bytes_sz > max) then Err (into_error (bound_error encoding max bytes_sz))
      else patch_size data data_len_before_write data_len_after_size_placeholder bytes_sz
  | Encoding.Sized sized_size sized_encoding =>
      let? (data, bytes_sz) := encode_value data value sized_encoding in
      if decide (bytes_sz = sized_size) then Ok (data, bytes_sz)
      else Err (into_error (custom "Was expecting {} bytes but got {}"
                              [ANum bytes_sz; ANum sized_size]))
  | Encoding.Bounded max sized_encoding =>
      let? (data, bytes_sz) := encode_value data value sized_encoding in
      if decide (bytes_sz ≤ max) then Ok (data, bytes_sz)
      else Err (into_error (bound_error encoding max bytes_sz))
  | Encoding.Greedy un_sized_encoding => encode_value data value un_sized_encoding
  | Encoding.Tags tag_sz tag_map =>
      match value with
      | Value.Tag tag_variant tag_value =>
          match find_by_variant
                  (tagmap_map (λ e data value, encode_value data value e) tag_map)
                  tag_variant with
          | Some tag =>
              let data_len_before_write := len data in
              let? data := map_err into_error (write_tag_id data tag_sz (get_id tag)) in
              let? (data, _) := tag_encoding tag data tag_value in
              written "Encoded message size overflow while encoding a tag"
                data_len_before_write data
          | None => Err (into_error (custom "No tag found for variant: {}" [AStr tag_variant]))
          end
      | Value.Enum tag_variant _ =>
          let? tag_variant := ok_or tag_variant
            (into_error (custom "Was expecting variant name" [])) in
          match find_by_variant tag_map tag_variant with
          | Some tag =>
              let data_len_before_write := len data in
              let? data := map_err into_error (write_tag_id data tag_sz (get_id tag)) in
              written "Encoded message size overflow while encoding an enum value"
                data_len_before_write data
          | None => Err (into_error (custom "No tag found for variant: {}" [AStr tag_variant]))
          end
      | _ => mismatch
      end
  | Encoding.Custom codec => map_err into_error (codec_encode codec data value encoding)
  | Encoding.Obj _ obj_schema => encode_record encode_value data value obj_schema
  | Encoding.Tup tup_encodings => encode_tuple encode_value data value tup_encodings
  end.

Definition encode_any (data : bytes) (value : Value) (encoding : Encoding) : WriteResult :=
  match encoding with
  | Encoding.Obj _ schema => encode_record encode_value data value schema
  | Encoding.Tup encodings => encode_tuple encode_value data value encodings
  | _ => encode_value data value encoding
  end.

(** [binary_writer::write] *)
Definition write (data : Data) (encoding : Encoding) : result bytes EncodingError :=
  let? value := map_err into_error (serialize data) in
  let? (data, _) := encode_any [] value encoding in
  Ok data.

Lemma encode_any_eq data value encoding :
  encode_any data value encoding = encode_value data value encoding.
Proof. by destruct encoding. Qed.

End Writer.
