(* ===== verification/Format.v ===== *)
(** * The binary format, and the writer as its implementation

    [format] is the abstract specification of the binary form: it says which
    bytes a value has under a schema by plain concatenation, with no buffer,
    no placeholder to patch and no size bookkeeping.  [encode_value] refines
    it: the writer succeeds exactly when the value has a form, appends exactly
    that form to the buffer and reports its length. *)

From S2P Require Import Prelude External BitUtils Hash Encoding Serializer PathCodec BinaryWriter.

Section Format.
Context `{BufMut, HexLib, BitVecLib}.

Definition u8_of (v : Value) : option Z :=
  match v with Value.Uint8 u => Some u | _ => None end.

Definition format_u8s (values : list Value) : option bytes :=
  @concat BinNums.Z <$> mapM (λ v, be_bytes 1 <$> u8_of v) values.

Definition format_tag (tag_sz tag_id : Z) : option bytes :=
  if decide (tag_sz = 1) then Some (be_bytes 1 tag_id)
  else if decide (tag_sz = 2) then Some (be_bytes 2 tag_id)
  else None.

Definition format_block (bs : bytes) : option bytes :=
  if decide (len bs ≤ u32_max) then Some (be_bytes 4 (len bs) ++ bs) else None.

Definition guard_opt (P : Prop) `{Decision P} (o : option bytes) : option bytes :=
  if decide P then o else None.

Fixpoint format_fields (fmt : Encoding → Value → option bytes)
    (values : list (string * Value)) (schema : list (Field Encoding)) : option bytes :=
  match schema with
  | [] => Some []
  | f :: schema' =>
      v ← find_value_in_record_values (get_name f) values;
      bs ← fmt (get_encoding f) v;
      rest ← format_fields fmt values schema';
      Some (bs ++ rest)
  end.

Fixpoint format_items (fmt : Encoding → Value → option bytes) (values : list Value)
    (index : nat) (es : list Encoding) : option bytes :=
  match es with
  | [] => Some []
  | e :: es' =>
      v ← values !! index;
      bs ← fmt e v;
      rest ← format_items fmt values (S index) es';
      Some (bs ++ rest)
  end.

Definition result_bytes {E} (r : result (bytes * Z) E) : option bytes :=
  match r with Ok (bs, _) => Some bs | Err _ => None end.

Fixpoint format (e : Encoding) (v : Value) {struct e} : option bytes :=
  match e with
  | Encoding.Unit => Some []
  | Encoding.Int8 => match v with Value.Int8 z => Some (be_bytes 1 z) | _ => None end
  | Encoding.Uint8 => match v with Value.Uint8 z => Some (be_bytes 1 z) | _ => None end
  | Encoding.Int16 => match v with Value.Int16 z => Some (be_bytes 2 z) | _ => None end
  | Encoding.Uint16 => match v with Value.Uint16 z => Some (be_bytes 2 z) | _ => None end
  | Encoding.Int31 =>
      match v with
      | Value.Int32 z => guard_opt (Z.land z 0x7FFFFFFF = z) (Some (be_bytes 4 z))
      | _ => None
      end
  | Encoding.Int32 => match v with Value.Int32 z => Some (be_bytes 4 z) | _ => None end
  | Encoding.Uint32 =>
      match v with
      | Value.Int32 z => guard_opt (z >= 0) (Some (be_bytes 4 z))
      | _ => None
      end
  | Encoding.Int64 | Encoding.Timestamp =>
      match v with Value.Int64 z => Some (be_bytes 8 z) | _ => None end
  | Encoding.RangedInt | Encoding.RangedFloat => None
  | Encoding.Z | Encoding.Mutez =>
      match v with Value.String s => result_bytes (encode_z [] s) | _ => None end
  | Encoding.Float => match v with Value.Float z => Some (be_bytes 8 z) | _ => None end
  | Encoding.Bool =>
      match v with
      | Value.Bool b => Some (be_bytes 1 (if b then BYTE_VAL_TRUE else BYTE_VAL_FALSE))
      | _ => None
      end
  | Encoding.String =>
      match v with Value.String s => Some (be_bytes 4 (len s) ++ s) | _ => None end
  | Encoding.BoundedString max =>
      match v with
      | Value.String s => guard_opt (len s ≤ max) (Some (be_bytes 4 (len s) ++ s))
      | _ => None
      end
  | Encoding.Bytes => match v with Value.List l => format_u8s l | _ => None end
  | Encoding.Tags tag_sz tm =>
      match v with
      | Value.Tag variant w =>
          t ← find_by_variant (tagmap_map format tm) variant;
          id ← format_tag tag_sz (get_id t);
          bs ← tag_encoding t w;
          Some (id ++ bs)
      | Value.Enum (Some variant) _ =>
          t ← find_by_variant tm variant;
          format_tag tag_sz (get_id t)
      | _ => None
      end
  | Encoding.List e' =>
      match v with Value.List l => @concat BinNums.Z <$> mapM (format e') l | _ => None end
  | Encoding.BoundedList max e' =>
      match v with
      | Value.List l => guard_opt (len l ≤ max) (@concat BinNums.Z <$> mapM (format e') l)
      | _ => None
      end
  | Encoding.Enum =>
      match v with
      | Value.Enum _ (Some n) => guard_opt (0 ≤ n ≤ 255) (Some (be_bytes 1 n))
      | _ => None
      end
  | Encoding.Option e' =>
      match v with
      | Value.Option (Some w) => app (be_bytes 1 BYTE_VAL_SOME) <$> format e' w
      | Value.Option None => Some (be_bytes 1 BYTE_VAL_NONE)
      | _ => None
      end
  | Encoding.OptionalField e' =>
      match v with
      | Value.Option (Some w) => app (be_bytes 1 BYTE_FIELD_SOME) <$> format e' w
      | Value.Option None => Some (be_bytes 1 BYTE_FIELD_NONE)
      | _ => None
      end
  | Encoding.Obj _ schema =>
      match v with Value.Record fs => format_fields format fs schema | _ => None end
  | Encoding.Tup es =>
      match v with Value.Tuple l => format_items format l 0 es | _ => None end
  | Encoding.Dynamic e' => bs ← format e' v; format_block bs
  | Encoding.BoundedDynamic max e' =>
      bs ← format e' v; guard_opt (len bs ≤ max) (format_block bs)
  | Encoding.Sized n e' => bs ← format e' v; guard_opt (len bs = n) (Some bs)
  | Encoding.Bounded max e' => bs ← format e' v; guard_opt (len bs ≤ max) (Some bs)
  | Encoding.Greedy e' => format e' v
  | Encoding.Hash h =>
      match v with
      | Value.List l => bs ← format_u8s l; guard_opt (len bs = size h) (Some bs)
      | _ => None
      end
  | Encoding.Custom codec => result_bytes (codec_encode codec [] v e)
  end.

(** ** Refinement *)

Definition refines (r : bytes → WriteResult) (o : option bytes) : Prop :=
  (∀ data bs, o = Some bs → len bs ≤ usize_max → r data = Ok (data ++ bs, len bs)) ∧
  (∀ data d n, r data = Ok (d, n) → ∃ bs, o = Some bs ∧ d = data ++ bs ∧ n = len bs).

Lemma refines_ext r r' o o' : (∀ d, r d = r' d) → o = o' → refines r o → refines r' o'.
Proof.
  intros Hr -> [H1' H2']. split; intros data; rewrite <- (Hr data); [apply H1'|apply H2'].
Qed.

Lemma refines_ret r bs : (∀ data, r data = Ok (data ++ bs, len bs)) → refines r (Some bs).
Proof.
  intros Hr. split; intros data; rewrite Hr; [by intros ? [= ->]|].
  intros d n [= <- <-]. eauto.
Qed.

Lemma refines_err r : (∀ data, ∃ e, r data = Err e) → refines r None.
Proof. intros Hr. split; [done|]. intros data d n. by destruct (Hr data) as [e ->]. Qed.

Lemma refines_guard P `{Decision P} r bs e :
  (∀ data, r data = if decide P then Ok (data ++ bs, len bs) else Err (e data)) →
  refines r (guard_opt P (Some bs)).
Proof.
  intros Hr. unfold guard_opt. case_decide.
  - by apply refines_ret.
  - apply refines_err. eauto.
Qed.

Lemma guard_opt_Some P `{Decision P} o bs : guard_opt P o = Some bs ↔ P ∧ o = Some bs.
Proof.
  unfold guard_opt. case_decide; [by split; [split|intros [??]]|].
  split; [done|by intros [??]].
Qed.

Lemma written_app msg (data bs : bytes) :
  written msg (len data) (data ++ bs) = Ok (data ++ bs, len bs).
Proof. unfold written. by rewrite checked_sub_len. Qed.

Context `{!BufMutLaws}.

(** *** [encode_z] extends the buffer *)

Lemma put_chunks_app data k bits :
  put_chunks data k bits = (let? bs := put_chunks [] k bits in Ok (data ++ bs)).
Proof.
  revert data bits. induction k as [|k IH]; intros data bits; cbn [put_chunks];
    destruct (set_popped 0 _ 0 bits) as [[n bits']|]; try done.
  - by rewrite !put_u8_eq.
  - destruct (Bits.set 8 n 7 true) as [m|]; [|done]. cbn [map_err].
    rewrite IH, (IH (put_u8 [] m)), !put_u8_eq.
    destruct (put_chunks [] k bits'); [|done]. by rewrite app_assoc.
Qed.

Lemma encode_z_app data s :
  encode_z data s = (let? (bs, _) := encode_z [] s in Ok (data ++ bs, len bs)).
Proof.
  unfold encode_z. destruct (z_sign s) as [[o neg]|]; [|done].
  destruct (hex_decode _) as [bs|]; [|done]. cbn [ok_or]. case_decide.
  - by rewrite !put_u8_eq.
  - destruct (set_popped 0 6 _ _) as [[n bits]|]; [|done].
    destruct (checked_sub (len bits) 1) as [l|]; [|done]. cbn [ok_or].
    rewrite put_chunks_app, (put_chunks_app (put_u8 [] n)), !put_u8_eq.
    destruct (put_chunks [] _ bits) as [cs|]; [|done]. cbn [app].
    rewrite <- !app_assoc, checked_sub_len, checked_sub_nil. done.
Qed.

Lemma encode_z_refines s :
  refines (λ data, map_err into_error (encode_z data s)) (result_bytes (encode_z [] s)).
Proof.
  destruct (encode_z [] s) as [[bs n]|] eqn:E; cbn [result_bytes].
  - apply refines_ret. intros data. by rewrite encode_z_app, E.
  - apply refines_err. intros data. rewrite encode_z_app, E. eauto.
Qed.

(** *** Loops *)

Lemma encode_elements_refines enc fmt l :
  (∀ v, refines (λ d, enc d v) (fmt v)) →
  (∀ data bs, @concat BinNums.Z <$> mapM fmt l = Some bs → len bs ≤ usize_max →
     encode_elements enc data l = Ok (data ++ bs)) ∧
  (∀ data d, encode_elements enc data l = Ok d →
     ∃ bs, @concat BinNums.Z <$> mapM fmt l = Some bs ∧ d = data ++ bs).
Proof.
  intros Hr. induction l as [|v l [IH1 IH2]]; simpl.
  - split; intros data; intros; simplify_eq; [by rewrite app_nil_r|].
    exists []. by rewrite app_nil_r.
  - destruct (Hr v) as [H1' H2']. split.
    + intros data bs E Hbs. destruct (fmt v) as [bs1|] eqn:E1; [|done]. simpl in E.
      destruct (mapM fmt l) as [bss|] eqn:E2; simplify_eq/=.
      rewrite len_app in Hbs. pose proof (len_nonneg bs1). pose proof (len_nonneg (concat bss)).
      rewrite (H1' data bs1) by (done || lia). cbn [map_err].
      rewrite (IH1 _ (concat bss)) by (done || lia). by rewrite app_assoc.
    + intros data d E. destruct (enc data v) as [[d1 n1]|] eqn:E1; [|done]. cbn [map_err] in E.
      destruct (H2' _ _ _ E1) as (bs1 & -> & -> & ->).
      destruct (IH2 _ _ E) as (bs2 & E2 & ->).
      destruct (mapM fmt l) as [bss|]; simplify_eq/=. eexists. split; [done|].
      by rewrite <- app_assoc.
Qed.

Lemma put_u8_values_refines msg l :
  (∀ data bs, format_u8s l = Some bs → put_u8_values msg data l = Ok (data ++ bs)) ∧
  (∀ data d, put_u8_values msg data l = Ok d → ∃ bs, format_u8s l = Some bs ∧ d = data ++ bs).
Proof.
  unfold format_u8s. induction l as [|v l [IH1 IH2]]; simpl.
  - split; intros data; intros; simplify_eq; [by rewrite app_nil_r|].
    exists []. by rewrite app_nil_r.
  - split.
    + intros data bs E. destruct v; simplify_eq/=.
      destruct (mapM _ l) as [bss|] eqn:E2; simplify_eq/=.
      rewrite (IH1 _ (concat bss)), put_u8_eq by done. by rewrite <- app_assoc.
    + intros data d E. destruct v; simplify_eq/=.
      destruct (IH2 _ _ E) as (bs2 & E2 & ->).
      destruct (mapM _ l) as [bss|]; simplify_eq/=. eexists. split; [done|].
      rewrite put_u8_eq. by rewrite <- app_assoc.
Qed.

Lemma encode_fields_refines enc fmt values schema :
  Forall (λ f, ∀ v, refines (λ d, enc d v (get_encoding f)) (fmt (get_encoding f) v)) schema →
  (∀ data sz bs, format_fields fmt values schema = Some bs → 0 ≤ sz → sz + len bs ≤ usize_max →
     encode_fields enc data values sz schema = Ok (data ++ bs, sz + len bs)) ∧
  (∀ data sz d n, encode_fields enc data values sz schema = Ok (d, n) →
     ∃ bs, format_fields fmt values schema = Some bs ∧ d = data ++ bs ∧ n = sz + len bs).
Proof.
  induction 1 as [|f schema Hf _ [IH1 IH2]]; simpl.
  - split; intros data; intros; simplify_eq; [by rewrite app_nil_r, len_nil, Z.add_0_r|].
    exists []. by rewrite app_nil_r, len_nil, Z.add_0_r.
  - destruct (find_value_in_record_values _ _) as [v|]; [|by split; intros].
    destruct (Hf v) as [H1' H2']. cbn [ok_or mbind option_bind]. split.
    + intros data sz bs E Hsz Hbs. destruct (fmt _ v) as [bs1|] eqn:E1; [|done]. simpl in E.
      destruct (format_fields fmt values schema) as [bs2|] eqn:E2; simplify_eq/=.
      rewrite len_app in *. pose proof (len_nonneg bs1). pose proof (len_nonneg bs2).
      rewrite (H1' data bs1) by (done || lia). cbn [map_err].
      rewrite checked_add_small by lia. cbn [ok_or].
      rewrite (IH1 _ _ bs2) by (done || lia). by rewrite app_assoc, Z.add_assoc.
    + intros data sz d n E. destruct (enc data v _) as [[d1 n1]|] eqn:E1; [|done].
      cbn [map_err] in E. destruct (H2' _ _ _ E1) as (bs1 & -> & -> & ->). cbn.
      unfold checked_add in E. case_decide; [|done]. cbn [ok_or] in E.
      destruct (IH2 _ _ _ _ E) as (bs2 & -> & -> & ->). cbn.
      eexists. split; [done|]. rewrite len_app, <- app_assoc. split; [done|lia].
Qed.

Lemma encode_items_refines enc fmt value values all es i :
  Forall (λ e, ∀ v, refines (λ d, enc d v e) (fmt e v)) es →
  (∀ data sz bs, format_items fmt values i es = Some bs → 0 ≤ sz → sz + len bs ≤ usize_max →
     encode_items enc data value values sz i all es = Ok (data ++ bs, sz + len bs)) ∧
  (∀ data sz d n, encode_items enc data value values sz i all es = Ok (d, n) →
     ∃ bs, format_items fmt values i es = Some bs ∧ d = data ++ bs ∧ n = sz + len bs).
Proof.
  intros Hes. revert i. induction Hes as [|e es He _ IH]; intros i; simpl.
  - split; intros data; intros; simplify_eq; [by rewrite app_nil_r, len_nil, Z.add_0_r|].
    exists []. by rewrite app_nil_r, len_nil, Z.add_0_r.
  - destruct (IH (S i)) as [IH1 IH2].
    destruct (values !! i) as [v|]; [|by split; intros].
    destruct (He v) as [H1' H2']. cbn [mbind option_bind]. split.
    + intros data sz bs E Hsz Hbs. destruct (fmt e v) as [bs1|] eqn:E1; [|done]. simpl in E.
      destruct (format_items fmt values (S i) es) as [bs2|] eqn:E2; simplify_eq/=.
      rewrite len_app in *. pose proof (len_nonneg bs1). pose proof (len_nonneg bs2).
      rewrite (H1' data bs1) by (done || lia).
      rewrite checked_add_small by lia. cbn [ok_or].
      rewrite (IH1 _ _ bs2) by (done || lia). by rewrite app_assoc, Z.add_assoc.
    + intros data sz d n E. destruct (enc data v e) as [[d1 n1]|] eqn:E1; [|done].
      destruct (H2' _ _ _ E1) as (bs1 & -> & -> & ->). cbn.
      unfold checked_add in E. case_decide; [|done]. cbn [ok_or] in E.
      destruct (IH2 _ _ _ _ E) as (bs2 & -> & -> & ->). cbn.
      eexists. split; [done|]. rewrite len_app, <- app_assoc. split; [done|lia].
Qed.

(** *** Blocks prefixed by their size *)

Lemma patch_size_eq (data bs : bytes) :
  patch_size ((data ++ be_bytes 4 0) ++ bs) (len data) (len (data ++ be_bytes 4 0)) (len bs)
  = match format_block bs with
    | Some b => Ok (data ++ b, len b)
    | None => Err (size_overflow "Encoded message size overflow while encoding a dynamic value")
    end.
Proof.
  unfold patch_size, format_block. rewrite len_app, !len_nat.
  replace (Z.to_nat (len data + len (be_bytes 4 0) - len data)) with 4%nat
    by (rewrite len_be_bytes; lia).
  replace (Z.to_nat (len data + len (be_bytes 4 0))) with (length (data ++ be_bytes 4 0))
    by (rewrite <- len_app, len_nat; done).
  rewrite drop_len_app. rewrite <- app_assoc, take_len_app, drop_len_app.
  case_decide; [|done].
  rewrite write_u32_be_eq by done. cbn [ok_or]. by rewrite written_app.
Qed.

Lemma dynamic_refines enc o :
  refines enc o →
  refines (λ data, let? (data', n) := enc (put_u32 data 0) in
             patch_size data' (len data) (len (put_u32 data 0)) n)
          (bs ← o; format_block bs).
Proof.
  intros [H1' H2']. split.
  - intros data b E Hb. destruct o as [bs|]; [|done]. cbn in E.
    assert (len bs ≤ usize_max)
      by (unfold format_block, usize_max, u32_max in *; case_decide; [lia|done]).
    rewrite (H1' _ bs) by done. by rewrite put_u32_eq, patch_size_eq, E.
  - intros data d n E. destruct (enc (put_u32 data 0)) as [[d1 n1]|] eqn:E1; [|done].
    destruct (H2' _ _ _ E1) as (bs & -> & -> & ->).
    rewrite put_u32_eq, patch_size_eq in E. cbn.
    destruct (format_block bs) as [b|] eqn:Eb; [|done]. injection E as <- <-. eauto.
Qed.

Lemma guarded_refines enc o (Q : Z → Prop) `{∀ n, Decision (Q n)} err :
  refines enc o →
  refines (λ data, let? (data', n) := enc data in
             if decide (Q n) then Ok (data', n) else Err (err n))
          (bs ← o; guard_opt (Q (len bs)) (Some bs)).
Proof.
  intros [H1' H2']. split.
  - intros data b E Hb. destruct o as [bs|]; [|done]. cbn in E.
    apply guard_opt_Some in E as [HQ [= ->]].
    rewrite (H1' _ b) by done. by rewrite decide_True.
  - intros data d n E. destruct (enc data) as [[d1 n1]|] eqn:E1; [|done].
    destruct (H2' _ _ _ E1) as (bs & -> & -> & ->). case_decide; [|done].
    injection E as <- <-. exists bs. cbn. split; [|done]. by apply guard_opt_Some.
Qed.

Lemma prefixed_refines enc o (msg : EncodingError) (b : Z) :
  refines enc o →
  refines (λ data, let? (data', n) := enc (put_u8 data b) in
             let? n := ok_or (checked_add 1 n) msg in Ok (data', n))
          (app (be_bytes 1 b) <$> o).
Proof.
  intros [H1' H2']. split.
  - intros data bs E Hb. destruct o as [bs'|]; [|done].
    assert (bs = be_bytes 1 b ++ bs') as -> by (by injection E).
    rewrite len_app, len_be_bytes in *. pose proof (len_nonneg bs').
    rewrite (H1' _ bs') by (done || lia). rewrite checked_add_small by lia. cbn [ok_or].
    rewrite put_u8_eq. by rewrite <- app_assoc.
  - intros data d n E. destruct (enc (put_u8 data b)) as [[d1 n1]|] eqn:E1; [|done].
    destruct (H2' _ _ _ E1) as (bs & -> & -> & ->). unfold checked_add in E.
    case_decide; [|done]. cbn [ok_or] in E. injection E as <- <-.
    eexists. split; [done|]. rewrite put_u8_eq, len_app, len_be_bytes.
    by rewrite <- app_assoc.
Qed.

Lemma list_refines enc fmt l msg :
  (∀ v, refines (λ d, enc d v) (fmt v)) →
  refines (λ data, let? d := encode_elements enc data l in written msg (len data) d)
          (@concat BinNums.Z <$> mapM fmt l).
Proof.
  intros Hr. destruct (encode_elements_refines enc fmt l Hr) as [H1' H2']. split.
  - intros data bs E Hb. rewrite (H1' _ bs) by done. apply written_app.
  - intros data d n E. destruct (encode_elements enc data l) as [d1|] eqn:E1; [|done].
    destruct (H2' _ _ E1) as (bs & -> & ->). rewrite written_app in E.
    injection E as <- <-. eauto.
Qed.

Lemma u8s_refines l msg1 msg2 :
  refines (λ data, let? d := put_u8_values msg1 data l in written msg2 (len data) d)
          (format_u8s l).
Proof.
  destruct (put_u8_values_refines msg1 l) as [H1' H2']. split.
  - intros data bs E Hb. rewrite (H1' _ bs) by done. apply written_app.
  - intros data d n E. destruct (put_u8_values msg1 data l) as [d1|] eqn:E1; [|done].
    destruct (H2' _ _ E1) as (bs & -> & ->). rewrite written_app in E.
    injection E as <- <-. eauto.
Qed.

Lemma write_tag_id_eq data sz id :
  write_tag_id data sz id =
  match format_tag sz id with
  | Some bs => Ok (data ++ bs)
  | None => Err (custom "Unsupported tag size {}" [ANum sz])
  end.
Proof.
  unfold write_tag_id, format_tag. case_decide; [|case_decide; [|done]].
  - rewrite put_u8_eq. f_equal. f_equal. change 256 with (256 ^ Z.of_nat 1).
    by rewrite be_bytes_mod.
  - by rewrite put_u16_eq.
Qed.

Lemma tags_refines tag_sz tm v :
  Forall (λ p, ∀ v, refines (λ d, encode_value d v (tag_encoding p.2))
                            (format (tag_encoding p.2) v)) (id_to_tag tm) →
  refines (λ d, encode_value d v (Encoding.Tags tag_sz tm)) (format (Encoding.Tags tag_sz tm) v).
Proof.
  intros Htm. destruct v; try (apply refines_err; intros data; cbn; by eauto).
  - destruct name as [variant|]; [|apply refines_err; intros data; cbn; by eauto].
    cbn -[find_by_variant written]. destruct (find_by_variant tm variant) as [t|];
      [|apply refines_err; eauto].
    cbn -[written]. destruct (format_tag tag_sz (get_id t)) as [bs|] eqn:E.
    + apply refines_ret. intros data. rewrite write_tag_id_eq, E. apply written_app.
    + apply refines_err. intros data. rewrite write_tag_id_eq, E. cbn. eauto.
  - cbn -[find_by_variant written]. rewrite !find_by_variant_map.
    destruct (find_by_variant tm variant) as [t|] eqn:Et; [|apply refines_err; eauto].
    assert (refines (λ d, encode_value d v (tag_encoding t)) (format (tag_encoding t) v)) as [H1' H2'].
    { unfold find_by_variant in Et. destruct (hm_get variant _) as [i|]; [|done].
      apply hm_get_elem in Et. rewrite Forall_forall in Htm. apply (Htm _ Et). }
    cbn -[written]. destruct (format_tag tag_sz (get_id t)) as [ib|] eqn:E.
    + split.
      * intros data bs Eb Hb. cbn in Eb. destruct (format (tag_encoding t) v) as [b|] eqn:Ev; [|done].
        injection Eb as <-. rewrite len_app in Hb. pose proof (len_nonneg ib).
        rewrite write_tag_id_eq, E. cbn -[written]. rewrite (H1' _ b) by (done || lia).
        rewrite <- app_assoc. apply written_app.
      * intros data d n Ed. rewrite write_tag_id_eq, E in Ed. cbn -[written] in Ed.
        destruct (encode_value (data ++ ib) v (tag_encoding t)) as [[d1 n1]|] eqn:E1; [|done].
        destruct (H2' _ _ _ E1) as (bs & Eb & -> & ->). rewrite Eb. cbn.
        rewrite <- app_assoc, written_app in Ed. injection Ed as <- <-. eauto.
    + apply refines_err. intros data. rewrite write_tag_id_eq, E. cbn. eauto.
Qed.

Lemma string_refines s msg :
  refines (λ d, let? n := ok_or (checked_add 4 (len s)) msg in
             Ok (put_slice (put_u32 d (len s mod 2 ^ 32)) s, n))
          (Some (be_bytes 4 (len s) ++ s)).
Proof.
  assert (∀ d, put_slice (put_u32 d (len s mod 2 ^ 32)) s = d ++ be_bytes 4 (len s) ++ s) as Hput.
  { intros d. rewrite put_slice_eq, put_u32_eq, <- app_assoc. do 2 f_equal.
    change (2 ^ 32) with (256 ^ Z.of_nat 4). by apply be_bytes_mod. }
  assert (len (be_bytes 4 (len s) ++ s) = 4 + len s) as Hlen by by rewrite len_app, len_be_bytes.
  split.
  - intros data bs E Hb. assert (bs = be_bytes 4 (len s) ++ s) as -> by (by injection E).
    rewrite Hlen in *. rewrite checked_add_small by done. cbn [ok_or]. by rewrite Hput.
  - intros data d n E. unfold checked_add in E. case_decide; [|done]. cbn [ok_or] in E.
    injection E as <- <-. eexists. split; [done|]. by rewrite Hlen, Hput.
Qed.

Lemma codec_refines codec v e :
  refines (λ d, map_err into_error (codec_encode codec d v e))
          (result_bytes (codec_encode codec [] v e)).
Proof.
  destruct codec. cbn [codec_encode].
  destruct (PathCodec.encode [] v e) as [[bs n]|] eqn:E; cbn [result_bytes].
  - apply refines_ret. intros data. rewrite PathCodec.encode_app, E. cbn.
    by rewrite (PathCodec.encode_size _ _ _ _ E).
  - apply refines_err. intros data. rewrite PathCodec.encode_app, E. cbn. eauto.
Qed.

Lemma hash_refines l h msg1 msg2 err :
  refines (λ data, let? d := put_u8_values msg1 data l in
             let? (d, n) := written msg2 (len data) d in
             if decide (n = size h) then Ok (d, n) else Err (err n))
          (bs ← format_u8s l; guard_opt (len bs = size h) (Some bs)).
Proof.
  pose proof (guarded_refines _ _ (λ n, n = size h) err (u8s_refines l msg1 msg2)) as Hr.
  destruct Hr as [H1' H2']. split.
  - intros data bs E Hb. specialize (H1' data bs E Hb). by destruct (put_u8_values msg1 data l).
  - intros data d n E. apply (H2' data). by destruct (put_u8_values msg1 data l).
Qed.

#[local] Ltac refines_leaf :=
  lazymatch goal with
  | |- refines _ (result_bytes (encode_z _ _)) => apply encode_z_refines
  | |- refines _ (result_bytes (codec_encode _ _ _ _)) => apply codec_refines
  | |- refines _ (Some _) =>
      first [ apply string_refines
            | apply refines_ret; intros data; cbn -[be_bytes];
              autorewrite with bufmut; by rewrite ?app_nil_r, ?len_be_bytes ]
  | |- refines _ None => apply refines_err; intros data; cbn; by eauto
  | |- refines _ (guard_opt _ (Some _)) =>
      eapply refines_guard; intros data; autorewrite with bufmut; by rewrite ?len_be_bytes
  | |- refines _ (format_u8s _) => apply u8s_refines
  | |- refines _ (format_u8s _ ≫= _) => apply hash_refines
  end.

Lemma leaf_refines e :
  match e with
  | Encoding.Tags _ _ | Encoding.List _ | Encoding.BoundedList _ _ | Encoding.Option _
  | Encoding.OptionalField _ | Encoding.Obj _ _ | Encoding.Tup _ | Encoding.Dynamic _
  | Encoding.BoundedDynamic _ _ | Encoding.Sized _ _ | Encoding.Bounded _ _
  | Encoding.Greedy _ => False
  | _ => True
  end → ∀ v, refines (λ d, encode_value d v e) (format e v).
Proof.
  intros He v. destruct e; try done; clear He;
    try (destruct v; cbn -[be_bytes encode_z written codec_encode]; refines_leaf).
  - destruct v; cbn -[be_bytes encode_z]; try refines_leaf.
    destruct v; refines_leaf.
  - destruct v; cbn -[be_bytes encode_z]; try refines_leaf.
    unfold guard_opt. case_decide; case_decide; try lia; refines_leaf.
  - destruct v; cbn -[be_bytes encode_z]; try refines_leaf.
    destruct ordinal; refines_leaf.
Qed.

Lemma bounded_dynamic_refines m e v :
  refines (λ d, encode_value d v e) (format e v) →
  refines (λ d, encode_value d v (Encoding.BoundedDynamic m e))
          (format (Encoding.BoundedDynamic m e) v).
Proof.
  intros Hr.
  pose proof (guarded_refines _ _ (λ n, n ≤ m)
    (λ n, into_error (bound_error (Encoding.BoundedDynamic m e) m n)) Hr) as Hg.
  apply dynamic_refines in Hg. revert Hg. apply refines_ext.
  - intros d. cbn -[patch_size]. destruct (encode_value _ v e) as [[d' n]|]; [|done].
    case_decide; case_decide; done || lia.
  - cbn. destruct (format e v); [|done]. cbn. unfold guard_opt. by case_decide.
Qed.

(** The refinement, for every schema and value. *)
Lemma encode_value_refines e : ∀ v, refines (λ d, encode_value d v e) (format e v).
Proof.
  induction e as
    [e He|sz tm IH|e IH|m e IH|e IH|e IH|n s IH|es IH|e IH|m e IH|k e IH|m e IH|e IH]
    using Encoding_ind'; intros v;
    [by apply leaf_refines|by apply tags_refines| | | | | | | | | | |exact (IH v)].
  - destruct v; cbn -[be_bytes written]; try refines_leaf. by apply list_refines.
  - destruct v; cbn -[be_bytes written]; try refines_leaf. unfold guard_opt.
    case_decide; case_decide; try lia; [refines_leaf|by apply list_refines].
  - destruct v as [| | | | | | | | | | | | | |[w|]| | | | |]; cbn -[be_bytes written];
      try refines_leaf. by apply (prefixed_refines (λ d, encode_value d w e)).
  - destruct v as [| | | | | | | | | | | | | |[w|]| | | | |]; cbn -[be_bytes written];
      try refines_leaf. by apply (prefixed_refines (λ d, encode_value d w e)).
  - destruct v; cbn -[be_bytes]; try refines_leaf.
    destruct (encode_fields_refines encode_value format fields s IH) as [H1' H2'].
    split; [intros data bs E Hb; by apply (H1' data 0)|by intros data; apply (H2' data 0)].
  - destruct v; cbn -[be_bytes]; try refines_leaf.
    destruct (encode_items_refines encode_value format (Value.Tuple v) v es es 0 IH) as [H1' H2'].
    split; [intros data bs E Hb; by apply (H1' data 0)|by intros data; apply (H2' data 0)].
  - exact (dynamic_refines (λ d, encode_value d v e) _ (IH v)).
  - by apply bounded_dynamic_refines.
  - exact (guarded_refines _ _ (λ n, n = k) _ (IH v)).
  - exact (guarded_refines _ _ (λ n, n ≤ m) _ (IH v)).
Qed.

Lemma write_inv d e bs :
  write d e = Ok bs → ∃ v, serialize d = Ok v ∧ format e v = Some bs.
Proof.
  unfold write. intros Hw. destruct (serialize d) as [v|]; [|done]. cbn [map_err] in Hw.
  rewrite encode_any_eq in Hw. destruct (encode_value [] v e) as [[b n]|] eqn:Ev; [|done].
  destruct (encode_value_refines e v) as [_ Hr].
  destruct (Hr [] b n Ev) as (bs' & Ef & -> & _). cbn in Hw. injection Hw as <-. eauto.
Qed.

Lemma write_ok d e v bs :
  serialize d = Ok v → format e v = Some bs → len bs ≤ usize_max → write d e = Ok bs.
Proof.
  unfold write. intros -> Hf Hl. cbn [map_err]. rewrite encode_any_eq.
  destruct (encode_value_refines e v) as [Hr _]. by rewrite (Hr [] bs Hf Hl).
Qed.

(** C37: the writer implements the format.  Whatever is already in the buffer,
    [encode_value] appends exactly the bytes the format gives to the value,
    counts them, and fails exactly where the format gives none; and [write] is
    serialization followed by the format. *)
Theorem writer_refines_format d v e data bs :
  len bs ≤ usize_max →
  (encode_value data v e = Ok (data ++ bs, len bs) ↔ format e v = Some bs) ∧
  (∀ out n, encode_value data v e = Ok (out, n) → ∃ b, out = data ++ b ∧ n = len b) ∧
  (write d e = Ok bs ↔ ∃ w, serialize d = Ok w ∧ format e w = Some bs).
Proof.
  intros Hl. destruct (encode_value_refines e v) as [H1' H2']. repeat split.
  - intros Hw. destruct (H2' data _ _ Hw) as (b & Hf & Hb & _). apply app_inv_head in Hb. congruence.
  - intros Hf. by apply H1'.
  - intros out n Hw. destruct (H2' data _ _ Hw) as (b & _ & ? & ?). eauto.
  - apply write_inv.
  - intros (w & Hs & Hf). by eapply write_ok.
Qed.

End Format.

Module FormatWitnesses.
Import Concrete.

Definition example : Encoding := Encoding.Dynamic (Encoding.List Encoding.Uint16).

Lemma writer_refines_format_witness :
  write (DSeq [DU16 258; DU16 3]) example = Ok [0; 0; 0; 4; 1; 2; 0; 3].
Proof.
  apply (writer_refines_format _ (Value.List [Value.Uint16 258; Value.Uint16 3]) example []
           [0; 0; 0; 4; 1; 2; 0; 3]); [done|].
  eexists. split; reflexivity.
Defined.

End FormatWitnesses.
