(* ===== verification/NomLib.v ===== *)
(** * Decoding errors of [tezos/encoding/src/nom.rs] and the interface of [nom]

    [DecodeError] is the error type with which the repository instantiates the
    parser combinators of the crate [nom] (version 6).  The combinators are a
    class of operations; their documented behaviour is the class of laws. *)

From S2P Require Import Prelude BitUtils.

#[local] Set Warnings "-register-all".

(** ** Errors *)

(** The [nom::error::ErrorKind]s that occur. *)
Module ErrorKind.
Inductive ErrorKind :=
| Tag | MapRes | Alt | Eof | Complete | Many0 | ManyMN | ManyTill | Verify.
End ErrorKind.
Abbreviation ErrorKind := ErrorKind.ErrorKind.

#[global] Instance ErrorKind_eq_dec : EqDecision ErrorKind.
Proof. solve_decision. Defined.

(** [std::str::Utf8Error] *)
Record Utf8Error := mkUtf8Error { valid_up_to : Z; error_len : option Z }.

Inductive BoundedEncodingKind := BString | BList | BDynamic | BBounded.

#[global] Instance BoundedEncodingKind_eq_dec : EqDecision BoundedEncodingKind.
Proof. solve_decision. Defined.

Inductive DecodeErrorKind :=
| KNom (k : ErrorKind)
| KUtf8 (k : ErrorKind) (e : Utf8Error)
| KBoundary (k : BoundedEncodingKind)
| KBits (e : BitsError)
| KField (name : string)
| KVariant (name : string)
| KUnknownTag (tag : Z)
| KInvalidTag (tag : Z).

Inductive DecodeError := mkDecodeError {
  input : bytes;
  dkind : DecodeErrorKind;
  other : option DecodeError
}.

(** [nom::Err]; the payload of [Incomplete] is not used. *)
Inductive NomErr :=
| Incomplete
| NError (e : DecodeError)
| NFailure (e : DecodeError).

(** [nom::Err::map] *)
Definition nom_err_map (f : DecodeError → DecodeError) (e : NomErr) : NomErr :=
  match e with
  | Incomplete => Incomplete
  | NError e => NError (f e)
  | NFailure e => NFailure (f e)
  end.

Definition add_field (name : string) (self : DecodeError) : DecodeError :=
  mkDecodeError (input self) (KField name) (Some self).

Definition add_variant (name : string) (self : DecodeError) : DecodeError :=
  mkDecodeError (input self) (KVariant name) (Some self).

Definition limit (i : bytes) (kind : BoundedEncodingKind) : DecodeError :=
  mkDecodeError i (KBoundary kind) None.

(** The tag is kept as a number; the source formats it with [0x{:.2X}]. *)
Definition unknown_tag (i : bytes) (tag : Z) : DecodeError :=
  mkDecodeError i (KUnknownTag tag) None.

Definition invalid_tag (i : bytes) (tag : Z) : DecodeError :=
  mkDecodeError i (KInvalidTag tag) None.

Definition get_unknown_tag (self : DecodeError) : option Z :=
  match dkind self with KUnknownTag tag => Some tag | _ => None end.

(** [nom::error::ParseError] for [DecodeError] *)
Definition from_error_kind (i : bytes) (k : ErrorKind) : DecodeError :=
  mkDecodeError i (KNom k) None.

Definition append (i : bytes) (k : ErrorKind) (o : DecodeError) : DecodeError :=
  mkDecodeError i (KNom k) (Some o).

(** [nom::error::FromExternalError] for [Utf8Error] *)
Definition from_external_error (i : bytes) (k : ErrorKind) (e : Utf8Error) : DecodeError :=
  mkDecodeError i (KUtf8 k e) None.

(** ** Parsers *)

(** [NomResult<T>]: the rest of the input and the value. *)
Abbreviation NomResult T := (result (bytes * T) NomErr).
Abbreviation Parser T := (bytes → result (bytes * T) NomErr).

Class Nom : Type := {
  nom_take : nat → Parser bytes;
  nom_tag : bytes → Parser bytes;
  nom_rest : Parser bytes;
  nom_u8 : Parser Z; nom_i8 : Parser Z;
  nom_be_u16 : Parser Z; nom_be_i16 : Parser Z;
  nom_be_u32 : Parser Z; nom_be_i32 : Parser Z;
  nom_be_i64 : Parser Z; nom_be_f64 : Parser Z;
  nom_map {A B} : Parser A → (A → B) → Parser B;
  nom_map_res {A B} : Parser A → (A → result B Utf8Error) → Parser B;
  nom_complete {A} : Parser A → Parser A;
  nom_success {A} : A → Parser A;
  nom_all_consuming {A} : Parser A → Parser A;
  nom_map_parser {A} : Parser bytes → Parser A → Parser A;
  nom_verify {A} : Parser A → (A → bool) → Parser A;
  nom_flat_map {A B} : Parser A → (A → Parser B) → Parser B;
  nom_alt {A} : Parser A → Parser A → Parser A;
  nom_alt3 {A} : Parser A → Parser A → Parser A → Parser A;
  nom_preceded {A B} : Parser A → Parser B → Parser B;
  nom_length_data : Parser Z → Parser bytes;
  nom_length_value {A} : Parser Z → Parser A → Parser A;
  nom_fold_many0 {A R} : Parser A → R → (R → A → R) → Parser R;
  nom_fold_many_m_n {A R} : nat → nat → Parser A → R → (R → A → R) → Parser R;
  nom_many_till {A B} : Parser A → Parser B → Parser (list A * B);
  (** [tuple((p1, ..., pn))] of parsers with results of one type *)
  nom_tuple {A} : list (Parser A) → Parser (list A)
}.

(** The number read by a big-endian parser of [n] bytes. *)
Definition number_spec (n : nat) (conv : Z → Z) (p : Parser Z) : Prop :=
  (∀ l i, length l = n → p (l ++ i) = Ok (i, conv (be_val l))) ∧
  (∀ i, (length i < n)%nat → p i = Err (NError (from_error_kind i ErrorKind.Eof))).

Class NomLaws `{Nom} : Prop := {
  nom_take_ok n i : (n ≤ length i)%nat → nom_take n i = Ok (drop n i, take n i);
  nom_take_short n i : (length i < n)%nat → nom_take n i = Err (NError (from_error_kind i ErrorKind.Eof));
  nom_tag_ok t i : nom_tag t (t ++ i) = Ok (i, t);
  nom_tag_fail t i : (∀ k, i ≠ t ++ k) → nom_tag t i = Err (NError (from_error_kind i ErrorKind.Tag));
  nom_rest_eq i : nom_rest i = Ok ([], i);
  nom_u8_spec : number_spec 1 id nom_u8;
  nom_i8_spec : number_spec 1 (to_signed 8) nom_i8;
  nom_be_u16_spec : number_spec 2 id nom_be_u16;
  nom_be_i16_spec : number_spec 2 (to_signed 16) nom_be_i16;
  nom_be_u32_spec : number_spec 4 id nom_be_u32;
  nom_be_i32_spec : number_spec 4 (to_signed 32) nom_be_i32;
  nom_be_i64_spec : number_spec 8 (to_signed 64) nom_be_i64;
  nom_be_f64_spec : number_spec 8 id nom_be_f64;
  nom_map_eq {A B} (p : Parser A) (f : A → B) i :
    nom_map p f i = (let? (r, a) := p i in Ok (r, f a));
  nom_map_res_eq {A B} (p : Parser A) (f : A → result B Utf8Error) i :
    nom_map_res p f i =
      (let? (r, a) := p i in
       match f a with
       | Ok b => Ok (r, b)
       | Err e => Err (NError (from_external_error i ErrorKind.MapRes e))
       end);
  nom_complete_eq {A} (p : Parser A) i :
    nom_complete p i =
      match p i with
      | Err Incomplete => Err (NError (from_error_kind i ErrorKind.Complete))
      | r => r
      end;
  nom_success_eq {A} (a : A) i : nom_success a i = Ok (i, a);
  nom_all_consuming_eq {A} (p : Parser A) i :
    nom_all_consuming p i =
      (let? (r, a) := p i in
       match r with [] => Ok ([], a) | _ => Err (NError (from_error_kind r ErrorKind.Eof)) end);
  nom_map_parser_eq {A} (p : Parser bytes) (q : Parser A) i :
    nom_map_parser p q i = (let? (r, o) := p i in let? (_, a) := q o in Ok (r, a));
  nom_verify_eq {A} (p : Parser A) f i :
    nom_verify p f i =
      (let? (r, a) := p i in
       if (f a : bool) then Ok (r, a) else Err (NError (from_error_kind i ErrorKind.Verify)));
  nom_flat_map_eq {A B} (p : Parser A) (f : A → Parser B) i :
    nom_flat_map p f i = (let? (r, a) := p i in f a r);
  (** the next parser is tried when one has a recoverable error *)
  nom_alt_eq {A} (p q : Parser A) i :
    nom_alt p q i =
      match p i with
      | Err (NError _) =>
          match q i with Err (NError e) => Err (NError (append i ErrorKind.Alt e)) | r => r end
      | r => r
      end;
  nom_alt3_eq {A} (p q s : Parser A) i :
    nom_alt3 p q s i =
      match p i with
      | Err (NError _) =>
          match q i with
          | Err (NError _) =>
              match s i with Err (NError e) => Err (NError (append i ErrorKind.Alt e)) | r => r end
          | r => r
          end
      | r => r
      end;
  nom_preceded_eq {A B} (p : Parser A) (q : Parser B) i :
    nom_preceded p q i = (let? (r, _) := p i in q r);
  nom_length_data_eq (p : Parser Z) i :
    nom_length_data p i =
      (let? (r, n) := p i in
       if decide (n ≤ len r) then Ok (drop (Z.to_nat n) r, take (Z.to_nat n) r)
       else Err Incomplete);
  (** the inner parser sees only its block; what it leaves there is dropped *)
  nom_length_value_eq {A} (p : Parser Z) (q : Parser A) i :
    nom_length_value p q i =
      (let? (r, n) := p i in
       if decide (n ≤ len r) then
         let block := take (Z.to_nat n) r in
         match q block with
         | Ok (_, a) => Ok (drop (Z.to_nat n) r, a)
         | Err Incomplete => Err (NError (from_error_kind block ErrorKind.Complete))
         | Err e => Err e
         end
       else Err Incomplete);
  (** repetition stops at the first recoverable error, and refuses a parser
      that succeeds without consuming anything *)
  nom_fold_many0_step {A R} (p : Parser A) (init : R) (g : R → A → R) i r a :
    p i = Ok (r, a) → (length r < length i)%nat →
    nom_fold_many0 p init g i = nom_fold_many0 p (g init a) g r;
  nom_fold_many0_stop {A R} (p : Parser A) (init : R) (g : R → A → R) i e :
    p i = Err (NError e) → nom_fold_many0 p init g i = Ok (i, init);
  nom_fold_many0_fail {A R} (p : Parser A) (init : R) (g : R → A → R) i e :
    p i = Err e → (∀ e', e ≠ NError e') → nom_fold_many0 p init g i = Err e;
  nom_fold_many0_loop {A R} (p : Parser A) (init : R) (g : R → A → R) i a :
    p i = Ok (i, a) →
    nom_fold_many0 p init g i = Err (NError (from_error_kind i ErrorKind.Many0));
  nom_fold_many_m_n_max {A R} (p : Parser A) (init : R) (g : R → A → R) i :
    nom_fold_many_m_n 0 0 p init g i = Ok (i, init);
  nom_fold_many_m_n_eq {A R} n (p : Parser A) (init : R) (g : R → A → R) i :
    nom_fold_many_m_n 0 (S n) p init g i =
      match p i with
      | Ok (r, a) =>
          if decide (r = i) then Err (NError (from_error_kind i ErrorKind.ManyMN))
          else nom_fold_many_m_n 0 n p (g init a) g r
      | Err (NError _) => Ok (i, init)
      | Err e => Err e
      end;
  (** repetition of [p] up to the first success of [q] *)
  nom_many_till_done {A B} (p : Parser A) (q : Parser B) i r b :
    q i = Ok (r, b) → nom_many_till p q i = Ok (r, ([], b));
  nom_many_till_step {A B} (p : Parser A) (q : Parser B) i e r a :
    q i = Err (NError e) → p i = Ok (r, a) → (length r < length i)%nat →
    nom_many_till p q i =
      (let? (r', (l, b)) := nom_many_till p q r in Ok (r', (a :: l, b)));
  nom_many_till_fail {A B} (p : Parser A) (q : Parser B) i e e' :
    q i = Err (NError e) → p i = Err (NError e') →
    nom_many_till p q i = Err (NError (append i ErrorKind.ManyTill e'));
  nom_tuple_nil {A} i : nom_tuple (@nil (Parser A)) i = Ok (i, []);
  nom_tuple_cons {A} (p : Parser A) ps i :
    nom_tuple (p :: ps) i =
      (let? (r, a) := p i in let? (r, l) := nom_tuple ps r in Ok (r, a :: l))
}.

(** ** A concrete instance *)

Module ConcreteNom.

Definition number (n : nat) (conv : Z → Z) : Parser Z := λ i,
  if decide (n ≤ length i)%nat then Ok (drop n i, conv (be_val (take n i)))
  else Err (NError (from_error_kind i ErrorKind.Eof)).

(** Every round consumes something, so the length of the input is enough fuel. *)
Fixpoint fold_many0_fuel {A R} (fuel : nat) (p : Parser A) (init : R) (g : R → A → R)
    : Parser R := λ i,
  match p i with
  | Ok (r, a) =>
      if decide (length r < length i)%nat then
        match fuel with
        | O => Err Incomplete
        | S f => fold_many0_fuel f p (g init a) g r
        end
      else Err (NError (from_error_kind i ErrorKind.Many0))
  | Err (NError _) => Ok (i, init)
  | Err e => Err e
  end.

Fixpoint many_till_fuel {A B} (fuel : nat) (p : Parser A) (q : Parser B)
    : Parser (list A * B) := λ i,
  match q i with
  | Ok (r, b) => Ok (r, ([], b))
  | Err (NError _) =>
      match p i with
      | Ok (r, a) =>
          if decide (length r < length i)%nat then
            match fuel with
            | O => Err Incomplete
            | S f => let? (r', (l, b)) := many_till_fuel f p q r in Ok (r', (a :: l, b))
            end
          else Err (NError (from_error_kind r ErrorKind.ManyTill))
      | Err (NError e) => Err (NError (append i ErrorKind.ManyTill e))
      | Err e => Err e
      end
  | Err e => Err e
  end.

Fixpoint fold_many_n {A R} (n : nat) (p : Parser A) (init : R) (g : R → A → R) : Parser R :=
  λ i,
  match n with
  | O => Ok (i, init)
  | S m =>
      match p i with
      | Ok (r, a) =>
          if decide (r = i) then Err (NError (from_error_kind i ErrorKind.ManyMN))
          else fold_many_n m p (g init a) g r
      | Err (NError _) => Ok (i, init)
      | Err e => Err e
      end
  end.

Fixpoint tuple_list {A} (ps : list (Parser A)) : Parser (list A) := λ i,
  match ps with
  | [] => Ok (i, [])
  | p :: ps' => let? (r, a) := p i in let? (r, l) := tuple_list ps' r in Ok (r, a :: l)
  end.

#[export] Instance nom : Nom := {|
  nom_take n i :=
    if decide (n ≤ length i)%nat then Ok (drop n i, take n i)
    else Err (NError (from_error_kind i ErrorKind.Eof));
  nom_tag t i :=
    if decide (take (length t) i = t) then Ok (drop (length t) i, t)
    else Err (NError (from_error_kind i ErrorKind.Tag));
  nom_rest i := Ok ([], i);
  nom_u8 := number 1 id; nom_i8 := number 1 (to_signed 8);
  nom_be_u16 := number 2 id; nom_be_i16 := number 2 (to_signed 16);
  nom_be_u32 := number 4 id; nom_be_i32 := number 4 (to_signed 32);
  nom_be_i64 := number 8 (to_signed 64); nom_be_f64 := number 8 id;
  nom_map A B p f i := let? (r, a) := p i in Ok (r, f a);
  nom_map_res A B p f i :=
    let? (r, a) := p i in
    match f a with
    | Ok b => Ok (r, b)
    | Err e => Err (NError (from_external_error i ErrorKind.MapRes e))
    end;
  nom_complete A p i :=
    match p i with
    | Err Incomplete => Err (NError (from_error_kind i ErrorKind.Complete))
    | r => r
    end;
  nom_success A a i := Ok (i, a);
  nom_all_consuming A p i :=
    let? (r, a) := p i in
    match r with [] => Ok ([], a) | _ => Err (NError (from_error_kind r ErrorKind.Eof)) end;
  nom_map_parser A p q i := let? (r, o) := p i in let? (_, a) := q o in Ok (r, a);
  nom_verify A p f i :=
    let? (r, a) := p i in
    if (f a : bool) then Ok (r, a) else Err (NError (from_error_kind i ErrorKind.Verify));
  nom_flat_map A B p f i := let? (r, a) := p i in f a r;
  nom_alt A p q i :=
    match p i with
    | Err (NError _) =>
        match q i with Err (NError e) => Err (NError (append i ErrorKind.Alt e)) | r => r end
    | r => r
    end;
  nom_alt3 A p q s i :=
    match p i with
    | Err (NError _) =>
        match q i with
        | Err (NError _) =>
            match s i with Err (NError e) => Err (NError (append i ErrorKind.Alt e)) | r => r end
        | r => r
        end
    | r => r
    end;
  nom_preceded A B p q i := let? (r, _) := p i in q r;
  nom_length_data p i :=
    let? (r, n) := p i in
    if decide (n ≤ len r) then Ok (drop (Z.to_nat n) r, take (Z.to_nat n) r)
    else Err Incomplete;
  nom_length_value A p q i :=
    let? (r, n) := p i in
    if decide (n ≤ len r) then
      let block := take (Z.to_nat n) r in
      match q block with
      | Ok (_, a) => Ok (drop (Z.to_nat n) r, a)
      | Err Incomplete => Err (NError (from_error_kind block ErrorKind.Complete))
      | Err e => Err e
      end
    else Err Incomplete;
  nom_fold_many0 A R p init g i := fold_many0_fuel (length i) p init g i;
  nom_fold_many_m_n A R _ n p init g := fold_many_n n p init g;
  nom_many_till A B p q i := many_till_fuel (length i) p q i;
  nom_tuple A ps := tuple_list ps
|}.

Lemma number_ok n conv : number_spec n conv (number n conv).
Proof.
  split.
  - intros l i <-. unfold number. rewrite length_app. rewrite decide_True by lia.
    by rewrite take_len_app, drop_len_app.
  - intros i Hi. unfold number. by rewrite decide_False by lia.
Qed.

Lemma fold_many0_fuel_irrel {A R} (p : Parser A) (g : R → A → R) f1 f2 init i :
  (length i ≤ f1)%nat → (length i ≤ f2)%nat →
  fold_many0_fuel f1 p init g i = fold_many0_fuel f2 p init g i.
Proof.
  revert f2 init i. induction f1 as [|f1 IH]; intros [|f2] init i H1 H2; cbn;
    destruct (p i) as [[r a]|[| |]]; try done; case_decide; try done; try lia.
  apply IH; lia.
Qed.

Lemma many_till_fuel_irrel {A B} (p : Parser A) (q : Parser B) f1 f2 i :
  (length i ≤ f1)%nat → (length i ≤ f2)%nat →
  many_till_fuel f1 p q i = many_till_fuel f2 p q i.
Proof.
  revert f2 i. induction f1 as [|f1 IH]; intros [|f2] i H1 H2; cbn;
    destruct (q i) as [[r b]|[| |]]; try done;
    destruct (p i) as [[r' a]|[| |]]; try done; case_decide; try done; try lia.
  rewrite (IH f2) by lia. done.
Qed.

#[export] Instance nom_laws : NomLaws.
Proof.
  constructor; try (intros; reflexivity); try apply number_ok.
  - intros n i Hn. cbn. by rewrite decide_True.
  - intros n i Hn. cbn. by rewrite decide_False by lia.
  - intros t i. cbn. by rewrite take_len_app, drop_len_app, decide_True.
  - intros t i Ht. cbn. rewrite decide_False; [done|]. intros E.
    apply (Ht (drop (length t) i)). rewrite <- E at 1. by rewrite take_drop.
  - intros A R p init g i r a E Hr. cbn.
    destruct (length i) as [|n] eqn:Hi; [lia|]. cbn. rewrite E.
    rewrite decide_True by lia. apply fold_many0_fuel_irrel; lia.
  - intros A R p init g i e E. cbn. destruct (length i); cbn; by rewrite E.
  - intros A R p init g i e E He. cbn.
    destruct (length i); cbn; rewrite E; destruct e; try done; by destruct (He e).
  - intros A R p init g i a E. cbn.
    destruct (length i) eqn:Hi; cbn; rewrite E; by rewrite decide_False by lia.
  - intros A B p q i r b E. cbn. destruct (length i); cbn; by rewrite E.
  - intros A B p q i e r a Eq Ep Hr. cbn.
    destruct (length i) as [|n] eqn:Hi; [lia|]. cbn. rewrite Eq, Ep.
    rewrite decide_True by lia. by rewrite (many_till_fuel_irrel p q n (length r)) by lia.
  - intros A B p q i e e' Eq Ep. cbn. destruct (length i); cbn; by rewrite Eq, Ep.
Qed.

End ConcreteNom.
