(* ===== verification/NomReader.v ===== *)
(** * The reader's combinators: [tezos/encoding/src/nom.rs]

    One definition per function of the file, over the parsers of [nom] given
    by the class [Nom].  A [String] is its UTF-8 bytes; [std::str::from_utf8]
    is written out, since the reader refuses what it refuses. *)

From S2P Require Import Prelude External BitUtils Hash Encoding NomLib.

(** ** [std::str::from_utf8] *)

Definition utf8_cont (b : Z) : bool := bool_decide (128 ≤ b ≤ 191).

(** The width of a character by its first byte, 0 for a byte that starts none. *)
Definition utf8_char_width (b : Z) : Z :=
  if decide (b < 128) then 1
  else if decide (194 ≤ b ≤ 223) then 2
  else if decide (224 ≤ b ≤ 239) then 3
  else if decide (240 ≤ b ≤ 244) then 4
  else 0.

(** The second byte of a character of three or four bytes excludes overlong
    forms, surrogates and what lies above [U+10FFFF]. *)
Definition utf8_second (first b : Z) : bool :=
  if decide (first = 224) then bool_decide (160 ≤ b ≤ 191)
  else if decide (first = 237) then bool_decide (128 ≤ b ≤ 159)
  else if decide (first = 240) then bool_decide (144 ≤ b ≤ 191)
  else if decide (first = 244) then bool_decide (128 ≤ b ≤ 143)
  else utf8_cont b.

Fixpoint utf8_validate (index : Z) (v : bytes) : option Utf8Error :=
  let err l := Some {| valid_up_to := index; error_len := l |} in
  match v with
  | [] => None
  | first :: v1 =>
      let w := utf8_char_width first in
      if decide (w = 1) then utf8_validate (index + 1) v1
      else if decide (w = 2) then
        match v1 with
        | [] => err None
        | b1 :: v2 => if utf8_cont b1 then utf8_validate (index + 2) v2 else err (Some 1)
        end
      else if decide (w = 3) then
        match v1 with
        | [] => err None
        | b1 :: v2 =>
            if utf8_second first b1 then
              match v2 with
              | [] => err None
              | b2 :: v3 => if utf8_cont b2 then utf8_validate (index + 3) v3 else err (Some 2)
              end
            else err (Some 1)
        end
      else if decide (w = 4) then
        match v1 with
        | [] => err None
        | b1 :: v2 =>
            if utf8_second first b1 then
              match v2 with
              | [] => err None
              | b2 :: v3 =>
                  if utf8_cont b2 then
                    match v3 with
                    | [] => err None
                    | b3 :: v4 =>
                        if utf8_cont b3 then utf8_validate (index + 4) v4 else err (Some 3)
                    end
                  else err (Some 2)
              end
            else err (Some 1)
        end
      else err (Some 1)
  end.

Definition from_utf8 (v : bytes) : result bytes Utf8Error :=
  match utf8_validate 0 v with None => Ok v | Some e => Err e end.

(** ** The readers *)

Module NomReader.
Section Readers.
Context `{Nom, BitVecLib, BigIntLib}.

(** [hash_nom_reader!]: the slice taken has the size of the hash, so the
    [unwrap] does not panic ([hash_unwrap_ok] below). *)
Definition hash_nom_read (h : HashType) : Parser (list Z) :=
  nom_map (nom_take (Z.to_nat (size h)))
    (λ bs, match try_from_bytes h bs with Ok hash => hash | Err _ => [] end).

Definition boolean : Parser bool :=
  nom_alt (nom_map (nom_tag [BYTE_VAL_TRUE]) (λ _, true))
          (nom_map (nom_tag [BYTE_VAL_FALSE]) (λ _, false)).

Definition bytes : Parser (list Z) := nom_map nom_rest id.

Definition size : Parser Z := nom_be_u32.

Definition bounded_size (kind : BoundedEncodingKind) (max : Z) : Parser Z := λ input,
  let i := input in
  let? (input, size) := size input in
  if decide (size ≤ max) then Ok (input, size) else Err (NError (limit i kind)).

Definition string : Parser (list Z) :=
  nom_map_res (nom_complete (nom_length_data size)) from_utf8.

Definition bounded_string (max : Z) : Parser (list Z) :=
  nom_map_res (nom_complete (nom_length_data (bounded_size BString max))) from_utf8.

Definition sized {O} (size : Z) (f : Parser O) : Parser O :=
  nom_map_parser (nom_take (Z.to_nat size)) f.

Definition optional_field {O} (parser : Parser O) : Parser (option O) :=
  nom_alt (nom_preceded (nom_tag [0]) (nom_success None))
          (nom_preceded (nom_tag [255]) (nom_map parser Some)).

Definition list {O} (f : Parser O) : Parser (Datatypes.list O) :=
  nom_fold_many0 f [] (λ list item, list ++ [item]).

Definition bounded_list {O} (max : Z) (f : Parser O) : Parser (Datatypes.list O) := λ input,
  let? (input, list) :=
    nom_fold_many_m_n 0 (Z.to_nat max) f [] (λ list item, list ++ [item]) input in
  if decide (len input > 0) then
    Err (NError {| input := input; dkind := KBoundary BList; other := None |})
  else Ok (input, list).

Definition dynamic {O} (f : Parser O) : Parser O :=
  nom_length_value size (nom_all_consuming f).

Definition bounded_dynamic {O} (max : Z) (f : Parser O) : Parser O :=
  nom_length_value (bounded_size BDynamic max) (nom_all_consuming f).

Definition bounded {O} (max : Z) (f : Parser O) : Parser O := λ input,
  let max := Z.min max (len input) in
  let bounded := take (Z.to_nat max) input in
  match f bounded with
  | Ok (rest, parsed) => Ok (drop (Z.to_nat (max - len rest)) input, parsed)
  | Err (NError {| input := input; dkind := KNom ErrorKind.Eof; other := other |}) =>
      Err (NError {| input := input; dkind := KBoundary BBounded; other := other |})
  | e => e
  end.

Definition field {O} (name : String.string) (parser : Parser O) : Parser O := λ input,
  map_err (nom_err_map (add_field name)) (parser input).

Definition variant {O} (name : String.string) (parser : Parser O) : Parser O := λ input,
  map_err (nom_err_map (add_variant name)) (parser input).

Definition map_bits_err (input : Datatypes.list Z) (error : BitsError) : DecodeError :=
  {| input := input; dkind := KBits error; other := None |}.

(** [for i in from..from + count { bits.push(byte.get(i)?); }] *)
Fixpoint push_bits (byte from : Z) (count : nat) (bits : Datatypes.list bool)
    : result (Datatypes.list bool) BitsError :=
  match count with
  | O => Ok bits
  | S count' =>
      let? bit := Bits.get 8 byte from in
      push_bits byte (from + 1) count' (bits ++ [bit])
  end.

(** The loop [while has_next] of [zarith] and [mutez].  Every round reads a
    byte, so a fuel above the length of the input is never used up. *)
Fixpoint read_chunks (fuel : nat) (bits : Datatypes.list bool) : Parser (Datatypes.list bool) :=
  λ input,
  match fuel with
  | O => Err Incomplete
  | S fuel' =>
      let map_err {A} := @map_err A _ _ (λ e, NError (map_bits_err input e)) in
      let? (input, byte) := nom_u8 input in
      let? bits := map_err (push_bits byte 0 7 bits) in
      let? has_next := map_err (Bits.get 8 byte 7) in
      if (has_next : bool) then read_chunks fuel' bits input else Ok (input, bits)
  end.

(** Padding to whole bytes, on the side that becomes most significant. *)
Definition pad_bits (bits : Datatypes.list bool) : Datatypes.list bool :=
  let pad := len bits mod 8 in
  if decide (pad = 0) then bits else bits ++ replicate (Z.to_nat (8 - pad)) false.

Definition bits_to_bigint (sign : Sign) (bits : Datatypes.list bool) : Z :=
  from_bytes_be sign (bitvec_to_bytes (bit_reverse (pad_bits bits))).

Definition zarith : Parser Z := λ input,
  let map_err {A} := @map_err A _ _ (λ e, NError (map_bits_err input e)) in
  let? (input, first) := nom_u8 input in
  let? (has_next, first) := map_err (Bits.take 8 first 7) in
  let? (negative, first) := map_err (Bits.take 8 first 6) in
  if negb has_next then
    let num := if (negative : bool) then - to_signed 8 first else to_signed 8 first in
    Ok (input, num)
  else
    let? bits := map_err (push_bits first 0 6 []) in
    let? (input, bits) := read_chunks (S (length input)) bits input in
    let sign := if (negative : bool) then Minus else Plus in
    Ok (input, bits_to_bigint sign bits).

Definition mutez : Parser Z := λ input,
  let? (input, bits) := read_chunks (S (length input)) [] input in
  Ok (input, bits_to_bigint Plus bits).

(** [NomReader] for [Zarith] and [Mutez], wrappers of the integer. *)
Definition zarith_nom_read : Parser Z := nom_map zarith id.
Definition mutez_nom_read : Parser Z := nom_map mutez id.

End Readers.
End NomReader.

(** ** What the readers do *)

Section ReaderLemmas.
Context `{NomLaws}.

Lemma hash_nom_read_ok h l i :
  len l = size h → NomReader.hash_nom_read h (l ++ i) = Ok (i, l).
Proof.
  intros Hl. assert (Z.to_nat (size h) = length l) as E by (rewrite <- Hl; apply len_nat).
  unfold NomReader.hash_nom_read. rewrite nom_map_eq, E, nom_take_ok by (rewrite length_app; lia).
  rewrite take_len_app, drop_len_app. unfold try_from_bytes. by rewrite decide_True.
Qed.

(** The [unwrap] of [hash_nom_reader!] is reached with a slice of the right
    size only. *)
Lemma hash_unwrap_ok h i r l :
  nom_take (Z.to_nat (size h)) i = Ok (r, l) → try_from_bytes h l = Ok l ∧ i = l ++ r.
Proof.
  intros E. destruct (decide (Z.to_nat (size h) ≤ length i)%nat) as [Hl|Hl].
  - rewrite nom_take_ok in E by done. injection E as <- <-. rewrite take_drop. split; [|done].
    unfold try_from_bytes, len. rewrite length_take, Nat.min_l by done.
    rewrite decide_True; [done|]. destruct h; done.
  - rewrite nom_take_short in E by lia. done.
Qed.

Lemma be_val_4 v : 0 ≤ v ≤ u32_max → be_val (be_bytes 4 v) = v.
Proof. intros Hv. rewrite be_val_be_bytes. apply Z.mod_small. unfold u32_max in Hv. simpl. lia. Qed.

Lemma size_ok v i : 0 ≤ v ≤ u32_max → NomReader.size (be_bytes 4 v ++ i) = Ok (i, v).
Proof.
  intros Hv. destruct nom_be_u32_spec as [E _]. unfold NomReader.size.
  rewrite E by apply length_be_bytes. unfold id. by rewrite be_val_4.
Qed.

Lemma size_short i : (length i < 4)%nat →
  NomReader.size i = Err (NError (from_error_kind i ErrorKind.Eof)).
Proof. intros Hi. destruct nom_be_u32_spec as [_ E]. by apply E. Qed.

Lemma bounded_size_ok kind max v i :
  0 ≤ v ≤ u32_max →
  NomReader.bounded_size kind max (be_bytes 4 v ++ i) =
    if decide (v ≤ max) then Ok (i, v) else Err (NError (limit (be_bytes 4 v ++ i) kind)).
Proof. intros Hv. unfold NomReader.bounded_size. by rewrite size_ok. Qed.

Lemma boolean_eq b i :
  NomReader.boolean ((if b : bool then BYTE_VAL_TRUE else BYTE_VAL_FALSE) :: i) = Ok (i, b).
Proof.
  unfold NomReader.boolean. rewrite nom_alt_eq, !nom_map_eq. destruct b.
  - change (BYTE_VAL_TRUE :: i) with ([BYTE_VAL_TRUE] ++ i). by rewrite nom_tag_ok.
  - rewrite (nom_tag_fail [BYTE_VAL_TRUE]) by (intros k E; injection E; done).
    change (BYTE_VAL_FALSE :: i) with ([BYTE_VAL_FALSE] ++ i). by rewrite nom_tag_ok.
Qed.

Lemma length_data_ok (p : Parser Z) l n i :
  p (l ++ i) = Ok (i, n) → ∀ bs k, i = bs ++ k → len bs = n →
  nom_length_data p (l ++ i) = Ok (k, bs).
Proof.
  intros E bs k -> <-. rewrite nom_length_data_eq, E, len_app. pose proof (len_nonneg k).
  rewrite decide_True by lia. by rewrite len_nat, take_len_app, drop_len_app.
Qed.

Lemma string_eq v i :
  len v ≤ u32_max → from_utf8 v = Ok v →
  NomReader.string (be_bytes 4 (len v) ++ v ++ i) = Ok (i, v).
Proof.
  intros Hv Hu. unfold NomReader.string. rewrite nom_map_res_eq, nom_complete_eq.
  erewrite length_data_ok; [|by apply size_ok; split; [apply len_nonneg|]|done|done].
  by rewrite Hu.
Qed.

Lemma bounded_string_eq max v i :
  len v ≤ u32_max → len v ≤ max → from_utf8 v = Ok v →
  NomReader.bounded_string max (be_bytes 4 (len v) ++ v ++ i) = Ok (i, v).
Proof.
  intros Hv Hm Hu. unfold NomReader.bounded_string. rewrite nom_map_res_eq, nom_complete_eq.
  assert (NomReader.bounded_size BString max (be_bytes 4 (len v) ++ v ++ i) = Ok (v ++ i, len v))
    as E by (pose proof (len_nonneg v); rewrite bounded_size_ok by lia; by rewrite decide_True).
  by rewrite (length_data_ok _ _ _ _ E v i), Hu.
Qed.

Lemma length_value_ok {O} (p : Parser Z) (f : Parser O) l bs i v :
  p (l ++ bs ++ i) = Ok (bs ++ i, len bs) → f bs = Ok ([], v) →
  nom_length_value p (nom_all_consuming f) (l ++ bs ++ i) = Ok (i, v).
Proof.
  intros Ep Ef. rewrite nom_length_value_eq, Ep, len_app. pose proof (len_nonneg i).
  rewrite decide_True by lia. cbn zeta.
  by rewrite len_nat, take_len_app, drop_len_app, nom_all_consuming_eq, Ef.
Qed.

Lemma dynamic_eq {O} (f : Parser O) bs i v :
  len bs ≤ u32_max → f bs = Ok ([], v) →
  NomReader.dynamic f (be_bytes 4 (len bs) ++ bs ++ i) = Ok (i, v).
Proof.
  intros Hb Hf. apply length_value_ok; [|done].
  apply size_ok. pose proof (len_nonneg bs); lia.
Qed.

Lemma bounded_dynamic_eq {O} max (f : Parser O) bs i v :
  len bs ≤ u32_max → len bs ≤ max → f bs = Ok ([], v) →
  NomReader.bounded_dynamic max f (be_bytes 4 (len bs) ++ bs ++ i) = Ok (i, v).
Proof.
  intros Hb Hm Hf. apply length_value_ok; [|done]. pose proof (len_nonneg bs).
  rewrite bounded_size_ok by lia. by rewrite decide_True.
Qed.

Lemma bounded_dynamic_failure {O} max (f : Parser O) bs i e :
  len bs ≤ u32_max → len bs ≤ max → f bs = Err (NFailure e) →
  NomReader.bounded_dynamic max f (be_bytes 4 (len bs) ++ bs ++ i) = Err (NFailure e).
Proof.
  intros Hb Hm Hf. pose proof (len_nonneg bs). unfold NomReader.bounded_dynamic.
  rewrite nom_length_value_eq, bounded_size_ok by lia. rewrite decide_True by done.
  rewrite decide_True by (rewrite len_app; pose proof (len_nonneg i); lia).
  cbn zeta. by rewrite len_nat, take_len_app, nom_all_consuming_eq, Hf.
Qed.

Lemma sized_eq {O} n (f : Parser O) bs i r v :
  len bs = n → f bs = Ok (r, v) → NomReader.sized n f (bs ++ i) = Ok (i, v).
Proof.
  intros <- Hf. unfold NomReader.sized.
  rewrite nom_map_parser_eq, len_nat, nom_take_ok by (rewrite length_app; lia).
  by rewrite take_len_app, drop_len_app, Hf.
Qed.

Lemma optional_field_none {O} (f : Parser O) i :
  NomReader.optional_field f (0 :: i) = Ok (i, None).
Proof.
  unfold NomReader.optional_field. rewrite nom_alt_eq, nom_preceded_eq.
  change (0 :: i) with ([0] ++ i). by rewrite nom_tag_ok, nom_success_eq.
Qed.

Lemma optional_field_some {O} (f : Parser O) i r v :
  f i = Ok (r, v) → NomReader.optional_field f (255 :: i) = Ok (r, Some v).
Proof.
  intros Hf. unfold NomReader.optional_field. rewrite nom_alt_eq, !nom_preceded_eq.
  rewrite (nom_tag_fail [0]) by (intros k E; injection E; done).
  change (255 :: i) with ([255] ++ i). by rewrite nom_tag_ok, nom_map_eq, Hf.
Qed.

Lemma field_ok {O} name (p : Parser O) i r v :
  p i = Ok (r, v) → NomReader.field name p i = Ok (r, v).
Proof. intros E. unfold NomReader.field. by rewrite E. Qed.

Lemma variant_ok {O} name (p : Parser O) i r v :
  p i = Ok (r, v) → NomReader.variant name p i = Ok (r, v).
Proof. intros E. unfold NomReader.variant. by rewrite E. Qed.

End ReaderLemmas.
