(* ===== verification/Zarith.v ===== *)
(** * Arbitrary precision integers: the writer [encode_z] against the readers
      [zarith] and [mutez]

    [zarith_bytes] is the reference form of a [Z]: a first byte with a
    continuation bit, a sign bit and six bits of the absolute value, then
    bytes with a continuation bit and seven bits, least significant first. *)

From S2P Require Import Prelude External BitUtils Hash Encoding Serializer PathCodec BinaryWriter NomLib NomReader.

(** ** The reference form *)

(** [rest] bytes with the continuation bit set, then one without. *)
Fixpoint seven_bits (rest : nat) (m : Z) : bytes :=
  match rest with
  | O => [m]
  | S rest' => 128 + m mod 128 :: seven_bits rest' (m / 128)
  end.

(** The form of a natural number, in as few bytes as possible. *)
Definition natural_bytes (m : Z) : bytes := seven_bits (Z.to_nat (Z.log2 m / 7)) m.

Definition zarith_bytes (z : Z) : bytes :=
  let m := Z.abs z in
  let sign := if decide (z < 0) then 64 else 0 in
  if decide (m < 64) then [sign + m]
  else 128 + sign + m mod 64 :: natural_bytes (m / 64).

(** The number read from bytes with seven bits each. *)
Definition le7 (l : bytes) : Z := foldr (λ b acc, b mod 128 + 128 * acc) 0 l.

Lemma seven_bits_split rest m :
  0 ≤ m < 128 ^ Z.of_nat (S rest) →
  ∃ l b, seven_bits rest m = l ++ [b] ∧ Forall (λ c, 128 ≤ c < 256) l ∧ 0 ≤ b < 128 ∧
         le7 (seven_bits rest m) = m.
Proof.
  revert m. induction rest as [|rest IH]; intros m Hm.
  - exists [], m. repeat split; try done; try lia. cbn. rewrite Z.mod_small by lia. lia.
  - pose proof (Z.mod_pos_bound m 128 ltac:(lia)) as Hmod.
    destruct (IH (m / 128)) as (l & b & E & Hl & Hb & V).
    { rewrite Nat2Z.inj_succ, Z.pow_succ_r in Hm by lia.
      split; [apply Z.div_pos; lia|]. apply Z.div_lt_upper_bound; lia. }
    exists (128 + m mod 128 :: l), b. cbn [seven_bits]. split; [by rewrite E|].
    split; [constructor; [lia|done]|]. split; [done|].
    cbn [le7 foldr]. fold (le7 (seven_bits rest (m / 128))). rewrite V.
    rewrite (Z.add_comm 128). replace (m mod 128 + 128) with (m mod 128 + 1 * 128) by lia.
    rewrite Z.mod_add, Z.mod_mod by lia. pose proof (Z.div_mod m 128). lia.
Qed.

Lemma natural_bytes_split m :
  0 ≤ m →
  ∃ l b, natural_bytes m = l ++ [b] ∧ Forall (λ c, 128 ≤ c < 256) l ∧ 0 ≤ b < 128 ∧
         le7 (l ++ [b]) = m.
Proof.
  intros Hm. destruct (seven_bits_split (Z.to_nat (Z.log2 m / 7)) m) as (l & b & E & ?&?& V).
  { split; [done|]. pose proof (Z.log2_nonneg m).
    rewrite Nat2Z.inj_succ, Z2Nat.id by (apply Z.div_pos; lia).
    change 128 with (2 ^ 7). rewrite <- Z.pow_mul_r by (try apply Z.le_le_succ_r, Z.div_pos; lia).
    destruct (decide (m = 0)) as [->|]; [by vm_compute|].
    apply Z.log2_lt_pow2; [lia|]. pose proof (Z.div_mod (Z.log2 m) 7 ltac:(lia)).
    pose proof (Z.mod_pos_bound (Z.log2 m) 7 ltac:(lia)). lia. }
  exists l, b. unfold natural_bytes. by rewrite <- E.
Qed.

Lemma le7_nonneg l : 0 ≤ le7 l.
Proof.
  induction l as [|b l IH]; [done|]. cbn [le7 foldr].
  pose proof (Z.mod_pos_bound b 128). unfold le7 in IH. lia.
Qed.

Lemma split_first_small i :
  bytes_ok i →
  (∃ l b r, i = l ++ b :: r ∧ Forall (λ c, 128 ≤ c < 256) l ∧ 0 ≤ b < 128) ∨
  Forall (λ c, 128 ≤ c < 256) i.
Proof.
  induction 1 as [|c i Hc Hi IH]; [by right|]. unfold is_byte in Hc.
  destruct (decide (c < 128)); [left; exists [], c, i; by repeat split; try lia|].
  destruct IH as [(l & b & r & -> & Hl & Hb)|Hl].
  - left. exists (c :: l), b, r. repeat split; try done; try lia. constructor; [lia|done].
  - right. constructor; [lia|done].
Qed.

Lemma first_byte c :
  128 ≤ c < 256 → ∃ (s : bool) v, c = 128 + (if s then 64 else 0) + v ∧ 0 ≤ v < 64.
Proof.
  intros Hc. destruct (decide (192 ≤ c)); [exists true, (c - 192)|exists false, (c - 128)]; lia.
Qed.

(** ** Bits of byte strings *)

Lemma length_byte_bits b : length (byte_bits b) = 8%nat.
Proof. done. Qed.

Lemma byte_bits_val b : is_byte b → bits_val (byte_bits b) = b.
Proof. apply Concrete.byte_of_bits. Qed.

Lemma len_concat_bits bs : len (concat (map byte_bits bs)) = 8 * len bs.
Proof.
  induction bs as [|b bs IH]; [done|]. cbn [map concat]. rewrite len_app, IH, len_cons.
  change (len (byte_bits b)) with 8. lia.
Qed.

Lemma concat_bits_val bs : bytes_ok bs → bits_val (concat (map byte_bits bs)) = be_val bs.
Proof.
  induction 1 as [|b bs Hb Hbs IH]; [done|]. cbn [map concat].
  rewrite bits_val_app, IH, be_val_cons, byte_bits_val, len_concat_bits by done.
  rewrite Z.pow_mul_r by (pose proof (len_nonneg bs); lia). done.
Qed.

(** Bits in a multiple of eight are the bits of some bytes. *)
Lemma bits_of_bytes n l :
  length l = (8 * n)%nat →
  ∃ bs, bytes_ok bs ∧ l = concat (map byte_bits bs).
Proof.
  intros Hl. exists (be_bytes n (bits_val l)). split; [apply be_bytes_ok|].
  apply bits_val_inj.
  - pose proof (len_concat_bits (be_bytes n (bits_val l))) as E.
    rewrite len_be_bytes in E. unfold len in E. lia.
  - rewrite concat_bits_val, be_val_be_bytes by apply be_bytes_ok. symmetry.
    apply Z.mod_small. pose proof (bits_val_bound l) as Hb. unfold len in Hb.
    rewrite Hl in Hb. replace (Z.of_nat (8 * n)) with (8 * Z.of_nat n) in Hb by lia.
    rewrite Z.pow_mul_r in Hb by lia. exact Hb.
Qed.

(** ** The writer *)

Lemma or_64 m : 0 ≤ m < 64 → Z.lor m 64 = m + 64.
Proof.
  intros Hm. rewrite <- Z.lxor_lor, <- Z.add_nocarry_lxor; [done| |];
    apply Z.bits_inj'; intros i Hi; rewrite Z.land_spec, Z.bits_0, (Z.pow2_bits_eqb 6) by lia;
    destruct (Z.eqb_spec 6 i) as [<-|]; rewrite ?andb_false_r, ?andb_true_r; try done;
    by apply testbit_small.
Qed.

Lemma set_popped_spec from count n l k :
  length k = count → 0 ≤ from → from + len k ≤ 8 → uint_range 8 n →
  (∀ j, from ≤ j < from + len k → Z.testbit n j = false) →
  set_popped from count n (l ++ k) = Ok (n + bits_val k * 2 ^ from, l).
Proof.
  revert from n k. induction count as [|count IH]; intros from n k Hk Hf H8 Hn Hz.
  - destruct k; [|done]. cbn. by rewrite app_nil_r, Z.add_0_r.
  - destruct k as [|b k _] using rev_ind; [done|].
    rewrite len_app in H8, Hz. change (len [b]) with 1 in *. pose proof (len_nonneg k).
    rewrite length_app in Hk. cbn [set_popped].
    unfold bitvec_pop. rewrite app_assoc, rev_app_distr. cbn. rewrite rev_involutive.
    destruct (bits_set_spec 8 n from b) as (r & E & Hr & T); [lia|done|].
    assert (r = n + Z.b2z b * 2 ^ from) as Er.
    { rewrite bits_set_add in E by (try done; try lia; apply Hz; lia). by injection E as <-. }
    rewrite E. cbn. rewrite IH; [| simpl in Hk; lia | lia | lia | done |].
    + rewrite Er, bits_val_snoc, Z.pow_add_r by lia. do 2 f_equal. lia.
    + intros j Hj. rewrite T, decide_False by lia. apply Hz; lia.
Qed.

Section Writer.
Context `{BufMutLaws, HexLaws, BitVecLaws, BigIntLaws}.

Lemma split_last {A} (l : list A) n :
  (n ≤ length l)%nat → ∃ l' k, l = l' ++ k ∧ length k = n.
Proof.
  intros Hn. exists (take (length l - n) l), (drop (length l - n) l).
  rewrite take_drop, length_drop. split; [done|lia].
Qed.

Lemma put_chunks_eq data rest bits :
  7 * Z.of_nat rest < len bits ≤ 7 * Z.of_nat rest + 7 →
  put_chunks data rest bits = Ok (data ++ seven_bits rest (bits_val bits)).
Proof.
  revert data bits. induction rest as [|rest IH]; intros data bits Hl.
  - assert (Z.min 7 (len bits) = len bits) as E by lia.
    cbn [put_chunks seven_bits]. rewrite E, len_nat.
    rewrite (set_popped_spec 0 _ 0 [] bits); try done; try lia.
    + pose proof (bits_val_bound bits) as Hb.
      assert (2 ^ len bits ≤ 2 ^ 7) by (apply Z.pow_le_mono_r; lia).
      rewrite put_u8_eq. cbn [be_bytes]. rewrite Z.add_0_l, Z.mul_1_r, Z.div_1_r.
      rewrite Z.mod_small by lia. done.
    + intros j _. apply Z.bits_0.
  - destruct (split_last bits 7) as (l & k & -> & Hk); [unfold len in Hl; lia|].
    rewrite len_app in Hl. assert (len k = 7) as Hk' by (unfold len; lia).
    cbn [put_chunks]. replace (Z.to_nat (Z.min 7 (len (l ++ k)))) with 7%nat
      by (rewrite len_app; lia).
    rewrite (set_popped_spec 0 7 0 l k); try done; try lia;
      [|intros j _; apply Z.bits_0].
    pose proof (bits_val_bound k) as Hb. rewrite Hk' in Hb. change (2 ^ 7) with 128 in Hb.
    rewrite Z.add_0_l, Z.mul_1_r.
    rewrite bits_set_add; [| lia | unfold uint_range; lia | apply testbit_small; lia].
    cbn [map_err]. rewrite IH by lia. rewrite put_u8_eq. cbn [seven_bits be_bytes].
    rewrite bits_val_app, Hk'. change (2 ^ 7) with 128. change (Z.b2z true) with 1.
    rewrite (Z.add_comm (_ * 128)), Z.mod_add, Z.div_add, (Z.mod_small (bits_val k)),
      (Z.div_small (bits_val k)) by lia.
    rewrite Z.div_1_r, Z.mod_small by lia.
    rewrite <- app_assoc. cbn [app]. do 3 f_equal. lia.
Qed.

Lemma digits_val_cons d ds : digits_val (d :: ds) = d * 16 ^ len ds + digits_val ds.
Proof.
  unfold digits_val. cbn [fold_left]. rewrite Z.add_0_l. generalize d as a. clear d.
  induction ds as [|d ds IH] using rev_ind; intros a; [rewrite len_nil; simpl; lia|].
  rewrite (fold_left_app _ ds [d] a), (fold_left_app _ ds [d] 0), (IH a). simpl.
  rewrite len_app, Z.pow_add_r by (try apply len_nonneg; lia). change (len [d]) with 1. lia.
Qed.

Lemma digits_val_nonneg ds : Forall hex_digit ds → 0 ≤ digits_val ds.
Proof.
  induction 1 as [|d ds Hd Hds IH]; [done|]. rewrite digits_val_cons. unfold hex_digit in Hd.
  assert (0 < 16 ^ len ds) by (apply Z.pow_pos_nonneg; [lia|apply len_nonneg]). nia.
Qed.

(** An even number of hexadecimal digits decodes to bytes of the same value. *)
Lemma hex_decode_digits n ds :
  length ds = (2 * n)%nat → Forall hex_digit ds →
  ∃ bs, hex_decode (map hex_char ds) = Some bs ∧ bytes_ok bs ∧ length bs = n ∧
        be_val bs = digits_val ds.
Proof.
  revert ds. induction n as [|n IH]; intros ds Hl Hd.
  - destruct ds; [|done]. exists []. by rewrite hex_decode_nil.
  - destruct ds as [|h [|l ds]]; [done|simpl in Hl; lia|].
    apply Forall_cons in Hd as [Hh Hd]. apply Forall_cons in Hd as [Hl' Hd].
    destruct (IH ds) as (bs & E & Hb & Hn & V); [simpl in Hl; lia|done|].
    unfold hex_digit in Hh, Hl'. exists (h * 16 + l :: bs). cbn [map].
    rewrite hex_decode_cons, E by done. split; [done|]. split; [|split].
    + constructor; [unfold is_byte; lia|done].
    + simpl. lia.
    + rewrite be_val_cons, V, !digits_val_cons, len_cons, Z.pow_add_r
        by (try apply len_nonneg; lia).
      assert (256 ^ len bs = 16 ^ len ds) as ->; [|lia].
      change 256 with (16 ^ 2). rewrite <- Z.pow_mul_r by (try apply len_nonneg; lia).
      f_equal. unfold len. simpl in Hl. lia.
Qed.

Lemma hex_char_alnum d : hex_digit d → is_ascii_alphanumeric (hex_char d) = true.
Proof.
  intros Hd. unfold hex_digit in Hd. unfold is_ascii_alphanumeric, hex_char.
  destruct (decide (d < 10)).
  - by rewrite bool_decide_true by lia.
  - rewrite (bool_decide_true (97 ≤ _ ≤ _)) by lia. apply orb_true_r.
Qed.

Lemma hex_char_ascii d : hex_digit d → hex_char d < 128.
Proof. intros Hd. unfold hex_digit, hex_char in *. destruct (decide (d < 10)); lia. Qed.

(** The sign and the digits found in the text of an integer. *)
Lemma z_sign_text z d ds :
  to_str_radix16 z = (if decide (z < 0) then [45] else []) ++ map hex_char (d :: ds) →
  Forall hex_digit (d :: ds) →
  z_sign (to_str_radix16 z) = Ok (if decide (z < 0) then 1%nat else 0%nat, bool_decide (z < 0)) ∧
  drop (if decide (z < 0) then 1%nat else 0%nat) (to_str_radix16 z) = map hex_char (d :: ds).
Proof.
  intros -> Hd. apply Forall_cons in Hd as [Hd _]. case_decide as Hz.
  - by rewrite bool_decide_true.
  - rewrite bool_decide_false by done. cbn [app map z_sign].
    pose proof (hex_char_ascii d Hd). rewrite decide_False by lia. by rewrite hex_char_alnum.
Qed.

(** The bytes of the hexadecimal text. *)
Lemma hex_text_bytes z d ds :
  Forall hex_digit (d :: ds) → digits_val (d :: ds) = Z.abs z → (d = 0 → ds = []) →
  let text := map hex_char (d :: ds) in
  ∃ bs, hex_decode (if decide (len text mod 2 = 1) then 48 :: text else text) = Some bs ∧
    bytes_ok bs ∧ be_val bs = Z.abs z ∧ (1 ≤ length bs)%nat ∧
    (len bs = 1 ∨ 64 ≤ Z.abs z).
Proof.
  intros Hd V Hz. cbn zeta. rewrite len_map.
  assert (∃ n ds', (if decide (len (d :: ds) mod 2 = 1) then 48 :: map hex_char (d :: ds)
           else map hex_char (d :: ds)) = map hex_char ds' ∧ length ds' = (2 * S n)%nat ∧
           Forall hex_digit ds' ∧ digits_val ds' = digits_val (d :: ds) ∧
           (n ≠ 0%nat → 2 ≤ len ds)) as (n & ds' & E & L & F & V' & Hn).
  { pose proof (Z.div_mod (len (d :: ds)) 2 ltac:(lia)) as Hm.
    pose proof (Z.mod_pos_bound (len (d :: ds)) 2 ltac:(lia)).
    rewrite len_cons in *. unfold len in *.
    case_decide as Hodd.
    - exists (Z.to_nat ((1 + Z.of_nat (length ds)) / 2)), (0 :: d :: ds). repeat split.
      + simpl. lia.
      + constructor; [|done]. done.
      + lia.
    - exists (Z.to_nat ((1 + Z.of_nat (length ds)) / 2 - 1)), (d :: ds). repeat split; try done.
      + simpl. lia.
      + lia. }
  destruct (hex_decode_digits (S n) ds' L F) as (bs & Eb & Hb & Lb & Vb).
  rewrite E. exists bs. rewrite Vb, V', V. repeat split; try done; [lia|].
  destruct (decide (n = 0%nat)) as [->|Hn0]; [left; unfold len; lia|right].
  specialize (Hn Hn0). rewrite <- V, digits_val_cons.
  apply Forall_cons in Hd as [Hd Hds]. pose proof (digits_val_nonneg ds Hds).
  assert (16 ^ 2 ≤ 16 ^ len ds) by (apply Z.pow_le_mono_r; lia).
  assert (d ≠ 0) by (intros ->; rewrite Hz in Hn by done; by cbn in Hn).
  unfold hex_digit in Hd. nia.
Qed.

Lemma log2_bits k : Z.log2 (bits_val (true :: k)) = len k.
Proof.
  rewrite bits_val_cons. pose proof (bits_val_bound k). pose proof (len_nonneg k).
  apply Z.log2_unique; [done|]. rewrite Z.pow_succ_r by done. change (Z.b2z true) with 1. lia.
Qed.

(** The long form: the bits without leading zeros, six and then seven at a
    time from the right. *)
Lemma long_form data bits (base : Z) m :
  base = 128 ∨ base = 192 → 64 ≤ m → bits_val (trim_left bits) = m →
  ∃ l, set_popped 0 6 base (trim_left bits) = Ok (base + m mod 64, l) ∧
    len l - 1 = Z.log2 (m / 64) ∧ 1 ≤ len l ∧
    put_chunks data (Z.to_nat ((len l - 1) / 7)) l = Ok (data ++ natural_bytes (m / 64)).
Proof.
  intros Hbase Hm V. destruct (trim_left_spec bits) as (_ & _ & [E|(k & E)]).
  { rewrite E in V. by cbn in V; lia. }
  rewrite E in *. pose proof (bits_val_bound (true :: k)) as Hb. rewrite V in Hb.
  assert (6 ≤ len k) as Hk.
  { destruct (decide (6 ≤ len k)); [done|]. rewrite len_cons in Hb.
    assert (2 ^ (1 + len k) ≤ 2 ^ 6) by (apply Z.pow_le_mono_r; lia). lia. }
  destruct (split_last k 6) as (l & t & -> & Ht); [unfold len in Hk; lia|].
  assert (len t = 6) as Ht' by (unfold len; lia).
  pose proof (bits_val_bound t) as Hbt. rewrite Ht' in Hbt. change (2 ^ 6) with 64 in Hbt.
  assert (bits_val (true :: l) = m / 64 ∧ bits_val t = m mod 64) as [Vl Vt].
  { change (true :: l ++ t) with ((true :: l) ++ t) in V. rewrite bits_val_app, Ht' in V. change (2 ^ 6) with 64 in V.
    rewrite <- V. split.
    - rewrite Z.div_add_l, Z.div_small by lia. lia.
    - rewrite Z.add_comm, Z.mod_add, Z.mod_small by lia. done. }
  exists (true :: l). change (true :: l ++ t) with ((true :: l) ++ t).
  rewrite (set_popped_spec 0 6 base (true :: l) t); try done; try lia.
  - rewrite Vt, Z.mul_1_r. split; [done|]. rewrite <- Vl, log2_bits, len_cons.
    pose proof (len_nonneg l). split; [lia|]. split; [lia|].
    replace (1 + len l - 1) with (len l) by lia.
    unfold natural_bytes. rewrite log2_bits. apply put_chunks_eq.
    pose proof (Z.div_mod (len l) 7 ltac:(lia)). pose proof (Z.mod_pos_bound (len l) 7 ltac:(lia)).
    rewrite len_cons, Z2Nat.id by (apply Z.div_pos; lia). lia.
  - unfold uint_range; lia.
  - intros j Hj. rewrite Ht' in Hj.
    assert (j = 0 ∨ j = 1 ∨ j = 2 ∨ j = 3 ∨ j = 4 ∨ j = 5) as Hj' by lia.
    destruct Hbase as [-> | ->]; by repeat destruct Hj' as [->|Hj']; subst.
Qed.

Lemma encode_z_text data z :
  encode_z data (to_str_radix16 z) = Ok (data ++ zarith_bytes z, len (zarith_bytes z)).
Proof.
  destruct (to_str_radix16_eq z) as (d & ds & E & F & V & Z0).
  destruct (z_sign_text z d ds E F) as [Es Ed].
  destruct (hex_text_bytes z d ds F V Z0) as (bs & Eh & Hbs & Vb & Hl & Hlong).
  unfold encode_z. rewrite Es, Ed. cbn zeta in Eh. rewrite Eh. cbn [ok_or].
  unfold zarith_bytes. set (sign := if decide (z < 0) then 64 else 0).
  assert (Hsign : sign = if bool_decide (z < 0) then 64 else 0)
    by (unfold sign; by destruct (decide (z < 0)), (bool_decide_reflect (z < 0))).
  clearbody sign.
  destruct (decide (Z.abs z < 64)) as [Hs|Hs].
  - destruct Hlong as [Hone|]; [|lia]. destruct bs as [|b [|? ?]]; [done| |unfold len in Hone; simpl in Hone; lia].
    cbn in Vb.
    rewrite decide_True by (cbn; lia). cbn [list_lookup lookup default]. rewrite put_u8_eq.
    assert (Hb : b = Z.abs z) by lia. subst b.
    assert (Es' : (if bool_decide (z < 0) then Z.lor (Z.abs z) 64 else Z.abs z) = sign + Z.abs z).
    { rewrite Hsign. case_bool_decide; [|done]. rewrite Z.add_comm. apply or_64. lia. }
    cbn [id]. rewrite Es'. cbn [be_bytes]. rewrite Z.div_1_r, Z.mod_small; [done|].
    rewrite Hsign. case_bool_decide; lia.
  - rewrite decide_False.
    2:{ intros [Hone Hle]. destruct bs as [|b [|? ?]]; [done| |unfold len in Hone; simpl in Hone; lia].
        cbn in Vb, Hle. lia. }
    rewrite bitvec_from_bytes_eq by done.
    set (base := if bool_decide (z < 0) then 192 else 128).
    assert (Eb : base = 128 + sign) by (unfold base; rewrite Hsign; by case_bool_decide).
    destruct (long_form (data ++ [base + Z.abs z mod 64]) (concat (map byte_bits bs)) base (Z.abs z))
      as (l & E1 & E2 & E3 & E4).
    { unfold base; case_bool_decide; auto. }
    { lia. }
    { by rewrite trim_left_val, concat_bits_val. }
    rewrite E1. unfold checked_sub at 1. rewrite decide_True by lia. cbn [ok_or].
    rewrite put_u8_eq. cbn [be_bytes].
    rewrite Z.div_1_r, Z.mod_small
      by (pose proof (Z.mod_pos_bound (Z.abs z) 64); rewrite Eb, Hsign; case_bool_decide; lia).
    rewrite E4, <- app_assoc, checked_sub_len. cbn [ok_or app]. by rewrite Eb.
Qed.

End Writer.

(** ** The readers *)

Section Reader.
Context `{NomLaws, BitVecLaws, BigIntLaws}.

(** The bits of [byte] from [from] on, least significant first. *)
Lemma push_bits_spec byte from count bits :
  0 ≤ byte → 0 ≤ from → from + Z.of_nat count ≤ 8 →
  ∃ k, NomReader.push_bits byte from count bits = Ok (bits ++ k) ∧ length k = count ∧
       bits_val (rev k) = (byte / 2 ^ from) mod 2 ^ Z.of_nat count.
Proof.
  revert from bits. induction count as [|count IH]; intros from bits Hb Hf H8.
  - exists []. rewrite app_nil_r. split; [done|]. split; [done|]. symmetry. apply Z.mod_1_r.
  - cbn [NomReader.push_bits]. rewrite bits_get_spec by lia.
    destruct (IH (from + 1) (bits ++ [Z.testbit byte from])) as (k & E & Hk & V); [lia..|].
    exists (Z.testbit byte from :: k). rewrite E, <- app_assoc. split; [done|].
    split; [simpl; lia|]. cbn [rev]. rewrite bits_val_snoc, V.
    rewrite Z.pow_add_r, <- Z.div_div by lia. change (2 ^ 1) with 2.
    rewrite Nat2Z.inj_succ, Z.pow_succ_r by lia. rewrite Z.rem_mul_r by lia.
    rewrite Z.testbit_spec' by lia. lia.
Qed.

Lemma u8_cons b i : nom_u8 (b :: i) = Ok (i, b).
Proof. destruct nom_u8_spec as [E _]. by apply (E [b]). Qed.

(** One round of the loop: seven bits and the continuation bit. *)
Lemma read_chunks_step fuel bits b i :
  is_byte b →
  ∃ k, length k = 7%nat ∧ bits_val (rev k) = b mod 128 ∧
    NomReader.read_chunks (S fuel) bits (b :: i) =
      if decide (128 ≤ b) then NomReader.read_chunks fuel (bits ++ k) i else Ok (i, bits ++ k).
Proof.
  intros Hb. unfold is_byte in Hb.
  destruct (push_bits_spec b 0 7 bits) as (k & E & Hk & V); [lia..|].
  exists k. split; [done|]. rewrite Z.div_1_r in V. split; [done|].
  cbn [NomReader.read_chunks]. rewrite u8_cons, E. cbn [map_err].
  rewrite bits_get_spec by lia. cbn [map_err].
  assert (Z.testbit b 7 = bool_decide (128 ≤ b)) as ->; [|by case_bool_decide; case_decide].
  apply Z.b2z_inj. rewrite Z.testbit_spec' by lia. change (2 ^ 7) with 128.
  case_bool_decide; simpl.
  - by rewrite <- (Z.div_unique b 128 1 (b - 128)) by lia.
  - by rewrite Z.div_small by lia.
Qed.

(** Bytes with the continuation bit up to one without it: their value. *)
Lemma read_chunks_done fuel bits l b r :
  (length l < fuel)%nat → Forall (λ c, 128 ≤ c < 256) l → 0 ≤ b < 128 →
  ∃ k, NomReader.read_chunks fuel bits (l ++ b :: r) = Ok (r, bits ++ k) ∧
       bits_val (rev k) = le7 (l ++ [b]).
Proof.
  revert fuel bits. induction l as [|c l IH]; intros [|fuel] bits Hf Hl Hb; cbn in Hf; try lia.
  - destruct (read_chunks_step fuel bits b r) as (k & _ & V & E); [unfold is_byte; lia|].
    exists k. cbn [app]. rewrite E, decide_False by lia. split; [done|]. rewrite V. cbn. lia.
  - apply Forall_cons in Hl as [Hc Hl].
    destruct (read_chunks_step fuel bits c (l ++ b :: r)) as (k & Hk & V & E);
      [unfold is_byte; lia|].
    destruct (IH fuel (bits ++ k)) as (k' & E' & V'); [lia|done|done|].
    exists (k ++ k'). cbn [app]. rewrite E, decide_True, E', app_assoc by lia.
    split; [done|]. rewrite rev_app_distr, bits_val_app, V, V', len_rev.
    unfold len. rewrite Hk. change (2 ^ Z.of_nat 7) with 128.
    change (le7 (c :: l ++ [b])) with (c mod 128 + 128 * le7 (l ++ [b])). lia.
Qed.

(** Without a byte that ends the number, the end of the input is an error. *)
Lemma read_chunks_eof fuel bits l :
  (length l < fuel)%nat → Forall (λ c, 128 ≤ c < 256) l →
  NomReader.read_chunks fuel bits l = Err (NError (from_error_kind [] ErrorKind.Eof)).
Proof.
  revert fuel bits. induction l as [|c l IH]; intros [|fuel] bits Hf Hl; cbn in Hf; try lia.
  - cbn [NomReader.read_chunks]. destruct nom_u8_spec as [_ ->]; [done|cbn; lia].
  - apply Forall_cons in Hl as [Hc Hl].
    destruct (read_chunks_step fuel bits c l) as (k & _ & _ & ->); [unfold is_byte; lia|].
    rewrite decide_True by lia. apply IH; [lia|done].
Qed.

Lemma rev_replicate {A} n (x : A) : rev (replicate n x) = replicate n x.
Proof. induction n as [|n IH]; [done|]. cbn. by rewrite IH, <- replicate_cons_app. Qed.

Lemma pad_bits_spec bits :
  ∃ n, rev (NomReader.pad_bits bits) = replicate n false ++ rev bits ∧
       len (NomReader.pad_bits bits) mod 8 = 0.
Proof.
  unfold NomReader.pad_bits. case_decide as Hp; [by exists 0%nat|].
  pose proof (Z.mod_pos_bound (len bits) 8 ltac:(lia)).
  exists (Z.to_nat (8 - len bits mod 8)). rewrite rev_app_distr. split.
  - f_equal. apply rev_replicate.
  - rewrite len_app. unfold len at 2. rewrite length_replicate, Z2Nat.id by lia.
    rewrite (Z.div_mod (len bits) 8) at 1 by lia.
    replace (8 * (len bits / 8) + len bits mod 8 + (8 - len bits mod 8))
      with ((len bits / 8 + 1) * 8) by lia.
    apply Z.mod_mul. lia.
Qed.

Lemma bits_to_bigint_val (sign : Sign) bits :
  sign ≠ NoSign →
  NomReader.bits_to_bigint sign bits =
    match sign with Minus => - bits_val (rev bits) | _ => bits_val (rev bits) end.
Proof.
  intros Hs. unfold NomReader.bits_to_bigint. rewrite bit_reverse_rev.
  destruct (pad_bits_spec bits) as (n & E & H8). rewrite E.
  destruct (bits_of_bytes (Z.to_nat (len (NomReader.pad_bits bits) / 8))
              (replicate n false ++ rev bits)) as (bs & Hb & Ebs).
  { rewrite <- E, length_rev. pose proof (Z.div_mod (len (NomReader.pad_bits bits)) 8 ltac:(lia)).
    unfold len in *. lia. }
  rewrite Ebs, bitvec_to_bytes_eq by done.
  rewrite <- (bits_val_replicate_false n (rev bits)), Ebs, concat_bits_val by done.
  destruct sign; [by apply from_bytes_be_minus|done|by apply from_bytes_be_plus].
Qed.

(** [mutez] on every input: a number ended by a byte below 128, or an error. *)
Lemma mutez_done l b r :
  Forall (λ c, 128 ≤ c < 256) l → 0 ≤ b < 128 →
  NomReader.mutez (l ++ b :: r) = Ok (r, le7 (l ++ [b])).
Proof.
  intros Hl Hb. unfold NomReader.mutez.
  destruct (read_chunks_done (S (length (l ++ b :: r))) [] l b r) as (k & E & V); try done.
  { rewrite length_app. lia. }
  rewrite E. cbn [app]. by rewrite bits_to_bigint_val, V.
Qed.

Lemma take_7 b : is_byte b → Bits.take 8 b 7 = Ok (bool_decide (128 ≤ b), b mod 128).
Proof. revert b. refine (byte_check (λ b, Bits.take 8 b 7 = _) _). by vm_compute. Qed.

Lemma take_6 b : is_byte b → Bits.take 8 (b mod 128) 6 = Ok (bool_decide (64 ≤ b mod 128), b mod 64).
Proof.
  revert b. refine (byte_check (λ b, Bits.take 8 (b mod 128) 6 = Ok (_, b mod 64)) _).
  by vm_compute.
Qed.

(** [zarith] on a single byte. *)
Lemma zarith_one b r :
  0 ≤ b < 128 →
  NomReader.zarith (b :: r) = Ok (r, if decide (64 ≤ b) then - (b - 64) else b).
Proof.
  intros Hb. unfold NomReader.zarith. rewrite u8_cons.
  rewrite take_7 by (unfold is_byte; lia). cbn [map_err].
  rewrite take_6 by (unfold is_byte; lia). cbn [map_err].
  rewrite (bool_decide_false (128 ≤ b)), (Z.mod_small b 128) by lia. cbn [negb].
  assert (b mod 64 = if decide (64 ≤ b) then b - 64 else b) as ->.
  { case_decide; [|apply Z.mod_small; lia]. symmetry. apply (Z.mod_unique _ _ 1); lia. }
  unfold to_signed. destruct (decide (64 ≤ b));
    [rewrite bool_decide_true by done|rewrite bool_decide_false by done];
    by rewrite decide_True by (simpl; lia).
Qed.

(** [zarith] on a longer number: six bits, a sign, and seven bits per byte. *)
Lemma zarith_more (s : bool) v l b r :
  0 ≤ v < 64 → Forall (λ c, 128 ≤ c < 256) l → 0 ≤ b < 128 →
  NomReader.zarith (128 + (if s then 64 else 0) + v :: l ++ b :: r) =
    Ok (r, (if s then -1 else 1) * (v + 64 * le7 (l ++ [b]))).
Proof.
  intros Hv Hl Hb. set (c := 128 + (if s then 64 else 0) + v).
  assert (is_byte c) as Hc by (unfold c, is_byte; destruct s; lia).
  assert (c mod 64 = v) as Hm.
  { symmetry. apply (Z.mod_unique _ _ (if s then 3 else 2)); unfold c; destruct s; lia. }
  assert (c mod 128 = (if s then 64 else 0) + v) as Hm'.
  { symmetry. apply (Z.mod_unique _ _ 1); unfold c; destruct s; lia. }
  unfold NomReader.zarith. rewrite u8_cons, take_7 by done. cbn [map_err].
  rewrite take_6 by done. cbn [map_err]. rewrite Hm', Hm.
  rewrite bool_decide_true by (unfold c; destruct s; lia). cbn [negb].
  destruct (push_bits_spec v 0 6 []) as (k & E & Hk & V); [lia..|].
  rewrite E. cbn [map_err app].
  destruct (read_chunks_done (S (length (l ++ b :: r))) k l b r) as (k' & E' & V'); try done.
  { rewrite length_app. lia. }
  rewrite E', bits_to_bigint_val by (by case_bool_decide).
  rewrite rev_app_distr, bits_val_app, V, V', len_rev. unfold len. rewrite Hk.
  change (2 ^ 0) with 1. rewrite Z.div_1_r, Z.mod_small by (simpl; lia).
  change (2 ^ Z.of_nat 6) with 64.
  destruct s; [rewrite bool_decide_true by lia|rewrite bool_decide_false by lia];
    do 2 f_equal; lia.
Qed.

Lemma zarith_eof l :
  Forall (λ c, 128 ≤ c < 256) l →
  NomReader.zarith l = Err (NError (from_error_kind [] ErrorKind.Eof)) ∧
  NomReader.mutez l = Err (NError (from_error_kind [] ErrorKind.Eof)).
Proof.
  intros Hl. split; [|unfold NomReader.mutez; rewrite read_chunks_eof; [done|lia|done]].
  unfold NomReader.zarith. destruct Hl as [|c l Hc Hl].
  - destruct nom_u8_spec as [_ ->]; [done|cbn; lia].
  - rewrite u8_cons, take_7 by (unfold is_byte; lia). cbn [map_err].
    rewrite take_6 by (unfold is_byte; lia). cbn [map_err].
    rewrite bool_decide_true by lia. cbn [negb].
    pose proof (Z.mod_pos_bound c 64 ltac:(lia)).
    destruct (push_bits_spec (c mod 64) 0 6 []) as (k & -> & _ & _); [lia..|].
    cbn [map_err]. rewrite read_chunks_eof; [done|lia|done].
Qed.

End Reader.

(** ** Writer against reader *)

Section RoundTrip.
Context `{BufMutLaws, HexLaws, BitVecLaws, BigIntLaws, NomLaws}.

Lemma zarith_read_form z i : NomReader.zarith (zarith_bytes z ++ i) = Ok (i, z).
Proof.
  unfold zarith_bytes. destruct (decide (Z.abs z < 64)) as [Hs|Hs].
  - cbn [app]. destruct (decide (z < 0)).
    + rewrite zarith_one, decide_True by lia. do 2 f_equal; lia.
    + rewrite zarith_one, decide_False by lia. do 2 f_equal; lia.
  - destruct (natural_bytes_split (Z.abs z / 64)) as (l & b & E & Hl & Hb & V);
      [apply Z.div_pos; lia|].
    pose proof (Z.mod_pos_bound (Z.abs z) 64 ltac:(lia)).
    pose proof (Z.div_mod (Z.abs z) 64 ltac:(lia)).
    rewrite E. cbn [app]. rewrite <- app_assoc. cbn [app].
    destruct (decide (z < 0)).
    + rewrite (zarith_more true), V by done. do 2 f_equal. lia.
    + rewrite (zarith_more false), V by done. do 2 f_equal. lia.
Qed.

(** An arbitrary precision integer of any sign and size that the writer
    encodes under [Encoding::Z] is read back by [zarith], which stops exactly
    at the end of the encoding. *)
Theorem zarith_roundtrip data z i :
  ∃ bs, encode_value data (Value.String (to_str_radix16 z)) Encoding.Z
          = Ok (data ++ bs, len bs) ∧
        NomReader.zarith (bs ++ i) = Ok (i, z).
Proof.
  exists (zarith_bytes z). split; [|apply zarith_read_form].
  cbn [encode_value]. by rewrite encode_z_text.
Qed.

(** The reader [mutez] does not invert the writer.  [Encoding::Mutez] is
    written by [encode_z], whose first byte holds a sign bit and six bits of
    the number, while [mutez] reads seven bits of every byte: an amount below
    64 is read back, and any amount [n] from 64 on is read as
    [n mod 64 + 128 * (n / 64)], which is another number. *)
Theorem mutez_mismatch data n i :
  0 ≤ n →
  ∃ bs m, encode_value data (Value.String (to_str_radix16 n)) Encoding.Mutez
            = Ok (data ++ bs, len bs) ∧
          NomReader.mutez (bs ++ i) = Ok (i, m) ∧
          m = n mod 64 + 128 * (n / 64) ∧ (m = n ↔ n < 64).
Proof.
  intros Hn. exists (zarith_bytes n), (n mod 64 + 128 * (n / 64)).
  cbn [encode_value]. rewrite encode_z_text. split; [done|].
  pose proof (Z.mod_pos_bound n 64 ltac:(lia)). pose proof (Z.div_mod n 64 ltac:(lia)) as Hdm.
  unfold zarith_bytes. rewrite (Z.abs_eq n) by lia. destruct (decide (n < 0)); [lia|].
  case_decide as Hs.
  - rewrite Z.div_small, Z.mod_small by lia. cbn [app].
    rewrite (mutez_done [] n i) by (try done; lia). cbn. rewrite Z.mod_small by lia.
    split; [do 2 f_equal; lia|lia].
  - destruct (natural_bytes_split (n / 64)) as (l & b & E & Hl & Hb & V); [lia|].
    rewrite E. cbn [app]. rewrite <- app_assoc. cbn [app].
    rewrite (mutez_done (128 + 0 + n mod 64 :: l) b i);
      [|constructor; [lia|done]|done].
    change (le7 ((128 + 0 + n mod 64 :: l) ++ [b]))
      with ((128 + 0 + n mod 64) mod 128 + 128 * le7 (l ++ [b])).
    rewrite V, <- (Z.mod_unique (128 + 0 + n mod 64) 128 1 (n mod 64)) by lia.
    split; [done|lia].
Qed.

(** The two readers of arbitrary precision integers are total: they stop
    at the first byte without a continuation bit, whatever the number of bytes,
    and if there is none they fail with the end of the input. *)
Theorem zarith_mutez_total i :
  bytes_ok i →
  (∃ z m r, NomReader.zarith i = Ok (r, z) ∧ NomReader.mutez i = Ok (r, m) ∧ 0 ≤ m ∧
     ∃ l b, i = l ++ b :: r ∧ Forall (λ c, 128 ≤ c) l ∧ b < 128) ∨
  (Forall (λ c, 128 ≤ c) i ∧
   NomReader.zarith i = Err (NError (from_error_kind [] ErrorKind.Eof)) ∧
   NomReader.mutez i = Err (NError (from_error_kind [] ErrorKind.Eof))).
Proof.
  intros Hi. destruct (split_first_small i Hi) as [(l & b & r & -> & Hl & Hb)|Hl].
  - left. assert (Forall (λ c, 128 ≤ c) l) by (eapply Forall_impl; [done|]; by intros ? []).
    destruct l as [|c l]; cbn [app].
    + exists (if decide (64 ≤ b) then - (b - 64) else b), (le7 [b]), r.
      rewrite zarith_one by done. rewrite (mutez_done [] b r) by done.
      split; [done|]. split; [done|]. split; [apply le7_nonneg|]. exists [], b. by repeat split; try lia.
    + apply Forall_cons in Hl as [Hc Hl].
      destruct (first_byte c Hc) as (s & v & Ec & Hv).
      exists ((if s then -1 else 1) * (v + 64 * le7 (l ++ [b]))), (le7 ((c :: l) ++ [b])), r.
      split; [rewrite Ec; by apply zarith_more|].
      split; [apply (mutez_done (c :: l)); [by constructor|done]|].
      split; [apply le7_nonneg|]. exists (c :: l), b. by repeat split; try lia.
  - right. split; [eapply Forall_impl; [done|]; by intros ? []|]. by apply zarith_eof.
Qed.

End RoundTrip.

(** ** Witnesses *)

Module Witnesses.
Import Concrete ConcreteNom.

Lemma zarith_roundtrip_witness :
  ∃ bs, encode_value [1] (Value.String (to_str_radix16 (-1000000))) Encoding.Z
          = Ok ([1] ++ bs, len bs) ∧
        NomReader.zarith (bs ++ [7]) = Ok ([7], -1000000).
Proof. exact (zarith_roundtrip [1] (-1000000) [7]). Defined.

Lemma mutez_mismatch_witness :
  ∃ bs m, encode_value [] (Value.String (to_str_radix16 64)) Encoding.Mutez
            = Ok ([] ++ bs, len bs) ∧
          NomReader.mutez (bs ++ []) = Ok ([], m) ∧
          m = 64 mod 64 + 128 * (64 / 64) ∧ (m = 64 ↔ 64 < 64).
Proof. apply (mutez_mismatch [] 64 []). lia. Defined.

Lemma zarith_mutez_total_witness :
  (∃ z m r, NomReader.zarith [192; 128; 5; 9] = Ok (r, z) ∧
     NomReader.mutez [192; 128; 5; 9] = Ok (r, m) ∧ 0 ≤ m ∧
     ∃ l b, [192; 128; 5; 9] = l ++ b :: r ∧ Forall (λ c, 128 ≤ c) l ∧ b < 128) ∨
  (Forall (λ c, 128 ≤ c) [192; 128; 5; 9] ∧
   NomReader.zarith [192; 128; 5; 9] = Err (NError (from_error_kind [] ErrorKind.Eof)) ∧
   NomReader.mutez [192; 128; 5; 9] = Err (NError (from_error_kind [] ErrorKind.Eof))).
Proof.
  apply (zarith_mutez_total [192; 128; 5; 9]).
  repeat constructor; unfold is_byte; lia.
Defined.

End Witnesses.
