(* ===== verification/Derive.v ===== *)
(** * The derive macros: [tezos/encoding-derive/src/{encoding,enc,nom}.rs]

    [#[derive(HasEncoding, NomReader)]] turns a declaration into a small schema
    ([encoding.rs]) and generates from it an [Encoding] value ([enc.rs]) and a
    [nom] reader ([nom.rs]).  The generated code is modelled by what it
    evaluates to: [generate_encoding] is the [Encoding], [generate_nom_read]
    the parser.  A value of a Rust type is represented by its serde data, so
    the reader of a type produces the data that the writer accepts. *)

From S2P Require Import Prelude External BitUtils Hash Encoding Serializer PathCodec BinaryWriter NomLib NomReader.

#[local] Set Warnings "-register-all".

(** ** The schema of a declaration: [encoding.rs] *)

Inductive PrimitiveEncoding :=
| Int8 | Uint8 | Int16 | Uint16 | Int31 | Int32 | Uint32 | Int64 | Float | Bool | Timestamp.

#[global] Instance PrimitiveEncoding_eq_dec : EqDecision PrimitiveEncoding.
Proof. solve_decision. Defined.

(** The integer types that can be the tag of an enum. *)
Inductive TagType := TagU8 | TagU16 | TagU32.

(** [std::mem::size_of] *)
Definition size_of (t : TagType) : Z :=
  match t with TagU8 => 1 | TagU16 => 2 | TagU32 => 4 end.

Record FieldEncoding (E : Type) := mkFieldEncoding {
  field_name : string;
  field_encoding : option E
}.
Arguments mkFieldEncoding {E}.
Arguments field_name {E}.
Arguments field_encoding {E}.

(** [encoding.rs: Encoding]; an expression that gives a size is its value, and
    the spans are left out. *)
Module Derive.
Inductive DEncoding :=
| Unit
| Primitive (p : PrimitiveEncoding)
| Bytes
| Path (path : string)
| Zarith
| MuTez
| String (size : option Z)
| Struct (name : string) (fields : list (FieldEncoding DEncoding))
| Enum (name : string) (tag_type : TagType) (ignore_unknown : bool) (tags : list (Tag DEncoding))
| OptionField (e : DEncoding)
| List (size : option Z) (e : DEncoding)
| Sized (size : Z) (e : DEncoding)
| Bounded (size : Z) (e : DEncoding)
| Dynamic (size : option Z) (e : DEncoding).
End Derive.
Abbreviation DEncoding := Derive.DEncoding.

(** [DataWithEncoding] *)
Record DataWithEncoding := mkDataWithEncoding {
  data_name : string;
  data_encoding : DEncoding
}.

(** ** What a type provides to the types that mention it

    A path in a declaration is resolved by the traits [HasEncoding] and
    [NomReader] of the type it names, and a skipped field by [Default]; the
    default is [None] for a field that serde skips too. *)

Class TypeEnv : Type := {
  path_encoding : string → Encoding;
  path_nom_read : string → Parser Data;
  field_default : string → string → option Data
}.

(** [num_bigint]'s implementation of [Serialize]. *)
Class BigIntSerde : Type := { num_bigint_data : Z → Data }.

Module ConcreteSerde.

(** The sign and the digits in base [2^32], least significant first. *)
#[export] Instance bigint_serde : BigIntSerde := {|
  num_bigint_data z :=
    DTuple [DI8 (Z.sgn z);
            DSeq (map (λ i, DU32 (Z.abs z / 2 ^ (32 * Z.of_nat i) mod 2 ^ 32))
                    (seq 0 (Z.to_nat (Z.log2 (Z.abs z) / 32 + 1))))]
|}.

End ConcreteSerde.

(** ** [enc.rs] *)

Section Enc.
Context `{TypeEnv}.

Definition generage_primitive_encoding (kind : PrimitiveEncoding) : Encoding :=
  match kind with
  | Int8 => Encoding.Int8
  | Uint8 => Encoding.Uint8
  | Int16 => Encoding.Int16
  | Uint16 => Encoding.Uint16
  | Int31 => Encoding.Int31
  | Int32 => Encoding.Int32
  | Uint32 => Encoding.Uint32
  | Int64 => Encoding.Int64
  | Float => Encoding.Float
  | Bool => Encoding.Bool
  | Timestamp => Encoding.Timestamp
  end.

Definition generate_string_encoding (size : option Z) : Encoding :=
  match size with None => Encoding.String | Some size => Encoding.BoundedString size end.

Definition generate_list_encoding (size : option Z) (encoding : Encoding) : Encoding :=
  match size with
  | None => Encoding.List encoding
  | Some size => Encoding.BoundedList size encoding
  end.

Definition generate_dynamic_encoding (size : option Z) (encoding : Encoding) : Encoding :=
  match size with
  | None => Encoding.Dynamic encoding
  | Some size => Encoding.BoundedDynamic size encoding
  end.

Definition generate_field_encoding {E} (gen : E → Encoding) (field : FieldEncoding E)
    : option (Field Encoding) :=
  (λ e, mkField (field_name field) (gen e)) <$> field_encoding field.

Definition generate_struct_encoding {E} (gen : E → Encoding) (name : string)
    (fields : list (FieldEncoding E)) : Encoding :=
  Encoding.Obj name (omap (generate_field_encoding gen) fields).

Definition generate_tag_encoding {E} (gen : E → Encoding) (tag : Tag E) : Tag Encoding :=
  mkTag (get_id tag) (get_variant tag) (gen (tag_encoding tag)).

Definition generate_enum_encoding {E} (gen : E → Encoding) (tag_type : TagType)
    (tags : list (Tag E)) : Encoding :=
  Encoding.Tags (size_of tag_type) (TagMap_new (map (generate_tag_encoding gen) tags)).

Fixpoint generate_encoding (encoding : DEncoding) : Encoding :=
  match encoding with
  | Derive.Unit => Encoding.Unit
  | Derive.Primitive primitive => generage_primitive_encoding primitive
  | Derive.Bytes => Encoding.Bytes
  | Derive.Path path => path_encoding path
  | Derive.String size => generate_string_encoding size
  | Derive.Struct name fields => generate_struct_encoding generate_encoding name fields
  | Derive.Enum _ tag_type _ tags => generate_enum_encoding generate_encoding tag_type tags
  | Derive.OptionField encoding => Encoding.OptionalField (generate_encoding encoding)
  | Derive.List size encoding => generate_list_encoding size (generate_encoding encoding)
  | Derive.Sized size encoding => Encoding.Sized size (generate_encoding encoding)
  | Derive.Bounded size encoding => Encoding.Bounded size (generate_encoding encoding)
  | Derive.Dynamic size encoding => generate_dynamic_encoding size (generate_encoding encoding)
  | Derive.Zarith => Encoding.Z
  | Derive.MuTez => Encoding.Mutez
  end.

End Enc.

(** ** [nom.rs] *)

Definition NOM_TUPLE_MAX : nat := 26.

(** The number parsers of [nom], by the name of the type they read. *)
Inductive NumType := i8 | u8 | i16 | u16 | i32 | u32 | i64 | f64.

Definition PRIMITIVE_BYTES_MAPPING : list (PrimitiveEncoding * NumType) :=
  [(Int8, i8); (Uint8, u8)].

Definition PRIMITIVE_NUMBERS_MAPPING : list (PrimitiveEncoding * NumType) :=
  [(Int16, i16); (Uint16, u16); (Int31, i32); (Int32, i32); (Uint32, u32); (Int64, i64);
   (Float, f64); (Timestamp, i64)].

Definition find_mapping (kind : PrimitiveEncoding) (m : list (PrimitiveEncoding * NumType))
    : option NumType :=
  snd <$> find (λ p, bool_decide (kind = p.1)) m.

Definition get_primitive_byte_mapping (kind : PrimitiveEncoding) : option NumType :=
  find_mapping kind PRIMITIVE_BYTES_MAPPING.

Definition get_primitive_number_mapping (kind : PrimitiveEncoding) : option NumType :=
  find_mapping kind PRIMITIVE_NUMBERS_MAPPING.

(** A Rust value as its serde data. *)
Definition as_data {A B} (f : A → B) (p : Parser A) : Parser B := λ input,
  let? (input, a) := p input in Ok (input, f a).

(** Code that the macro never generates ([unreachable!()] at expansion, a
    missing table entry). *)
Definition not_generated : Parser Data := λ _, Err Incomplete.

Section NomRead.
Context `{TypeEnv, Nom, BitVecLib, BigIntLib, BigIntSerde}.

(** [nom::number::complete::#ty] and [nom::number::complete::#ty(Endianness::Big)] *)
Definition nom_number (ty : NumType) : Parser Data :=
  match ty with
  | i8 => as_data DI8 nom_i8
  | u8 => as_data DU8 nom_u8
  | i16 => as_data DI16 nom_be_i16
  | u16 => as_data DU16 nom_be_u16
  | i32 => as_data DI32 nom_be_i32
  | u32 => as_data DU32 nom_be_u32
  | i64 => as_data DI64 nom_be_i64
  | f64 => as_data DF64 nom_be_f64
  end.

Definition generate_number_nom_read (num : option NumType) : Parser Data :=
  match num with Some ty => nom_number ty | None => not_generated end.

Definition generage_primitive_nom_read (kind : PrimitiveEncoding) : Parser Data :=
  match kind with
  | Int8 | Uint8 => generate_number_nom_read (get_primitive_byte_mapping kind)
  | Int16 | Uint16 | Int31 | Int32 | Uint32 | Int64 | Float | Timestamp =>
      generate_number_nom_read (get_primitive_number_mapping kind)
  | Bool => as_data DBool NomReader.boolean
  end.

(** A [Vec<u8>] is serialized as a sequence of [u8]. *)
Definition generate_bytes_nom_read : Parser Data := as_data (λ bs, DSeq (map DU8 bs)) NomReader.bytes.

Definition generate_string_nom_read (size : option Z) : Parser Data :=
  match size with
  | None => as_data DStr NomReader.string
  | Some size => as_data DStr (NomReader.bounded_string size)
  end.

Definition generate_optional_field_nom_read (nom_read : Parser Data) : Parser Data :=
  as_data (λ o, match o with Some d => DSome d | None => DNone end)
    (NomReader.optional_field nom_read).

Definition generate_list_nom_read (size : option Z) (nom_read : Parser Data) : Parser Data :=
  match size with
  | None => as_data DSeq (NomReader.list nom_read)
  | Some size => as_data DSeq (NomReader.bounded_list size nom_read)
  end.

Definition generate_dynamic_nom_read (size : option Z) (nom_read : Parser Data) : Parser Data :=
  match size with
  | None => NomReader.dynamic nom_read
  | Some size => NomReader.bounded_dynamic size nom_read
  end.

(** *** Structures *)

(** The value of a field, or nothing if serde skips it. *)
Definition generate_struct_field_nom_read {E} (read : E → Parser Data) (name : string)
    (field : FieldEncoding E) : Parser (option (string * Data)) :=
  let fname := field_name field in
  match field_encoding field with
  | Some encoding => as_data (λ d, Some (fname, d)) (read encoding)
  | None => λ input, Ok (input, pair fname <$> field_default name fname)
  end.

Definition qualified (name field : string) : string := (name +:+ "::" +:+ field)%string.

Definition generate_struct_no_fields_nom_read (name : string) : Parser Data :=
  nom_success (DStruct name []).

Definition generate_struct_one_field_nom_read {E} (read : E → Parser Data) (name : string)
    (field : FieldEncoding E) : Parser Data :=
  nom_map (NomReader.field (field_name field) (generate_struct_field_nom_read read name field))
    (λ v, DStruct name (option_list v)).

Definition generate_struct_many_fields_nom_read {E} (read : E → Parser Data) (name : string)
    (fields : list (FieldEncoding E)) : Parser Data :=
  nom_map
    (nom_tuple
       (map (λ field, NomReader.field (qualified name (field_name field))
                        (generate_struct_field_nom_read read name field)) fields))
    (λ vs, DStruct name (omap id vs)).

(** The statements [let (input, #field) = field(#name, #read)(input)?;] in a row. *)
Fixpoint read_fields {E} (read : E → Parser Data) (name : string)
    (fields : list (FieldEncoding E)) : Parser (list (option (string * Data))) := λ input,
  match fields with
  | [] => Ok (input, [])
  | field :: fields' =>
      let? (input, v) := NomReader.field (qualified name (field_name field))
                           (generate_struct_field_nom_read read name field) input in
      let? (input, vs) := read_fields read name fields' input in
      Ok (input, v :: vs)
  end.

Definition generate_struct_multi_fields_nom_read {E} (read : E → Parser Data) (name : string)
    (fields : list (FieldEncoding E)) : Parser Data := λ input,
  let? (input, vs) := read_fields read name fields input in
  Ok (input, DStruct name (omap id vs)).

Definition generate_struct_nom_read {E} (read : E → Parser Data) (name : string)
    (fields : list (FieldEncoding E)) : Parser Data :=
  match fields with
  | [] => generate_struct_no_fields_nom_read name
  | [field] => generate_struct_one_field_nom_read read name field
  | _ =>
      if decide (length fields < NOM_TUPLE_MAX)%nat then
        generate_struct_many_fields_nom_read read name fields
      else generate_struct_multi_fields_nom_read read name fields
  end.

(** *** Enums *)

Definition tag_read (tag_type : TagType) : Parser Z :=
  match tag_type with TagU8 => nom_u8 | TagU16 => nom_be_u16 | TagU32 => nom_be_u32 end.

Definition generate_tag_nom_read (read : DEncoding → Parser Data) (enum_name : string)
    (index : Z) (tag : Tag DEncoding) : Parser Data :=
  let tag_name := get_variant tag in
  match tag_encoding tag with
  | Derive.Unit => λ bytes, Ok (bytes, DUnitVariant enum_name index tag_name)
  | _ =>
      nom_map (NomReader.variant (qualified enum_name tag_name) (read (tag_encoding tag)))
        (DNewtypeVariant enum_name index tag_name)
  end.

(** The chain [if tag == #id { ... } else ... else { return Err(...) }]. *)
Fixpoint read_variant (read : DEncoding → Parser Data) (enum_name : string)
    (ignore_unknown : bool) (tag : Z) (index : Z) (tags : list (Tag DEncoding))
    : Parser Data := λ input,
  match tags with
  | [] =>
      Err (NFailure ((if ignore_unknown then unknown_tag else invalid_tag) input tag))
  | t :: tags' =>
      if decide (tag = get_id t) then generate_tag_nom_read read enum_name index t input
      else read_variant read enum_name ignore_unknown tag (index + 1) tags' input
  end.

Definition generate_enum_nom_read (read : DEncoding → Parser Data) (name : string)
    (tag_type : TagType) (ignore_unknown : bool) (tags : list (Tag DEncoding))
    : Parser Data := λ input,
  let? (input, tag) := tag_read tag_type input in
  read_variant read name ignore_unknown tag 0 tags input.

Fixpoint generate_nom_read (encoding : DEncoding) : Parser Data :=
  match encoding with
  | Derive.Unit => not_generated
  | Derive.Primitive primitive => generage_primitive_nom_read primitive
  | Derive.Bytes => generate_bytes_nom_read
  | Derive.Path path => path_nom_read path
  | Derive.Struct name fields => generate_struct_nom_read generate_nom_read name fields
  | Derive.Enum name tag_type ignore_unknown tags =>
      generate_enum_nom_read generate_nom_read name tag_type ignore_unknown tags
  | Derive.String size => generate_string_nom_read size
  | Derive.OptionField encoding => generate_optional_field_nom_read (generate_nom_read encoding)
  | Derive.List size encoding => generate_list_nom_read size (generate_nom_read encoding)
  | Derive.Sized size encoding => NomReader.sized size (generate_nom_read encoding)
  | Derive.Bounded size encoding => NomReader.bounded size (generate_nom_read encoding)
  | Derive.Dynamic size encoding => generate_dynamic_nom_read size (generate_nom_read encoding)
  | Derive.Zarith => as_data num_bigint_data NomReader.zarith
  | Derive.MuTez => as_data num_bigint_data NomReader.mutez
  end.

End NomRead.

(** ** Induction on schemas *)

Section DEncodingInd.
Variable P : DEncoding → Prop.
Hypothesis HUnit : P Derive.Unit.
Hypothesis HPrimitive : ∀ p, P (Derive.Primitive p).
Hypothesis HBytes : P Derive.Bytes.
Hypothesis HPath : ∀ p, P (Derive.Path p).
Hypothesis HZarith : P Derive.Zarith.
Hypothesis HMuTez : P Derive.MuTez.
Hypothesis HString : ∀ size, P (Derive.String size).
Hypothesis HStruct : ∀ name fields,
  Forall (λ f, ∀ e, field_encoding f = Some e → P e) fields → P (Derive.Struct name fields).
Hypothesis HEnum : ∀ name ty ign tags,
  Forall (λ t, P (tag_encoding t)) tags → P (Derive.Enum name ty ign tags).
Hypothesis HOptionField : ∀ e, P e → P (Derive.OptionField e).
Hypothesis HList : ∀ size e, P e → P (Derive.List size e).
Hypothesis HSized : ∀ size e, P e → P (Derive.Sized size e).
Hypothesis HBounded : ∀ size e, P e → P (Derive.Bounded size e).
Hypothesis HDynamic : ∀ size e, P e → P (Derive.Dynamic size e).

Fixpoint DEncoding_ind' (e : DEncoding) : P e :=
  match e with
  | Derive.Unit => HUnit
  | Derive.Primitive p => HPrimitive p
  | Derive.Bytes => HBytes
  | Derive.Path p => HPath p
  | Derive.Zarith => HZarith
  | Derive.MuTez => HMuTez
  | Derive.String size => HString size
  | Derive.Struct name fields =>
      HStruct name fields
        ((fix all (l : list (FieldEncoding DEncoding)) :
            Forall (λ f, ∀ e, field_encoding f = Some e → P e) l :=
            match l with
            | [] => Forall_nil_2 _
            | mkFieldEncoding n o :: l' =>
                Forall_cons_2 _ (mkFieldEncoding n o) l'
                  (match o as o0 return (∀ e, o0 = Some e → P e) with
                   | Some e' => λ e E, match E in _ = q return
                       match q with Some e => P e | None => True end with
                       | eq_refl => DEncoding_ind' e' end
                   | None => λ e E, match E in _ = q return
                       match q with Some e => P e | None => True end with
                       | eq_refl => I end
                   end) (all l')
            end) fields)
  | Derive.Enum name ty ign tags =>
      HEnum name ty ign tags
        ((fix all (l : list (Tag DEncoding)) : Forall (λ t, P (tag_encoding t)) l :=
            match l with
            | [] => Forall_nil_2 _
            | mkTag i v e' :: l' => Forall_cons_2 _ (mkTag i v e') l' (DEncoding_ind' e') (all l')
            end) tags)
  | Derive.OptionField e' => HOptionField e' (DEncoding_ind' e')
  | Derive.List size e' => HList size e' (DEncoding_ind' e')
  | Derive.Sized size e' => HSized size e' (DEncoding_ind' e')
  | Derive.Bounded size e' => HBounded size e' (DEncoding_ind' e')
  | Derive.Dynamic size e' => HDynamic size e' (DEncoding_ind' e')
  end.
End DEncodingInd.
