(* ===== verification/DeriveRoundTrip.v ===== *)
(** * Derived types: what is written is read back

    For a schema of the derive macros, [typed] says which data are values of
    the declared Rust type, [delimited] whether the reader finds the end of the
    value by itself, and [wf] which schemas the round trip covers.  What a
    schema needs to know of the types it mentions is the class [TypeSpec]; a
    derived type provides it in turn. *)

From S2P Require Import Prelude External BitUtils Hash Encoding Serializer PathCodec BinaryWriter Format NomLib NomReader Derive.

(** ** Values of a declared type *)

(** The interface of the types a declaration mentions. *)
Class TypeSpec : Type := {
  path_typed : string → Data → Prop;
  path_delimited : string → bool;
  path_nonempty : string → bool
}.

Definition primitive_typed (p : PrimitiveEncoding) (d : Data) : Prop :=
  match p, d with
  | Int8, DI8 v => int_range 8 v
  | Uint8, DU8 v => uint_range 8 v
  | Int16, DI16 v => int_range 16 v
  | Uint16, DU16 v => uint_range 16 v
  | (Int31 | Int32), DI32 v => int_range 32 v
  | Uint32, DU32 v => uint_range 32 v
  | (Int64 | Timestamp), DI64 v => int_range 64 v
  | Float, DF64 v => uint_range 64 v
  | Bool, DBool _ => True
  | _, _ => False
  end.

Section Typed.
Context `{TypeEnv, TypeSpec, BigIntSerde}.

(** One entry per field; [None] for a field that serde skips. *)
Fixpoint typed_fields {E} (typed : E → Data → Prop) (name : string)
    (fields : list (FieldEncoding E)) (vs : list (option (string * Data))) : Prop :=
  match fields, vs with
  | [], [] => True
  | f :: fields', v :: vs' =>
      match field_encoding f with
      | Some e => ∃ d, v = Some (field_name f, d) ∧ typed e d
      | None => v = pair (field_name f) <$> field_default name (field_name f)
      end ∧ typed_fields typed name fields' vs'
  | _, _ => False
  end.

Definition typed_tag (typed : DEncoding → Data → Prop) (name : string) (index : Z)
    (t : Tag DEncoding) (d : Data) : Prop :=
  match tag_encoding t with
  | Derive.Unit => d = DUnitVariant name index (get_variant t)
  | _ => ∃ d', d = DNewtypeVariant name index (get_variant t) d' ∧ typed (tag_encoding t) d'
  end.

Fixpoint typed_tags (typed : DEncoding → Data → Prop) (name : string) (index : Z)
    (tags : list (Tag DEncoding)) (d : Data) : Prop :=
  match tags with
  | [] => False
  | t :: tags' => typed_tag typed name index t d ∨ typed_tags typed name (index + 1) tags' d
  end.

(** A string of 4 GiB or more is left out: its length field would wrap. *)
Fixpoint typed (e : DEncoding) (d : Data) {struct e} : Prop :=
  match e with
  | Derive.Unit => False
  | Derive.Primitive p => primitive_typed p d
  | Derive.Bytes => ∃ bs, d = DSeq (map DU8 bs) ∧ bytes_ok bs
  | Derive.Path p => path_typed p d
  | Derive.Zarith | Derive.MuTez => ∃ z, d = num_bigint_data z
  | Derive.String _ =>
      ∃ s, d = DStr s ∧ bytes_ok s ∧ from_utf8 s = Ok s ∧ len s ≤ u32_max
  | Derive.Struct name fields =>
      ∃ vs, d = DStruct name (omap id vs) ∧ typed_fields typed name fields vs
  | Derive.Enum name _ _ tags => typed_tags typed name 0 tags d
  | Derive.OptionField e => d = DNone ∨ ∃ d', d = DSome d' ∧ typed e d'
  | Derive.List _ e => ∃ ds, d = DSeq ds ∧ Forall (typed e) ds
  | Derive.Sized _ e | Derive.Bounded _ e | Derive.Dynamic _ e => typed e d
  end.

End Typed.

(** ** Shape conditions *)

Section Shape.
Context `{TypeSpec}.

Definition encoded_fields {E} (fields : list (FieldEncoding E)) : list E :=
  omap field_encoding fields.

Fixpoint delimited (e : DEncoding) : bool :=
  match e with
  | Derive.Unit | Derive.Primitive _ | Derive.Zarith | Derive.MuTez | Derive.String _ => true
  | Derive.Bytes | Derive.List _ _ => false
  | Derive.Path p => path_delimited p
  | Derive.Struct _ fields =>
      forallb (λ f, match field_encoding f with Some e => delimited e | None => true end) fields
  | Derive.Enum _ _ _ tags => forallb (λ t, delimited (tag_encoding t)) tags
  | Derive.OptionField e | Derive.Bounded _ e => delimited e
  | Derive.Sized _ _ | Derive.Dynamic _ _ => true
  end.

(** The reader fails on the empty input; a list can hold such values only. *)
Fixpoint nonempty (e : DEncoding) : bool :=
  match e with
  | Derive.Unit | Derive.Bytes | Derive.List _ _ => false
  | Derive.Primitive _ | Derive.Zarith | Derive.MuTez | Derive.String _
  | Derive.Enum _ _ _ _ | Derive.OptionField _ | Derive.Dynamic _ _ => true
  | Derive.Path p => path_nonempty p
  | Derive.Struct _ fields =>
      match fields with
      | f :: _ => match field_encoding f with Some e => nonempty e | None => false end
      | [] => false
      end
  | Derive.Sized n _ => bool_decide (0 < n)
  | Derive.Bounded _ e => nonempty e
  end.

(** All the fields that are encoded but the last one are delimited. *)
Fixpoint sequence_ok (fields : list (FieldEncoding DEncoding)) : bool :=
  match fields with
  | [] => true
  | f :: fields' =>
      match field_encoding f with
      | Some e => (delimited e || match encoded_fields fields' with [] => true | _ => false end)
      | None => true
      end && sequence_ok fields'
  end.

Definition tags_ok (tag_type : TagType) (tags : list (Tag DEncoding)) : bool :=
  bool_decide (NoDup (map get_id tags)) && bool_decide (NoDup (map get_variant tags)) &&
  forallb (λ t, bool_decide (0 ≤ get_id t < 256 ^ size_of tag_type)) tags.

Fixpoint wf (e : DEncoding) : bool :=
  match e with
  | Derive.Unit | Derive.Zarith | Derive.MuTez => false
  | Derive.Primitive _ | Derive.Bytes | Derive.Path _ | Derive.String _ => true
  | Derive.Struct _ fields =>
      bool_decide (NoDup (map field_name fields)) && sequence_ok fields &&
      forallb (λ f, match field_encoding f with Some e => wf e | None => true end) fields
  | Derive.Enum _ tag_type _ tags =>
      tags_ok tag_type tags &&
      forallb (λ t, match tag_encoding t with Derive.Unit => true | _ => wf (tag_encoding t) end) tags
  | Derive.OptionField e => wf e
  | Derive.List _ e => wf e && delimited e && nonempty e
  | Derive.Sized _ e | Derive.Bounded _ e | Derive.Dynamic _ e => wf e
  end.

End Shape.

(** ** The round trip, one combinator at a time *)

Section CodecOk.
Context `{BufMut, HexLib, BitVecLib}.

(** Whatever is written for a value of the type is read back from the front of
    the input; a type that is not delimited needs the input to end there. *)
Definition codec_ok (enc : Encoding) (read : Parser Data) (typed : Data → Prop)
    (delim : bool) : Prop :=
  ∀ d v bs i, typed d → serialize d = Ok v → format enc v = Some bs →
    delim = true ∨ i = [] → read (bs ++ i) = Ok (i, d).

Definition fails_on_empty (read : Parser Data) : Prop := ∃ e, read [] = Err (NError e).

Context `{NomLaws}.

Lemma number_read {n conv p} (f : Z → Data) v i :
  number_spec n conv p → conv (v mod 256 ^ Z.of_nat n) = v →
  as_data f p (be_bytes n v ++ i) = Ok (i, f v).
Proof.
  intros [E _] Hv. unfold as_data. rewrite E by apply length_be_bytes.
  by rewrite be_val_be_bytes, Hv.
Qed.

Lemma signed_back w n v : w = 8 * Z.of_nat n → 0 < w → int_range w v →
  to_signed w (v mod 256 ^ Z.of_nat n) = v.
Proof.
  intros -> Hw Hv. change 256 with (2 ^ 8). rewrite <- Z.pow_mul_r by lia.
  by apply to_signed_mod.
Qed.

Lemma unsigned_back w n v : w = 8 * Z.of_nat n → uint_range w v →
  id (v mod 256 ^ Z.of_nat n) = v.
Proof.
  intros -> Hv. change 256 with (2 ^ 8). rewrite <- Z.pow_mul_r by lia.
  by apply Z.mod_small.
Qed.

Lemma primitive_ok p :
  codec_ok (generage_primitive_encoding p) (generage_primitive_nom_read p) (primitive_typed p) true.
Proof.
  intros d v bs i Ht Hs Hf _.
  destruct p, d; try done; cbn in Ht, Hs; try (injection Hs as <-; cbn in Hf; injection Hf as <-).
  - by apply (number_read DI8 _ _ nom_i8_spec), (signed_back 8).
  - by apply (number_read DU8 _ _ nom_u8_spec), (unsigned_back 8).
  - by apply (number_read DI16 _ _ nom_be_i16_spec), (signed_back 16).
  - by apply (number_read DU16 _ _ nom_be_u16_spec), (unsigned_back 16).
  - injection Hs as <-. apply guard_opt_Some in Hf as [_ [= <-]].
    by apply (number_read DI32 _ _ nom_be_i32_spec), (signed_back 32).
  - by apply (number_read DI32 _ _ nom_be_i32_spec), (signed_back 32).
  - unfold serialize_u32 in Hs. case_decide; injection Hs as <-; [|done].
    apply guard_opt_Some in Hf as [_ [= <-]].
    by apply (number_read DU32 _ _ nom_be_u32_spec), (unsigned_back 32).
  - by apply (number_read DI64 _ _ nom_be_i64_spec), (signed_back 64).
  - by apply (number_read DF64 _ _ nom_be_f64_spec), (unsigned_back 64).
  - cbn [generage_primitive_nom_read]. unfold as_data. destruct v0.
    + change (_ ++ i) with (BYTE_VAL_TRUE :: i). by rewrite (boolean_eq true).
    + change (_ ++ i) with (BYTE_VAL_FALSE :: i). by rewrite (boolean_eq false).
  - by apply (number_read DI64 _ _ nom_be_i64_spec), (signed_back 64).
Qed.

Lemma number_empty {n conv p} (f : Z → Data) :
  number_spec (S n) conv p → fails_on_empty (as_data f p).
Proof.
  intros [_ E]. eexists. unfold as_data. rewrite E by (cbn; lia). done.
Qed.

Lemma primitive_empty p : fails_on_empty (generage_primitive_nom_read p).
Proof.
  destruct p; cbn;
    try (eapply number_empty; first [apply nom_i8_spec | apply nom_u8_spec | apply nom_be_i16_spec
      | apply nom_be_u16_spec | apply nom_be_i32_spec | apply nom_be_u32_spec
      | apply nom_be_i64_spec | apply nom_be_f64_spec]).
  eexists. unfold as_data, NomReader.boolean.
  rewrite nom_alt_eq, !nom_map_eq, !nom_tag_fail by (by intros [|]). done.
Qed.

(** *** Strings and bytes *)

Definition string_typed (d : Data) : Prop :=
  ∃ s, d = DStr s ∧ bytes_ok s ∧ from_utf8 s = Ok s ∧ len s ≤ u32_max.

Lemma string_ok size :
  codec_ok (generate_string_encoding size) (generate_string_nom_read size) string_typed true.
Proof.
  intros d v bs i (s & -> & Hb & Hu & Hl) [= <-] Hf _. unfold generate_string_nom_read, as_data.
  assert (bs = be_bytes 4 (len s) ++ s ∧ match size with Some m => len s ≤ m | None => True end)
    as [-> Hm].
  { destruct size; cbn -[be_bytes] in Hf; [apply guard_opt_Some in Hf as [? Hf]|];
      split; try done; congruence. }
  rewrite <- app_assoc. destruct size; [by rewrite bounded_string_eq|by rewrite string_eq].
Qed.

Lemma string_empty size : fails_on_empty (generate_string_nom_read size).
Proof.
  destruct size; eexists; unfold generate_string_nom_read, as_data, NomReader.string,
    NomReader.bounded_string; rewrite nom_map_res_eq, nom_complete_eq, nom_length_data_eq.
  - unfold NomReader.bounded_size. rewrite size_short by (cbn; lia). done.
  - rewrite size_short by (cbn; lia). done.
Qed.

Definition bytes_typed (d : Data) : Prop := ∃ bs, d = DSeq (map DU8 bs) ∧ bytes_ok bs.

Lemma serialize_u8s bs : serialize (DSeq (map DU8 bs)) = Ok (Value.List (map Value.Uint8 bs)).
Proof.
  cbn [serialize]. rewrite (serialize_elements_ok _ (map Value.Uint8 bs)); [done|].
  induction bs; cbn; constructor; done.
Qed.

Lemma be_bytes_1 b : is_byte b → be_bytes 1 b = [b].
Proof. intros Hb. cbn. rewrite Z.div_1_r, Z.mod_small by done. done. Qed.

Lemma format_u8s_bytes bs : bytes_ok bs → format_u8s (map Value.Uint8 bs) = Some bs.
Proof.
  intros Hb. unfold format_u8s.
  assert (mapM (λ v, be_bytes 1 <$> u8_of v) (map Value.Uint8 bs) = Some (map (λ b, [b]) bs)) as ->.
  { induction Hb as [|b bs Hb Hbs IH]; [done|]. cbn -[be_bytes]. cbn -[be_bytes] in IH.
    rewrite IH, be_bytes_1 by done. done. }
  cbn. f_equal. induction bs; [done|]. inv Hb. cbn. by rewrite IHbs.
Qed.

Lemma bytes_codec_ok : codec_ok Encoding.Bytes generate_bytes_nom_read bytes_typed false.
Proof.
  intros d v bs i (l & -> & Hl) Hs Hf [Hi| ->]; [done|]. rewrite serialize_u8s in Hs.
  injection Hs as <-. cbn [format] in Hf. rewrite format_u8s_bytes in Hf by done.
  injection Hf as <-. unfold generate_bytes_nom_read, as_data, NomReader.bytes.
  by rewrite app_nil_r, nom_map_eq, nom_rest_eq.
Qed.

(** *** Options *)

Lemma optional_ok enc read T delim :
  codec_ok enc read T delim →
  codec_ok (Encoding.OptionalField enc) (generate_optional_field_nom_read read)
    (λ d, d = DNone ∨ ∃ d', d = DSome d' ∧ T d') delim.
Proof.
  intros IH d v bs i Ht Hs Hf Hi. unfold generate_optional_field_nom_read, as_data.
  destruct Ht as [-> | (d' & -> & Ht)].
  - injection Hs as <-. injection Hf as <-. cbn [be_bytes app].
    change (BYTE_FIELD_NONE / _ mod 256 :: i) with (0 :: i). by rewrite optional_field_none.
  - cbn in Hs. destruct (serialize d') as [w|] eqn:Ew; [|done]. injection Hs as <-.
    cbn -[be_bytes] in Hf. destruct (format enc w) as [bs'|] eqn:Ef; [|done].
    assert (bs = 255 :: bs') as -> by (by injection Hf). cbn [app].
    by rewrite (optional_field_some read _ i d') by (by apply (IH d' w)).
Qed.

Lemma optional_empty read : fails_on_empty (generate_optional_field_nom_read read).
Proof.
  eexists. unfold generate_optional_field_nom_read, as_data, NomReader.optional_field.
  rewrite nom_alt_eq, !nom_preceded_eq, !nom_tag_fail by (by intros [|]). done.
Qed.

(** *** Lists *)

Lemma list_forms enc ds v bs :
  serialize (DSeq ds) = Ok v →
  (match v with Value.List l => @concat BinNums.Z <$> mapM (format enc) l | _ => None end) = Some bs →
  ∃ bss, bs = concat bss ∧ len bss = len ds ∧
    Forall2 (λ d b, ∃ w, serialize d = Ok w ∧ format enc w = Some b) ds bss ∧
    ∃ l, v = Value.List l ∧ len l = len ds.
Proof.
  intros Hs Hf. cbn in Hs. apply serialize_elements_inv in Hs as (vs & Hvs & ->). cbn [app] in Hf.
  destruct (mapM (format enc) vs) as [bss|] eqn:E; [|done]. injection Hf as <-.
  apply mapM_Some in E. rewrite Forall2_fmap_l in Hvs.
  exists bss. pose proof (Forall2_length _ _ _ E) as L1. pose proof (Forall2_length _ _ _ Hvs) as L2.
  split; [done|]. split; [unfold len; congruence|]. split.
  - clear -Hvs E. revert bss E. induction Hvs as [|d w ds ws Hd Hvs IH]; intros bss E; inv E; [done|].
    constructor; [eauto|auto].
  - exists vs. split; [done|]. unfold len; congruence.
Qed.

(** Both loops over the elements end with all of them. *)
Lemma elements_read enc read (T : Data → Prop) ds bss :
  codec_ok enc read T true → fails_on_empty read → Forall T ds →
  Forall2 (λ d b, ∃ w, serialize d = Ok w ∧ format enc w = Some b) ds bss →
  (∀ acc, nom_fold_many0 read acc (λ l d, l ++ [d]) (concat bss) = Ok ([], acc ++ ds)) ∧
  (∀ n acc, (length ds ≤ n)%nat →
     nom_fold_many_m_n 0 n read acc (λ l d, l ++ [d]) (concat bss) = Ok ([], acc ++ ds)).
Proof.
  intros Hok [e He] HT HF. revert HT. induction HF as [|d b ds bss (w & Hw & Hb) HF IH]; intros HT.
  - split; intros.
    + cbn [concat]. erewrite nom_fold_many0_stop by done. by rewrite app_nil_r.
    + rewrite app_nil_r. cbn [concat]. destruct n as [|n]; [apply nom_fold_many_m_n_max|].
      by rewrite nom_fold_many_m_n_eq, He.
  - apply Forall_cons in HT as [Hd HT]. destruct (IH HT) as [IH0 IHn].
    assert (read (b ++ concat bss) = Ok (concat bss, d)) as E by (eapply Hok; eauto).
    assert (b ≠ []) as Hne.
    { intros ->. assert (read ([] ++ []) = Ok ([], d)) as E' by (eapply Hok; eauto).
      cbn in E'. congruence. }
    assert (length (concat bss) < length (concat (b :: bss)))%nat.
    { cbn [concat]. rewrite length_app. destruct b; [done|cbn; lia]. }
    split.
    + intros acc. rewrite (nom_fold_many0_step _ _ _ _ (concat bss) d) by done.
      by rewrite IH0, <- app_assoc.
    + intros [|n] acc Hn; [cbn in Hn; lia|]. rewrite nom_fold_many_m_n_eq. cbn [concat].
      rewrite E, decide_False, IHn, <- app_assoc; [done|cbn in Hn; lia|].
      intros E'. apply (f_equal length) in E'. rewrite length_app in E'. destruct b; [done|cbn in E'; lia].
Qed.

Lemma list_ok size enc read (T : Data → Prop) :
  codec_ok enc read T true → fails_on_empty read →
  codec_ok (generate_list_encoding size enc) (generate_list_nom_read size read)
    (λ d, ∃ ds, d = DSeq ds ∧ Forall T ds) false.
Proof.
  intros Hok Hemp d v bs i (ds & -> & HT) Hs Hf [Hi| ->]; [done|]. rewrite app_nil_r.
  unfold generate_list_nom_read, as_data. destruct size as [m|]; cbn [generate_list_encoding] in Hf.
  - assert ((match v with Value.List l => @concat BinNums.Z <$> mapM (format enc) l
             | _ => None end) = Some bs) as Hf'.
    { destruct v; try done. cbn in Hf. by apply guard_opt_Some in Hf as [_ ?]. }
    destruct (list_forms enc ds v bs Hs Hf') as (bss & -> & _ & HF & l & -> & Hl).
    cbn in Hf. apply guard_opt_Some in Hf as [Hm _].
    destruct (elements_read enc read T ds bss Hok Hemp HT HF) as [_ En].
    unfold NomReader.bounded_list. rewrite En by (unfold len in *; lia). done.
  - destruct (list_forms enc ds v bs Hs Hf) as (bss & -> & _ & HF & _).
    destruct (elements_read enc read T ds bss Hok Hemp HT HF) as [E0 _].
    unfold NomReader.list. by rewrite E0.
Qed.

(** *** Size limits *)

Lemma sized_ok n enc read T delim :
  codec_ok enc read T delim → codec_ok (Encoding.Sized n enc) (NomReader.sized n read) T true.
Proof.
  intros IH d v bs i Ht Hs Hf _. cbn in Hf.
  destruct (format enc v) as [bs'|] eqn:E; [|done]. apply guard_opt_Some in Hf as [Hn [= ->]].
  apply (sized_eq n read bs i []); [done|]. rewrite <- (app_nil_r bs). eapply IH; eauto.
Qed.

Lemma sized_empty n read : 0 < n → fails_on_empty (NomReader.sized n read).
Proof.
  intros Hn. eexists. unfold NomReader.sized.
  rewrite nom_map_parser_eq, nom_take_short by (cbn; lia). done.
Qed.

Lemma bounded_ok m enc read T delim :
  codec_ok enc read T delim → codec_ok (Encoding.Bounded m enc) (NomReader.bounded m read) T delim.
Proof.
  intros IH d v bs i Ht Hs Hf Hi. cbn in Hf.
  destruct (format enc v) as [bs'|] eqn:E; [|done]. apply guard_opt_Some in Hf as [Hm [= ->]].
  pose proof (len_nonneg bs) as Hb. pose proof (len_nonneg i) as Hi'.
  unfold NomReader.bounded. set (k := Z.min m (len (bs ++ i))).
  assert (len bs ≤ k ≤ len bs + len i) as Hk by (unfold k; rewrite len_app; lia).
  assert (take (Z.to_nat k) (bs ++ i) = bs ++ take (Z.to_nat (k - len bs)) i) as ->.
  { rewrite take_app. unfold len in *. rewrite take_ge by lia. do 2 f_equal. lia. }
  rewrite (IH d v bs _ Ht Hs E) by (destruct Hi as [?| ->]; [by left|right; apply take_nil]).
  assert (len (take (Z.to_nat (k - len bs)) i) = k - len bs) as ->.
  { unfold len in *. rewrite length_take. lia. }
  replace (Z.to_nat (k - (k - len bs))) with (length bs) by (unfold len; lia).
  by rewrite drop_len_app.
Qed.

Lemma bounded_empty m read : fails_on_empty read → fails_on_empty (NomReader.bounded m read).
Proof.
  intros [e E]. unfold fails_on_empty, NomReader.bounded. rewrite take_nil, E.
  destruct e as [? [[]| | | | | | | ] ?]; eauto.
Qed.

Lemma dynamic_ok size enc read T delim :
  codec_ok enc read T delim →
  codec_ok (generate_dynamic_encoding size enc) (generate_dynamic_nom_read size read) T true.
Proof.
  intros IH d v bs i Ht Hs Hf _.
  assert (∃ b, format enc v = Some b ∧ bs = be_bytes 4 (len b) ++ b ∧ len b ≤ u32_max ∧
            match size with Some m => len b ≤ m | None => True end) as (b & Eb & -> & Hu & Hm).
  { destruct size; cbn in Hf; destruct (format enc v) as [b|]; try done; exists b; cbn -[be_bytes] in Hf.
    - apply guard_opt_Some in Hf as [Hm Hf]. unfold format_block in Hf.
      case_decide; [|done]. repeat split; try done. congruence.
    - unfold format_block in Hf. case_decide; [|done]. repeat split; try done. congruence. }
  assert (read b = Ok ([], d)) as E by (rewrite <- (app_nil_r b); eapply IH; eauto).
  rewrite <- app_assoc. destruct size; [by apply bounded_dynamic_eq|by apply dynamic_eq].
Qed.

Lemma dynamic_empty size read : fails_on_empty (generate_dynamic_nom_read size read).
Proof.
  destruct size; eexists; unfold generate_dynamic_nom_read, NomReader.dynamic,
    NomReader.bounded_dynamic; rewrite nom_length_value_eq.
  - unfold NomReader.bounded_size. rewrite size_short by (cbn; lia). done.
  - rewrite size_short by (cbn; lia). done.
Qed.

End CodecOk.

(** ** Structures and enums *)

Section Compound.
Context `{BufMut, HexLib, BitVecLib, NomLaws, TypeEnv, TypeSpec}.

Lemma find_in_record (vs : list (string * Value)) n v :
  NoDup (map fst vs) → (n, v) ∈ vs → find_value_in_record_values n vs = Some v.
Proof.
  unfold find_value_in_record_values. induction vs as [|[m w] vs IH]; intros Hd Hin.
  - by apply not_elem_of_nil in Hin.
  - cbn in Hd. apply NoDup_cons in Hd as [Hm Hd]. cbn. case_bool_decide as E; cbn in E.
    + subst m. apply elem_of_cons in Hin as [[= ->]|Hin]; [done|].
      destruct Hm. change n with (fst (n, v)). by apply list_elem_of_fmap_2.
    + apply elem_of_cons in Hin as [[= <- _]|Hin]; [done|]. by apply IH.
Qed.

Section Struct.
Variables (gen : DEncoding → Encoding) (read : DEncoding → Parser Data)
  (T : DEncoding → Data → Prop) (name : string).

Lemma typed_fields_names fields ovs :
  typed_fields T name fields ovs →
  map fst (omap id ovs) `sublist_of` map field_name fields.
Proof.
  revert ovs. induction fields as [|f fields IH]; intros [|v ovs] Ht; try done.
  destruct Ht as [Hv Ht]. specialize (IH ovs Ht). cbn.
  destruct (field_encoding f) as [e|]; [destruct Hv as (d & -> & _)|subst v].
  - cbn. by constructor.
  - destruct (field_default name (field_name f)); cbn; by constructor.
Qed.

Lemma no_encoded_fields values fields bs :
  encoded_fields fields = [] →
  format_fields format values (omap (generate_field_encoding gen) fields) = Some bs → bs = [].
Proof.
  intros He. assert (omap (generate_field_encoding gen) fields = []) as ->; [|by intros [= <-]].
  induction fields as [|f fields IH]; [done|]. unfold encoded_fields in *. cbn in He |- *.
  unfold generate_field_encoding at 1. destruct (field_encoding f); [done|]. by apply IH.
Qed.

Definition fields_delimited (fields : list (FieldEncoding DEncoding)) : bool :=
  forallb (λ f, match field_encoding f with Some e => delimited e | None => true end) fields.

Lemma read_fields_ok values fields ovs bs i :
  Forall (λ f, ∀ e, field_encoding f = Some e →
            codec_ok (gen e) (read e) (T e) (delimited e)) fields →
  typed_fields T name fields ovs → sequence_ok fields = true →
  (∀ n d, Some (n, d) ∈ ovs →
     ∃ v, serialize d = Ok v ∧ find_value_in_record_values n values = Some v) →
  format_fields format values (omap (generate_field_encoding gen) fields) = Some bs →
  fields_delimited fields = true ∨ i = [] →
  read_fields read name fields (bs ++ i) = Ok (i, ovs).
Proof.
  intros HF. revert ovs bs. induction HF as [|f fields Hf HF IH]; intros [|ov ovs] bs Ht Hq Hv Hb Hi;
    try done.
  { by injection Hb as <-. }
  destruct Ht as [Hov Ht]. cbn in Hq. apply andb_true_iff in Hq as [Hq1 Hq].
  assert (Hi' : fields_delimited fields = true ∨ i = []).
  { destruct Hi as [Hi| ->]; [left|by right]. cbn in Hi. by apply andb_true_iff in Hi as [_ ?]. }
  cbn [read_fields]. unfold generate_struct_field_nom_read. cbn [omap list_omap] in Hb.
  unfold generate_field_encoding at 1 in Hb.
  destruct (field_encoding f) as [e|] eqn:Ee.
  - destruct Hov as (d & -> & Hd). destruct (Hv (field_name f) d) as (v & Hs & Hfind); [left|].
    cbn in Hb. rewrite Hfind in Hb. cbn in Hb.
    destruct (format (gen e) v) as [b|] eqn:Efm; [|done]. cbn in Hb.
    destruct (format_fields _ _ _) as [r|] eqn:Er in Hb; [|done].
    assert (bs = b ++ r) as -> by (by injection Hb).
    assert (read e (b ++ r ++ i) = Ok (r ++ i, d)) as E.
    { eapply Hf; eauto. apply orb_true_iff in Hq1 as [Hq1|Hq1]; [by left|].
      destruct (encoded_fields fields) eqn:Een; [|done].
      apply no_encoded_fields in Er as ->; [|done].
      destruct Hi as [Hi| ->]; [left|by right]. cbn in Hi. rewrite Ee in Hi.
      by apply andb_true_iff in Hi as [? _]. }
    rewrite <- app_assoc. erewrite field_ok by (unfold as_data; by rewrite E).
    rewrite (IH ovs) by (try done; intros n d' Hin; apply Hv; by right). done.
  - subst ov. erewrite field_ok by done.
    rewrite (IH ovs bs) by (try done; intros n d' Hin; apply Hv; by right). done.
Qed.

Lemma tuple_read_fields fields i :
  nom_tuple (map (λ f, NomReader.field (qualified name (field_name f))
                         (generate_struct_field_nom_read read name f)) fields) i
  = read_fields read name fields i.
Proof.
  revert i. induction fields as [|f fields IH]; intros i; cbn [map read_fields].
  - apply nom_tuple_nil.
  - rewrite nom_tuple_cons.
    destruct (NomReader.field _ _ i) as [[r a]|]; [|done]. by rewrite IH.
Qed.

(** The four shapes of the generated reader agree where the fields are read. *)
Lemma struct_read_ok fields i r vs :
  read_fields read name fields i = Ok (r, vs) →
  generate_struct_nom_read read name fields i = Ok (r, DStruct name (omap id vs)).
Proof.
  intros E. unfold generate_struct_nom_read. destruct fields as [|f [|f' fields]].
  - cbn in E. injection E as <- <-. apply nom_success_eq.
  - unfold generate_struct_one_field_nom_read. rewrite nom_map_eq. cbn in E.
    unfold NomReader.field in *.
    destruct (generate_struct_field_nom_read read name f i) as [[r' v]|]; cbn in E |- *; [|done].
    injection E as <- <-. by destruct v.
  - case_decide; unfold generate_struct_multi_fields_nom_read, generate_struct_many_fields_nom_read.
    + rewrite nom_map_eq. by rewrite (tuple_read_fields (f :: f' :: fields)), E.
    + by rewrite E.
Qed.

(** The record of a structure has, under the name of each field, its value. *)
Lemma serialize_struct_find fields ovs v :
  NoDup (map field_name fields) → typed_fields T name fields ovs →
  serialize (DStruct name (omap id ovs)) = Ok v →
  ∃ vs, v = Value.Record vs ∧
    ∀ n d, Some (n, d) ∈ ovs →
      ∃ w, serialize d = Ok w ∧ find_value_in_record_values n vs = Some w.
Proof.
  intros Hnd Ht Hs.
  cbn [serialize] in Hs. apply serialize_fields_inv in Hs as (vs & Hvs & ->). cbn [app].
  rewrite Forall2_fmap_l in Hvs. cbn in Hvs.
  assert (NoDup (map fst vs)) as Hnd'.
  { assert (map fst vs = map fst (omap id ovs)) as ->.
    { clear -Hvs. induction Hvs as [|x y l k [E _] Hl IH]; [done|]. cbn in *. congruence. }
    eapply sublist_NoDup; [done|]. by apply typed_fields_names. }
  exists vs. split; [done|].
  intros n d Hin. assert ((n, d) ∈ omap id ovs) as Hin' by (apply list_elem_of_omap; eauto).
  apply list_elem_of_lookup_1 in Hin' as [k Hk].
  destruct (Forall2_lookup_l _ _ _ _ _ Hvs Hk) as ([m w] & Hk' & [Em Ew]). cbn in Em, Ew. subst m.
  exists w. split; [done|]. apply find_in_record; [done|]. by eapply list_elem_of_lookup_2.
Qed.

Lemma struct_ok fields :
  Forall (λ f, ∀ e, field_encoding f = Some e →
            codec_ok (gen e) (read e) (T e) (delimited e)) fields →
  NoDup (map field_name fields) → sequence_ok fields = true →
  codec_ok (generate_struct_encoding gen name fields) (generate_struct_nom_read read name fields)
    (λ d, ∃ vs, d = DStruct name (omap id vs) ∧ typed_fields T name fields vs)
    (fields_delimited fields).
Proof.
  intros HF Hnd Hq d v bs i (ovs & -> & Ht) Hs Hf Hi. apply struct_read_ok.
  destruct (serialize_struct_find fields ovs v Hnd Ht Hs) as (vs & -> & Hv).
  by apply (read_fields_ok vs).
Qed.

End Struct.

(** *** Enums *)

Section Enum.
Variables (gen : DEncoding → Encoding) (read : DEncoding → Parser Data)
  (T : DEncoding → Data → Prop) (name : string).

Lemma typed_tags_lookup index tags d :
  typed_tags T name index tags d →
  ∃ k t, tags !! k = Some t ∧ typed_tag T name (index + Z.of_nat k) t d.
Proof.
  revert index. induction tags as [|t tags IH]; intros index; [done|].
  intros [Ht|Ht].
  - exists 0%nat, t. by rewrite Z.add_0_r.
  - destruct (IH _ Ht) as (k & u & Hk & Hu). exists (S k), u. split; [done|].
    by replace (index + Z.of_nat (S k)) with (index + 1 + Z.of_nat k) by lia.
Qed.

Lemma read_variant_found ign index tags k t i :
  NoDup (map get_id tags) → tags !! k = Some t →
  read_variant read name ign (get_id t) index tags i
  = generate_tag_nom_read read name (index + Z.of_nat k) t i.
Proof.
  revert index k. induction tags as [|u tags IH]; intros index k Hnd Hk; [done|].
  cbn in Hnd. apply NoDup_cons in Hnd as [Hu Hnd]. destruct k as [|k]; cbn in Hk.
  - injection Hk as ->. cbn [read_variant]. by rewrite decide_True, Z.add_0_r.
  - cbn [read_variant]. rewrite decide_False.
    + rewrite (IH _ k) by done. f_equal. lia.
    + intros E. apply Hu. rewrite <- E. apply list_elem_of_fmap_2.
      by eapply list_elem_of_lookup_2.
Qed.

Lemma tag_read_ok ty id i bs :
  0 ≤ id < 256 ^ size_of ty → format_tag (size_of ty) id = Some bs →
  tag_read ty (bs ++ i) = Ok (i, id).
Proof.
  intros Hid E. unfold format_tag in E. destruct ty; cbn [size_of tag_read] in *.
  - rewrite decide_True in E by done. assert (bs = be_bytes 1 id) as -> by congruence.
    destruct nom_u8_spec as [-> _]; [|apply length_be_bytes].
    rewrite be_val_be_bytes. by rewrite Z.mod_small.
  - rewrite decide_False, decide_True in E by done.
    assert (bs = be_bytes 2 id) as -> by congruence.
    destruct nom_be_u16_spec as [-> _]; [|apply length_be_bytes].
    rewrite be_val_be_bytes. by rewrite Z.mod_small.
  - by rewrite !decide_False in E by done.
Qed.

Lemma find_generated tags t :
  NoDup (map get_id tags) → NoDup (map get_variant tags) → t ∈ tags →
  find_by_variant (TagMap_new (map (generate_tag_encoding gen) tags)) (get_variant t)
  = Some (generate_tag_encoding gen t).
Proof.
  intros N1 N2 Ht.
  destruct (TagMap_new_find (map (generate_tag_encoding gen) tags)) with (t := generate_tag_encoding gen t)
    as [E _].
  - by rewrite map_map.
  - by rewrite map_map.
  - by apply list_elem_of_fmap_2.
  - exact E.
Qed.

Lemma newtype_read index t i :
  tag_encoding t ≠ Derive.Unit →
  generate_tag_nom_read read name index t i =
  nom_map (NomReader.variant (qualified name (get_variant t)) (read (tag_encoding t)))
    (DNewtypeVariant name index (get_variant t)) i.
Proof. unfold generate_tag_nom_read. by destruct (tag_encoding t). Qed.

(** What is written for a variant: its tag, and the payload if it has one. *)
Lemma enum_cases ty tags d v bs :
  tags_ok ty tags = true → typed_tags T name 0 tags d → serialize d = Ok v →
  format (generate_enum_encoding gen ty tags) v = Some bs →
  ∃ k t b p, tags !! k = Some t ∧ NoDup (map get_id tags) ∧
    0 ≤ get_id t < 256 ^ size_of ty ∧ format_tag (size_of ty) (get_id t) = Some b ∧ bs = b ++ p ∧
    (tag_encoding t = Derive.Unit ∧ p = [] ∧ d = DUnitVariant name (Z.of_nat k) (get_variant t) ∨
     tag_encoding t ≠ Derive.Unit ∧
     ∃ d' w, d = DNewtypeVariant name (Z.of_nat k) (get_variant t) d' ∧ T (tag_encoding t) d' ∧
       serialize d' = Ok w ∧ format (gen (tag_encoding t)) w = Some p).
Proof.
  intros Hok Ht Hs Hf. unfold tags_ok in Hok.
  apply andb_true_iff in Hok as [Hok Hid]. apply andb_true_iff in Hok as [N1 N2].
  apply bool_decide_eq_true in N1, N2. rewrite forallb_forall in Hid.
  apply typed_tags_lookup in Ht as (k & t & Hk & Ht).
  assert (t ∈ tags) as Hin by (by eapply list_elem_of_lookup_2).
  pose proof (find_generated tags t N1 N2 Hin) as Hfind.
  specialize (Hid t). rewrite <- list_elem_of_In, bool_decide_eq_true in Hid. specialize (Hid Hin).
  assert (tag_encoding t = Derive.Unit ∧ d = DUnitVariant name (Z.of_nat k) (get_variant t) ∨
          tag_encoding t ≠ Derive.Unit ∧ ∃ d', d = DNewtypeVariant name (Z.of_nat k) (get_variant t) d'
            ∧ T (tag_encoding t) d') as [[Hu ->]|[Hu (d' & -> & Hd)]].
  { unfold typed_tag in Ht. rewrite Z.add_0_l in Ht. destruct (tag_encoding t) eqn:E; auto. }
  - injection Hs as <-. cbn in Hf. rewrite Hfind in Hf. cbn in Hf.
    exists k, t, bs, []. rewrite app_nil_r. by auto 10.
  - cbn in Hs. destruct (serialize d') as [w|] eqn:Ew; [|done]. injection Hs as <-.
    cbn [format generate_enum_encoding] in Hf. rewrite find_by_variant_map, Hfind in Hf. cbn in Hf.
    destruct (format_tag (size_of ty) (get_id t)) as [b|] eqn:Eb; [|done]. cbn in Hf.
    destruct (format (gen (tag_encoding t)) w) as [p|] eqn:Ep; [|done].
    assert (bs = b ++ p) as -> by (by injection Hf).
    exists k, t, b, p. repeat (split; [done|]). right. eauto 10.
Qed.

Lemma enum_ok ty ign tags :
  Forall (λ t, tag_encoding t ≠ Derive.Unit →
     codec_ok (gen (tag_encoding t)) (read (tag_encoding t)) (T (tag_encoding t))
       (delimited (tag_encoding t))) tags →
  tags_ok ty tags = true →
  codec_ok (generate_enum_encoding gen ty tags) (generate_enum_nom_read read name ty ign tags)
    (typed_tags T name 0 tags) (forallb (λ t, delimited (tag_encoding t)) tags).
Proof.
  intros HF Hok d v bs i Ht Hs Hf Hi.
  destruct (enum_cases ty tags d v bs Hok Ht Hs Hf) as (k & t & b & p & Hk & N1 & Hid & Hb & -> & Hp).
  unfold generate_enum_nom_read. rewrite <- app_assoc, (tag_read_ok ty (get_id t)) by done.
  rewrite (read_variant_found ign 0 tags k t), Z.add_0_l by done.
  destruct Hp as [(Hu & -> & ->)|(Hu & d' & w & -> & Hd & Hw & Ep)].
  - unfold generate_tag_nom_read. by rewrite Hu.
  - assert (t ∈ tags) as Hin by (by eapply list_elem_of_lookup_2). rewrite Forall_forall in HF.
    assert (read (tag_encoding t) (p ++ i) = Ok (i, d')) as E.
    { eapply HF; eauto. destruct Hi as [Hi| ->]; [left|by right].
      rewrite forallb_forall in Hi. apply Hi. by apply list_elem_of_In. }
    by rewrite newtype_read, nom_map_eq, (variant_ok _ _ _ _ _ E) by done.
Qed.

Lemma tag_read_empty ty : ∃ e, tag_read ty [] = Err (NError e).
Proof.
  destruct ty; cbn; [destruct nom_u8_spec as [_ ->]|destruct nom_be_u16_spec as [_ ->]
    |destruct nom_be_u32_spec as [_ ->]]; cbn; try lia; eauto.
Qed.

Lemma enum_empty ty ign tags : fails_on_empty (generate_enum_nom_read read name ty ign tags).
Proof.
  unfold fails_on_empty, generate_enum_nom_read. destruct (tag_read_empty ty) as [e ->]. eauto.
Qed.

End Enum.
End Compound.

(** ** Derived types *)

(** What a type promises to the types that mention it. *)
Class TypeSpecLaws `{BufMut, HexLib, BitVecLib, TypeEnv, TypeSpec} : Prop := {
  path_ok p : codec_ok (path_encoding p) (path_nom_read p) (path_typed p) (path_delimited p);
  path_empty p : path_nonempty p = true → fails_on_empty (path_nom_read p)
}.

Section Derived.
Context `{BufMutLaws, HexLib, BitVecLib, NomLaws, TypeEnv, TypeSpec, BigIntLib, BigIntSerde}.
Context `{!TypeSpecLaws}.

Lemma struct_empty (read : DEncoding → Parser Data) name f fields e :
  field_encoding f = Some e → fails_on_empty (read e) →
  fails_on_empty (generate_struct_nom_read read name (f :: fields)).
Proof.
  intros Ef [err E]. unfold fails_on_empty, generate_struct_nom_read.
  assert (∀ n, ∃ e', NomReader.field n (generate_struct_field_nom_read read name f) []
                     = Err (NError e')) as Hf.
  { intros n. unfold NomReader.field, generate_struct_field_nom_read, as_data.
    rewrite Ef, E. cbn. eauto. }
  destruct fields as [|f' fields].
  - unfold generate_struct_one_field_nom_read. rewrite nom_map_eq.
    destruct (Hf (field_name f)) as [e' ->]. eauto.
  - unfold generate_struct_many_fields_nom_read, generate_struct_multi_fields_nom_read.
    destruct (Hf (qualified name (field_name f))) as [e' E'].
    case_decide; [rewrite nom_map_eq, tuple_read_fields|];
      cbn [read_fields]; rewrite E'; eauto.
Qed.

Lemma derive_empty e : nonempty e = true → fails_on_empty (generate_nom_read e).
Proof.
  induction e as [|p| |p| | |sz|name fields HF|name ty ign tags HF|e IHe|sz e IHe|sz e IHe
    |sz e IHe|sz e IHe] using DEncoding_ind'; intros Hn; try done; cbn [nonempty] in Hn.
  - apply primitive_empty.
  - by apply path_empty.
  - cbn. eexists. unfold as_data, NomReader.zarith.
    destruct nom_u8_spec as [_ ->]; [done|cbn; lia].
  - cbn. eexists. unfold as_data, NomReader.mutez. cbn [NomReader.read_chunks].
    destruct nom_u8_spec as [_ ->]; [done|cbn; lia].
  - apply string_empty.
  - destruct fields as [|f fields]; [done|]. destruct (field_encoding f) eqn:Ef; [|done].
    eapply struct_empty; [done|]. apply Forall_cons in HF as [Hf _]. by apply Hf.
  - apply enum_empty.
  - apply optional_empty.
  - apply bool_decide_eq_true in Hn. by apply sized_empty.
  - by apply bounded_empty, IHe.
  - apply dynamic_empty.
Qed.

Lemma derive_codec_ok e :
  wf e = true →
  codec_ok (generate_encoding e) (generate_nom_read e) (typed e) (delimited e).
Proof.
  induction e as [|p| |p| | |sz|name fields HF|name ty ign tags HF|e IHe|sz e IHe|sz e IHe
    |sz e IHe|sz e IHe] using DEncoding_ind'; intros Hw; try done; cbn [wf] in Hw.
  - apply primitive_ok.
  - apply bytes_codec_ok.
  - apply path_ok.
  - apply string_ok.
  - apply andb_true_iff in Hw as [Hw Hfs]. apply andb_true_iff in Hw as [Hnd Hq].
    apply bool_decide_eq_true in Hnd. rewrite forallb_forall in Hfs.
    apply struct_ok; [|done|done]. rewrite Forall_forall in *.
    intros f Hin e He. apply (HF f Hin e He).
    specialize (Hfs f). rewrite He in Hfs. by apply Hfs, list_elem_of_In.
  - apply andb_true_iff in Hw as [Hok Hts]. rewrite forallb_forall in Hts.
    apply enum_ok; [|done]. rewrite Forall_forall in *. intros t Hin Hu. apply (HF t Hin).
    specialize (Hts t). rewrite <- list_elem_of_In in Hts. specialize (Hts Hin).
    by destruct (tag_encoding t).
  - by apply optional_ok, IHe.
  - apply andb_true_iff in Hw as [Hw Hn]. apply andb_true_iff in Hw as [Hw Hd].
    apply list_ok; [rewrite <- Hd; by apply IHe|by apply derive_empty].
  - eapply sized_ok. by apply IHe.
  - by apply bounded_ok, IHe.
  - eapply dynamic_ok. by apply IHe.
Qed.

End Derived.

(** ** Declarations, one after the other *)

Section Declare.
Context `{BufMut, HexLib, BitVecLib, Nom, BigIntLib, BigIntSerde}.

(** The traits after [#[derive(HasEncoding, NomReader)]] on the type [n]. *)
Definition declare (E : TypeEnv) (n : string) (e : DEncoding) : TypeEnv := {|
  path_encoding p := if decide (p = n) then generate_encoding e else path_encoding p;
  path_nom_read p := if decide (p = n) then generate_nom_read e else path_nom_read p;
  field_default := field_default
|}.

Definition declare_spec (E : TypeEnv) (S : TypeSpec) (n : string) (e : DEncoding) : TypeSpec := {|
  path_typed p := if decide (p = n) then typed e else path_typed p;
  path_delimited p := if decide (p = n) then delimited e else path_delimited p;
  path_nonempty p := if decide (p = n) then nonempty e else path_nonempty p
|}.

(** A list of declarations, the first one declared first. *)
Fixpoint declare_all (E : TypeEnv) (ds : list (string * DEncoding)) : TypeEnv :=
  match ds with
  | [] => E
  | (n, e) :: ds' => declare_all (declare E n e) ds'
  end.

Fixpoint declare_all_spec (E : TypeEnv) (S : TypeSpec) (ds : list (string * DEncoding))
    : TypeSpec :=
  match ds with
  | [] => S
  | (n, e) :: ds' => declare_all_spec (declare E n e) (declare_spec E S n e) ds'
  end.

Fixpoint wf_all (E : TypeEnv) (S : TypeSpec) (ds : list (string * DEncoding)) : bool :=
  match ds with
  | [] => true
  | (n, e) :: ds' => wf e && wf_all (declare E n e) (declare_spec E S n e) ds'
  end.

(** A declaration sees the ones before it; later ones of other names do not
    change it. *)
Lemma declare_all_app E ds1 ds2 :
  declare_all E (ds1 ++ ds2) = declare_all (declare_all E ds1) ds2.
Proof. revert E. induction ds1 as [|[n e] ds1 IH]; intros E; cbn; auto. Qed.

Lemma declare_all_other E ds p :
  p ∉ map fst ds →
  @path_encoding (declare_all E ds) p = @path_encoding E p ∧
  @path_nom_read (declare_all E ds) p = @path_nom_read E p.
Proof.
  revert E. induction ds as [|[n e] ds IH]; intros E Hp; [done|].
  cbn in Hp. apply not_elem_of_cons in Hp as [Hn Hp]. cbn [declare_all].
  destruct (IH (declare E n e) Hp) as [-> ->]. cbn. by rewrite !decide_False by done.
Qed.

Lemma declared E ds1 n e ds2 :
  n ∉ map fst ds2 →
  @path_encoding (declare_all E (ds1 ++ (n, e) :: ds2)) n
    = @generate_encoding (declare_all E ds1) e ∧
  @path_nom_read (declare_all E (ds1 ++ (n, e) :: ds2)) n
    = @generate_nom_read (declare_all E ds1) _ _ _ _ e.
Proof.
  intros Hn. rewrite declare_all_app. cbn [declare_all].
  destruct (declare_all_other (declare (declare_all E ds1) n e) ds2 n Hn) as [-> ->].
  cbn. by rewrite !decide_True.
Qed.

Lemma declare_all_spec_app E S ds1 ds2 :
  declare_all_spec E S (ds1 ++ ds2)
  = declare_all_spec (declare_all E ds1) (declare_all_spec E S ds1) ds2.
Proof. revert E S. induction ds1 as [|[n e] ds1 IH]; intros E S; cbn; auto. Qed.

Lemma declare_all_spec_other E S ds p :
  p ∉ map fst ds → @path_typed (declare_all_spec E S ds) p = @path_typed S p.
Proof.
  revert E S. induction ds as [|[n e] ds IH]; intros E S Hp; [done|].
  cbn in Hp. apply not_elem_of_cons in Hp as [Hn Hp]. cbn [declare_all_spec].
  rewrite (IH (declare E n e) (declare_spec E S n e) Hp). cbn. by rewrite !decide_False by done.
Qed.

Lemma declared_typed E S ds1 n e ds2 :
  n ∉ map fst ds2 →
  @path_typed (declare_all_spec E S (ds1 ++ (n, e) :: ds2)) n
  = @typed (declare_all E ds1) (declare_all_spec E S ds1) _ e.
Proof.
  intros Hn. rewrite declare_all_spec_app. cbn [declare_all_spec].
  rewrite declare_all_spec_other by done. cbn. by rewrite decide_True.
Qed.

Context `{!BufMutLaws, !NomLaws}.

Lemma declare_laws (E : TypeEnv) (S : TypeSpec) n e :
  TypeSpecLaws → wf e = true →
  @TypeSpecLaws _ _ _ (declare E n e) (declare_spec E S n e).
Proof.
  intros L Hw. split; intros p; cbn; case_decide; try apply path_ok; try apply path_empty.
  - by apply derive_codec_ok.
  - apply derive_empty.
Qed.

Lemma declare_all_laws (E : TypeEnv) (S : TypeSpec) ds :
  TypeSpecLaws → wf_all E S ds = true →
  @TypeSpecLaws _ _ _ (declare_all E ds) (declare_all_spec E S ds).
Proof.
  revert E S. induction ds as [|[n e] ds IH]; intros E S L Hw; [done|].
  cbn in Hw. apply andb_true_iff in Hw as [Hw Hws]. cbn. apply IH; [|done].
  by apply declare_laws.
Qed.

End Declare.

(** ** The round trip through [write] *)

Section Properties.
Context `{BufMutLaws, HexLib, BitVecLib, NomLaws}.

Lemma codec_ok_write enc read T delim d bs i :
  codec_ok enc read T delim → T d → write d enc = Ok bs → delim = true ∨ i = [] →
  read (bs ++ i) = Ok (i, d).
Proof.
  intros Hok Ht Hw Hi. apply write_inv in Hw as (v & Es & Ef). by apply (Hok d v).
Qed.

Context `{TypeEnv, TypeSpec, BigIntLib, BigIntSerde, !TypeSpecLaws}.

(** C38: for every schema the derive macros can produce, nested to any depth
    and mentioning any types that keep their promise, what the writer produces
    for a value of the declared type under the generated [Encoding] is read
    back by the generated reader, which stops where the value ends (a schema
    that is not delimited has to be at the end of the input). *)
Theorem derive_roundtrip e d bs i :
  wf e = true → typed e d → write d (generate_encoding e) = Ok bs →
  delimited e = true ∨ i = [] →
  generate_nom_read e (bs ++ i) = Ok (i, d).
Proof. intros Hw. apply codec_ok_write. by apply derive_codec_ok. Qed.

End Properties.

Module DeriveWitnesses.
Import Concrete ConcreteNom ConcreteSerde.

(** No type is declared. *)
#[local] Instance no_env : TypeEnv := {|
  path_encoding _ := Encoding.Unit; path_nom_read _ := not_generated; field_default _ _ := None
|}.
#[local] Instance no_spec : TypeSpec := {|
  path_typed _ _ := False; path_delimited _ := false; path_nonempty _ := false
|}.
#[local] Instance no_laws : TypeSpecLaws.
Proof. split; [by intros p d v bs i []|done]. Qed.

Definition example : DEncoding :=
  Derive.Struct "Pair"
    [mkFieldEncoding "a"%string (Some (Derive.Primitive Uint8));
     mkFieldEncoding "b"%string
       (Some (Derive.Dynamic None (Derive.List (Some 3) (Derive.Primitive Uint16))))].

Definition example_data : Data :=
  DStruct "Pair" [("a"%string, DU8 7); ("b"%string, DSeq [DU16 258; DU16 3])].

Lemma derive_roundtrip_witness :
  generate_nom_read example ([7; 0; 0; 0; 4; 1; 2; 0; 3] ++ [9]) = Ok ([9], example_data).
Proof.
  apply (derive_roundtrip example example_data).
  - reflexivity.
  - exists [Some ("a"%string, DU8 7); Some ("b"%string, DSeq [DU16 258; DU16 3])].
    split; [done|]. split; [by exists (DU8 7)|]. split; [|done].
    eexists. split; [done|]. eexists. split; [done|].
    repeat constructor; cbn; unfold uint_range; lia.
  - reflexivity.
  - by left.
Defined.

End DeriveWitnesses.
