(* ===== verification/ReaderSound.v ===== *)
(** * Derived readers return values of the declared type

    The converse of the round trip, for input that nobody promised anything
    about: whatever a generated reader accepts is a value of the declared Rust
    type, and what it leaves is the end of the input. *)

From S2P Require Import Prelude External BitUtils Hash Encoding Serializer PathCodec BinaryWriter Format NomLib NomReader Derive DeriveRoundTrip.

(** ** Sound readers *)

(** From bytes, the reader returns a value that satisfies [T] and a suffix of
    its input. *)
Definition reads {A} (read : Parser A) (T : A → Prop) : Prop :=
  ∀ i r a, bytes_ok i → read i = Ok (r, a) → r `suffix_of` i ∧ T a.

Lemma suffix_bytes (r i : bytes) : bytes_ok i → r `suffix_of` i → bytes_ok r.
Proof. intros Hi [l ->]. by apply Forall_app in Hi as [_ ?]. Qed.

Lemma reads_impl {A} (read : Parser A) (T U : A → Prop) :
  reads read T → (∀ a, T a → U a) → reads read U.
Proof. intros Hr HU i r a Hi E. destruct (Hr i r a Hi E). auto. Qed.

Lemma reads_as_data {A B} (f : A → B) read (T : A → Prop) (U : B → Prop) :
  reads read T → (∀ a, T a → U (f a)) → reads (as_data f read) U.
Proof.
  intros Hr HU i r b Hi E. unfold as_data in E.
  destruct (read i) as [[r' a]|] eqn:Ea; [|done]. injection E as <- <-.
  destruct (Hr i r' a Hi Ea). auto.
Qed.

Lemma reads_field {A} name (read : Parser A) T : reads read T → reads (NomReader.field name read) T.
Proof.
  intros Hr i r a Hi E. unfold NomReader.field in E.
  destruct (read i) as [[r' a']|] eqn:Ea; [|done]. injection E as <- <-. by apply Hr.
Qed.

Lemma reads_variant {A} name (read : Parser A) T : reads read T → reads (NomReader.variant name read) T.
Proof.
  intros Hr i r a Hi E. unfold NomReader.variant in E.
  destruct (read i) as [[r' a']|] eqn:Ea; [|done]. injection E as <- <-. by apply Hr.
Qed.

Section Readers.
Context `{NomLaws}.

Lemma reads_number n conv p (T : Z → Prop) :
  number_spec n conv p → (∀ v, 0 ≤ v < 256 ^ Z.of_nat n → T (conv v)) → reads p T.
Proof.
  intros [E1 E2] HT i r a Hi E.
  destruct (decide (length i < n)%nat) as [Hl|Hl]; [rewrite E2 in E by done; done|].
  rewrite <- (take_drop n i) in E. assert (length (take n i) = n) as Hn by (rewrite length_take; lia).
  rewrite E1 in E by done. injection E as <- <-. split; [apply suffix_drop|]. apply HT.
  rewrite <- Hn at 3. apply be_val_bound. by apply Forall_take.
Qed.

Lemma reads_take n : reads (nom_take n) (λ l, bytes_ok l ∧ length l = n).
Proof.
  intros i r l Hi E. destruct (decide (length i < n)%nat).
  - rewrite nom_take_short in E by done. done.
  - rewrite nom_take_ok in E by lia. injection E as <- <-.
    split; [apply suffix_drop|]. split; [by apply Forall_take|rewrite length_take; lia].
Qed.

Lemma reads_tag t : t ≠ [] → reads (nom_tag t) (λ _, True).
Proof.
  intros _ i r l Hi E. destruct (decide (t `prefix_of` i)) as [[k ->]|Hn].
  - rewrite nom_tag_ok in E. injection E as <- _. split; [by exists t|done].
  - rewrite nom_tag_fail in E; [done|]. intros k ->. destruct Hn. by exists k.
Qed.

Lemma reads_map {A B} (p : Parser A) (f : A → B) (T : A → Prop) (U : B → Prop) :
  reads p T → (∀ a, T a → U (f a)) → reads (nom_map p f) U.
Proof. intros Hp HU i r b Hi E. rewrite nom_map_eq in E. by eapply (reads_as_data f p T U). Qed.

Lemma reads_success {A} (a : A) (T : A → Prop) : T a → reads (nom_success a) T.
Proof. intros HT i r b Hi E. rewrite nom_success_eq in E. by injection E as <- <-. Qed.

Lemma reads_alt {A} (p q : Parser A) T : reads p T → reads q T → reads (nom_alt p q) T.
Proof.
  intros Hp Hq i r a Hi E. rewrite nom_alt_eq in E.
  destruct (p i) as [[r' a']|[|e|e]] eqn:Ep; try done.
  - injection E as <- <-. by apply Hp.
  - destruct (q i) as [[r' a']|[|e'|e']] eqn:Eq; try done. injection E as <- <-. by apply Hq.
Qed.

Lemma reads_preceded {A B} (p : Parser A) (q : Parser B) T U :
  reads p T → reads q U → reads (nom_preceded p q) U.
Proof.
  intros Hp Hq i r b Hi E. rewrite nom_preceded_eq in E. destruct (p i) as [[r' a]|] eqn:Ep; [|done].
  destruct (Hp i r' a Hi Ep) as [Hs _]. destruct (Hq r' r b) as [Hs' HU]; [by eapply suffix_bytes|done|].
  split; [by etrans|done].
Qed.

Lemma size_reads : reads NomReader.size (λ n, 0 ≤ n ≤ u32_max).
Proof.
  apply (reads_number _ _ _ _ nom_be_u32_spec). intros v Hv. unfold id, u32_max.
  change (256 ^ Z.of_nat 4) with (2 ^ 32) in Hv. lia.
Qed.

Lemma bounded_size_reads k m : reads (NomReader.bounded_size k m) (λ n, 0 ≤ n ≤ u32_max).
Proof.
  intros i r n Hi E. unfold NomReader.bounded_size in E.
  destruct (NomReader.size i) as [[r' n']|] eqn:Es; [|done]. case_decide; [|done].
  injection E as <- <-. by apply size_reads.
Qed.

Lemma reads_length_data p :
  reads p (λ n, 0 ≤ n ≤ u32_max) → reads (nom_length_data p) (λ l, bytes_ok l ∧ len l ≤ u32_max).
Proof.
  intros Hp i r l Hi E. rewrite nom_length_data_eq in E. destruct (p i) as [[r' n]|] eqn:Ep; [|done].
  destruct (Hp i r' n Hi Ep) as [Hs Hn]. case_decide as Hl; [|done]. injection E as <- <-.
  pose proof (suffix_bytes _ _ Hi Hs) as Hr. split; [etrans; [apply suffix_drop|done]|].
  split; [by apply Forall_take|]. unfold len in *. rewrite length_take. lia.
Qed.

Lemma reads_string p :
  reads p (λ n, 0 ≤ n ≤ u32_max) →
  reads (nom_map_res (nom_complete (nom_length_data p)) from_utf8)
    (λ s, bytes_ok s ∧ from_utf8 s = Ok s ∧ len s ≤ u32_max).
Proof.
  intros Hp i r s Hi E. rewrite nom_map_res_eq, nom_complete_eq in E.
  destruct (nom_length_data p i) as [[r' l]|[| |]] eqn:El; try done.
  destruct (reads_length_data p Hp i r' l Hi El) as (Hs & Hl & Hn).
  unfold from_utf8 in E |- *. destruct (utf8_validate 0 l) eqn:Eu; [done|]. injection E as <- <-.
  by rewrite Eu.
Qed.

(** The parser of a block sees the block only. *)
Lemma reads_length_value {A} p (f : Parser A) T :
  reads p (λ n, 0 ≤ n ≤ u32_max) → reads f T → reads (nom_length_value p (nom_all_consuming f)) T.
Proof.
  intros Hp Hf i r a Hi E. rewrite nom_length_value_eq in E.
  destruct (p i) as [[r' n]|] eqn:Ep; [|done]. destruct (Hp i r' n Hi Ep) as [Hs Hn].
  case_decide; [|done]. cbn zeta in E. rewrite nom_all_consuming_eq in E.
  destruct (f (take (Z.to_nat n) r')) as [[rest b]|[| |]] eqn:Ef; try done.
  destruct rest; [|done]. injection E as <- <-. split; [etrans; [apply suffix_drop|done]|].
  eapply Hf; [|done]. apply Forall_take. by eapply suffix_bytes.
Qed.

Lemma reads_sized {A} n (f : Parser A) T : reads f T → reads (NomReader.sized n f) T.
Proof.
  intros Hf i r a Hi E. unfold NomReader.sized in E. rewrite nom_map_parser_eq in E.
  destruct (nom_take _ i) as [[r' l]|] eqn:El; [|done].
  destruct (reads_take _ i r' l Hi El) as (Hs & Hl & _).
  destruct (f l) as [[r'' b]|] eqn:Ef; [|done]. injection E as <- <-.
  split; [done|]. by destruct (Hf l r'' b Hl Ef).
Qed.

Lemma reads_bounded {A} m (f : Parser A) T : reads f T → reads (NomReader.bounded m f) T.
Proof.
  intros Hf i r a Hi E. unfold NomReader.bounded in E.
  set (k := Z.min m (len i)) in *.
  destruct (f (take (Z.to_nat k) i)) as [[rest b]|[|e|e]] eqn:Ef; try done.
  - injection E as <- <-. split; [apply suffix_drop|].
    by destruct (Hf _ rest b (Forall_take _ _ _ Hi) Ef).
  - destruct e as [? [[]| | | | | | | ] ?]; done.
Qed.

(** Repetition: the elements are read one after the other. *)
Lemma reads_fold_many0 {A} (f : Parser A) T i r acc l :
  reads f T → bytes_ok i → Forall T acc →
  nom_fold_many0 f acc (λ l x, l ++ [x]) i = Ok (r, l) → r `suffix_of` i ∧ Forall T l.
Proof.
  intros Hf. remember (length i) as n eqn:En. revert i acc En.
  induction n as [n IH] using lt_wf_ind. intros i acc -> Hi Hacc E.
  destruct (f i) as [[r' a]|e] eqn:Ef.
  - destruct (Hf i r' a Hi Ef) as [Hs Ha].
    destruct (decide (length r' < length i)%nat) as [Hl|Hl].
    + erewrite nom_fold_many0_step in E by done.
      destruct (IH (length r') Hl r' (acc ++ [a])) as [Hs' Hl']; try done.
      * by eapply suffix_bytes.
      * apply Forall_app. auto.
      * split; [by etrans|done].
    + assert (r' = i) as ->.
      { destruct Hs as [k ->]. rewrite length_app in Hl. destruct k; [done|cbn in Hl; lia]. }
      by erewrite nom_fold_many0_loop in E.
  - destruct e as [|e|e].
    + by erewrite nom_fold_many0_fail in E.
    + erewrite nom_fold_many0_stop in E by done. by injection E as <- <-.
    + by erewrite nom_fold_many0_fail in E.
Qed.

Lemma reads_fold_many_m_n {A} (f : Parser A) T n i r acc l :
  reads f T → bytes_ok i → Forall T acc →
  nom_fold_many_m_n 0 n f acc (λ l x, l ++ [x]) i = Ok (r, l) → r `suffix_of` i ∧ Forall T l.
Proof.
  intros Hf. revert i acc. induction n as [|n IH]; intros i acc Hi Hacc E.
  - rewrite nom_fold_many_m_n_max in E. by injection E as <- <-.
  - rewrite nom_fold_many_m_n_eq in E. destruct (f i) as [[r' a]|[|e|e]] eqn:Ef; try done.
    + destruct (Hf i r' a Hi Ef) as [Hs Ha]. case_decide; [done|].
      destruct (IH r' (acc ++ [a])) as [Hs' Hl']; try done.
      * by eapply suffix_bytes.
      * apply Forall_app. auto.
      * split; [by etrans|done].
    + by injection E as <- <-.
Qed.

End Readers.

(** ** Derived readers *)

(** What a type promises to the readers of the types that mention it. *)
Class TypeReadLaws `{TypeEnv, TypeSpec} : Prop := {
  path_reads p : reads (path_nom_read p) (path_typed p)
}.

Section Derived.
Context `{NomLaws, BitVecLib, BigIntLib, BigIntSerde, TypeEnv, TypeSpec}.

Lemma number_reads_signed n w p (f : Z → Data) (T : Data → Prop) :
  number_spec n (to_signed w) p → w = 8 * Z.of_nat n → 0 < w →
  (∀ v, int_range w v → T (f v)) → reads (as_data f p) T.
Proof.
  intros Hp -> Hw HT. eapply (reads_as_data f p (int_range (8 * Z.of_nat n))); [|exact HT].
  eapply reads_number; [exact Hp|]. intros v Hv. change 256 with (2 ^ 8) in Hv.
  rewrite <- Z.pow_mul_r in Hv by lia. set (k := 8 * Z.of_nat n) in *.
  unfold int_range, to_signed. assert (2 ^ k = 2 * 2 ^ (k - 1)) as E.
  { rewrite <- Z.pow_succ_r by lia. f_equal. lia. }
  case_decide; lia.
Qed.

Lemma number_reads_unsigned n w p (f : Z → Data) (T : Data → Prop) :
  number_spec n id p → w = 8 * Z.of_nat n →
  (∀ v, uint_range w v → T (f v)) → reads (as_data f p) T.
Proof.
  intros Hp -> HT. eapply (reads_as_data f p (uint_range (8 * Z.of_nat n))); [|exact HT].
  eapply reads_number; [exact Hp|]. intros v Hv. change 256 with (2 ^ 8) in Hv.
  by rewrite <- Z.pow_mul_r in Hv by lia.
Qed.

Lemma boolean_reads : reads NomReader.boolean (λ _, True).
Proof.
  unfold NomReader.boolean. apply reads_alt; (eapply reads_map; [by apply reads_tag|done]).
Qed.

Lemma primitive_reads p : reads (generage_primitive_nom_read p) (primitive_typed p).
Proof.
  destruct p; cbn.
  - by apply (number_reads_signed 1 8 _ _ _ nom_i8_spec).
  - by apply (number_reads_unsigned 1 8 _ _ _ nom_u8_spec).
  - by apply (number_reads_signed 2 16 _ _ _ nom_be_i16_spec).
  - by apply (number_reads_unsigned 2 16 _ _ _ nom_be_u16_spec).
  - by apply (number_reads_signed 4 32 _ _ _ nom_be_i32_spec).
  - by apply (number_reads_signed 4 32 _ _ _ nom_be_i32_spec).
  - by apply (number_reads_unsigned 4 32 _ _ _ nom_be_u32_spec).
  - by apply (number_reads_signed 8 64 _ _ _ nom_be_i64_spec).
  - by apply (number_reads_unsigned 8 64 _ _ _ nom_be_f64_spec).
  - by apply (reads_as_data _ _ _ _ boolean_reads).
  - by apply (number_reads_signed 8 64 _ _ _ nom_be_i64_spec).
Qed.

Lemma string_reads size : reads (generate_string_nom_read size) string_typed.
Proof.
  destruct size; (eapply reads_as_data; [apply reads_string|by intros s Hs; exists s]);
    [apply bounded_size_reads|apply size_reads].
Qed.

Lemma bytes_reads : reads generate_bytes_nom_read bytes_typed.
Proof.
  intros i r d Hi E. unfold generate_bytes_nom_read, as_data, NomReader.bytes in E.
  rewrite nom_map_eq, nom_rest_eq in E. injection E as <- <-. split; [apply suffix_nil|].
  by exists i.
Qed.

Lemma optional_reads read (T : Data → Prop) :
  reads read T →
  reads (generate_optional_field_nom_read read) (λ d, d = DNone ∨ ∃ d', d = DSome d' ∧ T d').
Proof.
  intros Hr. unfold generate_optional_field_nom_read, NomReader.optional_field.
  apply (reads_as_data _ _ (λ o, match o with Some d => T d | None => True end)).
  - apply reads_alt; (eapply reads_preceded; [by apply reads_tag|]).
    + by apply reads_success.
    + by apply (reads_map _ _ T).
  - intros [d|] Ho; eauto.
Qed.

Lemma list_reads size read (T : Data → Prop) :
  reads read T → reads (generate_list_nom_read size read) (λ d, ∃ ds, d = DSeq ds ∧ Forall T ds).
Proof.
  intros Hr. destruct size as [m|]; (eapply (reads_as_data _ _ (Forall T)); [|eauto]);
    intros i r l Hi E.
  - unfold NomReader.bounded_list in E.
    destruct (nom_fold_many_m_n _ _ _ _ _ i) as [[r' l']|] eqn:Ef; [|done].
    case_decide; [done|]. injection E as <- <-.
    by apply (reads_fold_many_m_n _ _ _ _ _ _ _ Hr Hi (Forall_nil_2 _) Ef).
  - by apply (reads_fold_many0 _ _ _ _ _ _ Hr Hi (Forall_nil_2 _) E).
Qed.

Lemma dynamic_reads size read (T : Data → Prop) :
  reads read T → reads (generate_dynamic_nom_read size read) T.
Proof.
  intros Hr. destruct size; apply reads_length_value; try done;
    [apply bounded_size_reads|apply size_reads].
Qed.

Section Struct.
Variables (read : DEncoding → Parser Data) (T : DEncoding → Data → Prop) (name : string).

Lemma fields_reads fields :
  Forall (λ f, ∀ e, field_encoding f = Some e → reads (read e) (T e)) fields →
  reads (read_fields read name fields) (typed_fields T name fields).
Proof.
  induction 1 as [|f fields Hf HF IH]; intros i r vs Hi E; cbn [read_fields] in E.
  { by injection E as <- <-. }
  destruct (NomReader.field _ _ i) as [[r1 v]|] eqn:Ev; [|done].
  destruct (read_fields read name fields r1) as [[r2 vs']|] eqn:Es; [|done]. injection E as <- <-.
  set (U := λ v, match field_encoding f with
      | Some e => ∃ d, v = Some (field_name f, d) ∧ T e d
      | None => v = pair (field_name f) <$> field_default name (field_name f)
      end).
  assert (reads (generate_struct_field_nom_read read name f) U) as Hr.
  { unfold generate_struct_field_nom_read, U. destruct (field_encoding f) as [e|] eqn:Ef.
    - apply (reads_as_data _ _ (T e)); [by apply Hf|eauto].
    - intros i' r' v' _ E'. by injection E' as <- <-. }
  destruct (reads_field _ _ U Hr i r1 v Hi Ev) as [Hs1 Hv].
  destruct (IH r1 r2 vs') as [Hs2 Ht]; [by eapply suffix_bytes|done|].
  split; [by etrans|by split].
Qed.

(** The four shapes of the generated reader succeed only where the fields are read. *)
Lemma struct_read_inv fields i r d :
  generate_struct_nom_read read name fields i = Ok (r, d) →
  ∃ vs, read_fields read name fields i = Ok (r, vs) ∧ d = DStruct name (omap id vs).
Proof.
  intros E. destruct (read_fields read name fields i) as [[r' vs]|e] eqn:Er.
  - apply struct_read_ok in Er as Es. rewrite Es in E. injection E as <- <-. eauto.
  - exfalso. revert E Er. unfold generate_struct_nom_read. destruct fields as [|f [|f' fields]].
    + done.
    + unfold generate_struct_one_field_nom_read. rewrite nom_map_eq. cbn.
      unfold NomReader.field. by destruct (generate_struct_field_nom_read read name f i) as [[]|].
    + case_decide; unfold generate_struct_multi_fields_nom_read,
        generate_struct_many_fields_nom_read; intros E Er.
      * by rewrite nom_map_eq, (tuple_read_fields read name (f :: f' :: fields)), Er in E.
      * by rewrite Er in E.
Qed.

(** A field that is encoded is read first. *)
Lemma read_fields_inv n e fields i r vs :
  read_fields read name (mkFieldEncoding n (Some e) :: fields) i = Ok (r, vs) →
  ∃ r1 d vs', read e i = Ok (r1, d) ∧ read_fields read name fields r1 = Ok (r, vs') ∧
    vs = Some (n, d) :: vs'.
Proof.
  intros E. cbn [read_fields] in E.
  unfold NomReader.field, generate_struct_field_nom_read, as_data in E. cbn [field_encoding] in E.
  destruct (read e i) as [[r1 d]|]; [|done]. cbn in E.
  destruct (read_fields read name fields r1) as [[r2 vs']|] eqn:Er; [|done]. injection E as <- <-.
  eauto 10.
Qed.

Lemma struct_reads fields :
  Forall (λ f, ∀ e, field_encoding f = Some e → reads (read e) (T e)) fields →
  reads (generate_struct_nom_read read name fields)
    (λ d, ∃ vs, d = DStruct name (omap id vs) ∧ typed_fields T name fields vs).
Proof.
  intros HF i r d Hi E. apply struct_read_inv in E as (vs & Er & ->).
  destruct (fields_reads fields HF i r vs Hi Er). eauto.
Qed.

Lemma tag_reads ty : reads (tag_read ty) (λ _, True).
Proof.
  destruct ty; cbn; (eapply reads_number;
    [first [apply nom_u8_spec|apply nom_be_u16_spec|apply nom_be_u32_spec]|done]).
Qed.

Lemma variant_reads ign tag index tags :
  Forall (λ t, tag_encoding t ≠ Derive.Unit →
    reads (read (tag_encoding t)) (T (tag_encoding t))) tags →
  reads (read_variant read name ign tag index tags) (typed_tags T name index tags).
Proof.
  intros HF. revert index. induction HF as [|t tags Ht HF IH]; intros index i r d Hi E;
    cbn [read_variant] in E; [done|].
  destruct (decide (tag = get_id t)).
  - assert (r `suffix_of` i ∧ typed_tag T name index t d) as [Hs Hd]; [|by split; [|left]].
    assert (tag_encoding t = Derive.Unit ∨ tag_encoding t ≠ Derive.Unit) as [Hu|Hu]
      by (destruct (tag_encoding t); auto; right; done).
    + unfold generate_tag_nom_read, typed_tag in *. rewrite Hu in *. by injection E as <- <-.
    + rewrite newtype_read in E by done.
      apply (reads_map _ _ (T (tag_encoding t)) (typed_tag T name index t)) in E; try done.
      * by apply reads_variant, Ht.
      * intros d' Hd'. unfold typed_tag. destruct (tag_encoding t); eauto; done.
  - destruct (IH _ i r d Hi E). split; [done|by right].
Qed.

Lemma enum_reads ty ign tags :
  Forall (λ t, tag_encoding t ≠ Derive.Unit →
    reads (read (tag_encoding t)) (T (tag_encoding t))) tags →
  reads (generate_enum_nom_read read name ty ign tags) (typed_tags T name 0 tags).
Proof.
  intros HF i r d Hi E. unfold generate_enum_nom_read in E.
  destruct (tag_read ty i) as [[r' tag]|] eqn:Et; [|done].
  destruct (tag_reads ty i r' tag Hi Et) as [Hs _].
  destruct (variant_reads ign tag 0 tags HF r' r d) as [Hs' Hd]; [by eapply suffix_bytes|done|].
  split; [by etrans|done].
Qed.

End Struct.

Context `{!TypeReadLaws}.

Lemma derive_reads e : wf e = true → reads (generate_nom_read e) (typed e).
Proof.
  induction e as [|p| |p| | |sz|name fields HF|name ty ign tags HF|e IHe|sz e IHe|sz e IHe
    |sz e IHe|sz e IHe] using DEncoding_ind'; intros Hw; try done; cbn [wf] in Hw.
  - apply primitive_reads.
  - apply bytes_reads.
  - apply path_reads.
  - apply string_reads.
  - apply andb_true_iff in Hw as [_ Hfs]. rewrite forallb_forall in Hfs.
    apply struct_reads. rewrite Forall_forall in *. intros f Hin e He. apply (HF f Hin e He).
    specialize (Hfs f). rewrite He in Hfs. by apply Hfs, list_elem_of_In.
  - apply andb_true_iff in Hw as [_ Hts]. rewrite forallb_forall in Hts.
    apply enum_reads. rewrite Forall_forall in *. intros t Hin Hu. apply (HF t Hin).
    specialize (Hts t). rewrite <- list_elem_of_In in Hts. specialize (Hts Hin).
    by destruct (tag_encoding t).
  - by apply optional_reads, IHe.
  - apply andb_true_iff in Hw as [Hw _]. apply andb_true_iff in Hw as [Hw _].
    by apply list_reads, IHe.
  - by apply reads_sized, IHe.
  - by apply reads_bounded, IHe.
  - by apply dynamic_reads, IHe.
Qed.

End Derived.

(** ** Declarations, one after the other *)

Section Declare.
Context `{NomLaws, BufMut, HexLib, BitVecLib, BigIntLib, BigIntSerde}.

Lemma declare_read_laws (E : TypeEnv) (S : TypeSpec) n e :
  TypeReadLaws → wf e = true → @TypeReadLaws (declare E n e) (declare_spec E S n e).
Proof.
  intros L Hw. split. intros p; cbn. case_decide; [by apply derive_reads|apply path_reads].
Qed.

Lemma declare_all_read_laws (E : TypeEnv) (S : TypeSpec) ds :
  TypeReadLaws → wf_all E S ds = true →
  @TypeReadLaws (declare_all E ds) (declare_all_spec E S ds).
Proof.
  revert E S. induction ds as [|[n e] ds IH]; intros E S L Hw; [done|].
  cbn in Hw. apply andb_true_iff in Hw as [Hw Hws]. cbn. apply IH; [|done].
  by apply declare_read_laws.
Qed.

End Declare.
