(* ===== verification/Sizes.v ===== *)
(** The sizes of encoded values.

    [size_bounds] computes, from the schema of a declaration, the smallest and
    the largest number of bytes a value of the type can take; [sized_within]
    is what a type promises about them, and [declare_all_sizes] composes the
    promises of the types in the order of their declaration, as [declare_all]
    does for the round trip. *)

From S2P Require Import Prelude External BitUtils Hash Encoding Serializer PathCodec BinaryWriter Format NomLib NomReader Derive DeriveRoundTrip.

(** ** Intervals of sizes *)

(** The smallest size, and the largest one if there is one. *)
Definition bounds : Type := Z * option Z.

Definition exactly (n : Z) : bounds := (n, Some n).
Definition at_most (hi : option Z) (m : Z) : Z :=
  match hi with Some h => Z.min m h | None => m end.
Definition badd (a b : bounds) : bounds :=
  (a.1 + b.1, match a.2, b.2 with Some x, Some y => Some (x + y) | _, _ => None end).
Definition bjoin (a b : bounds) : bounds :=
  (Z.min a.1 b.1, match a.2, b.2 with Some x, Some y => Some (Z.max x y) | _, _ => None end).

Fixpoint bjoin_all (l : list bounds) : bounds :=
  match l with
  | [] => exactly 0
  | [b] => b
  | b :: l' => bjoin b (bjoin_all l')
  end.

Definition within (n : Z) (b : bounds) : Prop :=
  b.1 ≤ n ∧ match b.2 with Some h => n ≤ h | None => True end.

#[global] Instance within_dec n b : Decision (within n b).
Proof. unfold within. destruct b as [lo [h|]]; apply _. Defined.

Lemma within_exactly n : within n (exactly n).
Proof. split; cbn; lia. Qed.

Lemma within_add n m a b : within n a → within m b → within (n + m) (badd a b).
Proof.
  destruct a as [l1 h1], b as [l2 h2]. intros [? Ha] [? Hb].
  split; cbn in *; [lia|]. destruct h1, h2; cbn in *; try done; lia.
Qed.

Lemma within_bjoin n a b : within n a ∨ within n b → within n (bjoin a b).
Proof.
  destruct a as [l1 h1], b as [l2 h2].
  intros [[? Hn]|[? Hn]]; split; cbn in *; try lia; destruct h1, h2; cbn in *; try done; lia.
Qed.

Lemma within_bjoin_all n b l : b ∈ l → within n b → within n (bjoin_all l).
Proof.
  induction l as [|c l IH]; intros Hin Hb; [by apply not_elem_of_nil in Hin|].
  apply elem_of_cons in Hin as [-> | Hin].
  - destruct l; cbn; [done|apply within_bjoin; by left].
  - destruct l; [by apply not_elem_of_nil in Hin|]. cbn [bjoin_all].
    apply within_bjoin. right. by apply IH.
Qed.

(** ** The bounds of a schema *)

Class TypeSizes := { path_bounds : string → bounds }.

Definition primitive_size (p : PrimitiveEncoding) : Z :=
  match p with
  | Int8 | Uint8 | Bool => 1
  | Int16 | Uint16 => 2
  | Int31 | Int32 | Uint32 => 4
  | Int64 | Float | Timestamp => 8
  end.

Section Bounds.
Context `{TypeSizes}.

Fixpoint size_bounds (e : DEncoding) : bounds :=
  match e with
  | Derive.Unit => exactly 0
  | Derive.Primitive p => exactly (primitive_size p)
  | Derive.Bytes | Derive.Zarith | Derive.MuTez => (0, None)
  | Derive.Path p => path_bounds p
  | Derive.String size => (4, Some (4 + at_most size u32_max))
  | Derive.Struct _ fields =>
      foldr badd (exactly 0)
        (map (λ f, match field_encoding f with Some e => size_bounds e | None => exactly 0 end)
           fields)
  | Derive.Enum _ ty _ tags =>
      badd (exactly (size_of ty)) (bjoin_all (map (λ t, size_bounds (tag_encoding t)) tags))
  | Derive.OptionField e => (1, (λ h, Z.max 1 (1 + h)) <$> (size_bounds e).2)
  | Derive.List size e =>
      (0, match size, (size_bounds e).2 with Some m, Some h => Some (Z.max 0 (m * h)) | _, _ => None end)
  | Derive.Sized n _ => exactly n
  | Derive.Bounded m e => ((size_bounds e).1, Some (at_most (size_bounds e).2 m))
  | Derive.Dynamic size e =>
      (4 + (size_bounds e).1, Some (4 + at_most (size_bounds e).2 (at_most size u32_max)))
  end.

End Bounds.

(** ** Soundness, one combinator at a time *)

Section SizedWithin.
Context `{BufMut, HexLib, BitVecLib}.

Definition sized_within (enc : Encoding) (T : Data → Prop) (b : bounds) : Prop :=
  ∀ d v bs, T d → serialize d = Ok v → format enc v = Some bs → within (len bs) b.

Lemma primitive_sized p :
  sized_within (generage_primitive_encoding p) (primitive_typed p) (exactly (primitive_size p)).
Proof.
  intros d v bs Ht Hs Hf.
  destruct p, d; try done; cbn in Ht, Hs; try (unfold serialize_u32 in Hs; case_decide);
    injection Hs as <-; cbn -[be_bytes] in Hf; try (apply guard_opt_Some in Hf as [_ Hf]); try done;
    injection Hf as <-; apply within_exactly.
Qed.

Lemma string_sized size :
  sized_within (generate_string_encoding size) string_typed (4, Some (4 + at_most size u32_max)).
Proof.
  intros d v bs (s & -> & _ & _ & Hl) [= <-] Hf. pose proof (len_nonneg s).
  assert (len bs = 4 + len s ∧ match size with Some m => len s ≤ m | None => True end) as [-> Hm].
  { destruct size; cbn -[be_bytes] in Hf; [apply guard_opt_Some in Hf as [? Hf]|];
      (split; [|done]); assert (bs = be_bytes 4 (len s) ++ s) as -> by congruence;
      rewrite len_app, len_be_bytes; lia. }
  split; cbn; [lia|]. destruct size; cbn; lia.
Qed.

Lemma optional_sized enc T b :
  sized_within enc T b →
  sized_within (Encoding.OptionalField enc) (λ d, d = DNone ∨ ∃ d', d = DSome d' ∧ T d')
    (1, (λ h, Z.max 1 (1 + h)) <$> b.2).
Proof.
  intros IH d v bs Ht Hs Hf. destruct Ht as [-> | (d' & -> & Ht)].
  - injection Hs as <-. assert (len bs = 1) as -> by (by injection Hf as <-).
    split; cbn; [lia|]. destruct b.2; cbn; [lia|done].
  - cbn in Hs. destruct (serialize d') as [w|] eqn:Ew; [|done]. injection Hs as <-.
    cbn -[be_bytes] in Hf. destruct (format enc w) as [bs'|] eqn:Ef; [|done].
    destruct (IH d' w bs' Ht Ew Ef) as [_ Hh].
    assert (len bs = 1 + len bs') as ->
      by (assert (bs = be_bytes 1 BYTE_FIELD_SOME ++ bs') as -> by (by injection Hf);
          by rewrite len_app, len_be_bytes).
    pose proof (len_nonneg bs').
    split; cbn; [lia|]. destruct b.2; cbn; [lia|done].
Qed.

Lemma len_concat_le (bss : list bytes) h :
  Forall (λ b, len b ≤ h) bss → len (concat bss) ≤ len bss * h.
Proof.
  induction 1 as [|b bss Hb _ IH]; [done|]. cbn [concat]. rewrite len_app.
  replace (len (b :: bss)) with (1 + len bss) by (unfold len; cbn; lia). lia.
Qed.

Lemma elements_sized enc T b ds bss h :
  sized_within enc T b → b.2 = Some h → Forall T ds →
  Forall2 (λ d b, ∃ w, serialize d = Ok w ∧ format enc w = Some b) ds bss →
  Forall (λ b, len b ≤ h) bss.
Proof.
  intros IH Eh HT HF. induction HF as [|d bs ds bss (w & Hw & Hf) HF IHF]; [constructor|].
  apply Forall_cons in HT as [Hd HT]. constructor; [|auto].
  destruct (IH d w bs Hd Hw Hf) as [_ Hh]. by rewrite Eh in Hh.
Qed.

Lemma list_sized size enc (T : Data → Prop) b :
  sized_within enc T b →
  sized_within (generate_list_encoding size enc) (λ d, ∃ ds, d = DSeq ds ∧ Forall T ds)
    (0, match size, b.2 with Some m, Some h => Some (Z.max 0 (m * h)) | _, _ => None end).
Proof.
  intros IH d v bs (ds & -> & HT) Hs Hf. pose proof (len_nonneg bs). split; [done|]. cbn.
  destruct size as [m|]; [|done]. destruct b.2 as [h|] eqn:Eh; [|done].
  cbn [generate_list_encoding] in Hf.
  assert ((match v with Value.List l => @concat BinNums.Z <$> mapM (format enc) l
           | _ => None end) = Some bs) as Hf'.
  { destruct v; try done. cbn in Hf. by apply guard_opt_Some in Hf as [_ ?]. }
  destruct (list_forms enc ds v bs Hs Hf') as (bss & -> & Hlen & HF & l & -> & Hl).
  cbn in Hf. apply guard_opt_Some in Hf as [Hm _].
  pose proof (elements_sized enc T b ds bss h IH Eh HT HF) as Hh.
  pose proof (len_concat_le bss h Hh). pose proof (len_nonneg bss).
  destruct bss as [|b0 bss]; [change (len (concat [])) with 0; lia|]. apply Forall_cons in Hh as [Hb0 _].
  pose proof (len_nonneg b0). nia.
Qed.

Lemma sized_sized n enc T : sized_within (Encoding.Sized n enc) T (exactly n).
Proof.
  intros d v bs _ _ Hf. cbn in Hf. destruct (format enc v) as [b|]; [|done].
  apply guard_opt_Some in Hf as [<- [= ->]]. apply within_exactly.
Qed.

Lemma bounded_sized m enc T b :
  sized_within enc T b → sized_within (Encoding.Bounded m enc) T (b.1, Some (at_most b.2 m)).
Proof.
  intros IH d v bs Ht Hs Hf. cbn in Hf. destruct (format enc v) as [b'|] eqn:E; [|done].
  apply guard_opt_Some in Hf as [Hm [= ->]]. destruct (IH d v bs Ht Hs E) as [Hl Hh].
  split; [done|]. cbn. destruct b.2; cbn; lia.
Qed.

Lemma dynamic_sized size enc T b :
  sized_within enc T b →
  sized_within (generate_dynamic_encoding size enc) T
    (4 + b.1, Some (4 + at_most b.2 (at_most size u32_max))).
Proof.
  intros IH d v bs Ht Hs Hf.
  assert (∃ c, format enc v = Some c ∧ len bs = 4 + len c ∧ len c ≤ u32_max ∧
            match size with Some m => len c ≤ m | None => True end) as (c & Ec & -> & Hu & Hm).
  { destruct size; cbn in Hf; destruct (format enc v) as [c|]; try done; exists c; cbn -[be_bytes] in Hf;
      [apply guard_opt_Some in Hf as [Hm Hf]|]; unfold format_block in Hf; (case_decide; [|done]);
      assert (bs = be_bytes 4 (len c) ++ c) as -> by congruence; rewrite len_app, len_be_bytes;
      repeat split; try done; lia. }
  destruct (IH d v c Ht Hs Ec) as [Hl Hh].
  split; cbn; [lia|]. destruct b.2, size; cbn; lia.
Qed.

End SizedWithin.

(** ** Structures and enums *)

Section Compound.
Context `{BufMut, HexLib, BitVecLib, TypeEnv}.
Variables (gen : DEncoding → Encoding) (T : DEncoding → Data → Prop) (B : DEncoding → bounds)
  (name : string).

Definition field_bounds (f : FieldEncoding DEncoding) : bounds :=
  match field_encoding f with Some e => B e | None => exactly 0 end.

Lemma fields_sized values fields ovs bs :
  Forall (λ f, ∀ e, field_encoding f = Some e → sized_within (gen e) (T e) (B e)) fields →
  typed_fields T name fields ovs →
  (∀ n d, Some (n, d) ∈ ovs →
     ∃ v, serialize d = Ok v ∧ find_value_in_record_values n values = Some v) →
  format_fields format values (omap (generate_field_encoding gen) fields) = Some bs →
  within (len bs) (foldr badd (exactly 0) (map field_bounds fields)).
Proof.
  intros HF. revert ovs bs. induction HF as [|f fields Hf HF IH]; intros [|ov ovs] bs Ht Hv Hb;
    try done.
  { injection Hb as <-. apply within_exactly. }
  destruct Ht as [Hov Ht]. assert (∀ n d, Some (n, d) ∈ ovs →
     ∃ v, serialize d = Ok v ∧ find_value_in_record_values n values = Some v) as Hv'
    by (intros n d Hin; apply Hv; by right).
  cbn [map foldr]. unfold field_bounds at 1. cbn [omap list_omap] in Hb.
  unfold generate_field_encoding at 1 in Hb. destruct (field_encoding f) as [e|] eqn:Ee.
  - destruct Hov as (d & -> & Hd). destruct (Hv (field_name f) d) as (v & Hs & Hfind); [left|].
    cbn in Hb. rewrite Hfind in Hb. cbn in Hb.
    destruct (format (gen e) v) as [b|] eqn:Efm; [|done]. cbn in Hb.
    destruct (format_fields _ _ _) as [r|] eqn:Er in Hb; [|done].
    assert (bs = b ++ r) as -> by (by injection Hb). rewrite len_app.
    apply within_add; [by eapply Hf|by apply (IH ovs)].
  - change (len bs) with (0 + len bs). apply within_add; [apply within_exactly|by apply (IH ovs)].
Qed.

Lemma struct_sized fields :
  Forall (λ f, ∀ e, field_encoding f = Some e → sized_within (gen e) (T e) (B e)) fields →
  NoDup (map field_name fields) →
  sized_within (generate_struct_encoding gen name fields)
    (λ d, ∃ vs, d = DStruct name (omap id vs) ∧ typed_fields T name fields vs)
    (foldr badd (exactly 0) (map field_bounds fields)).
Proof.
  intros HF Hnd d v bs (ovs & -> & Ht) Hs Hf.
  destruct (serialize_struct_find T name fields ovs v Hnd Ht Hs) as (vs & -> & Hv).
  by apply (fields_sized vs fields ovs).
Qed.

Lemma enum_sized ty tags :
  Forall (λ t, tag_encoding t ≠ Derive.Unit →
     sized_within (gen (tag_encoding t)) (T (tag_encoding t)) (B (tag_encoding t))) tags →
  B Derive.Unit = exactly 0 → tags_ok ty tags = true →
  sized_within (generate_enum_encoding gen ty tags) (typed_tags T name 0 tags)
    (badd (exactly (size_of ty)) (bjoin_all (map (λ t, B (tag_encoding t)) tags))).
Proof.
  intros HF HB Hok d v bs Ht Hs Hf.
  destruct (enum_cases gen T name ty tags d v bs Hok Ht Hs Hf)
    as (k & t & b & p & Hk & _ & _ & Hb & -> & Hp). rewrite len_app.
  assert (t ∈ tags) as Hin by (by eapply list_elem_of_lookup_2).
  assert (len b = size_of ty) as ->.
  { unfold format_tag in Hb. destruct ty; cbn in Hb |- *; try done; injection Hb as <-; done. }
  apply within_add; [apply within_exactly|].
  apply (within_bjoin_all _ (B (tag_encoding t))); [by apply (list_elem_of_fmap_2 (λ t, B (tag_encoding t)))|].
  destruct Hp as [(Hu & -> & _)|(Hu & d' & w & _ & Hd & Hw & Hp)].
  - rewrite Hu, HB. apply within_exactly.
  - rewrite Forall_forall in HF. by eapply HF.
Qed.

End Compound.

(** ** Derived types *)

Class TypeSizesLaws `{BufMut, HexLib, BitVecLib, TypeEnv, TypeSpec, TypeSizes} : Prop := {
  path_sized p : sized_within (path_encoding p) (path_typed p) (path_bounds p)
}.

Section Derived.
Context `{BufMut, HexLib, BitVecLib, TypeEnv, TypeSpec, TypeSizes, BigIntSerde}.
Context `{!TypeSizesLaws}.

Lemma derive_sized e :
  wf e = true → sized_within (generate_encoding e) (typed e) (size_bounds e).
Proof.
  induction e as [|p| |p| | |sz|name fields HF|name ty ign tags HF|e IHe|sz e IHe|sz e IHe
    |sz e IHe|sz e IHe] using DEncoding_ind'; intros Hw; try done; cbn [wf] in Hw.
  - apply primitive_sized.
  - intros d v bs _ _ _. split; [apply len_nonneg|done].
  - apply path_sized.
  - apply string_sized.
  - apply andb_true_iff in Hw as [Hw Hfs]. apply andb_true_iff in Hw as [Hnd _].
    apply bool_decide_eq_true in Hnd. rewrite forallb_forall in Hfs.
    apply (struct_sized _ _ size_bounds); [|done]. rewrite Forall_forall in *.
    intros f Hin e He. apply (HF f Hin e He).
    specialize (Hfs f). rewrite He in Hfs. by apply Hfs, list_elem_of_In.
  - apply andb_true_iff in Hw as [Hok Hts]. rewrite forallb_forall in Hts.
    apply (enum_sized _ _ size_bounds); [|done|done]. rewrite Forall_forall in *. intros t Hin Hu.
    apply (HF t Hin). specialize (Hts t). rewrite <- list_elem_of_In in Hts. specialize (Hts Hin).
    by destruct (tag_encoding t).
  - by apply optional_sized, IHe.
  - apply andb_true_iff in Hw as [Hw _]. apply andb_true_iff in Hw as [Hw _].
    by apply list_sized, IHe.
  - apply sized_sized.
  - by apply bounded_sized, IHe.
  - by apply dynamic_sized, IHe.
Qed.

End Derived.

(** ** Declarations, one after the other *)

Definition declare_sizes (B : TypeSizes) (n : string) (e : DEncoding) : TypeSizes := {|
  path_bounds p := if decide (p = n) then size_bounds e else path_bounds p
|}.

Fixpoint declare_all_sizes (B : TypeSizes) (ds : list (string * DEncoding)) : TypeSizes :=
  match ds with
  | [] => B
  | (n, e) :: ds' => declare_all_sizes (declare_sizes B n e) ds'
  end.

Section Declare.
Context `{BufMut, HexLib, BitVecLib, Nom, BigIntLib, BigIntSerde}.

Lemma declare_sizes_laws (E : TypeEnv) (S : TypeSpec) (B : TypeSizes) n e :
  TypeSizesLaws → wf e = true →
  @TypeSizesLaws _ _ _ (declare E n e) (declare_spec E S n e) (declare_sizes B n e).
Proof.
  intros L Hw. split; intros p; cbn; case_decide; [by apply derive_sized|apply path_sized].
Qed.

Lemma declare_all_sizes_laws (E : TypeEnv) (S : TypeSpec) (B : TypeSizes) ds :
  TypeSizesLaws → wf_all E S ds = true →
  @TypeSizesLaws _ _ _ (declare_all E ds) (declare_all_spec E S ds) (declare_all_sizes B ds).
Proof.
  revert E S B. induction ds as [|[n e] ds IH]; intros E S B L Hw; [done|].
  cbn in Hw. apply andb_true_iff in Hw as [Hw Hws]. cbn. apply IH; [|done].
  by apply declare_sizes_laws.
Qed.

End Declare.
