(* ===== verification/Make.v ===== *)
(** * From declarations to schemas: [tezos/encoding-derive/src/make.rs],
      [tezos/encoding-derive/src/symbol.rs]

    The input is the syntax tree of the crate [syn] for a declaration with its
    [#[encoding(...)]] attributes.  The functions of [make.rs] take the
    attributes from the right end of a vector that they share ([&mut Vec<Meta>]):
    here they return the vector that is left. *)

From S2P Require Import Prelude Encoding Serializer NomLib Derive.

#[local] Set Warnings "-register-all".

(** ** Syntax trees of [syn] *)

Inductive Lit := LitStr (s : string) | LitInt (n : Z) | LitOther.

(** A path is its text; only a path of one segment equals a symbol. *)
Inductive Meta :=
| MetaPath (path : string)
| MetaNameValue (path : string) (lit : Lit)
| MetaList (path : string) (nested : list NestedMeta)
with NestedMeta :=
| NestedMetaMeta (m : Meta)
| NestedMetaLit (l : Lit).

(** The meta of an attribute is [None] if [parse_meta] fails on it. *)
Record Attribute := mkAttribute { attr_path : string; parse_meta : option Meta }.

(** A type path by the identifier of its last segment and the arguments there. *)
Inductive Ty :=
| TypePath (ident : string) (arguments : PathArguments)
| TypeOther
with PathArguments :=
| ArgsNone
| AngleBracketed (args : list GenericArgument)
| Parenthesized
with GenericArgument :=
| GenericType (ty : Ty)
| GenericOther.

Record SynField := mkSynField { f_attrs : list Attribute; f_ident : string; f_ty : Ty }.

Inductive Fields :=
| FieldsNamed (named : list SynField)
| FieldsUnnamed (unnamed : list SynField)
| FieldsUnit.

Record Variant := mkVariant { v_attrs : list Attribute; v_ident : string; v_fields : Fields }.

Inductive SynData :=
| DataStruct (fields : Fields)
| DataEnum (variants : list Variant)
| DataUnion.

Record DeriveInput := mkDeriveInput {
  di_attrs : list Attribute; di_ident : string; di_data : SynData
}.

(** ** [symbol.rs] *)

Module Symbol.
Definition BUILTIN := "builtin"%string.
Definition COMPOSITE := "composite"%string.
Definition SKIP := "skip"%string.
Definition ENCODING := "encoding"%string.
Definition BYTES := "bytes"%string.
Definition STRING := "string"%string.
Definition OPTION := "option"%string.
Definition TIMESTAMP := "timestamp"%string.
Definition SIZED := "sized"%string.
Definition LIST := "list"%string.
Definition BOUNDED := "bounded"%string.
Definition DYNAMIC := "dynamic"%string.
Definition TAGS := "tags"%string.
Definition IGNORE_UNKNOWN := "ignore_unknown"%string.
Definition TAG := "tag"%string.
Definition Z_ARITH := "zarith"%string.
Definition MU_TEZ := "mutez"%string.
End Symbol.

Definition RUST_TO_PRIMITIVE_MAPPING : list (string * PrimitiveEncoding) :=
  [("i8", Int8); ("u8", Uint8); ("i16", Int16); ("u16", Uint16); ("i32", Int32);
   ("u32", Uint32); ("i64", Int64); ("f64", Float); ("bool", Bool)]%string.

Definition get_rust_to_primitive_mapping (ident : string) : option PrimitiveEncoding :=
  snd <$> find (λ p, bool_decide (ident = p.1)) RUST_TO_PRIMITIVE_MAPPING.

(** ** Parsing the text of a parameter *)

(** [FromStr] of [PrimitiveEncoding]: the name of a variant. *)
Definition primitive_from_str (s : string) : option PrimitiveEncoding :=
  snd <$> find (λ p, bool_decide (s = p.1))
    [("Int8", Int8); ("Uint8", Uint8); ("Int16", Int16); ("Uint16", Uint16); ("Int31", Int31);
     ("Int32", Int32); ("Uint32", Uint32); ("Int64", Int64); ("Float", Float); ("Bool", Bool);
     ("Timestamp", Timestamp)]%string.

Definition tag_type_from_str (s : string) : option TagType :=
  snd <$> find (λ p, bool_decide (s = p.1))
    [("u8", TagU8); ("u16", TagU16); ("u32", TagU32)]%string.

(** An expression given as text, by its value where the declaration stands. *)
Class ExprEnv : Type := { parse_expr : string → option Z }.

(** [syn::Error], by its message. *)
Abbreviation SynResult T := (result T string).

(** ** Attributes *)

(** [Vec::pop] *)
Definition pop {A} (v : list A) : option (A * list A) :=
  match rev v with
  | [] => None
  | x :: l => Some (x, rev l)
  end.

Definition meta_path (m : Meta) : string :=
  match m with MetaPath p | MetaNameValue p _ | MetaList p _ => p end.

Definition has_attribute (meta : list Meta) (name : string) : bool :=
  match last meta with
  | Some m => bool_decide (meta_path m = name)
  | None => false
  end.

Definition get_attribute (meta : list Meta) (name : string) : option Meta * list Meta :=
  match pop meta with
  | Some (m, meta') => if decide (meta_path m = name) then (Some m, meta') else (None, meta)
  | None => (None, meta)
  end.

Definition get_value (meta : Meta) (is_default : bool) : option Lit :=
  match meta with
  | MetaPath _ => None
  | MetaNameValue _ lit => if is_default then Some lit else None
  | MetaList _ _ => None
  end.

Definition parse_value {T} (parse : string → option T) (lit : Lit) : SynResult T :=
  match lit with
  | LitStr s => ok_or (parse s) "parse error"%string
  | _ => Err "Non-string literal"%string
  end.

(** [Option<Result<T>>::transpose] *)
Definition transpose {A E} (o : option (result A E)) : result (option A) E :=
  match o with
  | Some (Ok a) => Ok (Some a)
  | Some (Err e) => Err e
  | None => Ok None
  end.

Definition get_value_parsed {T} (parse : string → option T) (meta : Meta) (is_default : bool)
    : SynResult (option T) :=
  transpose (parse_value parse <$> get_value meta is_default).

Definition get_attribute_with_option {T} (parse : string → option T) (meta : list Meta)
    (name : string) (is_default : bool) : SynResult (option (option T) * list Meta) :=
  let '(attr, meta) := get_attribute meta name in
  let? r := transpose ((λ m, get_value_parsed parse m is_default) <$> attr) in
  Ok (r, meta).

Definition get_attribute_with_param {T} (parse : string → option T) (meta : list Meta)
    (name : string) (is_default : bool) : SynResult (option T * list Meta) :=
  let '(attr, meta) := get_attribute meta name in
  let? r := transpose ((λ m, let? v := get_value_parsed parse m is_default in
                             ok_or v "Parameter is required"%string) <$> attr) in
  Ok (r, meta).

Definition get_attribute_no_param (meta : list Meta) (name : string)
    : SynResult (option () * list Meta) :=
  let '(attr, meta) := get_attribute meta name in
  let? r := transpose ((λ m, match m with
                             | MetaPath _ => Ok ()
                             | _ => Err "Parameter is unexpected"%string
                             end) <$> attr) in
  Ok (r, meta).

Definition get_attribute_value (meta : list Meta) (name : string) : option Lit * list Meta :=
  match pop meta with
  | Some (MetaNameValue p lit, meta') => if decide (p = name) then (Some lit, meta') else (None, meta)
  | Some (_, _) => (None, meta)
  | None => (None, meta)
  end.

Definition get_attribute_value_parsed {T} (parse : string → option T) (meta : list Meta)
    (name : string) : SynResult (option T * list Meta) :=
  let '(lit, meta) := get_attribute_value meta name in
  let? r := transpose (parse_value parse <$> lit) in
  Ok (r, meta).

Definition assert_empty_meta (meta : list Meta) : SynResult () :=
  match last meta with
  | Some _ => Err "Unrecognized attribute"%string
  | None => Ok ()
  end.

(** [iter.map(f).collect::<Result<Vec<_>>>()] *)
Fixpoint collect {A B E} (f : A → result B E) (l : list A) : result (list B) E :=
  match l with
  | [] => Ok []
  | x :: l' => let? y := f x in let? ys := collect f l' in Ok (y :: ys)
  end.

Definition get_encoding_meta (attrs : list Attribute) : SynResult (list Meta) :=
  match find (λ a, bool_decide (attr_path a = Symbol.ENCODING)) attrs with
  | Some attr =>
      match parse_meta attr with
      | Some (MetaList _ nested) =>
          collect (λ n, match n with
                        | NestedMetaMeta m => Ok m
                        | NestedMetaLit _ => Err "Unexpected literal"%string
                        end) nested
      | Some _ => Err "Attribute list is expected"%string
      | None => Err "parse error"%string
      end
  | None => Ok []
  end.

(** ** Schemas from types and attributes *)

Section Make.
Context `{ExprEnv}.

(** [make_bounded_encoding]: each round takes one attribute, so the length of
    the vector bounds the number of rounds, and no round is left exactly when
    the vector is empty. *)
Fixpoint make_bounded_encoding_loop (rounds : nat) (meta : list Meta) (encoding : DEncoding)
    : SynResult (DEncoding * list Meta) :=
  match rounds with
  | O => Ok (encoding, meta)
  | S rounds' =>
      let? (sized, meta) := get_attribute_with_param parse_expr meta Symbol.SIZED true in
      match sized with
      | Some size => make_bounded_encoding_loop rounds' meta (Derive.Sized size encoding)
      | None =>
          let? (bounded, meta) := get_attribute_with_param parse_expr meta Symbol.BOUNDED true in
          match bounded with
          | Some size => make_bounded_encoding_loop rounds' meta (Derive.Bounded size encoding)
          | None =>
              let? (dynamic, meta) :=
                get_attribute_with_option parse_expr meta Symbol.DYNAMIC true in
              match dynamic with
              | Some size => make_bounded_encoding_loop rounds' meta (Derive.Dynamic size encoding)
              | None => Ok (encoding, meta)
              end
          end
      end
  end.

Definition make_bounded_encoding (meta : list Meta) (encoding : DEncoding)
    : SynResult (DEncoding * list Meta) :=
  make_bounded_encoding_loop (length meta) meta encoding.

Definition make_list_encoding_from_meta (meta : list Meta) (encoding : DEncoding)
    : SynResult (DEncoding * list Meta) :=
  let? (list, meta) := get_attribute_with_option parse_expr meta Symbol.LIST true in
  match list with
  | Some param => Ok (Derive.List param encoding, meta)
  | None => Ok (encoding, meta)
  end.

Definition make_list_encoding_from_type (meta : list Meta) (encoding : DEncoding)
    : SynResult (DEncoding * list Meta) :=
  let? (bytes, meta) := get_attribute_no_param meta Symbol.BYTES in
  match bytes with
  | Some _ =>
      match encoding with
      | Derive.Primitive Uint8 => Ok (Derive.Bytes, meta)
      | _ => Err "Incompatible type for `bytes` encoding"%string
      end
  | None =>
      let? (list, meta) := get_attribute_with_option parse_expr meta Symbol.LIST true in
      match list with
      | Some param => Ok (Derive.List param encoding, meta)
      | None => Ok (Derive.List None encoding, meta)
      end
  end.

Definition make_optional_field_encoding_from_meta (meta : list Meta) (encoding : DEncoding)
    : SynResult (DEncoding * list Meta) :=
  let? (option, meta) := get_attribute_no_param meta Symbol.OPTION in
  match option with
  | Some _ => Ok (Derive.OptionField encoding, meta)
  | None => Ok (encoding, meta)
  end.

Definition make_optional_field_encoding_from_type (meta : list Meta) (encoding : DEncoding)
    : SynResult (DEncoding * list Meta) :=
  let? (_, meta) := get_attribute_no_param meta Symbol.OPTION in
  Ok (Derive.OptionField encoding, meta).

(** The first test is for [symbol::STRING], as in the source. *)
Definition get_basic_encoding_from_meta (meta : list Meta)
    : SynResult (option DEncoding * list Meta) :=
  let? (bytes, meta) := get_attribute_no_param meta Symbol.STRING in
  match bytes with
  | Some _ => Ok (Some Derive.Bytes, meta)
  | None =>
  let? (string, meta) := get_attribute_with_option parse_expr meta Symbol.STRING true in
  match string with
  | Some param => Ok (Some (Derive.String param), meta)
  | None =>
  let? (zarith, meta) := get_attribute_no_param meta Symbol.Z_ARITH in
  match zarith with
  | Some _ => Ok (Some Derive.Zarith, meta)
  | None =>
  let? (mutez, meta) := get_attribute_no_param meta Symbol.MU_TEZ in
  match mutez with
  | Some _ => Ok (Some Derive.MuTez, meta)
  | None =>
  let? (builtin, meta) := get_attribute_with_param primitive_from_str meta Symbol.BUILTIN true in
  match builtin with
  | Some param => Ok (Some (Derive.Primitive param), meta)
  | None => Ok (None, meta)
  end end end end end.

Definition make_basic_encoding_from_meta (meta : list Meta) : SynResult (DEncoding * list Meta) :=
  let? (encoding, meta) := get_basic_encoding_from_meta meta in
  let? encoding := ok_or encoding "No basic encoding specified"%string in
  Ok (encoding, meta).

Definition get_composite_meta (meta : list Meta) : SynResult (option (list Meta) * list Meta) :=
  let '(composite, meta) := get_attribute meta Symbol.COMPOSITE in
  match composite with
  | Some (MetaList _ nested) =>
      let? l := collect (λ n, match n with
                              | NestedMetaMeta m => Ok m
                              | NestedMetaLit _ => Err "Invalid nested attribute type"%string
                              end) nested in
      Ok (Some l, meta)
  | Some _ => Err "Invalid attribute type"%string
  | None => Ok (None, meta)
  end.

Definition assert_builtin_encoding (meta : list Meta) (kind : PrimitiveEncoding)
    : SynResult (list Meta) :=
  let? (builtin, meta) := get_attribute_with_param primitive_from_str meta Symbol.BUILTIN true in
  match builtin with
  | Some param =>
      if decide (kind ≠ param) then Err "Built-in encoding does not match the type"%string
      else Ok meta
  | None =>
      let '(string, meta) := get_attribute meta Symbol.STRING in
      match string with
      | Some _ => Err "String encoding can be used only with `String` type"%string
      | None => Ok meta
      end
  end.

(** The loop of [make_composite_encoding]: a round that is not the last one
    takes an attribute. *)
Fixpoint make_composite_encoding_loop (rounds : nat) (meta : list Meta) (encoding : DEncoding)
    : SynResult DEncoding :=
  match rounds with
  | O => Err "unreachable"%string
  | S rounds' =>
      let size := length meta in
      let? (encoding, meta) := make_bounded_encoding meta encoding in
      let? (encoding, meta) := make_list_encoding_from_meta meta encoding in
      let? (encoding, meta) := make_optional_field_encoding_from_meta meta encoding in
      if decide (length meta = size) then
        let? _ := assert_empty_meta meta in Ok encoding
      else make_composite_encoding_loop rounds' meta encoding
  end.

Definition make_composite_encoding (meta : list Meta) : SynResult DEncoding :=
  let? (encoding, meta) := make_basic_encoding_from_meta meta in
  make_composite_encoding_loop (S (length meta)) meta encoding.

Definition make_basic_encoding_from_type (ident : string) (meta : list Meta)
    : SynResult (DEncoding * list Meta) :=
  if decide (ident = "String"%string) then
    let? (attr, meta) := get_attribute_with_option parse_expr meta Symbol.STRING true in
    (* [string_attr.map(|param| param.param).flatten()] *)
    make_bounded_encoding meta (Derive.String (mjoin attr))
  else if decide (ident = "i64"%string ∧ has_attribute meta Symbol.TIMESTAMP = true) then
    let? (timestamp, meta) := get_attribute_no_param meta Symbol.TIMESTAMP in
    match timestamp with
    | Some _ => make_bounded_encoding meta (Derive.Primitive Timestamp)
    | None => Err "unreachable"%string
    end
  else
    match get_rust_to_primitive_mapping ident with
    | Some mapped =>
        let? meta := assert_builtin_encoding meta mapped in
        make_bounded_encoding meta (Derive.Primitive mapped)
    | None =>
        let? (builtin, meta) :=
          get_attribute_with_param primitive_from_str meta Symbol.BUILTIN true in
        match builtin with
        | Some param => make_bounded_encoding meta (Derive.Primitive param)
        | None =>
            let? (composite, meta) := get_composite_meta meta in
            match composite with
            | Some inner =>
                (* returns immediately, without the other attributes *)
                let? encoding := make_composite_encoding inner in Ok (encoding, meta)
            | None => make_bounded_encoding meta (Derive.Path ident)
            end
        end
    end.

Fixpoint make_type_encoding (ty : Ty) (meta : list Meta) : SynResult (DEncoding * list Meta) :=
  match ty with
  | TypePath ident ArgsNone => make_basic_encoding_from_type ident meta
  | TypePath ident (AngleBracketed args) =>
      match args with
      | [GenericType ty] =>
          let? (inner_encoding, meta) := make_type_encoding ty meta in
          let? (encoding, meta) :=
            (if decide (ident = "Vec"%string) then make_list_encoding_from_type meta inner_encoding
             else if decide (ident = "Option"%string) then
               make_optional_field_encoding_from_type meta inner_encoding
             else Err "Only `Vec<_>` and `Option<_>` are supported"%string) in
          make_bounded_encoding meta encoding
      | [GenericOther] => Err "Only type generic parameters supported"%string
      | _ => Err "Expected single argument"%string
      end
  | TypePath _ Parenthesized => Err "Only angle-bracketed generic arguments are supported"%string
  | TypeOther => Err "Unsupported type"%string
  end.

(** ** Fields, tags and declarations *)

Definition skip_field (meta : list Meta) : bool :=
  existsb (λ m, match m with
                | MetaPath path => bool_decide (path = Symbol.SKIP)
                | _ => false
                end) meta.

Definition make_field (field : SynField) : SynResult (FieldEncoding DEncoding) :=
  let? meta := get_encoding_meta (f_attrs field) in
  if skip_field meta then Ok (mkFieldEncoding (f_ident field) None)
  else
    let? (encoding, meta) := make_type_encoding (f_ty field) meta in
    let? (encoding, meta) := make_bounded_encoding meta encoding in
    let? _ := assert_empty_meta meta in
    Ok (mkFieldEncoding (f_ident field) (Some encoding)).

Definition make_fields (fields : list SynField) : SynResult (list (FieldEncoding DEncoding)) :=
  collect make_field fields.

Definition make_struct_encoding (data : Fields) (name : string) : SynResult DEncoding :=
  match data with
  | FieldsNamed named => let? fields := make_fields named in Ok (Derive.Struct name fields)
  | _ => Err "Only structures with named fields supported"%string
  end.

Definition make_tag (variant : Variant) (meta : list Meta) (default_id : Z)
    : SynResult (Tag DEncoding) :=
  let '(lit, meta) := get_attribute_value meta Symbol.TAG in
  let? id := match lit with
             | Some (LitInt n) => Ok n
             | Some _ => Err "Integer literal expected"%string
             | None => Ok default_id
             end in
  let? encoding :=
    match v_fields variant with
    | FieldsNamed _ => Err "Named fields are not supported for enums"%string
    | FieldsUnnamed [field] =>
        match f_ty field with
        | TypePath ident _ => Ok (Derive.Path ident)
        | TypeOther => Err "Unsupported type for enum variant"%string
        end
    | FieldsUnnamed _ => Err "Only single field is supported"%string
    | FieldsUnit => Ok Derive.Unit
    end in
  Ok (mkTag id (v_ident variant) encoding).

Fixpoint make_tags_loop (default_id : Z) (variants : list Variant)
    : SynResult (list (Tag DEncoding)) :=
  match variants with
  | [] => Ok []
  | variant :: variants' =>
      let? meta := get_encoding_meta (v_attrs variant) in
      let? tag := make_tag variant meta default_id in
      let? tags := make_tags_loop (default_id + 1) variants' in
      Ok (tag :: tags)
  end.

Definition make_tags (variants : list Variant) : SynResult (list (Tag DEncoding)) :=
  make_tags_loop 0 variants.

Definition make_enum_encoding (variants : list Variant) (name : string) (meta : list Meta)
    : SynResult (DEncoding * list Meta) :=
  let? (ignore, meta) := get_attribute_no_param meta Symbol.IGNORE_UNKNOWN in
  let ignore_unknown := match ignore with Some _ => true | None => false end in
  let? (tag_type, meta) := get_attribute_value_parsed tag_type_from_str meta Symbol.TAGS in
  let tag_type := default TagU8 tag_type in
  let? tags := make_tags variants in
  Ok (Derive.Enum name tag_type ignore_unknown tags, meta).

Definition make_data_with_encoding (data : SynData) (name : string) (meta : list Meta)
    : SynResult DataWithEncoding :=
  let? (encoding, meta) :=
    match data with
    | DataStruct fields => let? e := make_struct_encoding fields name in Ok (e, meta)
    | DataEnum variants => make_enum_encoding variants name meta
    | DataUnion => Err "`union` is not supported"%string
    end in
  let? (encoding, meta) := make_bounded_encoding meta encoding in
  let? _ := assert_empty_meta meta in
  Ok (mkDataWithEncoding name encoding).

Definition make_encoding (input : DeriveInput) : SynResult DataWithEncoding :=
  let? meta := get_encoding_meta (di_attrs input) in
  make_data_with_encoding (di_data input) (di_ident input) meta.

End Make.

(** ** Attributes are taken from the right *)

Lemma pop_snoc {A} (l : list A) x : pop (l ++ [x]) = Some (x, l).
Proof. unfold pop. rewrite rev_app_distr. cbn. by rewrite rev_involutive. Qed.

Lemma pop_inv {A} (l : list A) x l' : pop l = Some (x, l') → l = l' ++ [x].
Proof.
  destruct l as [|y l _] using rev_ind; [done|]. rewrite pop_snoc. by intros [= -> ->].
Qed.

Lemma get_attribute_len meta name o meta' :
  get_attribute meta name = (o, meta') →
  match o with
  | Some _ => length meta = S (length meta')
  | None => meta' = meta
  end.
Proof.
  unfold get_attribute. destruct (pop meta) as [[m l]|] eqn:E; [|by intros [= <- <-]].
  apply pop_inv in E as ->. case_decide; intros [= <- <-]; [|done]. rewrite length_app; cbn; lia.
Qed.

(** [r] is the result of taking an attribute: the vector gets shorter by one
    exactly if the attribute is there. *)
Definition takes_one {T} (meta : list Meta) (r : SynResult (option T * list Meta)) : Prop :=
  ∀ o meta', r = Ok (o, meta') →
    match o with
    | Some _ => length meta = S (length meta')
    | None => meta' = meta
    end.

Lemma takes_one_attribute {T} meta name (f : Meta → SynResult T) :
  takes_one meta (let '(attr, meta) := get_attribute meta name in
                  let? r := transpose (f <$> attr) in Ok (r, meta)).
Proof.
  intros o meta'. destruct (get_attribute meta name) as [[m|] l] eqn:E; cbn;
    apply get_attribute_len in E; [destruct (f m); intros [= <- <-]; done|].
  by intros [= <- <-].
Qed.

Lemma takes_one_option {T} (p : string → option T) meta name b :
  takes_one meta (get_attribute_with_option p meta name b).
Proof. apply takes_one_attribute. Qed.

Lemma takes_one_param {T} (p : string → option T) meta name b :
  takes_one meta (get_attribute_with_param p meta name b).
Proof. apply takes_one_attribute. Qed.

Lemma takes_one_no_param meta name : takes_one meta (get_attribute_no_param meta name).
Proof. apply takes_one_attribute. Qed.

(** Case analysis on an attribute that is taken, with the length of what is left. *)
Ltac take_attr Hlen :=
  match goal with
  | |- context [get_attribute_with_param ?p ?m ?n ?b] =>
      let E := fresh "E" in
      pose proof (takes_one_param p m n b) as Hlen;
      destruct (get_attribute_with_param p m n b) as [[[?|] ?]|] eqn:E;
      [specialize (Hlen _ _ eq_refl); cbn in Hlen|specialize (Hlen _ _ eq_refl); cbn in Hlen; subst|clear Hlen]
  | |- context [get_attribute_with_option ?p ?m ?n ?b] =>
      let E := fresh "E" in
      pose proof (takes_one_option p m n b) as Hlen;
      destruct (get_attribute_with_option p m n b) as [[[?|] ?]|] eqn:E;
      [specialize (Hlen _ _ eq_refl); cbn in Hlen|specialize (Hlen _ _ eq_refl); cbn in Hlen; subst|clear Hlen]
  | |- context [get_attribute_no_param ?m ?n] =>
      let E := fresh "E" in
      pose proof (takes_one_no_param m n) as Hlen;
      destruct (get_attribute_no_param m n) as [[[?|] ?]|] eqn:E;
      [specialize (Hlen _ _ eq_refl); cbn in Hlen|specialize (Hlen _ _ eq_refl); cbn in Hlen; subst|clear Hlen]
  end.

Section MakeProofs.
Context `{ExprEnv}.

Lemma get_attribute_nil name : get_attribute [] name = (None, []).
Proof. done. Qed.

Lemma make_bounded_rounds n1 n2 meta e :
  (length meta ≤ n1)%nat → (length meta ≤ n2)%nat →
  make_bounded_encoding_loop n1 meta e = make_bounded_encoding_loop n2 meta e.
Proof.
  revert n2 meta e. induction n1 as [|n1 IH]; intros n2 meta e H1 H2.
  - destruct meta; [|cbn in H1; lia]. by destruct n2.
  - destruct n2 as [|n2]; [destruct meta; [done|cbn in H2; lia]|].
    cbn [make_bounded_encoding_loop].
    take_attr L1; [apply IH; lia| |done].
    take_attr L2; [apply IH; lia| |done].
    take_attr L3; [apply IH; lia|done|done].
Qed.

Lemma make_bounded_len meta e e' meta' :
  make_bounded_encoding meta e = Ok (e', meta') → (length meta' ≤ length meta)%nat.
Proof.
  unfold make_bounded_encoding. generalize (length meta) at 1 as n. intros n.
  revert meta e. induction n as [|n IH]; intros meta e; cbn; [by intros [= <- <-]|].
  take_attr L1; [intros E'; apply IH in E'; lia| |done].
  take_attr L2; [intros E'; apply IH in E'; lia| |done].
  take_attr L3; [intros E'; apply IH in E'; lia|by intros [= <- <-]|done].
Qed.

Lemma make_list_len meta e e' meta' :
  make_list_encoding_from_meta meta e = Ok (e', meta') → (length meta' ≤ length meta)%nat.
Proof.
  unfold make_list_encoding_from_meta.
  take_attr L; [intros [= <- <-]; lia|by intros [= <- <-]|done].
Qed.

Lemma make_optional_len meta e e' meta' :
  make_optional_field_encoding_from_meta meta e = Ok (e', meta') →
  (length meta' ≤ length meta)%nat.
Proof.
  unfold make_optional_field_encoding_from_meta.
  take_attr L; [intros [= <- <-]; lia|by intros [= <- <-]|done].
Qed.

Lemma make_composite_rounds n1 n2 meta e :
  (length meta < n1)%nat → (length meta < n2)%nat →
  make_composite_encoding_loop n1 meta e = make_composite_encoding_loop n2 meta e.
Proof.
  revert n2 meta e. induction n1 as [|n1 IH]; intros [|n2] meta e H1 H2; try lia.
  cbn [make_composite_encoding_loop].
  destruct (make_bounded_encoding meta e) as [[e1 m1]|] eqn:E1; [|done].
  destruct (make_list_encoding_from_meta m1 e1) as [[e2 m2]|] eqn:E2; [|done].
  destruct (make_optional_field_encoding_from_meta m2 e2) as [[e3 m3]|] eqn:E3; [|done].
  apply make_bounded_len in E1. apply make_list_len in E2. apply make_optional_len in E3.
  case_decide; [done|]. apply IH; lia.
Qed.

(** *** Which schemas [make_encoding] gives *)

(** [Unit] occurs as the payload of a tag only: the readers that the macro
    refuses to generate ([unreachable!()]) are not asked for. *)
Fixpoint no_unit (e : DEncoding) : bool :=
  match e with
  | Derive.Unit => false
  | Derive.Primitive _ | Derive.Bytes | Derive.Path _ | Derive.Zarith | Derive.MuTez
  | Derive.String _ => true
  | Derive.Struct _ fields =>
      forallb (λ f, match field_encoding f with Some e => no_unit e | None => true end) fields
  | Derive.Enum _ _ _ tags =>
      forallb (λ t, match tag_encoding t with Derive.Unit | Derive.Path _ => true | _ => false end)
        tags
  | Derive.OptionField e | Derive.List _ e | Derive.Sized _ e | Derive.Bounded _ e
  | Derive.Dynamic _ e => no_unit e
  end.

Lemma make_bounded_no_unit meta e e' meta' :
  make_bounded_encoding meta e = Ok (e', meta') → no_unit e = true → no_unit e' = true.
Proof.
  unfold make_bounded_encoding. generalize (length meta) at 1 as n. intros n.
  revert meta e. induction n as [|n IH]; intros meta e; cbn; [by intros [= <- <-]|].
  take_attr L1; [intros; by eapply IH| |done].
  take_attr L2; [intros; by eapply IH| |done].
  take_attr L3; [intros; by eapply IH|by intros [= <- <-]|done].
Qed.

Lemma make_composite_no_unit meta e :
  make_composite_encoding meta = Ok e → no_unit e = true.
Proof.
  unfold make_composite_encoding.
  destruct (make_basic_encoding_from_meta meta) as [[e0 m0]|] eqn:E0; [|done].
  assert (no_unit e0 = true) as H0.
  { unfold make_basic_encoding_from_meta in E0.
    destruct (get_basic_encoding_from_meta meta) as [[[b|] ?]|] eqn:E; try done.
    cbn in E0. injection E0 as <- <-. revert E. unfold get_basic_encoding_from_meta.
    take_attr L1; [by intros [= <- <-]| |done]. take_attr L2; [by intros [= <- <-]| |done].
    take_attr L3; [by intros [= <- <-]| |done]. take_attr L4; [by intros [= <- <-]| |done].
    take_attr L5; [by intros [= <- <-]|done|done]. }
  generalize (S (length m0)) as n. intros n. clear E0. revert m0 e0 H0.
  induction n as [|n IH]; intros m0 e0 H0; cbn; [done|].
  destruct (make_bounded_encoding m0 e0) as [[e1 m1]|] eqn:E1; [|done].
  apply make_bounded_no_unit in E1; [|done].
  destruct (make_list_encoding_from_meta m1 e1) as [[e2 m2]|] eqn:E2; [|done].
  assert (no_unit e2 = true) as H2.
  { revert E2. unfold make_list_encoding_from_meta.
    take_attr L; [by intros [= <- <-]|by intros [= <- <-]|done]. }
  destruct (make_optional_field_encoding_from_meta m2 e2) as [[e3 m3]|] eqn:E3; [|done].
  assert (no_unit e3 = true) as H3.
  { revert E3. unfold make_optional_field_encoding_from_meta.
    take_attr L; [by intros [= <- <-]|by intros [= <- <-]|done]. }
  case_decide; [destruct (assert_empty_meta m3); by intros [= <-]|]. intros E. by eapply IH.
Qed.

Lemma make_basic_no_unit ident meta e meta' :
  make_basic_encoding_from_type ident meta = Ok (e, meta') → no_unit e = true.
Proof.
  unfold make_basic_encoding_from_type. case_decide.
  { take_attr L; [| |done]; intros E'; by apply make_bounded_no_unit in E'. }
  case_decide.
  { take_attr L; [|done|done]. intros E'; by apply make_bounded_no_unit in E'. }
  destruct (get_rust_to_primitive_mapping ident).
  { destruct (assert_builtin_encoding meta p); [|done].
    intros E'; by apply make_bounded_no_unit in E'. }
  take_attr L; [intros E'; by apply make_bounded_no_unit in E'| |done].
  destruct (get_composite_meta meta) as [[[inner|] m]|]; [| |done].
  - destruct (make_composite_encoding inner) eqn:Ec; [|done]. intros [= <- <-].
    by apply make_composite_no_unit in Ec.
  - intros E'; by apply make_bounded_no_unit in E'.
Qed.

Lemma make_type_no_unit ty meta e meta' :
  make_type_encoding ty meta = Ok (e, meta') → no_unit e = true.
Proof.
  revert ty meta e meta'. fix IH 1. intros [ident [|[|[ty|] [|]]|]|] meta e meta'; try done.
  - apply make_basic_no_unit.
  - cbn. destruct (make_type_encoding ty meta) as [[e0 m0]|] eqn:E0; [|done]. apply IH in E0.
    case_decide; [|case_decide; [|done]].
    + destruct (make_list_encoding_from_type m0 e0) as [[e1 m1]|] eqn:E1; [|done].
      intros E'; apply make_bounded_no_unit in E'; [done|]. revert E1.
      unfold make_list_encoding_from_type.
      take_attr L1; [destruct e0 as [|[]| | | | | | | | | | | |]; try done; by intros [= <- <-]| |done].
      take_attr L2; [by intros [= <- <-]|by intros [= <- <-]|done].
    + destruct (make_optional_field_encoding_from_type m0 e0) as [[e1 m1]|] eqn:E1; [|done].
      intros E'; apply make_bounded_no_unit in E'; [done|]. revert E1.
      unfold make_optional_field_encoding_from_type.
      take_attr L1; [by intros [= <- <-]|by intros [= <- <-]|done].
Qed.

Lemma make_field_no_unit f fe :
  make_field f = Ok fe →
  match field_encoding fe with Some e => no_unit e | None => true end = true.
Proof.
  unfold make_field. destruct (get_encoding_meta (f_attrs f)) as [m|]; [|done].
  destruct (skip_field m); [by intros [= <-]|].
  destruct (make_type_encoding (f_ty f) m) as [[e1 m1]|] eqn:E1; [|done].
  apply make_type_no_unit in E1.
  destruct (make_bounded_encoding m1 e1) as [[e2 m2]|] eqn:E2; [|done].
  apply make_bounded_no_unit in E2; [|done].
  destruct (assert_empty_meta m2); [|done]. by intros [= <-].
Qed.

Lemma collect_forall {A B E} (f : A → result B E) (P : B → Prop) l ys :
  (∀ x y, f x = Ok y → P y) → collect f l = Ok ys → Forall P ys.
Proof.
  intros Hf. revert ys. induction l as [|x l IH]; intros ys; cbn; [by intros [= <-]|].
  destruct (f x) eqn:Ex; [|done]. destruct (collect f l); [|done]. intros [= <-].
  constructor; [by eapply Hf|by apply IH].
Qed.

Lemma make_tags_payload d variants tags :
  make_tags_loop d variants = Ok tags →
  Forall (λ t, match tag_encoding t with Derive.Unit | Derive.Path _ => true | _ => false end = true)
    tags.
Proof.
  revert d tags. induction variants as [|v vs IH]; intros d tags; cbn; [by intros [= <-]|].
  destruct (get_encoding_meta (v_attrs v)) as [m|]; [|done].
  destruct (make_tag v m d) as [t|] eqn:Et; [|done].
  destruct (make_tags_loop (d + 1) vs) eqn:Ev; [|done]. intros [= <-].
  constructor; [|by eapply IH]. revert Et. unfold make_tag.
  destruct (get_attribute_value m Symbol.TAG) as [lit m'].
  destruct (match lit with Some (LitInt n) => _ | _ => _ end) as [n|]; [|done].
  destruct (v_fields v) as [|[|f [|? ?]]|]; try done; [|by intros [= <-]].
  destruct (f_ty f); [by intros [= <-]|done].
Qed.

(** The schemas that [make_encoding] computes never ask the code generator
    for something it refuses: [Encoding::Unit], on which [generate_nom_read]
    hits [unreachable!()], occurs as the payload of an enum tag only. *)
Theorem make_encoding_no_unit input d :
  make_encoding input = Ok d → no_unit (data_encoding d) = true.
Proof.
  unfold make_encoding. destruct (get_encoding_meta (di_attrs input)) as [m|]; [|done].
  unfold make_data_with_encoding. intros E.
  destruct (match di_data input with
            | DataStruct fields =>
                let? e := make_struct_encoding fields (di_ident input) in Ok (e, m)
            | DataEnum variants => make_enum_encoding variants (di_ident input) m
            | DataUnion => Err "`union` is not supported"%string
            end) as [[e0 m0]|] eqn:E0; [|done].
  destruct (make_bounded_encoding m0 e0) as [[e1 m1]|] eqn:E1; [|done].
  destruct (assert_empty_meta m1); [|done]. injection E as <-. cbn.
  apply make_bounded_no_unit in E1; [done|].
  destruct (di_data input) as [fields|variants|]; [| |done].
  - unfold make_struct_encoding in E0. destruct fields as [named| |]; try done.
    destruct (make_fields named) as [fs|] eqn:Ef; [|done]. injection E0 as <- _. cbn.
    rewrite forallb_forall. intros f Hf.
    pose proof (collect_forall _ _ _ _ make_field_no_unit Ef) as HF.
    rewrite Forall_forall in HF. by apply HF, list_elem_of_In.
  - unfold make_enum_encoding in E0. revert E0.
    take_attr L; [| |done];
      destruct (get_attribute_value_parsed tag_type_from_str _ _) as [[ty m2]|]; try done;
      destruct (make_tags variants) as [tags|] eqn:Et; try done; intros [= <- _]; cbn;
      apply make_tags_payload in Et; rewrite Forall_forall in Et;
      rewrite forallb_forall; intros t Ht; by apply Et, list_elem_of_In.
Qed.

(** The loops over the attributes end: more rounds than there are
    attributes do not change what [make_bounded_encoding] and
    [make_composite_encoding] compute. *)
Theorem make_rounds_enough k meta e :
  make_bounded_encoding_loop (length meta + k) meta e = make_bounded_encoding meta e ∧
  make_composite_encoding_loop (S (length meta) + k) meta e
  = make_composite_encoding_loop (S (length meta)) meta e.
Proof. split; [apply make_bounded_rounds|apply make_composite_rounds]; lia. Qed.

(** *** The order of the attributes *)

Inductive Wrap :=
| WSized (text : string) (n : Z)
| WBounded (text : string) (n : Z)
| WDynamic
| WDynamicMax (text : string) (n : Z).

Definition wrap_meta (w : Wrap) : Meta :=
  match w with
  | WSized s _ => MetaNameValue Symbol.SIZED (LitStr s)
  | WBounded s _ => MetaNameValue Symbol.BOUNDED (LitStr s)
  | WDynamic => MetaPath Symbol.DYNAMIC
  | WDynamicMax s _ => MetaNameValue Symbol.DYNAMIC (LitStr s)
  end.

Definition wrap_ok (w : Wrap) : Prop :=
  match w with
  | WSized s n | WBounded s n | WDynamicMax s n => parse_expr s = Some n
  | WDynamic => True
  end.

Definition wrap (w : Wrap) (e : DEncoding) : DEncoding :=
  match w with
  | WSized _ n => Derive.Sized n e
  | WBounded _ n => Derive.Bounded n e
  | WDynamic => Derive.Dynamic None e
  | WDynamicMax _ n => Derive.Dynamic (Some n) e
  end.

Lemma get_attribute_snoc meta m name :
  get_attribute (meta ++ [m]) name =
  if decide (meta_path m = name) then (Some m, meta) else (None, meta ++ [m]).
Proof. unfold get_attribute. by rewrite pop_snoc. Qed.

Ltac attr_step :=
  repeat first
    [ rewrite get_attribute_snoc
    | rewrite decide_True by done
    | rewrite decide_False by done
    | progress cbn [meta_path wrap_meta wrap_ok fmap option_fmap option_map get_value_parsed get_value
                    parse_value transpose ok_or] ].

Lemma make_bounded_step n meta w e :
  wrap_ok w →
  make_bounded_encoding_loop (S n) (meta ++ [wrap_meta w]) e
  = make_bounded_encoding_loop n meta (wrap w e).
Proof.
  intros Hw. cbn [make_bounded_encoding_loop].
  unfold get_attribute_with_param, get_attribute_with_option, get_value_parsed.
  destruct w; cbn in Hw; attr_step; try rewrite Hw; done.
Qed.

(** The attributes [sized], [bounded] and [dynamic] are applied from right
    to left, the rightmost one innermost, and an attribute of another kind
    stops the process and is kept. *)
Theorem make_bounded_order meta ws e :
  Forall wrap_ok ws →
  match last meta with
  | Some m => meta_path m ∉ [Symbol.SIZED; Symbol.BOUNDED; Symbol.DYNAMIC]
  | None => True
  end →
  make_bounded_encoding (meta ++ map wrap_meta ws) e = Ok (foldr wrap e ws, meta).
Proof.
  intros Hws Hm. unfold make_bounded_encoding. rewrite length_app, length_map.
  revert e. induction ws as [|w ws IH] using rev_ind; intros e.
  - cbn [map app length foldr]. rewrite app_nil_r. destruct meta as [|m meta _] using rev_ind; [done|].
    rewrite last_snoc in Hm. rewrite !not_elem_of_cons in Hm. destruct Hm as (H1 & H2 & H3 & _).
    rewrite length_app. cbn [length].
    replace (length meta + 1 + 0)%nat with (S (length meta)) by lia.
    cbn [make_bounded_encoding_loop].
    unfold get_attribute_with_param, get_attribute_with_option.
    attr_step. done.
  - apply Forall_app in Hws as [Hws Hw]. apply Forall_cons in Hw as [Hw _].
    rewrite map_app, length_app, app_assoc. cbn [map length].
    replace (length meta + (length ws + 1))%nat with (S (length meta + length ws)) by lia.
    rewrite make_bounded_step, IH by done. by rewrite foldr_app.
Qed.

(** Inside [composite(...)] the basic encoding [string] gives the encoding
    of bytes, [string] with a parameter is refused, and [bytes] is not
    recognized: the branch for bytes tests the symbol [STRING]. *)
Theorem composite_string_is_bytes meta lit :
  get_basic_encoding_from_meta (meta ++ [MetaPath Symbol.STRING]) = Ok (Some Derive.Bytes, meta) ∧
  get_basic_encoding_from_meta (meta ++ [MetaNameValue Symbol.STRING lit])
    = Err "Parameter is unexpected"%string ∧
  get_basic_encoding_from_meta (meta ++ [MetaPath Symbol.BYTES])
    = Ok (None, meta ++ [MetaPath Symbol.BYTES]).
Proof.
  unfold get_basic_encoding_from_meta, get_attribute_no_param, get_attribute_with_option,
    get_attribute_with_param.
  split; [|split]; attr_step; done.
Qed.

End MakeProofs.

Module MakeWitnesses.

#[local] Instance numerals : ExprEnv := {|
  parse_expr s := if decide (s = "10"%string) then Some 10 else None
|}.

(** [#[encoding(bounded = "10")] struct Pair { a: u8, #[encoding(dynamic, list)] b: Vec<u16> }] *)
Definition example : DeriveInput :=
  mkDeriveInput
    [mkAttribute "encoding"
       (Some (MetaList "encoding" [NestedMetaMeta (MetaNameValue "bounded" (LitStr "10"))]))]
    "Pair"
    (DataStruct (FieldsNamed
       [mkSynField [] "a" (TypePath "u8" ArgsNone);
        mkSynField
          [mkAttribute "encoding"
             (Some (MetaList "encoding" [NestedMetaMeta (MetaPath "dynamic"); NestedMetaMeta (MetaPath "list")]))]
          "b" (TypePath "Vec" (AngleBracketed [GenericType (TypePath "u16" ArgsNone)]))])).

Lemma make_encoding_no_unit_witness :
  ∃ d, make_encoding example = Ok d ∧ no_unit (data_encoding d) = true.
Proof.
  eexists. split; [vm_compute; reflexivity|].
  apply (make_encoding_no_unit example). vm_compute. reflexivity.
Defined.

Lemma make_bounded_order_witness :
  make_bounded_encoding [MetaPath "list"; MetaNameValue "bounded" (LitStr "10"); MetaPath "dynamic"]
    Derive.Bytes
  = Ok (Derive.Bounded 10 (Derive.Dynamic None Derive.Bytes), [MetaPath "list"]).
Proof.
  apply (make_bounded_order [MetaPath "list"] [WBounded "10" 10; WDynamic] Derive.Bytes).
  - repeat constructor.
  - cbn. apply (bool_decide_unpack _). vm_compute. done.
Defined.

End MakeWitnesses.
