(* ===== verification/Crypto.v ===== *)
(** * Nonces, proof of work and sealed boxes: [crypto/src/blake2b.rs],
      [crypto/src/nonce.rs], [crypto/src/crypto_box.rs],
      [crypto/src/proof_of_work.rs]

    The cryptographic primitives of [sodiumoxide] (Blake2b, boxes) and the
    conversions of [num_bigint] are parameters.  A [BigUint] is a [Z] that is
    not negative. *)

From S2P Require Import Prelude.

(** ** Parameters *)

(** [num_bigint::BigUint] *)
Class BigUintLib : Type := {
  from_bytes_be : bytes → Z;
  from_bytes_le : bytes → Z;
  to_bytes_be : Z → bytes
}.

Class BigUintLaws `{BigUintLib} : Prop := {
  from_bytes_be_val l : from_bytes_be l = be_val l;
  from_bytes_le_val l : from_bytes_le l = be_val (rev l);
  to_bytes_be_ok v : bytes_ok (to_bytes_be v);
  to_bytes_be_val v : 0 ≤ v → be_val (to_bytes_be v) = v;
  (** no leading zero, but [0] itself is one byte *)
  to_bytes_be_zero : to_bytes_be 0 = [0];
  to_bytes_be_head v : 0 < v → ∃ b l, to_bytes_be v = b :: l ∧ b ≠ 0
}.

(** [sodiumoxide::crypto::generichash] *)
Class GenericHash : Type := {
  gh_state : Type;
  gh_new : Z → option gh_state;
  gh_update : gh_state → bytes → option gh_state;
  gh_finalize : gh_state → option bytes
}.

Class GenericHashLaws `{GenericHash} : Prop := {
  gh_new_spec n : is_Some (gh_new n) ↔ 16 ≤ n ≤ 64;
  gh_digest_spec n s d : gh_new n = Some s →
    ∃ s' h, gh_update s d = Some s' ∧ gh_finalize s' = Some h ∧ len h = n ∧ bytes_ok h
}.

(** [sodiumoxide::crypto::box_] *)
Class CryptoBox : Type := {
  box_key : Type;
  seal_precomputed : bytes → bytes → box_key → bytes;
  open_precomputed : bytes → bytes → box_key → option bytes;
  box_precompute : bytes → bytes → box_key;
  box_public : bytes → bytes
}.

(** A sealed message is 16 bytes longer; opening inverts sealing; the two
    sides of a connection compute the same key. *)
Class CryptoBoxLaws `{CryptoBox} : Prop := {
  seal_length m n k : len (seal_precomputed m n k) = len m + 16;
  seal_bytes m n k : bytes_ok m → bytes_ok (seal_precomputed m n k);
  open_seal m n k : open_precomputed (seal_precomputed m n k) n k = Some m;
  precompute_agree sk1 sk2 :
    box_precompute (box_public sk1) sk2 = box_precompute (box_public sk2) sk1
}.

(** ** [blake2b.rs] *)

Inductive Blake2bError := InvalidLenght | Other.

Section Blake2b.
Context `{GenericHash}.

Definition digest (data : bytes) (out_len : Z) : result bytes Blake2bError :=
  let? hasher := ok_or (gh_new out_len) InvalidLenght in
  let? hasher := ok_or (gh_update hasher data) Other in
  ok_or (gh_finalize hasher) Other.

Definition digest_256 (data : bytes) : result bytes Blake2bError := digest data 32.
Definition digest_160 (data : bytes) : result bytes Blake2bError := digest data 20.
Definition digest_128 (data : bytes) : result bytes Blake2bError := digest data 16.

Context `{!GenericHashLaws}.

Lemma digest_ok data n : 16 ≤ n ≤ 64 → ∃ h, digest data n = Ok h ∧ len h = n ∧ bytes_ok h.
Proof.
  intros Hn. apply gh_new_spec in Hn as [s Hs].
  destruct (gh_digest_spec n s data Hs) as (s' & h & E1 & E2 & Hl & Hb).
  exists h. unfold digest. rewrite Hs. cbn. rewrite E1. cbn. by rewrite E2.
Qed.

End Blake2b.

(** ** [nonce.rs] *)

Definition NONCE_SIZE : Z := 24.

(** [CryptoError] *)
Inductive CryptoError :=
| InvalidKeySize (expected actual : Z)
| InvalidNonceSize (expected actual : Z)
| FailedToDecrypt.

Record Nonce := mkNonce { nonce_value : Z }.

(** [b"Init -> Resp"] and [b"Resp -> Init"] *)
Definition INIT_TO_RESP_SEED : bytes := [73; 110; 105; 116; 32; 45; 62; 32; 82; 101; 115; 112].
Definition RESP_TO_INIT_SEED : bytes := [82; 101; 115; 112; 32; 45; 62; 32; 73; 110; 105; 116].

Record NoncePair := mkNoncePair { local : Nonce; remote : Nonce }.

Section Nonce.
Context `{BigUintLib}.

Definition nonce_new (bytes : bytes) : Nonce := mkNonce (from_bytes_be bytes).

Definition increment (self : Nonce) : Nonce := mkNonce (nonce_value self + 1).

Definition get_bytes (self : Nonce) : result bytes CryptoError :=
  let bytes := to_bytes_be (nonce_value self) in
  let? bytes_with_correct_size :=
    match len bytes ?= NONCE_SIZE with
    | Eq => Ok bytes
    | Lt => Ok (replicate (Z.to_nat (NONCE_SIZE - len bytes)) 0 ++ bytes)
    | Gt => Err (InvalidNonceSize NONCE_SIZE (len bytes))
    end in
  if decide (len bytes_with_correct_size ≠ NONCE_SIZE) then
    Err (InvalidNonceSize NONCE_SIZE (len bytes_with_correct_size))
  else Ok bytes_with_correct_size.

Context `{GenericHash}.

(** [[0..NONCE_SIZE]] panics on a shorter digest; there is none ([digest_ok]). *)
Definition generate_nonces (sent_msg recv_msg : bytes) (incoming : bool)
    : result NoncePair Blake2bError :=
  let '(init_msg, resp_msg) :=
    if incoming then (recv_msg, sent_msg) else (sent_msg, recv_msg) in
  let? d1 := digest_256 (init_msg ++ resp_msg ++ INIT_TO_RESP_SEED) in
  let nonce_init_to_resp := take (Z.to_nat NONCE_SIZE) d1 in
  let? d2 := digest_256 (init_msg ++ resp_msg ++ RESP_TO_INIT_SEED) in
  let nonce_resp_to_init := take (Z.to_nat NONCE_SIZE) d2 in
  Ok (if incoming then
        mkNoncePair (nonce_new nonce_init_to_resp) (nonce_new nonce_resp_to_init)
      else mkNoncePair (nonce_new nonce_resp_to_init) (nonce_new nonce_init_to_resp)).

End Nonce.

(** ** [crypto_box.rs] *)

Definition BOX_ZERO_BYTES : Z := 32.
Definition CRYPTO_KEY_SIZE : Z := 32.

Definition ensure_crypto_key_bytes (buf : bytes) : result bytes CryptoError :=
  if decide (len buf ≠ CRYPTO_KEY_SIZE) then Err (InvalidKeySize CRYPTO_KEY_SIZE (len buf))
  else Ok buf.

Section CryptoBox.
Context `{BigUintLib, CryptoBox}.

Definition precompute (pk sk : bytes) : box_key := box_precompute pk sk.

Definition encrypt (self : box_key) (msg : bytes) (nonce : Nonce) : result bytes CryptoError :=
  let? box_nonce := get_bytes nonce in
  Ok (seal_precomputed msg box_nonce self).

Definition decrypt (self : box_key) (enc : bytes) (nonce : Nonce) : result bytes CryptoError :=
  let? box_nonce := get_bytes nonce in
  match open_precomputed enc box_nonce self with
  | Some msg => Ok msg
  | None => Err FailedToDecrypt
  end.

End CryptoBox.

(** ** [proof_of_work.rs]

    [make_target] turns a floating point difficulty into the largest accepted
    hash; it is the argument [target_number] here. *)

Definition POW_SIZE : Z := NONCE_SIZE.
Definition u64_max : Z := 2 ^ 64 - 1.

Inductive PowError := CheckFailed | Blake2b (e : Blake2bError).

(** [u64::from_be_bytes(data[i..i + 8])] and the assignment of [v.to_be_bytes()] to it *)
Definition get_u64 (data : bytes) (i : nat) : Z := be_val (take 8 (drop i data)).
Definition put_u64_at (data : bytes) (i : nat) (v : Z) : bytes :=
  take i data ++ be_bytes 8 v ++ drop (i + 8) data.

(** The branch of the loop of [generate] that goes to the next candidate. *)
Definition next_candidate (data : bytes) : bytes :=
  let c := get_u64 data 48 in
  if decide (c = u64_max) then
    let b := get_u64 data 40 in
    let '(data, b, c) :=
      if decide (b = u64_max) then
        let a := get_u64 data 32 in
        let '(a, b, c) := if decide (a = u64_max) then (0, 0, 0) else (a + 1, 0, 0) in
        (put_u64_at data 32 a, b, c)
      else (data, b + 1, 0) in
    let data := put_u64_at data 40 b in
    put_u64_at data 48 c
  else put_u64_at data 48 (c + 1).

Section ProofOfWork.
Context `{GenericHash, BigUintLib}.

Definition check_proof_of_work_inner (data : bytes) (target_number : Z) : result () PowError :=
  let? hash := map_err Blake2b (digest_256 data) in
  let hash_number := from_bytes_le hash in
  if decide (hash_number ≤ target_number) then Ok () else Err CheckFailed.

Fixpoint generate_loop (rounds : nat) (data : bytes) (target_number : Z) : option bytes :=
  match rounds with
  | O => None
  | S rounds' =>
      match check_proof_of_work_inner data target_number with
      | Ok _ => Some (drop (Z.to_nat CRYPTO_KEY_SIZE) data)
      | Err _ => generate_loop rounds' (next_candidate data) target_number
      end
  end.

(** [ProofOfWork::generate]; [random] is what [randombytes] returns. *)
Definition generate (rounds : nat) (public_key random : bytes) (target_number : Z) : option bytes :=
  generate_loop rounds (public_key ++ random) target_number.

(** [ProofOfWork::check] *)
Definition check (self pk : bytes) (target_number : Z) : result () PowError :=
  check_proof_of_work_inner (pk ++ self) target_number.

End ProofOfWork.

(** ** Theorems on nonces *)

Section NonceTheorems.
Context `{BigUintLaws}.

Lemma be_bytes_small n m v :
  (m ≤ n)%nat → 0 ≤ v < 256 ^ Z.of_nat m →
  be_bytes n v = replicate (n - m) 0 ++ be_bytes m v.
Proof.
  intros Hm Hv. induction n as [|n IH]; [by replace m with 0%nat by lia|].
  destruct (decide (m = S n)) as [->|Hne]; [by rewrite Nat.sub_diag|].
  cbn [be_bytes]. rewrite IH by lia. replace (S n - m)%nat with (S (n - m)) by lia. cbn [replicate].
  rewrite Z.div_small; [done|]. split; [lia|]. eapply Z.lt_le_trans; [apply Hv|].
  apply Z.pow_le_mono_r; lia.
Qed.

Lemma to_bytes_be_bound v : 0 < v → 256 ^ (len (to_bytes_be v) - 1) ≤ v < 256 ^ len (to_bytes_be v).
Proof.
  intros Hv. pose proof (to_bytes_be_val v ltac:(lia)) as E. pose proof (to_bytes_be_ok v) as Hok.
  pose proof (be_val_bound _ Hok) as Hb. rewrite E in Hb.
  destruct (to_bytes_be_head v Hv) as (b & l & El & Hne). rewrite El in *.
  split; [|lia]. rewrite be_val_cons in E. rewrite len_cons.
  replace (1 + len l - 1) with (len l) by lia.
  apply Forall_cons in Hok as [Hbb Hl]. pose proof (be_val_bound l Hl).
  unfold is_byte in Hbb. pose proof (pow256_pos (length l)). unfold len in *. nia.
Qed.

Lemma to_bytes_be_len v : 0 ≤ v → 1 ≤ len (to_bytes_be v) ∧ (v < 256 ^ 24 ↔ len (to_bytes_be v) ≤ 24).
Proof.
  intros Hv. destruct (decide (v = 0)) as [->|Hne]; [by rewrite to_bytes_be_zero|].
  pose proof (to_bytes_be_bound v ltac:(lia)) as [Hl Hh].
  destruct (to_bytes_be_head v ltac:(lia)) as (b & l & El & _). rewrite El in *.
  rewrite len_cons in *. pose proof (len_nonneg l). split; [lia|]. split; intros Hc.
  - destruct (decide (1 + len l ≤ 24)); [done|].
    assert (256 ^ 24 ≤ 256 ^ (1 + len l - 1)) by (apply Z.pow_le_mono_r; lia). lia.
  - eapply Z.lt_le_trans; [apply Hh|]. apply Z.pow_le_mono_r; lia.
Qed.

Lemma get_bytes_ok v : 0 ≤ v < 2 ^ 192 → get_bytes (mkNonce v) = Ok (be_bytes 24 v).
Proof.
  intros Hv. change (2 ^ 192) with (256 ^ 24) in Hv.
  destruct (to_bytes_be_len v ltac:(lia)) as [H1' Hlen]. destruct Hlen as [Hlen _].
  specialize (Hlen ltac:(lia)).
  pose proof (to_bytes_be_ok v) as Hok. pose proof (to_bytes_be_val v ltac:(lia)) as Hval.
  pose proof (be_bytes_be_val _ Hok) as Hb. rewrite Hval in Hb.
  pose proof (be_val_bound _ Hok) as Hbound. rewrite Hval in Hbound.
  assert (be_bytes 24 v = replicate (24 - length (to_bytes_be v)) 0 ++ to_bytes_be v) as E.
  { rewrite <- Hb at 2. apply be_bytes_small; [unfold len in *; lia|exact Hbound]. }
  unfold get_bytes. cbn [nonce_value]. unfold NONCE_SIZE.
  assert (∀ l, l = be_bytes 24 v →
    (if decide (len l ≠ 24) then Err (InvalidNonceSize 24 (len l)) else Ok l) = Ok (be_bytes 24 v)) as Hend.
  { intros l ->. rewrite len_be_bytes. by rewrite decide_False by lia. }
  destruct (len (to_bytes_be v) ?= 24) eqn:Ec.
  - apply Z.compare_eq in Ec. apply Hend. rewrite E.
    replace (24 - length (to_bytes_be v))%nat with 0%nat by (unfold len in *; lia). done.
  - apply Hend. rewrite E. f_equal. f_equal. unfold len. lia.
  - apply Z.compare_gt_iff in Ec. lia.
Qed.

Lemma get_bytes_too_big v : 2 ^ 192 ≤ v →
  ∃ n, 24 < n ∧ get_bytes (mkNonce v) = Err (InvalidNonceSize NONCE_SIZE n).
Proof.
  intros Hv. change (2 ^ 192) with (256 ^ 24) in Hv. assert (0 ≤ v) as Hv0 by lia.
  destruct (to_bytes_be_len v Hv0) as [_ Hlen]. exists (len (to_bytes_be v)).
  assert (24 < len (to_bytes_be v)) as Hl by lia. split; [done|].
  unfold get_bytes. cbn [nonce_value]. unfold NONCE_SIZE.
  assert ((len (to_bytes_be v) ?= 24) = Gt) as -> by (by apply Z.compare_gt_iff). done.
Qed.

End NonceTheorems.

Section NonceProperties.
Context `{BigUintLaws, GenericHashLaws}.

(** A nonce has a 24 byte form exactly up to [2^192 - 1]; the form is the
    big-endian one with leading zeros, reading it gives the nonce back, and the
    form of the next nonce is the successor (the test that a larger nonce is
    refused is the last part). *)
Theorem nonce_bytes v :
  0 ≤ v →
  (v < 2 ^ 192 → get_bytes (mkNonce v) = Ok (be_bytes 24 v) ∧
                 nonce_new (be_bytes 24 v) = mkNonce v) ∧
  (v + 1 < 2 ^ 192 → get_bytes (increment (mkNonce v)) = Ok (be_bytes 24 (v + 1))) ∧
  (2 ^ 192 ≤ v → ∃ n, 24 < n ∧ get_bytes (mkNonce v) = Err (InvalidNonceSize NONCE_SIZE n)).
Proof.
  intros Hv. split; [intros Hs; split|split].
  - by apply get_bytes_ok.
  - unfold nonce_new. rewrite from_bytes_be_val, be_val_be_bytes.
    rewrite Z.mod_small by (change (256 ^ Z.of_nat 24) with (2 ^ 192); lia). done.
  - intros Hs. apply get_bytes_ok. lia.
  - apply get_bytes_too_big.
Qed.

Lemma generate_nonces_agree init resp :
  ∃ a b, generate_nonces init resp false = Ok a ∧ generate_nonces resp init true = Ok b ∧
    local a = remote b ∧ remote a = local b ∧
    ∀ n, n ∈ [local a; remote a] → 0 ≤ nonce_value n < 2 ^ 192.
Proof.
  destruct (digest_ok (init ++ resp ++ INIT_TO_RESP_SEED) 32) as (d1 & E1 & L1 & B1); [lia|].
  destruct (digest_ok (init ++ resp ++ RESP_TO_INIT_SEED) 32) as (d2 & E2 & L2 & B2); [lia|].
  unfold generate_nonces. fold (digest_256 (init ++ resp ++ INIT_TO_RESP_SEED)) in E1.
  fold (digest_256 (init ++ resp ++ RESP_TO_INIT_SEED)) in E2. rewrite E1, E2.
  eexists _, _. split; [done|]. split; [done|]. split; [done|]. split; [done|].
  cbn [local remote]. intros n Hn.
  assert (∃ d, n = nonce_new (take (Z.to_nat NONCE_SIZE) d) ∧ len d = 32 ∧ bytes_ok d) as (d & -> & Ld & Bd).
  { rewrite !elem_of_cons in Hn. destruct Hn as [->|[->|Hn%not_elem_of_nil]]; [by exists d2|by exists d1|done]. }
  cbn [nonce_new nonce_value]. rewrite from_bytes_be_val.
  pose proof (be_val_bound (take (Z.to_nat NONCE_SIZE) d) (Forall_take _ _ _ Bd)) as Hb.
  assert (len (take (Z.to_nat NONCE_SIZE) d) = 24) as E.
  { unfold len in *. rewrite length_take. unfold NONCE_SIZE. lia. }
  rewrite E in Hb. exact Hb.
Qed.

(** The two ends of a connection agree on the nonces: the initiator (which
    sent [init] and received [resp]) and the responder (the other way round,
    [incoming]) compute nonces of 24 bytes, and what one of them uses for
    sending is what the other one uses for receiving. *)
Theorem nonces_agree init resp :
  ∃ a b, generate_nonces init resp false = Ok a ∧ generate_nonces resp init true = Ok b ∧
    local a = remote b ∧ remote a = local b ∧
    ∀ n, n ∈ [local a; remote a] → 0 ≤ nonce_value n < 2 ^ 192.
Proof. apply generate_nonces_agree. Qed.

End NonceProperties.

(** ** Theorems on the proof of work *)

Section CandidateTheorems.

Lemma be_val_inj l k :
  bytes_ok l → bytes_ok k → length l = length k → be_val l = be_val k → l = k.
Proof.
  intros Hl Hk E V. rewrite <- (be_bytes_be_val l), <- (be_bytes_be_val k) by done.
  by rewrite E, V.
Qed.

(** The three words of the stamp. *)
Lemma candidate_words pk A B C :
  length pk = 32%nat → length A = 8%nat → length B = 8%nat → length C = 8%nat →
  let data := pk ++ A ++ B ++ C in
  get_u64 data 32 = be_val A ∧ get_u64 data 40 = be_val B ∧ get_u64 data 48 = be_val C ∧
  (∀ v, put_u64_at data 32 v = pk ++ be_bytes 8 v ++ B ++ C) ∧
  (∀ v, put_u64_at data 40 v = pk ++ A ++ be_bytes 8 v ++ C) ∧
  (∀ v, put_u64_at data 48 v = pk ++ A ++ B ++ be_bytes 8 v).
Proof.
  intros Hp HA HB HC data.
  assert (∀ n l k, data = l ++ k → length l = n → take n data = l ∧ drop n data = k) as TD.
  { intros n l k E L. rewrite E, <- L. split; [apply take_app_length|apply drop_app_length]. }
  destruct (TD 32%nat pk (A ++ B ++ C)) as [T32 D32]; [done|lia|].
  destruct (TD 40%nat (pk ++ A) (B ++ C)) as [T40 D40];
    [unfold data; by rewrite <- app_assoc|rewrite length_app; lia|].
  destruct (TD 48%nat (pk ++ A ++ B) C) as [T48 D48];
    [unfold data; by rewrite <- !app_assoc|rewrite !length_app; lia|].
  destruct (TD 56%nat data []) as [_ D56];
    [by rewrite app_nil_r|unfold data; rewrite !length_app; lia|].
  unfold get_u64, put_u64_at. cbn [Nat.add]. rewrite T32, T40, T48, D32, D40, D48, D56.
  repeat split; intros; rewrite <- ?app_assoc, ?app_nil_r; try done; f_equal;
    [rewrite <- HA; apply take_app_length|rewrite <- HB; apply take_app_length|].
  by rewrite take_ge by lia.
Qed.

Lemma be_val_words A B C :
  length B = 8%nat → length C = 8%nat →
  be_val (A ++ B ++ C) = be_val A * 2 ^ 128 + be_val B * 2 ^ 64 + be_val C.
Proof.
  intros HB HC. rewrite !be_val_app, len_app. unfold len. rewrite HB, HC.
  change (256 ^ (Z.of_nat 8 + Z.of_nat 8)) with (2 ^ 128). change (256 ^ Z.of_nat 8) with (2 ^ 64). lia.
Qed.

Lemma word_bound A : bytes_ok A → length A = 8%nat → 0 ≤ be_val A < 2 ^ 64.
Proof. intros HA L. pose proof (be_val_bound A HA) as Hb. unfold len in Hb. by rewrite L in Hb. Qed.

Lemma be_val_word v : 0 ≤ v < 2 ^ 64 → be_val (be_bytes 8 v) = v.
Proof. intros Hv. rewrite be_val_be_bytes. by apply Z.mod_small. Qed.

(** The words of a stamp and of its successor. *)
Lemma words_succ a b c a' b' c' :
  0 ≤ a < 2 ^ 64 → 0 ≤ b < 2 ^ 64 → 0 ≤ c < 2 ^ 64 →
  (c ≠ u64_max ∧ a' = a ∧ b' = b ∧ c' = c + 1 ∨
   c = u64_max ∧ b ≠ u64_max ∧ a' = a ∧ b' = b + 1 ∧ c' = 0 ∨
   c = u64_max ∧ b = u64_max ∧ a ≠ u64_max ∧ a' = a + 1 ∧ b' = 0 ∧ c' = 0 ∨
   c = u64_max ∧ b = u64_max ∧ a = u64_max ∧ a' = 0 ∧ b' = 0 ∧ c' = 0) →
  (0 ≤ a' < 2 ^ 64 ∧ 0 ≤ b' < 2 ^ 64 ∧ 0 ≤ c' < 2 ^ 64) ∧
  a' * 2 ^ 128 + b' * 2 ^ 64 + c' = (a * 2 ^ 128 + b * 2 ^ 64 + c + 1) mod 2 ^ 192.
Proof.
  unfold u64_max. intros Ha Hb Hc Hcase.
  destruct (decide (a = 2 ^ 64 - 1 ∧ b = 2 ^ 64 - 1 ∧ c = 2 ^ 64 - 1)) as [(-> & -> & ->)|Hn].
  - split; [lia|]. assert (a' = 0 ∧ b' = 0 ∧ c' = 0) as (-> & -> & ->) by lia. done.
  - split; [lia|]. rewrite Z.mod_small by lia. lia.
Qed.

Lemma next_candidate_words pk A B C :
  length pk = 32%nat → length A = 8%nat → length B = 8%nat → length C = 8%nat →
  bytes_ok A → bytes_ok B → bytes_ok C →
  ∃ a b c, next_candidate (pk ++ A ++ B ++ C) = pk ++ be_bytes 8 a ++ be_bytes 8 b ++ be_bytes 8 c ∧
    (0 ≤ a < 2 ^ 64 ∧ 0 ≤ b < 2 ^ 64 ∧ 0 ≤ c < 2 ^ 64) ∧
    a * 2 ^ 128 + b * 2 ^ 64 + c
    = (be_val A * 2 ^ 128 + be_val B * 2 ^ 64 + be_val C + 1) mod 2 ^ 192.
Proof.
  intros Hp LA LB LC OA OB OC.
  pose proof (word_bound A OA LA) as Ba. pose proof (word_bound B OB LB) as Bb.
  pose proof (word_bound C OC LC) as Bc.
  pose proof (be_bytes_be_val A OA) as EA. pose proof (be_bytes_be_val B OB) as EB.
  rewrite LA in EA. rewrite LB in EB.
  destruct (candidate_words pk A B C Hp LA LB LC) as (GA & GB & GC & P32 & P40 & P48).
  unfold next_candidate. rewrite GA, GB, GC.
  destruct (decide (be_val C = u64_max)) as [Ec|Nc].
  - destruct (decide (be_val B = u64_max)) as [Eb|Nb].
    + set (a := if decide (be_val A = u64_max) then 0 else be_val A + 1).
      assert ((if decide (be_val A = u64_max) then (0, 0, 0) else (be_val A + 1, 0, 0)) = (a, 0, 0)) as ->
        by (unfold a; by case_decide).
      rewrite P32.
      destruct (candidate_words pk (be_bytes 8 a) B C Hp (length_be_bytes _ _) LB LC)
        as (_ & _ & _ & _ & Q40 & _). rewrite Q40.
      destruct (candidate_words pk (be_bytes 8 a) (be_bytes 8 0) C Hp (length_be_bytes _ _)
        (length_be_bytes _ _) LC) as (_ & _ & _ & _ & _ & Q48). rewrite Q48.
      exists a, 0, 0. split; [done|]. apply words_succ; try done. unfold a. case_decide; lia.
    + rewrite P40.
      destruct (candidate_words pk A (be_bytes 8 (be_val B + 1)) C Hp LA (length_be_bytes _ _) LC)
        as (_ & _ & _ & _ & _ & Q48). rewrite Q48.
      exists (be_val A), (be_val B + 1), 0. rewrite EA. split; [done|].
      apply words_succ; try done. lia.
  - rewrite P48. exists (be_val A), (be_val B), (be_val C + 1). rewrite EA, EB. split; [done|].
    apply words_succ; try done. lia.
Qed.

(** The carry chain over three 64-bit words that goes to the next candidate is
    the successor of the stamp as a 192-bit number, with wrap-around, and
    leaves the key alone. *)
Lemma next_candidate_succ pk stamp :
  len pk = CRYPTO_KEY_SIZE → len stamp = POW_SIZE → bytes_ok stamp →
  next_candidate (pk ++ stamp) = pk ++ be_bytes 24 ((be_val stamp + 1) mod 2 ^ 192).
Proof.
  unfold CRYPTO_KEY_SIZE, POW_SIZE, NONCE_SIZE, len. intros Hp Hs Hok.
  assert (∃ A B C, stamp = A ++ B ++ C ∧ length A = 8%nat ∧ length B = 8%nat ∧ length C = 8%nat)
    as (A & B & C & -> & LA & LB & LC).
  { exists (take 8 stamp), (take 8 (drop 8 stamp)), (drop 16 stamp).
    split; [|rewrite !length_take, !length_drop; lia].
    rewrite <- (take_drop 8 stamp) at 1. f_equal.
    by rewrite <- (take_drop 8 (drop 8 stamp)) at 1; rewrite drop_drop. }
  rewrite !Forall_app in Hok. destruct Hok as (OA & OB & OC).
  rewrite be_val_words by done.
  destruct (next_candidate_words pk A B C ltac:(lia) LA LB LC OA OB OC)
    as (a' & b' & c' & E & (Ra & Rb & Rc) & V).
  rewrite E. f_equal. apply be_val_inj.
  - rewrite !Forall_app. auto using be_bytes_ok.
  - apply be_bytes_ok.
  - by rewrite !length_app, !length_be_bytes.
  - rewrite be_val_words by apply length_be_bytes. rewrite !be_val_word by done. rewrite V.
    rewrite be_val_be_bytes. symmetry. apply Z.mod_small.
    change (256 ^ Z.of_nat 24) with (2 ^ 192). apply Z.mod_pos_bound. lia.
Qed.

Lemma candidates pk stamp k :
  len pk = CRYPTO_KEY_SIZE → len stamp = POW_SIZE → bytes_ok stamp →
  Nat.iter k next_candidate (pk ++ stamp)
  = pk ++ be_bytes 24 ((be_val stamp + Z.of_nat k) mod 2 ^ 192).
Proof.
  intros Hp Hs Hok. assert (length stamp = 24%nat) as L24 by (unfold len, POW_SIZE, NONCE_SIZE in Hs; lia).
  assert (be_val stamp < 2 ^ 192).
  { pose proof (be_val_bound stamp Hok) as Hb. unfold len in Hb. rewrite L24 in Hb.
    change (256 ^ Z.of_nat 24) with (2 ^ 192) in Hb. lia. }
  induction k as [|k IH].
  - change (Nat.iter 0 next_candidate (pk ++ stamp)) with (pk ++ stamp).
    rewrite Z.add_0_r, Z.mod_small by (pose proof (be_val_bound stamp Hok); lia).
    by rewrite <- L24, be_bytes_be_val.
  - change (Nat.iter (S k) next_candidate (pk ++ stamp))
      with (next_candidate (Nat.iter k next_candidate (pk ++ stamp))).
    rewrite IH, next_candidate_succ; [|done|by rewrite len_be_bytes|apply be_bytes_ok].
    rewrite be_val_be_bytes. change (256 ^ Z.of_nat 24) with (2 ^ 192).
    rewrite Zmod_mod, Zplus_mod_idemp_l. do 3 f_equal. lia.
Qed.

End CandidateTheorems.

Section ProofOfWorkTheorems.
Context `{GenericHash, BigUintLib}.

Lemma generate_loop_finds k data target :
  check_proof_of_work_inner (Nat.iter k next_candidate data) target = Ok () →
  is_Some (generate_loop (S k) data target).
Proof.
  revert data. induction k as [|k IH]; intros data Hc; cbn [generate_loop].
  - change (Nat.iter 0 next_candidate data) with data in Hc. rewrite Hc. eauto.
  - destruct (check_proof_of_work_inner data target) as [[]|]; [eauto|].
    apply IH. by rewrite <- Nat.iter_succ_r.
Qed.

Lemma generate_loop_sound rounds pk stamp target p :
  len pk = CRYPTO_KEY_SIZE → len stamp = POW_SIZE → bytes_ok stamp →
  generate_loop rounds (pk ++ stamp) target = Some p →
  check p pk target = Ok () ∧ len p = POW_SIZE.
Proof.
  intros Hp. revert stamp. induction rounds as [|rounds IH]; intros stamp Hs Hok Hg; [done|].
  cbn [generate_loop] in Hg.
  destruct (check_proof_of_work_inner (pk ++ stamp) target) as [[]|] eqn:E.
  - injection Hg as <-. rewrite <- Hp, len_nat, drop_app_length. done.
  - rewrite next_candidate_succ in Hg by done.
    by apply (IH (be_bytes 24 ((be_val stamp + 1) mod 2 ^ 192))); [rewrite len_be_bytes|apply be_bytes_ok|].
Qed.

(** The search for a proof of work is right and complete: what [generate]
    returns passes [check] for the key, whatever the random start, and if any
    stamp of 24 bytes passes, the search ends with one (it tries all of the
    [2^192] stamps: the carry chain over three 64-bit words is the successor
    of the stamp as a 192-bit number). *)
Theorem pow_generate pk random target :
  len pk = CRYPTO_KEY_SIZE → len random = POW_SIZE → bytes_ok random →
  (∀ rounds p, generate rounds pk random target = Some p →
     check p pk target = Ok () ∧ len p = POW_SIZE) ∧
  (∀ stamp, len stamp = POW_SIZE → bytes_ok stamp → check stamp pk target = Ok () →
     ∃ rounds p, generate rounds pk random target = Some p).
Proof.
  intros Hp Hr Hok. split; [intros rounds p Hg; by eapply generate_loop_sound|].
  intros stamp Hs Hsb Hc. set (k := (be_val stamp - be_val random) mod 2 ^ 192).
  assert (0 ≤ k < 2 ^ 192) as Hk by (apply Z.mod_pos_bound; lia).
  exists (S (Z.to_nat k)). apply generate_loop_finds. rewrite candidates by done.
  rewrite Z2Nat.id by lia. unfold k. rewrite Zplus_mod_idemp_r.
  replace (be_val random + (be_val stamp - be_val random)) with (be_val stamp) by lia.
  assert (length stamp = 24%nat) as L by (unfold len, POW_SIZE, NONCE_SIZE in Hs; lia).
  pose proof (be_val_bound stamp Hsb) as Hb. unfold len in Hb. rewrite L in Hb.
  change (256 ^ Z.of_nat 24) with (2 ^ 192) in Hb.
  rewrite Z.mod_small by lia. by rewrite <- L, be_bytes_be_val.
Qed.

End ProofOfWorkTheorems.

(** ** Sealed boxes *)

Section BoxTheorems.
Context `{BigUintLaws, CryptoBoxLaws}.

Lemma encrypt_ok k m v :
  0 ≤ v < 2 ^ 192 → encrypt k m (mkNonce v) = Ok (seal_precomputed m (be_bytes 24 v) k).
Proof. intros Hv. unfold encrypt. by rewrite get_bytes_ok. Qed.

Lemma decrypt_ok k m v :
  0 ≤ v < 2 ^ 192 → decrypt k (seal_precomputed m (be_bytes 24 v) k) (mkNonce v) = Ok m.
Proof. intros Hv. unfold decrypt. rewrite get_bytes_ok by done. by rewrite open_seal. Qed.

End BoxTheorems.

(** ** A concrete instance *)

Module ConcreteCrypto.

#[export] Instance biguint : BigUintLib := {|
  from_bytes_be := be_val;
  from_bytes_le l := be_val (rev l);
  to_bytes_be v := be_bytes (S (Z.to_nat (Z.log2 v / 8))) v
|}.

Lemma log2_bytes v : 0 < v → 256 ^ (Z.log2 v / 8) ≤ v < 256 ^ (1 + Z.log2 v / 8).
Proof.
  intros Hv. pose proof (Z.log2_spec v Hv) as [Hl Hh]. pose proof (Z.log2_nonneg v).
  pose proof (Z.div_pos (Z.log2 v) 8 ltac:(lia) ltac:(lia)).
  change 256 with (2 ^ 8). rewrite <- !Z.pow_mul_r by lia.
  pose proof (Z.div_mod (Z.log2 v) 8 ltac:(lia)). pose proof (Z.mod_pos_bound (Z.log2 v) 8 ltac:(lia)).
  split.
  - eapply Z.le_trans; [|exact Hl]. apply Z.pow_le_mono_r; lia.
  - eapply Z.lt_le_trans; [exact Hh|]. apply Z.pow_le_mono_r; lia.
Qed.

#[export] Instance biguint_laws : BigUintLaws.
Proof.
  constructor; try done; intros v.
  - apply be_bytes_ok.
  - intros Hv. cbn [to_bytes_be biguint]. rewrite be_val_be_bytes. apply Z.mod_small.
    destruct (decide (v = 0)) as [->|]; [done|].
    pose proof (log2_bytes v ltac:(lia)). pose proof (Z.log2_nonneg v).
    pose proof (Z.div_pos (Z.log2 v) 8 ltac:(lia) ltac:(lia)).
    replace (Z.of_nat (S (Z.to_nat (Z.log2 v / 8)))) with (1 + Z.log2 v / 8) by lia. lia.
  - intros Hv. eexists _, _. split; [reflexivity|].
    pose proof (log2_bytes v Hv) as [Hl Hh]. pose proof (Z.log2_nonneg v).
    pose proof (Z.div_pos (Z.log2 v) 8 ltac:(lia) ltac:(lia)). rewrite Z2Nat.id by lia.
    set (p := 256 ^ (Z.log2 v / 8)) in *. assert (0 < p) by (apply Z.pow_pos_nonneg; lia).
    rewrite Z.pow_add_r, Z.pow_1_r in Hh by lia. fold p in Hh.
    assert (1 ≤ v / p) by (apply Z.div_le_lower_bound; lia).
    assert (v / p < 256) by (apply Z.div_lt_upper_bound; lia). rewrite Z.mod_small by lia. lia.
Qed.

(** The digest of the instance is a cut of the data. *)
#[export] Instance generic_hash : GenericHash := {|
  gh_state := Z * bytes;
  gh_new n := if decide (16 ≤ n ≤ 64) then Some (n, []) else None;
  gh_update s d := Some (s.1, s.2 ++ d);
  gh_finalize s := Some (be_bytes (Z.to_nat s.1) (be_val s.2))
|}.

#[export] Instance generic_hash_laws : GenericHashLaws.
Proof.
  constructor.
  - intros n. cbn. case_decide; split; eauto; [by intros [? ?]|done].
  - intros n s d Hn. cbn in *. case_decide; [|done]. injection Hn as <-. eexists _, _.
    split; [done|]. split; [done|]. cbn. split; [rewrite len_be_bytes; lia|apply be_bytes_ok].
Qed.

#[export] Instance crypto_box : CryptoBox := {|
  box_key := Z;
  seal_precomputed m n k := be_bytes 16 (k + be_val n) ++ m;
  open_precomputed c n k :=
    if decide (take 16 c = be_bytes 16 (k + be_val n)) then Some (drop 16 c) else None;
  box_precompute pk sk := be_val pk + be_val sk;
  box_public sk := sk
|}.

#[export] Instance crypto_box_laws : CryptoBoxLaws.
Proof.
  constructor; intros; cbn [seal_precomputed open_precomputed box_precompute box_public crypto_box].
  - rewrite len_app, len_be_bytes. lia.
  - apply Forall_app. split; [apply be_bytes_ok|done].
  - rewrite take_app_length', drop_app_length' by (by rewrite length_be_bytes).
    by rewrite decide_True.
  - apply Z.add_comm.
Qed.

Lemma nonce_bytes_witness :
  get_bytes (mkNonce 258) = Ok (be_bytes 24 258) ∧
  get_bytes (increment (mkNonce 258)) = Ok (be_bytes 24 259).
Proof.
  destruct (nonce_bytes 258) as (E1 & E2 & _); [lia|].
  split; [apply E1; lia|apply E2; lia].
Defined.

Lemma nonces_agree_witness :
  ∃ a b, generate_nonces [1; 2] [3] false = Ok a ∧ generate_nonces [3] [1; 2] true = Ok b ∧
    local a = remote b ∧ remote a = local b ∧
    ∀ n, n ∈ [local a; remote a] → 0 ≤ nonce_value n < 2 ^ 192.
Proof. exact (nonces_agree [1; 2] [3]). Defined.

Lemma pow_generate_witness :
  ∃ rounds p, generate rounds (replicate 32 1) (replicate 24 255) (2 ^ 255) = Some p.
Proof.
  destruct (pow_generate (replicate 32 1) (replicate 24 255) (2 ^ 255)) as [_ E].
  - done.
  - done.
  - apply Forall_replicate. done.
  - apply (E (replicate 24 7)).
    + done.
    + apply Forall_replicate. done.
    + vm_compute. reflexivity.
Defined.

End ConcreteCrypto.
