(* ===== verification/SeededStep.v ===== *)
(** * The steps of a block locator: [crypto/src/seeded_step.rs]

    The sequence that decides which blocks of a branch go into its history:
    ten steps of length 1, ten of about 2, ten of about 4 and so on, with a
    pseudo-random gap taken from a seed that is hashed again at every step.
    The arithmetic is that of [i32], which wraps around. *)

From S2P Require Import Prelude Hash.

Definition i32_wrap (z : Z) : Z := to_signed 32 (z mod 2 ^ 32).

Record Seed := mkSeed { sender_id : bytes; receiver_id : bytes }.

Record Step := mkStep { step : Z; counter : Z; seed : bytes }.

Section SeededStep.
Context `{Base58Lib}.

(** The incremental interface of SHA-256 hashes the concatenation. *)
Definition init (seed : Seed) (block_hash : bytes) : Step := {|
  step := 1; counter := 9;
  seed := sha256_hash (sender_id seed ++ receiver_id seed ++ block_hash)
|}.

(** [i32::from_be_bytes(seed[0..4])] *)
Definition seed_as_i32 (seed : bytes) : Z := to_signed 32 (be_val (take 4 seed)).

(** [Step::next]: the value and the new state ([/] and [%] truncate). *)
Definition next (self : Step) : Z * Step :=
  let '(random_gap, seed) :=
    if decide (step self ≤ 1) then (0, seed self)
    else
      let n := i32_wrap (Z.quot (step self) 2 + 1) in
      (Z.rem (seed_as_i32 (seed self)) n, sha256_hash (seed self)) in
  let '(old_step, step, counter) :=
    if decide (counter self = 0) then (step self, i32_wrap (step self * 2), 9)
    else (step self, step self, i32_wrap (counter self - 1)) in
  (i32_wrap (old_step - random_gap), mkStep step counter seed).

(** The state after [k] calls. *)
Definition after (k : nat) (self : Step) : Step := Nat.iter k (λ s, (next s).2) self.

(** ** Theorems *)

Lemma i32_wrap_small z : int_range 32 z → i32_wrap z = z.
Proof. intros Hz. unfold i32_wrap. by apply to_signed_mod. Qed.

(** After [k] calls the length has doubled [k / 10] times. *)
Lemma after_state k (s : Step) :
  step s = 1 → counter s = 9 → (k < 310)%nat →
  step (after k s) = 2 ^ Z.of_nat (k / 10) ∧ counter (after k s) = 9 - Z.of_nat (k mod 10).
Proof.
  intros Hs Hc. induction k as [|k IH]; intros Hk; [done|].
  change (after (S k) s) with ((next (after k s)).2). destruct IH as [IHs IHc]; [lia|].
  set (st := after k s) in *. clearbody st.
  assert (k / 10 ≤ 30)%nat as Hq by (apply Nat.lt_succ_r, Nat.Div0.div_lt_upper_bound; lia).
  pose proof (Nat.div_mod_eq k 10) as Hdm. pose proof (Nat.mod_upper_bound k 10 ltac:(lia)) as Hm.
  assert (step (next st).2 = (if decide (counter st = 0) then i32_wrap (step st * 2) else step st)
    ∧ counter (next st).2 = (if decide (counter st = 0) then 9 else i32_wrap (counter st - 1))) as [-> ->].
  { unfold next. destruct (decide (step st ≤ 1)), (decide (counter st = 0)); done. }
  rewrite IHs, IHc. case_decide as H0.
  - assert (k mod 10 = 9)%nat as E9 by lia.
    assert (S k / 10 = S (k / 10) ∧ S k mod 10 = 0)%nat as [-> ->].
    { split; [symmetry; apply (Nat.div_unique _ _ _ 0)|symmetry; apply (Nat.mod_unique _ _ (S (k / 10)))]; lia. }
    split; [|done]. rewrite Nat2Z.inj_succ, Z.pow_succ_r by lia. rewrite Z.mul_comm.
    assert (S k / 10 ≤ 30)%nat by (apply Nat.lt_succ_r, Nat.Div0.div_lt_upper_bound; lia).
    assert (k / 10 ≤ 29)%nat by lia.
    apply i32_wrap_small. unfold int_range.
    assert (2 ^ Z.of_nat (k / 10) ≤ 2 ^ 29) by (apply Z.pow_le_mono_r; lia).
    assert (0 < 2 ^ Z.of_nat (k / 10)) by (apply Z.pow_pos_nonneg; lia). lia.
  - assert (S k / 10 = k / 10 ∧ S k mod 10 = S (k mod 10))%nat as [-> ->].
    { split; [symmetry; apply (Nat.div_unique _ _ _ (S (k mod 10)))
             |symmetry; apply (Nat.mod_unique _ _ (k / 10))]; lia. }
    split; [done|]. rewrite i32_wrap_small by (unfold int_range; lia). lia.
Qed.

Lemma next_value (st : Step) q :
  0 ≤ q ≤ 30 → step st = 2 ^ q →
  step st - step st / 2 ≤ (next st).1 ≤ step st + step st / 2.
Proof.
  intros Hq Hs. assert (0 < 2 ^ q) by (apply Z.pow_pos_nonneg; lia).
  assert (2 ^ q ≤ 2 ^ 30) by (apply Z.pow_le_mono_r; lia).
  set (gap := if decide (step st ≤ 1) then 0
              else Z.rem (seed_as_i32 (seed st)) (i32_wrap (Z.quot (step st) 2 + 1))).
  assert ((next st).1 = i32_wrap (step st - gap)) as ->.
  { unfold next, gap. destruct (decide (step st ≤ 1)), (decide (counter st = 0)); done. }
  assert (Z.abs gap ≤ step st / 2) as Hgap.
  { unfold gap. case_decide; [pose proof (Z.div_pos (step st) 2 ltac:(lia) ltac:(lia)); lia|].
    rewrite Z.quot_div_nonneg by lia.
    assert (1 ≤ step st / 2) by (apply Z.div_le_lower_bound; lia).
    assert (step st / 2 ≤ 2 ^ 29) by (apply Z.div_le_upper_bound; lia).
    rewrite i32_wrap_small by (unfold int_range; lia).
    pose proof (Z.rem_bound_abs (seed_as_i32 (seed st)) (step st / 2 + 1) ltac:(lia)). lia. }
  assert (step st / 2 ≤ 2 ^ 29) by (apply Z.div_le_upper_bound; lia).
  rewrite i32_wrap_small by (unfold int_range; lia). lia.
Qed.

(** The first 310 steps of a locator (the node sends at most
    [HISTORY_MAX_SIZE], 200) never overflow: the [k]-th one is within half of
    [2^(k/10)] of it, so that it is positive and the locator advances. *)
Theorem step_bounds sd block_hash k :
  (k < 310)%nat →
  let s := 2 ^ Z.of_nat (k / 10) in
  s - s / 2 ≤ (next (after k (init sd block_hash))).1 ≤ s + s / 2 ∧
  1 ≤ (next (after k (init sd block_hash))).1.
Proof.
  intros Hk s. destruct (after_state k (init sd block_hash)) as [Hs _]; [done|done|done|].
  assert (k / 10 ≤ 30)%nat by (apply Nat.lt_succ_r, Nat.Div0.div_lt_upper_bound; lia).
  pose proof (next_value (after k (init sd block_hash)) (Z.of_nat (k / 10)) ltac:(lia) Hs) as Hb.
  rewrite Hs in Hb. fold s in Hb. split; [done|].
  assert (0 < s) by (apply Z.pow_pos_nonneg; lia).
  assert (s / 2 < s) by (apply Z.div_lt; lia). lia.
Qed.

End SeededStep.

Module SeededStepWitnesses.
Import ConcreteHash.

Lemma step_bounds_witness :
  8 - 8 / 2 ≤ (next (after 35 (init (mkSeed [1] [2]) [3]))).1 ≤ 8 + 8 / 2 ∧
  1 ≤ (next (after 35 (init (mkSeed [1] [2]) [3]))).1.
Proof. apply (step_bounds (mkSeed [1] [2]) [3] 35). lia. Defined.

End SeededStepWitnesses.
