(* ===== verification/MerklePath.v ===== *)
(** * Merkle paths on the wire: [Path] of
      [tezos/messages/src/p2p/encoding/operations_for_blocks.rs]

    The serializer of a path, its reader, and the round trip with
    [PathCodec]. *)

From S2P Require Import Prelude External BitUtils Hash Encoding Serializer PathCodec BinaryWriter Format NomLib NomReader Derive DeriveRoundTrip.

(** A [Hash] is a byte vector of any length. *)
Inductive PathItem :=
| PathRight (left : bytes)
| PathLeft (right : bytes).

Definition MAX_PASS_MERKLE_DEPTH : option Z := Some 3.

(** [#[derive(Serialize)]] on [PathItem], [PathLeft] and [PathRight] *)
Definition hash_data (h : bytes) : Data := DSeq (map DU8 h).

Definition path_item_data (i : PathItem) : Data :=
  match i with
  | PathRight h =>
      DNewtypeVariant "PathItem" 0 "Right" (DStruct "PathRight" [("left"%string, hash_data h)])
  | PathLeft h =>
      DNewtypeVariant "PathItem" 1 "Left" (DStruct "PathLeft" [("right"%string, hash_data h)])
  end.

(** [impl Serialize for Path]: the data given to the serializer, or an error. *)
Definition path_serialize (self : list PathItem) : result Data Error :=
  match MAX_PASS_MERKLE_DEPTH with
  | Some max =>
      if decide (len self > max) then
        Err (custom "Path size exceedes its boundary {} for encoding" [ANum max])
      else Ok (DSeq (map path_item_data self))
  | None => Ok (DSeq (map path_item_data self))
  end.

(** ** The reader *)

Inductive DecodePathNode := NodeLeft | NodeRight (h : bytes).

Section PathReader.
Context `{Nom}.

Definition path_hash : Parser bytes :=
  nom_map (nom_take (Z.to_nat (size OperationListListHash))) id.

Definition path_left : Parser DecodePathNode := nom_preceded (nom_tag [240]) (nom_success NodeLeft).

Definition path_right : Parser DecodePathNode :=
  nom_preceded (nom_tag [15]) (nom_map path_hash NodeRight).

Definition path_op : Parser () := nom_preceded (nom_tag [0]) (nom_success ()).

(** The loop of [path_complete] over the nodes in reverse order. *)
Fixpoint path_complete_loop (nodes : list DecodePathNode) (res : list PathItem)
    : Parser (list PathItem) := λ input,
  match nodes with
  | [] => Ok (input, res)
  | NodeLeft :: nodes' =>
      let? (i, h) := path_hash input in
      path_complete_loop nodes' (res ++ [PathLeft h]) i
  | NodeRight h :: nodes' => path_complete_loop nodes' (res ++ [PathRight h]) input
  end.

Definition path_complete (nodes : list DecodePathNode) : Parser (list PathItem) := λ input,
  let? (input, res) := path_complete_loop (rev nodes) [] input in
  Ok (input, rev res).

Definition merkle_path_nom_read : Parser (list PathItem) :=
  nom_flat_map
    (nom_verify
       (nom_map (nom_many_till (nom_alt path_left path_right) path_op) fst)
       (λ nodes, match MAX_PASS_MERKLE_DEPTH with
                 | Some v => bool_decide (v >= len nodes)
                 | None => true
                 end))
    path_complete.

End PathReader.

(** ** The bytes of a path *)

Definition path_head (i : PathItem) : bytes :=
  match i with PathRight h => 15 :: h | PathLeft _ => [240] end.

Definition path_tail (i : PathItem) : bytes :=
  match i with PathRight _ => [] | PathLeft h => h end.

(** All the items from the outside in, then the hashes of the left turns from
    the inside out. *)
Definition path_bytes (p : list PathItem) : bytes :=
  concat (map path_head p) ++ [0] ++ concat (map path_tail (rev p)).

Definition path_item_ok (i : PathItem) : Prop :=
  match i with PathRight h | PathLeft h => bytes_ok h ∧ len h = size OperationListListHash end.

Definition item_value (i : PathItem) : Value :=
  match i with
  | PathRight h =>
      Value.Tag "Right" (Value.Record [("left"%string, Value.List (map Value.Uint8 h))])
  | PathLeft h =>
      Value.Tag "Left" (Value.Record [("right"%string, Value.List (map Value.Uint8 h))])
  end.

Lemma serialize_item i : serialize (path_item_data i) = Ok (item_value i).
Proof.
  destruct i as [h|h]; unfold path_item_data, hash_data, item_value;
    pose proof (serialize_u8s h) as E; cbn [serialize map fst snd] in *; by rewrite E.
Qed.

Lemma serialize_path_ok p :
  serialize (DSeq (map path_item_data p)) = Ok (Value.List (map item_value p)).
Proof.
  cbn [serialize]. rewrite (serialize_elements_ok _ (map item_value p)); [done|].
  induction p; cbn -[serialize]; constructor; [apply serialize_item|done].
Qed.

Lemma collect_u8s_map h e : PathCodec.collect_u8s (map Value.Uint8 h) e = Ok h.
Proof. induction h as [|b h IH]; cbn; [done|]. by rewrite IH. Qed.

Lemma encode_path_item_eq data i e :
  PathCodec.encode_path_item data (item_value i) e =
  Ok (data ++ path_head i, match i with PathRight _ => None | PathLeft h => Some h end).
Proof.
  destruct i as [h|h]; cbn -[map]; unfold PathCodec.encode_bytes; cbn -[map];
    rewrite collect_u8s_map; cbn; [by rewrite <- app_assoc|done].
Qed.

Lemma encode_items_eq data ts p e :
  ∃ ts', PathCodec.encode_items data ts (map item_value p) e
           = Ok (data ++ concat (map path_head p), ts') ∧
         PathCodec.flatten_tails ts' = concat (map path_tail (rev p)) ++ PathCodec.flatten_tails ts.
Proof.
  revert data ts. induction p as [|i p IH]; intros data ts; cbn -[item_value].
  - exists ts. by rewrite app_nil_r.
  - rewrite encode_path_item_eq.
    destruct (IH (data ++ path_head i)
                ((match i with PathRight _ => None | PathLeft h => Some h end) :: ts))
      as (ts' & E & V).
    exists ts'. rewrite E, <- app_assoc. split; [done|]. rewrite V, map_app, concat_app, <- app_assoc.
    f_equal. unfold PathCodec.flatten_tails. destruct i; cbn; by rewrite ?app_nil_r.
Qed.

Lemma path_format p e :
  result_bytes (PathCodec.encode [] (Value.List (map item_value p)) e) = Some (path_bytes p).
Proof.
  unfold PathCodec.encode. destruct (encode_items_eq [] [] p e) as (ts & E & V).
  rewrite E, V, checked_sub_nil. cbn. unfold path_bytes. cbn.
  by rewrite app_nil_r, <- app_assoc.
Qed.

Lemma len_path_parts p :
  Forall path_item_ok p →
  len (concat (map path_head p)) + len (concat (map path_tail p)) = 33 * len p.
Proof.
  induction 1 as [|i p Hi Hp IH]; [done|]. cbn [map concat]. rewrite !len_app.
  assert (len (path_head i) + len (path_tail i) = 33) as E.
  { destruct i; destruct Hi as [_ Hh]; cbn in Hh; unfold len in *; cbn; lia. }
  replace (len (i :: p)) with (1 + len p) by (unfold len; cbn; lia). lia.
Qed.

Lemma len_path_bytes p : Forall path_item_ok p → len (path_bytes p) = 33 * len p + 1.
Proof.
  intros Hp. rewrite <- len_path_parts by done. unfold path_bytes. rewrite !len_app.
  assert (len (concat (map path_tail (rev p))) = len (concat (map path_tail p))) as ->; [|change (len [0]) with 1; lia].
  unfold len. rewrite (Permutation_length (l' := concat (map path_tail p))); [done|].
  by rewrite <- (Permutation_rev p).
Qed.

(** ** Reading it back *)

Section PathRoundTrip.
Context `{NomLaws}.

Definition node_of (i : PathItem) : DecodePathNode :=
  match i with PathRight h => NodeRight h | PathLeft _ => NodeLeft end.

Lemma path_hash_ok h i :
  len h = size OperationListListHash → path_hash (h ++ i) = Ok (i, h).
Proof.
  intros Hh. unfold path_hash. rewrite nom_map_eq, <- Hh, len_nat.
  rewrite nom_take_ok by (rewrite length_app; lia). by rewrite take_len_app, drop_len_app.
Qed.

Lemma head_read i rest :
  path_item_ok i →
  nom_alt path_left path_right (path_head i ++ rest) = Ok (rest, node_of i) ∧
  ∃ e, path_op (path_head i ++ rest) = Err (NError e).
Proof.
  intros Hi. unfold path_left, path_right, path_op. rewrite nom_alt_eq, !nom_preceded_eq.
  destruct i as [h|h]; cbn [path_head app] in *.
  - rewrite (nom_tag_fail [240]), (nom_tag_fail [0]) by (by intros [|]).
    change (15 :: h ++ rest) with ([15] ++ h ++ rest). rewrite nom_tag_ok, nom_map_eq.
    destruct Hi as [_ Hh]. rewrite path_hash_ok by done. split; [done|]. eauto.
  - change (240 :: rest) with ([240] ++ rest). rewrite nom_tag_ok, nom_success_eq.
    rewrite (nom_tag_fail [0]) by (by intros [|]). split; [done|]. eauto.
Qed.

Lemma nodes_read p rest :
  Forall path_item_ok p →
  nom_many_till (nom_alt path_left path_right) path_op (concat (map path_head p) ++ [0] ++ rest)
  = Ok (rest, (map node_of p, ())).
Proof.
  induction 1 as [|i p Hi Hp IH]; cbn [map concat].
  - rewrite (nom_many_till_done _ _ _ rest ()); [done|]. unfold path_op.
    cbn [app]. change (0 :: rest) with ([0] ++ rest).
    by rewrite nom_preceded_eq, nom_tag_ok, nom_success_eq.
  - rewrite <- app_assoc. destruct (head_read i (concat (map path_head p) ++ [0] ++ rest) Hi)
      as [E [e Ee]].
    rewrite (nom_many_till_step _ _ _ e (concat (map path_head p) ++ [0] ++ rest) (node_of i)
               Ee E).
    + by rewrite IH.
    + rewrite (length_app (path_head i)). destruct i; cbn; lia.
Qed.

Lemma complete_read p res rest :
  Forall path_item_ok p →
  path_complete_loop (map node_of p) res (concat (map path_tail p) ++ rest) = Ok (rest, res ++ p).
Proof.
  intros Hp. revert res. induction Hp as [|i p Hi Hp IH]; intros res; cbn [map path_complete_loop].
  - by rewrite app_nil_r.
  - destruct i as [h|h]; cbn [node_of path_tail concat].
    + cbn [app]. by rewrite IH, <- app_assoc.
    + destruct Hi as [_ Hh]. rewrite <- app_assoc, path_hash_ok by done.
      by rewrite IH, <- app_assoc.
Qed.

Lemma path_read p rest :
  Forall path_item_ok p → len p ≤ 3 →
  merkle_path_nom_read (path_bytes p ++ rest) = Ok (rest, p).
Proof.
  intros Hp Hl. unfold merkle_path_nom_read. rewrite nom_flat_map_eq, nom_verify_eq, nom_map_eq.
  unfold path_bytes. rewrite <- !app_assoc, nodes_read by done. cbn [fst MAX_PASS_MERKLE_DEPTH].
  rewrite bool_decide_true by (rewrite len_map; lia).
  unfold path_complete. rewrite <- map_rev, complete_read by (by apply Forall_rev).
  cbn. by rewrite rev_involutive.
Qed.

(** The bytes that [PathCodec] writes for a Merkle path of at most three
    items with hashes of the right size are read back as the same path, and
    the reader stops at the end of the path although the hashes of the left
    turns come after its end marker, in reverse order. *)
Theorem path_roundtrip p rest d data :
  Forall path_item_ok p → path_serialize p = Ok d →
  ∃ v bs, serialize d = Ok v ∧
    codec_encode PathCodec data v (Encoding.Custom PathCodec) = Ok (data ++ bs, len bs) ∧
    merkle_path_nom_read (bs ++ rest) = Ok (rest, p).
Proof.
  intros Hp Hd. unfold path_serialize in Hd. cbn in Hd. case_decide as Hl; [done|].
  injection Hd as <-. exists (Value.List (map item_value p)), (path_bytes p). split; [|split].
  - apply serialize_path_ok.
  - unfold codec_encode. rewrite PathCodec.encode_app.
    pose proof (path_format p (Encoding.Custom PathCodec)) as E.
    destruct (PathCodec.encode [] _ _) as [[bs n]|] eqn:Ee; [|done].
    cbn in E. injection E as ->. apply PathCodec.encode_size in Ee as ->. done.
  - apply path_read; [done|lia].
Qed.

End PathRoundTrip.

Module MerklePathWitnesses.
Import Concrete ConcreteNom.

Definition example : list PathItem :=
  [PathLeft (replicate 32 1); PathRight (replicate 32 2)].

Lemma path_roundtrip_witness :
  ∃ v bs, serialize (DSeq (map path_item_data example)) = Ok v ∧
    codec_encode PathCodec [5] v (Encoding.Custom PathCodec) = Ok ([5] ++ bs, len bs) ∧
    merkle_path_nom_read (bs ++ [7]) = Ok ([7], example).
Proof.
  apply (path_roundtrip example [7] _ [5]).
  - repeat constructor; unfold is_byte; lia.
  - reflexivity.
Defined.

End MerklePathWitnesses.
