(* ===== verification/BinaryMessage.v ===== *)
(** * Binary messages and chunks: [tezos/messages/src/p2p/binary_message.rs],
      [tezos/messages/src/p2p/mod.rs] and the implementations of [SizeFromChunk]

    A message type is given by its [Encoding] and its reader, which produces
    serde data. *)

From S2P Require Import Prelude External BitUtils Hash Encoding Serializer PathCodec BinaryWriter Format NomLib NomReader Derive DeriveRoundTrip.

Definition CONTENT_LENGTH_FIELD_BYTES : Z := 2.
Definition CONTENT_LENGTH_MAX : Z := 2 ^ 16 - 1.

(** ** Reading and writing messages *)

(** [BinaryReaderError]; the text of [convert_error] is kept as the error it
    prints.  [Panicked] is not in the source: it stands for the panic of
    [finish()] on [Incomplete], which does not occur ([from_bytes_cases]). *)
Inductive BinaryReaderError :=
| ReaderError (e : DecodeError)
| UnknownTag (tag : Z)
| Panicked.

Definition map_nom_error (error : DecodeError) : BinaryReaderError :=
  match get_unknown_tag error with
  | Some unknown_tag => UnknownTag unknown_tag
  | None => ReaderError error
  end.

(** [nom::Finish::finish] and the two [map]s after it *)
Definition finish {T} (r : NomResult T) : result T BinaryReaderError :=
  match r with
  | Ok (_, output) => Ok output
  | Err (NError error) | Err (NFailure error) => Err (map_nom_error error)
  | Err Incomplete => Err Panicked
  end.

Section Read.
Context `{Nom}.

Definition complete_input {T} (parser : Parser T) (input : bytes) : result T BinaryReaderError :=
  finish (nom_complete parser input).

Definition all_consuming_complete_input {T} (parser : Parser T) (input : bytes)
    : result T BinaryReaderError :=
  finish (nom_all_consuming (nom_complete parser) input).

(** [BinaryRead::from_bytes] *)
Definition from_bytes (nom_read : Parser Data) (buf : bytes) : result Data BinaryReaderError :=
  all_consuming_complete_input nom_read buf.

(** ** [SizeFromChunk] *)

Definition peer_message_size (bytes : bytes) : result Z BinaryReaderError :=
  complete_input NomReader.size bytes.

(** for [PeerMessageResponse] *)
Definition peer_message_response_size_from_chunk (bytes : bytes) : result Z BinaryReaderError :=
  let? s := peer_message_size bytes in Ok (s + 4).

(** for [AckMessage] *)
Definition ack_message_size_from_chunk (bytes : bytes) : result Z BinaryReaderError :=
  complete_input
    (nom_alt3
       (nom_preceded (nom_tag [0]) (nom_success 1))
       (nom_preceded (nom_tag [255]) (nom_success 1))
       (nom_preceded (nom_tag [1])
          (nom_map (nom_preceded (nom_take 2) NomReader.size) (λ s, s + 3))))
    bytes.

(** for [MetadataMessage] *)
Definition metadata_message_size_from_chunk (_bytes : bytes) : result Z BinaryReaderError := Ok 2.

End Read.

Section Write.
Context `{BufMut, HexLib, BitVecLib}.

(** [BinaryWrite::as_bytes] *)
Definition as_bytes (data : Data) (encoding : Encoding) : result bytes EncodingError :=
  write data encoding.

(** ** Chunks *)

(** [BinaryChunk]: the raw bytes, with the two bytes of the length. *)
Record BinaryChunk := mkBinaryChunk { raw : bytes }.

Inductive BinaryChunkError :=
| OverflowError
| MissingSizeInformation
| IncorrectSizeInformation (expected actual : Z).

Definition from_content (content : bytes) : result BinaryChunk BinaryChunkError :=
  if decide (len content ≤ CONTENT_LENGTH_MAX) then
    let bytes := put_u16 [] (len content mod 2 ^ 16) in
    let bytes := bytes ++ content in
    Ok (mkBinaryChunk bytes)
  else Err OverflowError.

Definition content (self : BinaryChunk) : bytes :=
  drop (Z.to_nat CONTENT_LENGTH_FIELD_BYTES) (raw self).

(** [Buf::get_u16] reads a big-endian number. *)
Definition try_from (value : bytes) : result BinaryChunk BinaryChunkError :=
  if decide (len value < CONTENT_LENGTH_FIELD_BYTES) then Err MissingSizeInformation
  else if decide (len value ≤ CONTENT_LENGTH_MAX + CONTENT_LENGTH_FIELD_BYTES) then
    let expected_content_length :=
      be_val (take (Z.to_nat CONTENT_LENGTH_FIELD_BYTES) value) in
    if decide (expected_content_length + CONTENT_LENGTH_FIELD_BYTES = len value) then
      Ok (mkBinaryChunk value)
    else Err (IncorrectSizeInformation expected_content_length (len value))
  else Err OverflowError.

End Write.

(** ** Chunks: the round trip *)

Section ChunkProofs.
Context `{BufMutLaws}.

Lemma from_content_ok c :
  len c ≤ CONTENT_LENGTH_MAX → from_content c = Ok (mkBinaryChunk (be_bytes 2 (len c) ++ c)).
Proof.
  intros Hc. unfold from_content. rewrite decide_True by done. rewrite put_u16_eq.
  do 3 f_equal. cbn [app]. apply (be_bytes_mod 2 2). lia.
Qed.

Lemma content_of c : content (mkBinaryChunk (be_bytes 2 (len c) ++ c)) = c.
Proof. done. Qed.

Lemma try_from_ok c :
  len c ≤ CONTENT_LENGTH_MAX →
  try_from (be_bytes 2 (len c) ++ c) = Ok (mkBinaryChunk (be_bytes 2 (len c) ++ c)).
Proof.
  intros Hc. unfold try_from. pose proof (len_nonneg c).
  assert (len (be_bytes 2 (len c) ++ c) = 2 + len c) as E by by rewrite len_app, len_be_bytes.
  unfold CONTENT_LENGTH_FIELD_BYTES, CONTENT_LENGTH_MAX in *.
  rewrite E, decide_False, decide_True by lia.
  change (take (Z.to_nat 2) (be_bytes 2 (len c) ++ c)) with (be_bytes 2 (len c)).
  rewrite be_val_be_bytes, Z.mod_small by (simpl; lia). by rewrite decide_True by lia.
Qed.

(** A chunk built from a content of at most 65535 bytes is accepted when
    its raw bytes arrive and gives the content back; and nothing else is
    accepted: accepted raw bytes are the chunk of their content. *)
Theorem chunk_roundtrip c v ch :
  (len c ≤ CONTENT_LENGTH_MAX →
   ∃ k, from_content c = Ok k ∧ try_from (raw k) = Ok k ∧ content k = c) ∧
  (bytes_ok v → try_from v = Ok ch → raw ch = v ∧ from_content (content ch) = Ok ch).
Proof.
  split.
  - intros Hc. exists (mkBinaryChunk (be_bytes 2 (len c) ++ c)).
    split; [by apply from_content_ok|]. split; [|apply content_of].
    cbn [raw]. by apply try_from_ok.
  - intros Hv. unfold try_from. unfold CONTENT_LENGTH_FIELD_BYTES, CONTENT_LENGTH_MAX.
    case_decide as H1'; [done|]. case_decide as H2'; [|done]. case_decide as H3'; [|done].
    intros [= <-]. split; [done|].
    destruct v as [|a [|b v]]; [done|done|].
    change (content (mkBinaryChunk (a :: b :: v))) with v.
    change (take (Z.to_nat 2) (a :: b :: v)) with [a; b] in H3'.
    rewrite !len_cons in *.
    rewrite from_content_ok by (unfold CONTENT_LENGTH_MAX; lia).
    apply Forall_cons in Hv as [Ha Hv]. apply Forall_cons in Hv as [Hb _].
    replace (len v) with (be_val [a; b]) by lia.
    assert (be_bytes 2 (be_val [a; b]) = [a; b]) as ->; [|done].
    apply (be_bytes_be_val [a; b]). constructor; [done|]. by constructor.
Qed.

End ChunkProofs.

(** ** Reading whole messages *)

Section ReadProofs.
Context `{NomLaws}.

(** [from_bytes] by cases on the reader; it does not panic. *)
Lemma from_bytes_cases p buf :
  from_bytes p buf =
  match p buf with
  | Ok ([], d) => Ok d
  | Ok (r, _) => Err (ReaderError (from_error_kind r ErrorKind.Eof))
  | Err Incomplete => Err (ReaderError (from_error_kind buf ErrorKind.Complete))
  | Err (NError e) | Err (NFailure e) => Err (map_nom_error e)
  end.
Proof.
  unfold from_bytes, all_consuming_complete_input. rewrite nom_all_consuming_eq, nom_complete_eq.
  destruct (p buf) as [[[|b r] d]|[| |]]; done.
Qed.

Lemma ack_size_nack motive s rest :
  length motive = 2%nat → 0 ≤ s ≤ u32_max →
  ack_message_size_from_chunk ([1] ++ motive ++ be_bytes 4 s ++ rest) = Ok (s + 3).
Proof.
  intros Hm Hs. unfold ack_message_size_from_chunk, complete_input.
  rewrite nom_complete_eq, nom_alt3_eq, !nom_preceded_eq.
  rewrite (nom_tag_fail [0]), (nom_tag_fail [255]) by (by intros [|]).
  rewrite nom_tag_ok, nom_map_eq, nom_preceded_eq.
  rewrite nom_take_ok, drop_app_length' by (rewrite ?length_app; lia).
  by rewrite size_ok.
Qed.

Lemma ack_size_plain b rest :
  b = 0 ∨ b = 255 → ack_message_size_from_chunk (b :: rest) = Ok 1.
Proof.
  intros Hb. unfold ack_message_size_from_chunk, complete_input.
  rewrite nom_complete_eq, nom_alt3_eq, !nom_preceded_eq. destruct Hb as [-> | ->].
  - change (0 :: rest) with ([0] ++ rest). by rewrite nom_tag_ok, nom_success_eq.
  - rewrite (nom_tag_fail [0]) by (by intros [|]).
    change (255 :: rest) with ([255] ++ rest). by rewrite nom_tag_ok, nom_success_eq.
Qed.

Lemma peer_message_size_ok s rest :
  0 ≤ s ≤ u32_max →
  peer_message_response_size_from_chunk (be_bytes 4 s ++ rest) = Ok (s + 4).
Proof.
  intros Hs. unfold peer_message_response_size_from_chunk, peer_message_size, complete_input.
  by rewrite nom_complete_eq, size_ok.
Qed.

End ReadProofs.

Module BinaryMessageWitnesses.
Import Concrete.

Lemma chunk_roundtrip_witness :
  ∃ k, from_content [1; 2; 3] = Ok k ∧ try_from (raw k) = Ok k ∧ content k = [1; 2; 3].
Proof. by apply (chunk_roundtrip [1; 2; 3] [] (mkBinaryChunk [])). Defined.

End BinaryMessageWitnesses.
