(* ===== verification/Messages.v ===== *)
(** * The messages of the peer-to-peer protocol:
      [tezos/messages/src/p2p/encoding/*.rs]

    Every message type is the syntax tree of its declaration, with its
    [#[encoding(...)]] attributes; its schema is what [make_encoding] computes
    from it.  The limits in the attributes are the constants of [limits.rs]. *)

From S2P Require Import Prelude External BitUtils Hash Encoding Serializer PathCodec BinaryWriter Format NomLib NomReader Derive DeriveRoundTrip Make Crypto MerklePath BinaryMessage.

(** ** [limits.rs] *)

Definition BLOCK_HEADER_MAX_SIZE : Z := 8 * 1024 * 1024.
Definition MEMPOOL_MAX_OPERATIONS : Z := 4000.
Definition MEMPOOL_MAX_SIZE : Z := 8 + MEMPOOL_MAX_OPERATIONS * size OperationHash.
Definition MESSAGE_MAX_SIZE : Z :=
  4 + 2 + (size ChainId + 4 + BLOCK_HEADER_MAX_SIZE + MEMPOOL_MAX_SIZE).
Definition P2P_POINT_MAX_SIZE : Z := 4 + 4 * 8 + 7 + 2 + 1 + 5.
Definition NACK_PEERS_MAX_LENGTH : Z := 100.
Definition ADVERTISE_ID_LIST_MAX_LENGTH : Z := 100.
Definition CURRENT_BRANCH_HISTORY_MAX_LENGTH : Z := 1000.
Definition OPERATION_MAX_SIZE : Z := 128 * 1024.
Definition PROTOCOL_MAX_SIZE : Z := 2 * 1024 * 1024.
Definition GET_BLOCK_HEADERS_MAX_LENGTH : Z := 10.
Definition GET_OPERATIONS_MAX_LENGTH : Z := 10.
Definition GET_PROTOCOLS_MAX_LENGTH : Z := 10.
Definition PROTOCOL_COMPONENT_MAX_SIZE : Z := PROTOCOL_MAX_SIZE - 2.
Definition GET_OPERATIONS_FOR_BLOCKS_MAX_LENGTH : Z := 10.
Definition OPERATION_LIST_MAX_SIZE : Z := 1024 * 1024.
Definition CHAIN_NAME_MAX_LENGTH : Z := 128.

(** The constants that occur in attributes, by the text of the expression. *)
Definition constants : list (string * Z) :=
  [("MESSAGE_MAX_SIZE", MESSAGE_MAX_SIZE);
   ("P2P_POINT_MAX_SIZE", P2P_POINT_MAX_SIZE);
   ("NACK_PEERS_MAX_LENGTH", NACK_PEERS_MAX_LENGTH);
   ("ADVERTISE_ID_LIST_MAX_LENGTH", ADVERTISE_ID_LIST_MAX_LENGTH);
   ("CURRENT_BRANCH_HISTORY_MAX_LENGTH", CURRENT_BRANCH_HISTORY_MAX_LENGTH);
   ("BLOCK_HEADER_MAX_SIZE", BLOCK_HEADER_MAX_SIZE);
   ("super::limits::BLOCK_HEADER_MAX_SIZE", BLOCK_HEADER_MAX_SIZE);
   ("OPERATION_MAX_SIZE", OPERATION_MAX_SIZE);
   ("MEMPOOL_MAX_SIZE", MEMPOOL_MAX_SIZE);
   ("GET_BLOCK_HEADERS_MAX_LENGTH", GET_BLOCK_HEADERS_MAX_LENGTH);
   ("GET_OPERATIONS_MAX_LENGTH", GET_OPERATIONS_MAX_LENGTH);
   ("GET_PROTOCOLS_MAX_LENGTH", GET_PROTOCOLS_MAX_LENGTH);
   ("PROTOCOL_COMPONENT_MAX_SIZE", PROTOCOL_COMPONENT_MAX_SIZE);
   ("GET_OPERATIONS_FOR_BLOCKS_MAX_LENGTH", GET_OPERATIONS_FOR_BLOCKS_MAX_LENGTH);
   ("OPERATION_LIST_MAX_SIZE", OPERATION_LIST_MAX_SIZE);
   ("CHAIN_NAME_MAX_LENGTH", CHAIN_NAME_MAX_LENGTH);
   ("CRYPTO_KEY_SIZE", CRYPTO_KEY_SIZE);
   ("POW_SIZE", POW_SIZE);
   ("NONCE_SIZE", NONCE_SIZE)]%string.

#[global] Instance message_exprs : ExprEnv := {| parse_expr s := hm_get s constants |}.

(** ** Notation for declarations *)

Declare Scope syn_scope.
Delimit Scope syn_scope with syn.
Open Scope syn_scope.

(** [#[encoding(m1, ..., mn)]] *)
Definition enc (metas : list Meta) : list Attribute :=
  [mkAttribute "encoding" (Some (MetaList "encoding" (map NestedMetaMeta metas)))].

Notation "k ':=s' v" := (MetaNameValue k%string (LitStr v%string)) (at level 70) : syn_scope.
Notation "k ':=i' v" := (MetaNameValue k%string (LitInt v)) (at level 70) : syn_scope.
Notation "'word' k" := (MetaPath k%string) (at level 60, k at level 0) : syn_scope.

Definition ty (ident : string) : Ty := TypePath ident ArgsNone.
Definition vec (t : Ty) : Ty := TypePath "Vec" (AngleBracketed [GenericType t]).
Definition opt (t : Ty) : Ty := TypePath "Option" (AngleBracketed [GenericType t]).

Definition struct (name : string) (attrs : list Attribute) (fields : list SynField) : DeriveInput :=
  mkDeriveInput attrs name (DataStruct (FieldsNamed fields)).
Definition enum (name : string) (attrs : list Attribute) (variants : list Variant) : DeriveInput :=
  mkDeriveInput attrs name (DataEnum variants).
Definition unit_variant (attrs : list Attribute) (name : string) : Variant :=
  mkVariant attrs name FieldsUnit.
Definition newtype_variant (attrs : list Attribute) (name payload : string) : Variant :=
  mkVariant attrs name (FieldsUnnamed [mkSynField [] "" (ty payload)]).

(** ** Declarations *)

Definition NetworkVersion : DeriveInput :=
  struct "NetworkVersion" []
    [mkSynField (enc ["string" :=s "CHAIN_NAME_MAX_LENGTH"]) "chain_name" (ty "String");
     mkSynField [] "distributed_db_version" (ty "u16");
     mkSynField [] "p2p_version" (ty "u16")].

Definition ConnectionMessage : DeriveInput :=
  struct "ConnectionMessage" []
    [mkSynField [] "port" (ty "u16");
     mkSynField (enc ["sized" :=s "CRYPTO_KEY_SIZE"; word "bytes"]) "public_key" (vec (ty "u8"));
     mkSynField (enc ["sized" :=s "POW_SIZE"; word "bytes"]) "proof_of_work_stamp" (vec (ty "u8"));
     mkSynField (enc ["sized" :=s "NONCE_SIZE"; word "bytes"]) "message_nonce" (vec (ty "u8"));
     mkSynField [] "version" (ty "NetworkVersion")].

Definition MetadataMessage : DeriveInput :=
  struct "MetadataMessage" []
    [mkSynField [] "disable_mempool" (ty "bool");
     mkSynField [] "private_node" (ty "bool")].

Definition NackMotive : DeriveInput :=
  enum "NackMotive" (enc ["tags" :=s "u16"])
    [unit_variant [] "NoMotive"; unit_variant [] "TooManyConnections";
     unit_variant [] "UnknownChainName"; unit_variant [] "DeprecatedP2pVersion";
     unit_variant [] "DeprecatedDistributedDbVersion"; unit_variant [] "AlreadyConnected"].

Definition NackInfo : DeriveInput :=
  struct "NackInfo" []
    [mkSynField [] "motive" (ty "NackMotive");
     mkSynField (enc [word "dynamic"; "list" :=s "NACK_PEERS_MAX_LENGTH";
                      "bounded" :=s "P2P_POINT_MAX_SIZE"])
       "potential_peers_to_connect" (vec (ty "String"))].

Definition AckMessage : DeriveInput :=
  enum "AckMessage" []
    [unit_variant (enc ["tag" :=i 0x00]) "Ack";
     unit_variant (enc ["tag" :=i 0xff]) "NackV0";
     newtype_variant (enc ["tag" :=i 0x01]) "Nack" "NackInfo"].

Definition AdvertiseMessage : DeriveInput :=
  struct "AdvertiseMessage" []
    [mkSynField (enc ["list" :=s "ADVERTISE_ID_LIST_MAX_LENGTH"; "bounded" :=s "P2P_POINT_MAX_SIZE"])
       "id" (vec (ty "String"))].

Definition SwapMessage : DeriveInput :=
  struct "SwapMessage" []
    [mkSynField (enc ["bounded" :=s "P2P_POINT_MAX_SIZE"]) "point" (ty "String");
     mkSynField [] "peer_id" (ty "CryptoboxPublicKeyHash")].

Definition DeactivateMessage : DeriveInput :=
  struct "DeactivateMessage" [] [mkSynField [] "deactivate" (ty "ChainId")].

Definition BlockHeader : DeriveInput :=
  struct "BlockHeader" (enc ["bounded" :=s "BLOCK_HEADER_MAX_SIZE"])
    [mkSynField (enc ["builtin" :=s "Int32"]) "level" (ty "Level");
     mkSynField [] "proto" (ty "u8");
     mkSynField [] "predecessor" (ty "BlockHash");
     mkSynField (enc [word "timestamp"]) "timestamp" (ty "i64");
     mkSynField [] "validation_pass" (ty "u8");
     mkSynField [] "operations_hash" (ty "OperationListListHash");
     mkSynField
       (enc [MetaList "composite"
               (map NestedMetaMeta [word "dynamic"; word "list"; word "dynamic"; word "list";
                                    "builtin" :=s "Uint8"])])
       "fitness" (ty "Fitness");
     mkSynField [] "context" (ty "ContextHash");
     mkSynField (enc [word "list"; "builtin" :=s "Uint8"]) "protocol_data" (vec (ty "u8"))].

Definition BlockHeaderMessage : DeriveInput :=
  struct "BlockHeaderMessage" [] [mkSynField [] "block_header" (ty "BlockHeader")].

Definition GetBlockHeadersMessage : DeriveInput :=
  struct "GetBlockHeadersMessage" []
    [mkSynField (enc [word "dynamic"; "list" :=s "GET_BLOCK_HEADERS_MAX_LENGTH"])
       "get_block_headers" (vec (ty "BlockHash"))].

Definition Mempool : DeriveInput :=
  struct "Mempool" (enc ["bounded" :=s "MEMPOOL_MAX_SIZE"])
    [mkSynField (enc [word "dynamic"; word "list"]) "known_valid" (vec (ty "OperationHash"));
     mkSynField (enc [word "dynamic"; word "dynamic"; word "list"]) "pending"
       (vec (ty "OperationHash"))].

Definition CurrentHeadMessage : DeriveInput :=
  struct "CurrentHeadMessage" []
    [mkSynField [] "chain_id" (ty "ChainId");
     mkSynField (enc ["dynamic" :=s "BLOCK_HEADER_MAX_SIZE"]) "current_block_header"
       (ty "BlockHeader");
     mkSynField [] "current_mempool" (ty "Mempool")].

Definition GetCurrentHeadMessage : DeriveInput :=
  struct "GetCurrentHeadMessage" [] [mkSynField [] "chain_id" (ty "ChainId")].

Definition CurrentBranch : DeriveInput :=
  struct "CurrentBranch" []
    [mkSynField (enc ["dynamic" :=s "super::limits::BLOCK_HEADER_MAX_SIZE"]) "current_head"
       (ty "BlockHeader");
     mkSynField (enc ["list" :=s "CURRENT_BRANCH_HISTORY_MAX_LENGTH"]) "history"
       (vec (ty "BlockHash"))].

Definition CurrentBranchMessage : DeriveInput :=
  struct "CurrentBranchMessage" []
    [mkSynField [] "chain_id" (ty "ChainId");
     mkSynField [] "current_branch" (ty "CurrentBranch")].

Definition GetCurrentBranchMessage : DeriveInput :=
  struct "GetCurrentBranchMessage" [] [mkSynField [] "chain_id" (ty "ChainId")].

Definition OperationDecl : DeriveInput :=
  struct "Operation" []
    [mkSynField [] "branch" (ty "BlockHash");
     mkSynField (enc ["list" :=s "OPERATION_MAX_SIZE"]) "data" (vec (ty "u8"))].

Definition OperationMessage : DeriveInput :=
  struct "OperationMessage" [] [mkSynField [] "operation" (ty "Operation")].

Definition GetOperationsMessage : DeriveInput :=
  struct "GetOperationsMessage" []
    [mkSynField (enc [word "dynamic"; "list" :=s "GET_OPERATIONS_MAX_LENGTH"]) "get_operations"
       (vec (ty "OperationHash"))].

Definition Component : DeriveInput :=
  struct "Component" []
    [mkSynField [] "name" (ty "String");
     mkSynField [] "interface" (opt (ty "String"));
     mkSynField [] "implementation" (ty "String")].

Definition Protocol : DeriveInput :=
  struct "Protocol" []
    [mkSynField [] "expected_env_version" (ty "i16");
     mkSynField (enc ["dynamic" :=s "PROTOCOL_COMPONENT_MAX_SIZE"; word "list"]) "components"
       (vec (ty "Component"))].

Definition ProtocolMessage : DeriveInput :=
  struct "ProtocolMessage" [] [mkSynField [] "protocol" (ty "Protocol")].

Definition GetProtocolsMessage : DeriveInput :=
  struct "GetProtocolsMessage" []
    [mkSynField (enc [word "dynamic"; "list" :=s "GET_PROTOCOLS_MAX_LENGTH"]) "get_protocols"
       (vec (ty "ProtocolHash"))].

Definition OperationsForBlock : DeriveInput :=
  struct "OperationsForBlock" []
    [mkSynField [] "hash" (ty "BlockHash");
     mkSynField [] "validation_pass" (ty "i8")].

Definition OperationsForBlocksMessage : DeriveInput :=
  struct "OperationsForBlocksMessage" []
    [mkSynField [] "operations_for_block" (ty "OperationsForBlock");
     mkSynField [] "operation_hashes_path" (ty "Path");
     mkSynField (enc ["bounded" :=s "OPERATION_LIST_MAX_SIZE"; word "list"; word "dynamic"])
       "operations" (vec (ty "Operation"))].

Definition GetOperationsForBlocksMessage : DeriveInput :=
  struct "GetOperationsForBlocksMessage" []
    [mkSynField (enc [word "dynamic"; "list" :=s "GET_OPERATIONS_FOR_BLOCKS_MAX_LENGTH"])
       "get_operations_for_blocks" (vec (ty "OperationsForBlock"))].

Definition PeerMessage : DeriveInput :=
  enum "PeerMessage" (enc ["tags" :=s "u16"; word "ignore_unknown"])
    [unit_variant (enc ["tag" :=i 0x01]) "Disconnect";
     newtype_variant (enc ["tag" :=i 0x03]) "Advertise" "AdvertiseMessage";
     newtype_variant (enc ["tag" :=i 0x04]) "SwapRequest" "SwapMessage";
     newtype_variant (enc ["tag" :=i 0x05]) "SwapAck" "SwapMessage";
     unit_variant (enc ["tag" :=i 0x02]) "Bootstrap";
     newtype_variant (enc ["tag" :=i 0x10]) "GetCurrentBranch" "GetCurrentBranchMessage";
     newtype_variant (enc ["tag" :=i 0x11]) "CurrentBranch" "CurrentBranchMessage";
     newtype_variant (enc ["tag" :=i 0x12]) "Deactivate" "DeactivateMessage";
     newtype_variant (enc ["tag" :=i 0x13]) "GetCurrentHead" "GetCurrentHeadMessage";
     newtype_variant (enc ["tag" :=i 0x14]) "CurrentHead" "CurrentHeadMessage";
     newtype_variant (enc ["tag" :=i 0x20]) "GetBlockHeaders" "GetBlockHeadersMessage";
     newtype_variant (enc ["tag" :=i 0x21]) "BlockHeader" "BlockHeaderMessage";
     newtype_variant (enc ["tag" :=i 0x30]) "GetOperations" "GetOperationsMessage";
     newtype_variant (enc ["tag" :=i 0x31]) "Operation" "OperationMessage";
     newtype_variant (enc ["tag" :=i 0x40]) "GetProtocols" "GetProtocolsMessage";
     newtype_variant (enc ["tag" :=i 0x41]) "Protocol" "ProtocolMessage";
     newtype_variant (enc ["tag" :=i 0x60]) "GetOperationsForBlocks" "GetOperationsForBlocksMessage";
     newtype_variant (enc ["tag" :=i 0x61]) "OperationsForBlocks" "OperationsForBlocksMessage"].

Definition PeerMessageResponse : DeriveInput :=
  struct "PeerMessageResponse" (enc ["dynamic" :=s "MESSAGE_MAX_SIZE"])
    [mkSynField [] "message" (ty "PeerMessage")].

(** All the declarations, a type after the types it mentions. *)
Definition p2p_inputs : list DeriveInput :=
  [NetworkVersion; ConnectionMessage; MetadataMessage; NackMotive; NackInfo; AckMessage;
   AdvertiseMessage; SwapMessage; DeactivateMessage; BlockHeader; BlockHeaderMessage;
   GetBlockHeadersMessage; Mempool; CurrentHeadMessage; GetCurrentHeadMessage; CurrentBranch;
   CurrentBranchMessage; GetCurrentBranchMessage; OperationDecl; OperationMessage;
   GetOperationsMessage; Component; Protocol; ProtocolMessage; GetProtocolsMessage;
   OperationsForBlock; OperationsForBlocksMessage; GetOperationsForBlocksMessage; PeerMessage;
   PeerMessageResponse].

(** The schemas that the derive macros compute for them. *)
Definition p2p_schemas : list (string * DEncoding) :=
  match collect make_encoding p2p_inputs with
  | Ok ds => map (λ d, (data_name d, data_encoding d)) ds
  | Err _ => []
  end.

(** ** The types that are not derived: hashes and Merkle paths *)

Definition hash_names : list (string * HashType) :=
  [("ChainId", ChainId); ("BlockHash", BlockHash); ("BlockMetadataHash", BlockMetadataHash);
   ("OperationHash", OperationHash); ("OperationListListHash", OperationListListHash);
   ("OperationMetadataHash", OperationMetadataHash);
   ("OperationMetadataListListHash", OperationMetadataListListHash);
   ("ContextHash", ContextHash); ("ProtocolHash", ProtocolHash);
   ("ContractKt1Hash", ContractKt1Hash); ("ContractTz1Hash", ContractTz1Hash);
   ("ContractTz2Hash", ContractTz2Hash); ("ContractTz3Hash", ContractTz3Hash);
   ("CryptoboxPublicKeyHash", CryptoboxPublicKeyHash); ("PublicKeyEd25519", PublicKeyEd25519);
   ("PublicKeySecp256k1", PublicKeySecp256k1); ("PublicKeyP256", PublicKeyP256)]%string.

(** [#[derive(Serialize)]] on [struct $name(pub Hash)] *)
Definition typed_hash_data (name : string) (h : bytes) : Data := DNewtypeStruct name (hash_data h).

Section BaseTypes.
Context `{BufMut, HexLib, BitVecLib, Nom, BigIntLib}.

#[local] Instance base_env : TypeEnv := {|
  path_encoding p :=
    match hm_get p hash_names with
    | Some h => Encoding.Hash h
    | None => if decide (p = "Path"%string) then Encoding.Custom PathCodec else Encoding.Unit
    end;
  path_nom_read p :=
    match hm_get p hash_names with
    | Some h => as_data (typed_hash_data p) (NomReader.hash_nom_read h)
    | None =>
        if decide (p = "Path"%string) then
          as_data (λ l, DSeq (map path_item_data l)) merkle_path_nom_read
        else not_generated
    end;
  field_default _ _ := None
|}.

#[local] Instance base_spec : TypeSpec := {|
  path_typed p d :=
    match hm_get p hash_names with
    | Some h => ∃ bs, d = typed_hash_data p bs ∧ bytes_ok bs ∧ len bs = size h
    | None =>
        p = "Path"%string ∧
        ∃ l, path_serialize l = Ok d ∧ Forall path_item_ok l
    end;
  path_delimited _ := true;
  path_nonempty p :=
    match hm_get p hash_names with Some _ => true | None => bool_decide (p = "Path"%string) end
|}.

Context `{!BufMutLaws, !NomLaws}.

Lemma hash_codec_ok p h :
  codec_ok (Encoding.Hash h) (as_data (typed_hash_data p) (NomReader.hash_nom_read h))
    (λ d, ∃ bs, d = typed_hash_data p bs ∧ bytes_ok bs ∧ len bs = size h) true.
Proof.
  intros d v bs i (l & -> & Hl & Hs) Hser Hf _.
  change (serialize (typed_hash_data p l)) with (serialize (DSeq (map DU8 l))) in Hser.
  rewrite serialize_u8s in Hser. injection Hser as <-.
  cbn [format] in Hf. rewrite format_u8s_bytes in Hf by done. cbn in Hf.
  apply guard_opt_Some in Hf as [_ [= <-]]. unfold as_data.
  by rewrite hash_nom_read_ok.
Qed.

Lemma path_codec_ok :
  codec_ok (Encoding.Custom PathCodec) (as_data (λ l, DSeq (map path_item_data l)) merkle_path_nom_read)
    (λ d, ∃ l, path_serialize l = Ok d ∧ Forall path_item_ok l) true.
Proof.
  intros d v bs i (l & Hd & Hl) Hser Hf _. unfold path_serialize, MAX_PASS_MERKLE_DEPTH in Hd.
  case_decide as Hlen; [done|]. injection Hd as <-.
  rewrite serialize_path_ok in Hser. injection Hser as <-. cbn [format codec_encode] in Hf.
  rewrite path_format in Hf. injection Hf as <-. unfold as_data. by rewrite path_read by (try done; lia).
Qed.

Lemma hash_empty h p : fails_on_empty (as_data (typed_hash_data p) (NomReader.hash_nom_read h)).
Proof.
  eexists. unfold as_data, NomReader.hash_nom_read.
  rewrite nom_map_eq, nom_take_short by (destruct h; cbn; lia). done.
Qed.

Lemma path_read_empty : fails_on_empty (as_data (λ l, DSeq (map path_item_data l)) merkle_path_nom_read).
Proof.
  eexists. unfold as_data, merkle_path_nom_read. rewrite nom_flat_map_eq, nom_verify_eq, nom_map_eq.
  erewrite nom_many_till_fail; [done| |].
  - unfold path_op. by rewrite nom_preceded_eq, nom_tag_fail by (by intros [|]).
  - unfold path_left, path_right.
    by rewrite nom_alt_eq, !nom_preceded_eq, !nom_tag_fail by (by intros [|]).
Qed.

Lemma base_laws : TypeSpecLaws.
Proof.
  split; intros p;
    cbn [path_encoding path_nom_read path_typed path_delimited path_nonempty base_env base_spec].
  - destruct (hm_get p hash_names) as [h|] eqn:E; [apply hash_codec_ok|].
    intros d v bs i [-> Hd] Hs Hf Hi. rewrite decide_True in Hf by done. rewrite decide_True by done.
    by apply (path_codec_ok d v).
  - destruct (hm_get p hash_names) as [h|] eqn:E; [intros _; apply hash_empty|].
    intros Hp. apply bool_decide_eq_true in Hp as ->. rewrite decide_True by done.
    apply path_read_empty.
Qed.

End BaseTypes.

(** ** The message types *)

Definition p2p_schemas_value : list (string * DEncoding) := Eval vm_compute in p2p_schemas.

(** [make_encoding] accepts every declaration. *)
Lemma p2p_schemas_made :
  p2p_schemas = p2p_schemas_value ∧
  map fst p2p_schemas_value = map di_ident p2p_inputs.
Proof. split; vm_compute; reflexivity. Qed.

Section P2p.
Context `{BufMut, HexLib, BitVecLib, Nom, BigIntLib, BigIntSerde}.

Definition p2p_env : TypeEnv := declare_all base_env p2p_schemas.
Definition p2p_spec : TypeSpec := declare_all_spec base_env base_spec p2p_schemas.

#[local] Existing Instance p2p_env.
#[local] Existing Instance p2p_spec.

Lemma p2p_wf : wf_all base_env base_spec p2p_schemas = true.
Proof. vm_compute. reflexivity. Qed.

Context `{!BufMutLaws, !NomLaws}.

Lemma p2p_laws : TypeSpecLaws.
Proof. apply declare_all_laws; [apply base_laws|apply p2p_wf]. Qed.

Lemma message_read_back name d bs :
  path_typed name d → as_bytes d (path_encoding name) = Ok bs →
  from_bytes (path_nom_read name) bs = Ok d.
Proof.
  intros Ht Hw. rewrite from_bytes_cases.
  assert (path_nom_read name (bs ++ []) = Ok ([], d)) as E.
  { eapply codec_ok_write; [apply (@path_ok _ _ _ _ _ p2p_laws)|done|done|by right]. }
  rewrite app_nil_r in E. by rewrite E.
Qed.

(** C36: every message of the peer-to-peer protocol round-trips: for each type
    that is declared (and each hash and Merkle path), the bytes that
    [as_bytes] produces for a value of the type are accepted by [from_bytes]
    and give the same value. *)
Theorem message_roundtrip name d bs :
  path_typed name d → as_bytes d (path_encoding name) = Ok bs →
  from_bytes (path_nom_read name) bs = Ok d.
Proof. apply message_read_back. Qed.

(** What a declaration is made of: the [i]-th type refers to the ones before it. *)
Definition p2p_prefix (i : nat) : TypeEnv := declare_all base_env (take i p2p_schemas_value).

Lemma p2p_declared i n e :
  p2p_schemas_value !! i = Some (n, e) →
  bool_decide (n ∉ map fst (drop (S i) p2p_schemas_value)) = true →
  path_encoding n = @generate_encoding (p2p_prefix i) e ∧
  path_nom_read n = @generate_nom_read (p2p_prefix i) _ _ _ _ e.
Proof.
  intros Hi Hn. apply bool_decide_eq_true in Hn. unfold p2p_env, p2p_prefix.
  pose proof (declared base_env (take i p2p_schemas_value) n e _ Hn) as Hd.
  rewrite (take_drop_middle _ _ _ Hi), <- (proj1 p2p_schemas_made) in Hd at 1.
  rewrite (take_drop_middle _ _ _ Hi) in Hd. by rewrite <- (proj1 p2p_schemas_made) in Hd at 2.
Qed.

Definition p2p_prefix_spec (i : nat) : TypeSpec :=
  declare_all_spec base_env base_spec (take i p2p_schemas_value).

Lemma p2p_declared_typed i n e :
  p2p_schemas_value !! i = Some (n, e) →
  bool_decide (n ∉ map fst (drop (S i) p2p_schemas_value)) = true →
  path_typed n = @typed (p2p_prefix i) (p2p_prefix_spec i) _ e.
Proof.
  intros Hi Hn. apply bool_decide_eq_true in Hn. unfold p2p_spec, p2p_prefix, p2p_prefix_spec.
  pose proof (declared_typed base_env base_spec (take i p2p_schemas_value) n e _ Hn) as Hd.
  by rewrite (take_drop_middle _ _ _ Hi), <- (proj1 p2p_schemas_made) in Hd at 1.
Qed.

Lemma p2p_earlier_typed i n :
  bool_decide (n ∉ map fst (drop i p2p_schemas_value)) = true →
  @path_typed (p2p_prefix_spec i) n = path_typed n.
Proof.
  intros Hn. apply bool_decide_eq_true in Hn. unfold p2p_spec, p2p_prefix_spec.
  rewrite (proj1 p2p_schemas_made). set (l := p2p_schemas_value) in *. clearbody l.
  rewrite <- (take_drop i l) at 2. rewrite declare_all_spec_app. symmetry.
  by apply declare_all_spec_other.
Qed.

Lemma p2p_earlier i n :
  bool_decide (n ∉ map fst (drop i p2p_schemas_value)) = true →
  @path_encoding (p2p_prefix i) n = path_encoding n ∧
  @path_nom_read (p2p_prefix i) n = path_nom_read n.
Proof.
  intros Hn. apply bool_decide_eq_true in Hn. unfold p2p_env, p2p_prefix.
  rewrite (proj1 p2p_schemas_made). set (l := p2p_schemas_value) in *. clearbody l.
  rewrite <- (take_drop i l) at 2 4. rewrite declare_all_app.
  destruct (declare_all_other (declare_all base_env (take i l)) (drop i l) n Hn). done.
Qed.

(** ** Unknown tags *)

Definition struct_one (name field : string) (read : Parser Data) : Parser Data :=
  nom_map (NomReader.field field (as_data (λ d, Some (field, d)) read))
    (λ v, DStruct name (option_list v)).

Lemma peer_message_response_reader :
  path_nom_read "PeerMessageResponse" =
  NomReader.bounded_dynamic MESSAGE_MAX_SIZE
    (struct_one "PeerMessageResponse" "message" (path_nom_read "PeerMessage")).
Proof.
  rewrite <- (proj2 (p2p_earlier 29 "PeerMessage" eq_refl)).
  rewrite (proj2 (p2p_declared 29 "PeerMessageResponse" _ eq_refl eq_refl)).
  assert (MESSAGE_MAX_SIZE = 8516630) as -> by (vm_compute; reflexivity).
  reflexivity.
Qed.

(** The tags of [PeerMessage], as its [#[encoding(tag = ..)]] attributes give them. *)
Definition peer_message_tags : list (Tag DEncoding) :=
  match p2p_schemas_value !! 28%nat with
  | Some (_, Derive.Enum _ _ _ tags) => tags
  | _ => []
  end.

Lemma peer_message_reader :
  ∃ read, path_nom_read "PeerMessage" =
          generate_enum_nom_read read "PeerMessage" TagU16 true peer_message_tags.
Proof. eexists. exact (proj2 (p2p_declared 28 "PeerMessage" _ eq_refl eq_refl)). Qed.

Lemma read_variant_unknown read name ign tag idx tags i :
  tag ∉ map get_id tags →
  read_variant read name ign tag idx tags i =
  Err (NFailure ((if ign then unknown_tag else invalid_tag) i tag)).
Proof.
  revert idx. induction tags as [|t tags IH]; intros idx Ht; [done|].
  cbn in Ht. apply not_elem_of_cons in Ht as [Ht Hts]. cbn [read_variant].
  rewrite decide_False by done. by apply IH.
Qed.

Lemma peer_message_unknown tag rest :
  0 ≤ tag < 2 ^ 16 → tag ∉ map get_id peer_message_tags →
  path_nom_read "PeerMessage" (be_bytes 2 tag ++ rest) = Err (NFailure (unknown_tag rest tag)).
Proof.
  intros Ht Hn. destruct peer_message_reader as [read ->]. unfold generate_enum_nom_read.
  rewrite (tag_read_ok TagU16 tag) by done. by apply read_variant_unknown.
Qed.

Lemma size_cases i :
  (∃ r n, NomReader.size i = Ok (r, n)) ∨
  NomReader.size i = Err (NError (from_error_kind i ErrorKind.Eof)).
Proof.
  destruct (decide (length i < 4)%nat); [right; by apply size_short|left].
  destruct nom_be_u32_spec as [E _]. unfold NomReader.size.
  rewrite <- (take_drop 4 i), E by (rewrite length_take; lia). eauto.
Qed.

(** The node does not recognise messages with an unknown tag.
    [PeerMessage] is declared with [ignore_unknown], its reader reports an
    unknown tag, and the receiver skips a message with the error [UnknownTag];
    but the type on the wire is [PeerMessageResponse], whose reader wraps the
    error of its field [message], and [map_nom_error] looks at the outermost
    error only.  So [UnknownTag] is never returned for a [PeerMessageResponse],
    and a well-formed frame with an unknown tag is an ordinary decoding error. *)
Theorem unknown_tag_not_reported buf tag rest :
  from_bytes (path_nom_read "PeerMessageResponse") buf ≠ Err (UnknownTag tag) ∧
  (0 ≤ tag < 2 ^ 16 → tag ∉ map get_id peer_message_tags → len rest + 2 ≤ MESSAGE_MAX_SIZE →
   from_bytes (path_nom_read "PeerMessage") (be_bytes 2 tag ++ rest) = Err (UnknownTag tag) ∧
   from_bytes (path_nom_read "PeerMessageResponse")
     (be_bytes 4 (len rest + 2) ++ be_bytes 2 tag ++ rest)
   = Err (ReaderError (add_field "message" (unknown_tag rest tag)))).
Proof.
  rewrite peer_message_response_reader. split.
  - rewrite from_bytes_cases. unfold NomReader.bounded_dynamic. rewrite nom_length_value_eq.
    unfold NomReader.bounded_size.
    destruct (size_cases buf) as [(r & n & ->) | ->]; [|done].
    case_decide; [|done]. case_decide; [|done]. cbn zeta. rewrite nom_all_consuming_eq.
    unfold struct_one. rewrite nom_map_eq. unfold NomReader.field, as_data.
    destruct (path_nom_read "PeerMessage" _) as [[[|b r'] d]|[| |]]; try done; cbn.
    by destruct (drop _ r).
  - intros Ht Hn Hl. pose proof (peer_message_unknown tag rest Ht Hn) as E. split.
    + rewrite from_bytes_cases, E. done.
    + rewrite from_bytes_cases, <- (app_nil_r (be_bytes 2 tag ++ rest)).
      assert (len rest + 2 = len (be_bytes 2 tag ++ rest)) as El
        by (rewrite len_app, len_be_bytes; lia).
      rewrite El in Hl |- *. assert (MESSAGE_MAX_SIZE ≤ u32_max) by (by vm_compute).
      rewrite (bounded_dynamic_failure _ _ _ _ (add_field "message" (unknown_tag rest tag)));
        [done|lia|done|].
      unfold struct_one. rewrite nom_map_eq. unfold NomReader.field, as_data. by rewrite E.
Qed.

(** ** Sizes announced by the first bytes *)

Lemma peer_message_response_encoding :
  path_encoding "PeerMessageResponse" =
  Encoding.BoundedDynamic MESSAGE_MAX_SIZE
    (Encoding.Obj "PeerMessageResponse" [mkField "message"%string (path_encoding "PeerMessage")]).
Proof.
  rewrite <- (proj1 (p2p_earlier 29 "PeerMessage" eq_refl)).
  rewrite (proj1 (p2p_declared 29 "PeerMessageResponse" _ eq_refl eq_refl)).
  assert (MESSAGE_MAX_SIZE = 8516630) as -> by (vm_compute; reflexivity).
  reflexivity.
Qed.

Lemma write_bounded_dynamic d max e bs :
  write d (Encoding.BoundedDynamic max e) = Ok bs →
  ∃ b, bs = be_bytes 4 (len b) ++ b ∧ len b ≤ max ∧ len b ≤ u32_max.
Proof.
  intros Hw. apply write_inv in Hw as (v & _ & Hw). cbn [format] in Hw.
  destruct (format e v) as [b|]; [|done]. cbn -[be_bytes] in Hw.
  apply guard_opt_Some in Hw as [Hm Hw]. unfold format_block in Hw.
  case_decide; [|done]. exists b. split; [congruence|done].
Qed.

End P2p.

(** ** Examples *)

Module MessagesWitnesses.
Import Concrete ConcreteNom ConcreteSerde.

#[local] Existing Instance p2p_env.
#[local] Existing Instance p2p_spec.

Definition chain_id : bytes := [1; 2; 3; 4].

(** [PeerMessage::GetCurrentHead(GetCurrentHeadMessage { chain_id })] *)
Definition get_current_head : Data :=
  DNewtypeVariant "PeerMessage" 8 "GetCurrentHead"
    (DStruct "GetCurrentHeadMessage" [("chain_id"%string, typed_hash_data "ChainId" chain_id)]).

Definition example : Data :=
  DStruct "PeerMessageResponse" [("message"%string, get_current_head)].

Lemma chain_id_typed : path_typed "ChainId" (typed_hash_data "ChainId" chain_id).
Proof.
  rewrite <- (p2p_earlier_typed 0 "ChainId" eq_refl). exists chain_id.
  split; [done|]. split; [|done]. repeat constructor; unfold is_byte; lia.
Qed.

Lemma get_current_head_typed : path_typed "PeerMessage" get_current_head.
Proof.
  rewrite (p2p_declared_typed 28 "PeerMessage" _ eq_refl eq_refl). cbn [typed typed_tags].
  do 8 right. left. eexists. split; [reflexivity|]. cbn [tag_encoding typed].
  rewrite (p2p_earlier_typed 28 "GetCurrentHeadMessage" eq_refl).
  rewrite (p2p_declared_typed 14 "GetCurrentHeadMessage" _ eq_refl eq_refl). cbn [typed].
  exists [Some ("chain_id"%string, typed_hash_data "ChainId" chain_id)]. split; [done|].
  split; [|done]. eexists. split; [done|]. cbn [typed].
  rewrite (p2p_earlier_typed 14 "ChainId" eq_refl). apply chain_id_typed.
Qed.

Lemma example_typed : path_typed "PeerMessageResponse" example.
Proof.
  rewrite (p2p_declared_typed 29 "PeerMessageResponse" _ eq_refl eq_refl). cbn [typed].
  exists [Some ("message"%string, get_current_head)]. split; [done|]. split; [|done].
  eexists. split; [done|]. cbn [typed]. rewrite (p2p_earlier_typed 29 "PeerMessage" eq_refl).
  apply get_current_head_typed.
Qed.

Lemma message_roundtrip_witness :
  from_bytes (path_nom_read "PeerMessageResponse") [0; 0; 0; 6; 0; 19; 1; 2; 3; 4] = Ok example.
Proof.
  apply (message_roundtrip "PeerMessageResponse" example).
  - exact example_typed.
  - vm_compute. reflexivity.
Defined.

Lemma unknown_tag_not_reported_witness :
  from_bytes (path_nom_read "PeerMessage") [0; 153; 7] = Err (UnknownTag 153) ∧
  from_bytes (path_nom_read "PeerMessageResponse") [0; 0; 0; 3; 0; 153; 7]
  = Err (ReaderError (add_field "message" (unknown_tag [7] 153))).
Proof.
  destruct (unknown_tag_not_reported [] 153 [7]) as [_ E]. apply E.
  - lia.
  - apply (bool_decide_unpack _). vm_compute. done.
  - vm_compute. done.
Defined.

End MessagesWitnesses.
