(* ===== verification/MessageTypes.v ===== *)
(** * What [from_bytes] returns is a message of the type *)

From S2P Require Import Prelude External BitUtils Hash Encoding Serializer PathCodec BinaryWriter Format NomLib NomReader Derive DeriveRoundTrip ReaderSound Make Crypto MerklePath BinaryMessage Messages.

(** ** Types that are not derived *)

Section Base.
Context `{NomLaws}.

Lemma hash_reads h p :
  reads (as_data (typed_hash_data p) (NomReader.hash_nom_read h))
    (λ d, ∃ bs, d = typed_hash_data p bs ∧ bytes_ok bs ∧ len bs = size h).
Proof.
  apply (reads_as_data _ _ (λ bs, bytes_ok bs ∧ len bs = size h)); [|eauto].
  apply (reads_map _ _ (λ bs, bytes_ok bs ∧ length bs = Z.to_nat (size h))); [apply reads_take|].
  intros bs [Hb Hl]. assert (len bs = size h) as E.
  { unfold len. rewrite Hl, Z2Nat.id; [done|]. destruct h; done. }
  unfold try_from_bytes. by rewrite decide_True.
Qed.

Definition node_ok (n : DecodePathNode) : Prop :=
  match n with
  | NodeLeft => True
  | NodeRight h => bytes_ok h ∧ len h = size OperationListListHash
  end.

Lemma path_hash_reads : reads path_hash (λ h, bytes_ok h ∧ len h = size OperationListListHash).
Proof.
  apply (reads_map _ _ _ _ (reads_take _)). intros h [Hb Hl]. split; [done|]. unfold len, id. by rewrite Hl.
Qed.

Lemma path_node_reads : reads (nom_alt path_left path_right) node_ok.
Proof.
  apply reads_alt; (eapply reads_preceded; [by apply reads_tag|]).
  - by apply reads_success.
  - by apply (reads_map _ _ _ _ path_hash_reads).
Qed.

Lemma path_complete_loop_reads ns acc :
  Forall node_ok ns → Forall path_item_ok acc →
  reads (path_complete_loop ns acc) (λ res, Forall path_item_ok res ∧ len res = len acc + len ns).
Proof.
  revert acc. induction ns as [|n ns IH]; intros acc Hn Ha i r res Hi E; cbn [path_complete_loop] in E.
  - injection E as <- <-. rewrite len_nil. split; [done|]. split; [done|]. lia.
  - apply Forall_cons in Hn as [Hn Hns].
    assert (∀ item, path_item_ok item → Forall path_item_ok (acc ++ [item])) as Ha'
      by (intros; apply Forall_app; auto).
    assert (∀ item, len (acc ++ [item]) + len ns = len acc + len (n :: ns)) as Hl
      by (intros; rewrite len_app, !len_cons, len_nil; lia).
    destruct n as [|h].
    + destruct (path_hash i) as [[r1 h]|] eqn:Eh; [|done].
      destruct (path_hash_reads i r1 h Hi Eh) as [Hs Hh].
      destruct (IH (acc ++ [PathLeft h]) Hns (Ha' (PathLeft h) Hh) r1 r res (suffix_bytes _ _ Hi Hs) E)
        as (Hs' & HF & Hlen).
      split; [by etrans|]. split; [done|]. by rewrite Hlen, Hl.
    + destruct (IH (acc ++ [PathRight h]) Hns (Ha' (PathRight h) Hn) i r res Hi E) as (Hs' & HF & Hlen).
      split; [done|]. split; [done|]. by rewrite Hlen, Hl.
Qed.

Lemma path_complete_reads nodes :
  Forall node_ok nodes →
  reads (path_complete nodes) (λ l, Forall path_item_ok l ∧ len l = len nodes).
Proof.
  intros HF i r l Hi E. unfold path_complete in E.
  destruct (path_complete_loop (rev nodes) [] i) as [[r' res]|] eqn:El; [|done]. injection E as <- <-.
  destruct (path_complete_loop_reads (rev nodes) [] (Forall_rev HF) (Forall_nil_2 _) i r' res Hi El)
    as (Hs & HF' & Hl).
  split; [done|]. split; [by apply Forall_rev|]. rewrite len_rev, len_nil, len_rev in *. lia.
Qed.

Lemma tag_cases t i : (∃ r, i = t ++ r ∧ nom_tag t i = Ok (r, t)) ∨ ∃ e, nom_tag t i = Err (NError e).
Proof.
  destruct (decide (t `prefix_of` i)) as [[k ->]|Hn].
  - left. exists k. by rewrite nom_tag_ok.
  - right. rewrite nom_tag_fail; [eauto|]. intros k ->. destruct Hn. by exists k.
Qed.

(** A node takes at least its tag, and a failure to read one can be recovered from. *)
Lemma path_node_cases i :
  (∃ r n, nom_alt path_left path_right i = Ok (r, n) ∧ (length r < length i)%nat) ∨
  ∃ e, nom_alt path_left path_right i = Err (NError e).
Proof.
  unfold path_left, path_right. rewrite nom_alt_eq, !nom_preceded_eq.
  destruct (tag_cases [240] i) as [(r & -> & ->)|[e ->]].
  - left. rewrite nom_success_eq. cbn. eauto with lia.
  - destruct (tag_cases [15] i) as [(r & -> & ->)|[e' ->]]; [|eauto].
    unfold path_hash. rewrite !nom_map_eq.
    destruct (decide (length r < Z.to_nat (size OperationListListHash))%nat).
    + rewrite nom_take_short by done. eauto.
    + rewrite nom_take_ok by lia. left. do 2 eexists. split; [done|]. rewrite length_drop. cbn. lia.
Qed.

Lemma path_nodes_reads i r l :
  bytes_ok i → nom_many_till (nom_alt path_left path_right) path_op i = Ok (r, l) →
  r `suffix_of` i ∧ Forall node_ok l.1.
Proof.
  remember (length i) as n eqn:En. revert i r l En.
  induction n as [n IH] using lt_wf_ind. intros i r l -> Hi E.
  assert (Hop : (∃ r, path_op i = Ok (r, ()) ∧ r `suffix_of` i) ∨ ∃ e, path_op i = Err (NError e)).
  { unfold path_op. rewrite nom_preceded_eq.
    destruct (tag_cases [0] i) as [(k & -> & ->)|[e ->]]; [left|eauto].
    rewrite nom_success_eq. exists k. split; [done|]. by exists [0]. }
  destruct Hop as [(k & Eo & Hk)|[e Eo]].
  - rewrite (nom_many_till_done _ _ _ _ _ Eo) in E. by injection E as <- <-.
  - destruct (path_node_cases i) as [(r1 & a & Ea & Hl)|[e' Ea]].
    + rewrite (nom_many_till_step _ _ _ _ _ _ Eo Ea Hl) in E.
      destruct (path_node_reads i r1 a Hi Ea) as [Hs Ha].
      destruct (nom_many_till _ _ r1) as [[r2 [l2 []]]|] eqn:E2; [|done].
      injection E as <- <-.
      destruct (IH (length r1) Hl r1 r2 (l2, ()) eq_refl (suffix_bytes _ _ Hi Hs) E2).
      split; [by etrans|]. cbn in *. auto.
    + by rewrite (nom_many_till_fail _ _ _ _ _ Eo Ea) in E.
Qed.

Lemma merkle_path_reads :
  reads (as_data (λ l, DSeq (map path_item_data l)) merkle_path_nom_read)
    (λ d, ∃ l, path_serialize l = Ok d ∧ Forall path_item_ok l).
Proof.
  apply (reads_as_data _ _ (λ l, Forall path_item_ok l ∧ len l ≤ 3)).
  - intros i r l Hi E. unfold merkle_path_nom_read in E.
    rewrite nom_flat_map_eq, nom_verify_eq, nom_map_eq in E.
    destruct (nom_many_till _ _ i) as [[r1 ns]|] eqn:En; [|done].
    destruct (path_nodes_reads i r1 ns Hi En) as [Hs Hns].
    destruct (bool_decide_reflect (3 >= len ns.1)) as [Hl|]; cbn in E.
    + destruct (bool_decide (3 >= len ns.1)); [|done].
      destruct (path_complete_reads ns.1 Hns r1 r l (suffix_bytes _ _ Hi Hs) E) as (Hs' & Hok & Hlen).
      split; [by etrans|]. split; [done|lia].
    + by destruct (bool_decide (3 >= len ns.1)) eqn:Eb; [apply bool_decide_eq_true in Eb|].
  - intros l [Hok Hl]. exists l. split; [|done]. unfold path_serialize, MAX_PASS_MERKLE_DEPTH.
    by rewrite decide_False by lia.
Qed.

Context `{BufMut, HexLib, BitVecLib, BigIntLib}.

Lemma base_read_laws : @TypeReadLaws base_env base_spec.
Proof.
  split. intros p; cbn [path_nom_read path_typed base_env base_spec].
  destruct (hm_get p hash_names) as [h|]; [apply hash_reads|].
  case_decide as Hp; [|done]. eapply reads_impl; [apply merkle_path_reads|]. auto.
Qed.

End Base.

(** ** Messages *)

Section Messages.
Context `{BufMut, HexLib, BitVecLib, NomLaws, BigIntLib, BigIntSerde}.

#[local] Existing Instance p2p_env.
#[local] Existing Instance p2p_spec.

Lemma p2p_read_laws : TypeReadLaws.
Proof. apply declare_all_read_laws; [apply base_read_laws|apply p2p_wf]. Qed.

#[local] Opaque p2p_env p2p_spec.

Lemma decoded_typed name buf d :
  bytes_ok buf → from_bytes (path_nom_read name) buf = Ok d → path_typed name d.
Proof.
  intros Hb E. rewrite from_bytes_cases in E.
  destruct (path_nom_read name buf) as [[r d']|[]] eqn:Er; [|discriminate E..].
  destruct (@path_reads _ _ p2p_read_laws name buf r d' Hb Er) as [_ Ht].
  destruct r; [|discriminate E]. injection E as <-. exact Ht.
Qed.


End Messages.

Module MessageTypesWitnesses.
Import Concrete ConcreteNom ConcreteSerde.


End MessageTypesWitnesses.
