(* ===== verification/Network.v ===== *)
(** * Versions and the messages of the handshake: [networking/src/lib.rs] and the
      types of [tezos/messages/src/p2p/encoding/{version,connection,metadata,ack}.rs]

    The handshake works with the fields of its messages, so that the messages
    are records here, with their serde data. *)

From S2P Require Import Prelude External BitUtils Hash Encoding Serializer PathCodec BinaryWriter Format NomLib NomReader Derive DeriveRoundTrip ReaderSound Make Crypto MerklePath BinaryMessage Messages MessageTypes.

(** ** The messages *)

(** [NetworkVersion]; a [String] is its UTF-8 bytes. *)
Record NetworkVersion_t := mkNetworkVersion {
  chain_name : bytes;
  distributed_db_version : Z;
  p2p_version : Z
}.

#[global] Instance NetworkVersion_eq_dec : EqDecision NetworkVersion_t.
Proof. solve_decision. Defined.

Definition supports_nack_with_list_and_motive (self : NetworkVersion_t) : bool :=
  bool_decide (p2p_version self > 0).

Record ConnectionMessage_t := mkConnectionMessage {
  port : Z;
  public_key : bytes;
  proof_of_work_stamp : bytes;
  message_nonce : bytes;
  version : NetworkVersion_t
}.

Record MetadataMessage_t := mkMetadataMessage { disable_mempool : bool; private_node : bool }.

Inductive NackMotive_t :=
| NoMotive | TooManyConnections | UnknownChainName | DeprecatedP2pVersion
| DeprecatedDistributedDbVersion | AlreadyConnected.

#[global] Instance NackMotive_eq_dec : EqDecision NackMotive_t.
Proof. solve_decision. Defined.

Record NackInfo_t := mkNackInfo {
  motive : NackMotive_t;
  potential_peers_to_connect : list bytes
}.

Inductive AckMessage_t := Ack | NackV0 | Nack (info : NackInfo_t).

(** [ConnectionMessage::try_new] *)
Definition connection_message_try_new `{BigUintLib} (port : Z) (public_key proof_of_work_stamp : bytes)
    (message_nonce : Nonce) (version : NetworkVersion_t) : result ConnectionMessage_t CryptoError :=
  let? message_nonce := get_bytes message_nonce in
  Ok (mkConnectionMessage port public_key proof_of_work_stamp message_nonce version).

(** *** Their serde data *)

Definition network_version_data (v : NetworkVersion_t) : Data :=
  DStruct "NetworkVersion"
    [("chain_name"%string, DStr (chain_name v));
     ("distributed_db_version"%string, DU16 (distributed_db_version v));
     ("p2p_version"%string, DU16 (p2p_version v))].

Definition connection_data (m : ConnectionMessage_t) : Data :=
  DStruct "ConnectionMessage"
    [("port"%string, DU16 (port m));
     ("public_key"%string, hash_data (public_key m));
     ("proof_of_work_stamp"%string, hash_data (proof_of_work_stamp m));
     ("message_nonce"%string, hash_data (message_nonce m));
     ("version"%string, network_version_data (version m))].

Definition metadata_data (m : MetadataMessage_t) : Data :=
  DStruct "MetadataMessage"
    [("disable_mempool"%string, DBool (disable_mempool m));
     ("private_node"%string, DBool (private_node m))].

Definition nack_motive_data (m : NackMotive_t) : Data :=
  match m with
  | NoMotive => DUnitVariant "NackMotive" 0 "NoMotive"
  | TooManyConnections => DUnitVariant "NackMotive" 1 "TooManyConnections"
  | UnknownChainName => DUnitVariant "NackMotive" 2 "UnknownChainName"
  | DeprecatedP2pVersion => DUnitVariant "NackMotive" 3 "DeprecatedP2pVersion"
  | DeprecatedDistributedDbVersion =>
      DUnitVariant "NackMotive" 4 "DeprecatedDistributedDbVersion"
  | AlreadyConnected => DUnitVariant "NackMotive" 5 "AlreadyConnected"
  end.

Definition nack_info_data (i : NackInfo_t) : Data :=
  DStruct "NackInfo"
    [("motive"%string, nack_motive_data (motive i));
     ("potential_peers_to_connect"%string, DSeq (map DStr (potential_peers_to_connect i)))].

Definition ack_data (m : AckMessage_t) : Data :=
  match m with
  | Ack => DUnitVariant "AckMessage" 0 "Ack"
  | NackV0 => DUnitVariant "AckMessage" 1 "NackV0"
  | Nack info => DNewtypeVariant "AckMessage" 2 "Nack" (nack_info_data info)
  end.

(** *** And back

    A reader returns the data of a record; the last cases are not reached
    ([connection_typed] and the lemmas after it). *)

Definition u8s_of (d : Data) : bytes :=
  match d with DSeq l => omap (λ d, match d with DU8 b => Some b | _ => None end) l | _ => [] end.

Definition network_version_of (d : Data) : NetworkVersion_t :=
  match d with
  | DStruct _ [(_, DStr c); (_, DU16 v); (_, DU16 p)] => mkNetworkVersion c v p
  | _ => mkNetworkVersion [] 0 0
  end.

Definition connection_of (d : Data) : ConnectionMessage_t :=
  match d with
  | DStruct _ [(_, DU16 port); (_, pk); (_, pow); (_, nonce); (_, v)] =>
      mkConnectionMessage port (u8s_of pk) (u8s_of pow) (u8s_of nonce) (network_version_of v)
  | _ => mkConnectionMessage 0 [] [] [] (mkNetworkVersion [] 0 0)
  end.

Definition metadata_of (d : Data) : MetadataMessage_t :=
  match d with
  | DStruct _ [(_, DBool a); (_, DBool b)] => mkMetadataMessage a b
  | _ => mkMetadataMessage false false
  end.

Definition nack_motive_of (d : Data) : NackMotive_t :=
  match d with
  | DUnitVariant _ i _ =>
      default NoMotive
        ([NoMotive; TooManyConnections; UnknownChainName; DeprecatedP2pVersion;
          DeprecatedDistributedDbVersion; AlreadyConnected] !! Z.to_nat i)
  | _ => NoMotive
  end.

Definition nack_info_of (d : Data) : NackInfo_t :=
  match d with
  | DStruct _ [(_, m); (_, DSeq l)] =>
      mkNackInfo (nack_motive_of m)
        (omap (λ d, match d with DStr s => Some s | _ => None end) l)
  | _ => mkNackInfo NoMotive []
  end.

Definition ack_of (d : Data) : AckMessage_t :=
  match d with
  | DNewtypeVariant _ _ _ info => Nack (nack_info_of info)
  | DUnitVariant _ i _ => if decide (i = 0) then Ack else NackV0
  | _ => NackV0
  end.

(** ** [ShellCompatibilityVersion] *)

Record ShellCompatibilityVersion := mkShellCompatibilityVersion {
  distributed_db_versions : list Z;
  p2p_versions : list Z;
  supported_version : NetworkVersion_t
}.

Definition DEFAULT_VERSION : Z := 0.

(** [versions.iter().max()] *)
Definition iter_max (l : list Z) : option Z :=
  foldl (λ acc v, match acc with None => Some v | Some m => Some (Z.max m v) end) None l.

Definition best_version (l : list Z) : Z := default DEFAULT_VERSION (iter_max l).

Definition shell_compatibility_version_new (chain_name : bytes)
    (distributed_db_versions p2p_versions : list Z) : ShellCompatibilityVersion :=
  mkShellCompatibilityVersion distributed_db_versions p2p_versions
    (mkNetworkVersion chain_name (best_version distributed_db_versions) (best_version p2p_versions)).

Definition to_network_version (self : ShellCompatibilityVersion) : NetworkVersion_t :=
  supported_version self.

Definition select_compatible_version (supported_versions : list Z) (requested_version : Z)
    (nack_motive : NackMotive_t) : result Z NackMotive_t :=
  let best_supported_version := best_version supported_versions in
  if decide (best_supported_version ≤ requested_version) then Ok best_supported_version
  else if decide (requested_version ∈ supported_versions) then Ok requested_version
  else Err nack_motive.

Definition choose_compatible_version (self : ShellCompatibilityVersion) (requested : NetworkVersion_t)
    : result NetworkVersion_t NackMotive_t :=
  if decide (chain_name (supported_version self) ≠ chain_name requested) then Err UnknownChainName
  else
    let? v := select_compatible_version (distributed_db_versions self)
                (distributed_db_version requested) DeprecatedDistributedDbVersion in
    let? p := select_compatible_version (p2p_versions self) (p2p_version requested)
                DeprecatedP2pVersion in
    Ok (mkNetworkVersion (chain_name (supported_version self)) v p).

(** ** The data of the messages *)

Lemma u8s_of_data bs : u8s_of (hash_data bs) = bs.
Proof. unfold u8s_of, hash_data. induction bs as [|b bs IH]; [done|]. cbn in *. by rewrite IH. Qed.

Definition network_version_ok (v : NetworkVersion_t) : Prop :=
  string_typed (DStr (chain_name v)) ∧ uint_range 16 (distributed_db_version v) ∧
  uint_range 16 (p2p_version v).

Definition connection_ok (m : ConnectionMessage_t) : Prop :=
  uint_range 16 (port m) ∧ bytes_ok (public_key m) ∧ bytes_ok (proof_of_work_stamp m) ∧
  bytes_ok (message_nonce m) ∧ network_version_ok (version m).

Definition nack_info_ok (i : NackInfo_t) : Prop :=
  Forall (λ s, string_typed (DStr s)) (potential_peers_to_connect i).

Definition ack_ok (m : AckMessage_t) : Prop :=
  match m with Nack info => nack_info_ok info | _ => True end.

Section Typed.
Context `{BufMut, HexLib, BitVecLib, Nom, BigIntLib, BigIntSerde}.

#[local] Existing Instance p2p_env.
#[local] Existing Instance p2p_spec.

Lemma network_version_typed d :
  path_typed "NetworkVersion" d ↔ ∃ v, d = network_version_data v ∧ network_version_ok v.
Proof.
  rewrite (p2p_declared_typed 0 "NetworkVersion" _ eq_refl eq_refl). cbn [typed typed_fields].
  split.
  - intros (vs & -> & Ht). destruct vs as [|v1 [|v2 [|v3 [|]]]]; try (cbn in Ht; tauto).
    destruct Ht as ((d1 & -> & s & -> & Hs) & (d2 & -> & H2') & (d3 & -> & H3') & _).
    cbn in H2', H3'. destruct d2, d3; try done.
    exists (mkNetworkVersion s v v0). split; [done|]. split; [by exists s|done].
  - intros (v & -> & (s & [= <-] & Hs) & H2' & H3').
    exists [Some ("chain_name"%string, DStr (chain_name v));
       Some ("distributed_db_version"%string, DU16 (distributed_db_version v));
       Some ("p2p_version"%string, DU16 (p2p_version v))].
    split; [done|]. split; [eexists; split; [done|]; by exists (chain_name v)|].
    split; [by eexists|]. split; [by eexists|done].
Qed.

Lemma connection_typed d :
  path_typed "ConnectionMessage" d ↔ ∃ m, d = connection_data m ∧ connection_ok m.
Proof.
  rewrite (p2p_declared_typed 1 "ConnectionMessage" _ eq_refl eq_refl). cbn [typed typed_fields].
  split.
  - intros (vs & -> & Ht). destruct vs as [|v1 [|v2 [|v3 [|v4 [|v5 [|]]]]]]; try (cbn in Ht; tauto).
    destruct Ht as ((d1 & -> & H1') & (d2 & -> & pk & -> & H2') & (d3 & -> & pow & -> & H3')
      & (d4 & -> & n & -> & H4') & (d5 & -> & H5') & _).
    cbn [typed] in H5'. rewrite (p2p_earlier_typed 1 "NetworkVersion" eq_refl) in H5'.
    apply (proj1 (network_version_typed _)) in H5' as (v & -> & H5').
    cbn in H1'. destruct d1; try done. by exists (mkConnectionMessage v0 pk pow n v).
  - intros (m & -> & H1' & H2' & H3' & H4' & H5').
    exists [Some ("port"%string, DU16 (port m)); Some ("public_key"%string, hash_data (public_key m));
      Some ("proof_of_work_stamp"%string, hash_data (proof_of_work_stamp m));
      Some ("message_nonce"%string, hash_data (message_nonce m));
      Some ("version"%string, network_version_data (version m))].
    split; [done|]. split; [by eexists|]. do 3 (split; [eexists; split; [done|]; by eexists|]).
    split; [|done]. eexists. split; [done|]. cbn [typed].
    rewrite (p2p_earlier_typed 1 "NetworkVersion" eq_refl). apply (proj2 (network_version_typed _)). eauto.
Qed.

Lemma metadata_typed d : path_typed "MetadataMessage" d ↔ ∃ m, d = metadata_data m.
Proof.
  rewrite (p2p_declared_typed 2 "MetadataMessage" _ eq_refl eq_refl). cbn [typed typed_fields].
  split.
  - intros (vs & -> & Ht). destruct vs as [|v1 [|v2 [|]]]; try (cbn in Ht; tauto).
    destruct Ht as ((d1 & -> & H1') & (d2 & -> & H2') & _). cbn in H1', H2'.
    destruct d1, d2; try done. by exists (mkMetadataMessage v v0).
  - intros (m & ->).
    exists [Some ("disable_mempool"%string, DBool (disable_mempool m));
      Some ("private_node"%string, DBool (private_node m))].
    split; [done|]. repeat (split; [eexists; split; [done|]; done|]). done.
Qed.

Lemma nack_motive_typed d : path_typed "NackMotive" d ↔ ∃ m, d = nack_motive_data m.
Proof.
  rewrite (p2p_declared_typed 3 "NackMotive" _ eq_refl eq_refl). cbn [typed typed_tags].
  unfold typed_tag. cbn [tag_encoding get_variant]. split.
  - intros [->|[->|[->|[->|[->|[->|[]]]]]]];
      [exists NoMotive|exists TooManyConnections|exists UnknownChainName|exists DeprecatedP2pVersion
      |exists DeprecatedDistributedDbVersion|exists AlreadyConnected]; reflexivity.
  - intros [[] ->]; cbn; tauto.
Qed.

Lemma strings_typed ds :
  Forall string_typed ds ↔ ∃ l, ds = map DStr l ∧ Forall (λ s, string_typed (DStr s)) l.
Proof.
  split.
  - induction 1 as [|d ds (s & -> & Hs) Hds (l & -> & Hl)]; [by exists []|].
    exists (s :: l). split; [done|]. constructor; [by exists s|done].
  - intros (l & -> & Hl). by apply Forall_map.
Qed.

Lemma nack_info_typed d :
  path_typed "NackInfo" d ↔ ∃ i, d = nack_info_data i ∧ nack_info_ok i.
Proof.
  rewrite (p2p_declared_typed 4 "NackInfo" _ eq_refl eq_refl). cbn [typed typed_fields].
  split.
  - intros (vs & -> & Ht). destruct vs as [|v1 [|v2 [|]]]; try (cbn in Ht; tauto).
    destruct Ht as ((d1 & -> & Hm) & (d2 & -> & ds & -> & Hds) & _).
    cbn [typed] in Hm. rewrite (p2p_earlier_typed 4 "NackMotive" eq_refl) in Hm.
    apply (proj1 (nack_motive_typed _)) in Hm as (m & ->).
    apply (proj1 (strings_typed _)) in Hds as (l & -> & Hl). by exists (mkNackInfo m l).
  - intros (i & -> & Hi).
    exists [Some ("motive"%string, nack_motive_data (motive i));
      Some ("potential_peers_to_connect"%string, DSeq (map DStr (potential_peers_to_connect i)))].
    split; [done|]. split; [|split; [|done]].
    + eexists. split; [done|]. cbn [typed].
      rewrite (p2p_earlier_typed 4 "NackMotive" eq_refl). apply (proj2 (nack_motive_typed _)). eauto.
    + eexists. split; [done|]. eexists. split; [done|]. apply (proj2 (strings_typed _)). eauto.
Qed.

Lemma ack_typed d : path_typed "AckMessage" d ↔ ∃ m, d = ack_data m ∧ ack_ok m.
Proof.
  rewrite (p2p_declared_typed 5 "AckMessage" _ eq_refl eq_refl). cbn [typed typed_tags].
  unfold typed_tag. cbn [tag_encoding get_variant typed].
  rewrite (p2p_earlier_typed 5 "NackInfo" eq_refl). split.
  - intros [->|[->|[(d' & -> & Hi)|[]]]]; [by exists Ack|by exists NackV0|].
    apply (proj1 (nack_info_typed _)) in Hi as (i & -> & Hi). by exists (Nack i).
  - intros [[| |i] [-> Hi]]; cbn [ack_data]; [tauto|tauto|]. right. right. left.
    eexists. split; [done|]. apply (proj2 (nack_info_typed _)). eauto.
Qed.

End Typed.

Lemma network_version_of_data v : network_version_of (network_version_data v) = v.
Proof. by destruct v. Qed.

Lemma connection_of_data m : connection_of (connection_data m) = m.
Proof.
  destruct m. unfold connection_of, connection_data. cbn [port public_key proof_of_work_stamp
    message_nonce version]. by rewrite !u8s_of_data, network_version_of_data.
Qed.

Lemma metadata_of_data m : metadata_of (metadata_data m) = m.
Proof. by destruct m. Qed.

Lemma ack_of_data m : ack_of (ack_data m) = m.
Proof.
  destruct m as [| |[m l]]; [done|done|]. cbn. do 2 f_equal; [by destruct m|].
  induction l as [|s l IH]; [done|]. cbn. by f_equal.
Qed.

(** ** Version negotiation *)

Lemma best_version_spec l :
  l ≠ [] → best_version l ∈ l ∧ ∀ v, v ∈ l → v ≤ best_version l.
Proof.
  assert (∀ l m, ∃ k, foldl (λ acc v, match acc with None => Some v | Some m => Some (Z.max m v) end)
            (Some m) l = Some k ∧ (k = m ∨ k ∈ l) ∧ m ≤ k ∧ ∀ v, v ∈ l → v ≤ k) as Hfold.
  { clear l. induction l as [|x l IH]; intros m; cbn [foldl].
    - exists m. split; [done|]. split; [auto|]. split; [done|]. intros v Hv. by apply elem_of_nil in Hv.
    - destruct (IH (Z.max m x)) as (k & -> & Hk & Hle & Hall). exists k. split; [done|].
      split; [|split; [lia|]].
      + rewrite elem_of_cons. destruct Hk as [->|]; [|auto].
        destruct (Zmax_spec m x) as [[_ ->]|[_ ->]]; auto.
      + intros v [->|Hv]%elem_of_cons; [lia|auto]. }
  intros Hl. destruct l as [|x l]; [done|]. unfold best_version, iter_max. cbn [foldl].
  destruct (Hfold l x) as (k & -> & Hk & Hle & Hall). cbn. rewrite elem_of_cons.
  split; [destruct Hk as [->|]; auto|]. intros v [->|Hv]%elem_of_cons; auto.
Qed.

(** Where both ends select a version, it is the highest one in both lists. *)
Lemma select_agree a b m1 m2 v w :
  a ≠ [] → b ≠ [] →
  select_compatible_version a (best_version b) m1 = Ok v →
  select_compatible_version b (best_version a) m2 = Ok w →
  v = w ∧ v ∈ a ∧ v ∈ b ∧ ∀ u, u ∈ a → u ∈ b → u ≤ v.
Proof.
  intros Ha Hb. destruct (best_version_spec a Ha) as [Ha1 Ha2].
  destruct (best_version_spec b Hb) as [Hb1 Hb2]. unfold select_compatible_version.
  set (x := best_version a) in *. set (y := best_version b) in *. clearbody x y.
  intros Hv Hw.
  destruct (decide (x ≤ y)) as [Hxy|Hxy], (decide (y ≤ x)) as [Hyx|Hyx]; try lia.
  - assert (x = y) as -> by lia. injection Hv as <-. injection Hw as <-. auto.
  - injection Hv as <-. destruct (decide (x ∈ b)); [|done]. injection Hw as <-. auto.
  - injection Hw as <-. destruct (decide (y ∈ a)); [|done]. injection Hv as <-. auto.
Qed.

(** The two ends negotiate the same version.  Each end announces the
    highest versions it supports and computes a version from what the other
    one announces.  If both accept, they have the same chain name, and for the
    distributed database and the p2p protocol both get the same version: the
    highest one that both of them support. *)
Theorem versions_agree ca dba pa cb dbb pb v w :
  dba ≠ [] → pa ≠ [] → dbb ≠ [] → pb ≠ [] →
  let a := shell_compatibility_version_new ca dba pa in
  let b := shell_compatibility_version_new cb dbb pb in
  choose_compatible_version a (to_network_version b) = Ok v →
  choose_compatible_version b (to_network_version a) = Ok w →
  v = w ∧ chain_name v = ca ∧ ca = cb ∧
  (distributed_db_version v ∈ dba ∧ distributed_db_version v ∈ dbb ∧
   ∀ u, u ∈ dba → u ∈ dbb → u ≤ distributed_db_version v) ∧
  (p2p_version v ∈ pa ∧ p2p_version v ∈ pb ∧ ∀ u, u ∈ pa → u ∈ pb → u ≤ p2p_version v).
Proof.
  intros H1 H2 H3 H4 a b. unfold choose_compatible_version. cbn.
  destruct (decide (ca ≠ cb)) as [|Hc%dec_stable]; [done|].
  rewrite decide_False by congruence. subst cb.
  destruct (select_compatible_version dba _ _) as [v1|] eqn:E1; [|done].
  destruct (select_compatible_version pa _ _) as [v2|] eqn:E2; [|done]. intros [= <-].
  destruct (select_compatible_version dbb _ _) as [w1|] eqn:E3; [|done].
  destruct (select_compatible_version pb _ _) as [w2|] eqn:E4; [|done]. intros [= <-].
  destruct (select_agree _ _ _ _ _ _ H1 H3 E1 E3) as [-> D].
  destruct (select_agree _ _ _ _ _ _ H2 H4 E2 E4) as [-> P]. auto.
Qed.

Lemma versions_agree_witness :
  let a := shell_compatibility_version_new [84] [3; 4] [1; 2] in
  let b := shell_compatibility_version_new [84] [4; 5] [1] in
  choose_compatible_version a (to_network_version b) = Ok (mkNetworkVersion [84] 4 1) ∧
  4 ∈ [4; 5] ∧ ∀ u, u ∈ [3; 4] → u ∈ [4; 5] → u ≤ 4.
Proof.
  split; [reflexivity|].
  destruct (versions_agree [84] [3; 4] [1; 2] [84] [4; 5] [1]
    (mkNetworkVersion [84] 4 1) (mkNetworkVersion [84] 4 1)) as (_ & _ & _ & (_ & D) & _);
    [done|done|done|done|reflexivity|reflexivity|exact D].
Defined.
