(* ===== verification/MessageSizes.v ===== *)
(** The sizes of the peer-to-peer messages: the limits of [limits.rs] against
    the declared types, and the sizes that [size_from_chunk] announces
    ([ack.rs], [metadata.rs], [peer.rs]) against what is sent. *)

From S2P Require Import Prelude External BitUtils Hash Encoding Serializer PathCodec BinaryWriter Format NomLib NomReader Derive DeriveRoundTrip Sizes Crypto MerklePath BinaryMessage Make Messages.

(** ** The types that are not derived *)

Definition base_sizes : TypeSizes := {|
  path_bounds p :=
    match hm_get p hash_names with
    | Some h => exactly (size h)
    | None => if decide (p = "Path"%string) then (1, Some 100) else (0, None)
    end
|}.

Section P2pSizes.
Context `{BufMut, HexLib, BitVecLib, Nom, BigIntLib, BigIntSerde}.

Lemma base_sizes_laws : @TypeSizesLaws _ _ _ base_env base_spec base_sizes.
Proof.
  split. intros p; cbn [path_encoding path_typed path_bounds base_env base_spec base_sizes].
  destruct (hm_get p hash_names) as [h|] eqn:E.
  - intros d v bs _ _ Hf. cbn in Hf. destruct v; try done.
    destruct (format_u8s v) as [b|]; [|done]. apply guard_opt_Some in Hf as [<- [= ->]].
    apply within_exactly.
  - intros d v bs (-> & l & Hd & Hl) Hs Hf. rewrite decide_True in Hf by done. rewrite decide_True by done.
    unfold path_serialize, MAX_PASS_MERKLE_DEPTH in Hd. case_decide as Hlen; [done|].
    injection Hd as <-. rewrite serialize_path_ok in Hs. injection Hs as <-.
    cbn [format codec_encode] in Hf. rewrite path_format in Hf. injection Hf as <-.
    rewrite len_path_bytes by done. pose proof (len_nonneg l). split; cbn; lia.
Qed.

#[local] Existing Instance p2p_env.
#[local] Existing Instance p2p_spec.
#[local] Instance p2p_sizes : TypeSizes := declare_all_sizes base_sizes p2p_schemas.

Lemma p2p_sizes_laws : TypeSizesLaws.
Proof. apply declare_all_sizes_laws; [apply base_sizes_laws|apply p2p_wf]. Qed.

Context `{!BufMutLaws, !NomLaws}.

Lemma message_within name d bs :
  path_typed name d → as_bytes d (path_encoding name) = Ok bs → within (len bs) (path_bounds name).
Proof.
  intros Ht Hw. apply write_inv in Hw as (v & Hs & Hf).
  by apply (@path_sized _ _ _ _ _ _ p2p_sizes_laws name d v).
Qed.

(** The number of bytes of each message, between two bounds. *)
Definition message_bounds : list (string * (Z * Z)) :=
  [("NetworkVersion", (8, 136)); ("ConnectionMessage", (90, 218)); ("MetadataMessage", (2, 2));
   ("NackMotive", (2, 2)); ("NackInfo", (6, 5106)); ("AckMessage", (1, 5107));
   ("AdvertiseMessage", (0, 5100)); ("SwapMessage", (20, 67)); ("DeactivateMessage", (4, 4));
   ("BlockHeader", (114, BLOCK_HEADER_MAX_SIZE));
   ("BlockHeaderMessage", (114, BLOCK_HEADER_MAX_SIZE));
   ("GetBlockHeadersMessage", (4, 324)); ("Mempool", (12, MEMPOOL_MAX_SIZE));
   ("CurrentHeadMessage", (134, 8 + BLOCK_HEADER_MAX_SIZE + MEMPOOL_MAX_SIZE));
   ("GetCurrentHeadMessage", (4, 4));
   ("CurrentBranch", (118, 4 + BLOCK_HEADER_MAX_SIZE + 32 * CURRENT_BRANCH_HISTORY_MAX_LENGTH));
   ("CurrentBranchMessage",
     (122, 8 + BLOCK_HEADER_MAX_SIZE + 32 * CURRENT_BRANCH_HISTORY_MAX_LENGTH));
   ("GetCurrentBranchMessage", (4, 4)); ("Operation", (32, 32 + OPERATION_MAX_SIZE));
   ("OperationMessage", (32, 32 + OPERATION_MAX_SIZE)); ("GetOperationsMessage", (4, 324));
   ("Protocol", (6, PROTOCOL_MAX_SIZE + 4)); ("ProtocolMessage", (6, PROTOCOL_MAX_SIZE + 4));
   ("GetProtocolsMessage", (4, 324)); ("OperationsForBlock", (33, 33));
   ("OperationsForBlocksMessage", (34, 133 + OPERATION_LIST_MAX_SIZE));
   ("GetOperationsForBlocksMessage", (4, 334)); ("PeerMessage", (2, MESSAGE_MAX_SIZE - 4));
   ("PeerMessageResponse", (6, MESSAGE_MAX_SIZE))]%string.

Lemma message_bounds_computed :
  Forall (λ p, path_bounds p.1 = (p.2.1, Some p.2.2)) message_bounds.
Proof. repeat constructor; vm_compute; reflexivity. Qed.

Lemma message_bounds_get name lo hi :
  hm_get name message_bounds = Some (lo, hi) → path_bounds name = (lo, Some hi).
Proof.
  intros E%hm_get_elem. pose proof message_bounds_computed as HF. rewrite Forall_forall in HF.
  exact (HF _ E).
Qed.

#[local] Opaque p2p_env p2p_spec p2p_sizes.

(** The sizes of the messages: every value of a message type is written in
    a number of bytes between the bounds of the table, which follow from the
    declared encodings; in particular no [PeerMessage] is larger than a
    [CurrentHead], the one that [MESSAGE_MAX_SIZE] is made for. *)
Theorem message_sizes name lo hi d bs :
  hm_get name message_bounds = Some (lo, hi) → path_typed name d →
  as_bytes d (path_encoding name) = Ok bs → lo ≤ len bs ≤ hi.
Proof.
  intros Hin Ht Hw. destruct (message_within name d bs Ht Hw) as [Hl Hh].
  pose proof (message_bounds_get name lo hi Hin) as E. rewrite E in Hl, Hh. auto.
Qed.

Lemma format_one_field m n f e v bs :
  format e v = Some bs →
  format (Encoding.BoundedDynamic m (Encoding.Obj n [mkField f e])) (Value.Record [(f, v)])
  = if decide (len bs ≤ m) then
      if decide (len bs ≤ u32_max) then Some (be_bytes 4 (len bs) ++ bs) else None
    else None.
Proof.
  intros Hf. cbn [format format_fields get_name get_encoding].
  unfold find_value_in_record_values. cbn [List.find fst]. rewrite bool_decide_true by done. cbn.
  rewrite Hf. cbn -[be_bytes]. by rewrite app_nil_r.
Qed.

(** C40: the limit of [PeerMessageResponse] never refuses a message: whatever
    [PeerMessage] can be written can be written as a [PeerMessageResponse],
    and is announced with its exact length. *)
Theorem peer_message_fits d bs :
  path_typed "PeerMessage" d → as_bytes d (path_encoding "PeerMessage") = Ok bs →
  as_bytes (DStruct "PeerMessageResponse" [("message"%string, d)])
    (path_encoding "PeerMessageResponse") = Ok (be_bytes 4 (len bs) ++ bs).
Proof.
  intros Ht Hw. destruct (message_within _ d bs Ht Hw) as [_ Hh].
  rewrite (message_bounds_get "PeerMessage" 2 (MESSAGE_MAX_SIZE - 4) eq_refl) in Hh. cbn [snd] in Hh. assert (MESSAGE_MAX_SIZE ≤ u32_max) by (by vm_compute).
  apply write_inv in Hw as (v & Hs & Hf). unfold as_bytes.
  pose proof peer_message_response_encoding as E. rewrite E.
  apply (write_ok _ _ (Value.Record [("message"%string, v)])).
  - cbn [serialize]. cbn. by rewrite Hs.
  - rewrite (format_one_field _ _ _ _ _ bs) by done. by rewrite !decide_True by lia.
  - rewrite len_app, len_be_bytes. unfold u32_max, usize_max in *. lia.
Qed.

(** ** Sizes announced by the first bytes *)

Lemma nack_info_form d w p :
  path_typed "NackInfo" d → serialize d = Ok w → format (path_encoding "NackInfo") w = Some p →
  ∃ m l, p = m ++ be_bytes 4 (len l) ++ l ∧ length m = 2%nat ∧ len l ≤ u32_max.
Proof.
  rewrite (p2p_declared_typed 4 "NackInfo" _ eq_refl eq_refl).
  destruct (p2p_declared 4 "NackInfo" _ eq_refl eq_refl) as [E _]. rewrite E. clear E.
  cbn [typed generate_encoding]. intros (ovs & -> & Ht) Hs Hf.
  edestruct (@serialize_struct_find (p2p_prefix 4)) as (vs & Ew & Hv);
    [|exact Ht|exact Hs|subst w]; [by apply (bool_decide_unpack _)|].
  destruct ovs as [|o1 [|o2 [|]]]; try (by destruct Ht as (? & ? & ?)); try (by destruct Ht).
  destruct Ht as ((dm & -> & Hm) & (dp & -> & _) & _). cbn [typed] in Hm.
  rewrite p2p_earlier_typed in Hm by reflexivity.
  destruct (Hv "motive"%string dm) as (wm & Sm & Fm); [by left|].
  destruct (Hv "potential_peers_to_connect"%string dp) as (wp & Sp & Fp); [right; by left|].
  unfold generate_struct_encoding, generate_field_encoding in Hf.
  cbn [omap list_omap field_encoding field_name fmap option_fmap option_map
    format format_fields get_name get_encoding generate_encoding generate_dynamic_encoding] in Hf.
  rewrite (proj1 (p2p_earlier 4 "NackMotive" eq_refl)) in Hf.
  rewrite Fm, Fp in Hf. set (lst := generate_list_encoding _ _) in Hf. clearbody lst.
  set (mot := path_encoding "NackMotive") in Hf. cbn -[format be_bytes format_block] in Hf.
  destruct (format mot wm) as [m|] eqn:Em; [|done]. cbn -[format be_bytes format_block] in Hf.
  destruct (format lst wp) as [l|]; [|done]. cbn -[be_bytes] in Hf. unfold format_block in Hf.
  destruct (decide (len l ≤ u32_max)) as [Hl|]; [|done]. cbn -[be_bytes] in Hf.
  exists m, l. rewrite app_nil_r in Hf. split; [congruence|split; [|done]].
  pose proof (@path_sized _ _ _ _ _ _ p2p_sizes_laws "NackMotive" dm wm m Hm Sm Em) as Hw.
  rewrite (message_bounds_get "NackMotive" 2 2 eq_refl) in Hw. destruct Hw as [Hlo Hhi].
  cbn [fst snd] in Hlo, Hhi. unfold len in Hlo, Hhi. lia.
Qed.

Lemma ack_form d bs :
  path_typed "AckMessage" d → as_bytes d (path_encoding "AckMessage") = Ok bs →
  bs = [0] ∧ d = DUnitVariant "AckMessage" 0 "Ack" ∨
  bs = [255] ∧ d = DUnitVariant "AckMessage" 1 "NackV0" ∨
  ∃ info m l, bs = [1] ++ m ++ be_bytes 4 (len l) ++ l ∧ length m = 2%nat ∧ len l ≤ u32_max ∧
    d = DNewtypeVariant "AckMessage" 2 "Nack" info.
Proof.
  intros Ht Hw. apply write_inv in Hw as (v & Hs & Hf).
  rewrite (p2p_declared_typed 5 "AckMessage" _ eq_refl eq_refl) in Ht.
  rewrite (proj1 (p2p_declared 5 "AckMessage" _ eq_refl eq_refl)) in Hf.
  cbn [typed generate_encoding] in Ht, Hf.
  eapply enum_cases in Hf as (k & t & b & p & Hk & _ & _ & Hb & Hbs & Hp);
    [|reflexivity|exact Ht|exact Hs]. subst bs.
  destruct k as [|[|[|]]]; cbn in Hk; try done; injection Hk as <-; cbn in Hb; injection Hb as <-.
  - left. by destruct Hp as [(_ & -> & ->)|[[] _]].
  - right; left. by destruct Hp as [(_ & -> & ->)|[[] _]].
  - right; right. destruct Hp as [[? _]|(_ & d' & w & -> & Hd & Hw & Hp)]; [done|].
    cbn [tag_encoding typed generate_encoding] in Hd, Hp.
    rewrite p2p_earlier_typed in Hd by reflexivity.
    rewrite (proj1 (p2p_earlier 5 "NackInfo" eq_refl)) in Hp.
    destruct (nack_info_form d' w p Hd Hw Hp) as (m & l & -> & Hm & Hl).
    exists d', m, l. auto.
Qed.

Lemma ack_size d bs chunk rest :
  path_typed "AckMessage" d → as_bytes d (path_encoding "AckMessage") = Ok bs →
  bs = chunk ++ rest → 1 ≤ len chunk → 7 ≤ len chunk ∨ rest = [] →
  ack_message_size_from_chunk chunk =
    Ok (match d with DNewtypeVariant _ _ _ _ => len bs - 4 | _ => len bs end).
Proof.
  intros Ht Hw Hc H1' H7. pose proof (len_nonneg rest) as Hr.
  destruct (ack_form d bs Ht Hw) as [[-> ->]|[[-> ->]|(info & m & l & -> & Hm & Hl & ->)]].
  1,2: clear Ht Hw; destruct chunk as [|c chunk]; [done|]; injection Hc as <- _;
    apply ack_size_plain; auto.
  clear Ht Hw.
  assert (chunk = [1] ++ m ++ be_bytes 4 (len l) ++ drop 7 chunk) as ->.
  { assert (len l + 7 = len chunk + len rest) as El.
    { rewrite <- len_app, <- Hc, !len_app, len_be_bytes. unfold len. rewrite Hm. cbn. lia. }
    pose proof (len_nonneg l). assert (7 ≤ length chunk)%nat as Hlc.
    { destruct H7 as [H7| ->]; unfold len in *; cbn in *; lia. }
    rewrite <- (take_drop 7 chunk) at 1. apply (f_equal (take 7)) in Hc.
    rewrite (take_app_le chunk) in Hc by done. rewrite <- Hc, !app_assoc. f_equal.
    apply take_app_length'. rewrite !length_app, Hm. done. }
  pose proof (len_nonneg l). rewrite ack_size_nack by (done || lia). f_equal.
  rewrite !len_app, len_be_bytes. unfold len. rewrite Hm. cbn. lia.
Qed.

(** The size that [AckMessage::size_from_chunk] announces is the size of
    an [Ack] and of a [NackV0], and four bytes too small for a [Nack]: the
    length field of the list of peers is not counted. *)
Theorem ack_size_announced d bs chunk rest :
  path_typed "AckMessage" d → as_bytes d (path_encoding "AckMessage") = Ok bs →
  bs = chunk ++ rest → 1 ≤ len chunk → 7 ≤ len chunk ∨ rest = [] →
  ack_message_size_from_chunk chunk =
    Ok (match d with DNewtypeVariant _ _ _ _ => len bs - 4 | _ => len bs end).
Proof. apply ack_size. Qed.

Lemma peer_size d bs chunk rest :
  as_bytes d (path_encoding "PeerMessageResponse") = Ok bs →
  bs = chunk ++ rest → 4 ≤ len chunk →
  peer_message_response_size_from_chunk chunk = Ok (len bs).
Proof.
  unfold as_bytes at 1. pose proof peer_message_response_encoding as E. rewrite E.
  intros Hw Hc Hl. apply write_bounded_dynamic in Hw as (b & Hb & _ & Hu).
  assert (chunk = be_bytes 4 (len b) ++ drop 4 chunk) as ->.
  { rewrite Hb in Hc. rewrite <- (take_drop 4 chunk) at 1. f_equal.
    apply (f_equal (take 4)) in Hc. rewrite take_app_length' in Hc by (by rewrite length_be_bytes).
    rewrite take_app_le in Hc by (unfold len in Hl; lia). done. }
  rewrite peer_message_size_ok by (pose proof (len_nonneg b); lia).
  rewrite Hb, len_app, len_be_bytes. f_equal. lia.
Qed.

Lemma metadata_size d bs :
  path_typed "MetadataMessage" d → as_bytes d (path_encoding "MetadataMessage") = Ok bs → len bs = 2.
Proof.
  intros Ht Hw. destruct (message_within _ d bs Ht Hw) as [Hl Hh].
  rewrite (message_bounds_get "MetadataMessage" 2 2 eq_refl) in Hl, Hh. cbn [fst snd] in Hl, Hh. lia.
Qed.

(** The size announced for a [PeerMessageResponse] is exact: whatever part
    of the message of at least four bytes has arrived, [size_from_chunk]
    returns the length of the whole message; and so is the size announced for
    a [MetadataMessage]. *)
Theorem size_from_chunk_exact d bs chunk rest :
  (as_bytes d (path_encoding "PeerMessageResponse") = Ok bs →
   bs = chunk ++ rest → 4 ≤ len chunk →
   peer_message_response_size_from_chunk chunk = Ok (len bs)) ∧
  (path_typed "MetadataMessage" d → as_bytes d (path_encoding "MetadataMessage") = Ok bs →
   metadata_message_size_from_chunk chunk = Ok (len bs)).
Proof.
  split; [apply peer_size|]. intros Ht Hw. rewrite (metadata_size d bs Ht Hw). done.
Qed.

(** ** How many operations fit in a mempool *)

Definition operation_hash_ok (h : bytes) : Prop := bytes_ok h ∧ len h = size OperationHash.

Definition hashes_data (hs : list bytes) : Data := DSeq (map (typed_hash_data "OperationHash") hs).

Definition mempool_data (known_valid pending : list bytes) : Data :=
  DStruct "Mempool"
    [("known_valid", hashes_data known_valid); ("pending", hashes_data pending)]%string.

Definition hash_value (h : bytes) : Value := Value.List (map Value.Uint8 h).

Lemma serialize_hashes hs : serialize (hashes_data hs) = Ok (Value.List (map hash_value hs)).
Proof.
  unfold hashes_data. cbn [serialize]. rewrite (serialize_elements_ok _ (map hash_value hs)); [done|].
  induction hs as [|h hs IH]; cbn [map]; constructor; [|done].
  change (serialize (DSeq (map DU8 h)) = Ok (hash_value h)). apply serialize_u8s.
Qed.

Lemma format_hashes hs :
  Forall operation_hash_ok hs →
  format (Encoding.List (Encoding.Hash OperationHash)) (Value.List (map hash_value hs))
  = Some (concat hs).
Proof.
  intros Hh.
  transitivity (@concat Z <$> mapM (format (Encoding.Hash OperationHash)) (map hash_value hs)); [done|].
  assert (mapM (format (Encoding.Hash OperationHash)) (map hash_value hs) = Some hs) as ->; [|done].
  apply mapM_Some. rewrite Forall2_fmap_l. induction Hh as [|h hs [Hb Hl] Hh IH]; constructor; [|done].
  unfold compose, hash_value. cbn [format]. rewrite format_u8s_bytes by done. cbn [mbind option_bind].
  unfold guard_opt. by rewrite decide_True.
Qed.

Lemma len_hashes hs : Forall operation_hash_ok hs → len (concat hs) = 32 * len hs.
Proof.
  induction 1 as [|h hs [_ Hl] Hh IH]; [done|]. cbn [concat]. rewrite len_app, Hl, IH.
  replace (len (h :: hs)) with (1 + len hs) by (unfold len; cbn; lia). cbn [size]. lia.
Qed.

Lemma mempool_encoding :
  path_encoding "Mempool" =
  Encoding.Bounded MEMPOOL_MAX_SIZE
    (Encoding.Obj "Mempool"
       [mkField "known_valid"%string (Encoding.Dynamic (Encoding.List (Encoding.Hash OperationHash)));
        mkField "pending"%string
          (Encoding.Dynamic (Encoding.Dynamic (Encoding.List (Encoding.Hash OperationHash))))]).
Proof.
  rewrite (proj1 (p2p_declared 12 "Mempool" _ eq_refl eq_refl)). vm_compute. reflexivity.
Qed.

(** The bytes of the mempool, with [8 + 4] bytes of lengths. *)
Lemma mempool_format known pending :
  Forall operation_hash_ok known → Forall operation_hash_ok pending →
  format (path_encoding "Mempool")
    (Value.Record [("known_valid"%string, Value.List (map hash_value known));
                   ("pending"%string, Value.List (map hash_value pending))])
  = (k ← format_block (concat known);
     p ← (p ← format_block (concat pending); format_block p);
     guard_opt (len (k ++ p) ≤ MEMPOOL_MAX_SIZE) (Some (k ++ p))).
Proof.
  intros Hk Hp. rewrite mempool_encoding.
  pose proof (format_hashes known Hk) as Fk. pose proof (format_hashes pending Hp) as Fp.
  remember (Encoding.List (Encoding.Hash OperationHash)) as E eqn:HE. clear HE. cbn -[be_bytes format_block MEMPOOL_MAX_SIZE].
  rewrite (bool_decide_true ("known_valid" = "known_valid")%string),
    (bool_decide_false ("known_valid" = "pending")%string),
    (bool_decide_true ("pending" = "pending")%string) by done.
  cbn -[be_bytes format_block MEMPOOL_MAX_SIZE].
  rewrite Fk, Fp. cbn -[be_bytes format_block MEMPOOL_MAX_SIZE].
  destruct (format_block (concat known)); [|done]. cbn -[be_bytes format_block MEMPOOL_MAX_SIZE].
  destruct (format_block (concat pending)) as [b|]; [|done].
  cbn -[be_bytes format_block MEMPOOL_MAX_SIZE].
  destruct (format_block b); [|done]. cbn -[be_bytes MEMPOOL_MAX_SIZE]. by rewrite app_nil_r.
Qed.

Lemma len_format_block bs b : format_block bs = Some b → len b = len bs + 4.
Proof.
  unfold format_block. case_decide; [|done]. intros Hb.
  assert (b = be_bytes 4 (len bs) ++ bs) as -> by congruence. rewrite len_app, len_be_bytes. lia.
Qed.

Lemma format_block_some bs : len bs ≤ u32_max → is_Some (format_block bs).
Proof. intros. unfold format_block. rewrite decide_True by done. eauto. Qed.

(** A mempool can be written exactly if it has at most 3999 operations,
    one less than [MEMPOOL_MAX_OPERATIONS]: the encoding has twelve bytes of
    length fields and [MEMPOOL_MAX_SIZE] allows for eight. *)
Theorem mempool_capacity known pending :
  Forall operation_hash_ok known → Forall operation_hash_ok pending →
  (∃ bs, as_bytes (mempool_data known pending) (path_encoding "Mempool") = Ok bs)
  ↔ len known + len pending ≤ MEMPOOL_MAX_OPERATIONS - 1.
Proof.
  intros Hk Hp. pose proof (mempool_format known pending Hk Hp) as Hf.
  pose proof (len_hashes known Hk). pose proof (len_hashes pending Hp).
  pose proof (len_nonneg known). pose proof (len_nonneg pending).
  assert (MEMPOOL_MAX_SIZE = 128008) as EM by reflexivity. rewrite EM in Hf.
  change (MEMPOOL_MAX_OPERATIONS - 1) with 3999.
  assert (serialize (mempool_data known pending) =
    Ok (Value.Record [("known_valid"%string, Value.List (map hash_value known));
                      ("pending"%string, Value.List (map hash_value pending))])) as Hs.
  { unfold mempool_data. cbn [serialize]. cbn -[hashes_data]. by rewrite !serialize_hashes. }
  split.
  - intros [bs Hw]. apply write_inv in Hw as (v & Hv & Hw).
    rewrite Hs in Hv. injection Hv as <-. rewrite Hf in Hw.
    destruct (format_block (concat known)) as [k|] eqn:Ek; [|done].
    destruct (format_block (concat pending)) as [p|] eqn:Ep; [|done].
    cbn -[format_block] in Hw. destruct (format_block p) as [q|] eqn:Eq; [|done].
    cbn in Hw. apply guard_opt_Some in Hw as [Hw _]. rewrite len_app in Hw.
    apply len_format_block in Ek, Ep, Eq. lia.
  - intros Hn. destruct (format_block_some (concat known)) as [k Ek]; [unfold u32_max; lia|].
    destruct (format_block_some (concat pending)) as [p Ep]; [unfold u32_max; lia|].
    pose proof (len_format_block _ _ Ek). pose proof (len_format_block _ _ Ep).
    destruct (format_block_some p) as [q Eq]; [unfold u32_max; lia|].
    pose proof (len_format_block _ _ Eq). exists (k ++ q).
    eapply write_ok; [done| |rewrite len_app; unfold usize_max; lia].
    rewrite Hf, Ek. cbn -[format_block]. rewrite Ep. cbn -[format_block]. rewrite Eq. cbn.
    unfold guard_opt. by rewrite decide_True by (rewrite len_app; lia).
Qed.

End P2pSizes.

(** ** Examples *)

Module MessageSizesWitnesses.
Import Concrete ConcreteNom ConcreteSerde.

#[local] Existing Instance p2p_env.
#[local] Existing Instance p2p_spec.

Lemma message_sizes_witness :
  2 ≤ len [0; 19; 1; 2; 3; 4] ≤ MESSAGE_MAX_SIZE - 4.
Proof.
  apply (message_sizes "PeerMessage" _ _ MessagesWitnesses.get_current_head).
  - reflexivity.
  - exact MessagesWitnesses.get_current_head_typed.
  - vm_compute. reflexivity.
Defined.

Lemma peer_message_fits_witness :
  as_bytes MessagesWitnesses.example (path_encoding "PeerMessageResponse")
  = Ok (be_bytes 4 (len [0; 19; 1; 2; 3; 4]) ++ [0; 19; 1; 2; 3; 4]).
Proof.
  apply (peer_message_fits MessagesWitnesses.get_current_head).
  - exact MessagesWitnesses.get_current_head_typed.
  - vm_compute. reflexivity.
Defined.

Definition no_motive : Data := DUnitVariant "NackMotive" 0 "NoMotive".

(** [AckMessage::Nack(NackInfo { motive: NoMotive, potential_peers_to_connect: vec![] })] *)
Definition nack : Data :=
  DNewtypeVariant "AckMessage" 2 "Nack"
    (DStruct "NackInfo" [("motive", no_motive); ("potential_peers_to_connect", DSeq [])]%string).

Lemma nack_typed : path_typed "AckMessage" nack.
Proof.
  rewrite (p2p_declared_typed 5 "AckMessage" _ eq_refl eq_refl). cbn [typed typed_tags].
  do 2 right. left. eexists. split; [reflexivity|]. cbn [tag_encoding typed].
  rewrite (p2p_earlier_typed 5 "NackInfo" eq_refl).
  rewrite (p2p_declared_typed 4 "NackInfo" _ eq_refl eq_refl). cbn [typed].
  exists [Some ("motive"%string, no_motive); Some ("potential_peers_to_connect"%string, DSeq [])].
  split; [done|]. split; [|split; [|done]].
  - eexists. split; [done|]. cbn [typed]. rewrite (p2p_earlier_typed 4 "NackMotive" eq_refl).
    rewrite (p2p_declared_typed 3 "NackMotive" _ eq_refl eq_refl). by left.
  - eexists. split; [done|]. exists []. split; [done|constructor].
Qed.

Lemma ack_size_announced_witness :
  ack_message_size_from_chunk [1; 0; 0; 0; 0; 0; 0] = Ok (7 - 4).
Proof.
  apply (ack_size_announced nack [1; 0; 0; 0; 0; 0; 0] _ []).
  - exact nack_typed.
  - vm_compute. reflexivity.
  - done.
  - vm_compute. done.
  - by right.
Defined.

Lemma size_from_chunk_exact_witness :
  peer_message_response_size_from_chunk [0; 0; 0; 6; 0] = Ok 10.
Proof.
  destruct (size_from_chunk_exact MessagesWitnesses.example [0; 0; 0; 6; 0; 19; 1; 2; 3; 4]
              [0; 0; 0; 6; 0] [19; 1; 2; 3; 4]) as [E _].
  apply E; [vm_compute; reflexivity|done|vm_compute; done].
Defined.

Lemma mempool_capacity_witness :
  ∃ bs, as_bytes (mempool_data [] [replicate 32 1]) (path_encoding "Mempool") = Ok bs.
Proof.
  apply (mempool_capacity [] [replicate 32 1]).
  - constructor.
  - repeat constructor; unfold is_byte; lia.
  - vm_compute. done.
Defined.

End MessageSizesWitnesses.
