(* ===== verification/Stream.v ===== *)
(** * The encrypted message stream: [networking/src/p2p/stream.rs]

    A message is cut into pieces, every piece is sealed with the next nonce and
    sent as a chunk with its length; the other end opens the chunks with the
    same nonces until the size that the first bytes announce has arrived.  The
    transport is a parameter, as it is in the source ([W: AsyncWrite],
    [R: AsyncRead]). *)

From S2P Require Import Prelude External BitUtils Hash Encoding Serializer PathCodec BinaryWriter Format NomLib NomReader Derive DeriveRoundTrip Crypto BinaryMessage.

(** ** Transport *)

Class AsyncWrite (W IoError : Type) : Type := {
  write_all : W → bytes → W * result () IoError
}.

Class AsyncRead (R IoError : Type) : Type := {
  read_exact : R → nat → R * result bytes IoError
}.

(** What was written, and what will be read. *)
Class Transport (W R IoError : Type) `{AsyncWrite W IoError, AsyncRead R IoError} : Type := {
  sent : W → bytes;
  pending : R → bytes
}.

Class TransportLaws (W R IoError : Type) `{Transport W R IoError} : Prop := {
  write_all_ok w bs w' : write_all w bs = (w', Ok ()) → sent w' = sent w ++ bs;
  read_exact_ok r n : (n ≤ length (pending r))%nat →
    ∃ r', read_exact r n = (r', Ok (take n (pending r))) ∧ pending r' = drop n (pending r)
}.

(** ** Errors *)

Inductive StreamError (IoError : Type) :=
| FailedToEncryptMessage (error : CryptoError)
| FailedToDecryptMessage (error : CryptoError)
| SerializationError (error : EncodingError)
| DeserializationError (error : BinaryReaderError)
| NetworkIo (error : IoError)
| NetworkChunk (error : BinaryChunkError).
Arguments FailedToEncryptMessage {IoError}.
Arguments FailedToDecryptMessage {IoError}.
Arguments SerializationError {IoError}.
Arguments DeserializationError {IoError}.
Arguments NetworkIo {IoError}.
Arguments NetworkChunk {IoError}.

(** The largest piece of a message that is sealed. *)
Definition STREAM_CONTENT_LENGTH_MAX : Z := CONTENT_LENGTH_MAX - BOX_ZERO_BYTES.

Section Stream.
Context `{BigUintLib, CryptoBox}.

(** ** [Crypto] *)

Record Crypto := mkCrypto { precomputed_key : box_key; nonce : Nonce }.

Definition nonce_fetch_increment (self : Crypto) : Nonce * Crypto :=
  (nonce self, mkCrypto (precomputed_key self) (increment (nonce self))).

Definition crypto_encrypt (self : Crypto) (data : bytes) : Crypto * result bytes CryptoError :=
  let '(nonce, self) := nonce_fetch_increment self in
  (self, encrypt (precomputed_key self) data nonce).

Definition crypto_decrypt (self : Crypto) (data : bytes) : Crypto * result bytes CryptoError :=
  let '(nonce, self) := nonce_fetch_increment self in
  (self, decrypt (precomputed_key self) data nonce).

(** ** Chunks on the transport *)

Section Reader.
Context {R IoError : Type} `{AsyncRead R IoError}.

(** [MessageReaderBase::read_message] *)
Definition read_chunk (stream : R) : R * result BinaryChunk (StreamError IoError) :=
  let '(stream, r) := read_exact stream (Z.to_nat CONTENT_LENGTH_FIELD_BYTES) in
  match r with
  | Err e => (stream, Err (NetworkIo e))
  | Ok msg_len_bytes =>
      let msg_len := be_val msg_len_bytes in
      let '(stream, r) := read_exact stream (Z.to_nat msg_len) in
      match r with
      | Err e => (stream, Err (NetworkIo e))
      | Ok msg_content_bytes =>
          (stream, map_err NetworkChunk (try_from (msg_len_bytes ++ msg_content_bytes)))
      end
  end.

(** [EncryptedMessageReaderBase] *)
Record EncryptedMessageReader := mkReader { rx : R; reader_crypto : Crypto }.

(** The loop of [read_message] for a type with the reader [nom_read] and the
    function [size_from_chunk]; [None] if the rounds are spent. *)
Fixpoint read_message_loop `{Nom} (nom_read : Parser Data)
    (size_from_chunk : bytes → result Z BinaryReaderError) (rounds : nat)
    (self : EncryptedMessageReader) (input_size : Z) (input_data : bytes)
    : option (EncryptedMessageReader * result Data (StreamError IoError)) :=
  match rounds with
  | O => None
  | S rounds' =>
      let '(rx, r) := read_chunk (rx self) in
      let self := mkReader rx (reader_crypto self) in
      match r with
      | Err e => Some (self, Err e)
      | Ok message_encrypted =>
          let '(crypto, r) := crypto_decrypt (reader_crypto self) (content message_encrypted) in
          let self := mkReader rx crypto in
          match r with
          | Err error => Some (self, Err (FailedToDecryptMessage error))
          | Ok message_decrypted =>
              match (if decide (input_size = 0) then size_from_chunk message_decrypted
                     else Ok input_size) with
              | Err e => Some (self, Err (DeserializationError e))
              | Ok input_size =>
                  let input_data := input_data ++ message_decrypted in
                  if decide (input_size ≤ len input_data) then
                    Some (self, map_err DeserializationError (from_bytes nom_read input_data))
                  else read_message_loop nom_read size_from_chunk rounds' self input_size input_data
              end
          end
      end
  end.

Definition read_message `{Nom} (nom_read : Parser Data)
    (size_from_chunk : bytes → result Z BinaryReaderError) (rounds : nat)
    (self : EncryptedMessageReader) :=
  read_message_loop nom_read size_from_chunk rounds self 0 [].

End Reader.

Section Writer.
Context {W IoError : Type} `{AsyncWrite W IoError, BufMut, HexLib, BitVecLib}.

(** [MessageWriterBase::write_message] *)
Definition write_chunk (stream : W) (chunk : BinaryChunk) : W * result () (StreamError IoError) :=
  let '(stream, r) := write_all stream (raw chunk) in (stream, map_err NetworkIo r).

(** [EncryptedMessageWriterBase] *)
Record EncryptedMessageWriter := mkWriter { tx : W; writer_crypto : Crypto }.

Fixpoint write_chunks (self : EncryptedMessageWriter) (pieces : list bytes)
    : EncryptedMessageWriter * result () (StreamError IoError) :=
  match pieces with
  | [] => (self, Ok ())
  | chunk_content_bytes :: pieces' =>
      let '(crypto, r) := crypto_encrypt (writer_crypto self) chunk_content_bytes in
      let self := mkWriter (tx self) crypto in
      match r with
      | Err error => (self, Err (FailedToEncryptMessage error))
      | Ok message_bytes_encrypted =>
          match from_content message_bytes_encrypted with
          | Err e => (self, Err (NetworkChunk e))
          | Ok chunk =>
              let '(tx, r) := write_chunk (tx self) chunk in
              let self := mkWriter tx crypto in
              match r with
              | Err e => (self, Err e)
              | Ok _ => write_chunks self pieces'
              end
          end
      end
  end.

Definition write_message (self : EncryptedMessageWriter) (message : Data) (encoding : Encoding)
    : EncryptedMessageWriter * result () (StreamError IoError) :=
  match as_bytes message encoding with
  | Err e => (self, Err (SerializationError e))
  | Ok message_bytes =>
      write_chunks self (chunks (Z.to_nat STREAM_CONTENT_LENGTH_MAX) message_bytes)
  end.

End Writer.
End Stream.

(** ** Theorems *)

Section StreamTheorems.
Context `{BigUintLaws, CryptoBoxLaws, BufMutLaws}.
Context {W R IoError : Type} `{TransportLaws W R IoError}.

(** The bytes of a piece that is sealed with the nonce [v]. *)
Definition frame (k : box_key) (v : Z) (piece : bytes) : bytes :=
  let sealed := seal_precomputed piece (be_bytes 24 v) k in be_bytes 2 (len sealed) ++ sealed.

Fixpoint frames (k : box_key) (v : Z) (pieces : list bytes) : bytes :=
  match pieces with
  | [] => []
  | piece :: pieces' => frame k v piece ++ frames k (v + 1) pieces'
  end.

Definition piece_ok (c : bytes) : Prop := c ≠ [] ∧ len c ≤ STREAM_CONTENT_LENGTH_MAX.

Lemma write_chunks_inv (self self' : EncryptedMessageWriter) k v pieces :
  writer_crypto self = mkCrypto k (mkNonce v) → 0 ≤ v → v + len pieces ≤ 2 ^ 192 →
  Forall piece_ok pieces →
  (write_chunks self pieces = (self', Ok ()) →
     sent (tx self') = sent (tx self) ++ frames k v pieces ∧
     writer_crypto self' = mkCrypto k (mkNonce (v + len pieces))) ∧
  (∀ e, write_chunks self pieces = (self', Err e) → ∃ io, e = NetworkIo io).
Proof.
  revert self v. induction pieces as [|c pieces IH]; intros self v Hc Hv Hn HF.
  { cbn [write_chunks frames]. rewrite len_nil, Z.add_0_r, app_nil_r.
    split; [intros [= <-]; done|done]. }
  apply Forall_cons in HF as [[_ Hcl] HF]. rewrite len_cons in *. pose proof (len_nonneg pieces).
  cbn [write_chunks]. unfold crypto_encrypt, nonce_fetch_increment. rewrite Hc. cbn [precomputed_key nonce].
  rewrite encrypt_ok by lia.
  pose proof (seal_length c (be_bytes 24 v) k) as Hs.
  set (s := seal_precomputed c (be_bytes 24 v) k) in *.
  rewrite from_content_ok
    by (unfold STREAM_CONTENT_LENGTH_MAX, BOX_ZERO_BYTES in Hcl; lia).
  unfold write_chunk. cbn [raw tx].
  destruct (write_all (tx self) (be_bytes 2 (len s) ++ s)) as [w [[]|io]] eqn:Ew; cbn [map_err].
  - apply write_all_ok in Ew.
    destruct (IH (mkWriter w (mkCrypto k (increment (mkNonce v)))) (v + 1)) as [IH1 IH2];
      [done|lia|lia|done|]. split; [|exact IH2].
    intros Hw. destruct (IH1 Hw) as [Hsent Hcr]. cbn [tx] in Hsent. rewrite Hsent, Ew, Hcr.
    cbn [frames]. unfold frame. fold s. rewrite <- !app_assoc. split; [done|]. do 2 f_equal. lia.
  - split; [done|]. intros e [= <- <-]. eauto.
Qed.

Lemma write_chunks_io (self self' : EncryptedMessageWriter) pieces io :
  write_chunks self pieces = (self', Err (NetworkIo io)) →
  ∃ (w w' : W) bs, write_all w bs = (w', Err io).
Proof.
  revert self. induction pieces as [|c pieces IH]; intros self; [done|]. cbn [write_chunks].
  destruct (crypto_encrypt _ c) as [cr [s|]]; [|done].
  destruct (from_content s) as [chunk|]; [|done]. unfold write_chunk. cbn [tx].
  destruct (write_all (tx self) (raw chunk)) as [w [[]|io']] eqn:Ew; cbn [map_err].
  - apply IH.
  - intros [= _ <-]. eauto.
Qed.

(** A chunk is read back from the transport. *)
Lemma read_chunk_content (r : R) s rest :
  len s ≤ CONTENT_LENGTH_MAX → pending r = (be_bytes 2 (len s) ++ s) ++ rest →
  ∃ r', read_chunk r = (r', Ok (mkBinaryChunk (be_bytes 2 (len s) ++ s))) ∧ pending r' = rest.
Proof.
  intros Hc Hp.
  pose proof (len_nonneg s) as Hs0. unfold read_chunk. change (Z.to_nat CONTENT_LENGTH_FIELD_BYTES) with 2%nat.
  destruct (read_exact_ok r 2) as (r1 & E1 & P1); [rewrite Hp, !length_app, length_be_bytes; lia|].
  rewrite E1. rewrite Hp, <- app_assoc in P1 |- *.
  rewrite take_app_length' by (by rewrite length_be_bytes).
  rewrite drop_app_length' in P1 by (by rewrite length_be_bytes).
  rewrite be_val_be_bytes, Z.mod_small by (unfold CONTENT_LENGTH_MAX in Hc; simpl; lia).
  rewrite len_nat.
  destruct (read_exact_ok r1 (length s)) as (r2 & E2 & P2); [rewrite P1, length_app; lia|].
  rewrite E2. rewrite P1, take_app_length. rewrite P1, drop_app_length in P2.
  rewrite try_from_ok by done. by exists r2.
Qed.

Lemma read_chunk_frame (r : R) k v piece rest :
  piece_ok piece → pending r = frame k v piece ++ rest →
  ∃ r', read_chunk r = (r', Ok (mkBinaryChunk (frame k v piece))) ∧ pending r' = rest.
Proof.
  intros [_ Hl] Hp. apply read_chunk_content; [|exact Hp].
  rewrite seal_length. unfold STREAM_CONTENT_LENGTH_MAX, BOX_ZERO_BYTES in Hl. lia.
Qed.

Context `{NomLaws}.
Variables (nom_read : Parser Data) (size_from_chunk : bytes → result Z BinaryReaderError).

(** The rest of a message of which the size is known. *)
Lemma read_loop_rest (self : EncryptedMessageReader) k v pieces acc n rest :
  reader_crypto self = mkCrypto k (mkNonce v) → 0 ≤ v → v + len pieces ≤ 2 ^ 192 →
  Forall piece_ok pieces → pieces ≠ [] →
  n = len acc + len (concat pieces) → n ≠ 0 →
  pending (rx self) = frames k v pieces ++ rest →
  ∃ self', read_message_loop nom_read size_from_chunk (length pieces) self n acc
             = Some (self', map_err DeserializationError (from_bytes nom_read (acc ++ concat pieces))) ∧
    pending (rx self') = rest ∧ reader_crypto self' = mkCrypto k (mkNonce (v + len pieces)).
Proof.
  revert self v acc. induction pieces as [|c pieces IH]; intros self v acc Hc Hv Hn HF Hne En Hn0 Hp;
    [done|]. clear Hne.
  apply Forall_cons in HF as [Hcok HF].
  rewrite len_cons in *. pose proof (len_nonneg pieces). cbn [frames] in Hp. rewrite <- app_assoc in Hp.
  destruct (read_chunk_frame (rx self) k v c _ Hcok Hp) as (r' & Er & Pr).
  cbn [length read_message_loop]. rewrite Er. cbn [reader_crypto].
  unfold crypto_decrypt, nonce_fetch_increment. rewrite Hc. cbn [precomputed_key nonce].
  unfold frame. rewrite content_of, decrypt_ok by lia. rewrite decide_False by done.
  cbn [concat] in En |- *. rewrite len_app in En. rewrite len_app, app_assoc.
  destruct pieces as [|c2 pieces].
  - cbn [concat] in *. change (len []) with 0 in En. rewrite decide_True by lia.
    rewrite app_nil_r. eexists. split; [done|]. cbn [rx reader_crypto]. by rewrite Pr.
  - rewrite decide_False.
    + destruct (IH (mkReader r' (mkCrypto k (increment (mkNonce v)))) (v + 1) (acc ++ c))
        as (self' & E & P & C); try done; try lia.
      { rewrite len_app. lia. }
      exists self'. rewrite E. split; [done|]. split; [done|]. rewrite C. do 2 f_equal. lia.
    + apply Forall_cons in HF as [[Hc2 _] _].
      pose proof (len_nonneg (concat pieces)).
      assert (0 < len c2) by (destruct c2; [done|unfold len; cbn; lia]). cbn [concat] in En.
      rewrite len_app in En. lia.
Qed.

(** What [read_message] needs to know of the size that the first piece
    announces: it is the size of the message, or the message is one piece. *)
Definition announced (bs : bytes) : Prop :=
  ∃ n, size_from_chunk (take (Z.to_nat STREAM_CONTENT_LENGTH_MAX) bs) = Ok n ∧ 0 < n ≤ len bs ∧
    (len bs ≤ STREAM_CONTENT_LENGTH_MAX ∨ n = len bs).

Lemma pieces_ok bs :
  let pieces := chunks (Z.to_nat STREAM_CONTENT_LENGTH_MAX) bs in
  concat pieces = bs ∧ Forall piece_ok pieces.
Proof.
  intros pieces. assert (0 < Z.to_nat STREAM_CONTENT_LENGTH_MAX)%nat as H0'
    by (unfold STREAM_CONTENT_LENGTH_MAX, CONTENT_LENGTH_MAX, BOX_ZERO_BYTES; lia).
  destruct (chunks_concat _ bs H0') as [E F]. fold pieces in E, F. split; [done|].
  eapply Forall_impl; [exact F|]. intros c [Hc Hl]. split; [done|].
  unfold len. unfold STREAM_CONTENT_LENGTH_MAX, CONTENT_LENGTH_MAX, BOX_ZERO_BYTES in *. lia.
Qed.

Lemma read_message_frames (self : EncryptedMessageReader) k v bs rest :
  let pieces := chunks (Z.to_nat STREAM_CONTENT_LENGTH_MAX) bs in
  reader_crypto self = mkCrypto k (mkNonce v) → 0 ≤ v → v + len pieces ≤ 2 ^ 192 →
  bs ≠ [] → announced bs →
  pending (rx self) = frames k v pieces ++ rest →
  ∃ self', read_message nom_read size_from_chunk (length pieces) self
             = Some (self', map_err DeserializationError (from_bytes nom_read bs)) ∧
    pending (rx self') = rest ∧ reader_crypto self' = mkCrypto k (mkNonce (v + len pieces)).
Proof.
  intros pieces Hc Hv Hn Hbs (n & Hsz & Hnb & Hone) Hp.
  destruct (pieces_ok bs) as (Ecat & HF). fold pieces in Ecat, HF.
  assert (0 < Z.to_nat STREAM_CONTENT_LENGTH_MAX)%nat as H0'
    by (unfold STREAM_CONTENT_LENGTH_MAX, CONTENT_LENGTH_MAX, BOX_ZERO_BYTES; lia).
  destruct (chunks_head _ bs H0' Hbs) as [cs Ecs]. fold pieces in Ecs.
  set (c0 := take (Z.to_nat STREAM_CONTENT_LENGTH_MAX) bs) in *. rewrite Ecs in *.
  apply Forall_cons in HF as [Hc0 HF].
  rewrite len_cons in Hn. pose proof (len_nonneg cs). cbn [frames] in Hp. rewrite <- app_assoc in Hp.
  destruct (read_chunk_frame (rx self) k v c0 _ Hc0 Hp) as (r' & Er & Pr).
  unfold read_message. cbn [length read_message_loop]. rewrite Er. cbn [reader_crypto].
  unfold crypto_decrypt, nonce_fetch_increment. rewrite Hc. cbn [precomputed_key nonce].
  unfold frame. rewrite content_of, decrypt_ok by lia. rewrite decide_True by done. rewrite Hsz.
  cbn [app concat] in Ecat |- *. rewrite len_cons.
  destruct cs as [|c1 cs].
  - cbn [concat] in Ecat. rewrite app_nil_r in Ecat. rewrite Ecat, decide_True by lia.
    eexists. split; [done|]. cbn [rx reader_crypto]. by rewrite Pr.
  - assert (n = len bs) as ->.
    { destruct Hone as [Hone|]; [|done].
      assert (pieces = [bs]) as E1.
      { apply chunks_one; [done|]. unfold len, STREAM_CONTENT_LENGTH_MAX, CONTENT_LENGTH_MAX,
          BOX_ZERO_BYTES in *. lia. }
      congruence. }
    assert (0 < len (concat (c1 :: cs))) as Hpos.
    { apply Forall_cons in HF as [[Hc1 _] _]. cbn [concat]. rewrite len_app.
      pose proof (len_nonneg (concat cs)). destruct c1; [done|]. rewrite len_cons.
      pose proof (len_nonneg c1). lia. }
    assert (len bs = len c0 + len (concat (c1 :: cs))) as El by (rewrite <- Ecat, len_app; done).
    rewrite decide_False by lia.
    destruct (read_loop_rest (mkReader r' (mkCrypto k (increment (mkNonce v)))) k (v + 1) (c1 :: cs)
      c0 (len bs) rest) as (self' & E & P & C); try done; try lia.
    exists self'. rewrite E, Ecat. split; [done|]. split; [done|]. rewrite C. do 2 f_equal. lia.
Qed.

Lemma read_message_more rounds rounds' (self : EncryptedMessageReader) n acc x :
  read_message_loop nom_read size_from_chunk rounds self n acc = Some x → (rounds ≤ rounds')%nat →
  read_message_loop nom_read size_from_chunk rounds' self n acc = Some x.
Proof.
  revert rounds' self n acc. induction rounds as [|rounds IH]; intros [|rounds'] self n acc Hr Hle;
    try done; [lia|].
  cbn [read_message_loop] in Hr |- *.
  destruct (read_chunk (rx self)) as [r [c|e]]; [|done].
  destruct (crypto_decrypt _ _) as [cr [m|e]]; [|done].
  destruct (if decide (n = 0) then size_from_chunk m else Ok n) as [n'|e]; [|done].
  destruct (decide (n' ≤ len (acc ++ m))); [done|]. apply IH; [done|lia].
Qed.

End StreamTheorems.
