(* ===== verification/P2pStream.v ===== *)
(** * Messages over the encrypted stream

    The message types that are sent over the encrypted stream (those with
    [SizeFromChunk]) put together with [networking/src/p2p/stream.rs]: what one
    end writes the other end reads, message by message and in order. *)

From S2P Require Import Prelude External BitUtils Hash Encoding Serializer PathCodec BinaryWriter Format NomLib NomReader Derive DeriveRoundTrip Sizes Crypto MerklePath BinaryMessage Stream Make Messages MessageSizes.

(** The implementations of [SizeFromChunk]. *)
Inductive Kind := KMetadata | KAck | KPeer.

Definition type_name (m : Kind) : string :=
  match m with
  | KMetadata => "MetadataMessage"
  | KAck => "AckMessage"
  | KPeer => "PeerMessageResponse"
  end.

Definition size_from_chunk `{Nom} (m : Kind) : bytes → result Z BinaryReaderError :=
  match m with
  | KMetadata => metadata_message_size_from_chunk
  | KAck => ack_message_size_from_chunk
  | KPeer => peer_message_response_size_from_chunk
  end.

Section Conversation.
Context `{BufMut, HexLib, BitVecLib, Nom, BigIntLib, BigIntSerde, BigUintLib, CryptoBox}.
Context {W R IoError : Type} `{Transport W R IoError}.

#[local] Existing Instance p2p_env.
#[local] Existing Instance p2p_spec.
#[local] Opaque p2p_env p2p_spec.

(** One message after the other, until an error. *)
Fixpoint write_messages (self : EncryptedMessageWriter) (ms : list (Kind * Data))
    : EncryptedMessageWriter * result () (StreamError IoError) :=
  match ms with
  | [] => (self, Ok ())
  | (m, d) :: ms' =>
      let '(self, r) := write_message self d (path_encoding (type_name m)) in
      match r with Err e => (self, Err e) | Ok _ => write_messages self ms' end
  end.

Fixpoint read_messages (rounds : nat) (self : EncryptedMessageReader) (ms : list Kind)
    : option (EncryptedMessageReader * result (list Data) (StreamError IoError)) :=
  match ms with
  | [] => Some (self, Ok [])
  | m :: ms' =>
      match read_message (path_nom_read (type_name m)) (size_from_chunk m) rounds self with
      | None => None
      | Some (self, Err e) => Some (self, Err e)
      | Some (self, Ok d) =>
          match read_messages rounds self ms' with
          | None => None
          | Some (self, Err e) => Some (self, Err e)
          | Some (self, Ok ds) => Some (self, Ok (d :: ds))
          end
      end
  end.

Definition pieces (bs : bytes) : list bytes := chunks (Z.to_nat STREAM_CONTENT_LENGTH_MAX) bs.

(** The number of chunks of a list of messages. *)
Definition pieces_count (ms : list (Kind * Data)) : Z :=
  foldr Z.add 0
    (map (λ p, match as_bytes p.2 (path_encoding (type_name p.1)) with
               | Ok bs => len (pieces bs)
               | Err _ => 0
               end) ms).

Context `{!BufMutLaws, !NomLaws, !BigUintLaws, !CryptoBoxLaws, !TransportLaws W R IoError}.

Lemma message_nonempty m d bs :
  path_typed (type_name m) d → as_bytes d (path_encoding (type_name m)) = Ok bs → 0 < len bs.
Proof.
  intros Ht Hw. destruct (message_within _ d bs Ht Hw) as [Hl _]. revert Hl.
  destruct m; cbn [type_name];
    [rewrite (message_bounds_get "MetadataMessage" 2 2 eq_refl)
    |rewrite (message_bounds_get "AckMessage" 1 5107 eq_refl)
    |rewrite (message_bounds_get "PeerMessageResponse" 6 MESSAGE_MAX_SIZE eq_refl)];
    cbn [fst]; lia.
Qed.

Lemma ack_bound d bs :
  path_typed "AckMessage" d → as_bytes d (path_encoding "AckMessage") = Ok bs → 1 ≤ len bs ≤ 5107.
Proof.
  intros Ht Hw. destruct (message_within _ d bs Ht Hw) as [Hl Hh].
  rewrite (message_bounds_get "AckMessage" 1 5107 eq_refl) in Hl, Hh. auto.
Qed.

Lemma message_announced m d bs :
  path_typed (type_name m) d → as_bytes d (path_encoding (type_name m)) = Ok bs →
  announced (size_from_chunk m) bs.
Proof.
  intros Ht Hw. pose proof (message_nonempty m d bs Ht Hw) as Hpos.
  assert (STREAM_CONTENT_LENGTH_MAX = 65503) as HN by done. unfold announced. rewrite HN.
  destruct m; cbn [size_from_chunk type_name] in *.
  - pose proof (metadata_size d bs Ht Hw). exists 2.
    split; [done|]. split; [lia|]. left. lia.
  - pose proof (ack_bound d bs Ht Hw) as Hb.
    rewrite take_ge by (unfold len in Hb; lia).
    pose proof (ack_size d bs bs [] Ht Hw (eq_sym (app_nil_r bs)) ltac:(lia) (or_intror eq_refl)) as E.
    rewrite E. clear E. eexists. split; [reflexivity|]. split; [|left; lia].
    destruct (ack_form d bs Ht Hw) as [[_ ->]|[[_ ->]|(info & m & l & -> & Hm & _ & ->)]];
      clear Ht Hw; [lia|lia|].
    rewrite !len_app, len_be_bytes. unfold len at 1 2. rewrite Hm.
    pose proof (len_nonneg l). cbn. lia.
  - assert (6 ≤ len bs) as H6'.
    { destruct (message_within _ d bs Ht Hw) as [Hl _].
      rewrite (message_bounds_get "PeerMessageResponse" 6 MESSAGE_MAX_SIZE eq_refl) in Hl. exact Hl. }
    exists (len bs). split; [|split; [lia|by right]].
    apply (peer_size d bs _ (drop (Z.to_nat 65503) bs)); [done|by rewrite take_drop|].
    unfold len in *. rewrite length_take. lia.
Qed.

Lemma write_message_sent (self self' : EncryptedMessageWriter) m d bs k v :
  writer_crypto self = mkCrypto k (mkNonce v) → 0 ≤ v → v + len (pieces bs) ≤ 2 ^ 192 →
  as_bytes d (path_encoding (type_name m)) = Ok bs →
  write_message self d (path_encoding (type_name m)) = (self', Ok ()) →
  sent (tx self') = sent (tx self) ++ frames k v (pieces bs) ∧
  writer_crypto self' = mkCrypto k (mkNonce (v + len (pieces bs))).
Proof.
  intros Hc Hv Hn Hb. unfold write_message. rewrite Hb. intros Hw.
  destruct (write_chunks_inv self self' k v (pieces bs)) as [E _]; try done.
  - apply (pieces_ok bs).
  - by apply E.
Qed.

Lemma read_message_received (self : EncryptedMessageReader) m d bs k v rest :
  path_typed (type_name m) d → as_bytes d (path_encoding (type_name m)) = Ok bs →
  reader_crypto self = mkCrypto k (mkNonce v) → 0 ≤ v → v + len (pieces bs) ≤ 2 ^ 192 →
  pending (rx self) = frames k v (pieces bs) ++ rest →
  ∃ self', (∀ rounds, (length (pieces bs) ≤ rounds)%nat →
      read_message (path_nom_read (type_name m)) (size_from_chunk m) rounds self = Some (self', Ok d)) ∧
    pending (rx self') = rest ∧ reader_crypto self' = mkCrypto k (mkNonce (v + len (pieces bs))).
Proof.
  intros Ht Hw Hc Hv Hn Hp.
  destruct (read_message_frames (path_nom_read (type_name m)) (size_from_chunk m) self k v bs rest)
    as (self' & E & P & C); try eassumption.
  - pose proof (message_nonempty m d bs Ht Hw). intros ->. by change (len []) with 0 in *.
  - by apply (message_announced m d).
  - exists self'. split; [|auto]. intros rounds Hr.
    rewrite (message_read_back (type_name m) d bs Ht Hw) in E.
    eapply read_message_more; [exact E|exact Hr].
Qed.

Lemma conversation (w w' : EncryptedMessageWriter) ms k v :
  Forall (λ p, path_typed (type_name p.1) p.2) ms →
  writer_crypto w = mkCrypto k (mkNonce v) → 0 ≤ v → v + pieces_count ms ≤ 2 ^ 192 →
  write_messages w ms = (w', Ok ()) →
  ∃ new v', sent (tx w') = sent (tx w) ++ new ∧ writer_crypto w' = mkCrypto k (mkNonce v') ∧
    ∀ (r : EncryptedMessageReader) rest,
      reader_crypto r = mkCrypto k (mkNonce v) → pending (rx r) = new ++ rest →
      ∃ enough r', (∀ rounds, (enough ≤ rounds)%nat →
          read_messages rounds r (map fst ms) = Some (r', Ok (map snd ms))) ∧
        pending (rx r') = rest ∧ reader_crypto r' = mkCrypto k (mkNonce v').
Proof.
  intros HT. revert w v. induction HT as [|[m d] ms Hd HT IH]; intros w v Hc Hv Hn Hw.
  { injection Hw as <-. exists [], v. rewrite app_nil_r. split; [done|]. split; [done|].
    intros r rest Hr Hp. by exists 0%nat, r. }
  cbn [write_messages] in Hw.
  destruct (write_message w d (path_encoding (type_name m))) as [w1 [[]|e]] eqn:E1; [|done].
  destruct (as_bytes d (path_encoding (type_name m))) as [bs|e] eqn:Eb;
    [|unfold write_message in E1; rewrite Eb in E1; done].
  assert (pieces_count ((m, d) :: ms) = len (pieces bs) + pieces_count ms) as Ec
    by (unfold pieces_count; cbn [map foldr fst snd]; by rewrite Eb).
  assert (0 ≤ pieces_count ms) as Hpos.
  { clear. unfold pieces_count. induction ms as [|p ms IH]; [done|]. cbn [map foldr].
    destruct (as_bytes _ _) as [b|]; [pose proof (len_nonneg (pieces b))|]; lia. }
  pose proof (len_nonneg (pieces bs)).
  destruct (write_message_sent w w1 m d bs k v Hc Hv ltac:(lia) Eb E1) as [S1 C1].
  destruct (IH w1 (v + len (pieces bs)) C1 ltac:(lia) ltac:(lia) Hw) as (new & v' & S2 & C2 & Hread).
  exists (frames k v (pieces bs) ++ new), v'. rewrite S2, S1, app_assoc. split; [done|]. split; [done|].
  intros r rest Hr Hp. rewrite <- app_assoc in Hp.
  destruct (read_message_received r m d bs k v (new ++ rest) Hd Eb Hr Hv ltac:(lia) Hp)
    as (r1 & R1 & P1 & D1).
  destruct (Hread r1 rest D1 P1) as (enough & r' & R2 & P2 & D2).
  exists (length (pieces bs) + enough)%nat, r'. split; [|auto]. intros rounds Hle.
  cbn [map fst snd read_messages]. rewrite R1 by lia. by rewrite R2 by lia.
Qed.

(** C3: the encrypted stream delivers.  If the two ends start with the same
    key and the same nonce, and one end writes a list of messages of any of
    the types that are sent, the other end, asked for messages of these types,
    returns them in order, has read exactly what was written, and has the
    nonce of the writer again. *)
Theorem stream_delivers (w w' : EncryptedMessageWriter) (r : EncryptedMessageReader) ms k v rest :
  Forall (λ p, path_typed (type_name p.1) p.2) ms →
  writer_crypto w = mkCrypto k (mkNonce v) → reader_crypto r = mkCrypto k (mkNonce v) →
  0 ≤ v → v + pieces_count ms ≤ 2 ^ 192 →
  write_messages w ms = (w', Ok ()) →
  sent (tx w) ++ pending (rx r) = sent (tx w') ++ rest →
  ∃ enough r', (∀ rounds, (enough ≤ rounds)%nat →
      read_messages rounds r (map fst ms) = Some (r', Ok (map snd ms))) ∧
    pending (rx r') = rest ∧ reader_crypto r' = writer_crypto w'.
Proof.
  intros HT Hw Hr Hv Hn E Hs.
  destruct (conversation w w' ms k v HT Hw Hv Hn E) as (new & v' & Sn & C & Hread).
  rewrite Sn, <- app_assoc in Hs. apply app_inv_head in Hs. rewrite C. by apply Hread.
Qed.

(** Writing a message that can be encoded fails with an error of the
    transport only: sealing does not fail before the nonces are used up, and
    every sealed piece fits in a chunk. *)
Theorem write_fails_on_transport_only (w w' : EncryptedMessageWriter) d e bs k v err :
  as_bytes d e = Ok bs → writer_crypto w = mkCrypto k (mkNonce v) →
  0 ≤ v → v + len (pieces bs) ≤ 2 ^ 192 →
  write_message w d e = (w', Err err) → ∃ io, err = NetworkIo io.
Proof.
  intros Hb Hc Hv Hn. unfold write_message. rewrite Hb. intros Hw.
  destruct (write_chunks_inv w w' k v (pieces bs)) as [_ E]; try done; [apply (pieces_ok bs)|].
  by apply E.
Qed.

End Conversation.

(** ** Examples *)

Module P2pStreamWitnesses.
Import Concrete ConcreteNom ConcreteSerde ConcreteCrypto.

(** A transport with a buffer of a fixed size. *)
#[local] Instance buffer_write : AsyncWrite (bytes * nat) () := {|
  write_all w bs :=
    if decide (length bs ≤ w.2)%nat then ((w.1 ++ bs, w.2 - length bs)%nat, Ok ()) else (w, Err ())
|}.
#[local] Instance buffer_read : AsyncRead bytes () := {|
  read_exact r n := if decide (n ≤ length r)%nat then (drop n r, Ok (take n r)) else (r, Err ())
|}.
#[local] Instance buffer : Transport (bytes * nat) bytes () := {| sent := fst; pending r := r |}.
#[local] Instance buffer_laws : TransportLaws (bytes * nat) bytes ().
Proof.
  split.
  - intros w bs w'. cbn. case_decide; [|done]. by intros [= <-].
  - intros r n Hn. cbn in *. rewrite decide_True by done. eauto.
Qed.

Definition conversation_example : list (Kind * Data) :=
  [(KAck, MessageSizesWitnesses.nack); (KPeer, MessagesWitnesses.example)].

Definition writer : EncryptedMessageWriter := mkWriter (([] : bytes), 100%nat) (mkCrypto 5 (mkNonce 7)).

Definition writer_after : EncryptedMessageWriter :=
  (write_messages (IoError := ()) writer conversation_example).1.

Definition written : bytes := (tx writer_after).1.

Definition reader : EncryptedMessageReader := mkReader written (mkCrypto 5 (mkNonce 7)).

Lemma stream_delivers_witness :
  ∃ enough r', (∀ rounds, (enough ≤ rounds)%nat →
      read_messages rounds reader [KAck; KPeer]
      = Some (r', Ok [MessageSizesWitnesses.nack; MessagesWitnesses.example])) ∧
    pending (rx r') = [] ∧ reader_crypto r' = writer_crypto writer_after.
Proof.
  apply (stream_delivers writer writer_after reader conversation_example 5 7 []).
  - unfold conversation_example. apply Forall_cons_2; [cbn [fst snd type_name]|].
    + exact MessageSizesWitnesses.nack_typed.
    + apply Forall_cons_2; [cbn [fst snd type_name]|apply Forall_nil_2].
      exact MessagesWitnesses.example_typed.
  - reflexivity.
  - reflexivity.
  - lia.
  - vm_compute. done.
  - apply injective_projections; [reflexivity|vm_compute; reflexivity].
  - vm_compute. reflexivity.
Defined.

(** There is no room for the message. *)
Definition blocked : EncryptedMessageWriter := mkWriter (([] : bytes), 5%nat) (mkCrypto 5 (mkNonce 7)).

Lemma write_fails_on_transport_only_witness :
  ∃ io : (), @NetworkIo () () = NetworkIo io.
Proof.
  set (enc := @path_encoding p2p_env "PeerMessageResponse").
  apply (write_fails_on_transport_only blocked (write_message blocked MessagesWitnesses.example enc).1
    MessagesWitnesses.example enc [0; 0; 0; 6; 0; 19; 1; 2; 3; 4] 5 7).
  - vm_compute. reflexivity.
  - reflexivity.
  - lia.
  - vm_compute. done.
  - apply injective_projections; [reflexivity|vm_compute; reflexivity].
Defined.

End P2pStreamWitnesses.
