(* ===== verification/Handshake.v ===== *)
(** * The handshake: [bootstrap] of [networking/src/p2p/peer.rs]

    Two connection messages in clear, with the public keys, the proofs of work
    and the versions; then, over the encrypted stream, metadata and an
    acknowledgement in either direction.  The transport is a parameter, as in
    [Stream]. *)

From S2P Require Import Prelude External BitUtils Hash Encoding Serializer PathCodec BinaryWriter Format NomLib NomReader Derive DeriveRoundTrip ReaderSound Sizes Make Crypto MerklePath BinaryMessage Messages MessageTypes Network MessageSizes Stream P2pStream.

(** ** Errors *)

Inductive PublicKeyError := HashError (e : FromBytesError) | Blake2bError' (e : Blake2bError).

(** The [error] of [PeerError::NetworkError]. *)
Inductive NetworkCause (IoError : Type) :=
| CauseStream (e : StreamError IoError)
| CauseChunk (e : BinaryChunkError)
| Elapsed.
Arguments CauseStream {IoError}.
Arguments CauseChunk {IoError}.
Arguments Elapsed {IoError}.

Inductive PeerError (IoError : Type) :=
| UnsupportedProtocol (supported : ShellCompatibilityVersion) (incompatible : NetworkVersion_t)
| NackReceived
| NackWithMotiveReceived (nack_info : NackInfo_t)
| NetworkError (error : NetworkCause IoError) (message : string)
| PeerSerializationError (error : EncodingError)
| PeerDeserializationError (error : BinaryReaderError)
| PeerCryptoError (error : CryptoError)
| PeerPublicKeyError (error : PublicKeyError)
| PeerPowError (error : PowError).
Arguments UnsupportedProtocol {IoError}.
Arguments NackReceived {IoError}.
Arguments NackWithMotiveReceived {IoError}.
Arguments NetworkError {IoError}.
Arguments PeerSerializationError {IoError}.
Arguments PeerDeserializationError {IoError}.
Arguments PeerCryptoError {IoError}.
Arguments PeerPublicKeyError {IoError}.
Arguments PeerPowError {IoError}.

(** ** The two ends *)

(** [tezos_identity::Identity], as far as the handshake uses it *)
Record Identity := mkIdentity {
  identity_public_key : bytes;
  identity_secret_key : bytes;
  identity_pow_stamp : bytes
}.

(** [pow_target] is the largest accepted hash ([make_target] of the source's
    difficulty). *)
Record LocalPeerInfo := mkLocalPeerInfo {
  listener_port : Z;
  identity : Identity;
  info_version : ShellCompatibilityVersion;
  pow_target : Z
}.

(** The command [Bootstrap]; its stream is the transport. *)
Record Bootstrap := mkBootstrap {
  incoming : bool;
  bootstrap_disable_mempool : bool;
  bootstrap_private_node : bool
}.

Section Bootstrap.
Context `{BufMut, HexLib, BitVecLib, Nom, BigIntLib, BigIntSerde, BigUintLib, CryptoBox, GenericHash, Base58Lib}.
Context {W R IoError : Type} `{AsyncWrite W IoError, AsyncRead R IoError}.

#[local] Existing Instance p2p_env.

Record BootstrapOutput := mkBootstrapOutput {
  output_rx : @EncryptedMessageReader _ R;
  output_tx : @EncryptedMessageWriter _ W;
  output_public_key_hash : bytes;
  output_peer_id_marker : result string hash_error;
  output_metadata : MetadataMessage_t;
  output_version : NetworkVersion_t
}.

(** [PublicKey::public_key_hash] *)
Definition public_key_hash (pk : bytes) : result bytes PublicKeyError :=
  let? h := map_err Blake2bError' (digest_128 pk) in
  map_err HashError (try_from_bytes CryptoboxPublicKeyHash h).

(** The [?] of [bootstrap]: the transport is dropped with the error. *)
Notation "'try!' x ':=' c 'at' w 'in' k" :=
  (match c with Ok x => k | Err e => Some (w, Err e) end)
  (at level 10, x pattern, c at level 100, w at level 100, k at level 200).

(** [timeout(IO_TIMEOUT, operation).await?]: the operation completes unless the
    time elapses before.  In that case its effect on the transport does not
    matter any more. *)
Definition timeout {S A} (late : bool) (before : S) (operation : S * A)
    : S * result A (PeerError IoError) :=
  if late then (before, Err (NetworkError Elapsed "Connection timeout"))
  else (operation.1, Ok operation.2).

Definition stream_error (e : StreamError IoError) : PeerError IoError :=
  NetworkError (CauseStream e) "Stream error".

(** [timeout(IO_TIMEOUT, msg_tx.write_message(&message)).await??] *)
Definition send (late : bool) (msg_tx : EncryptedMessageWriter) (m : Kind) (d : Data)
    : EncryptedMessageWriter * result () (PeerError IoError) :=
  let '(tx', r) := timeout late msg_tx (write_message msg_tx d (path_encoding (type_name m))) in
  (tx', let? r := r in map_err stream_error r).

(** [timeout(IO_TIMEOUT, msg_rx.read_message::<M>()).await??]; [None] if the
    rounds of [read_message] are spent. *)
Definition receive (rounds : nat) (late : bool) (msg_rx : EncryptedMessageReader) (m : Kind)
    : option (EncryptedMessageReader * result Data (PeerError IoError)) :=
  if late then Some (msg_rx, Err (NetworkError Elapsed "Connection timeout"))
  else
    match read_message (path_nom_read (type_name m)) (size_from_chunk m) rounds msg_rx with
    | None => None
    | Some (msg_rx, r) => Some (msg_rx, map_err stream_error r)
    end.

(** The part of [bootstrap] over the encrypted stream. *)
Definition bootstrap_encrypted (rounds : nat) (late : nat → bool) (msg : Bootstrap)
    (info : LocalPeerInfo) (connection_message : ConnectionMessage_t) (peer_public_key_hash : bytes)
    (msg_rx : EncryptedMessageReader) (msg_tx : EncryptedMessageWriter)
    : option (W * result BootstrapOutput (PeerError IoError)) :=
  let supported_protocol_version := info_version info in
  let peer_id_marker := hash_to_b58check CryptoboxPublicKeyHash peer_public_key_hash in
  (* send metadata *)
  let metadata := mkMetadataMessage (bootstrap_disable_mempool msg) (bootstrap_private_node msg) in
  let '(msg_tx, r) := send (late 2%nat) msg_tx KMetadata (metadata_data metadata) in
  try! _ := r at tx msg_tx in
  (* receive metadata *)
  match receive rounds (late 3%nat) msg_rx KMetadata with
  | None => None
  | Some (msg_rx, r) =>
      try! metadata_received := r at tx msg_tx in
      let peer_version := version connection_message in
      match choose_compatible_version supported_protocol_version peer_version with
      | Err nack_motive =>
          (* send nack *)
          let nack :=
            if supports_nack_with_list_and_motive peer_version then Nack (mkNackInfo nack_motive [])
            else NackV0 in
          let '(msg_tx, r) := send (late 4%nat) msg_tx KAck (ack_data nack) in
          try! _ := r at tx msg_tx in
          Some (tx msg_tx, Err (UnsupportedProtocol supported_protocol_version peer_version))
      | Ok compatible_network_version =>
          (* send ack *)
          let '(msg_tx, r) := send (late 4%nat) msg_tx KAck (ack_data Ack) in
          try! _ := r at tx msg_tx in
          (* receive ack *)
          match receive rounds (late 5%nat) msg_rx KAck with
          | None => None
          | Some (msg_rx, r) =>
              try! ack_received := r at tx msg_tx in
              Some (tx msg_tx,
                    match ack_of ack_received with
                    | Ack => Ok (mkBootstrapOutput msg_rx msg_tx peer_public_key_hash peer_id_marker
                                   (metadata_of metadata_received) compatible_network_version)
                    | NackV0 => Err NackReceived
                    | Nack nack_info => Err (NackWithMotiveReceived nack_info)
                    end)
          end
      end
  end.

(** [bootstrap], with the nonce that [Nonce::random()] returned, which of the
    six timeouts elapse, and a bound on the chunks of a message.  Returns the
    transport after what was written, and the result. *)
Definition bootstrap (rounds : nat) (late : nat → bool) (random : Nonce) (msg : Bootstrap)
    (info : LocalPeerInfo) (msg_rx : R) (msg_tx : W)
    : option (W * result BootstrapOutput (PeerError IoError)) :=
  let own := identity info in
  (* send connection message *)
  try! connection_message :=
    map_err PeerCryptoError
      (connection_message_try_new (listener_port info) (identity_public_key own)
         (identity_pow_stamp own) random (to_network_version (info_version info))) at msg_tx in
  try! bytes :=
    map_err PeerSerializationError
      (as_bytes (connection_data connection_message) (path_encoding "ConnectionMessage")) at msg_tx in
  try! connection_message_sent :=
    map_err (λ e, NetworkError (CauseChunk e) "Binary chunk error") (from_content bytes) at msg_tx in
  let '(msg_tx, r) := timeout (late 0%nat) msg_tx (write_chunk msg_tx connection_message_sent) in
  try! r := r at msg_tx in
  try! _ := map_err (λ e, NetworkError (CauseStream e) "Failed to transfer connection message") r
    at msg_tx in
  (* receive connection message *)
  let '(msg_rx, r) := timeout (late 1%nat) msg_rx (read_chunk msg_rx) in
  try! r := r at msg_tx in
  try! received :=
    map_err (λ e, NetworkError (CauseStream e) "No response to connection message was received") r
    at msg_tx in
  try! d :=
    map_err PeerDeserializationError
      (from_bytes (path_nom_read "ConnectionMessage") (content received)) at msg_tx in
  let connection_message := connection_of d in
  (* create PublicKey from received bytes from remote peer *)
  try! peer_public_key :=
    map_err PeerCryptoError (ensure_crypto_key_bytes (public_key connection_message)) at msg_tx in
  if decide (peer_public_key = identity_public_key own) then
    (* treat as if nack was received *)
    Some (msg_tx, Err (NackWithMotiveReceived (mkNackInfo AlreadyConnected [])))
  else
    (* make sure the peer performed enough crypto calculations *)
    try! _ :=
      map_err PeerPowError
        (check_proof_of_work_inner (take 56 (drop 4 (raw received))) (pow_target info)) at msg_tx in
    (* generate local and remote nonce *)
    try! nonces :=
      map_err (λ e, PeerPublicKeyError (Blake2bError' e))
        (generate_nonces (raw connection_message_sent) (raw received) (incoming msg)) at msg_tx in
    (* pre-compute encryption key *)
    let precomputed_key := precompute peer_public_key (identity_secret_key own) in
    try! peer_public_key_hash := map_err PeerPublicKeyError (public_key_hash peer_public_key)
      at msg_tx in
    (* from now on all messages will be encrypted *)
    let msg_rx := mkReader msg_rx (mkCrypto precomputed_key (remote nonces)) in
    let msg_tx := mkWriter msg_tx (mkCrypto precomputed_key (local nonces)) in
    bootstrap_encrypted rounds late msg info connection_message peer_public_key_hash msg_rx msg_tx.

End Bootstrap.

(** ** The bytes of a connection message *)

Section Layout.
Context `{NomLaws, BufMut, HexLib, BitVecLib, BigIntLib, BigIntSerde}.

Lemma sized_bytes_inv n i r d :
  0 ≤ n → NomReader.sized n generate_bytes_nom_read i = Ok (r, d) →
  ∃ l, i = l ++ r ∧ len l = n ∧ d = hash_data l.
Proof.
  intros Hn E. unfold NomReader.sized in E. rewrite nom_map_parser_eq in E.
  destruct (decide (length i < Z.to_nat n)%nat).
  { rewrite nom_take_short in E by done. done. }
  rewrite nom_take_ok in E by lia.
  unfold generate_bytes_nom_read, as_data, NomReader.bytes in E. rewrite nom_map_eq, nom_rest_eq in E.
  injection E as <- <-. exists (take (Z.to_nat n) i). rewrite take_drop. split; [done|].
  split; [|done]. unfold len. rewrite length_take. lia.
Qed.

Lemma number_inv n conv p (f : Z → Data) i r d :
  number_spec n conv p → as_data f p i = Ok (r, d) →
  ∃ l, i = l ++ r ∧ length l = n ∧ d = f (conv (be_val l)).
Proof.
  intros [E1 E2] E. unfold as_data in E.
  destruct (decide (length i < n)%nat); [rewrite E2 in E by done; done|].
  rewrite <- (take_drop n i), E1 in E by (rewrite length_take; lia). injection E as <- <-.
  exists (take n i). rewrite take_drop. split; [done|]. split; [rewrite length_take; lia|done].
Qed.

#[local] Existing Instance p2p_env.

(** The first two bytes are the port, then come the public key, the stamp and
    the nonce. *)
Lemma connection_layout c d :
  from_bytes (path_nom_read "ConnectionMessage") c = Ok d →
  let m := connection_of d in
  len (public_key m) = CRYPTO_KEY_SIZE ∧ len (proof_of_work_stamp m) = POW_SIZE ∧
  ∃ p rest, length p = 2%nat ∧ c = p ++ public_key m ++ proof_of_work_stamp m ++ rest.
Proof.
  rewrite from_bytes_cases. destruct (path_nom_read "ConnectionMessage" c) as [[r d']|[]] eqn:E;
    try done. destruct r; [|done]. intros [= <-].
  rewrite (proj2 (p2p_declared 1 "ConnectionMessage" _ eq_refl eq_refl)) in E.
  cbn [generate_nom_read] in E. apply struct_read_inv in E as (vs & E & ->).
  apply read_fields_inv in E as (r1 & d1 & vs1 & E1 & E & ->).
  apply read_fields_inv in E as (r2 & d2 & vs2 & E2 & E & ->).
  apply read_fields_inv in E as (r3 & d3 & vs3 & E3 & E & ->).
  apply read_fields_inv in E as (r4 & d4 & vs4 & E4 & E & ->).
  apply read_fields_inv in E as (r5 & d5 & vs5 & E5 & E & ->).
  cbn in E. injection E as _ <-.
  apply (number_inv 2 id _ DU16 _ _ _ nom_be_u16_spec) in E1 as (p & -> & Hp & ->).
  apply sized_bytes_inv in E2 as (pk & -> & Hpk & ->); [|lia].
  apply sized_bytes_inv in E3 as (pow & -> & Hpow & ->); [|lia].
  cbn [omap list_omap id connection_of public_key proof_of_work_stamp].
  rewrite !u8s_of_data. split; [done|]. split; [done|]. exists p, r3. split; [done|]. done.
Qed.

End Layout.

(** ** What a successful handshake guarantees *)

Section Checks.
Context `{NomLaws, BufMut, HexLib, BitVecLib, BigIntLib, BigIntSerde, BigUintLib, CryptoBox, GenericHash, Base58Lib}.
Context {W R IoError : Type} `{AsyncWrite W IoError, AsyncRead R IoError}.

#[local] Existing Instance p2p_env.

Lemma pow_bytes received d :
  from_bytes (path_nom_read "ConnectionMessage") (content received) = Ok d →
  let m := connection_of d in
  take 56 (drop 4 (raw received)) = public_key m ++ proof_of_work_stamp m.
Proof.
  intros E m. destruct (connection_layout _ _ E) as (Hk & Hp & p & rest & Hl & Hc).
  fold m in Hk, Hp, Hc. unfold content in Hc.
  change (Z.to_nat CONTENT_LENGTH_FIELD_BYTES) with 2%nat in Hc.
  change 4%nat with (2 + 2)%nat. rewrite <- drop_drop, Hc.
  rewrite drop_app_length' by done. rewrite app_assoc. apply take_app_length'.
  rewrite length_app. unfold len, CRYPTO_KEY_SIZE, POW_SIZE, NONCE_SIZE in *. lia.
Qed.

Lemma receive_ok rounds late (rx0 rx1 : EncryptedMessageReader) m d :
  receive (IoError := IoError) rounds late rx0 m = Some (rx1, Ok d) →
  read_message (IoError := IoError) (path_nom_read (type_name m)) (size_from_chunk m) rounds rx0
  = Some (rx1, Ok d).
Proof.
  unfold receive. destruct late; [done|].
  destruct (read_message _ _ rounds rx0) as [[rx [d'|e]]|]; [|done|done]. cbn. congruence.
Qed.

Lemma encrypted_ok rounds late msg info m h rx0 tx0 w out :
  bootstrap_encrypted (IoError := IoError) rounds late msg info m h rx0 tx0 = Some (w, Ok out) →
  choose_compatible_version (info_version info) (version m) = Ok (output_version out) ∧
  output_public_key_hash out = h ∧
  ∃ rx1 dm da,
    read_message (IoError := IoError) (path_nom_read "MetadataMessage")
      metadata_message_size_from_chunk rounds rx0 = Some (rx1, Ok dm) ∧
    output_metadata out = metadata_of dm ∧
    read_message (IoError := IoError) (path_nom_read "AckMessage")
      ack_message_size_from_chunk rounds rx1 = Some (output_rx out, Ok da) ∧
    ack_of da = Ack.
Proof.
  unfold bootstrap_encrypted. cbn zeta.
  destruct (send _ tx0 _ _) as [tx1 [[]|]]; [|done].
  destruct (receive _ _ rx0 _) as [[rx1 [dm|]]|] eqn:E1; [|done|done].
  destruct (choose_compatible_version _ _) as [v|motive] eqn:Ev;
    [|by destruct (send _ tx1 _ _) as [tx2 [[]|]]].
  destruct (send _ tx1 _ _) as [tx2 [[]|]]; [|done].
  destruct (receive _ _ rx1 _) as [[rx2 [da|]]|] eqn:E2; [|done|done].
  destruct (ack_of da) eqn:Ea; [|done|done]. intros [= _ <-]. cbn.
  split; [done|]. split; [done|].
  exists rx1, dm, da. split; [exact (receive_ok _ _ _ _ KMetadata _ E1)|]. split; [done|].
  split; [exact (receive_ok _ _ _ _ KAck _ E2)|done].
Qed.

(** C2: what a node knows after a handshake, whatever the other end sent: it
    received a connection message [m] whose public key has the right size, is
    not its own, and comes with a stamp that proves the work for this very key
    (the check is done on bytes 4 to 60 of the chunk); the version in use is
    compatible with the one announced; the identity is the hash of this key;
    the session key was computed from it; and the other end sent, encrypted
    with the session key, its metadata and an [Ack]. *)
Theorem handshake_checks rounds late random msg info (rx0 : R) (tx0 : W) w out :
  bootstrap (IoError := IoError) rounds late random msg info rx0 tx0 = Some (w, Ok out) →
  ∃ rx1 received d nonce,
    let m := connection_of d in
    let key := precompute (public_key m) (identity_secret_key (identity info)) in
    read_chunk (IoError := IoError) rx0 = (rx1, Ok received) ∧
    from_bytes (path_nom_read "ConnectionMessage") (content received) = Ok d ∧
    len (public_key m) = CRYPTO_KEY_SIZE ∧
    public_key m ≠ identity_public_key (identity info) ∧
    check (proof_of_work_stamp m) (public_key m) (pow_target info) = Ok () ∧
    choose_compatible_version (info_version info) (version m) = Ok (output_version out) ∧
    public_key_hash (public_key m) = Ok (output_public_key_hash out) ∧
    ∃ rx2 dm da,
      read_message (IoError := IoError) (path_nom_read "MetadataMessage")
        metadata_message_size_from_chunk rounds (mkReader rx1 (mkCrypto key nonce))
        = Some (rx2, Ok dm) ∧
      output_metadata out = metadata_of dm ∧
      read_message (IoError := IoError) (path_nom_read "AckMessage")
        ack_message_size_from_chunk rounds rx2 = Some (output_rx out, Ok da) ∧
      ack_of da = Ack.
Proof.
  unfold bootstrap, timeout. cbn zeta.
  destruct (connection_message_try_new _ _ _ _ _) as [cm|]; [|done]. cbn [map_err].
  destruct (as_bytes _ _) as [bs|]; [|done]. cbn [map_err].
  destruct (from_content bs) as [sent|]; [|done]. cbn [map_err].
  destruct (late 0%nat); [done|].
  destruct (write_chunk tx0 sent) as [tx1 [[]|]]; [|done]. cbn [fst snd map_err].
  destruct (late 1%nat); [done|].
  destruct (read_chunk rx0) as [rx1 [received|]] eqn:Er; [|done]. cbn [fst snd map_err].
  destruct (from_bytes _ _) as [d|] eqn:Ed; [|done]. cbn [map_err].
  unfold ensure_crypto_key_bytes. destruct (decide (len _ ≠ _)) as [|Hk%dec_stable]; [done|].
  cbn [map_err]. case_decide as Hself; [done|].
  pose proof (pow_bytes received d Ed) as Ep. cbn zeta in Ep. rewrite Ep.
  destruct (check_proof_of_work_inner _ _) as [[]|] eqn:Ec; [|done]. cbn [map_err].
  destruct (generate_nonces _ _ _) as [nonces|]; [|done]. cbn [map_err].
  destruct (public_key_hash _) as [h|] eqn:Eh; [|done]. cbn [map_err]. intros E.
  apply encrypted_ok in E as (Hv & Hh & rx2 & dm & da & H1' & H2' & H3' & H4').
  exists rx1, received, d, (remote nonces). cbn zeta. rewrite Hh. eauto 15.
Qed.

End Checks.
