(* ===== verification/HandshakeAgree.v ===== *)
(** * Two nodes that run the handshake with each other *)

From S2P Require Import Prelude External BitUtils Hash Encoding Serializer PathCodec BinaryWriter Format NomLib NomReader Derive DeriveRoundTrip ReaderSound Sizes Make Crypto MerklePath BinaryMessage Messages MessageTypes Network MessageSizes Stream P2pStream Handshake.

(** ** The bytes of the messages *)

Section Bytes.
Context `{BufMutLaws, HexLib, BitVecLib, NomLaws, BigIntLib, BigIntSerde}.

#[local] Existing Instance p2p_env.
#[local] Existing Instance p2p_spec.

Definition bool_byte (b : bool) : Z := if b then BYTE_VAL_TRUE else BYTE_VAL_FALSE.

Lemma metadata_bytes m :
  as_bytes (metadata_data m) (path_encoding "MetadataMessage")
  = Ok [bool_byte (disable_mempool m); bool_byte (private_node m)].
Proof.
  rewrite (proj1 (p2p_declared 2 "MetadataMessage" _ eq_refl eq_refl)).
  destruct m as [[] []]; (eapply write_ok; [reflexivity|reflexivity|by vm_compute]).
Qed.

Lemma ack_bytes : as_bytes (ack_data Ack) (path_encoding "AckMessage") = Ok [0].
Proof.
  rewrite (proj1 (p2p_declared 5 "AckMessage" _ eq_refl eq_refl)).
  eapply write_ok; [reflexivity|reflexivity|by vm_compute].
Qed.

Definition network_version_bytes (v : NetworkVersion_t) : bytes :=
  (be_bytes 4 (len (chain_name v)) ++ chain_name v) ++
  be_bytes 2 (distributed_db_version v) ++ be_bytes 2 (p2p_version v).

Definition connection_bytes (m : ConnectionMessage_t) : bytes :=
  be_bytes 2 (port m) ++ public_key m ++ proof_of_work_stamp m ++ message_nonce m ++
  network_version_bytes (version m).

Definition connection_sizes (m : ConnectionMessage_t) : Prop :=
  len (public_key m) = CRYPTO_KEY_SIZE ∧ len (proof_of_work_stamp m) = POW_SIZE ∧
  len (message_nonce m) = NONCE_SIZE ∧ len (chain_name (version m)) ≤ CHAIN_NAME_MAX_LENGTH.

Lemma len_connection_bytes m :
  connection_sizes m → 90 ≤ len (connection_bytes m) ≤ 218.
Proof.
  intros (Hk & Hp & Hn & Hc). unfold connection_bytes, network_version_bytes.
  rewrite !len_app, !len_be_bytes, Hk, Hp, Hn. pose proof (len_nonneg (chain_name (version m))).
  unfold CRYPTO_KEY_SIZE, POW_SIZE, NONCE_SIZE, CHAIN_NAME_MAX_LENGTH in *. lia.
Qed.

Definition connection_value (m : ConnectionMessage_t) : Value :=
  Value.Record
    [("port"%string, Value.Uint16 (port m));
     ("public_key"%string, Value.List (map Value.Uint8 (public_key m)));
     ("proof_of_work_stamp"%string, Value.List (map Value.Uint8 (proof_of_work_stamp m)));
     ("message_nonce"%string, Value.List (map Value.Uint8 (message_nonce m)));
     ("version"%string,
      Value.Record
        [("chain_name"%string, Value.String (chain_name (version m)));
         ("distributed_db_version"%string, Value.Uint16 (distributed_db_version (version m)));
         ("p2p_version"%string, Value.Uint16 (p2p_version (version m)))])].

Lemma serialize_connection m : serialize (connection_data m) = Ok (connection_value m).
Proof.
  unfold connection_data. pose proof (serialize_u8s (public_key m)) as E1.
  pose proof (serialize_u8s (proof_of_work_stamp m)) as E2.
  pose proof (serialize_u8s (message_nonce m)) as E3.
  unfold hash_data. cbn [serialize map fst snd] in *. rewrite E1, E2, E3. reflexivity.
Qed.

Lemma format_field_cons (gen : DEncoding → Encoding) values n e fields v b r :
  find_value_in_record_values n values = Some v → format (gen e) v = Some b →
  format_fields format values (omap (generate_field_encoding gen) fields) = Some r →
  format_fields format values (omap (generate_field_encoding gen) (mkFieldEncoding n (Some e) :: fields))
  = Some (b ++ r).
Proof. intros Hv Hb Hr. cbn in *. rewrite Hv. cbn. rewrite Hb. cbn. by rewrite Hr. Qed.

Lemma format_sized_bytes n bs :
  bytes_ok bs → len bs = n →
  format (Encoding.Sized n Encoding.Bytes) (Value.List (map Value.Uint8 bs)) = Some bs.
Proof.
  intros Hb Hl. cbn [format]. rewrite format_u8s_bytes by done. cbn. unfold guard_opt.
  by rewrite decide_True.
Qed.

Lemma connection_as_bytes m :
  connection_ok m → connection_sizes m →
  as_bytes (connection_data m) (path_encoding "ConnectionMessage") = Ok (connection_bytes m).
Proof.
  intros (_ & Hk & Hp & Hn & _) Hs. eapply write_ok; [apply serialize_connection| |].
  - rewrite (proj1 (p2p_declared 1 "ConnectionMessage" _ eq_refl eq_refl)).
    destruct Hs as (Lk & Lp & Ln & Lc). cbn [generate_encoding format connection_value].
    unfold generate_struct_encoding, connection_bytes, network_version_bytes.
    apply (format_field_cons _ _ _ _ _ (Value.Uint16 (port m))); [reflexivity|reflexivity|].
    eapply format_field_cons; [reflexivity|by apply format_sized_bytes|].
    eapply format_field_cons; [reflexivity|by apply format_sized_bytes|].
    eapply format_field_cons; [reflexivity|by apply format_sized_bytes|].
    rewrite <- (app_nil_r (_ ++ be_bytes 2 _ ++ _)).
    eapply format_field_cons; [reflexivity| |reflexivity]. cbn [generate_encoding].
    rewrite (proj1 (p2p_earlier 1 "NetworkVersion" eq_refl)).
    rewrite (proj1 (p2p_declared 0 "NetworkVersion" _ eq_refl eq_refl)).
    cbn [generate_encoding format]. unfold generate_struct_encoding.
    apply (format_field_cons _ _ _ _ _ (Value.String (chain_name (version m)))); [reflexivity| |].
    { cbn [generate_encoding generate_string_encoding format]. unfold guard_opt.
      by rewrite decide_True. }
    apply (format_field_cons _ _ _ _ _ (Value.Uint16 (distributed_db_version (version m))));
      [reflexivity|reflexivity|].
    rewrite <- (app_nil_r (be_bytes 2 (p2p_version _))).
    apply (format_field_cons _ _ _ _ _ (Value.Uint16 (p2p_version (version m)))); reflexivity.
  - pose proof (len_connection_bytes m Hs). unfold usize_max. lia.
Qed.
End Bytes.

(** ** One end *)

(** The connection message of a node. *)
Definition own_message (info : LocalPeerInfo) (random : Nonce) : ConnectionMessage_t :=
  mkConnectionMessage (listener_port info) (identity_public_key (identity info))
    (identity_pow_stamp (identity info)) (be_bytes 24 (nonce_value random))
    (to_network_version (info_version info)).

(** The chunk it is sent in. *)
Definition hello (m : ConnectionMessage_t) : bytes :=
  be_bytes 2 (len (connection_bytes m)) ++ connection_bytes m.

Definition own_metadata (msg : Bootstrap) : MetadataMessage_t :=
  mkMetadataMessage (bootstrap_disable_mempool msg) (bootstrap_private_node msg).

(** Everything a node sends in a handshake that succeeds. *)
Definition transcript `{CryptoBox} (key : box_key) (v : Z) (m : ConnectionMessage_t)
    (metadata : MetadataMessage_t) : bytes :=
  hello m ++ frame key v [bool_byte (disable_mempool metadata); bool_byte (private_node metadata)]
    ++ frame key (v + 1) [0].

(** A node has keys, a stamp and a chain name of the right sizes. *)
Definition peer_ok (info : LocalPeerInfo) (random : Nonce) : Prop :=
  0 ≤ nonce_value random < 2 ^ 192 ∧
  connection_ok (own_message info random) ∧ connection_sizes (own_message info random).

Section Side.
Context `{BufMutLaws, HexLib, BitVecLib, NomLaws, BigIntLib, BigIntSerde, BigUintLaws, CryptoBoxLaws, GenericHashLaws, Base58Lib}.
Context {W R IoError : Type} `{TransportLaws W R IoError}.
Hypothesis reliable : ∀ (w w' : W) bs e, write_all w bs ≠ (w', Err e).

#[local] Existing Instance p2p_env.
#[local] Existing Instance p2p_spec.
#[local] Opaque p2p_env p2p_spec.

Lemma pieces_short bs : bs ≠ [] → len bs ≤ 100 → pieces bs = [bs].
Proof.
  intros Hb Hl. apply chunks_one; [done|]. unfold len in Hl.
  change (Z.to_nat STREAM_CONTENT_LENGTH_MAX) with (Z.to_nat 65503). lia.
Qed.

(** A short message is sent in one frame, and read from one. *)
Lemma send_ok (t : EncryptedMessageWriter) m d bs k v :
  as_bytes d (path_encoding (type_name m)) = Ok bs → bs ≠ [] → len bs ≤ 100 →
  writer_crypto t = mkCrypto k (mkNonce v) → 0 ≤ v → v + 1 ≤ 2 ^ 192 →
  ∃ t', send (IoError := IoError) false t m d = (t', Ok ()) ∧
    sent (tx t') = sent (tx t) ++ frame k v bs ∧ writer_crypto t' = mkCrypto k (mkNonce (v + 1)).
Proof.
  intros Hb Hne Hl Hc Hv Hn. pose proof (pieces_short bs Hne Hl) as Hp.
  unfold send, timeout. cbn [fst snd].
  destruct (write_message t d (path_encoding (type_name m))) as [t' [[]|e]] eqn:Ew.
  - destruct (write_message_sent t t' m d bs k v Hc Hv) as [S C]; try done.
    { rewrite Hp. done. }
    rewrite Hp in S, C. cbn [frames] in S. rewrite app_nil_r in S. by exists t'.
  - exfalso. unfold write_message in Ew. rewrite Hb in Ew.
    destruct (write_chunks_inv t t' k v (pieces bs) Hc Hv) as [_ E].
    { rewrite Hp. done. } { apply (pieces_ok bs). }
    destruct (E e Ew) as [io ->]. apply write_chunks_io in Ew as (w & w' & b & Ew).
    by apply reliable in Ew.
Qed.

Lemma receive_frame rounds (r : EncryptedMessageReader) m d bs k v rest :
  (1 ≤ rounds)%nat → path_typed (type_name m) d →
  as_bytes d (path_encoding (type_name m)) = Ok bs → bs ≠ [] → len bs ≤ 100 →
  reader_crypto r = mkCrypto k (mkNonce v) → 0 ≤ v → v + 1 ≤ 2 ^ 192 →
  pending (rx r) = frame k v bs ++ rest →
  ∃ r', receive (IoError := IoError) rounds false r m = Some (r', Ok d) ∧
    pending (rx r') = rest ∧ reader_crypto r' = mkCrypto k (mkNonce (v + 1)).
Proof.
  intros Hr Ht Hb Hne Hl Hc Hv Hn Hpend. pose proof (pieces_short bs Hne Hl) as Hp.
  destruct (read_message_received r m d bs k v rest Ht Hb Hc Hv) as (r' & E & P & C).
  { rewrite Hp. done. } { rewrite Hp. cbn [frames]. by rewrite app_nil_r. }
  exists r'. rewrite Hp in C, E. unfold receive. rewrite E by exact Hr.
  split; [reflexivity|]. split; [exact P|exact C].
Qed.

(** The encrypted part, with the messages of the other end in the stream. *)
Lemma encrypted_agrees rounds msg info m h (r : EncryptedMessageReader) (t : EncryptedMessageWriter)
    k vl vr version metadata rest :
  (1 ≤ rounds)%nat →
  reader_crypto r = mkCrypto k (mkNonce vr) → writer_crypto t = mkCrypto k (mkNonce vl) →
  0 ≤ vl → vl + 2 ≤ 2 ^ 192 → 0 ≤ vr → vr + 2 ≤ 2 ^ 192 →
  choose_compatible_version (info_version info) (Network.version m) = Ok version →
  pending (rx r) =
    frame k vr [bool_byte (disable_mempool metadata); bool_byte (private_node metadata)]
      ++ frame k (vr + 1) [0] ++ rest →
  ∃ out, bootstrap_encrypted (IoError := IoError) rounds (λ _, false) msg info m h r t
           = Some (tx (output_tx out), Ok out) ∧
    sent (tx (output_tx out)) = sent (tx t) ++
      frame k vl [bool_byte (bootstrap_disable_mempool msg); bool_byte (bootstrap_private_node msg)]
      ++ frame k (vl + 1) [0] ∧
    pending (rx (output_rx out)) = rest ∧
    writer_crypto (output_tx out) = mkCrypto k (mkNonce (vl + 2)) ∧
    reader_crypto (output_rx out) = mkCrypto k (mkNonce (vr + 2)) ∧
    output_public_key_hash out = h ∧ output_metadata out = metadata ∧ output_version out = version.
Proof.
  intros Hr Hcr Hcw Hl0 Hl Hr0 Hr2 Hv Hp. unfold bootstrap_encrypted. cbn zeta.
  set (mine := mkMetadataMessage _ _).
  assert (path_typed "MetadataMessage" (metadata_data metadata)) as Tm
    by (apply (proj2 (metadata_typed _)); by exists metadata).
  assert (path_typed "AckMessage" (ack_data Ack)) as Ta by (apply (proj2 (ack_typed _)); by exists Ack).
  destruct (send_ok t KMetadata (metadata_data mine) _ k vl (metadata_bytes mine))
    as (t1 & -> & S1 & C1); [done|done|done|done|lia|].
  destruct (receive_frame rounds r KMetadata (metadata_data metadata) _ k vr (frame k (vr + 1) [0] ++ rest) Hr
    Tm (metadata_bytes metadata))
    as (r1 & -> & P1 & D1); [done|done|done|done|lia|exact Hp|].
  rewrite Hv.
  destruct (send_ok t1 KAck (ack_data Ack) _ k (vl + 1) ack_bytes) as (t2 & -> & S2 & C2);
    [done|done|done|lia|lia|].
  destruct (receive_frame rounds r1 KAck (ack_data Ack) _ k (vr + 1) rest Hr
    Ta ack_bytes)
    as (r2 & -> & P2 & D2); [done|done|done|lia|lia|exact P1|].
  rewrite ack_of_data, metadata_of_data.
  exists (mkBootstrapOutput r2 t2 h (hash_to_b58check CryptoboxPublicKeyHash h) metadata version).
  split; [reflexivity|].
  cbn [output_tx output_rx output_public_key_hash output_metadata output_version].
  rewrite S2, S1, <- app_assoc, P2, C2, D2.
  split; [reflexivity|]. split; [reflexivity|]. do 2 (split; [do 2 f_equal; lia|]). repeat split.
Qed.

(** The whole handshake of one end, with what the other end sends in the stream. *)
Lemma side_agrees rounds random msg info (p : ConnectionMessage_t) (rx0 : R) (tx0 : W)
    nonces version metadata rest :
  let key := precompute (public_key p) (identity_secret_key (identity info)) in
  let m := own_message info random in
  (1 ≤ rounds)%nat → peer_ok info random → connection_ok p → connection_sizes p →
  public_key p ≠ identity_public_key (identity info) →
  check (proof_of_work_stamp p) (public_key p) (pow_target info) = Ok () →
  choose_compatible_version (info_version info) (Network.version p) = Ok version →
  generate_nonces (hello m) (hello p) (incoming msg) = Ok nonces →
  (∀ n, n ∈ [local nonces; remote nonces] → 0 ≤ nonce_value n ∧ nonce_value n + 2 ≤ 2 ^ 192) →
  pending rx0 = transcript key (nonce_value (remote nonces)) p metadata ++ rest →
  ∃ out, bootstrap (IoError := IoError) rounds (λ _, false) random msg info rx0 tx0
           = Some (tx (output_tx out), Ok out) ∧
    sent (tx (output_tx out))
      = sent tx0 ++ transcript key (nonce_value (local nonces)) m (own_metadata msg) ∧
    pending (rx (output_rx out)) = rest ∧
    writer_crypto (output_tx out) = mkCrypto key (mkNonce (nonce_value (local nonces) + 2)) ∧
    reader_crypto (output_rx out) = mkCrypto key (mkNonce (nonce_value (remote nonces) + 2)) ∧
    public_key_hash (public_key p) = Ok (output_public_key_hash out) ∧
    output_metadata out = metadata ∧ output_version out = version.
Proof.
  intros key m Hr (Hrnd & Hmo & Hms) Hpo Hps Hself Hpow Hv Hn Hnb Hp.
  pose proof (len_connection_bytes m Hms) as Lm. pose proof (len_connection_bytes p Hps) as Lp.
  unfold bootstrap, timeout. cbn zeta. unfold connection_message_try_new.
  destruct random as [rv]. rewrite get_bytes_ok by done. cbn [map_err].
  change (mkConnectionMessage _ _ _ _ _) with m.
  rewrite (connection_as_bytes m) by done. cbn [map_err].
  rewrite from_content_ok by (unfold CONTENT_LENGTH_MAX; lia). cbn [map_err raw].
  unfold write_chunk. cbn [raw]. fold (hello m).
  destruct (write_all tx0 (hello m)) as [tx1 [[]|e]] eqn:Ew; [|by apply reliable in Ew].
  apply write_all_ok in Ew. cbn [map_err fst snd].
  unfold transcript in Hp. rewrite <- app_assoc in Hp.
  destruct (read_chunk_content rx0 (connection_bytes p) _
    ltac:(unfold CONTENT_LENGTH_MAX; lia) Hp) as (rx1 & -> & P1). cbn [map_err fst snd].
  rewrite content_of, (message_read_back "ConnectionMessage" (connection_data p));
    [|apply (proj2 (connection_typed _)); by exists p|by apply connection_as_bytes].
  cbn [map_err]. rewrite connection_of_data. unfold ensure_crypto_key_bytes.
  destruct Hps as (Lk & Lpow & Lps). rewrite decide_False by (by intros []). cbn [map_err].
  rewrite decide_False by done.
  assert (take 56 (drop 4 (raw (mkBinaryChunk (hello p)))) = public_key p ++ proof_of_work_stamp p)
    as Eraw.
  { unfold hello, connection_bytes. cbn [raw]. change 4%nat with (2 + 2)%nat.
    rewrite <- drop_drop, drop_app_length' by (by rewrite length_be_bytes).
    rewrite drop_app_length' by (by rewrite length_be_bytes). rewrite app_assoc. apply take_app_length'.
    rewrite length_app. unfold len, CRYPTO_KEY_SIZE, POW_SIZE, NONCE_SIZE in *. lia. }
  fold (hello p). rewrite Eraw. unfold check in Hpow. rewrite Hpow. cbn [map_err raw].
  rewrite Hn. cbn [map_err].
  destruct (digest_ok (public_key p) 16) as (h & Eh & Lh & _); [lia|].
  assert (public_key_hash (public_key p) = Ok h) as Epk.
  { unfold public_key_hash, digest_128. rewrite Eh. cbn [map_err]. unfold try_from_bytes.
    by rewrite decide_True. }
  rewrite Epk. cbn [map_err].
  destruct nonces as [[vl] [vr]]. cbn [local remote nonce_value] in *.
  destruct (Hnb (mkNonce vl)) as [? ?]; [left|].
  destruct (Hnb (mkNonce vr)) as [? ?]; [right; left|].
  cbn [nonce_value] in *. fold key.
  destruct (encrypted_agrees rounds msg info p h (mkReader rx1 (mkCrypto key (mkNonce vr)))
    (mkWriter tx1 (mkCrypto key (mkNonce vl))) key vl vr version metadata rest)
    as (out & -> & S & Q); try done.
  { cbn [rx]. rewrite P1, <- app_assoc. done. }
  exists out. split; [done|]. split; [|by destruct Q as (? & ? & ? & -> & ? & ?)].
  rewrite S. cbn [tx]. rewrite Ew. unfold transcript. by rewrite <- app_assoc.
Qed.


End Side.

Module HandshakeWitnesses.
Import Concrete ConcreteNom ConcreteSerde ConcreteHash ConcreteCrypto.

(** A transport that never fails to write. *)
#[local] Instance pipe_write : AsyncWrite bytes () := {| write_all w bs := (w ++ bs, Ok ()) |}.
#[local] Instance pipe_read : AsyncRead bytes () := {|
  read_exact r n := if decide (n ≤ length r)%nat then (drop n r, Ok (take n r)) else (r, Err ())
|}.
#[local] Instance pipe : Transport bytes bytes () := {| sent w := w; pending r := r |}.
#[local] Instance pipe_laws : TransportLaws bytes bytes ().
Proof.
  split.
  - intros w bs w'. cbn. by intros [= <-].
  - intros r n Hn. cbn in *. rewrite decide_True by done. eauto.
Qed.

Lemma pipe_reliable (w w' : bytes) bs e : write_all w bs ≠ (w', Err (e : ())).
Proof. done. Qed.

(** Two nodes of one network. *)
Definition node (key : Z) : LocalPeerInfo :=
  mkLocalPeerInfo 9732
    (mkIdentity (replicate 32 key) (replicate 32 key) (replicate 24 3))
    (shell_compatibility_version_new [84] [0; 1] [0; 1]) (2 ^ 256).

Definition alice : LocalPeerInfo := node 1.
Definition bob : LocalPeerInfo := node 2.
Definition alice_nonce : Nonce := mkNonce 5.
Definition bob_nonce : Nonce := mkNonce 6.

Lemma node_peer_ok key random :
  is_byte key → 0 ≤ random < 2 ^ 192 → peer_ok (node key) (mkNonce random).
Proof.
  intros Hk Hr. split; [done|]. unfold connection_ok, connection_sizes, own_message, node, len.
  cbn [port public_key proof_of_work_stamp message_nonce version listener_port identity info_version
    identity_public_key identity_pow_stamp nonce_value].
  rewrite !length_replicate, length_be_bytes. repeat split; try done.
  - by apply Forall_replicate.
  - by apply Forall_replicate.
  - apply be_bytes_ok.
  - exists [84]. split; [done|]. split; [by repeat constructor|done].
Qed.

Lemma alice_succeeds :
  ∃ (rx0 : bytes) w out,
    bootstrap (IoError := ()) 1 (λ _, false) alice_nonce (mkBootstrap false true false) alice rx0
      ([] : bytes) = Some (w, Ok out).
Proof.
  set (b := own_message bob bob_nonce).
  destruct (generate_nonces_agree (hello (own_message alice alice_nonce)) (hello b))
    as (na & _ & Na & _ & _ & _ & _).
  destruct (side_agrees pipe_reliable 1 alice_nonce (mkBootstrap false true false) alice b
    (transcript (precompute (public_key b) (identity_secret_key (identity alice)))
       (nonce_value (remote na)) b (mkMetadataMessage false true)) [] na
    (mkNetworkVersion [84] 1 1) (mkMetadataMessage false true) []) as (out & E & _).
  - lia.
  - by apply node_peer_ok.
  - by apply (node_peer_ok 2 6).
  - by apply (node_peer_ok 2 6).
  - by vm_compute.
  - vm_compute. reflexivity.
  - reflexivity.
  - exact Na.
  - vm_compute in Na. injection Na as <-. intros n Hin. rewrite !elem_of_cons in Hin.
    destruct Hin as [->|[->|[]%elem_of_nil]]; vm_compute; done.
  - by rewrite app_nil_r.
  - eauto.
Qed.

Lemma handshake_checks_witness :
  ∃ (rx0 rx1 : bytes) received, read_chunk (IoError := ()) rx0 = (rx1, Ok received).
Proof.
  destruct alice_succeeds as (rx0 & w & out & E).
  destruct (handshake_checks 1 _ alice_nonce _ alice rx0 [] w out E)
    as (rx1 & received & d & nonce & Hread & _).
  by exists rx0, rx1, received.
Defined.


End HandshakeWitnesses.
