(* ===== verification/Kv.v ===== *)
(** * The key-value store under the storages

    [storage/src/persistent/codec.rs] (codecs of keys and values),
    [storage/src/persistent/database.rs] and [mod.rs] (typed access to RocksDB),
    and the errors of [storage/src/lib.rs].  RocksDB and bincode are
    parameters. *)

From stdpp Require Import gmap sorting.
From S2P Require Import Prelude Hash NomReader.

(** ** Stateful operations that can fail

    The stores are shared and mutated behind [&self]: an operation takes the
    state and returns the new one also when it fails. *)

Definition io (S A E : Type) : Type := S → S * result A E.

Definition ret {S A E} (a : A) : io S A E := λ s, (s, Ok a).
Definition throw {S A E} (e : E) : io S A E := λ s, (s, Err e).
Definition reads_state {S A E} (f : S → result A E) : io S A E := λ s, (s, f s).
Definition pure {S A E} (r : result A E) : io S A E := λ s, (s, r).
Definition err_into {S A E F} (f : E → F) (m : io S A E) : io S A F :=
  λ s, let '(s', r) := m s in (s', map_err f r).

(** [c?; k] *)
Notation "'do?' x ':=' c 'in' k" :=
  (λ s, match c s with (s', Ok x) => k s' | (s', Err e) => (s', Err e) end)
  (at level 10, x pattern, c at level 100, k at level 200,
   format "'[v' 'do?'  x  ':='  c  'in' '/' k ']'") : rust_scope.

(** [a.and(b)]: Rust evaluates both operations before it looks at the results. *)
Definition and_both {S A B E} (a : io S A E) (b : io S B E) : io S B E :=
  λ s, let '(s1, ra) := a s in
       let '(s2, rb) := b s1 in
       (s2, match ra with Ok _ => rb | Err e => Err e end).

(** ** Codecs *)

(** The last case stands for an index out of range, which is a panic. *)
Inductive SchemaError :=
| EncodeError
| DecodeError
| DecodeValidationError (text : string)
| SchemaPanic.

(** The traits [Encoder] and [Decoder]. *)
Class Codec (A : Type) : Type := {
  encode : A → result bytes SchemaError;
  decode : bytes → result A SchemaError
}.

(** Which values of a type the program can build, and that they survive. *)
Class CodecLaws (A : Type) `{Codec A} (ok : A → Prop) : Prop := {
  encode_decode a : ok a → ∃ b, encode a = Ok b ∧ decode b = Ok a
}.

(** [hash_codec!]: a hash is its bytes. *)
Definition hash_codec (t : HashType) : Codec bytes := {|
  encode h := Ok h;
  decode b := map_err (λ _, DecodeError) (try_from_bytes t b)
|}.

Definition hash_ok (t : HashType) (h : bytes) : Prop := len h = size t.

(** [String] *)
Definition string_codec : Codec bytes := {|
  encode s := Ok s;
  decode b := map_err (λ _, DecodeError) (from_utf8 b)
|}.

(** [num_codec!], for an unsigned or signed integer of [n] bytes *)
Definition unum_codec (n : nat) : Codec Z := {|
  encode v := Ok (be_bytes n v);
  decode b := if decide (length b = n) then Ok (be_val b) else Err DecodeError
|}.
Definition inum_codec (n : nat) : Codec Z := {|
  encode v := Ok (be_bytes n v);
  decode b :=
    if decide (length b = n) then Ok (to_signed (8 * Z.of_nat n) (be_val b)) else Err DecodeError
|}.

(** [num_from_slice!]: [None] where the slice is out of range (a panic). *)
Definition slice (buf : bytes) (from to : Z) : option bytes :=
  if decide (0 ≤ from ≤ to ∧ to ≤ len buf)
  then Some (take (Z.to_nat (to - from)) (drop (Z.to_nat from) buf))
  else None.

Definition num_from_slice (buf : bytes) (from_idx : Z) (size_of : Z) : option Z :=
  be_val <$> slice buf from_idx (from_idx + size_of).

(** [BincodeEncoded]: the crate bincode and the derived serde implementations. *)
Class Bincode (A : Type) : Type := {
  bincode_serialize : A → option bytes;
  bincode_deserialize : bytes → option A
}.

Class BincodeLaws (A : Type) `{Bincode A} (ok : A → Prop) : Prop := {
  bincode_roundtrip a : ok a → ∃ b, bincode_serialize a = Some b ∧ bincode_deserialize b = Some a
}.

Definition bincode_codec (A : Type) `{Bincode A} : Codec A := {|
  encode a := ok_or (bincode_serialize a) EncodeError;
  decode b := ok_or (bincode_deserialize b) DecodeError
|}.

Lemma hash_codec_laws t : @CodecLaws bytes (hash_codec t) (hash_ok t).
Proof.
  constructor. intros h Hh. exists h. split; [done|]. cbn. unfold try_from_bytes.
  by rewrite decide_True.
Qed.

Lemma string_codec_laws : @CodecLaws bytes string_codec (λ s, from_utf8 s = Ok s).
Proof. constructor. intros s Hs. exists s. split; [done|]. cbn. by rewrite Hs. Qed.

Lemma unum_codec_laws n : @CodecLaws Z (unum_codec n) (uint_range (8 * Z.of_nat n)).
Proof.
  constructor. intros v [Hl Hh]. eexists. split; [done|]. cbn.
  rewrite decide_True by apply length_be_bytes. rewrite be_val_be_bytes, Z.mod_small; [done|].
  change 256 with (2 ^ 8). rewrite <- Z.pow_mul_r by lia. done.
Qed.

Lemma inum_codec_laws n : (0 < n)%nat → @CodecLaws Z (inum_codec n) (int_range (8 * Z.of_nat n)).
Proof.
  intros Hn. constructor. intros v Hv. eexists. split; [done|]. cbn.
  rewrite decide_True by apply length_be_bytes. rewrite be_val_be_bytes.
  change 256 with (2 ^ 8). rewrite <- Z.pow_mul_r by lia. by rewrite to_signed_mod by (done || lia).
Qed.

Lemma bincode_codec_laws A `{BincodeLaws A ok} : @CodecLaws A (bincode_codec A) ok.
Proof.
  constructor. intros a Ha. destruct (bincode_roundtrip a Ha) as (b & E1 & E2). exists b. cbn.
  by rewrite E1, E2.
Qed.

Lemma encode_inj {A} `{CodecLaws A ok} a a' b :
  ok a → ok a' → encode a = Ok b → encode a' = Ok b → a = a'.
Proof.
  intros Ha Ha' E E'. destruct (encode_decode a Ha) as (b1 & E1 & D1).
  destruct (encode_decode a' Ha') as (b2 & E2 & D2). congruence.
Qed.

(** ** RocksDB *)

(** The order of keys: [Vec<u8>] (and so a hash) compares lexicographically. *)
Fixpoint bytes_le (a b : bytes) : Prop :=
  match a, b with
  | [], _ => True
  | _ :: _, [] => False
  | x :: a, y :: b => x < y ∨ (x = y ∧ bytes_le a b)
  end.

#[export] Instance bytes_le_dec : RelDecision bytes_le.
Proof.
  intros a. induction a as [|x a IH]; intros [|y b]; cbn; [left; done|left; done|right; tauto|].
  apply or_dec; [apply _|apply and_dec; [apply _|apply IH]].
Defined.

#[export] Instance bytes_le_total : Total bytes_le.
Proof.
  intros a. induction a as [|x a IH]; intros [|y b]; cbn; [by left|by left|by right|].
  destruct (decide (x < y)), (decide (y < x)); try tauto. assert (x = y) as -> by lia.
  destruct (IH b); tauto.
Qed.

#[export] Instance bytes_le_trans : Transitive bytes_le.
Proof.
  intros a. induction a as [|x a IH]; intros [|y b] [|z c]; cbn; try tauto.
  intros [?|[-> Hab]] [?|[-> Hbc]]; [left; lia|by left|by left|right; split; [done|by eapply IH]].
Qed.

Lemma bytes_le_antisymm a b : bytes_le a b → bytes_le b a → a = b.
Proof.
  revert b. induction a as [|x a IH]; intros [|y b]; cbn; try tauto.
  intros [?|[-> Hab]] [?|[? Hba]]; [lia|lia|lia|]. f_equal. by apply IH.
Qed.

Lemma bytes_le_app p a b : bytes_le a b → bytes_le (p ++ a) (p ++ b).
Proof. intros Hab. induction p as [|x p IH]; [done|]. cbn. by right. Qed.

(** A merge operator: the key, the value there is, the operands. *)
Definition MergeFn : Type := bytes → option bytes → list bytes → option bytes.

(** The prefix extractor, if there is one, takes a fixed number of bytes. *)
Record ColumnFamilyDescriptor := mkPrefixedFamily {
  cf_name : string;
  cf_merge : option MergeFn;
  cf_prefix : option nat
}.

Definition mkColumnFamily (name : string) (merge : option MergeFn) : ColumnFamilyDescriptor :=
  mkPrefixedFamily name merge None.

(** [rocksdb::IteratorMode]; the flag is [Direction::Forward]. *)
Inductive RocksMode := RocksStart | RocksEnd | RocksFrom (key : bytes) (forward : bool).

Class RocksDb : Type := {
  DB : Type;
  RocksError : Type;
  cf_handle : DB → string → bool;
  get_cf : DB → string → bytes → result (option bytes) RocksError;
  put_cf : DB → string → bytes → bytes → DB * result () RocksError;
  delete_cf : DB → string → bytes → DB * result () RocksError;
  merge_cf : DB → string → bytes → bytes → DB * result () RocksError;
  write_cf : DB → list (string * bytes * bytes) → DB * result () RocksError;
  iterator_cf : DB → string → RocksMode → list (bytes * bytes);
  prefix_iterator_cf : DB → string → bytes → list (bytes * bytes)
}.

(** The entries in the order of their keys, as a mode selects them. *)
Definition select (mode : RocksMode) (entries : list (bytes * bytes)) : list (bytes * bytes) :=
  match mode with
  | RocksStart => entries
  | RocksEnd => rev entries
  | RocksFrom key true => filter (λ e, bytes_le key e.1) entries
  | RocksFrom key false => rev (filter (λ e, bytes_le e.1 key) entries)
  end.

Definition entry_le (e e' : bytes * bytes) : Prop := bytes_le e.1 e'.1.
#[export] Instance entry_le_dec : RelDecision entry_le.
Proof. intros e e'. unfold entry_le. apply _. Defined.
#[export] Instance entry_le_total : Total entry_le.
Proof. intros e e'. apply bytes_le_total. Qed.
#[export] Instance entry_le_trans : Transitive entry_le.
Proof. intros a b c. apply bytes_le_trans. Qed.

(** A database that was opened with the families [cfs] and whose device does
    not fail.  A merge is seen by the next read as one application of the
    operator that the family was opened with; an iterator sees every key once; an
    iterator over a prefix sees the keys from the given one on that have its prefix. *)
Class RocksDbLaws `{RocksDb} (cfs : list ColumnFamilyDescriptor) : Prop := {
  cf_handle_ok db d : d ∈ cfs → cf_handle db (cf_name d) = true;
  put_cf_ok db d k v : d ∈ cfs →
    ∃ db', put_cf db (cf_name d) k v = (db', Ok ()) ∧
      ∀ n' k', get_cf db' n' k' =
        if decide (n' = cf_name d ∧ k' = k) then Ok (Some v) else get_cf db n' k';
  delete_cf_ok db d k : d ∈ cfs →
    ∃ db', delete_cf db (cf_name d) k = (db', Ok ()) ∧
      ∀ n' k', get_cf db' n' k' =
        if decide (n' = cf_name d ∧ k' = k) then Ok None else get_cf db n' k';
  merge_cf_ok db d f k v : d ∈ cfs → cf_merge d = Some f →
    ∃ db', merge_cf db (cf_name d) k v = (db', Ok ()) ∧
      (∀ n' k', ¬ (n' = cf_name d ∧ k' = k) → get_cf db' n' k' = get_cf db n' k') ∧
      (∀ old new, get_cf db (cf_name d) k = Ok old → f k old [v] = Some new →
        get_cf db' (cf_name d) k = Ok (Some new));
  write_cf_ok db batch : (∀ e, e ∈ batch → ∃ d, d ∈ cfs ∧ cf_name d = e.1.1) →
    ∃ db', write_cf db batch = (db', Ok ()) ∧
      ∀ n' k', get_cf db' n' k' =
        match find (λ e, bool_decide (e.1 = (n', k'))) (rev batch) with
        | Some e => Ok (Some e.2)
        | None => get_cf db n' k'
        end;
  iterator_cf_ok db d : d ∈ cfs →
    ∃ entries, Sorted entry_le entries ∧ NoDup entries.*1 ∧
      (∀ k v, (k, v) ∈ entries ↔ get_cf db (cf_name d) k = Ok (Some v)) ∧
      (∀ mode, iterator_cf db (cf_name d) mode = select mode entries) ∧
      (∀ n key, cf_prefix d = Some n → (n ≤ length key)%nat → Forall (λ e, (n ≤ length e.1)%nat) entries →
        prefix_iterator_cf db (cf_name d) key =
          filter (λ e, take n e.1 = take n key) (select (RocksFrom key true) entries))
}.

(** ** Errors

    The payloads that come from other crates are kept as text. *)

Inductive DBError `{RocksDb} :=
| DBSchemaError (error : SchemaError)
| RocksDBError (error : RocksError)
| MissingColumnFamily (name : string)
| DatabaseIncompatibility (name : string)
| ValueExists (key : string)
| GuardPoison (error : string)
| SledDBError (error : string)
| HashEncodeError (error : FromBytesError)
| LockError (reason : string)
| DBIOError (error : string)
| MemoryStatisticsOverflow.

Record Location := mkLocation { offset : Z; byte_limit : Z }.

Inductive CommitLogError :=
| LogSchemaError (error : SchemaError)
| AppendError (error : string)
| ReadError (error : string) (location : Location)
| LogIOError (error : string)
| MissingCommitLog (name : string).

(** [TezosEnvironmentError] of [tezos/api/src/environment.rs] *)
Inductive EnvironmentError :=
| InvalidBlockHash (hash : string) (error : FromBase58CheckError)
| InvalidProtocolHash (hash : string) (error : FromBase58CheckError)
| InvalidTime (time error : string)
| EnvBlake2bError.

(** [StorageError]; the last case stands for a panic of the storage thread. *)
Inductive StorageError `{RocksDb} :=
| StorageDBError (error : DBError)
| StorageCommitLogError (error : CommitLogError)
| MissingKey
| InvalidColumn
| SequenceError (error : string)
| TezosEnvironmentError (error : EnvironmentError)
| MessageHashError (error : string)
| PredecessorLookupError
| StorageHashError (error : FromBytesError)
| HashDecodeError (error : FromBase58CheckError)
| StoragePanic (what : string).

(** ** Typed access *)

Record KeyValueSchema := mkSchema {
  Key : Type;
  Value : Type;
  key_codec : Codec Key;
  value_codec : Codec Value;
  name : string
}.
#[export] Existing Instance key_codec.
#[export] Existing Instance value_codec.

Section Kv.
Context `{RocksDb} (S : KeyValueSchema).

(** [self.cf_handle(S::name()).ok_or(MissingColumnFamily)] *)
Definition family (db : DB) : result () DBError :=
  if cf_handle db (name S) then Ok () else Err (MissingColumnFamily (name S)).

Definition kv_put (key : Key S) (value : Value S) : io DB () DBError :=
  do? key := pure (map_err DBSchemaError (encode key)) in
  do? value := pure (map_err DBSchemaError (encode value)) in
  do? _ := reads_state family in
  err_into RocksDBError (λ db, put_cf db (name S) key value).

Definition kv_delete (key : Key S) : io DB () DBError :=
  do? key := pure (map_err DBSchemaError (encode key)) in
  do? _ := reads_state family in
  err_into RocksDBError (λ db, delete_cf db (name S) key).

Definition kv_merge (key : Key S) (value : Value S) : io DB () DBError :=
  do? key := pure (map_err DBSchemaError (encode key)) in
  do? value := pure (map_err DBSchemaError (encode value)) in
  do? _ := reads_state family in
  err_into RocksDBError (λ db, merge_cf db (name S) key value).

Definition kv_get (key : Key S) (db : DB) : result (option (Value S)) DBError :=
  let? key := map_err DBSchemaError (encode key) in
  let? _ := family db in
  let? value := map_err RocksDBError (get_cf db (name S) key) in
  match value with
  | Some value => let? value := map_err DBSchemaError (decode value) in Ok (Some value)
  | None => Ok None
  end.

Definition kv_contains (key : Key S) (db : DB) : result bool DBError :=
  let? key := map_err DBSchemaError (encode key) in
  let? _ := family db in
  let? val := map_err RocksDBError (get_cf db (name S) key) in
  Ok (bool_decide (is_Some val)).

(** [try_delete]: the default method of the trait. *)
Definition kv_try_delete (key : Key S) : io DB (option (Value S)) DBError :=
  do? v := reads_state (kv_get key) in
  match v with
  | Some _ => do? _ := kv_delete key in ret v
  | None => ret v
  end.

Fixpoint encode_batch (batch : list (Key S * Value S)) (db : DB)
    : result (list (string * bytes * bytes)) DBError :=
  match batch with
  | [] => Ok []
  | (k, v) :: batch =>
      let? key := map_err DBSchemaError (encode k) in
      let? value := map_err DBSchemaError (encode v) in
      let? _ := family db in
      let? rest := encode_batch batch db in
      Ok ((name S, key, value) :: rest)
  end.

(** [IteratorMode] and [IteratorWithSchema]: keys and values are decoded one by
    one. *)
Inductive IteratorMode := IterStart | IterEnd | IterFrom (key : Key S) (forward : bool).

Definition kv_iterator (mode : IteratorMode) (db : DB)
    : result (list (result (Key S) SchemaError * result (Value S) SchemaError)) DBError :=
  let? _ := family db in
  let? mode :=
    match mode with
    | IterStart => Ok RocksStart
    | IterEnd => Ok RocksEnd
    | IterFrom key direction =>
        let? key := map_err DBSchemaError (encode key) in Ok (RocksFrom key direction)
    end in
  Ok (map (λ e, (decode e.1, decode e.2)) (iterator_cf db (name S) mode)).

Definition kv_prefix_iterator (key : Key S) (db : DB)
    : result (list (result (Key S) SchemaError * result (Value S) SchemaError)) DBError :=
  let? key := map_err DBSchemaError (encode key) in
  let? _ := family db in
  Ok (map (λ e, (decode e.1, decode e.2)) (prefix_iterator_cf db (name S) key)).

Fixpoint delete_all (garbage : list (Key S)) : io DB () DBError :=
  match garbage with
  | [] => ret ()
  | i :: garbage => do? _ := kv_delete i in delete_all garbage
  end.

Definition kv_retain (predicate : Key S → bool) : io DB () DBError :=
  do? entries := reads_state (kv_iterator IterStart) in
  delete_all (omap (λ e, match e.1 with
                         | Ok key => if predicate key then None else Some key
                         | Err _ => None
                         end) entries).

Definition kv_write_batch (batch : list (Key S * Value S)) : io DB () DBError :=
  do? rocksb_batch := reads_state (encode_batch batch) in
  err_into RocksDBError (λ db, write_cf db rocksb_batch).

End Kv.

Lemma kv_contains_get `{RocksDb} S k db v :
  kv_get S k db = Ok v → kv_contains S k db = Ok (bool_decide (is_Some v)).
Proof.
  unfold kv_get, kv_contains. destruct (encode k) as [kb|]; [|done]. cbn [map_err].
  destruct (family S db) as [[]|]; [|done].
  destruct (get_cf db (name S) kb) as [[b|]|]; cbn [map_err]; [|by intros [= <-]|done].
  destruct (decode b); [|done]. by intros [= <-].
Qed.

(** ** What the typed access guarantees *)

(** A table of the database: its family was opened, and its keys and values
    survive their codecs. *)
Class Table `{RocksDb} (cfs : list ColumnFamilyDescriptor) (S : KeyValueSchema)
    (key_ok : Key S → Prop) (value_ok : Value S → Prop) : Prop := {
  table_open : ∃ d, d ∈ cfs ∧ cf_name d = name S;
  table_keys :: CodecLaws (Key S) key_ok;
  table_values :: CodecLaws (Value S) value_ok
}.

Section Tables.
Context `{RocksDbLaws cfs} (S : KeyValueSchema) {key_ok value_ok} `{!Table cfs S key_ok value_ok}.

Lemma family_ok db : family S db = Ok ().
Proof.
  destruct table_open as (d & Hd & E). unfold family. by rewrite <- E, (cf_handle_ok db d Hd).
Qed.

(** Reads see the family and nothing else. *)
Lemma kv_get_ext {S'} k (db db' : DB) :
  family S' db = family S' db' →
  (∀ kb, encode k = Ok kb → get_cf db (name S') kb = get_cf db' (name S') kb) →
  kv_get S' k db = kv_get S' k db'.
Proof.
  intros Ef Eg. unfold kv_get. destruct (encode k) as [kb|] eqn:E; [|done]. cbn [map_err].
  by rewrite Ef, (Eg kb).
Qed.

Lemma other_key k k' kb kb' :
  key_ok k → key_ok k' → k' ≠ k → encode k = Ok kb → encode k' = Ok kb' → kb' ≠ kb.
Proof. intros Hk Hk' Hne E E' ->. apply Hne. eapply encode_inj; eauto. Qed.

Lemma kv_put_ok k v db :
  key_ok k → value_ok v →
  ∃ db', kv_put S k v db = (db', Ok ()) ∧ kv_get S k db' = Ok (Some v) ∧
    (∀ k', key_ok k' → k' ≠ k → kv_get S k' db' = kv_get S k' db) ∧
    (∀ n' kb, n' ≠ name S → get_cf db' n' kb = get_cf db n' kb).
Proof.
  intros Hk Hv. destruct (encode_decode k Hk) as (kb & Ek & _).
  destruct (encode_decode v Hv) as (vb & Ev & Dv). destruct table_open as (d & Hd & En).
  destruct (put_cf_ok db d kb vb Hd) as (db' & Ep & Eg). rewrite En in *. exists db'.
  unfold kv_put, kv_get, pure, reads_state, err_into.
  rewrite Ek, Ev. cbn [map_err]. rewrite family_ok, Ep. split; [done|]. split.
  - rewrite family_ok, Eg, decide_True by done. cbn [map_err]. by rewrite Dv.
  - split.
    + intros k' Hk' Hne. destruct (encode_decode k' Hk') as (kb' & Ek' & _). rewrite Ek'.
      cbn [map_err]. rewrite !family_ok, Eg, decide_False; [done|].
      intros [_ Heq]. by apply (other_key k k' kb kb') in Heq.
    + intros n' kb' Hn. rewrite Eg, decide_False; [done|]. by intros [? _].
Qed.

Lemma kv_delete_ok k db :
  key_ok k →
  ∃ db', kv_delete S k db = (db', Ok ()) ∧ kv_get S k db' = Ok None ∧
    (∀ k', key_ok k' → k' ≠ k → kv_get S k' db' = kv_get S k' db) ∧
    (∀ n' kb, n' ≠ name S → get_cf db' n' kb = get_cf db n' kb).
Proof.
  intros Hk. destruct (encode_decode k Hk) as (kb & Ek & _).
  destruct table_open as (d & Hd & En).
  destruct (delete_cf_ok db d kb Hd) as (db' & Ep & Eg). rewrite En in *. exists db'.
  unfold kv_delete, kv_get, pure, reads_state, err_into.
  rewrite Ek. cbn [map_err]. rewrite family_ok, Ep. split; [done|]. split.
  - by rewrite family_ok, Eg, decide_True by done.
  - split.
    + intros k' Hk' Hne. destruct (encode_decode k' Hk') as (kb' & Ek' & _). rewrite Ek'.
      cbn [map_err]. rewrite !family_ok, Eg, decide_False; [done|].
      intros [_ Heq]. by apply (other_key k k' kb kb') in Heq.
    + intros n' kb' Hn. rewrite Eg, decide_False; [done|]. by intros [? _].
Qed.

End Tables.

Section Merge.
Context `{RocksDbLaws cfs} (S : KeyValueSchema) {key_ok value_ok} `{!Table cfs S key_ok value_ok}.

(** A write to one table does not show in another one. *)
Lemma kv_get_frame (S' : KeyValueSchema) {key_ok' value_ok'} `{!Table cfs S' key_ok' value_ok'} k
    (db db' : DB) n :
  (∀ n' kb, n' ≠ n → get_cf db' n' kb = get_cf db n' kb) → name S' ≠ n →
  kv_get S' k db' = kv_get S' k db.
Proof.
  intros Hf Hn. apply kv_get_ext; [by rewrite !(family_ok S')|]. intros kb _. by apply Hf.
Qed.

(** [kv_merge] on the bytes: the operator is applied to what is there. *)
Lemma kv_merge_ok d f k kb v vb db :
  d ∈ cfs → cf_name d = name S → cf_merge d = Some f →
  encode k = Ok kb → encode v = Ok vb →
  ∃ db', kv_merge S k v db = (db', Ok ()) ∧
    (∀ old new, get_cf db (name S) kb = Ok old → f kb old [vb] = Some new →
      get_cf db' (name S) kb = Ok (Some new)) ∧
    (∀ n' kb', ¬ (n' = name S ∧ kb' = kb) → get_cf db' n' kb' = get_cf db n' kb').
Proof.
  intros Hd En Hf Ek Ev. destruct (merge_cf_ok db d f kb vb Hd Hf) as (db' & Em & Eo & Eg).
  rewrite En in *. exists db'. unfold kv_merge, pure, reads_state, err_into.
  rewrite Ek, Ev. cbn [map_err]. by rewrite (family_ok S), Em.
Qed.

Lemma kv_get_raw k kb db :
  encode k = Ok kb →
  kv_get S k db =
    match get_cf db (name S) kb with
    | Ok None => Ok None
    | Ok (Some b) => map_err DBSchemaError (let? v := decode b in Ok (Some v))
    | Err e => Err (RocksDBError e)
    end.
Proof.
  intros Ek. unfold kv_get. rewrite Ek. cbn [map_err]. rewrite (family_ok S).
  destruct (get_cf db (name S) kb) as [[b|]|]; [|done..]. cbn [map_err]. by destruct (decode b).
Qed.

End Merge.

(** ** A whole table *)

(** The table holds the entries [T] and nothing else. *)
Definition table_is `{RocksDb} (S : KeyValueSchema) `{Countable (Key S)} (key_ok : Key S → Prop)
    (db : DB) (T : gmap (Key S) (Value S)) : Prop :=
  (∀ kb, ∃ val, get_cf db (name S) kb = Ok val ∧
    ∀ v, val = Some v → ∃ k x, key_ok k ∧ encode k = Ok kb ∧ decode v = Ok x ∧ T !! k = Some x) ∧
  (∀ k, key_ok k → kv_get S k db = Ok (T !! k)) ∧
  (∀ k x, T !! k = Some x → key_ok k).

Section TableIs.
Context `{RocksDbLaws cfs} (S : KeyValueSchema) {key_ok value_ok} `{!Table cfs S key_ok value_ok}.
Context `{Countable (Key S)}.

Lemma table_is_get db T k : table_is S key_ok db T → key_ok k → kv_get S k db = Ok (T !! k).
Proof. intros (_ & Hg & _). apply Hg. Qed.

Lemma table_is_put db T k v :
  table_is S key_ok db T → key_ok k → value_ok v →
  ∃ db', kv_put S k v db = (db', Ok ()) ∧ table_is S key_ok db' (<[k := v]> T) ∧
    (∀ n' kb, n' ≠ name S → get_cf db' n' kb = get_cf db n' kb).
Proof.
  intros (Hraw & Hget & Hkeys) Hk Hv. destruct (kv_put_ok S k v db Hk Hv) as (db' & E & G & O & F).
  exists db'. split; [done|]. split; [|done].
  destruct (encode_decode k Hk) as (kb & Ek & _). destruct (encode_decode v Hv) as (vb & Ev & Dv).
  destruct (table_open (S := S)) as (d & Hd & En). destruct (put_cf_ok db d kb vb Hd) as (db1 & Ep & Eg).
  assert (db1 = db') as ->.
  { unfold kv_put, pure, reads_state, err_into in E. rewrite Ek, Ev in E. cbn [map_err] in E.
    rewrite (family_ok S), <- En, Ep in E. by injection E. }
  rewrite En in Eg. split; [|split].
  - intros kb'. destruct (decide (kb' = kb)) as [->|Hne].
    + exists (Some vb). rewrite Eg, decide_True by done. split; [done|]. intros v' [= <-].
      exists k, v. by rewrite lookup_insert_eq.
    + destruct (Hraw kb') as (val & Eval & Hval). exists val.
      rewrite Eg, decide_False by (by intros [_ ?]). split; [done|]. intros v' ->.
      destruct (Hval v' eq_refl) as (k' & x & Hk' & Ek' & Dx & Tx). exists k', x.
      rewrite lookup_insert_ne; [done|]. intros ->. congruence.
  - intros k' Hk'. destruct (decide (k' = k)) as [->|Hne].
    + by rewrite lookup_insert_eq.
    + rewrite lookup_insert_ne, O by done. by apply Hget.
  - intros k' x. destruct (decide (k' = k)) as [->|Hne]; [done|].
    rewrite lookup_insert_ne by done. apply Hkeys.
Qed.

Lemma table_is_delete db T k :
  table_is S key_ok db T → key_ok k →
  ∃ db', kv_delete S k db = (db', Ok ()) ∧ table_is S key_ok db' (delete k T) ∧
    (∀ n' kb, n' ≠ name S → get_cf db' n' kb = get_cf db n' kb).
Proof.
  intros (Hraw & Hget & Hkeys) Hk. destruct (kv_delete_ok S k db Hk) as (db' & E & G & O & F).
  exists db'. split; [done|]. split; [|done].
  destruct (encode_decode k Hk) as (kb & Ek & _).
  destruct (table_open (S := S)) as (d & Hd & En). destruct (delete_cf_ok db d kb Hd) as (db1 & Ep & Eg).
  assert (db1 = db') as ->.
  { unfold kv_delete, pure, reads_state, err_into in E. rewrite Ek in E. cbn [map_err] in E.
    rewrite (family_ok S), <- En, Ep in E. by injection E. }
  rewrite En in Eg. split; [|split].
  - intros kb'. destruct (decide (kb' = kb)) as [->|Hne].
    + exists None. by rewrite Eg, decide_True by done.
    + destruct (Hraw kb') as (val & Eval & Hval). exists val.
      rewrite Eg, decide_False by (by intros [_ ?]). split; [done|]. intros v' ->.
      destruct (Hval v' eq_refl) as (k' & x & Hk' & Ek' & Dx & Tx). exists k', x.
      rewrite lookup_delete_ne; [done|]. intros ->. congruence.
  - intros k' Hk'. destruct (decide (k' = k)) as [->|Hne].
    + by rewrite lookup_delete_eq.
    + rewrite lookup_delete_ne, O by done. by apply Hget.
  - intros k' x. destruct (decide (k' = k)) as [->|Hne]; [by rewrite lookup_delete_eq|].
    rewrite lookup_delete_ne by done. apply Hkeys.
Qed.

Lemma table_is_frame db db' T :
  (∀ kb, get_cf db' (name S) kb = get_cf db (name S) kb) → table_is S key_ok db T → table_is S key_ok db' T.
Proof.
  intros Hf (Hraw & Hget & Hkeys). split; [|split].
  - intros kb. rewrite Hf. apply Hraw.
  - intros k Hk. rewrite <- (Hget k Hk). apply kv_get_ext; [by rewrite !(family_ok S)|].
    intros kb _. apply Hf.
  - done.
Qed.

Lemma table_is_empty db : (∀ kb, get_cf db (name S) kb = Ok None) → table_is S key_ok db ∅.
Proof.
  intros Hg. split; [|split].
  - intros kb. rewrite Hg. by exists None.
  - intros k Hk. destruct (encode_decode k Hk) as (kb & Ek & _).
    by rewrite (kv_get_raw S k kb), Hg, lookup_empty.
  - intros k x E. by rewrite lookup_empty in E.
Qed.

(** The entries of the family are those of [T], decoded. *)
Definition key_bytes (k : Key S) : bytes := match encode k with Ok kb => kb | Err _ => [] end.

Definition decodes (e : bytes * bytes) (x : Key S * Value S) : Prop :=
  key_bytes x.1 = e.1 ∧ decode e.1 = Ok x.1 ∧ decode e.2 = Ok x.2.

Lemma decodes_map es l : Forall2 decodes es l →
  map (λ e, (decode e.1, decode e.2)) es = map (λ e, (Ok e.1, Ok e.2)) l.
Proof. induction 1 as [|e x es l (_ & E1 & E2) _ IH]; [done|]. cbn. by rewrite E1, E2, IH. Qed.

Lemma decodes_filter (P : bytes → Prop) `{∀ b, Decision (P b)} es l : Forall2 decodes es l →
  Forall2 decodes (filter (λ e, P e.1) es) (filter (λ x, P (key_bytes x.1)) l).
Proof.
  induction 1 as [|e x es l He _ IH]; [constructor|]. pose proof He as (Ek & _).
  rewrite !filter_cons, Ek. case_decide; [by constructor|done].
Qed.

Lemma table_entries db T d :
  table_is S key_ok db T → d ∈ cfs → cf_name d = name S →
  ∃ (es : list (bytes * bytes)) (l : list (Key S * Value S)),
    Forall2 decodes es l ∧ Sorted entry_le es ∧ NoDup l.*1 ∧ (∀ k x, (k, x) ∈ l ↔ T !! k = Some x) ∧
    (∀ mode, iterator_cf db (name S) mode = select mode es) ∧
    (∀ n key, cf_prefix d = Some n → (n ≤ length key)%nat → Forall (λ e, (n ≤ length e.1)%nat) es →
      prefix_iterator_cf db (name S) key =
        filter (λ e, take n e.1 = take n key) (select (RocksFrom key true) es)).
Proof.
  intros (Hraw & Hget & Hkeys) Hd En.
  destruct (iterator_cf_ok db d Hd) as (es & Hs & Hnd & Hin & Hit & Hpre). rewrite En in *.
  assert (∀ e, e ∈ es → ∃ x, decodes e x ∧ T !! x.1 = Some x.2) as Hdec.
  { intros [kb v] He. apply Hin in He. destruct (Hraw kb) as (val & Eval & Hval).
    rewrite He in Eval. injection Eval as <-. destruct (Hval v eq_refl) as (k & x & Hk & Ek & Dx & Tx).
    exists (k, x). destruct (encode_decode k Hk) as (kb' & Ek' & Dk). rewrite Ek in Ek'. injection Ek' as <-.
    unfold decodes, key_bytes. cbn. by rewrite Ek. }
  assert (∃ l, Forall2 decodes es l ∧ Forall (λ x, T !! x.1 = Some x.2) l) as (l & Hl & HT).
  { clear -Hdec. induction es as [|e es IH]; [by exists []|]. destruct (Hdec e) as (x & Hx & Tx); [left|].
    destruct IH as (l & Hl & HT); [intros e' He'; apply Hdec; by right|]. exists (x :: l). by split; constructor. }
  assert (key_bytes <$> l.*1 = es.*1) as Ekeys.
  { clear -Hl. induction Hl as [|e x es l (E & _) _ IH]; [done|]. cbn. by rewrite E, IH. }
  exists es, l. split; [done|]. split; [done|]. split.
  { apply (NoDup_fmap_1 key_bytes). by rewrite Ekeys. }
  split; [|done]. intros k x. rewrite Forall_forall in HT. split; [intros He; by apply (HT (k, x))|]. intros Tx.
  pose proof (Hkeys _ _ Tx) as Hk. pose proof (Hget k Hk) as Eg. rewrite Tx in Eg.
  destruct (encode_decode k Hk) as (kb & Ek & Dk). rewrite (kv_get_raw S k kb) in Eg by done.
  destruct (get_cf db (name S) kb) as [[v|]|] eqn:Ev; [|done..].
  assert (kb ∈ key_bytes <$> l.*1) as Hkb.
  { rewrite Ekeys. apply (list_elem_of_fmap_2 fst _ (kb, v)). by apply Hin. }
  apply list_elem_of_fmap in Hkb as (k' & Ek' & Hk'). apply list_elem_of_fmap in Hk' as ([k'' x'] & -> & Hx').
  cbn in Ek'. pose proof (HT _ Hx') as Tx'. cbn in Tx'. assert (k'' = k) as ->; [|congruence].
  pose proof (Hkeys _ _ Tx') as Hk''. destruct (encode_decode k'' Hk'') as (kb'' & E'' & D'').
  unfold key_bytes in Ek'. rewrite E'' in Ek'. subst kb''. rewrite Dk in D''. by injection D''.
Qed.

(** An iterator sees every entry once. *)
Lemma table_is_iterator db T :
  table_is S key_ok db T →
  ∃ l : list (Key S * Value S), kv_iterator S (IterStart S) db = Ok (map (λ e, (Ok e.1, Ok e.2)) l) ∧
    NoDup l.*1 ∧ ∀ k x, (k, x) ∈ l ↔ T !! k = Some x.
Proof.
  intros HT. destruct (table_open (S := S)) as (d & Hd & En).
  destruct (table_entries db T d HT Hd En) as (es & l & Hl & _ & Hnd & Hin & Hit & _).
  exists l. unfold kv_iterator. rewrite (family_ok S), Hit. cbn [select]. by rewrite (decodes_map es l).
Qed.

(** An iterator over a prefix sees the entries with the prefix, from the key on. *)
Lemma table_is_prefix db T d n key :
  table_is S key_ok db T → d ∈ cfs → cf_name d = name S → cf_prefix d = Some n →
  key_ok key → (∀ k, key_ok k → (n ≤ length (key_bytes k))%nat) →
  ∃ l : list (Key S * Value S), kv_prefix_iterator S key db = Ok (map (λ e, (Ok e.1, Ok e.2)) l) ∧
    NoDup l.*1 ∧
    ∀ k x, (k, x) ∈ l ↔
      T !! k = Some x ∧ bytes_le (key_bytes key) (key_bytes k) ∧ take n (key_bytes k) = take n (key_bytes key).
Proof.
  intros HT Hd En Hp Hkey Hlen.
  destruct (table_entries db T d HT Hd En) as (es & l & Hl & _ & Hnd & Hin & _ & Hpre).
  set (l' := filter (λ x, take n (key_bytes x.1) = take n (key_bytes key))
    (filter (λ x, bytes_le (key_bytes key) (key_bytes x.1)) l)).
  exists l'. unfold kv_prefix_iterator. destruct (encode_decode key Hkey) as (kb & Ekb & _).
  assert (key_bytes key = kb) as Ekey by (unfold key_bytes; by rewrite Ekb).
  rewrite Ekb. cbn [map_err]. rewrite (family_ok S). split; [|split].
  - rewrite (Hpre n kb Hp); [|rewrite <- Ekey; by apply Hlen|].
    + cbn [select]. f_equal. apply decodes_map. unfold l'. rewrite Ekey.
      exact (decodes_filter (λ b, take n b = take n kb) _ _ (decodes_filter (λ b, bytes_le kb b) _ _ Hl)).
    + destruct HT as (_ & _ & Hkeys). apply Forall_forall. intros e He.
      apply list_elem_of_lookup in He as [i Hi]. destruct (Forall2_lookup_l _ _ _ _ _ Hl Hi) as ([k x] & Hx & Ek & _).
      cbn in Ek. rewrite <- Ek. apply Hlen, (Hkeys k x), Hin. by eapply list_elem_of_lookup_2.
  - assert (sublist l'.*1 l.*1) as Hsub.
    { unfold l'. apply fmap_sublist. etransitivity; apply sublist_filter. }
    by eapply sublist_NoDup.
  - intros k x. unfold l'. rewrite !list_elem_of_filter. cbn [fst]. rewrite Hin. tauto.
Qed.

End TableIs.

(** ** Tables that an operation leaves alone *)

Section Frames.
Context `{RocksDb} {St : Type} (proj : St → DB) (may : string → Prop).

(** An operation that, whether it fails or not, writes only to tables that [may]
    allows; [proj] is the database of the state. *)
Definition frames {A E} (op : io St A E) : Prop :=
  ∀ s n kb, ¬ may n → get_cf (proj (op s).1) n kb = get_cf (proj s) n kb.

Lemma frames_ret {A E} (a : A) : frames (ret (E := E) a).
Proof. done. Qed.
Lemma frames_throw {A E} (e : E) : frames (throw (A := A) e).
Proof. done. Qed.
Lemma frames_pure {A E} (r : result A E) : frames (pure r).
Proof. done. Qed.
Lemma frames_reads {A E} (f : St → result A E) : frames (reads_state f).
Proof. done. Qed.

Lemma frames_bind {A B E} (c : io St A E) (k : A → io St B E) :
  frames c → (∀ a, frames (k a)) → frames (do? x := c in k x).
Proof.
  intros Hc Hk s n kb Hn. pose proof (Hc s n kb Hn) as Ec. destruct (c s) as [s' [a|e]]; [|done].
  by rewrite (Hk a s' n kb Hn).
Qed.

Lemma frames_err {A E F} (f : E → F) (op : io St A E) : frames op → frames (err_into f op).
Proof. intros Ho s n kb Hn. rewrite <- (Ho s n kb Hn). unfold err_into. by destruct (op s). Qed.

Lemma frames_both {A B E} (a : io St A E) (b : io St B E) : frames a → frames b → frames (and_both a b).
Proof.
  intros Ha Hb s n kb Hn. unfold and_both. pose proof (Ha s n kb Hn) as Ea. destruct (a s) as [s1 ra].
  pose proof (Hb s1 n kb Hn) as Eb. destruct (b s1) as [s2 rb]. cbn in *. congruence.
Qed.

End Frames.

Create HintDb frames.
#[export] Hint Resolve frames_ret frames_throw frames_pure frames_reads frames_err frames_both : frames.

Section TableFrames.
Context `{RocksDbLaws cfs} (S : KeyValueSchema) (d : ColumnFamilyDescriptor).
Context (Hd : d ∈ cfs) (En : cf_name d = name S) (may : string → Prop) (Hmay : may (name S)).

Lemma kv_put_frames k v : frames id may (kv_put S k v).
Proof.
  intros db n kb Hn. unfold kv_put, pure, reads_state, err_into.
  destruct (map_err _ (encode k)) as [key|]; [|done]. destruct (map_err _ (encode v)) as [value|]; [|done].
  destruct (family S db); [|done]. rewrite <- En. destruct (put_cf_ok db d key value Hd) as (db' & -> & E).
  cbn. rewrite E, decide_False; [done|]. rewrite En. by intros [-> _].
Qed.

Lemma kv_merge_frames f k v : cf_merge d = Some f → frames id may (kv_merge S k v).
Proof.
  intros Hf db n kb Hn. unfold kv_merge, pure, reads_state, err_into.
  destruct (map_err _ (encode k)) as [key|]; [|done]. destruct (map_err _ (encode v)) as [value|]; [|done].
  destruct (family S db); [|done]. rewrite <- En. destruct (merge_cf_ok db d f key value Hd Hf) as (db' & -> & E & _).
  cbn. apply E. rewrite En. by intros [-> _].
Qed.

End TableFrames.

(** ** A database in memory *)

Module ConcreteDb.

Section Memory.
Context (cfs : list ColumnFamilyDescriptor).

Definition operator (n : string) : option MergeFn :=
  match find (λ d, bool_decide (cf_name d = n)) cfs with
  | Some d => cf_merge d
  | None => None
  end.

Definition extractor (n : string) : option nat :=
  match find (λ d, bool_decide (cf_name d = n)) cfs with
  | Some d => cf_prefix d
  | None => None
  end.

Definition memory_entries (db : gmap (string * bytes) (option bytes)) (n : string)
    : list (bytes * bytes) :=
  omap (λ e : (string * bytes) * option bytes,
    if decide (e.1.1 = n) then v ← e.2; Some (e.1.2, v) else None) (map_to_list db).

(** [None] is a value that could not be merged. *)
Definition memory_db : RocksDb := {|
  DB := gmap (string * bytes) (option bytes);
  RocksError := string;
  cf_handle _ n := bool_decide (n ∈ map cf_name cfs);
  get_cf db n k :=
    match db !! (n, k) with
    | Some (Some v) => Ok (Some v)
    | Some None => Err "merge failed"%string
    | None => Ok None
    end;
  put_cf db n k v := (<[(n, k) := Some v]> db, Ok ());
  delete_cf db n k := (delete (n, k) db, Ok ());
  merge_cf db n k v :=
    match operator n with
    | Some f =>
        (match db !! (n, k) with
         | Some None => db
         | Some (Some old) => <[(n, k) := f k (Some old) [v]]> db
         | None => <[(n, k) := f k None [v]]> db
         end, Ok ())
    | None => (db, Err "no merge operator"%string)
    end;
  write_cf db batch := (fold_left (λ db e, <[e.1 := Some e.2]> db) batch db, Ok ());
  iterator_cf db n mode := select mode (merge_sort entry_le (memory_entries db n));
  prefix_iterator_cf db n key :=
    let entries := select (RocksFrom key true) (merge_sort entry_le (memory_entries db n)) in
    match extractor n with
    | Some p => filter (λ e, take p e.1 = take p key) entries
    | None => entries
    end
|}.

Lemma memory_entries_spec db n k v :
  (k, v) ∈ memory_entries db n ↔ db !! (n, k) = Some (Some v).
Proof.
  unfold memory_entries. rewrite list_elem_of_omap. split.
  - intros ([[n' k'] o] & Hin & E). apply elem_of_map_to_list in Hin. cbn in E.
    case_decide; [|done]. subst n'. destruct o as [v'|]; [|done]. by injection E as <- <-.
  - intros E. exists ((n, k), Some v). split; [by apply elem_of_map_to_list|]. cbn.
    by rewrite decide_True.
Qed.

Lemma memory_entries_keys db n : NoDup (memory_entries db n).*1.
Proof.
  unfold memory_entries. pose proof (NoDup_fst_map_to_list db) as Hnd.
  induction (map_to_list db) as [|[[n' k] o] l IH]; [constructor|].
  cbn in Hnd. apply NoDup_cons in Hnd as [Hnin Hnd]. cbn. case_decide; [|by apply IH]. subst n'.
  destruct o as [v|]; [|by apply IH]. cbn. apply NoDup_cons. split; [|by apply IH].
  intros Hin. apply Hnin. apply list_elem_of_fmap in Hin as ([k' v'] & -> & Hin).
  apply list_elem_of_omap in Hin as ([[n' k''] o'] & Hin & E). cbn in E.
  case_decide; [|done]. subst n'. destruct o' as [v''|]; [|done]. injection E as -> ->. cbn.
  by apply (list_elem_of_fmap_2 fst) in Hin.
Qed.

Lemma descriptor_ok d :
  NoDup (map cf_name cfs) → d ∈ cfs → find (λ c, bool_decide (cf_name c = cf_name d)) cfs = Some d.
Proof.
  induction cfs as [|c l IH]; intros Hnd Hd; [by apply elem_of_nil in Hd|].
  cbn in *. apply NoDup_cons in Hnd as [Hc Hnd]. apply elem_of_cons in Hd as [->|Hd].
  - by rewrite bool_decide_eq_true_2.
  - rewrite bool_decide_eq_false_2; [by apply IH|]. intros E. apply Hc. rewrite E.
    by apply list_elem_of_fmap_2.
Qed.

Lemma operator_ok d f :
  NoDup (map cf_name cfs) → d ∈ cfs → cf_merge d = Some f → operator (cf_name d) = Some f.
Proof. intros Hnd Hd Hf. unfold operator. by rewrite descriptor_ok. Qed.

Lemma extractor_ok d n :
  NoDup (map cf_name cfs) → d ∈ cfs → cf_prefix d = Some n → extractor (cf_name d) = Some n.
Proof. intros Hnd Hd Hf. unfold extractor. by rewrite descriptor_ok. Qed.

Lemma memory_write (batch : list (string * bytes * bytes)) (db : gmap (string * bytes) (option bytes)) p :
  fold_left (λ db e, <[e.1 := Some e.2]> db) batch db !! p =
  match find (λ e, bool_decide (e.1 = p)) (rev batch) with
  | Some e => Some (Some e.2)
  | None => db !! p
  end.
Proof.
  induction batch as [|e batch IH] using rev_ind; [done|].
  rewrite fold_left_app, rev_app_distr. cbn.
  destruct (decide (e.1 = p)) as [<-|Hne].
  - by rewrite bool_decide_eq_true_2, lookup_insert_eq.
  - by rewrite bool_decide_eq_false_2, lookup_insert_ne.
Qed.

Lemma memory_db_laws : NoDup (map cf_name cfs) → @RocksDbLaws memory_db cfs.
Proof.
  intros Hnd. constructor; cbn [DB cf_handle get_cf put_cf delete_cf merge_cf write_cf iterator_cf
    prefix_iterator_cf memory_db].
  - intros _ d Hd. apply bool_decide_eq_true_2. by apply list_elem_of_fmap_2.
  - intros db d k v Hd. eexists. split; [done|]. intros n' k'. case_decide as E.
    + destruct E as [-> ->]. by rewrite lookup_insert_eq.
    + rewrite lookup_insert_ne; [done|]. intros [= ??]. by apply E.
  - intros db d k Hd. eexists. split; [done|]. intros n' k'. case_decide as E.
    + destruct E as [-> ->]. by rewrite lookup_delete_eq.
    + rewrite lookup_delete_ne; [done|]. intros [= ??]. by apply E.
  - intros db d f k v Hd Hf. rewrite (operator_ok d f) by done. eexists. split; [done|]. split.
    + intros n' k' E. assert ((cf_name d, k) ≠ (n', k')) by (intros [= ??]; by apply E).
      destruct (db !! (cf_name d, k)) as [[old|]|]; [|done|]; by rewrite lookup_insert_ne.
    + intros old new Ho Hn. destruct (db !! (cf_name d, k)) as [[o|]|] eqn:E; [|done|].
      * injection Ho as <-. by rewrite lookup_insert_eq, Hn.
      * injection Ho as <-. by rewrite lookup_insert_eq, Hn.
  - intros db batch _. eexists. split; [done|]. intros n' k'. rewrite memory_write.
    by destruct (find _ _).
  - intros db d Hd. exists (merge_sort entry_le (memory_entries db (cf_name d))).
    split; [apply Sorted_merge_sort, _|]. split.
    { rewrite merge_sort_Permutation. apply memory_entries_keys. }
    split.
    { intros k v. rewrite merge_sort_Permutation, memory_entries_spec.
      destruct (db !! (cf_name d, k)) as [[v'|]|]; split; (done || by intros [= ->]). }
    split; [done|]. intros n key Hn _ _. by rewrite (extractor_ok d n).
Qed.

End Memory.

End ConcreteDb.
