(* ===== verification/Blocks.v ===== *)
(** * Block headers, heads and fitness

    The types of [tezos/messages/src/p2p/encoding/block_header.rs],
    [tezos/messages/src/lib.rs] and [storage/src/lib.rs] that the storages and
    the shell share.  A hash is its bytes. *)

From S2P Require Import Prelude Hash.

(** [Fitness = Vec<Vec<u8>>] *)
Abbreviation Fitness := (list (list Z)).

(** [BlockHeader]; its encoding is declared in [Messages]. *)
Record BlockHeader_t := mkBlockHeader {
  header_level : Z;
  proto : Z;
  header_predecessor : bytes;
  timestamp : Z;
  validation_pass : Z;
  operations_hash : bytes;
  header_fitness : Fitness;
  context : bytes;
  protocol_data : bytes
}.

Record BlockHeaderWithHash := mkBlockHeaderWithHash { hash : bytes; header : BlockHeader_t }.

Record Head := mkHead { block_hash : bytes; head_level : Z; head_fitness : Fitness }.
