(* ===== verification/BlockMeta.v ===== *)
(** * Metadata of blocks: [storage/src/block_meta_storage.rs]

    The record of a block, its bytes, the merge operator on bytes, and the
    operations that create and extend records. *)

From stdpp Require Import gmap.
From S2P Require Import Prelude Hash NomReader Kv Blocks.

(** ** The record and its bytes *)

Record Meta := mkMeta {
  predecessor : option bytes;
  successors : list bytes;
  is_applied : bool;
  level : Z;
  meta_chain_id : bytes
}.

Definition GENESIS_LEVEL : Z := 0.

Definition genesis_meta (genesis_hash genesis_chain_id : bytes) (is_applied : bool) : Meta :=
  mkMeta (Some genesis_hash) [] is_applied GENESIS_LEVEL genesis_chain_id.

Definition meta_new (is_applied : bool) (predecessor : option bytes) (level : Z) (chain_id : bytes)
    : Meta := mkMeta predecessor [] is_applied level chain_id.

Definition is_downloaded (self : Meta) : bool := bool_decide (is_Some (predecessor self)).

Definition set_is_applied (self : Meta) (v : bool) : Meta :=
  mkMeta (predecessor self) (successors self) v (level self) (meta_chain_id self).

Definition LEN_BLOCK_HASH : Z := size BlockHash.
Definition LEN_CHAIN_ID : Z := size ChainId.

Definition MASK_IS_APPLIED : Z := 1.
Definition MASK_HAS_SUCCESSOR : Z := 2.
Definition MASK_HAS_PREDECESSOR : Z := 4.

Definition IDX_MASK : Z := 0.
Definition IDX_PREDECESSOR : Z := IDX_MASK + 1.
Definition IDX_LEVEL : Z := IDX_PREDECESSOR + LEN_BLOCK_HASH.
Definition IDX_CHAIN_ID : Z := IDX_LEVEL + 4.
Definition IDX_SUCCESSOR_COUNT : Z := IDX_CHAIN_ID + LEN_CHAIN_ID.
Definition IDX_SUCCESSOR : Z := IDX_SUCCESSOR_COUNT + 8.

Definition BLANK_BLOCK_HASH : bytes := replicate (Z.to_nat LEN_BLOCK_HASH) 0.
Definition LEN_FIXED_META : Z := 1 + LEN_BLOCK_HASH + 4 + LEN_CHAIN_ID + 8.

Definition total_len (successors_count : Z) : Z := LEN_FIXED_META + successors_count * LEN_BLOCK_HASH.

Definition mask_is_applied (mask : Z) : bool := negb (bool_decide (Z.land mask MASK_IS_APPLIED = 0)).
Definition has_predecessor (mask : Z) : bool :=
  negb (bool_decide (Z.land mask MASK_HAS_PREDECESSOR = 0)).
Definition has_successor (mask : Z) : bool :=
  negb (bool_decide (Z.land mask MASK_HAS_SUCCESSOR = 0)).
Definition successors_count (bytes : bytes) : option Z := num_from_slice bytes IDX_SUCCESSOR_COUNT 8.

(** The hashes from [idx] on: [count] of them. *)
Fixpoint read_successors (bytes : bytes) (count : nat) (idx : Z) : result (list (list Z)) SchemaError :=
  match count with
  | O => Ok []
  | S count =>
      let? h := ok_or (slice bytes idx (idx + LEN_BLOCK_HASH)) SchemaPanic in
      let? h := map_err (λ _, DecodeError) (try_from_bytes BlockHash h) in
      let? rest := read_successors bytes count (idx + LEN_BLOCK_HASH) in
      Ok (h :: rest)
  end.

Definition meta_decode (bytes : bytes) : result Meta SchemaError :=
  if decide (LEN_FIXED_META ≤ len bytes) then
    let? mask := ok_or (bytes !! Z.to_nat IDX_MASK) SchemaPanic in
    let is_processed := mask_is_applied mask in
    let? predecessor :=
      if has_predecessor mask then
        let? block_hash := ok_or (slice bytes IDX_PREDECESSOR IDX_LEVEL) SchemaPanic in
        let? block_hash := map_err (λ _, DecodeError) (try_from_bytes BlockHash block_hash) in
        Ok (Some block_hash)
      else Ok None in
    let? level := ok_or (num_from_slice bytes IDX_LEVEL 4) SchemaPanic in
    let? chain_id := ok_or (slice bytes IDX_CHAIN_ID IDX_SUCCESSOR_COUNT) SchemaPanic in
    let? count := ok_or (successors_count bytes) SchemaPanic in
    let? successors :=
      if has_successor mask then read_successors bytes (Z.to_nat count) IDX_SUCCESSOR else Ok [] in
    let? chain_id := map_err (λ _, DecodeError) (try_from_bytes ChainId chain_id) in
    Ok (mkMeta predecessor successors is_processed (to_signed 32 level) chain_id)
  else Err DecodeError.

Definition meta_mask (self : Meta) : Z :=
  Z.lor
    (Z.lor (if is_applied self then MASK_IS_APPLIED else 0)
       (if bool_decide (is_Some (predecessor self)) then MASK_HAS_PREDECESSOR else 0))
    (if bool_decide (successors self = []) then 0 else MASK_HAS_SUCCESSOR).

(** The bytes under a given mask; [encode] uses [meta_mask]. *)
Definition meta_bytes (mask : Z) (self : Meta) : bytes :=
  mask :: default BLANK_BLOCK_HASH (predecessor self) ++ be_bytes 4 (level self) ++ meta_chain_id self ++
    be_bytes 8 (len (successors self)) ++ concat (successors self).

Definition meta_encode (self : Meta) : result bytes SchemaError :=
  Ok (meta_bytes (meta_mask self) self).

(** ** The merge operator *)

(** One operand.  [None] where the operator gives up, or indexes out of range. *)
Definition merge_operand (val op : bytes) : option bytes :=
  if decide (len op < LEN_FIXED_META) then None
  else
    mask_val ← val !! Z.to_nat IDX_MASK;
    mask_op ← op !! Z.to_nat IDX_MASK;
    (* merge mask *)
    let val := <[Z.to_nat IDX_MASK := Z.lor mask_val mask_op]> val in
    (* if op has predecessor and val has not, copy it from op to val *)
    val ← (if has_predecessor mask_op && negb (has_predecessor mask_val) then
             p ← slice op IDX_PREDECESSOR IDX_LEVEL;
             if decide (IDX_LEVEL ≤ len val) then
               Some (take (Z.to_nat IDX_PREDECESSOR) val ++ p ++ drop (Z.to_nat IDX_LEVEL) val)
             else None
           else Some val);
    (* replace op (successors count + successors) to val *)
    val_successors_count ← successors_count val;
    op_successors_count ← successors_count op;
    if (has_successor mask_op && negb (has_successor mask_val))
       || bool_decide (val_successors_count ≠ op_successors_count)
    then
      let val := take (Z.to_nat LEN_FIXED_META) val in
      Some (take (Z.to_nat IDX_SUCCESSOR_COUNT) val ++ drop (Z.to_nat IDX_SUCCESSOR_COUNT) op)
    else Some val.

Fixpoint merge_operands (result : option bytes) (operands : list bytes) : option bytes :=
  match operands with
  | [] => result
  | op :: operands =>
      match result with
      | Some val => val ← merge_operand val op; merge_operands (Some val) operands
      | None => merge_operands (Some op) operands
      end
  end.

Definition merge_meta_value : MergeFn := λ _ existing_val operands,
  match existing_val with
  | Some val => if decide (len val < LEN_FIXED_META) then None else merge_operands (Some val) operands
  | None => merge_operands None operands
  end.

(** ** Layout *)

Definition meta_ok (m : Meta) : Prop :=
  (∀ p, predecessor m = Some p → hash_ok BlockHash p) ∧
  Forall (hash_ok BlockHash) (successors m) ∧
  int_range 32 (level m) ∧ hash_ok ChainId (meta_chain_id m) ∧ uint_range 64 (len (successors m)).

Lemma slice_app a b c : slice (a ++ b ++ c) (len a) (len a + len b) = Some b.
Proof.
  unfold slice. rewrite !len_app.
  pose proof (len_nonneg a). pose proof (len_nonneg b). pose proof (len_nonneg c).
  rewrite decide_True by lia. replace (len a + len b - len a) with (len b) by lia.
  rewrite !len_nat, drop_app_length, take_app_length. done.
Qed.

Lemma slice_at s a b c i j :
  s = a ++ b ++ c → i = len a → j = len a + len b → slice s i j = Some b.
Proof. intros -> -> ->. apply slice_app. Qed.

Lemma len_pred_bytes m :
  meta_ok m → len (default BLANK_BLOCK_HASH (predecessor m)) = LEN_BLOCK_HASH.
Proof. intros (Hp & _). destruct (predecessor m) as [p|]; [by apply Hp|done]. Qed.

Lemma len_concat_successors l :
  Forall (hash_ok BlockHash) l → len (concat l) = LEN_BLOCK_HASH * len l.
Proof.
  induction 1 as [|h l Hh Hl IH]; [done|]. cbn [concat]. rewrite len_app, len_cons, IH, Hh.
  unfold LEN_BLOCK_HASH. lia.
Qed.

Lemma len_meta_bytes mask m : meta_ok m → len (meta_bytes mask m) = total_len (len (successors m)).
Proof.
  intros Hm. pose proof (len_pred_bytes m Hm) as Hp. destruct Hm as (_ & Hs & _ & Hc & _).
  unfold meta_bytes. rewrite len_cons, !len_app, Hp, !len_be_bytes, Hc, len_concat_successors by done.
  unfold total_len, LEN_FIXED_META, LEN_CHAIN_ID. lia.
Qed.

Lemma meta_bytes_long mask m : meta_ok m → LEN_FIXED_META ≤ len (meta_bytes mask m).
Proof.
  intros Hm. rewrite len_meta_bytes by done. pose proof (len_nonneg (successors m)).
  unfold total_len, LEN_BLOCK_HASH. cbn [size]. lia.
Qed.

(** The five parts of the bytes, at their indices. *)
Section Layout.
Context (mask : Z) (m : Meta) (Hm : meta_ok m).

Let p := default BLANK_BLOCK_HASH (predecessor m).
Let tail := be_bytes 8 (len (successors m)) ++ concat (successors m).

Lemma meta_pred_slice : slice (meta_bytes mask m) IDX_PREDECESSOR IDX_LEVEL = Some p.
Proof.
  apply (slice_at _ [mask] p (be_bytes 4 (level m) ++ meta_chain_id m ++ tail)); [done|done|].
  unfold p. by rewrite len_pred_bytes.
Qed.

Lemma meta_level : num_from_slice (meta_bytes mask m) IDX_LEVEL 4 = Some (level m mod 2 ^ 32).
Proof.
  unfold num_from_slice.
  rewrite (slice_at _ (mask :: p) (be_bytes 4 (level m)) (meta_chain_id m ++ tail)).
  - cbn [fmap option_fmap option_map]. by rewrite be_val_be_bytes.
  - done.
  - unfold p. rewrite len_cons, len_pred_bytes by done. done.
  - unfold p. rewrite len_cons, len_pred_bytes, len_be_bytes by done. done.
Qed.

Lemma meta_chain_slice :
  slice (meta_bytes mask m) IDX_CHAIN_ID IDX_SUCCESSOR_COUNT = Some (meta_chain_id m).
Proof.
  destruct Hm as (_ & _ & _ & Hc & _).
  apply (slice_at _ ((mask :: p) ++ be_bytes 4 (level m)) (meta_chain_id m) tail).
  - rewrite <- !app_assoc. done.
  - unfold p. rewrite len_app, len_cons, len_pred_bytes, len_be_bytes by done. done.
  - unfold p. rewrite len_app, len_cons, len_pred_bytes, len_be_bytes, Hc by done. done.
Qed.

Lemma meta_head_len : length ((mask :: p) ++ be_bytes 4 (level m) ++ meta_chain_id m) = Z.to_nat IDX_SUCCESSOR_COUNT.
Proof.
  rewrite <- len_nat. f_equal. destruct Hm as (_ & _ & _ & Hc & _).
  unfold p. rewrite !len_app, len_cons, len_pred_bytes, len_be_bytes, Hc by done. done.
Qed.

Lemma meta_bytes_split :
  meta_bytes mask m = ((mask :: p) ++ be_bytes 4 (level m) ++ meta_chain_id m) ++ tail.
Proof. unfold meta_bytes, tail. by rewrite <- !app_assoc. Qed.

Lemma meta_count : successors_count (meta_bytes mask m) = Some (len (successors m)).
Proof.
  unfold successors_count, num_from_slice.
  rewrite (slice_at _ ((mask :: p) ++ be_bytes 4 (level m) ++ meta_chain_id m)
    (be_bytes 8 (len (successors m))) (concat (successors m))).
  - cbn [fmap option_fmap option_map]. rewrite be_val_be_bytes, Z.mod_small; [done|].
    destruct Hm as (_ & _ & _ & _ & Hu). apply Hu.
  - rewrite meta_bytes_split. done.
  - unfold len at 1. rewrite meta_head_len. done.
  - unfold len at 1. rewrite meta_head_len, len_be_bytes. done.
Qed.

Lemma meta_read_successors :
  read_successors (meta_bytes mask m) (length (successors m)) IDX_SUCCESSOR = Ok (successors m).
Proof.
  pose proof Hm as (_ & Hs & _ & _ & _).
  assert (∀ done_ todo, Forall (hash_ok BlockHash) todo →
    read_successors (done_ ++ concat todo) (length todo) (len done_) = Ok todo) as Hgen.
  { clear. intros d l Hl. revert d. induction Hl as [|h l Hh Hl IH]; intros d; [done|].
    cbn [read_successors length concat].
    rewrite (slice_at _ d h (concat l)); [|done|done|by rewrite Hh]. cbn [ok_or].
    unfold try_from_bytes. rewrite decide_True by done. cbn [map_err].
    specialize (IH (d ++ h)). rewrite <- app_assoc, len_app, Hh in IH.
    change (size BlockHash) with LEN_BLOCK_HASH in IH. by rewrite IH. }
  rewrite meta_bytes_split. unfold tail. rewrite app_assoc.
  replace IDX_SUCCESSOR with
    (len (((mask :: p) ++ be_bytes 4 (level m) ++ meta_chain_id m) ++ be_bytes 8 (len (successors m)))).
  - by apply Hgen.
  - rewrite len_app, len_be_bytes. unfold len at 1. rewrite meta_head_len. done.
Qed.

End Layout.

(** Which bytes stand for a record: [encode] gives such bytes, and the bytes
    after a merge are such; the bit for successors may stay set when the last
    successor is gone. *)
Definition represents (b : bytes) (m : Meta) : Prop :=
  meta_ok m ∧ ∃ mask, b = meta_bytes mask m ∧
    mask_is_applied mask = is_applied m ∧
    has_predecessor mask = bool_decide (is_Some (predecessor m)) ∧
    (successors m ≠ [] → has_successor mask = true).

Lemma encode_represents m b : meta_ok m → meta_encode m = Ok b → represents b m.
Proof.
  intros Hm [= <-]. split; [done|]. exists (meta_mask m). split; [done|]. unfold meta_mask.
  destruct m as [[p|] [|s l] [] ? ?]; repeat split; try done.
Qed.

Lemma represents_decode b m : represents b m → meta_decode b = Ok m.
Proof.
  intros (Hm & mask & -> & Ha & Hp & Hs). unfold meta_decode.
  rewrite decide_True by (by apply meta_bytes_long). cbn [lookup ok_or].
  change (meta_bytes mask m !! Z.to_nat IDX_MASK) with (Some mask). cbn [ok_or].
  rewrite Ha, Hp, meta_pred_slice, meta_level, meta_chain_slice, meta_count by done.
  cbn [ok_or]. pose proof Hm as (Hph & Hsh & Hl & Hc & _).
  assert ((if bool_decide (is_Some (predecessor m)) then
      let? block_hash := map_err (λ _, DecodeError)
        (try_from_bytes BlockHash (default BLANK_BLOCK_HASH (predecessor m))) in
      Ok (Some block_hash) else Ok None) = @Ok _ SchemaError (predecessor m)) as ->.
  { destruct (predecessor m) as [p|]; [|done]. cbn. unfold try_from_bytes.
    by rewrite decide_True by (by apply Hph). }
  assert ((if has_successor mask then
      read_successors (meta_bytes mask m) (Z.to_nat (len (successors m))) IDX_SUCCESSOR
      else Ok []) = Ok (successors m)) as ->.
  { rewrite len_nat. destruct (has_successor mask) eqn:E; [by apply meta_read_successors|].
    destruct (successors m) as [|s l] eqn:El; [done|].
    by specialize (Hs ltac:(done)). }
  unfold try_from_bytes. rewrite decide_True by done. cbn [map_err].
  rewrite to_signed_mod by (done || lia). by destruct m.
Qed.

(** ** The merge operator against a merge of records *)

(** Applied once, applied for ever; a predecessor is never replaced; other
    successors replace the stored ones only if their number differs. *)
Definition merge_meta (v o : Meta) : Meta :=
  mkMeta (match predecessor v with Some p => Some p | None => predecessor o end)
    (if decide (length (successors v) = length (successors o)) then successors v else successors o)
    (is_applied v || is_applied o) (level v) (meta_chain_id v).

Definition merge_into (v : option Meta) (o : Meta) : Meta :=
  match v with Some v => merge_meta v o | None => o end.

Lemma merge_meta_ok v o : meta_ok v → meta_ok o → meta_ok (merge_meta v o).
Proof.
  intros (P1 & S1 & L1 & C1 & N1) (P2 & S2 & L2 & C2 & N2).
  unfold meta_ok, merge_meta. cbn [predecessor successors level meta_chain_id].
  split; [destruct (predecessor v); eauto|]. by case_decide.
Qed.

Lemma flag_lor a b f :
  negb (bool_decide (Z.land (Z.lor a b) f = 0))
  = negb (bool_decide (Z.land a f = 0)) || negb (bool_decide (Z.land b f = 0)).
Proof.
  rewrite Z.land_lor_distr_l. rewrite <- negb_andb, <- bool_decide_and. f_equal.
  apply bool_decide_ext. apply Z.lor_eq_0_iff.
Qed.

(** The copy of the predecessor. *)
Lemma splice_predecessor mask v (o : Meta) :
  meta_ok v → meta_ok o → predecessor v = None →
  let b := meta_bytes mask v in
  take (Z.to_nat IDX_PREDECESSOR) b ++ default BLANK_BLOCK_HASH (predecessor o)
    ++ drop (Z.to_nat IDX_LEVEL) b
  = meta_bytes mask (mkMeta (predecessor o) (successors v) (is_applied v) (level v) (meta_chain_id v)).
Proof.
  intros Hv Ho Hp b. subst b. unfold meta_bytes. cbn [predecessor successors level meta_chain_id].
  change (Z.to_nat IDX_PREDECESSOR) with 1%nat. cbn [take].
  rewrite Hp. cbn [default]. rewrite app_comm_cons.
  change (Z.to_nat IDX_LEVEL) with (length (mask :: BLANK_BLOCK_HASH)).
  rewrite drop_app_length. done.
Qed.

(** The replacement of the successors. *)
Lemma splice_successors mask v mask' o :
  meta_ok v → meta_ok o →
  take (Z.to_nat IDX_SUCCESSOR_COUNT) (take (Z.to_nat LEN_FIXED_META) (meta_bytes mask v))
    ++ drop (Z.to_nat IDX_SUCCESSOR_COUNT) (meta_bytes mask' o)
  = meta_bytes mask (mkMeta (predecessor v) (successors o) (is_applied v) (level v) (meta_chain_id v)).
Proof.
  intros Hv Ho. rewrite take_take. change (_ `min` _)%nat with (Z.to_nat IDX_SUCCESSOR_COUNT).
  rewrite !meta_bytes_split.
  rewrite take_app_length' by (by rewrite (meta_head_len mask v)).
  rewrite drop_app_length' by (by rewrite (meta_head_len mask' o)). done.
Qed.

(** [v] with the predecessor of [o] where it has none. *)
Definition fill_predecessor (v o : Meta) : Meta :=
  mkMeta (match predecessor v with Some p => Some p | None => predecessor o end)
    (successors v) (is_applied v) (level v) (meta_chain_id v).

Lemma fill_predecessor_ok v o : meta_ok v → meta_ok o → meta_ok (fill_predecessor v o).
Proof.
  intros (P1 & Q1) (P2 & _). split; [|done]. cbn [predecessor fill_predecessor].
  destruct (predecessor v); eauto.
Qed.

Lemma merge_predecessor mask mo v o :
  meta_ok v → meta_ok o →
  (if bool_decide (is_Some (predecessor o)) && negb (bool_decide (is_Some (predecessor v))) then
     p ← slice (meta_bytes mo o) IDX_PREDECESSOR IDX_LEVEL;
     if decide (IDX_LEVEL ≤ len (meta_bytes mask v)) then
       Some (take (Z.to_nat IDX_PREDECESSOR) (meta_bytes mask v) ++ p
         ++ drop (Z.to_nat IDX_LEVEL) (meta_bytes mask v))
     else None
   else Some (meta_bytes mask v)) = Some (meta_bytes mask (fill_predecessor v o)).
Proof.
  intros Hv Ho. rewrite meta_pred_slice by done. cbn [mbind option_bind].
  rewrite decide_True
    by (apply Z.le_trans with LEN_FIXED_META; [done|by apply meta_bytes_long]).
  destruct (predecessor v) as [p|] eqn:Ev.
  - rewrite andb_false_r by done. unfold fill_predecessor. rewrite Ev. destruct v; cbn in *; by subst.
  - destruct (predecessor o) as [p|] eqn:Eo; cbn [bool_decide andb negb is_Some_dec decide_rel].
    + rewrite <- Eo, splice_predecessor by done. unfold fill_predecessor. by rewrite Ev.
    + unfold fill_predecessor. rewrite Ev, Eo. destruct v; cbn in *; by subst.
Qed.

Lemma merge_operand_represents val op v o :
  represents val v → represents op o →
  ∃ val', merge_operand val op = Some val' ∧ represents val' (merge_meta v o).
Proof.
  intros (Hv & mv & -> & Av & Pv & Sv) (Ho & mo & -> & Ao & Po & So).
  unfold merge_operand. rewrite decide_False by (pose proof (meta_bytes_long mo o Ho); lia).
  change (meta_bytes mv v !! Z.to_nat IDX_MASK) with (Some mv).
  change (meta_bytes mo o !! Z.to_nat IDX_MASK) with (Some mo). cbn [mbind option_bind].
  change (<[Z.to_nat IDX_MASK:=Z.lor mv mo]> (meta_bytes mv v)) with (meta_bytes (Z.lor mv mo) v).
  rewrite Pv, Po, merge_predecessor by done. cbn [mbind option_bind].
  pose proof (fill_predecessor_ok v o Hv Ho) as Hf. rewrite !meta_count by done.
  cbn [mbind option_bind successors fill_predecessor].
  assert (∀ succs, succs = (if decide (length (successors v) = length (successors o))
      then successors v else successors o) →
    represents (meta_bytes (Z.lor mv mo) (mkMeta (predecessor (fill_predecessor v o)) succs
      (is_applied v) (level v) (meta_chain_id v))) (merge_meta v o)) as Hrep.
  { intros succs ->. split; [by apply merge_meta_ok|]. exists (Z.lor mv mo). split; [done|].
    unfold mask_is_applied, has_predecessor, has_successor in *.
    rewrite !flag_lor, Av, Ao, Pv, Po. cbn [is_applied predecessor successors merge_meta].
    split; [done|]. split; [by destruct (predecessor v), (predecessor o)|].
    intros Hs. apply orb_true_iff. case_decide; auto. }
  destruct (_ || _) eqn:Ec.
  - rewrite splice_successors by done. eexists. split; [done|]. apply Hrep.
    case_decide as El; [|done]. apply orb_true_iff in Ec as [Ec|Ec].
    + apply andb_true_iff in Ec as [E1 E2]. destruct (successors v) as [|s l].
      * by destruct (successors o).
      * rewrite Sv in E2 by done. done.
    + apply bool_decide_eq_true in Ec. unfold len in Ec. lia.
  - eexists. split; [done|]. apply Hrep. apply orb_false_iff in Ec as [_ Ec].
    apply bool_decide_eq_false in Ec. rewrite decide_True; [done|]. unfold len in Ec. lia.
Qed.

Lemma merge_operands_represents val v obs os :
  represents val v → Forall2 represents obs os →
  ∃ val', merge_operands (Some val) obs = Some val' ∧ represents val' (fold_left merge_meta os v).
Proof.
  intros Hv Hos. revert val v Hv. induction Hos as [|op o obs os Ho Hos IH]; intros val v Hv; cbn.
  - by exists val.
  - destruct (merge_operand_represents val op v o Hv Ho) as (val' & -> & Hv'). cbn.
    by apply IH.
Qed.

(** What is stored under a key: nothing, or bytes that stand for a record. *)
Definition stored (val : option bytes) (v : option Meta) : Prop :=
  match val, v with
  | Some val, Some v => represents val v
  | None, None => True
  | _, _ => False
  end.

Lemma merge_value_represents key val v obs o os :
  stored val v → Forall2 represents obs (o :: os) →
  ∃ val', merge_meta_value key val obs = Some val' ∧
    represents val' (fold_left merge_meta os (merge_into v o)).
Proof.
  intros Hv Hos. unfold merge_meta_value. inversion_clear Hos as [|ob ? obs' ? Ho Hos'].
  destruct val as [val|], v as [v|]; try done.
  - rewrite decide_False.
    + destruct (merge_operand_represents val ob v o Hv Ho) as (val' & E & Hv').
      cbn [merge_operands]. rewrite E. cbn. by apply merge_operands_represents.
    + destruct Hv as (Hv & mask & -> & _). pose proof (meta_bytes_long mask v Hv). lia.
  - cbn [merge_operands merge_into]. by apply merge_operands_represents.
Qed.

(** The merge operator on bytes implements the merge of records.  If the
    stored bytes stand for a record [v] (or there is none) and the operands are
    the encodings of records, the operator succeeds, its result is decoded to
    the merge of the records in order, and has the length that goes with its
    number of successors. *)
Theorem merge_refines key val v obs o os :
  stored val v → Forall meta_ok (o :: os) →
  Forall2 (λ b m, meta_encode m = Ok b) obs (o :: os) →
  ∃ val', merge_meta_value key val obs = Some val' ∧
    let m := fold_left merge_meta os (merge_into v o) in
    meta_decode val' = Ok m ∧ len val' = total_len (len (successors m)).
Proof.
  intros Hv Hok Hos.
  destruct (merge_value_represents key val v obs o os Hv) as (val' & E & Hr).
  - clear Hv. revert Hok. induction Hos as [|b m obs ms Hb Hos IH]; intros Hok; [done|].
    inversion_clear Hok. constructor; [by apply encode_represents|by apply IH].
  - exists val'. split; [done|]. split; [by apply represents_decode|].
    destruct Hr as (Hm & mask & -> & _). by apply len_meta_bytes.
Qed.

(** ** The storage *)

#[local] Instance meta_codec : Codec Meta := {| encode := meta_encode; decode := meta_decode |}.

#[export] Instance meta_codec_laws : CodecLaws Meta meta_ok.
Proof.
  constructor. intros m Hm. eexists. split; [reflexivity|]. cbn.
  apply represents_decode, (encode_represents m); done.
Qed.

Definition BlockMetaStorage : KeyValueSchema :=
  mkSchema bytes Meta (hash_codec BlockHash) meta_codec "block_meta_storage".

Definition block_meta_descriptor : ColumnFamilyDescriptor :=
  mkColumnFamily "block_meta_storage" (Some merge_meta_value).

(** [i32] arithmetic in release builds *)
Definition wrap_i32 (v : Z) : Z := to_signed 32 (v mod 2 ^ 32).

Section Storage.
Context `{RocksDb}.

Definition put (block_hash : bytes) (meta : Meta) : io DB () StorageError :=
  err_into StorageDBError (kv_merge BlockMetaStorage block_hash meta).

Definition get (block_hash : bytes) (db : DB) : result (option Meta) StorageError :=
  map_err StorageDBError (kv_get BlockMetaStorage block_hash db).

Definition contains (block_hash : bytes) (db : DB) : result bool StorageError :=
  map_err StorageDBError (kv_contains BlockMetaStorage block_hash db).

Definition is_applied_block (block_hash : bytes) (db : DB) : result bool StorageError :=
  match get block_hash db with
  | Ok (Some meta) => Ok (is_applied meta)
  | Ok None => Ok false
  | Err e => Err e
  end.

(** The record of the block itself. *)
Definition put_own_record (block_header : BlockHeaderWithHash) (chain_id : bytes)
    : io DB Meta StorageError :=
  let block_predecessor := header_predecessor (header block_header) in
  do? stored := reads_state (get (hash block_header)) in
  match stored with
  | Some meta =>
      match predecessor meta with
      | None =>
          let meta := mkMeta (Some block_predecessor) (successors meta) (is_applied meta)
                        (level meta) (meta_chain_id meta) in
          do? _ := put (hash block_header) meta in
          ret meta
      | Some _ => ret meta
      end
  | None =>
      let meta := mkMeta (Some block_predecessor) [] false (header_level (header block_header)) chain_id in
      do? _ := put (hash block_header) meta in
      ret meta
  end.

(** The record of its predecessor. *)
Definition put_predecessor_record (block_header : BlockHeaderWithHash) (chain_id : bytes)
    : io DB () StorageError :=
  let block_predecessor := header_predecessor (header block_header) in
  do? stored := reads_state (get block_predecessor) in
  match stored with
  | Some meta =>
      let need_change :=
        bool_decide (successors meta = []) || negb (bool_decide (hash block_header ∈ successors meta)) in
      if need_change then
        put block_predecessor
          (mkMeta (predecessor meta) (successors meta ++ [hash block_header]) (is_applied meta)
             (level meta) (meta_chain_id meta))
      else ret ()
  | None =>
      put block_predecessor
        (mkMeta None [hash block_header] false
           (wrap_i32 (header_level (header block_header) - 1)) chain_id)
  end.

Definition put_block_header (block_header : BlockHeaderWithHash) (chain_id : bytes)
    : io DB Meta StorageError :=
  do? block_metadata := put_own_record block_header chain_id in
  do? _ := put_predecessor_record block_header chain_id in
  ret block_metadata.

End Storage.

(** ** The storage against a map of records *)

Section Records.
Context `{RocksDbLaws cfs} (Hopen : block_meta_descriptor ∈ cfs).

#[local] Instance block_meta_table : Table cfs BlockMetaStorage (hash_ok BlockHash) meta_ok.
Proof. split; [by exists block_meta_descriptor|apply hash_codec_laws|apply meta_codec_laws]. Qed.

(** The column family holds the records [M]. *)
Definition holds (db : DB) (M : gmap bytes Meta) : Prop :=
  ∀ h, hash_ok BlockHash h → ∃ val, get_cf db (name BlockMetaStorage) h = Ok val ∧ stored val (M !! h).

Lemma meta_get_holds db M h : holds db M → hash_ok BlockHash h → get h db = Ok (M !! h).
Proof.
  intros HM Hh. destruct (HM h Hh) as (val & E & Hs). unfold get.
  rewrite (kv_get_raw BlockMetaStorage h h) by done. rewrite E.
  destruct val as [b|], (M !! h) as [m|]; try done. cbn.
  by rewrite (represents_decode b m Hs).
Qed.

Lemma put_holds db M h o :
  holds db M → hash_ok BlockHash h → meta_ok o →
  ∃ db', put h o db = (db', Ok ()) ∧ holds db' (<[h := merge_into (M !! h) o]> M) ∧
    ∀ n' kb, n' ≠ name BlockMetaStorage → get_cf db' n' kb = get_cf db n' kb.
Proof.
  intros HM Hh Ho. destruct (HM h Hh) as (val & E & Hs).
  destruct (merge_value_represents h val (M !! h) [meta_bytes (meta_mask o) o] o []) as (val' & Em & Hr);
    [done|constructor; [by apply encode_represents|constructor]|].
  destruct (kv_merge_ok BlockMetaStorage block_meta_descriptor merge_meta_value h h o
    (meta_bytes (meta_mask o) o) db) as (db' & Ek & Eg & Eo); try done.
  exists db'. unfold put, err_into. rewrite Ek. split; [done|]. split.
  - intros h' Hh'. destruct (decide (h' = h)) as [->|Hne].
    + exists (Some val'). rewrite lookup_insert_eq. split; [by apply (Eg val)|done].
    + rewrite lookup_insert_ne, Eo by (done || by intros [_ ?]). by apply HM.
  - intros n' kb Hn. apply Eo. by intros [? _].
Qed.

End Records.

(** ** What a sequence of headers builds *)

Definition own_record (M : gmap bytes Meta) (b : BlockHeaderWithHash) (chain_id : bytes) : Meta :=
  let p := Some (header_predecessor (header b)) in
  match M !! hash b with
  | Some m =>
      match predecessor m with
      | None => mkMeta p (successors m) (is_applied m) (level m) (meta_chain_id m)
      | Some _ => m
      end
  | None => mkMeta p [] false (header_level (header b)) chain_id
  end.

Definition predecessor_record (M : gmap bytes Meta) (b : BlockHeaderWithHash) (chain_id : bytes) : Meta :=
  match M !! header_predecessor (header b) with
  | Some m =>
      if decide (hash b ∈ successors m) then m
      else mkMeta (predecessor m) (successors m ++ [hash b]) (is_applied m) (level m) (meta_chain_id m)
  | None =>
      mkMeta None [hash b] false (wrap_i32 (header_level (header b) - 1)) chain_id
  end.

Definition records_after (M : gmap bytes Meta) (b : BlockHeaderWithHash) (chain_id : bytes)
    : gmap bytes Meta :=
  let M := <[hash b := own_record M b chain_id]> M in
  <[header_predecessor (header b) := predecessor_record M b chain_id]> M.

Definition header_ok (b : BlockHeaderWithHash) : Prop :=
  hash_ok BlockHash (hash b) ∧ hash_ok BlockHash (header_predecessor (header b)) ∧
  int_range 32 (header_level (header b)).

(** No record has more than [n] successors. *)
Definition records_ok (n : Z) (M : gmap bytes Meta) : Prop :=
  map_Forall (λ _ m, meta_ok m ∧ len (successors m) ≤ n) M.

Lemma wrap_i32_range v : int_range 32 (wrap_i32 v).
Proof.
  unfold wrap_i32, to_signed, int_range. pose proof (Z.mod_pos_bound v (2 ^ 32) ltac:(lia)).
  case_decide; lia.
Qed.

Lemma merge_same m : merge_meta m m = m.
Proof.
  destruct m as [p s a l c]. unfold merge_meta. cbn [predecessor successors is_applied level meta_chain_id].
  rewrite decide_True, orb_diag by done. by destruct p.
Qed.

Lemma merge_grown m o :
  length (successors m) ≠ length (successors o) → predecessor o = predecessor m →
  is_applied o = is_applied m → level o = level m → meta_chain_id o = meta_chain_id m →
  merge_meta m o = o.
Proof.
  destruct m as [p s a l c], o as [p' s' a' l' c']. cbn. intros Hs -> -> -> ->. unfold merge_meta. cbn.
  rewrite decide_False, orb_diag by done. by destruct p.
Qed.

Lemma own_record_ok n M b c :
  0 ≤ n → records_ok n M → header_ok b → hash_ok ChainId c →
  meta_ok (own_record M b c) ∧ len (successors (own_record M b c)) ≤ n.
Proof.
  intros Hn HM (Hh & Hp & Hl) Hc. unfold own_record. destruct (M !! hash b) as [m|] eqn:E.
  - destruct (HM _ _ E) as [Hm Hle]. destruct (predecessor m) eqn:Ep; [done|]. split; [|done].
    destruct Hm as (_ & Hm). split; [|done]. by intros p [= <-].
  - split; [|done]. repeat split; try done; try apply Hl. by intros p [= <-].
Qed.

Lemma predecessor_record_ok n M b c :
  0 ≤ n → n + 1 < 2 ^ 64 → records_ok n M → header_ok b → hash_ok ChainId c →
  meta_ok (predecessor_record M b c) ∧ len (successors (predecessor_record M b c)) ≤ n + 1.
Proof.
  intros Hn Hn1 HM (Hh & Hp & Hl) Hc. unfold predecessor_record.
  destruct (M !! header_predecessor (header b)) as [m|] eqn:E.
  - destruct (HM _ _ E) as [Hm Hle]. case_decide as Hin; [split; [done|lia]|].
    destruct Hm as (H1 & H2 & H3 & H4 & H5). cbn [successors]. rewrite len_app, len_cons, len_nil.
    split; [|lia]. split; [exact H1|]. split; [apply Forall_app; split; [done|by constructor]|].
    split; [exact H3|]. split; [exact H4|]. unfold uint_range. cbn [successors].
    rewrite len_app. change (len [hash b]) with 1. pose proof (len_nonneg (successors m)). lia.
  - cbn [successors]. rewrite len_cons, len_nil. split; [|lia].
    repeat split; cbn; try done; try apply wrap_i32_range. by constructor.
Qed.

Lemma insert_records_ok n M h m :
  records_ok n M → meta_ok m → len (successors m) ≤ n → records_ok n (<[h := m]> M).
Proof. intros HM Hm Hl. by apply map_Forall_insert_2. Qed.

Lemma records_ok_mono n n' M : n ≤ n' → records_ok n M → records_ok n' M.
Proof. intros Hn HM h m E. destruct (HM h m E). split; [done|lia]. Qed.

Lemma records_after_ok n M b c :
  0 ≤ n → n + 1 < 2 ^ 64 → records_ok n M → header_ok b → hash_ok ChainId c →
  records_ok (n + 1) (records_after M b c).
Proof.
  intros Hn Hn1 HM Hb Hc. unfold records_after.
  destruct (own_record_ok n M b c) as [O1 O2]; [done..|].
  assert (records_ok n (<[hash b := own_record M b c]> M)) as HM1 by (by apply insert_records_ok).
  destruct (predecessor_record_ok n (<[hash b := own_record M b c]> M) b c) as [P1 P2]; [done..|].
  apply insert_records_ok; [|done|done]. eapply records_ok_mono; [|done]. lia.
Qed.

Section Steps.
Context `{RocksDbLaws cfs} (Hopen : block_meta_descriptor ∈ cfs).

Lemma put_own_record_holds n db M b c :
  0 ≤ n → records_ok n M → header_ok b → hash_ok ChainId c → holds db M →
  ∃ db', put_own_record b c db = (db', Ok (own_record M b c)) ∧
    holds db' (<[hash b := own_record M b c]> M).
Proof.
  intros Hn HM Hb Hc Hdb. pose proof Hb as (Hh & Hp & Hl).
  destruct (own_record_ok n M b c) as [Ho _]; [done..|].
  unfold put_own_record, reads_state, ret. rewrite (meta_get_holds Hopen db M) by done.
  unfold own_record in *. destruct (M !! hash b) as [m|] eqn:E.
  - destruct (predecessor m) eqn:Ep.
    + exists db. split; [done|]. by rewrite insert_id.
    + destruct (put_holds Hopen db M (hash b) _ Hdb Hh Ho) as (db' & -> & Hdb' & _).
      exists db'. split; [done|]. rewrite E in Hdb'. cbn [merge_into] in Hdb'.
      unfold merge_meta in Hdb'. cbn [predecessor successors is_applied level meta_chain_id] in Hdb'.
      rewrite Ep, decide_True, orb_diag in Hdb' by done. exact Hdb'.
  - destruct (put_holds Hopen db M (hash b) _ Hdb Hh Ho) as (db' & -> & Hdb' & _).
    exists db'. split; [done|]. by rewrite E in Hdb'.
Qed.

Lemma put_predecessor_record_holds n db M b c :
  0 ≤ n → n + 1 < 2 ^ 64 → records_ok n M → header_ok b → hash_ok ChainId c → holds db M →
  ∃ db', put_predecessor_record b c db = (db', Ok ()) ∧
    holds db' (<[header_predecessor (header b) := predecessor_record M b c]> M).
Proof.
  intros Hn Hn1 HM Hb Hc Hdb. pose proof Hb as (Hh & Hp & Hl).
  destruct (predecessor_record_ok n M b c) as [Ho _]; [done..|].
  unfold put_predecessor_record, reads_state. rewrite (meta_get_holds Hopen db M) by done.
  unfold predecessor_record in *. destruct (M !! header_predecessor (header b)) as [m|] eqn:E.
  - case_decide as Hin.
    + rewrite bool_decide_eq_false_2, bool_decide_eq_true_2
        by (done || intros Hs; rewrite Hs in Hin; by apply elem_of_nil in Hin).
      exists db. split; [done|]. by rewrite insert_id.
    + rewrite (bool_decide_eq_false_2 (_ ∈ _)), orb_true_r by done.
      destruct (put_holds Hopen db M _ _ Hdb Hp Ho) as (db' & -> & Hdb' & _).
      exists db'. split; [done|]. rewrite E in Hdb'. cbn [merge_into] in Hdb'.
      rewrite merge_grown in Hdb'; [done| |done..]. cbn [successors]. rewrite length_app. cbn. lia.
  - destruct (put_holds Hopen db M _ _ Hdb Hp Ho) as (db' & -> & Hdb' & _).
    exists db'. split; [done|]. by rewrite E in Hdb'.
Qed.

Lemma meta_put_block_header_holds n db M b c :
  0 ≤ n → n + 1 < 2 ^ 64 → records_ok n M → header_ok b → hash_ok ChainId c → holds db M →
  ∃ db', put_block_header b c db = (db', Ok (own_record M b c)) ∧ holds db' (records_after M b c) ∧
    records_ok (n + 1) (records_after M b c).
Proof.
  intros Hn Hn1 HM Hb Hc Hdb. unfold put_block_header.
  destruct (put_own_record_holds n db M b c) as (db1 & -> & Hdb1); [done..|].
  destruct (put_predecessor_record_holds n db1 (<[hash b := own_record M b c]> M) b c)
    as (db2 & -> & Hdb2); try done.
  { destruct (own_record_ok n M b c) as [O1 O2]; [done..|]. by apply insert_records_ok. }
  exists db2. split; [done|]. split; [done|]. by apply records_after_ok.
Qed.

End Steps.

(** ** Predecessors and successors are inverse to each other *)

Definition predecessor_at (M : gmap bytes Meta) (h : bytes) : option bytes := M !! h ≫= predecessor.
Definition successors_at (M : gmap bytes Meta) (h : bytes) : list bytes :=
  default [] (successors <$> M !! h).

(** The links between records are those of the headers [bs]. *)
Definition linked (bs : list BlockHeaderWithHash) (M : gmap bytes Meta) : Prop :=
  (∀ h p, predecessor_at M h = Some p ↔ ∃ b, b ∈ bs ∧ hash b = h ∧ header_predecessor (header b) = p) ∧
  (∀ p, NoDup (successors_at M p)) ∧
  (∀ p h, h ∈ successors_at M p ↔ ∃ b, b ∈ bs ∧ hash b = h ∧ header_predecessor (header b) = p).

(** Two headers with the same hash are the same as far as the links go. *)
Definition no_collision (bs : list BlockHeaderWithHash) : Prop :=
  ∀ b b', b ∈ bs → b' ∈ bs → hash b = hash b' →
    header_predecessor (header b) = header_predecessor (header b').

Lemma predecessor_after bs M b c :
  linked bs M → no_collision (bs ++ [b]) →
  ∀ h, predecessor_at (records_after M b c) h =
    if decide (h = hash b) then Some (header_predecessor (header b)) else predecessor_at M h.
Proof.
  intros (HP & _ & _) Hnc h. unfold predecessor_at, records_after.
  assert (predecessor (own_record M b c) = Some (header_predecessor (header b))) as Hown.
  { unfold own_record. destruct (M !! hash b) as [m|] eqn:E; [|done].
    destruct (predecessor m) as [q|] eqn:Ep; [|done]. rewrite Ep. f_equal.
    destruct (HP (hash b) q) as [(b' & Hb' & Eh & <-) _].
    { unfold predecessor_at. rewrite E. done. }
    apply (Hnc b' b); [by apply elem_of_app; left| |done].
    apply elem_of_app. right. by apply list_elem_of_singleton. }
  set (p := header_predecessor (header b)) in *.
  set (M1 := <[hash b := own_record M b c]> M) in *.
  assert (predecessor (predecessor_record M1 b c) = M1 !! p ≫= predecessor) as Hpr.
  { unfold predecessor_record. fold p. destruct (M1 !! p) as [m|]; [|done]. by case_decide. }
  assert (∀ k, M1 !! k ≫= predecessor = if decide (k = hash b) then Some p else M !! k ≫= predecessor)
    as HM1.
  { intros k. unfold M1. case_decide as Hk; [subst k; by rewrite lookup_insert_eq|].
    by rewrite lookup_insert_ne. }
  rewrite <- HM1. destruct (decide (h = p)) as [->|Hne].
  - rewrite lookup_insert_eq. cbn. exact Hpr.
  - by rewrite lookup_insert_ne.
Qed.

Lemma successors_after M b c p :
  let l := successors_at M p in
  successors_at (records_after M b c) p =
    if decide (p = header_predecessor (header b)) then
      if decide (hash b ∈ l) then l else l ++ [hash b]
    else l.
Proof.
  cbn zeta. unfold successors_at, records_after.
  set (M1 := <[hash b := own_record M b c]> M) in *.
  assert (∀ k, default [] (successors <$> M1 !! k) = default [] (successors <$> M !! k)) as HM1.
  { intros k. unfold M1. destruct (decide (k = hash b)) as [->|Hk].
    - rewrite lookup_insert_eq. cbn. unfold own_record. destruct (M !! hash b) as [m|]; [|done].
      by destruct (predecessor m).
    - by rewrite lookup_insert_ne. }
  case_decide as Hp.
  - subst p. rewrite lookup_insert_eq. cbn [fmap option_fmap option_map default].
    unfold predecessor_record. rewrite <- HM1.
    destruct (M1 !! header_predecessor (header b)) as [m|]; cbn.
    + by case_decide.
    + done.
  - rewrite lookup_insert_ne by done. apply HM1.
Qed.

Lemma linked_after bs M b c :
  linked bs M → no_collision (bs ++ [b]) → linked (bs ++ [b]) (records_after M b c).
Proof.
  intros HL Hnc. pose proof (predecessor_after bs M b c HL Hnc) as HP.
  destruct HL as (L1 & L2 & L3).
  assert (∀ h p, (∃ b', b' ∈ bs ++ [b] ∧ hash b' = h ∧ header_predecessor (header b') = p) ↔
    (∃ b', b' ∈ bs ∧ hash b' = h ∧ header_predecessor (header b') = p) ∨
    (hash b = h ∧ header_predecessor (header b) = p)) as Hsnoc.
  { intros h p. split.
    - intros (b' & [Hb'| ->%list_elem_of_singleton]%elem_of_app & E1 & E2); eauto.
    - intros [(b' & Hb' & E1 & E2)|[E1 E2]]; [exists b'|exists b]; rewrite elem_of_app; auto.
      split; [|done]. right. by apply list_elem_of_singleton. }
  split; [|split].
  - intros h p. rewrite HP, Hsnoc. case_decide as Hh.
    + subst h. split; [intros [= <-]; by right|]. intros [(b' & Hb' & E & <-)|[_ <-]]; [|done].
      f_equal. apply Hnc; [..|done].
      * apply elem_of_app. right. by apply list_elem_of_singleton.
      * by apply elem_of_app; left.
    + rewrite L1. split; [auto|]. intros [?|[? _]]; [done|congruence].
  - intros p. rewrite successors_after. case_decide; [|apply L2]. case_decide as Hin; [apply L2|].
    apply NoDup_app. split; [apply L2|]. split; [|apply NoDup_singleton].
    intros x Hx ->%list_elem_of_singleton. done.
  - intros p h. rewrite successors_after, Hsnoc, <- L3. case_decide as Hp.
    + subst p. case_decide as Hin.
      * split; [auto|]. by intros [?|[<- _]].
      * rewrite elem_of_app, list_elem_of_singleton. split; [intros [?| ->]; auto|].
        intros [?|[<- _]]; auto.
    + split; [auto|]. intros [?|[_ ?]]; [done|congruence].
Qed.

Section Headers.
Context `{RocksDbLaws cfs} (Hopen : block_meta_descriptor ∈ cfs).

(** The headers arrive one after the other. *)
Fixpoint put_block_headers (block_headers : list BlockHeaderWithHash) (chain_id : bytes)
    : io DB () StorageError :=
  match block_headers with
  | [] => ret ()
  | b :: block_headers =>
      do? _ := put_block_header b chain_id in
      put_block_headers block_headers chain_id
  end.

Lemma put_block_headers_holds c n before todo db M :
  hash_ok ChainId c → 0 ≤ n → n + len todo < 2 ^ 64 → Forall header_ok todo →
  no_collision (before ++ todo) → linked before M → records_ok n M → holds db M →
  ∃ db' M', put_block_headers todo c db = (db', Ok ()) ∧ holds db' M' ∧ linked (before ++ todo) M'.
Proof.
  intros Hc. revert n before db M.
  induction todo as [|b todo IH]; intros n before db M Hn Hlen Hok Hnc HL HM Hdb; cbn.
  { exists db, M. by rewrite app_nil_r. }
  rewrite len_cons in Hlen. pose proof (len_nonneg todo). inversion_clear Hok as [|? ? Hb Htodo].
  destruct (meta_put_block_header_holds Hopen n db M b c) as (db1 & -> & Hdb1 & HM1); [done|lia|done..|].
  change (b :: todo) with ([b] ++ todo) in *. rewrite app_assoc in *.
  apply (IH (n + 1) (before ++ [b]) db1 (records_after M b c)); try done; try lia.
  apply linked_after; [done|]. intros x y Hx Hy. apply Hnc; by apply elem_of_app; left.
Qed.

(** C25: the records of the blocks form a doubly linked graph.  Starting from an
    empty storage, let the headers [bs] arrive in any order, possibly several
    times.  Every write succeeds; afterwards the predecessor of a record is
    known exactly if the header of the block has arrived and is the
    predecessor of that header, and the successors of a record are, without
    repetition, exactly the blocks that arrived and have it as predecessor. *)
Theorem headers_linked bs c db :
  (∀ h, hash_ok BlockHash h → get_cf db "block_meta_storage" h = Ok None) →
  hash_ok ChainId c → len bs < 2 ^ 64 → Forall header_ok bs → no_collision bs →
  ∃ db', put_block_headers bs c db = (db', Ok ()) ∧
    ∀ h, hash_ok BlockHash h → ∃ m, get h db' = Ok m ∧
      (∀ p, m ≫= predecessor = Some p ↔
         ∃ b, b ∈ bs ∧ hash b = h ∧ header_predecessor (header b) = p) ∧
      let l := default [] (successors <$> m) in
      NoDup l ∧ ∀ s, s ∈ l ↔ ∃ b, b ∈ bs ∧ hash b = s ∧ header_predecessor (header b) = h.
Proof.
  intros Hempty Hc Hlen Hok Hnc.
  destruct (put_block_headers_holds c 0 [] bs db ∅) as (db' & M' & E & Hdb' & L1 & L2 & L3);
    try done.
  - split; [|split].
    + intros h p. unfold predecessor_at. rewrite lookup_empty. split; [done|].
      by intros (b & []%elem_of_nil & _).
    + intros p. unfold successors_at. rewrite lookup_empty. constructor.
    + intros p h. unfold successors_at. rewrite lookup_empty. cbn. split; [by intros []%elem_of_nil|].
      by intros (b & []%elem_of_nil & _).
  - intros h Hh. exists None. rewrite lookup_empty. by rewrite Hempty.
  - exists db'. split; [done|]. intros h Hh. exists (M' !! h).
    split; [by apply (meta_get_holds Hopen)|]. split; [apply L1|]. split; [apply L2|apply L3].
Qed.

End Headers.

(** ** A lost update

    The thread that applies blocks reads the record of a block, applies the
    block, and stores the record again with [is_applied] set
    ([store_applied_block_result]).  Meanwhile the header of a child can arrive
    on another thread. *)

Section LostUpdate.
Context `{RocksDbLaws cfs} (Hopen : block_meta_descriptor ∈ cfs).

(** If the header of a child arrives between the read and the write of the
    applying thread, the block loses the child: its record has the successors
    of the old read again, while the record of the child still points to it. *)
Theorem applied_write_loses_successor db M n h m child c :
  holds db M → records_ok n M → 0 ≤ n → n + 1 < 2 ^ 64 → hash_ok ChainId c → header_ok child →
  hash_ok BlockHash h → M !! h = Some m → header_predecessor (header child) = h →
  hash child ≠ h → M !! hash child = None → hash child ∉ successors m →
  ∃ db1 db2 m1 m2,
    get h db = Ok (Some m) ∧
    put_block_header child c db = (db1, Ok (mkMeta (Some h) [] false (header_level (header child)) c)) ∧
    get h db1 = Ok (Some m1) ∧ hash child ∈ successors m1 ∧
    put h (set_is_applied m true) db1 = (db2, Ok ()) ∧
    get h db2 = Ok (Some m2) ∧ is_applied m2 = true ∧ successors m2 = successors m ∧
    get (hash child) db2 = Ok (Some (mkMeta (Some h) [] false (header_level (header child)) c)).
Proof.
  intros Hdb HM Hn Hn1 Hc Hch Hh Em Hp Hne Enew Hnin. pose proof Hch as (Hhc & _ & _).
  destruct (meta_put_block_header_holds Hopen n db M child c) as (db1 & E1 & Hdb1 & HM1); [done..|].
  assert (own_record M child c = mkMeta (Some h) [] false (header_level (header child)) c) as Eown
    by (unfold own_record; by rewrite Enew, Hp).
  pose (m1 := mkMeta (predecessor m) (successors m ++ [hash child]) (is_applied m) (level m)
    (meta_chain_id m)).
  assert (records_after M child c !! h = Some m1) as Em1.
  { unfold records_after. rewrite Hp, lookup_insert_eq. unfold predecessor_record.
    by rewrite Hp, lookup_insert_ne, Em, decide_False. }
  assert (records_after M child c !! hash child = Some (own_record M child c)) as Ec.
  { unfold records_after. by rewrite Hp, lookup_insert_ne, lookup_insert_eq. }
  destruct (HM _ _ Em) as [Hm _].
  destruct (put_holds Hopen db1 _ h (set_is_applied m true) Hdb1 Hh Hm) as (db2 & E2 & Hdb2 & _).
  rewrite Em1 in Hdb2. cbn [merge_into] in Hdb2.
  exists db1, db2, m1, (merge_meta m1 (set_is_applied m true)).
  split; [by rewrite (meta_get_holds Hopen db M), Em|].
  split; [by rewrite E1, Eown|]. split; [by rewrite (meta_get_holds Hopen db1 _ h Hdb1), Em1|].
  split; [apply elem_of_app; right; by apply list_elem_of_singleton|]. split; [done|].
  split; [by rewrite (meta_get_holds Hopen db2 _ h Hdb2), lookup_insert_eq|].
  split; [by cbn; rewrite orb_true_r|]. split.
  - cbn [merge_meta successors m1 set_is_applied]. rewrite decide_False; [done|].
    rewrite length_app. cbn. lia.
  - rewrite (meta_get_holds Hopen db2 _ _ Hdb2) by done. by rewrite lookup_insert_ne, Ec, Eown.
Qed.

End LostUpdate.

Module BlockMetaWitnesses.
Import ConcreteDb.

Definition families : list ColumnFamilyDescriptor := [block_meta_descriptor].

#[local] Instance block_meta_db : RocksDb := memory_db families.
#[local] Instance block_meta_db_laws : RocksDbLaws families.
Proof. apply memory_db_laws. apply NoDup_singleton. Qed.

Definition h (b : Z) : bytes := replicate 32 b.
Definition chain : bytes := [1; 2; 3; 4].

Definition block (own pred level : Z) : BlockHeaderWithHash :=
  mkBlockHeaderWithHash (h own) (mkBlockHeader level 0 (h pred) 0 0 [] [] [] []).

Lemma block_meta_opened : block_meta_descriptor ∈ families.
Proof. left. Qed.

Definition example : Meta := mkMeta (Some (h 1)) [h 3] false 5 chain.

Lemma example_ok : meta_ok example.
Proof.
  split; [by intros p [= <-]|]. split; [by repeat constructor|]. done.
Qed.

Lemma merge_refines_witness :
  ∃ val', merge_meta_value [] None [meta_bytes (meta_mask example) example;
      meta_bytes (meta_mask (set_is_applied example true)) (set_is_applied example true)] = Some val' ∧
    meta_decode val' = Ok (set_is_applied example true).
Proof.
  destruct (merge_refines [] None None
    [meta_bytes (meta_mask example) example;
     meta_bytes (meta_mask (set_is_applied example true)) (set_is_applied example true)]
    example [set_is_applied example true]) as (val' & E & D & _).
  - done.
  - constructor; [apply example_ok|]. constructor; [apply example_ok|constructor].
  - repeat constructor.
  - exists val'. split; [exact E|exact D].
Defined.

Definition chain_of_blocks : list BlockHeaderWithHash := [block 2 1 2; block 3 2 3; block 1 0 1].

Lemma headers_linked_witness :
  ∃ db', put_block_headers chain_of_blocks chain ∅ = (db', Ok ()) ∧
    ∃ m, get (h 2) db' = Ok (Some m) ∧ predecessor m = Some (h 1) ∧ h 3 ∈ successors m.
Proof.
  destruct (headers_linked block_meta_opened chain_of_blocks chain ∅) as (db' & E & Hget).
  - intros k _. reflexivity.
  - done.
  - done.
  - unfold chain_of_blocks. by repeat constructor.
  - intros b b' Hb Hb'. unfold chain_of_blocks in *. rewrite !elem_of_cons, elem_of_nil in Hb, Hb'.
    destruct Hb as [->|[->|[->|[]]]], Hb' as [->|[->|[->|[]]]]; done.
  - exists db'. split; [done|]. destruct (Hget (h 2) eq_refl) as (m & Em & Hp & _ & Hs).
    assert (m ≫= predecessor = Some (h 1)) as Ep.
    { apply Hp. exists (block 2 1 2). split; [left|by split]. }
    destruct m as [m|]; [|done]. exists m. split; [done|]. split; [done|]. apply (Hs (h 3)).
    exists (block 3 2 3). split; [right; left|by split].
Defined.

Definition stored_example : DB :=
  (put (h 2) (mkMeta (Some (h 1)) [] false 2 chain) ∅).1.

Lemma applied_write_loses_successor_witness :
  ∃ db1 db2 m2,
    put_block_header (block 3 2 3) chain stored_example
      = (db1, Ok (mkMeta (Some (h 2)) [] false 3 chain)) ∧
    put (h 2) (mkMeta (Some (h 1)) [] true 2 chain) db1 = (db2, Ok ()) ∧
    get (h 2) db2 = Ok (Some m2) ∧ successors m2 = [].
Proof.
  set (m := mkMeta (Some (h 1)) [] false 2 chain).
  assert (meta_ok m) as Hm by (split; [by intros p [= <-]|done]).
  assert (holds (∅ : DB) ∅) as Hempty by (intros k _; by exists None).
  destruct (put_holds block_meta_opened ∅ ∅ (h 2) m Hempty eq_refl Hm) as (db & E & Hdb & _).
  assert (db = stored_example) as -> by (unfold stored_example; fold m; by rewrite E).
  destruct (applied_write_loses_successor block_meta_opened stored_example _ 0 (h 2) m (block 3 2 3) chain Hdb)
    as (db1 & db2 & m1 & m2 & _ & E1 & _ & _ & E2 & G & _ & S & _); try done.
  - intros k mk [[<- <-]|[_ []%lookup_empty_Some]]%lookup_insert_Some. done.
  - intros []%elem_of_nil.
  - exists db1, db2, m2. done.
Defined.

End BlockMetaWitnesses.
