(* ===== verification/Predecessors.v ===== *)
(** * The index of predecessors

    [storage/src/predecessor_storage.rs], and the searches of
    [storage/src/block_meta_storage.rs] that use it: for each block the index
    has the ancestors at the distances 1, 2, 4, .., 2048. *)

From stdpp Require Import gmap sorting.
From S2P Require Import Prelude Hash NomReader Kv Blocks BlockMeta.

(** ** The index *)

Record PredecessorKey := mkPredecessorKey { key_block_hash : bytes; exponent_slot : Z }.

#[export] Instance PredecessorKey_eq_dec : EqDecision PredecessorKey.
Proof. solve_decision. Defined.

Definition predecessor_key_ok (k : PredecessorKey) : Prop :=
  hash_ok BlockHash (key_block_hash k) ∧ uint_range 32 (exponent_slot k).

Definition PredecessorStorage `{Bincode PredecessorKey} : KeyValueSchema :=
  mkSchema PredecessorKey bytes (bincode_codec PredecessorKey) (hash_codec BlockHash)
    "predecessor_storage".

Definition predecessor_descriptor : ColumnFamilyDescriptor := mkColumnFamily "predecessor_storage" None.

Definition STORED_PREDECESSORS_SIZE : Z := 12.

Section Index.
Context `{RocksDb, Bincode PredecessorKey}.

Definition put_predecessor (key : PredecessorKey) (predecessor_hash : bytes) : io DB () StorageError :=
  err_into StorageDBError (kv_put PredecessorStorage key predecessor_hash).

Definition get_predecessor (key : PredecessorKey) (db : DB) : result (option bytes) StorageError :=
  map_err StorageDBError (kv_get PredecessorStorage key db).

(** The slots from [slot] on, [count] of them; [predecessor] is the content of
    the slot before. *)
Fixpoint fill_slots (block_hash predecessor : bytes) (slot : Z) (count : nat) : io DB () StorageError :=
  match count with
  | O => ret ()
  | S count =>
      do? found := reads_state (get_predecessor (mkPredecessorKey predecessor (slot - 1))) in
      match found with
      | Some p =>
          do? _ := put_predecessor (mkPredecessorKey block_hash slot) p in
          fill_slots block_hash p (slot + 1) count
      | None => ret ()
      end
  end.

Definition store_predecessors_sized (block_hash : bytes) (block_meta : Meta)
    (stored_predecessors_size : Z) : io DB () StorageError :=
  match predecessor block_meta with
  | Some direct_predecessor =>
      if decide (direct_predecessor = block_hash) then ret ()
      else
        do? _ := put_predecessor (mkPredecessorKey block_hash 0) direct_predecessor in
        fill_slots block_hash direct_predecessor 1 (Z.to_nat (stored_predecessors_size - 1))
  | None => ret ()
  end.

(** [BlockMetaStorage::store_predecessors] *)
Definition store_predecessors (block_hash : bytes) (block_meta : Meta) : io DB () StorageError :=
  store_predecessors_sized block_hash block_meta STORED_PREDECESSORS_SIZE.

(** ** Searches *)

(** 31 rounds are enough for an [i32] ([closest_power_spec]). *)
Fixpoint closest_power_loop (rounds : nat) (closest_power rest distance : Z) : Z * Z :=
  match rounds with
  | O => (closest_power, rest)
  | S rounds =>
      if decide (distance > 1) then
        closest_power_loop rounds (closest_power + 1)
          (rest + 2 ^ closest_power * (distance mod 2)) (distance / 2)
      else (closest_power, rest)
  end.

Definition closest_power_two_and_rest (distance : Z) : result (Z * Z) StorageError :=
  if decide (distance < 0) then Err PredecessorLookupError
  else Ok (closest_power_loop 31 0 0 distance).

(** [None] if the rounds are spent. *)
Fixpoint find_loop (rounds : nat) (block_hash : bytes) (distance : Z) (db : DB)
    : option (result (option bytes) StorageError) :=
  match rounds with
  | O => None
  | S rounds =>
      if decide (distance = 1) then Some (get_predecessor (mkPredecessorKey block_hash 0) db)
      else
        match closest_power_two_and_rest distance with
        | Err e => Some (Err e)
        | Ok (power, rest) =>
            let '(power, rest) :=
              if decide (STORED_PREDECESSORS_SIZE ≤ power)
              then (STORED_PREDECESSORS_SIZE - 1, distance - 2 ^ (STORED_PREDECESSORS_SIZE - 1))
              else (power, rest) in
            match get_predecessor (mkPredecessorKey block_hash power) db with
            | Err e => Some (Err e)
            | Ok (Some pred) =>
                if decide (rest = 0) then Some (Ok (Some pred)) else find_loop rounds pred rest db
            | Ok None => Some (Ok None)
            end
        end
  end.

(** Every round shortens the distance, so that [distance] rounds are enough. *)
Definition find_block_at_distance (block_hash : bytes) (requested_distance : Z) (db : DB)
    : option (result (option bytes) StorageError) :=
  if decide (requested_distance = 0) then Some (Ok (Some block_hash))
  else if decide (requested_distance < 0) then Some (Err (StoragePanic "not implemented"))
  else find_loop (Z.to_nat requested_distance) block_hash requested_distance db.

(** The loop of [get_live_blocks], at most [count] ancestors of [current]. *)
Fixpoint live_ancestors (count : nat) (current : bytes) (db : DB)
    : option (result (list bytes) StorageError) :=
  match count with
  | O => Some (Ok [])
  | S count =>
      match find_block_at_distance current 1 db with
      | Some (Ok (Some predecessor)) =>
          match live_ancestors count predecessor db with
          | Some (Ok l) => Some (Ok (predecessor :: l))
          | r => r
          end
      | Some (Ok None) => Some (Ok [])
      | Some (Err e) => Some (Err e)
      | None => None
      end
  end.

End Index.

Definition get_live_blocks `{RocksDb, Bincode PredecessorKey} (block_hash : bytes) (max_ttl : nat)
    (db : DB) : option (result (list bytes) StorageError) :=
  match BlockMeta.get block_hash db with
  | Err e => Some (Err e)
  | Ok None => Some (Ok (merge_sort bytes_le []))
  | Ok (Some _) =>
      (* max_ttl + 1 blocks, one of which is the requested one *)
      match live_ancestors max_ttl block_hash db with
      | Some (Ok ancestors) => Some (Ok (merge_sort bytes_le (block_hash :: ancestors)))
      | r => r
      end
  end.

(** ** The reference: one step at a time *)

(** [parents] maps a block to its predecessor. *)
Definition nth_predecessor (parents : gmap bytes bytes) (n : nat) (h : bytes) : option bytes :=
  Nat.iter n (λ o, o ≫= λ h, parents !! h) (Some h).

Lemma nth_predecessor_add P a b h :
  nth_predecessor P (a + b) h = nth_predecessor P a h ≫= nth_predecessor P b.
Proof.
  rewrite Nat.add_comm. induction b as [|b IH]; cbn [Nat.add].
  - cbn. by destruct (nth_predecessor P a h).
  - change (nth_predecessor P (S (b + a)) h) with (nth_predecessor P (b + a) h ≫= λ h, P !! h).
    rewrite IH. by destruct (nth_predecessor P a h).
Qed.

Lemma closest_power_loop_spec rounds p r d :
  0 ≤ p → 1 ≤ d → Z.log2 d ≤ Z.of_nat rounds →
  closest_power_loop rounds p r d = (p + Z.log2 d, r + 2 ^ p * (d - 2 ^ Z.log2 d)).
Proof.
  revert p r d. induction rounds as [|rounds IH]; intros p r d Hp Hd Hl; cbn [closest_power_loop].
  - assert (d = 1) as -> by (pose proof (Z.log2_nonneg d); assert (Z.log2 d = 0) as E by lia;
      apply Z.log2_null in E; lia). change (Z.log2 1) with 0. f_equal; lia.
  - case_decide as Hgt.
    + assert (Z.log2 d = 1 + Z.log2 (d / 2)) as El.
      { assert (1 ≤ d / 2) as Hd3 by (apply Z.div_le_lower_bound; lia).
        pose proof (Z.div_mod d 2 ltac:(lia)) as Ed. pose proof (Z.mod_pos_bound d 2 ltac:(lia)).
        assert (d mod 2 = 0 ∨ d mod 2 = 1) as [E0|E1] by lia.
        - rewrite Ed at 1. rewrite E0, Z.add_0_r, Z.log2_double by lia. lia.
        - rewrite Ed at 1. rewrite E1, Z.log2_succ_double by lia. lia. }
      assert (1 ≤ d / 2) as Hd3 by (apply Z.div_le_lower_bound; lia).
      rewrite IH by lia. rewrite El. f_equal; [lia|].
      rewrite !Z.pow_add_r, !Z.pow_1_r by (pose proof (Z.log2_nonneg (d / 2)); lia).
      pose proof (Z.div_mod d 2 ltac:(lia)). nia.
    + assert (d = 1) as -> by lia. change (Z.log2 1) with 0. f_equal; lia.
Qed.

Lemma closest_power_spec `{RocksDb} d :
  1 ≤ d < 2 ^ 31 → closest_power_two_and_rest d = Ok (Z.log2 d, d - 2 ^ Z.log2 d).
Proof.
  intros Hd. unfold closest_power_two_and_rest. rewrite decide_False by lia.
  rewrite closest_power_loop_spec; [do 2 f_equal; lia|lia..|].
  assert (Z.log2 d < 31) by (apply Z.log2_lt_pow2; lia). lia.
Qed.

Section Correct.
Context `{RocksDbLaws cfs} `{Bincode PredecessorKey} `{!BincodeLaws PredecessorKey predecessor_key_ok}.
Context (Hopen : predecessor_descriptor ∈ cfs).

#[local] Instance predecessor_table :
  Table cfs PredecessorStorage predecessor_key_ok (hash_ok BlockHash).
Proof.
  split; [by exists predecessor_descriptor|by apply bincode_codec_laws|apply hash_codec_laws].
Qed.

Definition parents_ok (P : gmap bytes bytes) : Prop := map_Forall (λ _ p, hash_ok BlockHash p) P.

(** The index of [db] is the one of [P]. *)
Definition indexed (db : DB) (P : gmap bytes bytes) : Prop :=
  ∀ h i, hash_ok BlockHash h → 0 ≤ i < STORED_PREDECESSORS_SIZE →
    get_predecessor (mkPredecessorKey h i) db = Ok (nth_predecessor P (Z.to_nat (2 ^ i)) h).

Lemma nth_predecessor_ok P n h h' :
  parents_ok P → hash_ok BlockHash h → nth_predecessor P n h = Some h' → hash_ok BlockHash h'.
Proof.
  intros HP Hh. revert h'. induction n as [|n IH]; intros h' E.
  - by injection E as <-.
  - change (nth_predecessor P n h ≫= (λ h, P !! h) = Some h') in E.
    destruct (nth_predecessor P n h) as [x|]; [|done]. exact (HP _ _ E).
Qed.

Lemma find_loop_spec rounds P h d db :
  parents_ok P → indexed db P → hash_ok BlockHash h → 1 ≤ d < 2 ^ 31 → d ≤ Z.of_nat rounds →
  find_loop rounds h d db = Some (Ok (nth_predecessor P (Z.to_nat d) h)).
Proof.
  intros HP Hdb. revert h d. induction rounds as [|rounds IH]; intros h d Hh Hd Hr; [lia|].
  cbn [find_loop]. case_decide as Hone.
  { subst d. rewrite (Hdb h 0) by (done || unfold STORED_PREDECESSORS_SIZE; lia). done. }
  rewrite closest_power_spec by lia.
  assert (1 ≤ Z.log2 d) as Hlog by (apply Z.log2_le_pow2; lia).
  pose proof (Z.log2_spec d ltac:(lia)) as [Hlo _].
  set (q := if decide (STORED_PREDECESSORS_SIZE ≤ Z.log2 d) then STORED_PREDECESSORS_SIZE - 1 else Z.log2 d).
  assert (1 ≤ q < STORED_PREDECESSORS_SIZE ∧ 2 ≤ 2 ^ q ≤ d) as [Hq Hpow].
  { unfold q, STORED_PREDECESSORS_SIZE. case_decide.
    - split; [lia|]. split; [done|]. apply Z.le_trans with (2 ^ Z.log2 d); [|done].
      apply Z.pow_le_mono_r; lia.
    - split; [lia|]. split; [|done]. change 2 with (2 ^ 1) at 1. apply Z.pow_le_mono_r; lia. }
  assert ((if decide (STORED_PREDECESSORS_SIZE ≤ Z.log2 d)
    then (STORED_PREDECESSORS_SIZE - 1, d - 2 ^ (STORED_PREDECESSORS_SIZE - 1))
    else (Z.log2 d, d - 2 ^ Z.log2 d)) = (q, d - 2 ^ q)) as -> by (unfold q; by case_decide).
  rewrite (Hdb h q) by (done || lia).
  replace (Z.to_nat d) with (Z.to_nat (2 ^ q) + Z.to_nat (d - 2 ^ q))%nat by lia.
  rewrite nth_predecessor_add.
  destruct (nth_predecessor P (Z.to_nat (2 ^ q)) h) as [x|] eqn:Ex; [|done]. cbn [mbind option_bind].
  case_decide as Hrest; [by rewrite Hrest|].
  apply IH; [by eapply nth_predecessor_ok|lia..].
Qed.

Lemma find_block_spec P h d db :
  parents_ok P → indexed db P → hash_ok BlockHash h → 0 ≤ d < 2 ^ 31 →
  find_block_at_distance h d db = Some (Ok (nth_predecessor P (Z.to_nat d) h)).
Proof.
  intros HP Hdb Hh Hd. unfold find_block_at_distance. case_decide as H0'; [by subst|].
  rewrite decide_False by lia. apply find_loop_spec; (done || lia).
Qed.

(** *** Filling the index *)

(** Walks that end stay ended. *)
Lemma nth_predecessor_none P a b h :
  (a ≤ b)%nat → nth_predecessor P a h = None → nth_predecessor P b h = None.
Proof.
  intros Hab E. replace b with (a + (b - a))%nat by lia. by rewrite nth_predecessor_add, E.
Qed.

(** The index is right but for the slots of [b] from [slot] on, which are empty
    or right. *)
Definition partly_indexed (db : DB) (P : gmap bytes bytes) (b : bytes) (slot : Z) : Prop :=
  ∀ h i, hash_ok BlockHash h → 0 ≤ i < STORED_PREDECESSORS_SIZE →
    let right := Ok (nth_predecessor P (Z.to_nat (2 ^ i)) h) in
    let found := get_predecessor (mkPredecessorKey h i) db in
    if decide (h = b ∧ slot ≤ i) then found = Ok None ∨ found = right else found = right.

Lemma put_predecessor_holds P db b slot p :
  hash_ok BlockHash b → hash_ok BlockHash p → 0 ≤ slot < STORED_PREDECESSORS_SIZE →
  nth_predecessor P (Z.to_nat (2 ^ slot)) b = Some p →
  partly_indexed db P b slot →
  ∃ db', put_predecessor (mkPredecessorKey b slot) p db = (db', Ok ()) ∧
    partly_indexed db' P b (slot + 1) ∧
    ∀ n' kb, n' ≠ name PredecessorStorage → get_cf db' n' kb = get_cf db n' kb.
Proof.
  intros Hb Hp Hs Ep Hdb.
  destruct (kv_put_ok PredecessorStorage (mkPredecessorKey b slot) p db) as (db' & E & Eg & Eo & Ef).
  { split; [done|]. unfold uint_range, STORED_PREDECESSORS_SIZE in *. cbn [exponent_slot]. lia. }
  { done. }
  exists db'. unfold put_predecessor, err_into. rewrite E. split; [done|]. split; [|done].
  intros h i Hh Hi. cbn zeta. unfold get_predecessor.
  destruct (decide (h = b ∧ i = slot)) as [[-> ->]|Hne].
  - rewrite Eg, Ep, decide_False by lia. done.
  - rewrite Eo.
    + specialize (Hdb h i Hh Hi). cbn zeta in Hdb. unfold get_predecessor in Hdb.
      destruct (decide (h = b ∧ slot ≤ i)) as [[-> Hge]|Hlt].
      * by rewrite decide_True by (split; [done|]; destruct (decide (i = slot)) as [->|]; [by destruct Hne|lia]).
      * rewrite decide_False; [done|]. intros [-> ?]. apply Hlt. split; [done|lia].
    + split; [done|]. unfold uint_range, STORED_PREDECESSORS_SIZE in *. cbn [exponent_slot]. lia.
    + intros [= -> ->]. by apply Hne.
Qed.

Lemma fill_slots_spec P count slot b x db :
  parents_ok P → hash_ok BlockHash b → 1 ≤ slot → slot + Z.of_nat count = STORED_PREDECESSORS_SIZE →
  nth_predecessor P (Z.to_nat (2 ^ (slot - 1))) b = Some x → partly_indexed db P b slot →
  ∃ db', fill_slots b x slot count db = (db', Ok ()) ∧ indexed db' P ∧
    ∀ n' kb, n' ≠ name PredecessorStorage → get_cf db' n' kb = get_cf db n' kb.
Proof.
  intros HP Hb. revert slot x db. induction count as [|count IH]; intros slot x db Hs Hc Ex Hdb.
  { exists db. split; [done|]. split; [|done]. intros h i Hh Hi. specialize (Hdb h i Hh Hi).
    cbn zeta in Hdb. by rewrite decide_False in Hdb by lia. }
  cbn [fill_slots]. unfold reads_state.
  assert (hash_ok BlockHash x) as Hx by (by eapply nth_predecessor_ok).
  assert (nth_predecessor P (Z.to_nat (2 ^ slot)) b = nth_predecessor P (Z.to_nat (2 ^ (slot - 1))) x)
    as Estep.
  { replace (2 ^ slot) with (2 ^ (slot - 1) + 2 ^ (slot - 1))
      by (replace slot with (slot - 1 + 1) at 3 by lia; rewrite (Z.pow_add_r 2 (slot - 1) 1) by lia; lia).
    rewrite Z2Nat.inj_add by (apply Z.pow_nonneg; lia). by rewrite nth_predecessor_add, Ex. }
  assert (get_predecessor (mkPredecessorKey x (slot - 1)) db
    = Ok (nth_predecessor P (Z.to_nat (2 ^ slot)) b)) as ->.
  { specialize (Hdb x (slot - 1) Hx ltac:(lia)). cbn zeta in Hdb.
    rewrite decide_False in Hdb by lia. by rewrite Hdb, Estep. }
  destruct (nth_predecessor P (Z.to_nat (2 ^ slot)) b) as [p|] eqn:Ep.
  - assert (hash_ok BlockHash p) as Hp by (by eapply (nth_predecessor_ok P _ b)).
    destruct (put_predecessor_holds P db b slot p) as (db1 & -> & Hdb1 & F1); [done|done|lia|done|done|].
    destruct (IH (slot + 1) p db1) as (db2 & E2 & Hdb2 & F2); [lia|lia| |done|].
    { by replace (slot + 1 - 1) with slot by lia. }
    exists db2. split; [done|]. split; [done|]. intros n' kb Hn. by rewrite F2, F1.
  - exists db. split; [done|]. split; [|done]. intros h i Hh Hi. specialize (Hdb h i Hh Hi).
    cbn zeta in Hdb. case_decide as Hc'; [|done]. destruct Hc' as [-> Hi'].
    destruct Hdb as [Hnone|Hright]; [|done]. rewrite Hnone. f_equal. symmetry.
    apply (nth_predecessor_none P (Z.to_nat (2 ^ slot))); [|done].
    apply Z2Nat.inj_le; try (apply Z.pow_nonneg; lia). apply Z.pow_le_mono_r; lia.
Qed.

(** *** Blocks applied in order *)

(** The predecessor that [store_predecessors] records; the genesis block is its
    own predecessor and is not recorded. *)
Definition add_parent (P : gmap bytes bytes) (b : bytes) (m : Meta) : gmap bytes bytes :=
  match predecessor m with
  | Some p => if decide (p = b) then P else <[b := p]> P
  | None => P
  end.

(** A block comes before its children; it may come again with the same
    predecessor. *)
Definition in_order (P : gmap bytes bytes) (b : bytes) (m : Meta) : Prop :=
  match predecessor m with
  | Some p => p = b ∨ P !! b = Some p ∨ (P !! b = None ∧ map_Forall (λ _ q, q ≠ b) P)
  | None => True
  end.

Lemma nth_predecessor_insert P b p n h :
  map_Forall (λ _ q, q ≠ b) P → h ≠ b →
  nth_predecessor (<[b := p]> P) n h = nth_predecessor P n h ∧
  (∀ x, nth_predecessor P n h = Some x → x ≠ b).
Proof.
  intros HP Hh. induction n as [|n [IH1 IH2]]; [split; [done|by intros x [= <-]]|].
  change (nth_predecessor ?P (S n) h) with (nth_predecessor P n h ≫= λ h, P !! h).
  rewrite IH1. destruct (nth_predecessor P n h) as [x|] eqn:E; [|done]. cbn.
  rewrite lookup_insert_ne by (symmetry; by apply IH2). split; [done|].
  intros y Ey. exact (HP _ _ Ey).
Qed.

Lemma nth_predecessor_head P b p n :
  map_Forall (λ _ q, q ≠ b) P → P !! b = None → p ≠ b →
  nth_predecessor (<[b := p]> P) (S n) b = nth_predecessor P n p.
Proof.
  intros HP Hb Hp. change (S n) with (1 + n)%nat. rewrite nth_predecessor_add.
  change (nth_predecessor (<[b := p]> P) 1 b) with (<[b := p]> P !! b).
  rewrite lookup_insert_eq. cbn [mbind option_bind].
  by destruct (nth_predecessor_insert P b p n p HP Hp).
Qed.

(** Before the first write, the index is right for the new parents but for the
    slots of the block. *)
Lemma indexed_before db P b m p :
  parents_ok P → indexed db P → predecessor m = Some p → p ≠ b → in_order P b m →
  partly_indexed db (add_parent P b m) b 0.
Proof.
  intros HP Hdb Ep Hne Ho h i Hh Hi. cbn zeta. unfold add_parent, in_order in *. rewrite Ep in *.
  rewrite (decide_False (P := p = b)) by done. rewrite (Hdb h i Hh Hi).
  destruct Ho as [?|[Hsame|[Hb Hno]]]; [done| |].
  - rewrite insert_id by done. destruct (decide _); [by right|done].
  - destruct (decide (h = b)) as [->|Hhb].
    + rewrite decide_True by (split; [done|lia]). left. f_equal.
      destruct (Z.to_nat (2 ^ i)) as [|k] eqn:Ek.
      { pose proof (Z.pow_pos_nonneg 2 i). lia. }
      change (S k) with (1 + k)%nat. rewrite nth_predecessor_add.
      change (nth_predecessor P 1 b) with (P !! b). by rewrite Hb.
    + rewrite decide_False by (by intros [? _]). f_equal. symmetry.
      by destruct (nth_predecessor_insert P b p (Z.to_nat (2 ^ i)) h Hno Hhb).
Qed.

Lemma store_predecessors_spec db P b m :
  parents_ok P → indexed db P → hash_ok BlockHash b → meta_ok m → in_order P b m →
  ∃ db', store_predecessors b m db = (db', Ok ()) ∧ indexed db' (add_parent P b m) ∧
    parents_ok (add_parent P b m) ∧
    ∀ n' kb, n' ≠ name PredecessorStorage → get_cf db' n' kb = get_cf db n' kb.
Proof.
  intros HP Hdb Hb Hm Ho. unfold store_predecessors, store_predecessors_sized.
  pose proof (indexed_before db P b m) as Hbefore. unfold add_parent in *.
  destruct (predecessor m) as [p|] eqn:Ep; [|by exists db]. case_decide as Hpb; [by exists db|].
  assert (hash_ok BlockHash p) as Hp by (destruct Hm as [Hm _]; by apply Hm).
  assert (parents_ok (<[b := p]> P)) as HP' by (by apply map_Forall_insert_2).
  specialize (Hbefore p HP Hdb eq_refl Hpb Ho).
  assert (nth_predecessor (<[b := p]> P) (Z.to_nat (2 ^ 0)) b = Some p) as E0
    by (change (nth_predecessor _ _ b) with (<[b := p]> P !! b); by rewrite lookup_insert_eq).
  destruct (put_predecessor_holds (<[b := p]> P) db b 0 p) as (db1 & -> & Hdb1 & F1);
    [done|done|done|done|done|].
  destruct (fill_slots_spec (<[b := p]> P) (Z.to_nat (STORED_PREDECESSORS_SIZE - 1)) 1 b p db1)
    as (db2 & -> & Hdb2 & F2); [done..|].
  exists db2. split; [done|]. split; [done|]. split; [done|]. intros n' kb Hn. by rewrite F2, F1.
Qed.

(** The blocks are applied one after the other. *)
Fixpoint store_all (blocks : list (bytes * Meta)) : io DB () StorageError :=
  match blocks with
  | [] => ret ()
  | (b, m) :: blocks => do? _ := store_predecessors b m in store_all blocks
  end.

Fixpoint all_in_order (P : gmap bytes bytes) (blocks : list (bytes * Meta)) : Prop :=
  match blocks with
  | [] => True
  | (b, m) :: blocks =>
      hash_ok BlockHash b ∧ meta_ok m ∧ in_order P b m ∧ all_in_order (add_parent P b m) blocks
  end.

Definition parents_of (blocks : list (bytes * Meta)) : gmap bytes bytes :=
  fold_left (λ P e, add_parent P e.1 e.2) blocks ∅.

Lemma store_all_spec blocks P db :
  parents_ok P → indexed db P → all_in_order P blocks →
  ∃ db', store_all blocks db = (db', Ok ()) ∧
    let P' := fold_left (λ P e, add_parent P e.1 e.2) blocks P in
    indexed db' P' ∧ parents_ok P' ∧
    ∀ n' kb, n' ≠ name PredecessorStorage → get_cf db' n' kb = get_cf db n' kb.
Proof.
  revert P db. induction blocks as [|[b m] blocks IH]; intros P db HP Hdb Hall; cbn.
  - by exists db.
  - destruct Hall as (Hb & Hm & Ho & Hall).
    destruct (store_predecessors_spec db P b m) as (db1 & -> & Hdb1 & HP1 & F1); [done..|].
    destruct (IH _ db1 HP1 Hdb1 Hall) as (db2 & E2 & I2 & P2 & F2).
    exists db2. split; [done|]. split; [done|]. split; [done|]. intros n' kb Hn. by rewrite F2, F1.
Qed.

(** An empty index. *)
Definition empty_index (db : DB) : Prop :=
  ∀ k, get_cf db "predecessor_storage" k = Ok None.

Lemma empty_indexed db : empty_index db → indexed db ∅.
Proof.
  intros Hdb h i Hh Hi. unfold get_predecessor.
  destruct (encode_decode (A := Key PredecessorStorage) (mkPredecessorKey h i)) as (kb & Ek & _).
  { split; [done|]. unfold uint_range, STORED_PREDECESSORS_SIZE in *. cbn [exponent_slot]. lia. }
  rewrite (kv_get_raw PredecessorStorage _ kb) by done. rewrite Hdb. cbn. f_equal.
  destruct (Z.to_nat (2 ^ i)) as [|k] eqn:Ek'.
  { pose proof (Z.pow_pos_nonneg 2 i). lia. }
  change (S k) with (1 + k)%nat. by rewrite nth_predecessor_add.
Qed.

(** C26: the index of powers of two is equivalent to walking from block to
    block.  Blocks are applied, every one before its children.  The index is
    filled without an error, and then the search for the block at a distance
    ends, for any block and any [i32] that is not negative, with exactly the
    block that is found by following that many predecessors one by one. *)
Theorem find_block_is_walk blocks db :
  empty_index db → all_in_order ∅ blocks →
  ∃ db', store_all blocks db = (db', Ok ()) ∧
    ∀ h d, hash_ok BlockHash h → 0 ≤ d < 2 ^ 31 →
      find_block_at_distance h d db'
      = Some (Ok (nth_predecessor (parents_of blocks) (Z.to_nat d) h)).
Proof.
  intros Hempty Hall.
  destruct (store_all_spec blocks ∅ db) as (db' & E & I & P & _); [done|by apply empty_indexed|done|].
  exists db'. split; [done|]. intros h d Hh Hd. by apply find_block_spec.
Qed.

(** *** Live blocks *)

(** At most [count] ancestors, the nearest first. *)
Fixpoint ancestors (P : gmap bytes bytes) (count : nat) (h : bytes) : list bytes :=
  match count with
  | O => []
  | S count => match P !! h with Some p => p :: ancestors P count p | None => [] end
  end.

Lemma live_ancestors_spec P count h db :
  parents_ok P → indexed db P → hash_ok BlockHash h →
  live_ancestors count h db = Some (Ok (ancestors P count h)).
Proof.
  intros HP Hdb. revert h. induction count as [|count IH]; intros h Hh; [done|].
  cbn [live_ancestors ancestors]. rewrite (find_block_spec P) by (done || lia).
  change (nth_predecessor P (Z.to_nat 1) h) with (P !! h).
  destruct (P !! h) as [p|] eqn:Ep; [|done]. by rewrite IH by (by eapply HP).
Qed.

(** The live blocks of a block that is known: the block itself and its
    [max_ttl] nearest ancestors, or all of them if there are fewer, sorted by
    the bytes of the hashes. *)
Theorem live_blocks_are_ancestors blocks db m h max_ttl :
  block_meta_descriptor ∈ cfs → empty_index db → all_in_order ∅ blocks →
  hash_ok BlockHash h → BlockMeta.get h db = Ok (Some m) →
  ∃ db' l, store_all blocks db = (db', Ok ()) ∧
    get_live_blocks h max_ttl db' = Some (Ok l) ∧ Sorted bytes_le l ∧
    l ≡ₚ h :: ancestors (parents_of blocks) max_ttl h.
Proof.
  intros Hmeta Hempty Hall Hh Em.
  destruct (store_all_spec blocks ∅ db) as (db' & E & I & P & F); [done|by apply empty_indexed|done|].
  exists db'. unfold get_live_blocks, BlockMeta.get in *.
  pose proof (block_meta_table Hmeta).
  rewrite (kv_get_frame BlockMetaStorage h db db' (name PredecessorStorage)) by done.
  rewrite Em, (live_ancestors_spec (parents_of blocks)) by done. eexists. split; [done|]. split; [done|].
  split; [apply Sorted_merge_sort, _|apply merge_sort_Permutation].
Qed.

End Correct.

Module PredecessorWitnesses.
Import ConcreteDb.

Definition families : list ColumnFamilyDescriptor := [block_meta_descriptor; predecessor_descriptor].

#[local] Instance predecessor_db : RocksDb := memory_db families.
#[local] Instance predecessor_db_laws : RocksDbLaws families.
Proof.
  apply memory_db_laws. apply NoDup_cons. split; [|apply NoDup_singleton].
  by intros ?%list_elem_of_singleton.
Qed.

(** A hash and four bytes. *)
#[local] Instance key_bincode : Bincode PredecessorKey := {|
  bincode_serialize k := Some (key_block_hash k ++ be_bytes 4 (exponent_slot k));
  bincode_deserialize b := Some (mkPredecessorKey (take 32 b) (be_val (drop 32 b)))
|}.
#[local] Instance key_bincode_laws : BincodeLaws PredecessorKey predecessor_key_ok.
Proof.
  constructor. intros [h s] [Hh Hs]. eexists. split; [done|].
  cbn [bincode_deserialize key_bincode key_block_hash exponent_slot] in *.
  unfold hash_ok, len in Hh. change (size BlockHash) with 32 in Hh.
  rewrite take_app_length', drop_app_length' by lia.
  rewrite be_val_be_bytes, Z.mod_small; [done|]. exact Hs.
Qed.

Lemma predecessor_opened : predecessor_descriptor ∈ families.
Proof. right. left. Qed.

Definition h (b : Z) : bytes := replicate 32 b.
Definition meta (pred level : Z) : Meta := mkMeta (Some (h pred)) [] true level [1; 2; 3; 4].

(** Genesis, and three blocks after it. *)
Definition chain_of_blocks : list (bytes * Meta) :=
  [(h 0, meta 0 0); (h 1, meta 0 1); (h 2, meta 1 2); (h 3, meta 2 3)].

Lemma meta_ok_example pred level : 0 ≤ level < 100 → meta_ok (meta pred level).
Proof. intros Hl. split; [by intros p [= <-]|]. repeat split; cbn; try done; lia. Qed.

Lemma chain_in_order : all_in_order ∅ chain_of_blocks.
Proof.
  unfold chain_of_blocks. cbn [all_in_order].
  repeat (split; [done|]; split; [apply meta_ok_example; lia|]; split;
    [unfold in_order; cbn [predecessor meta];
     first [by left | right; right; split; [vm_compute; reflexivity|]]|]); [..|done].
  all: apply (bool_decide_unpack _); vm_compute; exact I.
Qed.

Lemma walks : nth_predecessor (parents_of chain_of_blocks) 3 (h 3) = Some (h 0) ∧
  nth_predecessor (parents_of chain_of_blocks) 4 (h 3) = None.
Proof. split; vm_compute; reflexivity. Qed.

Lemma find_block_is_walk_witness :
  ∃ db', store_all chain_of_blocks ∅ = (db', Ok ()) ∧
    find_block_at_distance (h 3) 3 db' = Some (Ok (Some (h 0))) ∧
    find_block_at_distance (h 3) 4 db' = Some (Ok None).
Proof.
  destruct (find_block_is_walk predecessor_opened chain_of_blocks ∅) as (db' & E & F).
  - intros k. reflexivity.
  - apply chain_in_order.
  - exists db'. split; [done|]. rewrite !F by (done || lia).
    change (Z.to_nat 3) with 3%nat. change (Z.to_nat 4) with 4%nat.
    by rewrite (proj1 walks), (proj2 walks).
Defined.

Definition known : DB := (BlockMeta.put (h 3) (meta 2 3) ∅).1.

Lemma known_index_empty : empty_index known.
Proof.
  intros k. change known with (<[("block_meta_storage"%string, h 3) :=
    Some (meta_bytes (meta_mask (meta 2 3)) (meta 2 3))]> (∅ : gmap (string * bytes) (option bytes))).
  cbn. rewrite lookup_insert_ne by done. done.
Qed.

Lemma live_blocks_are_ancestors_witness :
  ∃ db' l, store_all chain_of_blocks known = (db', Ok ()) ∧
    get_live_blocks (h 3) 2 db' = Some (Ok l) ∧ l ≡ₚ [h 3; h 2; h 1].
Proof.
  destruct (live_blocks_are_ancestors predecessor_opened chain_of_blocks known (meta 2 3) (h 3) 2)
    as (db' & l & E & El & _ & Hl).
  - left.
  - apply known_index_empty.
  - apply chain_in_order.
  - done.
  - reflexivity.
  - exists db', l. split; [done|]. split; [done|]. rewrite Hl. vm_compute. done.
Defined.

End PredecessorWitnesses.
