(* ===== verification/OperationsMeta.v ===== *)
(** * Which operations of a block have arrived: [storage/src/operations_meta_storage.rs]

    A block header announces a number of validation passes; the operations of
    each pass arrive in a message of its own.  The record of a block says which
    passes have arrived. *)

From stdpp Require Import gmap.
From S2P Require Import Prelude Hash NomReader Kv Blocks.

(** ** The record and its bytes *)

(** A present pass is marked by 1. *)
Record Meta := mkMeta {
  validation_passes : Z;
  is_validation_pass_present : bytes;
  is_complete : bool
}.

Definition meta_new (validation_pass : Z) : Meta :=
  mkMeta validation_pass (replicate (Z.to_nat validation_pass) 0) (bool_decide (validation_pass = 0)).

Definition genesis_meta : Meta := mkMeta 0 [] true.

(** [None] if the block is complete. *)
Definition get_missing_validation_passes (self : Meta) : option (gset Z) :=
  if is_complete self then None
  else
    Some (list_to_set
      (omap (λ '(idx, is_present), if decide (is_present = 0) then Some (Z.of_nat idx mod 256) else None)
         (imap pair (is_validation_pass_present self)))).

Definition expected_data_length (validation_passes : Z) : Z := 1 + 1 + validation_passes * 1.

Definition meta_decode (bytes : bytes) : result Meta SchemaError :=
  match bytes with
  | [] => Err (DecodeValidationError "Meta: non-empty input expected")
  | validation_passes :: _ =>
      if decide (expected_data_length validation_passes ≠ len bytes) then
        Err (DecodeValidationError "Meta: data length mismatches for validation pass count")
      else
        let is_complete_pos := validation_passes + 1 in
        let? present := ok_or (slice bytes 1 is_complete_pos) SchemaPanic in
        let? is_complete := ok_or (bytes !! Z.to_nat is_complete_pos) SchemaPanic in
        Ok (mkMeta validation_passes present (negb (bool_decide (is_complete = 0))))
  end.

Definition meta_encode (self : Meta) : result bytes SchemaError :=
  if decide (validation_passes self = len (is_validation_pass_present self)) then
    Ok (validation_passes self :: is_validation_pass_present self
        ++ [if is_complete self then 1 else 0])
  else Err EncodeError.

(** ** The merge operator *)

(** [val[i] |= op[i]]; [None] if an index is out of range. *)
Definition or_at (op : bytes) (val : option bytes) (i : nat) : option bytes :=
  val ← val; a ← val !! i; b ← op !! i; Some (<[i := Z.lor a b]> val).

Definition merge_operand (val op : bytes) : option bytes :=
  match val, op with
  | validation_passes :: _, op0 :: _ =>
      if decide (len val ≠ len op ∨ validation_passes ≠ op0) then None
      else
        (* is_validation_pass_present, then is_complete *)
        let val := fold_left (or_at op) (seq 1 (Z.to_nat validation_passes)) (Some val) in
        or_at op val (Z.to_nat validation_passes + 1)
  | _, _ => None
  end.

Fixpoint merge_operands (result : option bytes) (operands : list bytes) : option bytes :=
  match operands with
  | [] => result
  | op :: operands =>
      match result with
      | Some val => val ← merge_operand val op; merge_operands (Some val) operands
      | None => merge_operands (Some op) operands
      end
  end.

Definition merge_meta_value : MergeFn := λ _ existing_val operands, merge_operands existing_val operands.

(** ** The storage *)

(** The part of [OperationsForBlocksMessage] that is used: [validation_pass] is
    an [i8]. *)
Record OperationsForBlock_t := mkOperationsForBlock {
  operations_block_hash : bytes;
  operations_validation_pass : Z
}.

#[export] Instance operations_meta_codec : Codec Meta := {| encode := meta_encode; decode := meta_decode |}.

Definition OperationsMetaStorage : KeyValueSchema :=
  mkSchema bytes Meta (hash_codec BlockHash) operations_meta_codec "operations_meta_storage".

Definition operations_meta_descriptor : ColumnFamilyDescriptor :=
  mkColumnFamily "operations_meta_storage" (Some merge_meta_value).

Section Storage.
Context `{RocksDb}.

Definition put (block_hash : bytes) (meta : Meta) : io DB () StorageError :=
  err_into StorageDBError (kv_merge OperationsMetaStorage block_hash meta).

Definition get (block_hash : bytes) (db : DB) : result (option Meta) StorageError :=
  map_err StorageDBError (kv_get OperationsMetaStorage block_hash db).

Definition contains (block_hash : bytes) (db : DB) : result bool StorageError :=
  map_err StorageDBError (kv_contains OperationsMetaStorage block_hash db).

Definition put_block_header (block_header : BlockHeaderWithHash)
    : io DB (bool * option (gset Z)) StorageError :=
  let meta := meta_new (validation_pass (header block_header)) in
  and_both (put (hash block_header) meta)
    (ret (is_complete meta, get_missing_validation_passes meta)).

(** [i8 as u8] *)
Definition as_u8 (v : Z) : Z := v mod 256.

Definition put_operations (message : OperationsForBlock_t)
    : io DB (bool * option (gset Z)) StorageError :=
  let block_hash := operations_block_hash message in
  do? meta := reads_state (get block_hash) in
  match meta with
  | Some meta =>
      let validation_pass := as_u8 (operations_validation_pass message) in
      (* update validation passes and check if we have all operations *)
      if decide (validation_pass < len (is_validation_pass_present meta)) then
        let present := <[Z.to_nat validation_pass := 1]> (is_validation_pass_present meta) in
        let meta := mkMeta (validation_passes meta) present (forallb (λ v, bool_decide (v = 1)) present) in
        and_both (put block_hash meta) (ret (is_complete meta, get_missing_validation_passes meta))
      else throw (StoragePanic "index out of bounds")
  | None => throw MissingKey
  end.

Definition operations_complete (block_hash : bytes) (db : DB) : result bool StorageError :=
  let? meta := get block_hash db in
  match meta with Some meta => Ok (is_complete meta) | None => Ok false end.

End Storage.

(** ** The records against sets of passes *)

Lemma or_all op pre pre' val :
  length pre = length pre' → length val = length op →
  fold_left (or_at (pre' ++ op)) (seq (length pre) (length val)) (Some (pre ++ val))
  = Some (pre ++ zip_with Z.lor val op).
Proof.
  revert pre pre' op. induction val as [|a val IH]; intros pre pre' [|b op] Hp Hl; try done.
  cbn [length seq fold_left zip_with]. 
  assert (or_at (pre' ++ b :: op) (Some (pre ++ a :: val)) (length pre)
    = Some (<[length pre := Z.lor a b]> (pre ++ a :: val))) as ->.
  { cbn. rewrite (list_lookup_middle pre val a) by done. cbn.
    by rewrite (list_lookup_middle pre' op b) by done. }
  rewrite insert_app_r_alt, Nat.sub_diag by lia. cbn [insert list_insert].
  specialize (IH (pre ++ [Z.lor a b]) (pre' ++ [b]) op).
  rewrite !length_app, <- !app_assoc in IH. cbn in IH. rewrite Nat.add_comm in IH. cbn in IH.
  apply IH; [lia|by injection Hl].
Qed.

Lemma merge_operand_or n val op :
  0 ≤ n → n = len val - 1 → length val = length op →
  merge_operand (n :: val) (n :: op) = Some (n :: zip_with Z.lor val op).
Proof.
  intros H0 Hn Hl. unfold merge_operand. rewrite decide_False.
  2: { intros [E|]; [|done]. apply E. rewrite !len_cons. unfold len. by rewrite Hl. }
  pose proof (or_all op [n] [n] val eq_refl Hl) as E. cbn [length app] in E.
  assert (length val = Z.to_nat n + 1)%nat as El.
  { unfold len in Hn. lia. }
  rewrite El, Nat.add_1_r, seq_S, fold_left_app in E. cbn [fold_left] in E.
  by rewrite Nat.add_comm.
Qed.

(** The flags of the passes [i, i + count). *)
Definition flag (P : gset Z) (i : Z) : Z := if decide (i ∈ P) then 1 else 0.
Definition flags (n : Z) (P : gset Z) : bytes := flag P <$> seqZ 0 n.
Definition all_present (n : Z) (P : gset Z) : bool := forallb (λ i, bool_decide (i ∈ P)) (seqZ 0 n).

Definition record (n : Z) (P : gset Z) : Meta := mkMeta n (flags n P) (all_present n P).

Definition record_bytes (n : Z) (P : gset Z) : bytes :=
  n :: flags n P ++ [if all_present n P then 1 else 0].

Lemma len_flags n P : 0 ≤ n → len (flags n P) = n.
Proof. intros Hn. unfold flags, len. rewrite length_fmap, length_seqZ. lia. Qed.

Lemma record_encode n P : 0 ≤ n → meta_encode (record n P) = Ok (record_bytes n P).
Proof. intros Hn. unfold meta_encode. cbn. by rewrite decide_True by (by rewrite len_flags). Qed.

Lemma record_decode n P : 0 ≤ n → meta_decode (record_bytes n P) = Ok (record n P).
Proof.
  intros Hn. unfold meta_decode, record_bytes, expected_data_length.
  rewrite decide_False
    by (intros []; rewrite len_cons, len_app, len_flags by done; change (len [_]) with 1; lia).
  set (c := if all_present n P then 1 else 0).
  assert (slice (n :: flags n P ++ [c]) 1 (n + 1) = Some (flags n P)) as ->.
  { unfold slice. rewrite len_cons, len_app, len_flags by done. change (len [c]) with 1.
    rewrite decide_True by lia. change (Z.to_nat 1) with 1%nat. cbn [drop]. f_equal.
    apply take_app_length'. pose proof (len_flags n P Hn). unfold len in *. lia. }
  cbn [ok_or]. assert ((n :: flags n P ++ [c]) !! Z.to_nat (n + 1) = Some c) as ->.
  { rewrite app_comm_cons. apply list_lookup_middle. pose proof (len_flags n P Hn).
    unfold len in *. cbn [length]. lia. }
  cbn [ok_or]. unfold record, c. by destruct (all_present n P).
Qed.

Lemma flags_or n P Q : zip_with Z.lor (flags n P) (flags n Q) = flags n (P ∪ Q).
Proof.
  unfold flags. induction (seqZ 0 n) as [|i l IH]; [done|]. cbn. rewrite IH. f_equal. unfold flag.
  repeat case_decide; try done; set_solver.
Qed.

Lemma all_present_spec n P : all_present n P = true ↔ ∀ i, 0 ≤ i < n → i ∈ P.
Proof.
  unfold all_present. rewrite forallb_forall. split.
  - intros Hall i Hi. assert (In i (seqZ 0 n)) as Hin by (apply list_elem_of_In, elem_of_seqZ; lia).
    by apply Hall, bool_decide_eq_true in Hin.
  - intros Hall i Hin. apply bool_decide_eq_true, Hall. apply list_elem_of_In, elem_of_seqZ in Hin. lia.
Qed.

(** A merge with a record of more passes. *)
Lemma merge_records n P Q :
  0 ≤ n → P ⊆ Q ∨ Q ⊆ P →
  merge_operand (record_bytes n P) (record_bytes n Q) = Some (record_bytes n (P ∪ Q)).
Proof.
  intros Hn Hsub. unfold record_bytes. rewrite merge_operand_or.
  - f_equal. f_equal. rewrite zip_with_app by (unfold flags; by rewrite !length_fmap).
    rewrite flags_or. f_equal. cbn. f_equal.
    pose proof (all_present_spec n P) as HP. pose proof (all_present_spec n Q) as HQ.
    pose proof (all_present_spec n (P ∪ Q)) as HPQ.
    destruct Hsub as [Hsub|Hsub];
      [replace (P ∪ Q) with Q in * by set_solver|replace (P ∪ Q) with P in * by set_solver].
    + destruct (all_present n P), (all_present n Q); try done.
      assert (false = true) by (apply HQ; intros i Hi; apply Hsub; apply HP; [done|lia]). done.
    + destruct (all_present n P), (all_present n Q); try done.
      assert (false = true) by (apply HP; intros i Hi; apply Hsub; apply HQ; [done|lia]). done.
  - done.
  - rewrite len_app, len_flags by done. change (len [_]) with 1. lia.
  - rewrite !length_app. unfold flags. by rewrite !length_fmap.
Qed.

Section Complete.
Context `{RocksDbLaws cfs} (Hopen : operations_meta_descriptor ∈ cfs).

(** Records that the program builds. *)
Definition meta_ok (m : Meta) : Prop := ∃ n P, 0 ≤ n ∧ m = record n P.

#[export] Instance operations_codec_laws : CodecLaws Meta meta_ok.
Proof.
  constructor. intros m (n & P & Hn & ->). exists (record_bytes n P).
  split; [by apply record_encode|by apply record_decode].
Qed.

#[local] Instance operations_meta_table :
  Table cfs OperationsMetaStorage (hash_ok BlockHash) meta_ok.
Proof.
  split; [by exists operations_meta_descriptor|apply hash_codec_laws|apply operations_codec_laws].
Qed.

(** The passes [P] of the [n] passes of block [h] have arrived. *)
Definition arrived (db : DB) (h : bytes) (n : Z) (P : gset Z) : Prop :=
  get_cf db "operations_meta_storage" h = Ok (Some (record_bytes n P)).

Lemma get_arrived db h n P :
  0 ≤ n → arrived db h n P → get h db = Ok (Some (record n P)).
Proof.
  intros Hn Ha. unfold get. rewrite (kv_get_raw OperationsMetaStorage h h) by done.
  cbn [name OperationsMetaStorage]. rewrite Ha.
  change (decode (record_bytes n P)) with (meta_decode (record_bytes n P)). by rewrite record_decode.
Qed.

Lemma get_not_arrived db h : get_cf db "operations_meta_storage" h = Ok None → get h db = Ok None.
Proof. intros E. unfold get. rewrite (kv_get_raw OperationsMetaStorage h h) by done. cbn [name OperationsMetaStorage]. by rewrite E. Qed.

Lemma put_arrived db h n old P Q :
  0 ≤ n → get_cf db "operations_meta_storage" h = Ok old →
  (old = None ∧ P = Q) ∨ (old = Some (record_bytes n P) ∧ P ⊆ Q) →
  ∃ db', put h (record n Q) db = (db', Ok ()) ∧ arrived db' h n Q ∧
    ∀ n' h', ¬ (n' = "operations_meta_storage"%string ∧ h' = h) → get_cf db' n' h' = get_cf db n' h'.
Proof.
  intros Hn Ho Hold.
  destruct (kv_merge_ok OperationsMetaStorage operations_meta_descriptor merge_meta_value h h
    (record n Q) (record_bytes n Q) db) as (db' & E & Eg & Ef); try done; [by apply record_encode|].
  exists db'. unfold put, err_into. rewrite E. split; [done|]. split.
  - apply (Eg old); [done|]. destruct Hold as [[-> _]|[-> Hsub]]; [done|].
    unfold merge_meta_value. cbn [merge_operands]. rewrite merge_records by auto. cbn.
    by replace (P ∪ Q) with Q by set_solver.
  - intros n' h' Hne. by apply Ef.
Qed.

Lemma flags_insert n P p :
  0 ≤ p < n → <[Z.to_nat p := 1]> (flags n P) = flags n (P ∪ {[p]}).
Proof.
  intros Hp. unfold flags. apply list_eq. intros i. rewrite !list_lookup_fmap.
  destruct (decide (i = Z.to_nat p)) as [->|Hne].
  - rewrite list_lookup_insert_eq.
    + rewrite lookup_seqZ_lt by lia. cbn. unfold flag. rewrite decide_True; [done|]. set_solver by lia.
    + rewrite length_fmap, length_seqZ. lia.
  - rewrite list_lookup_insert_ne by done. rewrite list_lookup_fmap.
    destruct (seqZ 0 n !! i) as [x|] eqn:Ex; [|done]. cbn. f_equal. unfold flag.
    apply lookup_seqZ in Ex as [-> Hi]. apply decide_ext. set_solver by lia.
Qed.

Lemma forallb_flags n P : forallb (λ v, bool_decide (v = 1)) (flags n P) = all_present n P.
Proof.
  unfold flags, all_present. induction (seqZ 0 n) as [|i l IH]; [done|]. cbn. rewrite IH. f_equal.
  unfold flag. apply bool_decide_ext. by case_decide.
Qed.

Definition missing_passes (n : Z) (P : gset Z) : gset Z :=
  filter (λ i, i ∉ P) (list_to_set (seqZ 0 n)).

Lemma elem_of_missing n P i : i ∈ missing_passes n P ↔ 0 ≤ i < n ∧ i ∉ P.
Proof.
  unfold missing_passes. rewrite elem_of_filter, elem_of_list_to_set, elem_of_seqZ. split; [|tauto].
  intros [? ?]. split; [lia|done].
Qed.

(** What is reported to the caller. *)
Definition report (n : Z) (P : gset Z) : bool * option (gset Z) :=
  if all_present n P then (true, None)
  else (false, Some (missing_passes n P)).

Lemma missing_record n P :
  0 ≤ n ≤ 255 → (is_complete (record n P), get_missing_validation_passes (record n P)) = report n P.
Proof.
  intros Hn. unfold report, get_missing_validation_passes. cbn [is_complete record].
  destruct (all_present n P); [done|]. do 2 f_equal. apply set_eq. intros i.
  cbn [is_validation_pass_present record]. rewrite elem_of_list_to_set, elem_of_missing, list_elem_of_omap.
  split.
  - intros ([idx v] & Hin & Hif). apply elem_of_lookup_imap in Hin as (j & y & [= -> ->] & Hj).
    unfold flags in Hj. rewrite list_lookup_fmap_Some in Hj. destruct Hj as (x & -> & Hx).
    apply lookup_seqZ in Hx as [-> Hj]. unfold flag in Hif. repeat case_decide; try done.
    injection Hif as <-. rewrite Z.mod_small by lia. split; [lia|]. by rewrite Z.add_0_l in *.
  - intros [Hi Hnin]. exists (Z.to_nat i, 0). split.
    + apply elem_of_lookup_imap. exists (Z.to_nat i), 0. split; [done|]. unfold flags.
      rewrite list_lookup_fmap, lookup_seqZ_lt by lia. cbn. unfold flag.
      rewrite decide_False; [done|]. by rewrite Z.add_0_l, Z2Nat.id by lia.
    + rewrite decide_True by done. f_equal. rewrite Z2Nat.id, Z.mod_small by lia. done.
Qed.

Lemma put_pass_arrived db h n P message :
  let p := as_u8 (operations_validation_pass message) in
  0 ≤ n ≤ 255 → arrived db h n P → operations_block_hash message = h → p < n →
  ∃ db', put_operations message db = (db', Ok (report n (P ∪ {[p]}))) ∧ arrived db' h n (P ∪ {[p]}) ∧
    ∀ n' h', ¬ (n' = "operations_meta_storage"%string ∧ h' = h) → get_cf db' n' h' = get_cf db n' h'.
Proof.
  intros p Hn Ha Hh Hp. unfold put_operations, reads_state. rewrite Hh.
  rewrite (get_arrived db h n P) by (done || lia). fold p.
  assert (0 ≤ p) as Hp0 by (apply Z.mod_pos_bound; lia).
  cbn [is_validation_pass_present validation_passes record].
  rewrite decide_True by (rewrite len_flags by lia; lia).
  rewrite flags_insert, forallb_flags by lia. fold (record n (P ∪ {[p]})).
  destruct (put_arrived db h n (Some (record_bytes n P)) P (P ∪ {[p]})) as (db' & E & Ha' & Hf);
    [lia|done|right; split; [done|set_solver]|].
  exists db'. unfold and_both, ret. rewrite E. split; [by rewrite missing_record|]. done.
Qed.

Lemma put_operations_arrived db h n P message :
  0 ≤ n ≤ 255 → arrived db h n P → operations_block_hash message = h →
  0 ≤ operations_validation_pass message < n →
  let Q := P ∪ {[operations_validation_pass message]} in
  ∃ db', put_operations message db = (db', Ok (report n Q)) ∧ arrived db' h n Q ∧
    ∀ h', h' ≠ h → get_cf db' "operations_meta_storage" h' = get_cf db "operations_meta_storage" h'.
Proof.
  intros Hn Ha Hh Hp Q.
  assert (as_u8 (operations_validation_pass message) = operations_validation_pass message) as E
    by (unfold as_u8; apply Z.mod_small; lia).
  destruct (put_pass_arrived db h n P message Hn Ha Hh) as (db' & E' & Ha' & Hf); [lia|].
  rewrite E in *. exists db'. split; [done|]. split; [done|]. intros h' Hne. apply Hf. by intros [_ ?].
Qed.

(** The messages arrive one after the other. *)
Fixpoint put_all (messages : list OperationsForBlock_t) : io DB () StorageError :=
  match messages with
  | [] => ret ()
  | message :: messages => do? _ := put_operations message in put_all messages
  end.

Lemma put_all_arrived h n messages P db :
  0 ≤ n ≤ 255 → arrived db h n P →
  Forall (λ m, operations_block_hash m = h ∧ 0 ≤ operations_validation_pass m < n) messages →
  ∃ db', put_all messages db = (db', Ok ()) ∧
    arrived db' h n (P ∪ list_to_set (map operations_validation_pass messages)).
Proof.
  intros Hn. revert P db. induction messages as [|m messages IH]; intros P db Ha Hm; cbn [put_all map].
  - exists db. split; [done|]. rewrite list_to_set_nil. by rewrite union_empty_r_L.
  - inversion_clear Hm as [|? ? [Hh Hp] Hm'].
    destruct (put_operations_arrived db h n P m) as (db1 & -> & Ha1 & _); [done..|].
    destruct (IH _ db1 Ha1 Hm') as (db2 & E & Ha2). exists db2. split; [done|].
    rewrite list_to_set_cons. by rewrite union_assoc_L.
Qed.

Lemma meta_new_record n : 0 ≤ n → meta_new n = record n ∅.
Proof.
  intros Hn. unfold meta_new, record. f_equal.
  - unfold flags. apply list_eq. intros i. rewrite list_lookup_fmap.
    destruct (decide (i < Z.to_nat n)%nat).
    + rewrite lookup_replicate_2, lookup_seqZ_lt by lia. done.
    + rewrite lookup_ge_None_2 by (rewrite length_replicate; lia). by rewrite lookup_seqZ_ge by lia.
  - apply eq_true_iff_eq. rewrite bool_decide_eq_true, all_present_spec. split.
    + intros -> i Hi. lia.
    + intros Hall. destruct (decide (n = 0)); [done|]. specialize (Hall 0 ltac:(lia)). set_solver.
Qed.

Lemma missing_empty n P : bool_decide (missing_passes n P = ∅) = all_present n P.
Proof.
  apply eq_true_iff_eq. rewrite bool_decide_eq_true, all_present_spec. split.
  - intros E i Hi. destruct (decide (i ∈ P)) as [|Hnin]; [done|].
    assert (i ∈ (∅ : gset Z)) by (rewrite <- E; by apply elem_of_missing). set_solver.
  - intros Hall. apply set_eq. intros i. rewrite elem_of_missing. split; [|set_solver].
    intros [Hi Hnin]. by apply Hall in Hi.
Qed.

(** A block is complete exactly when the operations of all its passes have
    arrived.  After the header of a block with [n] passes, let messages with
    operations for it arrive in any order, repetitions included, and then one
    more.  Nothing fails, and the answer to the last one, like a later query,
    says that the block is complete if every pass below [n] is among them, and
    otherwise names exactly the passes that are missing. *)
Theorem complete_exactly_when_all_arrived b messages message db :
  let n := validation_pass (header b) in
  let ours m := operations_block_hash m = hash b ∧ 0 ≤ operations_validation_pass m < n in
  let arrivals := map operations_validation_pass (messages ++ [message]) in
  0 ≤ n ≤ 255 → get_cf db "operations_meta_storage" (hash b) = Ok None →
  Forall ours messages → ours message →
  ∃ db1 db2 db3 missing,
    put_block_header b db = (db1, Ok (report n ∅)) ∧
    put_all messages db1 = (db2, Ok ()) ∧
    put_operations message db2 = (db3, Ok (bool_decide (missing = ∅),
      if decide (missing = ∅) then None else Some missing)) ∧
    operations_complete (hash b) db3 = Ok (bool_decide (missing = ∅)) ∧
    ∀ i, i ∈ missing ↔ 0 ≤ i < n ∧ i ∉ arrivals.
Proof.
  intros n ours arrivals Hn Hnone Hms [Hmh Hmp].
  destruct (put_arrived db (hash b) n None ∅ ∅) as (db1 & E1 & A1 & _); [lia|done|by left|].
  destruct (put_all_arrived (hash b) n messages ∅ db1) as (db2 & E2 & A2); [done..|].
  destruct (put_operations_arrived db2 (hash b) n _ message Hn A2 Hmh Hmp) as (db3 & E3 & A3 & _).
  rewrite union_empty_l_L in *. set (P := list_to_set (C := gset Z) arrivals).
  assert (list_to_set (map operations_validation_pass messages) ∪ {[operations_validation_pass message]}
    = P) as EP by (unfold P, arrivals; rewrite map_app, list_to_set_app_L; set_solver).
  rewrite EP in *. exists db1, db2, db3, (missing_passes n P).
  split.
  { unfold put_block_header, and_both, ret. fold n. rewrite meta_new_record, E1 by lia.
    by rewrite missing_record. }
  split; [done|]. rewrite E3. unfold report. pose proof (missing_empty n P) as Hc. split.
  { rewrite <- Hc. by destruct (decide (missing_passes n P = ∅));
      [rewrite bool_decide_eq_true_2|rewrite bool_decide_eq_false_2]. }
  split.
  - unfold operations_complete. rewrite (get_arrived db3 (hash b) n P) by (done || lia).
    cbn [is_complete record]. by rewrite Hc.
  - intros i. rewrite elem_of_missing. unfold P. by rewrite elem_of_list_to_set.
Qed.

End Complete.

Module OperationsMetaWitnesses.
Import ConcreteDb.

Definition families : list ColumnFamilyDescriptor := [operations_meta_descriptor].

#[local] Instance operations_meta_db : RocksDb := memory_db families.
#[local] Instance operations_meta_db_laws : RocksDbLaws families.
Proof. apply memory_db_laws. apply NoDup_singleton. Qed.

Lemma operations_meta_opened : operations_meta_descriptor ∈ families.
Proof. left. Qed.

Definition h : bytes := replicate 32 7.
Definition block : BlockHeaderWithHash :=
  mkBlockHeaderWithHash h (mkBlockHeader 1 0 h 0 4 [] [] [] []).
Definition pass (p : Z) : OperationsForBlock_t := mkOperationsForBlock h p.

Lemma complete_exactly_when_all_arrived_witness :
  ∃ db1 db2 db3 missing,
    put_block_header block ∅ = (db1, Ok (report 4 ∅)) ∧
    put_all [pass 3; pass 0; pass 3] db1 = (db2, Ok ()) ∧
    put_operations (pass 1) db2 = (db3, Ok (bool_decide (missing = ∅),
      if decide (missing = ∅) then None else Some missing)) ∧
    2 ∈ missing.
Proof.
  destruct (complete_exactly_when_all_arrived operations_meta_opened block [pass 3; pass 0; pass 3] (pass 1) ∅)
    as (db1 & db2 & db3 & missing & E1 & E2 & E3 & _ & Hm).
  - done.
  - reflexivity.
  - by repeat constructor.
  - done.
  - exists db1, db2, db3, missing. split; [done|]. split; [done|]. split; [done|].
    apply Hm. split; [done|]. cbn. rewrite !elem_of_cons, elem_of_nil. intros [|[|[|[|[]]]]]; done.
Defined.

End OperationsMetaWitnesses.
