(* ===== verification/BlockStorage.v ===== *)
(** * Block headers and the commit log

    [storage/src/persistent/commit_log.rs] and [storage/src/block_storage.rs]:
    headers and results of blocks are appended to a log, and indices in the
    key-value store point into it.  The crate commitlog is a parameter. *)

From stdpp Require Import gmap.
From S2P Require Import Prelude Hash NomReader Kv Blocks.

(** ** The commit log *)

Class CommitLogLib : Type := {
  CommitLog : Type;
  next_offset : CommitLog → Z;
  (* the offset of the new message *)
  append_msg : CommitLog → bytes → CommitLog * result Z string;
  (* the messages from an offset on, within a number of bytes *)
  log_read : CommitLog → Z → Z → result (list bytes) string
}.

(** The largest message that a log is opened for. *)
Definition message_max_bytes : Z := 30000000.

(** A log whose device does not fail: offsets are consecutive, and what was
    appended is the first message at
    its offset, if the limit has room for it and its header (20 bytes). *)
Class CommitLogLaws `{CommitLogLib} : Prop := {
  append_msg_ok l b : len b ≤ message_max_bytes →
    ∃ l', append_msg l b = (l', Ok (next_offset l)) ∧ next_offset l' = next_offset l + 1 ∧
      (∀ limit, len b + 32 ≤ limit → ∃ more, log_read l' (next_offset l) limit = Ok (b :: more)) ∧
      (∀ o' limit m more, log_read l o' limit = Ok (m :: more) →
        ∃ more', log_read l' o' limit = Ok (m :: more'))
}.

(** The logs by name. *)
Abbreviation CommitLogs := (gmap string CommitLog).

(** [Range]: an offset, a number of bytes, a number of records *)
Record Range := mkRange { range_offset : Z; range_limit : Z; range_count : Z }.

Definition is_consecutive (self prev : Location) : bool :=
  bool_decide (offset prev < offset self) && bool_decide (offset self - offset prev = 1).

Definition fit_read_limit (limit : Z) : Z := limit + 32.
Definition fit_batch_read_limit (limit items : Z) : Z := limit + 32 * items.

Fixpoint fold_locations (locations : list Location) (prev : Location) (range : Range) : list Range :=
  match locations with
  | [] => [range]
  | curr :: locations =>
      if is_consecutive curr prev then
        fold_locations locations curr
          (mkRange (range_offset range) (range_limit range + byte_limit curr) (range_count range + 1))
      else
        range :: fold_locations locations curr (mkRange (offset curr) (byte_limit curr) 1)
  end.

Definition fold_consecutive_locations (locations : list Location) : list Range :=
  match locations with
  | [] => []
  | prev :: locations => fold_locations locations prev (mkRange (offset prev) (byte_limit prev) 1)
  end.

Section Log.
Context `{CommitLogLib} {A : Type} `{Codec A} (log_name : string).

Definition log_append (value : A) : io CommitLogs Location CommitLogError :=
  λ logs,
    match logs !! log_name with
    | None => (logs, Err (MissingCommitLog log_name))
    | Some cl =>
        match encode value with
        | Err e => (logs, Err (LogSchemaError e))
        | Ok bytes =>
            let '(cl, r) := append_msg cl bytes in
            (<[log_name := cl]> logs,
             match r with
             | Ok offset => Ok (mkLocation offset (len bytes))
             | Err e => Err (AppendError e)
             end)
        end
    end.

Definition log_get (location : Location) (logs : CommitLogs) : result A CommitLogError :=
  let? cl := ok_or (logs !! log_name) (MissingCommitLog log_name) in
  let? msg_buf :=
    map_err (λ e, ReadError e location) (log_read cl (offset location) (fit_read_limit (byte_limit location))) in
  match msg_buf with
  | [] => Err (ReadError "CorruptLog" location)
  | bytes :: _ => map_err LogSchemaError (decode bytes)
  end.

Fixpoint decode_messages (msgs : list bytes) (location : Location) : result (list A) CommitLogError :=
  match msgs with
  | [] => Ok []
  | m :: msgs =>
      let? a := map_err (λ _, ReadError "CorruptLog" location) (decode m) in
      let? rest := decode_messages msgs location in
      Ok (a :: rest)
  end.

Definition log_get_range (range : Range) (logs : CommitLogs) : result (list A) CommitLogError :=
  let location := mkLocation (range_offset range) (range_limit range) in
  let? cl := ok_or (logs !! log_name) (MissingCommitLog log_name) in
  let? msg_buf :=
    map_err (λ e, ReadError e location)
      (log_read cl (range_offset range) (fit_batch_read_limit (range_limit range) (range_count range))) in
  decode_messages (take (Z.to_nat (range_count range)) msg_buf) location.

End Log.

(** ** Block storage *)

Record BlockJsonData := mkBlockJsonData {
  block_header_proto_json : bytes;
  block_header_proto_metadata_bytes : bytes;
  operations_proto_metadata_bytes : list (list bytes)
}.

Inductive BlockStorageColumn :=
| ColumnBlockHeader (block_header : BlockHeaderWithHash)
| ColumnBlockJsonData (json_data : BlockJsonData).

Record BlockStorageColumnsLocation := mkColumnsLocation {
  block_header_location : Location;
  block_json_data_location : option Location
}.

Section BlockStorage.
Context `{RocksDb, CommitLogLib}.
Context `{Bincode BlockStorageColumn, Bincode BlockStorageColumnsLocation}.

Definition BlockPrimaryIndex : KeyValueSchema :=
  mkSchema bytes BlockStorageColumnsLocation (hash_codec BlockHash)
    (bincode_codec BlockStorageColumnsLocation) "block_storage".

Definition BlockByLevelIndex : KeyValueSchema :=
  mkSchema Z BlockStorageColumnsLocation (inum_codec 4)
    (bincode_codec BlockStorageColumnsLocation) "block_by_level_storage".

Definition BlockByContextHashIndex : KeyValueSchema :=
  mkSchema bytes BlockStorageColumnsLocation (hash_codec ContextHash)
    (bincode_codec BlockStorageColumnsLocation) "block_by_context_hash_storage".

(** The state of the storages: the database and the logs. *)
Record Persistent := mkPersistent { db : DB; logs : CommitLogs }.

Definition on_db {A E} (f : E → StorageError) (m : io DB A E) : io Persistent A StorageError :=
  λ s, let '(db', r) := m (db s) in (mkPersistent db' (logs s), map_err f r).

Definition on_logs {A E} (f : E → StorageError) (m : io CommitLogs A E) : io Persistent A StorageError :=
  λ s, let '(logs', r) := m (logs s) in (mkPersistent (db s) logs', map_err f r).

Definition clog_append (column : BlockStorageColumn) : io Persistent Location StorageError :=
  on_logs StorageCommitLogError
    (log_append (H0 := bincode_codec BlockStorageColumn) "block_storage" column).

Definition clog_get (location : Location) (s : Persistent) : result BlockStorageColumn StorageError :=
  map_err StorageCommitLogError
    (log_get (H0 := bincode_codec BlockStorageColumn) "block_storage" location (logs s)).

Definition primary_put (h : bytes) (location : BlockStorageColumnsLocation) : io Persistent () StorageError :=
  on_db StorageDBError (kv_put BlockPrimaryIndex h location).
Definition primary_get (h : bytes) (s : Persistent)
    : result (option BlockStorageColumnsLocation) StorageError :=
  map_err StorageDBError (kv_get BlockPrimaryIndex h (db s)).
Definition primary_contains (h : bytes) (s : Persistent) : result bool StorageError :=
  map_err StorageDBError (kv_contains BlockPrimaryIndex h (db s)).
Definition by_level_put (level : Z) (location : BlockStorageColumnsLocation) : io Persistent () StorageError :=
  on_db StorageDBError (kv_put BlockByLevelIndex level location).
Definition by_context_put (c : bytes) (location : BlockStorageColumnsLocation) : io Persistent () StorageError :=
  on_db StorageDBError (kv_put BlockByContextHashIndex c location).
Definition by_context_get (c : bytes) (s : Persistent)
    : result (option BlockStorageColumnsLocation) StorageError :=
  map_err StorageDBError (kv_get BlockByContextHashIndex c (db s)).
Definition contains_context_hash (c : bytes) (s : Persistent) : result bool StorageError :=
  map_err StorageDBError (kv_contains BlockByContextHashIndex c (db s)).

(** Returns true, if it is a new block. *)
Definition put_block_header (block_header : BlockHeaderWithHash) : io Persistent bool StorageError :=
  do? known := reads_state (primary_contains (hash block_header)) in
  if known then ret false
  else
    do? block_header_location := clog_append (ColumnBlockHeader block_header) in
    let location := mkColumnsLocation block_header_location None in
    and_both
      (and_both (primary_put (hash block_header) location)
         (by_level_put (header_level (header block_header)) location))
      (ret true).

Definition get_block_header_by_location (location : BlockStorageColumnsLocation) (s : Persistent)
    : result BlockHeaderWithHash StorageError :=
  let? column := clog_get (block_header_location location) s in
  match column with
  | ColumnBlockHeader block_header => Ok block_header
  | _ => Err InvalidColumn
  end.

Definition get_block_json_data_by_location (location : BlockStorageColumnsLocation) (s : Persistent)
    : result (option BlockJsonData) StorageError :=
  match block_json_data_location location with
  | Some l =>
      let? column := clog_get l s in
      match column with
      | ColumnBlockJsonData json_data => Ok (Some json_data)
      | _ => Err InvalidColumn
      end
  | None => Ok None
  end.

Definition put_block_json_data (block_hash : bytes) (json_data : BlockJsonData)
    : io Persistent () StorageError :=
  do? json_location := clog_append (ColumnBlockJsonData json_data) in
  do? column_location := reads_state (primary_get block_hash) in
  do? column_location := pure (ok_or column_location MissingKey) in
  let updated := mkColumnsLocation (block_header_location column_location) (Some json_location) in
  do? block_header := reads_state (get_block_header_by_location updated) in
  and_both (primary_put (hash block_header) updated)
    (by_level_put (header_level (header block_header)) updated).

Definition assign_to_context (block_hash context_hash : bytes) : io Persistent () StorageError :=
  do? location := reads_state (primary_get block_hash) in
  match location with
  | Some location => by_context_put context_hash location
  | None => throw MissingKey
  end.

Definition get (block_hash : bytes) (s : Persistent) : result (option BlockHeaderWithHash) StorageError :=
  let? location := primary_get block_hash s in
  match location with
  | Some location => let? h := get_block_header_by_location location s in Ok (Some h)
  | None => Ok None
  end.

Definition get_json_data (block_hash : bytes) (s : Persistent)
    : result (option BlockJsonData) StorageError :=
  let? location := primary_get block_hash s in
  match location with
  | Some location => get_block_json_data_by_location location s
  | None => Ok None
  end.

Definition get_with_json_data (block_hash : bytes) (s : Persistent)
    : result (option (BlockHeaderWithHash * BlockJsonData)) StorageError :=
  let? location := primary_get block_hash s in
  match location with
  | Some location =>
      let? json_data := get_block_json_data_by_location location s in
      match json_data with
      | Some json_data => let? h := get_block_header_by_location location s in Ok (Some (h, json_data))
      | None => Ok None
      end
  | None => Ok None
  end.

Definition get_by_context_hash (context_hash : bytes) (s : Persistent)
    : result (option BlockHeaderWithHash) StorageError :=
  let? location := by_context_get context_hash s in
  match location with
  | Some location => let? h := get_block_header_by_location location s in Ok (Some h)
  | None => Ok None
  end.

End BlockStorage.

(** ** The storage against a map of blocks *)

Definition location_ok (l : Location) : Prop := uint_range 64 (offset l) ∧ uint_range 64 (byte_limit l).
Definition columns_location_ok (l : BlockStorageColumnsLocation) : Prop :=
  location_ok (block_header_location l) ∧
  (∀ j, block_json_data_location l = Some j → location_ok j).

Definition block_storage_families : list ColumnFamilyDescriptor :=
  [mkColumnFamily "block_storage" None; mkColumnFamily "block_by_level_storage" None;
   mkColumnFamily "block_by_context_hash_storage" None].

Section Refinement.
Context `{RocksDbLaws cfs, CommitLogLaws}.
Context `{Bincode BlockStorageColumn} `{BincodeLaws BlockStorageColumnsLocation columns_location_ok}.
Context (Hopen : block_storage_families ⊆ cfs).

(** A column that bincode keeps and that fits into a message of the log. *)
Definition storable (c : BlockStorageColumn) : Prop :=
  ∃ b, bincode_serialize c = Some b ∧ bincode_deserialize b = Some c ∧ len b ≤ message_max_bytes.

(** The log has offsets left for [n] more messages. *)
Definition room (n : Z) (s : Persistent) : Prop :=
  ∃ cl, logs s !! "block_storage"%string = Some cl ∧ 0 ≤ next_offset cl ∧ next_offset cl + n ≤ 2 ^ 64.

Lemma room_le m n s : m ≤ n → room n s → room m s.
Proof. intros Hm (cl & E & H0' & Hn). exists cl. split; [done|]. lia. Qed.

Lemma room_log n s : room n s → is_Some (logs s !! "block_storage"%string).
Proof. intros (cl & E & _). by exists cl. Qed.

#[local] Instance primary_table : Table cfs BlockPrimaryIndex (hash_ok BlockHash) columns_location_ok.
Proof.
  split; [|apply hash_codec_laws|by apply bincode_codec_laws].
  exists (mkColumnFamily "block_storage" None). split; [apply Hopen; left|done].
Qed.

#[local] Instance by_level_table : Table cfs BlockByLevelIndex (int_range 32) columns_location_ok.
Proof.
  split; [|by apply (inum_codec_laws 4); lia|by apply bincode_codec_laws].
  exists (mkColumnFamily "block_by_level_storage" None). split; [apply Hopen; right; left|done].
Qed.

Lemma clog_append_ok n c s :
  storable c → 0 ≤ n → room (n + 1) s →
  ∃ s' l, clog_append c s = (s', Ok l) ∧ location_ok l ∧ clog_get l s' = Ok c ∧
    (∀ l' c', clog_get l' s = Ok c' → clog_get l' s' = Ok c') ∧
    db s' = db s ∧ room n s'.
Proof.
  intros (b & Es & Ed & Hlen) Hn (cl & Ecl & Ho & Hmax).
  destruct (append_msg_ok cl b Hlen) as (cl' & Ea & Enext & Hr & Hkeep).
  exists (mkPersistent (db s) (<["block_storage"%string := cl']> (logs s))),
    (mkLocation (next_offset cl) (len b)).
  unfold clog_append, on_logs, log_append. rewrite Ecl. cbn [encode bincode_codec].
  rewrite Es. cbn [ok_or]. rewrite Ea. split; [done|]. split.
  { split; [unfold uint_range; cbn; lia|]. cbn. pose proof (len_nonneg b). unfold message_max_bytes, uint_range in *. lia. }
  unfold clog_get, log_get. cbn [logs db]. rewrite lookup_insert_eq. cbn [ok_or offset byte_limit].
  split.
  { destruct (Hr (fit_read_limit (len b))) as [more ->]; [unfold fit_read_limit; lia|]. cbn.
    by rewrite Ed. }
  split; [|split; [done|]].
  2: { exists cl'. cbn [logs]. rewrite lookup_insert_eq. split; [done|]. lia. }
  intros l' c'. rewrite Ecl. cbn [ok_or].
  destruct (log_read cl _ _) as [[|m more]|] eqn:Er; try done.
  destruct (Hkeep _ _ _ _ Er) as [more' ->]. done.
Qed.

(** The storage holds the blocks [B], some of them with the result of their
    application. *)
Definition holds_block (s : Persistent) (h : bytes)
    (e : option (BlockHeaderWithHash * option BlockJsonData)) : Prop :=
  match e with
  | None => primary_get h s = Ok None
  | Some (b, j) =>
      hash b = h ∧ int_range 32 (header_level (header b)) ∧
      ∃ l, primary_get h s = Ok (Some l) ∧ columns_location_ok l ∧
        get_block_header_by_location l s = Ok b ∧ get_block_json_data_by_location l s = Ok j
  end.

Definition holds (s : Persistent) (B : gmap bytes (BlockHeaderWithHash * option BlockJsonData)) : Prop :=
  is_Some (logs s !! "block_storage"%string) ∧
  ∀ h, hash_ok BlockHash h → holds_block s h (B !! h).

Lemma by_location_keep l s s' b j :
  (∀ l' c', clog_get l' s = Ok c' → clog_get l' s' = Ok c') →
  get_block_header_by_location l s = Ok b → get_block_json_data_by_location l s = Ok j →
  get_block_header_by_location l s' = Ok b ∧ get_block_json_data_by_location l s' = Ok j.
Proof.
  intros Hkeep. unfold get_block_header_by_location, get_block_json_data_by_location.
  destruct (clog_get (block_header_location l) s) as [c|] eqn:Ec; [|done].
  rewrite (Hkeep _ _ Ec). intros Eb Ej. split; [done|].
  destruct (block_json_data_location l) as [lj|]; [|done].
  destruct (clog_get lj s) as [c'|] eqn:Ec'; [|done]. by rewrite (Hkeep _ _ Ec').
Qed.

(** A longer log keeps the blocks. *)
Lemma holds_block_keep s s' h e :
  (∀ l' c', clog_get l' s = Ok c' → clog_get l' s' = Ok c') → primary_get h s' = primary_get h s →
  holds_block s h e → holds_block s' h e.
Proof.
  intros Hkeep Eg. destruct e as [[b j]|]; cbn; [|by rewrite Eg].
  intros (Hh & Hl & l & El & Hok & Eb & Ej). split; [done|]. split; [done|]. exists l. rewrite Eg.
  split; [done|]. split; [done|]. by apply (by_location_keep l s).
Qed.

(** Nothing changed in the database but for the two indices. *)
Definition elsewhere (s s' : Persistent) : Prop :=
  ∀ n' kb, n' ≠ name BlockPrimaryIndex → n' ≠ name BlockByLevelIndex →
    get_cf (db s') n' kb = get_cf (db s) n' kb.

(** Both indices are written, and only the primary one is read. *)
Lemma put_indices h lvl l s :
  hash_ok BlockHash h → int_range 32 lvl → columns_location_ok l →
  ∃ s', and_both (primary_put h l) (by_level_put lvl l) s = (s', Ok ()) ∧ logs s' = logs s ∧
    primary_get h s' = Ok (Some l) ∧
    (∀ h', hash_ok BlockHash h' → h' ≠ h → primary_get h' s' = primary_get h' s) ∧
    elsewhere s s'.
Proof.
  intros Hh Hl Hok. unfold and_both, primary_put, by_level_put, on_db.
  destruct (kv_put_ok BlockPrimaryIndex h l (db s)) as (db1 & E1 & G1 & O1 & F1); [done..|].
  rewrite E1. cbn [db logs].
  destruct (kv_put_ok BlockByLevelIndex lvl l db1) as (db2 & E2 & _ & _ & F2); [done..|].
  rewrite E2. eexists. split; [done|]. split; [done|]. unfold primary_get. cbn [db].
  assert (∀ k, kv_get BlockPrimaryIndex k db2 = kv_get BlockPrimaryIndex k db1) as Ek
    by (intros k; by apply (kv_get_frame BlockPrimaryIndex k db1 db2 (name BlockByLevelIndex))).
  split; [by rewrite Ek, G1|]. split; [intros h' Hh' Hne; by rewrite Ek, O1|].
  intros n' kb Hn1 Hn2. cbn [db]. by rewrite F2, F1.
Qed.

Lemma block_put_header_holds n s B b :
  holds s B → 0 ≤ n → room (n + 1) s → storable (ColumnBlockHeader b) → hash_ok BlockHash (hash b) →
  int_range 32 (header_level (header b)) →
  ∃ s', put_block_header b s = (s', Ok (bool_decide (B !! hash b = None))) ∧
    holds s' (if decide (B !! hash b = None) then <[hash b := (b, None)]> B else B) ∧
    room n s' ∧ elsewhere s s'.
Proof.
  intros [_ HB] Hn Hlog Hst Hh Hl. unfold put_block_header, reads_state, primary_contains.
  pose proof (HB _ Hh) as Hb. destruct (B !! hash b) as [[b0 j0]|] eqn:E.
  - destruct Hb as (_ & _ & l & El & _). unfold primary_get in El.
    destruct (kv_get BlockPrimaryIndex (hash b) (db s)) as [v|] eqn:Ev; [|done].
    cbn in El. injection El as ->. rewrite (kv_contains_get _ _ _ _ Ev). cbn.
    exists s. split; [done|]. rewrite decide_False by done. split; [by split; [eapply room_log|]|].
    split; [|done]. eapply room_le; [|done]. lia.
  - unfold holds_block, primary_get in Hb.
    destruct (kv_get BlockPrimaryIndex (hash b) (db s)) as [v|] eqn:Ev; [|done].
    cbn in Hb. injection Hb as ->. rewrite (kv_contains_get _ _ _ _ Ev). cbn [map_err].
    rewrite bool_decide_eq_false_2 by (by intros [? ?]). rewrite decide_True by done.
    destruct (clog_append_ok n (ColumnBlockHeader b) s Hst Hn Hlog) as (s1 & l & -> & Hlok & Hget & Hkeep & Edb & Hlog1).
    destruct (put_indices (hash b) (header_level (header b)) (mkColumnsLocation l None) s1)
      as (s2 & Ep & Elogs & G2 & O2 & F2); [done|done|split; [done|by intros j [=]]|].
    unfold and_both in *. destruct (primary_put _ _ s1) as [s1' r1]. destruct (by_level_put _ _ s1') as [s2' r2].
    injection Ep as <- Er. destruct r1 as [[]|]; [|done]. rewrite Er. exists s2'. split; [done|].
    assert (∀ l' c', clog_get l' s1 = Ok c' → clog_get l' s2' = Ok c') as Hkeep2
      by (intros l' c'; unfold clog_get; by rewrite Elogs).
    assert (room n s2') as Hroom by (unfold room; by rewrite Elogs).
    split; [|split; [done|intros n' kb Hn1 Hn2; by rewrite F2, Edb]].
    split; [by eapply room_log|]. intros h Hh'. destruct (decide (h = hash b)) as [->|Hne].
    + rewrite lookup_insert_eq. split; [done|]. split; [done|]. eexists. split; [done|].
      split; [split; [done|by intros j [=]]|]. split; [|done].
      unfold get_block_header_by_location. cbn [block_header_location]. by rewrite (Hkeep2 _ _ Hget).
    + rewrite lookup_insert_ne by done. apply (holds_block_keep s); [|..].
      * intros l' c' Hc. by apply Hkeep2, Hkeep.
      * rewrite O2 by done. unfold primary_get. by rewrite Edb.
      * by apply HB.
Qed.

Lemma put_block_json_data_holds n s B h j :
  holds s B → 0 ≤ n → room (n + 1) s → storable (ColumnBlockJsonData j) → hash_ok BlockHash h →
  ∃ s', put_block_json_data h j s
      = (s', if decide (B !! h = None) then Err MissingKey else Ok ()) ∧
    holds s' (match B !! h with Some (b, _) => <[h := (b, Some j)]> B | None => B end) ∧
    room n s' ∧ elsewhere s s'.
Proof.
  intros [_ HB] Hn Hlog Hst Hh. unfold put_block_json_data.
  destruct (clog_append_ok n (ColumnBlockJsonData j) s Hst Hn Hlog) as (s1 & l & -> & Hlok & Hget & Hkeep & Edb & Hlog1).
  assert (∀ h', primary_get h' s1 = primary_get h' s) as Eg
    by (intros h'; unfold primary_get; by rewrite Edb).
  assert (∀ h', hash_ok BlockHash h' → holds_block s1 h' (B !! h')) as HB1
    by (intros h' Hh'; by apply (holds_block_keep s); [..|apply HB]).
  pose proof (HB1 _ Hh) as Hb. unfold reads_state, pure.
  destruct (B !! h) as [[b j0]|] eqn:E.
  - destruct Hb as (Hbh & Hbl & l0 & -> & Hl0 & Eb & Ej). cbn [ok_or].
    pose (upd := mkColumnsLocation (block_header_location l0) (Some l)).
    assert (get_block_header_by_location upd s1 = Ok b) as Ebu by exact Eb. fold upd. rewrite Ebu.
    destruct (put_indices (hash b) (header_level (header b)) upd s1) as (s2 & Ep & Elogs & G2 & O2 & F2);
      [by rewrite Hbh|done|split; [apply (proj1 Hl0)|by intros j' [= <-]]|].
    rewrite Ep. exists s2. rewrite decide_False by done. split; [done|].
    assert (∀ l' c', clog_get l' s1 = Ok c' → clog_get l' s2 = Ok c') as Hkeep2
      by (intros l' c'; unfold clog_get; by rewrite Elogs).
    assert (room n s2) as Hroom by (unfold room; by rewrite Elogs).
    split; [|split; [done|intros n' kb Hn1 Hn2; by rewrite F2, Edb]].
    split; [by eapply room_log|]. rewrite Hbh in *. intros h' Hh'. destruct (decide (h' = h)) as [->|Hne].
    + rewrite lookup_insert_eq. split; [done|]. split; [done|]. exists upd. split; [done|].
      split; [split; [apply (proj1 Hl0)|by intros j' [= <-]]|].
      apply (by_location_keep upd s1); [done|done|].
      unfold get_block_json_data_by_location. cbn. by rewrite Hget.
    + rewrite lookup_insert_ne by done. apply (holds_block_keep s1); [done|by apply O2|by apply HB1].
  - cbn in Hb. rewrite Hb. cbn [ok_or]. exists s1. rewrite decide_True by done. split; [done|].
    split; [by split; [eapply room_log|]|]. split; [done|]. intros n' kb _ _. by rewrite Edb.
Qed.

Lemma block_get_holds s B h :
  holds s B → hash_ok BlockHash h →
  get h s = Ok (fst <$> B !! h) ∧ get_json_data h s = Ok (B !! h ≫= snd) ∧
  get_with_json_data h s = Ok (e ← B !! h; j ← e.2; Some (e.1, j)).
Proof.
  intros [_ HB] Hh. specialize (HB h Hh). unfold get, get_json_data, get_with_json_data.
  destruct (B !! h) as [[b j]|].
  - destruct HB as (_ & _ & l & -> & _ & Eb & Ej). rewrite Eb, Ej. split; [done|]. split; [done|].
    by destruct j; cbn; rewrite ?Eb.
  - cbn in HB. by rewrite HB.
Qed.

(** The block storage is a map from hashes to headers, with the result of
    the application added later.  In a state that holds the map [B]: storing a
    header says whether it is new, adds it in that case and changes nothing
    otherwise; storing a result fails with [MissingKey] and leaves the map as
    it is if the header is unknown, and otherwise sets the result and keeps the
    header; and the three reads return what the map has. *)
Theorem block_storage_is_map s B :
  holds s B → room 1 s →
  (∀ b, storable (ColumnBlockHeader b) → hash_ok BlockHash (hash b) →
     int_range 32 (header_level (header b)) →
     ∃ s', put_block_header b s = (s', Ok (bool_decide (B !! hash b = None))) ∧
       holds s' (if decide (B !! hash b = None) then <[hash b := (b, None)]> B else B)) ∧
  (∀ h j, storable (ColumnBlockJsonData j) → hash_ok BlockHash h →
     ∃ s', put_block_json_data h j s
         = (s', if decide (B !! h = None) then Err MissingKey else Ok ()) ∧
       holds s' (match B !! h with Some (b, _) => <[h := (b, Some j)]> B | None => B end)) ∧
  (∀ h, hash_ok BlockHash h →
     get h s = Ok (fst <$> B !! h) ∧ get_json_data h s = Ok (B !! h ≫= snd) ∧
     get_with_json_data h s = Ok (e ← B !! h; j ← e.2; Some (e.1, j))).
Proof.
  intros HB Hroom. split; [|split].
  - intros b Hst Hh Hl. destruct (block_put_header_holds 0 s B b) as (s' & E & HB' & _); [done..|].
    by exists s'.
  - intros h j Hst Hh. destruct (put_block_json_data_holds 0 s B h j) as (s' & E & HB' & _); [done..|].
    by exists s'.
  - intros h. by apply block_get_holds.
Qed.

End Refinement.

Module BlockStorageWitnesses.
Import ConcreteDb.

#[local] Instance block_storage_db : RocksDb := memory_db block_storage_families.
#[local] Instance block_storage_db_laws : RocksDbLaws block_storage_families.
Proof. apply memory_db_laws. apply (bool_decide_unpack _). vm_compute. exact I. Qed.

(** A log is the list of its messages. *)
#[local] Instance list_log : CommitLogLib := {|
  CommitLog := list bytes;
  next_offset l := len l;
  append_msg l b := (l ++ [b], Ok (len l));
  log_read l o _ := Ok (drop (Z.to_nat o) l)
|}.
#[local] Instance list_log_laws : CommitLogLaws.
Proof.
  constructor. intros l b _. exists (l ++ [b]). split; [done|].
  split; [cbn; rewrite len_app; done|].
  cbn [log_read next_offset list_log]. split.
  - intros limit _. exists []. by rewrite len_nat, drop_app_length.
  - intros o limit m more [= E]. exists (more ++ [b]). f_equal.
    destruct (decide (Z.to_nat o ≤ length l)%nat) as [Hle|Hgt].
    + rewrite drop_app_le by done. by rewrite E.
    + rewrite drop_ge in E by lia. done.
Qed.

Definition example : BlockHeaderWithHash :=
  mkBlockHeaderWithHash (replicate 32 1) (mkBlockHeader 7 0 (replicate 32 0) 0 4 [] [] [] []).

(** The only column of the example. *)
#[local] Instance column_bincode : Bincode BlockStorageColumn := {|
  bincode_serialize _ := Some [7];
  bincode_deserialize _ := Some (ColumnBlockHeader example)
|}.

#[local] Instance location_bincode : Bincode BlockStorageColumnsLocation := {|
  bincode_serialize l :=
    let h := block_header_location l in
    Some ([offset h; byte_limit h] ++
      match block_json_data_location l with Some j => [offset j; byte_limit j] | None => [] end);
  bincode_deserialize b :=
    match b with
    | [o; l] => Some (mkColumnsLocation (mkLocation o l) None)
    | [o; l; o'; l'] => Some (mkColumnsLocation (mkLocation o l) (Some (mkLocation o' l')))
    | _ => None
    end
|}.
#[local] Instance location_bincode_laws : BincodeLaws BlockStorageColumnsLocation columns_location_ok.
Proof. constructor. intros [[o l] [[o' l']|]] _; eexists; split; reflexivity. Qed.

Definition start : Persistent := mkPersistent ∅ {["block_storage"%string := []]}.

Lemma block_storage_is_map_witness :
  ∃ s', put_block_header example start = (s', Ok true).
Proof.
  destruct (block_storage_is_map (fun _ H => H) start ∅) as [Hput _].
  - split; [by eexists|]. intros h Hh. rewrite lookup_empty. reflexivity.
  - exists []. done.
  - destruct (Hput example) as (s' & E & _).
    + exists [7]. done.
    + done.
    + done.
    + exists s'. exact E.
Defined.

End BlockStorageWitnesses.
