(* ===== verification/ChainMeta.v ===== *)
(** * Facts about chains: [storage/src/chain_meta_storage.rs]

    The current head, the caboose, the genesis block and the test chain of each
    chain, in one table whose keys are a chain id followed by a name. *)

From stdpp Require Import gmap.
From S2P Require Import Prelude Hash NomReader Kv Blocks.

Record MetaKey := mkMetaKey { key_chain_id : bytes; key : bytes }.

Definition LEN_CHAIN_ID : Z := size ChainId.
Definition IDX_CHAIN_ID : Z := 0.
Definition IDX_KEY : Z := IDX_CHAIN_ID + LEN_CHAIN_ID.

(** The UTF-8 bytes of the names: "ch", "cbs", "gns", "tcid" *)
Definition KEY_CURRENT_HEAD : bytes := [99; 104].
Definition KEY_CABOOSE : bytes := [99; 98; 115].
Definition KEY_GENESIS : bytes := [103; 110; 115].
Definition KEY_TEST_CHAIN_ID : bytes := [116; 99; 105; 100].

Definition key_current_head (chain_id : bytes) : MetaKey := mkMetaKey chain_id KEY_CURRENT_HEAD.
Definition key_caboose (chain_id : bytes) : MetaKey := mkMetaKey chain_id KEY_CABOOSE.
Definition key_genesis (chain_id : bytes) : MetaKey := mkMetaKey chain_id KEY_GENESIS.
Definition key_test_chain_id (chain_id : bytes) : MetaKey := mkMetaKey chain_id KEY_TEST_CHAIN_ID.

Definition meta_key_encode (self : MetaKey) : result bytes SchemaError :=
  if decide (len (key_chain_id self) = LEN_CHAIN_ID) then Ok (key_chain_id self ++ key self)
  else Err EncodeError.

Definition meta_key_decode (bytes : bytes) : result MetaKey SchemaError :=
  if decide (len bytes > LEN_CHAIN_ID) then
    let? chain_id := ok_or (slice bytes IDX_CHAIN_ID IDX_KEY) SchemaPanic in
    let? chain_id := map_err (λ _, DecodeError) (try_from_bytes ChainId chain_id) in
    let? key := map_err (λ _, DecodeError) (from_utf8 (drop (Z.to_nat IDX_KEY) bytes)) in
    Ok (mkMetaKey chain_id key)
  else Err DecodeError.

#[export] Instance meta_key_codec : Codec MetaKey :=
  {| encode := meta_key_encode; decode := meta_key_decode |}.

Inductive MetadataValue := MetaHead (head : Head) | MetaTestChainId (chain_id : bytes).

Section ChainMeta.
Context `{RocksDb, Bincode MetadataValue}.

Definition ChainMetaStorage : KeyValueSchema :=
  mkSchema MetaKey MetadataValue meta_key_codec (bincode_codec MetadataValue) "chain_meta_storage".

Definition put_value (k : MetaKey) (v : MetadataValue) : io DB () StorageError :=
  err_into StorageDBError (kv_put ChainMetaStorage k v).

Definition set_current_head (chain_id : bytes) (head : Head) : io DB () StorageError :=
  put_value (key_current_head chain_id) (MetaHead head).
Definition set_caboose (chain_id : bytes) (head : Head) : io DB () StorageError :=
  put_value (key_caboose chain_id) (MetaHead head).
Definition set_genesis (chain_id : bytes) (head : Head) : io DB () StorageError :=
  put_value (key_genesis chain_id) (MetaHead head).
Definition set_test_chain_id (chain_id test_chain_id : bytes) : io DB () StorageError :=
  put_value (key_test_chain_id chain_id) (MetaTestChainId test_chain_id).
Definition remove_test_chain_id (chain_id : bytes) : io DB () StorageError :=
  err_into StorageDBError (kv_delete ChainMetaStorage (key_test_chain_id chain_id)).

Definition get_head (k : MetaKey) (db : DB) : result (option Head) StorageError :=
  let? v := map_err StorageDBError (kv_get ChainMetaStorage k db) in
  Ok (match v with Some (MetaHead value) => Some value | _ => None end).

Definition get_current_head (chain_id : bytes) (db : DB) : result (option Head) StorageError :=
  get_head (key_current_head chain_id) db.
Definition get_caboose (chain_id : bytes) (db : DB) : result (option Head) StorageError :=
  get_head (key_caboose chain_id) db.
Definition get_genesis (chain_id : bytes) (db : DB) : result (option Head) StorageError :=
  get_head (key_genesis chain_id) db.
Definition get_test_chain_id (chain_id : bytes) (db : DB) : result (option bytes) StorageError :=
  let? v := map_err StorageDBError (kv_get ChainMetaStorage (key_test_chain_id chain_id) db) in
  Ok (match v with Some (MetaTestChainId value) => Some value | _ => None end).

End ChainMeta.

Definition chain_meta_descriptor : ColumnFamilyDescriptor := mkColumnFamily "chain_meta_storage" None.

(** ** Each fact of each chain is a cell of its own *)

Definition meta_key_ok (k : MetaKey) : Prop :=
  hash_ok ChainId (key_chain_id k) ∧
  key k ∈ [KEY_CURRENT_HEAD; KEY_CABOOSE; KEY_GENESIS; KEY_TEST_CHAIN_ID].

#[export] Instance meta_key_codec_laws : CodecLaws MetaKey meta_key_ok.
Proof.
  constructor. intros [c k] [Hc Hk]. cbn [key_chain_id key] in *. exists (c ++ k).
  unfold hash_ok in Hc. cbn [encode decode meta_key_codec]. unfold meta_key_encode, meta_key_decode.
  cbn [key_chain_id key]. rewrite decide_True by done. split; [done|].
  assert (0 < len k ∧ from_utf8 k = Ok k) as [Hlen Hutf].
  { rewrite !elem_of_cons, elem_of_nil in Hk. by destruct Hk as [->|[->|[->|[->|[]]]]]. }
  rewrite decide_True by (rewrite len_app, Hc; unfold LEN_CHAIN_ID; lia).
  assert (slice (c ++ k) IDX_CHAIN_ID IDX_KEY = Some c) as ->.
  { unfold slice. change IDX_KEY with (size ChainId). rewrite decide_True
      by (rewrite len_app, Hc; change IDX_CHAIN_ID with 0; change (size ChainId) with 4; lia).
    f_equal. change (drop (Z.to_nat IDX_CHAIN_ID) (c ++ k)) with (c ++ k). apply take_app_length'.
    unfold len in Hc. change IDX_CHAIN_ID with 0. lia. }
  cbn [ok_or]. unfold try_from_bytes. rewrite decide_True by done. cbn [map_err].
  rewrite drop_app_length' by (unfold len in Hc; unfold IDX_KEY, IDX_CHAIN_ID, LEN_CHAIN_ID; lia).
  by rewrite Hutf.
Qed.

Section Cells.
Context `{RocksDbLaws cfs} `{BincodeLaws MetadataValue value_ok} (Hopen : chain_meta_descriptor ∈ cfs).

#[local] Instance chain_meta_table : Table cfs ChainMetaStorage meta_key_ok value_ok.
Proof.
  split; [by exists chain_meta_descriptor|apply meta_key_codec_laws|by apply bincode_codec_laws].
Qed.

(** The cells of a chain: three heads and the test chain. *)
Record ChainFacts := mkChainFacts {
  current_head : option Head;
  caboose : option Head;
  genesis : option Head;
  test_chain : option bytes
}.

Definition facts (c : bytes) (db : DB) (f : ChainFacts) : Prop :=
  get_current_head c db = Ok (current_head f) ∧ get_caboose c db = Ok (caboose f) ∧
  get_genesis c db = Ok (genesis f) ∧ get_test_chain_id c db = Ok (test_chain f).

Lemma key_ok c k : hash_ok ChainId c →
  k ∈ [KEY_CURRENT_HEAD; KEY_CABOOSE; KEY_GENESIS; KEY_TEST_CHAIN_ID] → meta_key_ok (mkMetaKey c k).
Proof. done. Qed.

Ltac key_ok := unfold key_current_head, key_caboose, key_genesis, key_test_chain_id;
  apply key_ok; [done|rewrite !elem_of_cons; auto].
Ltac other_key := unfold key_current_head, key_caboose, key_genesis, key_test_chain_id; congruence.

(** The cells of the chains [c'] after a change of the cell [k] of [c]. *)
Lemma other_chain c c' k db db' f :
  hash_ok ChainId c' → c' ≠ c →
  (∀ k', meta_key_ok k' → k' ≠ mkMetaKey c k → kv_get ChainMetaStorage k' db' = kv_get ChainMetaStorage k' db) →
  facts c' db f → facts c' db' f.
Proof.
  intros Hc Hne Ho. unfold facts, get_current_head, get_caboose, get_genesis, get_test_chain_id, get_head.
  rewrite !Ho by (try other_key; key_ok). done.
Qed.

(** [op] succeeds, the facts of chain [c] are [f] afterwards, and those of other
    chains and other tables have not changed. *)
Definition updates (op : io DB () StorageError) (db : DB) (c : bytes) (f : ChainFacts) : Prop :=
  ∃ db', op db = (db', Ok ()) ∧ facts c db' f ∧
    (∀ c' f', hash_ok ChainId c' → c' ≠ c → facts c' db f' → facts c' db' f') ∧
    ∀ n' kb, n' ≠ name ChainMetaStorage → get_cf db' n' kb = get_cf db n' kb.

Lemma put_value_updates c k v db f f' :
  meta_key_ok (mkMetaKey c k) → value_ok v → facts c db f →
  (∀ db', kv_get ChainMetaStorage (mkMetaKey c k) db' = Ok (Some v) →
    (∀ k', meta_key_ok k' → k' ≠ mkMetaKey c k →
      kv_get ChainMetaStorage k' db' = kv_get ChainMetaStorage k' db) → facts c db' f') →
  updates (put_value (mkMetaKey c k) v) db c f'.
Proof.
  intros Hk Hv Hf Hcells.
  destruct (kv_put_ok ChainMetaStorage (mkMetaKey c k) v db) as (db' & E & G & O & F); [done..|].
  exists db'. unfold put_value, err_into. rewrite E. split; [done|]. split; [by apply Hcells|].
  split; [|done]. intros c' g Hc' Hne. by apply (other_chain c c' k db db').
Qed.

Lemma remove_updates c db f f' :
  hash_ok ChainId c → facts c db f →
  (∀ db', kv_get ChainMetaStorage (key_test_chain_id c) db' = Ok None →
    (∀ k', meta_key_ok k' → k' ≠ key_test_chain_id c →
      kv_get ChainMetaStorage k' db' = kv_get ChainMetaStorage k' db) → facts c db' f') →
  updates (remove_test_chain_id c) db c f'.
Proof.
  intros Hc Hf Hcells.
  destruct (kv_delete_ok ChainMetaStorage (key_test_chain_id c) db) as (db' & E & G & O & F); [key_ok|].
  exists db'. unfold remove_test_chain_id, err_into. rewrite E. split; [done|].
  split; [by apply Hcells|].
  split; [|done]. intros c' g Hc' Hne. by apply (other_chain c c' KEY_TEST_CHAIN_ID db db').
Qed.

(** The cell that was written, and the three others. *)
Ltac cells :=
  let G := fresh in let O := fresh in
  intros ? G O; unfold facts, get_current_head, get_caboose, get_genesis, get_test_chain_id, get_head in *;
  cbn [current_head caboose genesis test_chain];
  unfold key_current_head, key_caboose, key_genesis, key_test_chain_id in *;
  rewrite G; rewrite !O by (first [key_ok|let E := fresh in intros E; injection E; discriminate]);
  tauto.

Lemma set_current_head_updates c h db f :
  hash_ok ChainId c → value_ok (MetaHead h) → facts c db f →
  updates (set_current_head c h) db c (mkChainFacts (Some h) (caboose f) (genesis f) (test_chain f)).
Proof. intros Hc Hh Hf. apply (put_value_updates c _ _ db f); [key_ok|done|done|cells]. Qed.

Lemma set_caboose_updates c h db f :
  hash_ok ChainId c → value_ok (MetaHead h) → facts c db f →
  updates (set_caboose c h) db c (mkChainFacts (current_head f) (Some h) (genesis f) (test_chain f)).
Proof. intros Hc Hh Hf. apply (put_value_updates c _ _ db f); [key_ok|done|done|cells]. Qed.

Lemma set_genesis_updates c h db f :
  hash_ok ChainId c → value_ok (MetaHead h) → facts c db f →
  updates (set_genesis c h) db c (mkChainFacts (current_head f) (caboose f) (Some h) (test_chain f)).
Proof. intros Hc Hh Hf. apply (put_value_updates c _ _ db f); [key_ok|done|done|cells]. Qed.

(** Each fact of each chain is a cell of its own: setting (or removing) one
    of them succeeds, the reads return it afterwards, and neither the other
    facts of the chain nor those of other chains nor another table change. *)
Theorem chain_facts_are_cells c h t db f :
  hash_ok ChainId c → value_ok (MetaHead h) → value_ok (MetaTestChainId t) → facts c db f →
  updates (set_current_head c h) db c (mkChainFacts (Some h) (caboose f) (genesis f) (test_chain f)) ∧
  updates (set_caboose c h) db c (mkChainFacts (current_head f) (Some h) (genesis f) (test_chain f)) ∧
  updates (set_genesis c h) db c (mkChainFacts (current_head f) (caboose f) (Some h) (test_chain f)) ∧
  updates (set_test_chain_id c t) db c (mkChainFacts (current_head f) (caboose f) (genesis f) (Some t)) ∧
  updates (remove_test_chain_id c) db c (mkChainFacts (current_head f) (caboose f) (genesis f) None).
Proof.
  intros Hc Hh Ht Hf. split; [|split; [|split; [|split]]].
  - by apply set_current_head_updates.
  - by apply set_caboose_updates.
  - by apply set_genesis_updates.
  - apply (put_value_updates c _ _ db f); [key_ok|done|done|cells].
  - apply (remove_updates c db f); [done|done|cells].
Qed.

End Cells.

Module ChainMetaWitnesses.
Import ConcreteDb.

Definition families : list ColumnFamilyDescriptor := [chain_meta_descriptor].

#[local] Instance chain_meta_db : RocksDb := memory_db families.
#[local] Instance chain_meta_db_laws : RocksDbLaws families.
Proof. apply memory_db_laws. apply NoDup_singleton. Qed.

Lemma chain_meta_opened : chain_meta_descriptor ∈ families.
Proof. left. Qed.

(** Heads without fitness. *)
#[local] Instance value_bincode : Bincode MetadataValue := {|
  bincode_serialize v :=
    match v with
    | MetaHead h => Some (0 :: head_level h :: block_hash h)
    | MetaTestChainId c => Some (1 :: c)
    end;
  bincode_deserialize b :=
    match b with
    | 0 :: l :: h => Some (MetaHead (mkHead h l []))
    | 1 :: c => Some (MetaTestChainId c)
    | _ => None
    end
|}.

Definition plain (v : MetadataValue) : Prop :=
  match v with MetaHead h => head_fitness h = [] | _ => True end.

#[local] Instance value_bincode_laws : BincodeLaws MetadataValue plain.
Proof. constructor. intros [[h l f]|c] Hv; cbn in Hv; subst; by eexists. Qed.

Definition chain : bytes := [1; 2; 3; 4].
Definition head : Head := mkHead (replicate 32 1) 5 [].

Lemma chain_facts_are_cells_witness :
  ∃ db', set_current_head chain head ∅ = (db', Ok ()) ∧
    get_current_head chain db' = Ok (Some head) ∧ get_caboose chain db' = Ok None.
Proof.
  destruct (chain_facts_are_cells chain_meta_opened chain head chain ∅ (mkChainFacts None None None None))
    as [(db' & E & (E1 & E2 & _) & _) _].
  - done.
  - done.
  - done.
  - split; [reflexivity|]. split; [reflexivity|]. split; reflexivity.
  - exists db'. done.
Defined.

End ChainMetaWitnesses.
