(* ===== verification/StorageOps.v ===== *)
(** * Writes over several storages: [storage/src/lib.rs]

    What the shell calls when a block was applied or the genesis block was
    committed: each operation writes to several tables of the database and to
    the log of blocks, one after the other.  With the table of additional data
    of [storage/src/block_meta_storage.rs], the result of an application of
    [tezos/api/src/ffi.rs] and the genesis data of
    [tezos/api/src/environment.rs]. *)

From stdpp Require Import gmap.
From S2P Require Import Prelude Hash Kv Blocks BlockMeta Predecessors OperationsMeta BlockStorage ChainMeta.

(** ** Additional data *)

Record BlockAdditionalData := mkBlockAdditionalData {
  max_operations_ttl : Z;
  last_allowed_fork_level : Z;
  protocol_hash : bytes;
  next_protocol_hash : bytes;
  block_metadata_hash : option bytes;
  ops_metadata_hash : option bytes;
  ops_metadata_hashes : option (list (list bytes))
}.

Definition additional_data_descriptor : ColumnFamilyDescriptor :=
  mkColumnFamily "block_additional_data" None.

Section AdditionalData.
Context `{RocksDb, Bincode BlockAdditionalData}.

Definition AdditionalDataStorage : KeyValueSchema :=
  mkSchema bytes BlockAdditionalData (hash_codec BlockHash) (bincode_codec BlockAdditionalData)
    "block_additional_data".

Definition put_block_additional_data (block_hash : bytes) (additional_data : BlockAdditionalData)
    : io DB () StorageError :=
  err_into StorageDBError (kv_put AdditionalDataStorage block_hash additional_data).

Definition get_additional_data (block_hash : bytes) (db : DB)
    : result (option BlockAdditionalData) StorageError :=
  map_err StorageDBError (kv_get AdditionalDataStorage block_hash db).

End AdditionalData.

(** ** Results of the protocol *)

Record ForkingTestchainData := mkForkingTestchainData {
  forking_block_hash : bytes;
  forking_test_chain_id : bytes
}.

Record ApplyBlockResponse := mkApplyBlockResponse {
  validation_result_message : bytes;
  response_context_hash : bytes;
  response_protocol_hash : bytes;
  response_next_protocol_hash : bytes;
  response_block_header_proto_json : bytes;
  response_block_header_proto_metadata_bytes : bytes;
  response_operations_proto_metadata_bytes : list (list bytes);
  response_max_operations_ttl : Z;
  response_last_allowed_fork_level : Z;
  forking_testchain : bool;
  forking_testchain_data : option ForkingTestchainData;
  response_block_metadata_hash : option bytes;
  response_ops_metadata_hashes : option (list (list bytes));
  response_ops_metadata_hash : option bytes
}.

Record CommitGenesisResult := mkCommitGenesisResult {
  genesis_block_header_proto_json : bytes;
  genesis_block_header_proto_metadata_bytes : bytes;
  genesis_operations_proto_metadata_bytes : list (list bytes)
}.

(** ** The genesis data of a network *)

Record GenesisChain := mkGenesisChain {
  genesis_time_text : string;
  genesis_block_text : string;
  genesis_protocol_text : string
}.

(** [DateTime::parse_from_rfc3339(..).timestamp()] of the crate chrono *)
Class Chrono : Type := { parse_from_rfc3339 : string → result Z string }.

Record GenesisAdditionalData := mkGenesisAdditionalData {
  genesis_max_operations_ttl : Z;
  genesis_last_allowed_fork_level : Z;
  genesis_protocol_hash : bytes;
  genesis_next_protocol_hash : bytes
}.

Section Genesis.
Context `{Base58Lib, Chrono}.

Definition PROTOCOL_HASH_ZERO_BASE58_CHECK : string :=
  "PrihK96nBAFSxVL1GLJTVhu9YnzkMFiBeuJRPA8NwuZVZCE1L6i".

Definition get_empty_operation_list_list_hash : result bytes FromBase58CheckError :=
  b58check_to_hash OperationListListHash "LLoZS2LW3rEi7KYU4ouBQtorua37aWWCtpDmv1n2x3xoKi6sVXLWp".

Definition genesis_header_hash (self : GenesisChain) : result bytes EnvironmentError :=
  map_err (InvalidBlockHash (genesis_block_text self))
    (b58check_to_hash BlockHash (genesis_block_text self)).

Definition genesis_protocol (self : GenesisChain) : result bytes EnvironmentError :=
  map_err (InvalidProtocolHash (genesis_protocol_text self))
    (b58check_to_hash ProtocolHash (genesis_protocol_text self)).

Definition genesis_time (self : GenesisChain) : result Z EnvironmentError :=
  map_err (InvalidTime (genesis_time_text self)) (parse_from_rfc3339 (genesis_time_text self)).

(** The genesis block is its own predecessor. *)
Definition genesis_header (self : GenesisChain) (context_hash operation_list_list_hash : bytes)
    : result BlockHeader_t EnvironmentError :=
  let? genesis_hash := genesis_header_hash self in
  let? time := genesis_time self in
  Ok (mkBlockHeader 0 0 genesis_hash time 0 operation_list_list_hash [] context_hash []).

(** The error of the first hash carries the text of the second one. *)
Definition genesis_additional_data (self : GenesisChain)
    : result GenesisAdditionalData EnvironmentError :=
  let? protocol_hash :=
    map_err (InvalidProtocolHash (genesis_protocol_text self))
      (b58check_to_hash ProtocolHash PROTOCOL_HASH_ZERO_BASE58_CHECK) in
  let? next_protocol_hash := genesis_protocol self in
  Ok (mkGenesisAdditionalData 0 0 protocol_hash next_protocol_hash).

End Genesis.

(** [StorageInitInfo]; the patch of the context is only passed on to the
    protocol. *)
Record StorageInitInfo := mkStorageInitInfo {
  init_chain_id : bytes;
  genesis_block_header_hash : bytes;
  patch_context : option (string * string);
  one_context : bool
}.

(** ** The operations *)

Section Operations.
Context `{RocksDb, CommitLogLib}.
Context `{Bincode BlockStorageColumn, Bincode BlockStorageColumnsLocation}.
Context `{Bincode PredecessorKey, Bincode BlockAdditionalData, Bincode MetadataValue}.

(** An operation of the key-value storages. *)
Definition in_db {A} (m : io DB A StorageError) : io Persistent A StorageError := on_db id m.

(** [i32::try_into::<u16>().unwrap()] *)
Definition u16_try_from (v : Z) : result Z StorageError :=
  if decide (0 ≤ v < 2 ^ 16) then Ok v else Err (StoragePanic "TryFromIntError").

(** The hash of the metadata is kept only if there are some operations. *)
Definition kept_ops_metadata_hash (block_result : ApplyBlockResponse) : option bytes :=
  match response_ops_metadata_hashes block_result with
  | Some hashes => if decide (hashes = []) then None else response_ops_metadata_hash block_result
  | None => None
  end.

(** The caller's metadata are changed too: they are returned with the result. *)
Definition store_applied_block_result (block_hash : bytes) (block_result : ApplyBlockResponse)
    (block_metadata : BlockMeta.Meta) : io Persistent (BlockAdditionalData * BlockMeta.Meta) StorageError :=
  let block_json_data :=
    mkBlockJsonData (response_block_header_proto_json block_result)
      (response_block_header_proto_metadata_bytes block_result)
      (response_operations_proto_metadata_bytes block_result) in
  do? _ := put_block_json_data block_hash block_json_data in
  do? ttl := pure (u16_try_from (response_max_operations_ttl block_result)) in
  let block_additional_data :=
    mkBlockAdditionalData ttl (response_last_allowed_fork_level block_result)
      (response_protocol_hash block_result) (response_next_protocol_hash block_result)
      (response_block_metadata_hash block_result) (kept_ops_metadata_hash block_result)
      (response_ops_metadata_hashes block_result) in
  do? _ := in_db (put_block_additional_data block_hash block_additional_data) in
  do? _ := in_db (store_predecessors block_hash block_metadata) in
  let block_metadata := set_is_applied block_metadata true in
  do? _ := in_db (BlockMeta.put block_hash block_metadata) in
  ret (block_additional_data, block_metadata).

Definition store_commit_genesis_result (init_storage_data : StorageInitInfo)
    (bock_result : CommitGenesisResult) : io Persistent () StorageError :=
  let genesis_block_hash := genesis_block_header_hash init_storage_data in
  let chain_id := init_chain_id init_storage_data in
  do? _ := in_db (BlockMeta.put genesis_block_hash
                    (BlockMeta.genesis_meta genesis_block_hash chain_id true)) in
  do? _ := in_db (OperationsMeta.put genesis_block_hash OperationsMeta.genesis_meta) in
  let block_json_data :=
    mkBlockJsonData (genesis_block_header_proto_json bock_result)
      (genesis_block_header_proto_metadata_bytes bock_result)
      (genesis_operations_proto_metadata_bytes bock_result) in
  do? _ := put_block_json_data genesis_block_hash block_json_data in
  do? genesis := reads_state (BlockStorage.get genesis_block_hash) in
  match genesis with
  | Some genesis =>
      let head := mkHead (hash genesis) (header_level (header genesis)) (header_fitness (header genesis)) in
      do? _ := in_db (set_genesis chain_id head) in
      do? _ := in_db (set_caboose chain_id head) in
      in_db (set_current_head chain_id head)
  | None => throw MissingKey
  end.

Definition initialize_storage_with_genesis_block `{Base58Lib, Chrono}
    (init_storage_data : StorageInitInfo) (tezos_env : GenesisChain) (context_hash : bytes)
    : io Persistent BlockHeaderWithHash StorageError :=
  do? operations_hash := pure (map_err HashDecodeError get_empty_operation_list_list_hash) in
  do? header :=
    pure (map_err TezosEnvironmentError (genesis_header tezos_env context_hash operations_hash)) in
  let genesis_with_hash := mkBlockHeaderWithHash (genesis_block_header_hash init_storage_data) header in
  do? _ := BlockStorage.put_block_header genesis_with_hash in
  do? additional := pure (map_err TezosEnvironmentError (genesis_additional_data tezos_env)) in
  let block_additional_data :=
    mkBlockAdditionalData (genesis_max_operations_ttl additional)
      (genesis_last_allowed_fork_level additional) (genesis_protocol_hash additional)
      (genesis_next_protocol_hash additional) None None None in
  do? _ := in_db (put_block_additional_data (hash genesis_with_hash) block_additional_data) in
  do? _ := assign_to_context (hash genesis_with_hash) context_hash in
  ret genesis_with_hash.

End Operations.

(** ** What the operations do to the storages *)

(** [DbsRocksDbTableInitializer::create], without the tables of the other
    storages. *)
Definition dbs_families : list ColumnFamilyDescriptor :=
  block_storage_families ++
  [block_meta_descriptor; operations_meta_descriptor; chain_meta_descriptor; predecessor_descriptor;
   additional_data_descriptor].

(** The storages as maps. *)
Record Stored := mkStored {
  blocks : gmap bytes (BlockHeaderWithHash * option BlockJsonData);
  metas : gmap bytes BlockMeta.Meta;
  parents : gmap bytes bytes;
  additional : gmap bytes BlockAdditionalData
}.

Section Refinement.
Context `{RocksDbLaws cfs, CommitLogLaws}.
Context `{Bincode BlockStorageColumn} `{BincodeLaws BlockStorageColumnsLocation columns_location_ok}.
Context `{Bincode PredecessorKey} `{!BincodeLaws PredecessorKey predecessor_key_ok}.
Context `{BincodeLaws BlockAdditionalData additional_ok} `{BincodeLaws MetadataValue value_ok}.
Context (Hopen : dbs_families ⊆ cfs).

Lemma block_storage_open : block_storage_families ⊆ cfs.
Proof. etrans; [|exact Hopen]. intros d Hd. apply elem_of_app. by left. Qed.

Lemma other_open d :
  d ∈ [block_meta_descriptor; operations_meta_descriptor; chain_meta_descriptor; predecessor_descriptor;
       additional_data_descriptor] → d ∈ cfs.
Proof. intros Hd. apply Hopen. apply elem_of_app. by right. Qed.

Ltac open := apply other_open; repeat first [left|right].

(** Two tables with different names. *)
Ltac apart := apply (bool_decide_unpack _); vm_compute; exact I.

#[local] Instance additional_table : Table cfs AdditionalDataStorage (hash_ok BlockHash) additional_ok.
Proof.
  split; [exists additional_data_descriptor; split; [open|done]|apply hash_codec_laws|
    by apply bincode_codec_laws].
Qed.

Definition holds_additional (db : DB) (A : gmap bytes BlockAdditionalData) : Prop :=
  ∀ h, hash_ok BlockHash h → get_additional_data h db = Ok (A !! h).

Definition stores (s : Persistent) (w : Stored) : Prop :=
  BlockStorage.holds s (blocks w) ∧ BlockMeta.holds (db s) (metas w) ∧
  parents_ok (parents w) ∧ indexed (db s) (parents w) ∧ holds_additional (db s) (additional w).

(** The tables named [ns] are the only ones that may differ. *)
Definition only (ns : list string) (db db' : DB) : Prop :=
  ∀ n kb, n ∉ ns → get_cf db' n kb = get_cf db n kb.

Lemma meta_frame ns db db' M :
  only ns db db' → name BlockMetaStorage ∉ ns → BlockMeta.holds db M → BlockMeta.holds db' M.
Proof. intros Ho Hn HM h Hh. rewrite Ho by done. by apply HM. Qed.

Lemma kv_frame (S' : KeyValueSchema) {key_ok' value_ok'} `{!Table cfs S' key_ok' value_ok'} ns k (db db' : DB) :
  only ns db db' → name S' ∉ ns → kv_get S' k db' = kv_get S' k db.
Proof. intros Ho Hn. apply kv_get_ext; [by rewrite !(family_ok S')|]. intros kb _. by apply Ho. Qed.

Lemma indexed_frame ns db db' P :
  only ns db db' → "predecessor_storage"%string ∉ ns → indexed db P → indexed db' P.
Proof.
  intros Ho Hn HP h i Hh Hi. rewrite <- (HP h i) by done. unfold get_predecessor.
  by rewrite (kv_frame PredecessorStorage (Table0 := predecessor_table ltac:(open)) ns _ db db').
Qed.

Lemma additional_frame ns db db' A :
  only ns db db' → "block_additional_data"%string ∉ ns → holds_additional db A → holds_additional db' A.
Proof.
  intros Ho Hn HA h Hh. rewrite <- (HA h) by done. unfold get_additional_data.
  by rewrite (kv_frame AdditionalDataStorage ns h db db').
Qed.

Lemma block_frame ns s db' B :
  only ns (db s) db' → "block_storage"%string ∉ ns → BlockStorage.holds s B →
  BlockStorage.holds (mkPersistent db' (logs s)) B.
Proof.
  intros Ho Hn [Hl HB]. split; [done|]. intros h Hh. apply (holds_block_keep s); [done| |by apply HB].
  unfold primary_get. cbn [db].
  by rewrite (kv_frame BlockPrimaryIndex (Table0 := primary_table block_storage_open) ns h (db s) db').
Qed.

Ltac framed lem := eapply lem; [done|apart|done].

(** *** One write each *)

Lemma stores_db ns s db' w w' :
  stores s w → only ns (db s) db' → "block_storage"%string ∉ ns → blocks w' = blocks w →
  BlockMeta.holds db' (metas w') → parents_ok (parents w') → indexed db' (parents w') →
  holds_additional db' (additional w') → stores (mkPersistent db' (logs s)) w'.
Proof.
  intros (HB & _) Ho Hn EB HM HP HI HA. split; [|done]. rewrite EB. by eapply block_frame.
Qed.

(** A write to one table of the database. *)
Lemma only_one n db db' : (∀ n' kb, n' ≠ n → get_cf db' n' kb = get_cf db n' kb) → only [n] db db'.
Proof. intros Hf n' kb Hn. apply Hf. set_solver. Qed.

Lemma put_additional_stores s w h d :
  stores s w → hash_ok BlockHash h → additional_ok d →
  ∃ s', in_db (put_block_additional_data h d) s = (s', Ok ()) ∧ logs s' = logs s ∧
    only ["block_additional_data"%string] (db s) (db s') ∧
    stores s' (mkStored (blocks w) (metas w) (parents w) (<[h := d]> (additional w))).
Proof.
  intros Hs Hh Hd. pose proof Hs as (HB & HM & HP & HI & HA).
  destruct (kv_put_ok AdditionalDataStorage h d (db s)) as (db' & E & G & O & F); [done..|].
  apply only_one in F. eexists. unfold in_db, on_db, put_block_additional_data, err_into. rewrite E.
  split; [done|]. split; [done|]. split; [exact F|].
  apply (stores_db ["block_additional_data"%string] s db' w); [done|done|apart|done|..]; cbn [metas parents additional].
  - framed meta_frame.
  - done.
  - framed indexed_frame.
  - intros h' Hh'. unfold get_additional_data. destruct (decide (h' = h)) as [->|Hne].
    + by rewrite G, lookup_insert_eq.
    + rewrite O, lookup_insert_ne by done. by apply HA.
Qed.

Lemma store_predecessors_stores s w h m :
  stores s w → hash_ok BlockHash h → BlockMeta.meta_ok m → in_order (parents w) h m →
  ∃ s', in_db (store_predecessors h m) s = (s', Ok ()) ∧ logs s' = logs s ∧
    only ["predecessor_storage"%string] (db s) (db s') ∧
    stores s' (mkStored (blocks w) (metas w) (add_parent (parents w) h m) (additional w)).
Proof.
  intros Hs Hh Hm Ho. pose proof Hs as (HB & HM & HP & HI & HA).
  destruct (store_predecessors_spec ltac:(open) (db s) (parents w) h m) as (db' & E & HI' & HP' & F); [done..|].
  apply only_one in F. eexists. unfold in_db, on_db. rewrite E.
  split; [done|]. split; [done|]. split; [exact F|].
  apply (stores_db ["predecessor_storage"%string] s db' w); [done|done|apart|done|..]; cbn [metas parents additional].
  - framed meta_frame.
  - done.
  - done.
  - framed additional_frame.
Qed.

Lemma put_meta_stores s w h m :
  stores s w → hash_ok BlockHash h → BlockMeta.meta_ok m →
  ∃ s', in_db (BlockMeta.put h m) s = (s', Ok ()) ∧ logs s' = logs s ∧
    only ["block_meta_storage"%string] (db s) (db s') ∧
    stores s' (mkStored (blocks w) (<[h := merge_into (metas w !! h) m]> (metas w)) (parents w) (additional w)).
Proof.
  intros Hs Hh Hm. pose proof Hs as (HB & HM & HP & HI & HA).
  destruct (put_holds ltac:(open) (db s) (metas w) h m) as (db' & E & HM' & F); [done..|].
  apply only_one in F. eexists. unfold in_db, on_db. rewrite E.
  split; [done|]. split; [done|]. split; [exact F|].
  apply (stores_db ["block_meta_storage"%string] s db' w); [done|done|apart|done|..]; cbn [metas parents additional].
  - done.
  - done.
  - framed indexed_frame.
  - framed additional_frame.
Qed.

Lemma elsewhere_only s s' :
  elsewhere s s' → only ["block_storage"%string; "block_by_level_storage"%string] (db s) (db s').
Proof. intros He n kb Hn. apply He; set_solver. Qed.

Lemma put_json_stores n s w h j :
  stores s w → 0 ≤ n → room (n + 1) s → storable (ColumnBlockJsonData j) → hash_ok BlockHash h →
  ∃ s', put_block_json_data h j s
      = (s', if decide (blocks w !! h = None) then Err MissingKey else Ok ()) ∧ room n s' ∧
    only ["block_storage"%string; "block_by_level_storage"%string] (db s) (db s') ∧
    stores s' (mkStored (match blocks w !! h with Some (b, _) => <[h := (b, Some j)]> (blocks w)
                         | None => blocks w end) (metas w) (parents w) (additional w)).
Proof.
  intros (HB & HM & HP & HI & HA) Hn Hr Hst Hh.
  destruct (put_block_json_data_holds block_storage_open n s (blocks w) h j)
    as (s' & E & HB' & Hr' & He); [done..|].
  apply elsewhere_only in He. exists s'. split; [done|]. split; [done|]. split; [done|].
  split; [done|]. split; [framed meta_frame|]. split; [done|].
  split; [framed indexed_frame|framed additional_frame].
Qed.

(** *** A block was applied *)

Definition json_of (r : ApplyBlockResponse) : BlockJsonData :=
  mkBlockJsonData (response_block_header_proto_json r) (response_block_header_proto_metadata_bytes r)
    (response_operations_proto_metadata_bytes r).

Definition additional_of (r : ApplyBlockResponse) : BlockAdditionalData :=
  mkBlockAdditionalData (response_max_operations_ttl r) (response_last_allowed_fork_level r)
    (response_protocol_hash r) (response_next_protocol_hash r) (response_block_metadata_hash r)
    (kept_ops_metadata_hash r) (response_ops_metadata_hashes r).

(** The maps after a call for the block [h] with the header [b]. *)
Definition with_json (w : Stored) (h : bytes) (b : BlockHeaderWithHash) (j : BlockJsonData) : Stored :=
  mkStored (<[h := (b, Some j)]> (blocks w)) (metas w) (parents w) (additional w).

Definition applied (w : Stored) (h : bytes) (b : BlockHeaderWithHash) (r : ApplyBlockResponse)
    (m : BlockMeta.Meta) : Stored :=
  mkStored (<[h := (b, Some (json_of r))]> (blocks w))
    (<[h := merge_into (metas w !! h) (set_is_applied m true)]> (metas w))
    (add_parent (parents w) h m) (<[h := additional_of r]> (additional w)).

Lemma set_is_applied_ok m v : BlockMeta.meta_ok m → BlockMeta.meta_ok (set_is_applied m v).
Proof. done. Qed.

(** The four writes, in a state that knows the block. *)
Lemma store_applied_known n s w h r m b j0 :
  stores s w → 0 ≤ n → room (n + 1) s → hash_ok BlockHash h → BlockMeta.meta_ok m → in_order (parents w) h m →
  storable (ColumnBlockJsonData (json_of r)) → additional_ok (additional_of r) →
  blocks w !! h = Some (b, j0) →
  ∃ s', store_applied_block_result h r m s =
      (s', if decide (0 ≤ response_max_operations_ttl r < 2 ^ 16)
           then Ok (additional_of r, set_is_applied m true)
           else Err (StoragePanic "TryFromIntError")) ∧ room n s' ∧
    stores s' (if decide (0 ≤ response_max_operations_ttl r < 2 ^ 16)
               then applied w h b r m else with_json w h b (json_of r)).
Proof.
  intros Hs Hn Hr Hh Hm Ho Hst Ha Eb. unfold store_applied_block_result, pure. fold (json_of r).
  destruct (put_json_stores n s w h (json_of r)) as (s1 & -> & Hr1 & _ & Hs1); [done..|].
  rewrite Eb in *. rewrite decide_False by done. unfold u16_try_from.
  destruct (decide (0 ≤ response_max_operations_ttl r < 2 ^ 16)); [|by exists s1].
  fold (additional_of r).
  destruct (put_additional_stores s1 _ h (additional_of r) Hs1 Hh Ha) as (s2 & -> & L2 & _ & Hs2).
  destruct (store_predecessors_stores s2 _ h m Hs2 Hh Hm Ho) as (s3 & -> & L3 & _ & Hs3).
  destruct (put_meta_stores s3 _ h (set_is_applied m true) Hs3 Hh) as (s4 & -> & L4 & _ & Hs4); [done|].
  exists s4. split; [done|]. split; [|done]. unfold room. by rewrite L4, L3, L2.
Qed.

Lemma merge_into_applied v o : is_applied o = true → is_applied (merge_into v o) = true.
Proof. intros E. destruct v as [v|]; [|done]. cbn. rewrite E. by destruct (is_applied v). Qed.


(** *** The genesis block *)

Lemma put_header_stores n s w b :
  stores s w → 0 ≤ n → room (n + 1) s → storable (ColumnBlockHeader b) → hash_ok BlockHash (hash b) →
  int_range 32 (header_level (header b)) → blocks w !! hash b = None →
  ∃ s', BlockStorage.put_block_header b s = (s', Ok true) ∧ room n s' ∧
    only ["block_storage"%string; "block_by_level_storage"%string] (db s) (db s') ∧
    stores s' (mkStored (<[hash b := (b, None)]> (blocks w)) (metas w) (parents w) (additional w)).
Proof.
  intros (HB & HM & HP & HI & HA) Hn Hr Hst Hh Hl Hnew.
  destruct (block_put_header_holds block_storage_open n s (blocks w) b)
    as (s' & E & HB' & Hr' & He); [done..|].
  rewrite bool_decide_eq_true_2 in E by done. rewrite decide_True in HB' by done.
  apply elsewhere_only in He. exists s'. split; [done|]. split; [done|]. split; [done|].
  split; [done|]. split; [framed meta_frame|]. split; [done|].
  split; [framed indexed_frame|framed additional_frame].
Qed.

#[local] Instance by_context_table :
  Table cfs BlockByContextHashIndex (hash_ok ContextHash) columns_location_ok.
Proof.
  split; [|apply hash_codec_laws|by apply bincode_codec_laws].
  exists (mkColumnFamily "block_by_context_hash_storage" None).
  split; [apply block_storage_open; right; right; left|done].
Qed.

Lemma assign_stores n s w h c b j :
  stores s w → room n s → hash_ok BlockHash h → hash_ok ContextHash c → blocks w !! h = Some (b, j) →
  ∃ s', assign_to_context h c s = (s', Ok ()) ∧ room n s' ∧
    only ["block_by_context_hash_storage"%string] (db s) (db s') ∧ stores s' w ∧
    get_by_context_hash c s' = Ok (Some b).
Proof.
  intros Hs Hr Hh Hc Eb. pose proof Hs as (HB & HM & HP & HI & HA).
  destruct HB as [Hlog HB]. pose proof (HB h Hh) as Hb. rewrite Eb in Hb.
  destruct Hb as (Hbh & Hbl & l & El & Hl & Ebl & Ej).
  destruct (kv_put_ok BlockByContextHashIndex c l (db s)) as (db' & E & G & _ & F); [done..|].
  apply only_one in F. exists (mkPersistent db' (logs s)).
  unfold assign_to_context, reads_state. rewrite El. unfold by_context_put, on_db. rewrite E.
  split; [done|]. split; [done|]. split; [exact F|]. split.
  - apply (stores_db ["block_by_context_hash_storage"%string] s db' w); [done|done|apart|done|..].
    + framed meta_frame.
    + done.
    + framed indexed_frame.
    + framed additional_frame.
  - unfold get_by_context_hash, by_context_get. cbn [db]. rewrite G. cbn [map_err].
    assert (get_block_header_by_location l (mkPersistent db' (logs s)) = Ok b) as -> by exact Ebl.
    done.
Qed.

Lemma put_genesis_operations s w g :
  stores s w → hash_ok BlockHash g → get_cf (db s) "operations_meta_storage" g = Ok None →
  ∃ s', in_db (OperationsMeta.put g OperationsMeta.genesis_meta) s = (s', Ok ()) ∧ logs s' = logs s ∧
    only ["operations_meta_storage"%string] (db s) (db s') ∧ stores s' w ∧
    arrived (db s') g 0 ∅.
Proof.
  intros Hs Hg Hno. pose proof Hs as (HB & HM & HP & HI & HA).
  destruct (put_arrived ltac:(open) (db s) g 0 None ∅ ∅) as (db' & E & Harr & F); [done|done|by left|].
  change (record 0 ∅) with OperationsMeta.genesis_meta in E.
  assert (only ["operations_meta_storage"%string] (db s) db') as Ho
    by (intros n' kb Hn; apply F; set_solver).
  eexists. unfold in_db, on_db. rewrite E. split; [done|]. split; [done|]. split; [exact Ho|]. split; [|done].
  apply (stores_db ["operations_meta_storage"%string] s db' w); [done|done|apart|done|..].
  - framed meta_frame.
  - done.
  - framed indexed_frame.
  - framed additional_frame.
Qed.

Lemma facts_frame ns db db' c f :
  only ns db db' → "chain_meta_storage"%string ∉ ns → facts c db f → facts c db' f.
Proof.
  intros Ho Hn. pose proof (chain_meta_table ltac:(open)) as T.
  unfold facts, get_current_head, get_caboose, get_genesis, get_test_chain_id, get_head.
  by rewrite !(λ k, kv_frame ChainMetaStorage ns k db db' Ho Hn).
Qed.

Lemma set_head_stores op c f s w :
  updates op (db s) c f → stores s w →
  ∃ s', in_db op s = (s', Ok ()) ∧ facts c (db s') f ∧ only ["chain_meta_storage"%string] (db s) (db s') ∧
    stores s' w.
Proof.
  intros (db' & E & Hf & _ & F) Hs. apply only_one in F. pose proof Hs as (HB & HM & HP & HI & HA).
  eexists. unfold in_db, on_db. rewrite E. split; [done|]. split; [done|]. split; [exact F|].
  apply (stores_db ["chain_meta_storage"%string] s db' w); [done|done|apart|done|..].
  - framed meta_frame.
  - done.
  - framed indexed_frame.
  - framed additional_frame.
Qed.

Definition genesis_json_of (r : CommitGenesisResult) : BlockJsonData :=
  mkBlockJsonData (genesis_block_header_proto_json r) (genesis_block_header_proto_metadata_bytes r)
    (genesis_operations_proto_metadata_bytes r).

Definition genesis_additional_of (a : GenesisAdditionalData) : BlockAdditionalData :=
  mkBlockAdditionalData (genesis_max_operations_ttl a) (genesis_last_allowed_fork_level a)
    (genesis_protocol_hash a) (genesis_next_protocol_hash a) None None None.

(** The commit, in a state that has the header. *)
Lemma commit_genesis_stores s w info r b f :
  let g := genesis_block_header_hash info in
  let c := init_chain_id info in
  let head := mkHead g (header_level (header b)) (header_fitness (header b)) in
  stores s w → room 1 s → hash_ok BlockHash g → hash_ok ChainId c →
  blocks w !! g = Some (b, None) → hash b = g → metas w !! g = None →
  get_cf (db s) "operations_meta_storage" g = Ok None → facts c (db s) f →
  storable (ColumnBlockJsonData (genesis_json_of r)) → value_ok (MetaHead head) →
  ∃ s', store_commit_genesis_result info r s = (s', Ok ()) ∧
    stores s' (mkStored (<[g := (b, Some (genesis_json_of r))]> (blocks w))
      (<[g := BlockMeta.genesis_meta g c true]> (metas w)) (parents w) (additional w)) ∧
    OperationsMeta.get g (db s') = Ok (Some OperationsMeta.genesis_meta) ∧
    facts c (db s') (mkChainFacts (Some head) (Some head) (Some head) (test_chain f)).
Proof.
  intros g c head Hs Hr Hg Hc Eb Hbh Em Hops Hf Hst Hv.
  unfold store_commit_genesis_result. fold g c (genesis_json_of r).
  destruct (put_meta_stores s w g (BlockMeta.genesis_meta g c true) Hs Hg) as (s1 & -> & L1 & O1 & Hs1).
  { split; [by intros p [= <-]|]. done. }
  rewrite Em in Hs1. cbn [merge_into] in Hs1.
  destruct (put_genesis_operations s1 _ g Hs1 Hg) as (s2 & -> & L2 & O2 & Hs2 & Harr).
  { by rewrite O1 by apart. }
  destruct (put_json_stores 0 s2 _ g (genesis_json_of r) Hs2) as (s3 & -> & _ & O3 & Hs3);
    [done|by unfold room; rewrite L2, L1|done|done|].
  cbn [blocks metas parents additional] in Hs3 |- *. rewrite Eb in Hs3 |- *.
  rewrite decide_False by done. unfold reads_state.
  rewrite (proj1 (block_get_holds s3 _ g (proj1 Hs3) Hg)). cbn [blocks]. rewrite lookup_insert_eq.
  cbn [fmap option_fmap option_map fst]. rewrite Hbh. fold head.
  assert (facts c (db s3) f) as Hf3.
  { eapply facts_frame; [exact O3|apart|]. eapply facts_frame; [exact O2|apart|].
    eapply facts_frame; [exact O1|apart|done]. }
  destruct (set_head_stores _ _ _ s3 _ (set_genesis_updates ltac:(open) c head _ _ Hc Hv Hf3) Hs3)
    as (s4 & -> & Hf4 & O4 & Hs4).
  destruct (set_head_stores _ _ _ s4 _ (set_caboose_updates ltac:(open) c head _ _ Hc Hv Hf4) Hs4)
    as (s5 & -> & Hf5 & O5 & Hs5).
  destruct (set_head_stores _ _ _ s5 _ (set_current_head_updates ltac:(open) c head _ _ Hc Hv Hf5) Hs5)
    as (s6 & -> & Hf6 & O6 & Hs6).
  exists s6. split; [done|]. split; [done|]. split; [|done].
  change OperationsMeta.genesis_meta with (record 0 ∅). apply (get_arrived ltac:(open)); [done|].
  unfold arrived. by rewrite O6, O5, O4, O3 by apart.
Qed.

(** An empty storage, the call of [initialize_storage_with_genesis_block]
    and the call of [store_commit_genesis_result].  If the texts of the network
    configuration can be decoded, both succeed.  The first one stores the header
    of level 0 that is its own predecessor, and finds it by its context.  After
    the second one the block is stored with the result, is marked as applied,
    has all its operations (none), has additional data with no operations to
    live, and is the genesis block, the oldest block and the current head of the
    chain. *)
Theorem genesis_stored `{Base58Lib, Chrono} s w info env c r t g ops a f :
  let b := mkBlockHeaderWithHash g (mkBlockHeader 0 0 g t 0 ops [] c []) in
  let head := mkHead g 0 [] in
  get_empty_operation_list_list_hash = Ok ops → genesis_header_hash env = Ok g → genesis_time env = Ok t →
  genesis_additional_data env = Ok a → genesis_block_header_hash info = g →
  hash_ok BlockHash g → hash_ok ChainId (init_chain_id info) → hash_ok ContextHash c →
  stores s w → room 2 s → blocks w !! g = None → metas w !! g = None →
  get_cf (db s) "operations_meta_storage" g = Ok None → facts (init_chain_id info) (db s) f →
  storable (ColumnBlockHeader b) → storable (ColumnBlockJsonData (genesis_json_of r)) →
  additional_ok (genesis_additional_of a) → value_ok (MetaHead head) →
  ∃ s1 s2,
    initialize_storage_with_genesis_block info env c s = (s1, Ok b) ∧
    get_by_context_hash c s1 = Ok (Some b) ∧
    store_commit_genesis_result info r s1 = (s2, Ok ()) ∧
    stores s2 (mkStored (<[g := (b, Some (genesis_json_of r))]> (blocks w))
      (<[g := BlockMeta.genesis_meta g (init_chain_id info) true]> (metas w)) (parents w)
      (<[g := genesis_additional_of a]> (additional w))) ∧
    OperationsMeta.get g (db s2) = Ok (Some OperationsMeta.genesis_meta) ∧
    facts (init_chain_id info) (db s2) (mkChainFacts (Some head) (Some head) (Some head) (test_chain f)).
Proof.
  intros b head Eops Eg Et Ea Einfo Hg Hchain Hc Hs Hr Enew Em Hops Hf Hstb Hstj Hadd Hv.
  unfold initialize_storage_with_genesis_block, genesis_header, pure. rewrite Eops. cbn [map_err].
  rewrite Eg, Et, Ea, Einfo. cbn [map_err]. fold b (genesis_additional_of a). change (hash b) with g.
  destruct (put_header_stores 1 s w b Hs) as (s1 & -> & Hr1 & O1 & Hs1); [done..|].
  destruct (put_additional_stores s1 _ g (genesis_additional_of a) Hs1 Hg Hadd) as (s2 & -> & L2 & O2 & Hs2).
  assert (room 1 s2) as Hr2 by (unfold room; by rewrite L2).
  destruct (assign_stores 1 s2 _ g c b None Hs2 Hr2 Hg Hc) as (s3 & -> & Hr3 & O3 & Hs3 & Ectx);
    [apply lookup_insert_eq|].
  exists s3. subst g.
  destruct (commit_genesis_stores s3 _ info r b f Hs3 Hr3 Hg Hchain) as (s4 & E4 & Hs4 & Ho4 & Hf4).
  - apply lookup_insert_eq.
  - done.
  - done.
  - by rewrite O3, O2, O1 by apart.
  - eapply facts_frame; [exact O3|apart|]. eapply facts_frame; [exact O2|apart|].
    eapply facts_frame; [exact O1|apart|done].
  - done.
  - done.
  - exists s4. cbn [blocks metas parents additional] in Hs4. rewrite insert_insert_eq in Hs4. done.
Qed.

End Refinement.

Module StorageOpsWitnesses.
Import ConcreteDb.

#[local] Instance storage_ops_db : RocksDb := memory_db dbs_families.
#[local] Instance storage_ops_db_laws : RocksDbLaws dbs_families.
Proof. apply memory_db_laws. apply (bool_decide_unpack _). vm_compute. exact I. Qed.

#[local] Existing Instance BlockStorageWitnesses.list_log.
#[local] Existing Instance BlockStorageWitnesses.list_log_laws.
#[local] Existing Instance BlockStorageWitnesses.location_bincode.
#[local] Existing Instance BlockStorageWitnesses.location_bincode_laws.
#[local] Existing Instance PredecessorWitnesses.key_bincode.
#[local] Existing Instance PredecessorWitnesses.key_bincode_laws.
#[local] Existing Instance ChainMetaWitnesses.value_bincode.
#[local] Existing Instance ChainMetaWitnesses.value_bincode_laws.

(** Text forms without information: every hash is made of ones. *)
#[local] Instance toy_base58 : Base58Lib := {|
  sha256_hash _ := replicate 32 0;
  to_base58 _ := "";
  from_base58 s :=
    if decide (String.prefix "LL" s = true) then Some (replicate 35 1 ++ replicate 4 0)
    else Some (replicate 34 1 ++ replicate 4 0)
|}.
#[local] Instance toy_chrono : Chrono := {| parse_from_rfc3339 _ := Ok 5 |}.

Definition g : bytes := replicate 32 1.
Definition ctx : bytes := replicate 32 2.
Definition chain : bytes := [1; 2; 3; 4].
Definition genesis : BlockHeaderWithHash :=
  mkBlockHeaderWithHash g (mkBlockHeader 0 0 g 5 0 (replicate 32 1) [] ctx []).
Definition genesis_data : BlockAdditionalData :=
  mkBlockAdditionalData 0 0 (replicate 32 1) (replicate 32 1) None None None.
Definition json : BlockJsonData := mkBlockJsonData [] [] [].

(** The only columns and data of the examples. *)
#[local] Instance toy_columns : Bincode BlockStorageColumn := {|
  bincode_serialize c := match c with ColumnBlockHeader _ => Some [0] | ColumnBlockJsonData _ => Some [1] end;
  bincode_deserialize b :=
    match b with [0] => Some (ColumnBlockHeader genesis) | _ => Some (ColumnBlockJsonData json) end
|}.
#[local] Instance toy_additional : Bincode BlockAdditionalData := {|
  bincode_serialize _ := Some [];
  bincode_deserialize _ := Some genesis_data
|}.
#[local] Instance toy_additional_laws : BincodeLaws BlockAdditionalData (λ d, d = genesis_data).
Proof. constructor. intros d ->. by exists []. Qed.

Definition empty : Persistent := mkPersistent ∅ {["block_storage"%string := []]}.

Lemma empty_stores : stores empty (mkStored ∅ ∅ ∅ ∅).
Proof.
  split; [split; [by eexists|]|split; [|split; [|split]]].
  - intros h Hh. cbn [blocks]. rewrite lookup_empty. reflexivity.
  - intros h Hh. exists None. split; [reflexivity|]. cbn [metas]. by rewrite lookup_empty.
  - apply map_Forall_empty.
  - intros h i Hh Hi. cbn [parents].
    assert (nth_predecessor ∅ (Z.to_nat (2 ^ i)) h = None) as ->; [|reflexivity].
    destruct (Z.to_nat (2 ^ i)) as [|n] eqn:E; [pose proof (Z.pow_pos_nonneg 2 i); lia|].
    change (S n) with (1 + n)%nat. by rewrite nth_predecessor_add.
  - intros h Hh. reflexivity.
Qed.

Definition info : StorageInitInfo := mkStorageInitInfo chain g None false.

Lemma genesis_stored_witness :
  ∃ s1 s2,
    initialize_storage_with_genesis_block info (mkGenesisChain "" "" "") ctx empty = (s1, Ok genesis) ∧
    store_commit_genesis_result info (mkCommitGenesisResult [] [] []) s1 = (s2, Ok ()) ∧
    get_current_head chain (db s2) = Ok (Some (mkHead g 0 [])).
Proof.
  destruct (genesis_stored (fun _ H => H) empty (mkStored ∅ ∅ ∅ ∅) info (mkGenesisChain "" "" "") ctx
    (mkCommitGenesisResult [] [] []) 5 g (replicate 32 1)
    (mkGenesisAdditionalData 0 0 (replicate 32 1) (replicate 32 1)) (mkChainFacts None None None None))
    as (s1 & s2 & E1 & _ & E2 & _ & _ & Hf & _); try reflexivity.
  - exact empty_stores.
  - exists []. done.
  - repeat (split; [reflexivity|]). reflexivity.
  - exists [0]. done.
  - exists [1]. done.
  - exists s1, s2. done.
Defined.

Definition known : Stored := mkStored {[g := (genesis, None)]} ∅ ∅ ∅.
Definition response (ttl : Z) : ApplyBlockResponse :=
  mkApplyBlockResponse [] ctx (replicate 32 1) (replicate 32 1) [] [] [] ttl 0 false None None None None.

Lemma known_stores : ∃ s, stores s known ∧ room 1 s.
Proof.
  destruct (put_header_stores (fun _ H => H) 1 empty (mkStored ∅ ∅ ∅ ∅) genesis empty_stores)
    as (s & E & Hr & _ & Hs); [done|by exists []|by exists [0]|done|done|done|].
  exists s. done.
Qed.


End StorageOpsWitnesses.
