(* ===== verification/Fitness.v ===== *)
(** * Fitness of blocks: [shell/src/validation/mod.rs]

    The comparison of fitnesses by [FitnessWrapper], the comparison of vectors
    of the Rust standard library that some checks use instead, and the checks of
    heads that are built on them. *)

From S2P Require Import Prelude Hash Blocks.

(** ** [fitness_comparator] *)

(** The loop over the bytes of two parts of the same length. *)
Fixpoint cmp_part (self_part other_part : bytes) : comparison :=
  match self_part, other_part with
  | b1 :: self_part, b2 :: other_part =>
      match b1 ?= b2 with Eq => cmp_part self_part other_part | byte_result => byte_result end
  | _, _ => Eq
  end.

(** The loop over the parts of two fitnesses of the same length. *)
Fixpoint cmp_parts (self other : Fitness) : comparison :=
  match self, other with
  | self_part :: self, other_part :: other =>
      match len self_part ?= len other_part with
      | Eq =>
          match cmp_part self_part other_part with
          | Eq => cmp_parts self other
          | result => result
          end
      | result => result
      end
  | _, _ => Eq
  end.

Definition fitness_cmp (self other : Fitness) : comparison :=
  match len self ?= len other with Eq => cmp_parts self other | result => result end.

(** [PartialOrd::gt] and [PartialOrd::ge], from a comparison *)
Definition is_gt (c : comparison) : bool := match c with Gt => true | _ => false end.
Definition is_ge (c : comparison) : bool := match c with Lt => false | _ => true end.

(** ** The order of [Vec] in the standard library *)

Fixpoint vec_cmp {A} (cmp : A → A → comparison) (a b : list A) : comparison :=
  match a, b with
  | [], [] => Eq
  | [], _ => Lt
  | _, [] => Gt
  | x :: a, y :: b => match cmp x y with Eq => vec_cmp cmp a b | c => c end
  end.

Definition fitness_vec_cmp : Fitness → Fitness → comparison := vec_cmp (vec_cmp Z.compare).

(** ** Checks of heads *)

Definition can_update_current_head (new_head : BlockHeaderWithHash) (current_head : Head)
    (current_context_fitness : Fitness) : bool :=
  let new_head_fitness := header_fitness (header new_head) in
  let current_head_fitness := head_fitness current_head in
  if decide (current_context_fitness = current_head_fitness)
  then is_gt (fitness_cmp new_head_fitness current_head_fitness)
  else is_ge (fitness_cmp new_head_fitness current_context_fitness).

Definition is_fitness_increases (head : Head) (new_fitness : Fitness) : bool :=
  is_gt (fitness_vec_cmp new_fitness (head_fitness head)).

Definition is_fitness_increases_or_same (head : Head) (new_fitness : Fitness) : bool :=
  is_ge (fitness_vec_cmp new_fitness (head_fitness head)).

(** [incoming_hash] is the result of [incoming_header.message_hash()]. *)
Definition is_same_head {E} (head : Head) (incoming_header : BlockHeader_t)
    (incoming_hash : result bytes E) : result bool E :=
  let? h := incoming_hash in
  Ok (bool_decide (block_hash head = h)
      && bool_decide (head_fitness head = header_fitness incoming_header)
      && bool_decide (head_level head = header_level incoming_header)).

(** [NaiveDateTime::from_timestamp] of the crate chrono panics out of the range
    of its dates; [None] is this panic. *)
Class Timestamps : Type := { from_timestamp : Z → option Z }.

Class TimestampsLaws `{Timestamps} (min_seconds max_seconds : Z) : Prop := {
  from_timestamp_in_range s : min_seconds ≤ s ≤ max_seconds → from_timestamp s = Some s;
  from_timestamp_out_of_range s : ¬ (min_seconds ≤ s ≤ max_seconds) → from_timestamp s = None
}.

(** [now] is [Utc::now()] in seconds. *)
Definition is_future_block `{Timestamps} (now : Z) (block_header : BlockHeader_t) : option bool :=
  let future_margin := now + 15 in
  match from_timestamp (timestamp block_header) with
  | Some block_timestamp => Some (bool_decide (block_timestamp > future_margin))
  | None => None
  end.

(** ** The documented order

    Shorter fitnesses are smaller; of the same length, the first parts that
    differ decide: a shorter part is smaller, and parts of the same length
    compare as big-endian numbers. *)

Definition part_lt (p q : bytes) : Prop := len p < len q ∨ (len p = len q ∧ be_val p < be_val q).

Definition fitness_lt (a b : Fitness) : Prop :=
  len a < len b ∨
  (len a = len b ∧ ∃ pre p q ra rb, a = pre ++ p :: ra ∧ b = pre ++ q :: rb ∧ part_lt p q).

Definition fitness_ok (f : Fitness) : Prop := Forall bytes_ok f.

Definition compares {A} (lt : A → A → Prop) (a b : A) (c : comparison) : Prop :=
  match c with Lt => lt a b | Eq => a = b | Gt => lt b a end.

Lemma cmp_part_spec p q :
  len p = len q → bytes_ok p → bytes_ok q → cmp_part p q = (be_val p ?= be_val q).
Proof.
  revert q. induction p as [|x p IH]; intros [|y q] El Hp Hq;
    [done|unfold len in El; cbn [length] in El; lia..|].
  apply Forall_cons in Hp as [Hx Hp]. apply Forall_cons in Hq as [Hy Hq].
  assert (len p = len q) as El' by (unfold len in *; cbn [length] in El; lia).
  cbn [cmp_part]. rewrite (IH q) by done. rewrite !be_val_cons, <- El'.
  pose proof (be_val_bound p Hp) as Bp. pose proof (be_val_bound q Hq) as Bq. rewrite <- El' in Bq.
  destruct (Z.compare_spec x y) as [->|Hlt|Hgt].
  - symmetry. apply Z.add_compare_mono_l.
  - symmetry. apply Z.compare_lt_iff. nia.
  - symmetry. apply Z.compare_gt_iff. nia.
Qed.

(** Two parts, as the loop compares them. *)
Lemma part_compares p q :
  bytes_ok p → bytes_ok q →
  compares part_lt p q
    (match len p ?= len q with Eq => cmp_part p q | result => result end).
Proof.
  intros Hp Hq. unfold part_lt. destruct (Z.compare_spec (len p) (len q)) as [E|E|E]; cbn; [|lia..].
  rewrite cmp_part_spec by done. destruct (Z.compare_spec (be_val p) (be_val q)) as [E'|E'|E']; cbn; [|lia..].
  rewrite <- (be_bytes_be_val p), <- (be_bytes_be_val q), E' by done. f_equal. unfold len in E. lia.
Qed.

(** The first parts that differ. *)
Definition parts_lt (a b : Fitness) : Prop :=
  ∃ pre p q ra rb, a = pre ++ p :: ra ∧ b = pre ++ q :: rb ∧ part_lt p q.

Lemma parts_lt_cons p q a b :
  parts_lt (p :: a) (q :: b) ↔ part_lt p q ∨ (p = q ∧ parts_lt a b).
Proof.
  split.
  - intros ([|x pre] & p' & q' & ra & rb & [= -> ->] & [= -> ->] & Hlt); [by left|].
    right. split; [done|]. by exists pre, p', q', ra, rb.
  - intros [Hlt|[-> (pre & p' & q' & ra & rb & -> & -> & Hlt)]].
    + by exists [], p, q, a, b.
    + by exists (q :: pre), p', q', ra, rb.
Qed.

Lemma cmp_parts_spec a b :
  length a = length b → fitness_ok a → fitness_ok b → compares parts_lt a b (cmp_parts a b).
Proof.
  revert b. induction a as [|p a IH]; intros [|q b] El Ha Hb; try done.
  apply Forall_cons in Ha as [Hp Ha]. apply Forall_cons in Hb as [Hq Hb]. injection El as El.
  pose proof (part_compares p q Hp Hq) as Hpq. specialize (IH b El Ha Hb). cbn [cmp_parts].
  destruct (len p ?= len q); cbn in *; [|apply parts_lt_cons; by left..].
  destruct (cmp_part p q); cbn in *; [subst q|apply parts_lt_cons; by left..].
  destruct (cmp_parts a b); cbn in *; [by subst|apply parts_lt_cons; by right..].
Qed.

Lemma part_lt_trans p q r : part_lt p q → part_lt q r → part_lt p r.
Proof. unfold part_lt. lia. Qed.

Lemma part_lt_irrefl p : ¬ part_lt p p.
Proof. unfold part_lt. lia. Qed.

Lemma parts_lt_irrefl a : ¬ parts_lt a a.
Proof.
  induction a as [|p a IH].
  - by intros ([|] & ? & ? & ? & ? & [=] & _).
  - rewrite parts_lt_cons. intros [Hlt|[_ Hlt]]; [by apply part_lt_irrefl in Hlt|done].
Qed.

Lemma parts_lt_trans a b c : parts_lt a b → parts_lt b c → parts_lt a c.
Proof.
  revert b c. induction a as [|p a IH]; intros b c Hab Hbc.
  - destruct Hab as ([|] & ? & ? & ? & ? & [=] & _).
  - destruct b as [|q b]; [by destruct Hbc as ([|] & ? & ? & ? & ? & [=] & _)|].
    destruct c as [|r c]; [by destruct Hbc as ([|] & ? & ? & ? & ? & _ & [=] & _)|].
    rewrite parts_lt_cons in *. destruct Hab as [Hab|[-> Hab]], Hbc as [Hbc|[-> Hbc]].
    + left. by eapply part_lt_trans.
    + by left.
    + by left.
    + right. split; [done|]. by eapply IH.
Qed.

Lemma fitness_lt_trans a b c : fitness_lt a b → fitness_lt b c → fitness_lt a c.
Proof.
  intros [Hab|[Eab Hab]] [Hbc|[Ebc Hbc]]; [left; lia|left; lia|left; lia|].
  right. split; [lia|]. by apply (parts_lt_trans a b c).
Qed.

Lemma fitness_lt_irrefl a : ¬ fitness_lt a a.
Proof. intros [Hlt|[_ Hlt]]; [lia|by apply (parts_lt_irrefl a)]. Qed.

Lemma fitness_compares a b : fitness_ok a → fitness_ok b → compares fitness_lt a b (fitness_cmp a b).
Proof.
  intros Ha Hb. unfold fitness_cmp, fitness_lt. destruct (Z.compare_spec (len a) (len b)) as [E|E|E]; cbn; [|lia..].
  assert (length a = length b) as El by (unfold len in E; lia).
  pose proof (cmp_parts_spec a b El Ha Hb) as Hc. destruct (cmp_parts a b); cbn in *; [done|by right|by right].
Qed.

(** [FitnessWrapper] is the documented order, and a total one.  On
    fitnesses made of bytes, the comparison says less, equal or greater exactly
    as the documented order does, which is irreflexive and transitive. *)
Theorem fitness_cmp_is_documented :
  (∀ a b, fitness_ok a → fitness_ok b → compares fitness_lt a b (fitness_cmp a b)) ∧
  (∀ a, ¬ fitness_lt a a) ∧
  (∀ a b c, fitness_lt a b → fitness_lt b c → fitness_lt a c).
Proof. split; [exact fitness_compares|]. split; [exact fitness_lt_irrefl|exact fitness_lt_trans]. Qed.

(** ** The two orders *)

Lemma vec_cmp_bytes p q :
  len p = len q → vec_cmp Z.compare p q = cmp_part p q.
Proof.
  revert q. induction p as [|x p IH]; intros [|y q] El; [done|unfold len in El; cbn [length] in El; lia..|].
  cbn. rewrite IH; [done|]. unfold len in *. cbn [length] in El. lia.
Qed.

Lemma vec_cmp_parts a b : map len a = map len b → fitness_vec_cmp a b = cmp_parts a b.
Proof.
  unfold fitness_vec_cmp. revert b. induction a as [|p a IH]; intros [|q b] El; try done.
  injection El as Elp El. cbn [vec_cmp cmp_parts]. rewrite vec_cmp_bytes, Elp, Z.compare_refl by done.
  by rewrite (IH b).
Qed.

(** [is_fitness_increases] and [is_fitness_increases_or_same] compare with
    the order of vectors of the standard library.  It agrees with [FitnessWrapper]
    if the parts have the same lengths, position by position; it does not for
    other fitnesses: there are a head and a fitness such that the fitness is
    larger for [can_update_current_head] and smaller for these two. *)
Theorem fitness_orders_differ :
  (∀ head f, map len f = map len (head_fitness head) →
     is_fitness_increases head f = is_gt (fitness_cmp f (head_fitness head)) ∧
     is_fitness_increases_or_same head f = is_ge (fitness_cmp f (head_fitness head))) ∧
  (∃ head b,
     can_update_current_head b head (head_fitness head) = true ∧
     is_fitness_increases head (header_fitness (header b)) = false ∧
     is_fitness_increases_or_same head (header_fitness (header b)) = false).
Proof.
  split.
  - intros head f El. unfold is_fitness_increases, is_fitness_increases_or_same, fitness_cmp.
    rewrite vec_cmp_parts by done.
    assert (len f = len (head_fitness head)) as ->.
    { unfold len. rewrite <- (length_map len f), El. by rewrite length_map. }
    by rewrite Z.compare_refl.
  - exists (mkHead [] 1 [[1]; [0; 9]]).
    exists (mkBlockHeaderWithHash [] (mkBlockHeader 2 0 [] 0 0 [] [[1]; [0; 0; 1]] [] [])).
    vm_compute. done.
Qed.

(** ** Heads that replace each other *)

(** The fitness that a new head has to exceed or reach. *)
Lemma can_update_spec b head ctx :
  fitness_ok (header_fitness (header b)) → fitness_ok (head_fitness head) → fitness_ok ctx →
  can_update_current_head b head ctx = true ↔
    (ctx = head_fitness head ∧ fitness_lt (head_fitness head) (header_fitness (header b))) ∨
    (ctx ≠ head_fitness head ∧
      (fitness_lt ctx (header_fitness (header b)) ∨ ctx = header_fitness (header b))).
Proof.
  intros Hb Hh Hc. unfold can_update_current_head. set (f := header_fitness (header b)) in *.
  case_decide as E.
  - subst ctx. pose proof (fitness_compares f (head_fitness head) Hb Hh) as Hcmp.
    pose proof (fitness_lt_irrefl f). pose proof (fitness_lt_trans f (head_fitness head) f).
    destruct (fitness_cmp f (head_fitness head)); cbn in *; [rewrite <- Hcmp in *|..]; naive_solver.
  - pose proof (fitness_compares f ctx Hb Hc) as Hcmp.
    pose proof (fitness_lt_irrefl f). pose proof (fitness_lt_trans f ctx f).
    destruct (fitness_cmp f ctx); cbn in *; naive_solver.
Qed.

(** A header whose timestamp is outside of the range of chrono makes
    [is_future_block] panic, whatever the time; for all other headers it returns
    whether the timestamp is more than 15 seconds ahead.  A received header can
    have any 64-bit timestamp. *)
Theorem future_block_panics `{TimestampsLaws lo hi} now b :
  is_future_block now b =
    if decide (lo ≤ timestamp b ≤ hi) then Some (bool_decide (now + 15 < timestamp b)) else None.
Proof.
  unfold is_future_block. case_decide as E.
  - rewrite (from_timestamp_in_range _ E). f_equal. apply bool_decide_ext. lia.
  - by rewrite (from_timestamp_out_of_range _ E).
Qed.
