(* ===== verification/Prevalidator.v ===== *)
(** * The mempool

    [tezos/api/src/ffi.rs] (results of validation), [storage/src/mempool_storage.rs],
    [shell/src/mempool/mempool_state.rs] and the event loop of
    [shell/src/mempool/mempool_prevalidator.rs].  The protocol, which runs in
    another process, is a parameter: every event is handled with some answers of
    it.  The order in which hash sets are iterated, [iter], is a parameter too. *)

From stdpp Require Import gmap.
From S2P Require Import Prelude Hash Kv Blocks BlockStorage ChainMeta.

(** ** Results of validation *)

Record Operation_t := mkOperation { branch : bytes; operation_data : bytes }.
#[export] Instance Operation_t_eq_dec : EqDecision Operation_t.
Proof. solve_decision. Defined.

Record PrevalidatorWrapper := mkPrevalidatorWrapper {
  prevalidator_chain_id : bytes;
  prevalidator_protocol : bytes;
  context_fitness : option Fitness
}.

Record Applied := mkApplied { applied_hash : bytes; protocol_data_json : bytes }.
Record Errored := mkErrored {
  errored_hash : bytes;
  is_endorsement : option bool;
  protocol_data_json_with_error_json : bytes * bytes
}.

Class HasOperationHash (A : Type) : Type := { operation_hash : A → bytes }.
#[export] Instance Applied_hash : HasOperationHash Applied := {| operation_hash := applied_hash |}.
#[export] Instance Errored_hash : HasOperationHash Errored := {| operation_hash := errored_hash |}.

Record ValidateOperationResult := mkValidateOperationResult {
  applied : list Applied;
  refused : list Errored;
  branch_refused : list Errored;
  branch_delayed : list Errored
}.

Definition empty_result : ValidateOperationResult := mkValidateOperationResult [] [] [] [].

Section Items.
Context {A : Type} `{HasOperationHash A}.

(** [iter().position(..)] *)
Fixpoint position (h : bytes) (items : list A) : option nat :=
  match items with
  | [] => None
  | x :: items => if decide (operation_hash x = h) then Some O else S <$> position h items
  end.

(** [iter().any(..)] *)
Definition any_hash (h : bytes) (items : list A) : bool :=
  existsb (λ x, bool_decide (operation_hash x = h)) items.

(** [Vec::remove] *)
Definition remove_at (i : nat) (items : list A) : list A := take i items ++ drop (S i) items.

Fixpoint merge_loop (result_items new_items : list A) (changed added : bool) : list A * bool :=
  match new_items with
  | [] => (result_items, added || changed)
  | new_item :: new_items =>
      match position (operation_hash new_item) result_items with
      | Some idx => merge_loop (<[idx := new_item]> result_items) new_items true added
      | None => merge_loop (result_items ++ [new_item]) new_items changed true
      end
  end.

Definition merge_items (result_items new_items : list A) : list A * bool :=
  merge_loop result_items new_items false false.

End Items.

Definition merge_result (self new_result : ValidateOperationResult) : ValidateOperationResult * bool :=
  let '(a, changed_a) := merge_items (applied self) (applied new_result) in
  let '(r, changed_r) := merge_items (refused self) (refused new_result) in
  let '(br, changed_br) := merge_items (branch_refused self) (branch_refused new_result) in
  let '(bd, changed_bd) := merge_items (branch_delayed self) (branch_delayed new_result) in
  (mkValidateOperationResult a r br bd, changed_a || changed_r || changed_br || changed_bd).

(** ** The storage of operations *)

Inductive MempoolOperationType := Pending | KnownValid.
#[export] Instance MempoolOperationType_eq_dec : EqDecision MempoolOperationType.
Proof. solve_decision. Defined.

Definition to_u8 (self : MempoolOperationType) : Z :=
  match self with Pending => 0 | KnownValid => 1 end.

Definition from_u8 (num : Z) : option MempoolOperationType :=
  if decide (num = 0) then Some Pending else if decide (num = 1) then Some KnownValid else None.

Record MempoolKey := mkMempoolKey { operation_type : MempoolOperationType; key_hash : bytes }.
#[export] Instance MempoolKey_eq_dec : EqDecision MempoolKey.
Proof. solve_decision. Defined.
#[export] Instance MempoolOperationType_countable : Countable MempoolOperationType.
Proof.
  refine (inj_countable (λ t, match t with Pending => true | KnownValid => false end)
    (λ b : bool, Some (if b then Pending else KnownValid)) _). by intros [].
Defined.
#[export] Instance MempoolKey_countable : Countable MempoolKey.
Proof.
  refine (inj_countable (λ k, (operation_type k, key_hash k)) (λ p, Some (mkMempoolKey p.1 p.2)) _).
  by intros [].
Defined.

Definition mempool_key_encode (self : MempoolKey) : result bytes SchemaError :=
  if decide (len (key_hash self) = size OperationHash)
  then Ok (to_u8 (operation_type self) :: key_hash self)
  else Err EncodeError.

Definition mempool_key_decode (bytes : bytes) : result MempoolKey SchemaError :=
  if decide (len bytes = 1 + size OperationHash) then
    let? num := ok_or (num_from_slice bytes 0 1) SchemaPanic in
    let? operation_type := ok_or (from_u8 num) DecodeError in
    let? hash := ok_or (slice bytes 1 (1 + size OperationHash)) SchemaPanic in
    let? hash := map_err (λ _, DecodeError) (try_from_bytes OperationHash hash) in
    Ok (mkMempoolKey operation_type hash)
  else Err DecodeError.

#[export] Instance mempool_key_codec : Codec MempoolKey :=
  {| encode := mempool_key_encode; decode := mempool_key_decode |}.

Definition mempool_descriptor : ColumnFamilyDescriptor := mkColumnFamily "mempool_storage" None.

Section MempoolStorage.
Context `{RocksDb, Bincode Operation_t}.

Definition MempoolStorage : KeyValueSchema :=
  mkSchema MempoolKey Operation_t mempool_key_codec (bincode_codec Operation_t) "mempool_storage".

(** [message_hash] is the result of [operation.message_hash()]. *)
Definition mempool_put (t : MempoolOperationType) (operation : Operation_t)
    (message_hash : result bytes string) : io DB () StorageError :=
  do? h := pure (map_err MessageHashError message_hash) in
  do? h := pure (map_err StorageHashError (try_from_bytes OperationHash h)) in
  err_into StorageDBError (kv_put MempoolStorage (mkMempoolKey t h) operation).

Definition mempool_get (t : MempoolOperationType) (h : bytes) (db : DB)
    : result (option Operation_t) StorageError :=
  map_err StorageDBError (kv_get MempoolStorage (mkMempoolKey t h) db).

Definition mempool_delete (h : bytes) : io DB () StorageError :=
  do? _ := err_into StorageDBError (kv_delete MempoolStorage (mkMempoolKey Pending h)) in
  do? _ := err_into StorageDBError (kv_delete MempoolStorage (mkMempoolKey KnownValid h)) in
  ret ().

Definition mempool_find (h : bytes) (db : DB) : result (option Operation_t) StorageError :=
  let? found := mempool_get Pending h db in
  match found with
  | Some _ => Ok found
  | None => mempool_get KnownValid h db
  end.

Fixpoint collect_entries (entries : list (result MempoolKey SchemaError * result Operation_t SchemaError))
    : result (list (bytes * Operation_t)) StorageError :=
  match entries with
  | [] => Ok []
  | (k, v) :: entries =>
      let? k := map_err (λ e, StorageDBError (DBSchemaError e)) k in
      let? v := map_err (λ e, StorageDBError (DBSchemaError e)) v in
      let? rest := collect_entries entries in
      Ok ((key_hash k, v) :: rest)
  end.

Definition mempool_iter (db : DB) : result (list (bytes * Operation_t)) StorageError :=
  let? entries := map_err StorageDBError (kv_iterator MempoolStorage (IterStart MempoolStorage) db) in
  collect_entries entries.

End MempoolStorage.

(** ** The state *)

(** The time is the number of seconds. *)
Record MempoolState := mkMempoolState {
  prevalidator : option PrevalidatorWrapper;
  prevalidator_started : option Z;
  predecessor : option bytes;
  validation_result : ValidateOperationResult;
  operations : gmap bytes Operation_t;
  pending : gset bytes
}.

Definition default_state : MempoolState := mkMempoolState None None None empty_result ∅ ∅.

(** An order of iteration of sets of hashes. *)
Definition Iteration : Type := gset bytes → list bytes.

Definition reinit (iter : Iteration) (self : MempoolState) (new_prevalidator : option PrevalidatorWrapper)
    (new_predecessor : option bytes) : MempoolState * list bytes :=
  let unneeded_operations := filter (λ key, key ∉ pending self) (iter (dom (operations self))) in
  (mkMempoolState new_prevalidator (prevalidator_started self) new_predecessor empty_result
     (foldl (λ ops oph, delete oph ops) (operations self) unneeded_operations) (pending self),
   unneeded_operations).

Definition result_any (h : bytes) (r : ValidateOperationResult) : bool :=
  any_hash h (applied r) || any_hash h (branch_delayed r) || any_hash h (branch_refused r)
  || any_hash h (refused r).

Definition is_already_validated (self : MempoolState) (h : bytes) : bool :=
  result_any h (validation_result self).

Definition is_already_in_mempool (self : MempoolState) (h : bytes) : bool :=
  bool_decide (h ∈ pending self) || is_already_validated self h.

Definition add_to_pending (self : MempoolState) (h : bytes) (operation : Operation_t)
    : MempoolState * bool :=
  if is_already_validated self h then (self, false)
  else if decide (h ∈ pending self) then (self, false)
  else (mkMempoolState (prevalidator self) (prevalidator_started self) (predecessor self)
          (validation_result self) (<[h := operation]> (operations self)) ({[h]} ∪ pending self), true).

Definition set_prevalidator_started (self : MempoolState) (now : Z) : MempoolState :=
  mkMempoolState (prevalidator self) (Some now) (predecessor self) (validation_result self)
    (operations self) (pending self).

(** One of the four lists: the first entry with the hash is removed. *)
Definition remove_from {A} `{HasOperationHash A} (h : bytes) (items : list A)
    (ops : gmap bytes Operation_t) : list A * gmap bytes Operation_t :=
  match position h items with
  | Some pos => (remove_at pos items, delete h ops)
  | None => (items, ops)
  end.

Definition remove_operation (self : MempoolState) (oph : bytes) : MempoolState :=
  let r := validation_result self in
  let '(a, ops) := remove_from oph (applied r) (operations self) in
  let '(bd, ops) := remove_from oph (branch_delayed r) ops in
  let '(br, ops) := remove_from oph (branch_refused r) ops in
  let '(rf, ops) := remove_from oph (refused r) ops in
  let '(p, ops) :=
    if decide (oph ∈ pending self) then (pending self ∖ {[oph]}, delete oph ops) else (pending self, ops) in
  mkMempoolState (prevalidator self) (prevalidator_started self) (predecessor self)
    (mkValidateOperationResult a rf br bd) ops p.

(** The prevalidator and the head, if there is something to handle. *)
Definition can_handle_pending (self : MempoolState) : option (PrevalidatorWrapper * bytes) :=
  if decide (pending self = ∅) then None
  else
    match prevalidator self with
    | Some p => match predecessor self with Some head => Some (p, head) | None => None end
    | None => None
    end.

Record MempoolMessage := mkMempoolMessage { known_valid : list bytes; message_pending : list bytes }.

Definition collect_mempool (iter : Iteration) (applied : list Applied) (pending : gset bytes)
    : MempoolMessage :=
  mkMempoolMessage (applied_hash <$> applied) (iter pending).

(** ** The protocol *)

Inductive ProtocolServiceError :=
| IpcError (reason : string)
| ProtocolError (reason : string)
| UnexpectedMessage (message : string)
| InvalidDataError (message : string)
| LockPoisonError (message : string).

(** The commands of the protocol runner that the shell uses: the answers that
    they give. *)
Record ProtocolController := mkProtocolController {
  assert_encoding_for_protocol_data_call : bytes → bytes → result () ProtocolServiceError;
  begin_application_call : bytes → BlockHeader_t → BlockHeader_t → result string ProtocolServiceError;
  begin_construction_call : bytes → BlockHeader_t → result PrevalidatorWrapper ProtocolServiceError;
  validate_operation_call :
    PrevalidatorWrapper → Operation_t → result ValidateOperationResult ProtocolServiceError
}.

(** [None] stands for an error that is only logged. *)
Definition handle_protocol_service_error (error : ProtocolServiceError) : option ProtocolServiceError :=
  match error with
  | IpcError _ | UnexpectedMessage _ => Some error
  | _ => None
  end.

(** ** The prevalidator *)

Section Prevalidator.
Context `{RocksDb, CommitLogLib, Bincode Operation_t}.
Context `{Bincode BlockStorageColumn, Bincode BlockStorageColumnsLocation, Bincode MetadataValue}.

Inductive PrevalidationError :=
| PrevalidationStorageError (error : StorageError)
| PrevalidationProtocolError (error : ProtocolServiceError)
| CurrentMempoolStorageLockError (reason : string).

Definition begin_construction (api : ProtocolController) (chain_id block_hash : bytes)
    (block_header : BlockHeader_t)
    : result (option PrevalidatorWrapper * option bytes) PrevalidationError :=
  match begin_construction_call api chain_id block_header with
  | Ok prevalidator => Ok (Some prevalidator, Some block_hash)
  | Err pse =>
      match handle_protocol_service_error pse with
      | Some e => Err (PrevalidationProtocolError e)
      | None => Ok (None, None)
      end
  end.

(** The loop over the drained set.  The results are merged in place, so they are
    kept also when the loop is left with an error. *)
Fixpoint validate_pending (api : ProtocolController) (p : PrevalidatorWrapper)
    (ops : gmap bytes Operation_t) (order : list bytes) (r : ValidateOperationResult)
    : ValidateOperationResult * result () PrevalidationError :=
  match order with
  | [] => (r, Ok ())
  | pending_op :: order =>
      match ops !! pending_op with
      | Some operation =>
          match validate_operation_call api p operation with
          | Ok response => validate_pending api p ops order (fst (merge_result r response))
          | Err pse =>
              match handle_protocol_service_error pse with
              | Some e => (r, Err (PrevalidationProtocolError e))
              | None => validate_pending api p ops order r
              end
          end
      | None => validate_pending api p ops order r
      end
  end.

(** What is told to other actors. *)
Inductive Output :=
| AdvertiseToP2pNewMempool (chain_id block_hash : bytes) (mempool : MempoolMessage)
| ResultCallback (r : result () string).

Definition advertise_new_mempool (iter : Iteration) (p : PrevalidatorWrapper) (head : bytes)
    (applied : list Applied) (pending : gset bytes) : list Output :=
  if decide (length applied = 0%nat) then []
  else [AdvertiseToP2pNewMempool (prevalidator_chain_id p) head (collect_mempool iter applied pending)].

(** The set of pending operations is drained: it is empty afterwards, whether or
    not the loop came to its end. *)
Definition handle_pending_operations (iter : Iteration) (api : ProtocolController) (s : MempoolState)
    : MempoolState * list Output * result () PrevalidationError :=
  match can_handle_pending s with
  | Some (p, head) =>
      let '(r, outcome) := validate_pending api p (operations s) (iter (pending s)) (validation_result s) in
      let s' := mkMempoolState (prevalidator s) (prevalidator_started s) (predecessor s) r (operations s) ∅ in
      match outcome with
      | Ok () => (s', advertise_new_mempool iter p head (applied r) ∅, Ok ())
      | Err e => (s', [], Err e)
      end
  | None => (s, [], Ok ())
  end.

(** Errors of the storage are only logged. *)
Fixpoint delete_operations (ophs : list bytes) (db : DB) : DB :=
  match ophs with
  | [] => db
  | oph :: ophs => delete_operations ophs (fst (mempool_delete oph db))
  end.

Inductive Event :=
| NewHead (header : BlockHeaderWithHash)
| ValidateOperation (oph : bytes) (t : MempoolOperationType) (has_callback : bool)
| ShuttingDown.

(** The thread: the shared state, the database, the flag of the loop. *)
Record Thread := mkThread { mempool : MempoolState; thread_db : DB; validator_run : bool }.

Definition dispatch_result (has_callback : bool) (r : result () string) : list Output :=
  if has_callback then [ResultCallback r] else [].

Definition process_event (iter : Iteration) (api : ProtocolController) (chain_id : bytes) (event : Event)
    (t : Thread) : Thread * list Output * result () PrevalidationError :=
  let s := mempool t in
  match event with
  | NewHead header =>
      let process_new_head :=
        match predecessor s with Some mempool_head => bool_decide (mempool_head ≠ hash header) | None => true end in
      if process_new_head then
        match begin_construction api chain_id (hash header) (Blocks.header header) with
        | Ok (prevalidator, head) =>
            let '(s, operations_to_delete) := reinit iter s prevalidator head in
            (mkThread s (delete_operations operations_to_delete (thread_db t)) (validator_run t), [], Ok ())
        | Err e => (t, [], Err e)
        end
      else (t, [], Ok ())
  | ValidateOperation oph mempool_operation_type result_callback =>
      match mempool_get mempool_operation_type oph (thread_db t) with
      | Err e => (t, [], Err (PrevalidationStorageError e))
      | Ok (Some operation) =>
          let '(s, was_added_to_pending) := add_to_pending s oph operation in
          (mkThread s (thread_db t) (validator_run t),
           dispatch_result result_callback
             (if was_added_to_pending then Ok () else Err "operation already validated"%string), Ok ())
      | Ok None =>
          (t, dispatch_result result_callback
                (Err "operations was previously validated and removed from mempool storage"%string), Ok ())
      end
  | ShuttingDown => (mkThread s (thread_db t) false, [], Ok ())
  end.

(** One round of the loop: what was received, if anything, then the pending operations. *)
Definition prevalidation_round (iter : Iteration) (api : ProtocolController) (chain_id : bytes)
    (received : option Event) (t : Thread) : Thread * list Output * result () PrevalidationError :=
  let '(t, out, outcome) :=
    match received with Some event => process_event iter api chain_id event t | None => (t, [], Ok ()) end in
  match outcome with
  | Err e => (t, out, Err e)
  | Ok () =>
      let '(s, out', outcome) := handle_pending_operations iter api (mempool t) in
      (mkThread s (thread_db t) (validator_run t), out ++ out', outcome)
  end.

Definition current_head_block (chain_id : bytes) (db : Persistent)
    : result (option (Head * BlockHeader_t)) StorageError :=
  let? head := get_current_head chain_id (BlockStorage.db db) in
  match head with
  | Some head =>
      let? block := BlockStorage.get (block_hash head) db in
      Ok ((λ b, (head, Blocks.header b)) <$> block)
  | None => Ok None
  end.

Fixpoint add_all_to_pending (s : MempoolState) (ops : list (bytes * Operation_t)) : MempoolState :=
  match ops with
  | [] => s
  | (oph, op) :: ops => add_all_to_pending (fst (add_to_pending s oph op)) ops
  end.

(** The start of the thread; [logs] are the logs of the block storage. *)
Definition hydrate_state (iter : Iteration) (api : ProtocolController) (chain_id : bytes) (now : Z)
    (logs : CommitLogs) (t : Thread) : Thread * list Output * result () PrevalidationError :=
  match map_err PrevalidationStorageError (current_head_block chain_id (mkPersistent (thread_db t) logs)) with
  | Err e => (t, [], Err e)
  | Ok current_head =>
      match
        match current_head with
        | Some (head, header) => begin_construction api chain_id (block_hash head) header
        | None => Ok (None, None)
        end
      with
      | Err e => (t, [], Err e)
      | Ok (prevalidator, head) =>
          match map_err PrevalidationStorageError (mempool_iter (thread_db t)) with
          | Err e => (t, [], Err e)
          | Ok stored =>
              let '(s, _) := reinit iter (mempool t) prevalidator head in
              let s := add_all_to_pending s stored in
              let s :=
                match prevalidator_started s with
                | Some _ => s
                | None => set_prevalidator_started s now
                end in
              let '(s, out, outcome) := handle_pending_operations iter api s in
              (mkThread s (thread_db t) (validator_run t), out, outcome)
          end
      end
  end.

End Prevalidator.

(** ** Lists of results *)

Section Hashes.
Context {A : Type} `{HasOperationHash A}.
Implicit Types (l n : list A) (h : bytes).

Definition hashes (l : list A) : list bytes := operation_hash <$> l.

Lemma any_hash_spec h l : any_hash h l = true ↔ h ∈ hashes l.
Proof.
  unfold any_hash, hashes. rewrite existsb_exists, list_elem_of_fmap. split.
  - intros (x & Hin & E). apply bool_decide_eq_true in E. exists x. by rewrite list_elem_of_In.
  - intros (x & -> & Hin). exists x. rewrite <- list_elem_of_In. split; [done|]. by apply bool_decide_eq_true.
Qed.

Lemma position_none h l : position h l = None ↔ h ∉ hashes l.
Proof.
  induction l as [|x l IH]; cbn.
  { split; [|done]. intros _. apply not_elem_of_nil. }
  rewrite elem_of_cons. case_decide as E.
  - split; [done|]. intros Hn. exfalso. apply Hn. by left.
  - rewrite fmap_None, IH. split; [|tauto]. intros Hn [->|?]; done.
Qed.

Lemma position_some h l i : position h l = Some i → ∃ x, l !! i = Some x ∧ operation_hash x = h.
Proof.
  revert i. induction l as [|x l IH]; intros i; cbn; [done|]. case_decide as E.
  - intros [= <-]. by exists x.
  - intros (j & Ej & ->)%fmap_Some. by apply IH.
Qed.

Lemma hashes_insert i x y l : l !! i = Some x → operation_hash x = operation_hash y →
  hashes (<[i := y]> l) = hashes l.
Proof.
  intros Hi E. unfold hashes. rewrite list_fmap_insert, <- E. apply list_insert_id.
  by rewrite list_lookup_fmap, Hi.
Qed.

Lemma merge_loop_hashes l n c a :
  NoDup (hashes l) →
  NoDup (hashes (merge_loop l n c a).1) ∧
  ∀ h, h ∈ hashes (merge_loop l n c a).1 ↔ h ∈ hashes l ∨ h ∈ hashes n.
Proof.
  revert l c a. induction n as [|x n IH]; intros l c a Hnd; cbn.
  - split; [done|]. intros h. rewrite elem_of_nil. tauto.
  - destruct (position (operation_hash x) l) as [i|] eqn:E.
    + destruct (position_some _ _ _ E) as (y & Hy & Ey).
      destruct (IH (<[i := x]> l) true a) as [IH1 IH2]; [by rewrite (hashes_insert i y)|].
      split; [done|]. intros h. rewrite IH2, (hashes_insert i y x l Hy Ey). cbn. rewrite elem_of_cons.
      split; [tauto|]. intros [?|[->|?]]; [tauto| |tauto]. left. rewrite <- Ey.
      apply list_elem_of_fmap_2. by eapply list_elem_of_lookup_2.
    + apply position_none in E. destruct (IH (l ++ [x]) c true) as [IH1 IH2].
      { unfold hashes. rewrite fmap_app. apply NoDup_app. split; [done|]. split; [|by apply NoDup_singleton].
        intros h Hh Hx. apply list_elem_of_singleton in Hx as ->. done. }
      split; [done|]. intros h. rewrite IH2. unfold hashes. rewrite fmap_app. cbn. set_solver.
Qed.

Lemma remove_from_hashes h l ops :
  NoDup (hashes l) →
  let '(l', ops') := remove_from h l ops in
  NoDup (hashes l') ∧ (∀ h', h' ∈ hashes l' ↔ h' ∈ hashes l ∧ h' ≠ h) ∧
  ops' = if decide (h ∈ hashes l) then delete h ops else ops.
Proof.
  intros Hnd. unfold remove_from. destruct (position h l) as [i|] eqn:E.
  - destruct (position_some _ _ _ E) as (x & Hx & Ex). unfold remove_at.
    pose proof (take_drop_middle l i x Hx) as El.
    assert (hashes l = hashes (take i l) ++ h :: hashes (drop (S i) l)) as Eh.
    { rewrite <- El at 1. unfold hashes. rewrite fmap_app. cbn. by rewrite Ex. }
    rewrite decide_True by (rewrite Eh; apply elem_of_app; right; left).
    rewrite Eh in Hnd |- *. unfold hashes at 1 2. rewrite fmap_app. fold (hashes (take i l)) (hashes (drop (S i) l)).
    apply NoDup_app in Hnd as (N1 & N2 & N3). apply NoDup_cons in N3 as [N3 N4].
    split; [apply NoDup_app; split; [done|]; split; [|done]; intros y Hy Hy'; apply (N2 y Hy); by right|].
    split; [|done]. intros h'. rewrite !elem_of_app, elem_of_cons. split.
    + intros [Hin|Hin]; (split; [tauto|]); intros ->; [apply (N2 _ Hin); left|done].
    + intros [[?|[?|?]] ?]; tauto.
  - apply position_none in E. rewrite decide_False by done. split; [done|]. split; [|done].
    intros h'. split; [|tauto]. intros Hin. split; [done|]. by intros ->.
Qed.

End Hashes.

(** ** The invariant of the state *)

Definition validated (r : ValidateOperationResult) (h : bytes) : Prop :=
  h ∈ hashes (applied r) ∨ h ∈ hashes (branch_delayed r) ∨ h ∈ hashes (branch_refused r) ∨
  h ∈ hashes (refused r).

Definition result_ok (r : ValidateOperationResult) : Prop :=
  NoDup (hashes (applied r)) ∧ NoDup (hashes (branch_delayed r)) ∧ NoDup (hashes (branch_refused r)) ∧
  NoDup (hashes (refused r)).

(** The data of pending operations are there, they are not validated yet, and no
    list of results has an operation twice. *)
Definition state_ok (s : MempoolState) : Prop :=
  pending s ⊆ dom (operations s) ∧ (∀ h, h ∈ pending s → ¬ validated (validation_result s) h) ∧
  result_ok (validation_result s).

(** The order in which a set is iterated lists each element once. *)
Definition iterates (iter : Iteration) : Prop := ∀ X, iter X ≡ₚ elements X.

Lemma result_any_spec h r : result_any h r = true ↔ validated r h.
Proof. unfold result_any, validated. rewrite !orb_true_iff, !any_hash_spec. tauto. Qed.

Lemma in_mempool_spec s h :
  is_already_in_mempool s h = true ↔ h ∈ pending s ∨ validated (validation_result s) h.
Proof.
  unfold is_already_in_mempool, is_already_validated.
  by rewrite orb_true_iff, bool_decide_eq_true, result_any_spec.
Qed.

Lemma merge_result_ok r n :
  result_ok r →
  result_ok (merge_result r n).1 ∧ ∀ h, validated (merge_result r n).1 h ↔ validated r h ∨ validated n h.
Proof.
  intros (N1 & N2 & N3 & N4). unfold merge_result, merge_items.
  destruct (merge_loop_hashes (applied r) (applied n) false false N1) as [A1 A2].
  destruct (merge_loop_hashes (refused r) (refused n) false false N4) as [B1 B2].
  destruct (merge_loop_hashes (branch_refused r) (branch_refused n) false false N3) as [C1 C2].
  destruct (merge_loop_hashes (branch_delayed r) (branch_delayed n) false false N2) as [D1 D2].
  destruct (merge_loop (applied r) _ _ _), (merge_loop (refused r) _ _ _),
    (merge_loop (branch_refused r) _ _ _), (merge_loop (branch_delayed r) _ _ _).
  cbn [fst] in *. split; [done|]. intros h. unfold validated.
  cbn [applied refused branch_refused branch_delayed]. rewrite A2, B2, C2, D2. tauto.
Qed.

Lemma empty_result_ok : result_ok empty_result.
Proof. repeat split; constructor. Qed.

Lemma not_validated_empty h : ¬ validated empty_result h.
Proof. unfold validated. cbn. rewrite elem_of_nil. tauto. Qed.

Lemma foldl_delete (m : gmap bytes Operation_t) l k :
  foldl (λ ops oph, delete oph ops) m l !! k = if decide (k ∈ l) then None else m !! k.
Proof.
  revert m. induction l as [|x l IH]; intros m; cbn; [by rewrite decide_False by apply not_elem_of_nil|].
  rewrite IH. destruct (decide (k ∈ l)) as [Hin|Hnin].
  - by rewrite decide_True by (by right).
  - destruct (decide (k = x)) as [->|Hne].
    + by rewrite lookup_delete_eq, decide_True by left.
    + rewrite lookup_delete_ne, decide_False; [done| |done]. by intros [?|?]%elem_of_cons.
Qed.

Lemma reinit_ok iter s p head :
  iterates iter → state_ok s →
  let '(s', unneeded) := reinit iter s p head in
  state_ok s' ∧ pending s' = pending s ∧ validation_result s' = empty_result ∧
  prevalidator s' = p ∧ predecessor s' = head ∧
  (∀ h, operations s' !! h = if decide (h ∈ pending s) then operations s !! h else None) ∧
  (∀ h, h ∈ unneeded ↔ h ∈ dom (operations s) ∧ h ∉ pending s).
Proof.
  intros Hit (Hp & Hv & Hr). unfold reinit. set (un := filter _ _).
  assert (∀ h, h ∈ un ↔ h ∈ dom (operations s) ∧ h ∉ pending s) as Hun.
  { intros h. unfold un. rewrite list_elem_of_filter, (Hit _), elem_of_elements. tauto. }
  assert (∀ h, foldl (λ ops oph, delete oph ops) (operations s) un !! h =
    if decide (h ∈ pending s) then operations s !! h else None) as Hops.
  { intros h. rewrite foldl_delete. destruct (decide (h ∈ pending s)) as [Hin|Hnin].
    - rewrite decide_False; [done|]. rewrite Hun. tauto.
    - case_decide as E; [done|]. rewrite Hun in E. apply not_elem_of_dom. tauto. }
  split; [|done]. split; [|split; [|apply empty_result_ok]]; cbn [pending operations validation_result].
  - intros h Hh. apply elem_of_dom. rewrite Hops, decide_True by done. by apply elem_of_dom, Hp.
  - intros h _. apply not_validated_empty.
Qed.

Lemma add_to_pending_ok s h op :
  state_ok s →
  let '(s', added) := add_to_pending s h op in
  state_ok s' ∧ prevalidator s' = prevalidator s ∧ predecessor s' = predecessor s ∧
  validation_result s' = validation_result s ∧ prevalidator_started s' = prevalidator_started s ∧
  added = negb (is_already_in_mempool s h) ∧
  pending s' = (if added then {[h]} ∪ pending s else pending s) ∧
  operations s' = (if added then <[h := op]> (operations s) else operations s).
Proof.
  intros (Hp & Hv & Hr). unfold add_to_pending, is_already_in_mempool.
  destruct (is_already_validated s h) eqn:E.
  { split; [done|]. by destruct (bool_decide (h ∈ pending s)). }
  case_decide as Hin; [by rewrite bool_decide_eq_true_2|].
  rewrite bool_decide_eq_false_2 by done. split; [|done].
  split; [|split; [|done]]; cbn [pending operations validation_result].
  - rewrite dom_insert. set_solver.
  - intros h' [->%elem_of_singleton|Hh']%elem_of_union; [|by apply Hv].
    rewrite <- result_any_spec. unfold is_already_validated in E. by rewrite E.
Qed.

Lemma delete_if (P Q : Prop) `{Decision P, Decision Q} (h : bytes) (m : gmap bytes Operation_t) :
  (if decide Q then delete h (if decide P then delete h m else m) else if decide P then delete h m else m)
  = if decide (P ∨ Q) then delete h m else m.
Proof.
  destruct (decide P), (decide Q), (decide (P ∨ Q)); try tauto. by rewrite delete_delete_eq.
Qed.

#[local] Instance validated_dec r h : Decision (validated r h).
Proof. unfold validated. apply _. Defined.

(** The four lists after a removal, and the operations. *)
Lemma remove_lists r h ops a bd br rf ops1 ops2 ops3 ops4 :
  result_ok r →
  remove_from h (applied r) ops = (a, ops1) → remove_from h (branch_delayed r) ops1 = (bd, ops2) →
  remove_from h (branch_refused r) ops2 = (br, ops3) → remove_from h (refused r) ops3 = (rf, ops4) →
  result_ok (mkValidateOperationResult a rf br bd) ∧
  (∀ h', validated (mkValidateOperationResult a rf br bd) h' ↔ validated r h' ∧ h' ≠ h) ∧
  ops4 = if decide (validated r h) then delete h ops else ops.
Proof.
  intros (N1 & N2 & N3 & N4) E1 E2 E3 E4.
  pose proof (remove_from_hashes h (applied r) ops N1) as R1. rewrite E1 in R1.
  pose proof (remove_from_hashes h (branch_delayed r) ops1 N2) as R2. rewrite E2 in R2.
  pose proof (remove_from_hashes h (branch_refused r) ops2 N3) as R3. rewrite E3 in R3.
  pose proof (remove_from_hashes h (refused r) ops3 N4) as R4. rewrite E4 in R4.
  destruct R1 as (A1 & A2 & ->), R2 as (B1 & B2 & ->), R3 as (C1 & C2 & ->), R4 as (D1 & D2 & ->).
  split; [done|]. split.
  - intros h'. unfold validated. cbn [applied refused branch_refused branch_delayed].
    rewrite A2, B2, C2, D2. tauto.
  - rewrite !delete_if. apply decide_ext. unfold validated. tauto.
Qed.

Lemma pending_part s h (D : Decision (validated (validation_result s) h)) :
  (if decide (h ∈ pending s)
   then (pending s ∖ {[h]}, delete h (if D then delete h (operations s) else operations s))
   else (pending s, if D then delete h (operations s) else operations s))
  = (pending s ∖ {[h]}, if is_already_in_mempool s h then delete h (operations s) else operations s).
Proof.
  pose proof (in_mempool_spec s h) as Hin.
  case_decide as Hp; destruct D, (is_already_in_mempool s h);
    rewrite ?delete_delete_eq, ?difference_disjoint_L by set_solver; try done; exfalso; naive_solver.
Qed.

Lemma remove_operation_ok s h :
  state_ok s →
  state_ok (remove_operation s h) ∧
  (∀ h', is_already_in_mempool (remove_operation s h) h'
         = is_already_in_mempool s h' && bool_decide (h' ≠ h)) ∧
  operations (remove_operation s h)
    = (if is_already_in_mempool s h then delete h (operations s) else operations s).
Proof.
  intros (Hp & Hv & Hr). unfold remove_operation.
  destruct (remove_from h (applied (validation_result s)) (operations s)) as [a ops1] eqn:E1.
  destruct (remove_from h (branch_delayed (validation_result s)) ops1) as [bd ops2] eqn:E2.
  destruct (remove_from h (branch_refused (validation_result s)) ops2) as [br ops3] eqn:E3.
  destruct (remove_from h (refused (validation_result s)) ops3) as [rf ops4] eqn:E4.
  destruct (remove_lists _ h (operations s) a bd br rf ops1 ops2 ops3 ops4 Hr E1 E2 E3 E4) as (Hr' & Hv' & ->).
  set (r' := mkValidateOperationResult a rf br bd) in *.
  rewrite (pending_part s h (decide (validated (validation_result s) h))).
  split; [|split; [|done]].
  - split; [|split; [|done]]; cbn [pending operations validation_result].
    + destruct (is_already_in_mempool s h); [rewrite dom_delete; set_solver|set_solver].
    + intros h' Hh'. rewrite Hv'. intros [Hval _]. apply (Hv h'); [set_solver|done].
  - intros h'. apply eq_true_iff_eq. rewrite andb_true_iff, bool_decide_eq_true, !in_mempool_spec.
    cbn [pending validation_result]. fold r'. rewrite Hv'. set_solver.
Qed.

Lemma validate_pending_ok `{RocksDb} api p ops order : ∀ r,
  result_ok r → result_ok (validate_pending api p ops order r).1.
Proof.
  induction order as [|h order IH]; intros r Hr; cbn [validate_pending]; [done|].
  destruct (ops !! h) as [op|]; [|by apply IH].
  destruct (validate_operation_call api p op) as [n|e]; [|by destruct (handle_protocol_service_error e); [|apply IH]].
  apply IH. by destruct (merge_result_ok r n Hr).
Qed.

Lemma default_state_ok : state_ok default_state.
Proof. split; [done|]. split; [intros h []%elem_of_empty|apply empty_result_ok]. Qed.
