(* ===== verification/MempoolThread.v ===== *)
(** * The mempool and its storage

    What the thread of [shell/src/mempool/mempool_prevalidator.rs], the rpc and
    the rest of the node do to the mempool and to its storage, as a step relation;
    the invariant that connects memory and storage; and what a restart recovers. *)

From stdpp Require Import gmap.
From S2P Require Import Prelude Hash Kv Blocks BlockStorage ChainMeta Prevalidator.

Definition mempool_key_ok (k : MempoolKey) : Prop := hash_ok OperationHash (key_hash k).

(** The hashes that have an entry, of either type. *)
Definition stored (T : gmap MempoolKey Operation_t) : gset bytes := set_map key_hash (dom T).

Lemma elem_of_stored T h : h ∈ stored T ↔ ∃ t op, T !! mkMempoolKey t h = Some op.
Proof.
  unfold stored. rewrite elem_of_map. split.
  - intros ([t k] & -> & [op Hop]%elem_of_dom). by exists t, op.
  - intros (t & op & Hop). exists (mkMempoolKey t h). split; [done|]. by eapply elem_of_dom_2.
Qed.

#[export] Instance mempool_key_codec_laws : CodecLaws MempoolKey mempool_key_ok.
Proof.
  constructor. intros [t h] Hk. unfold mempool_key_ok, hash_ok in Hk. cbn [key_hash] in Hk.
  exists (to_u8 t :: h). cbn [encode decode mempool_key_codec].
  unfold mempool_key_encode, mempool_key_decode. cbn [operation_type key_hash].
  rewrite decide_True by done. split; [done|].
  rewrite decide_True by (rewrite len_cons, Hk; lia).
  assert (num_from_slice (to_u8 t :: h) 0 1 = Some (to_u8 t)) as ->.
  { unfold num_from_slice, slice. rewrite decide_True by (rewrite len_cons; pose proof (len_nonneg h); lia).
    by destruct t. }
  assert (slice (to_u8 t :: h) 1 (1 + size OperationHash) = Some h) as ->.
  { unfold slice. rewrite decide_True by (rewrite len_cons, Hk; unfold size; lia).
    f_equal. cbn [drop Z.to_nat Pos.to_nat Pos.iter_op]. apply take_ge. unfold len in Hk. lia. }
  cbn [ok_or]. assert (from_u8 (to_u8 t) = Some t) as -> by (by destruct t). cbn [ok_or].
  unfold try_from_bytes. by rewrite decide_True by done.
Qed.

Section Thread.
Context `{RocksDbLaws cfs, CommitLogLib, BincodeLaws Operation_t operation_ok}.
Context `{Bincode BlockStorageColumn, Bincode BlockStorageColumnsLocation, Bincode MetadataValue}.
Context (Hopen : mempool_descriptor ∈ cfs).

#[local] Instance mempool_table : Table cfs MempoolStorage mempool_key_ok operation_ok.
Proof.
  split; [by exists mempool_descriptor|apply mempool_key_codec_laws|by apply bincode_codec_laws].
Qed.

Definition holds (db : DB) (T : gmap MempoolKey Operation_t) : Prop :=
  table_is MempoolStorage mempool_key_ok db T.

(** ** The storage *)

Lemma mempool_get_ok db T t h : holds db T → hash_ok OperationHash h →
  mempool_get t h db = Ok (T !! mkMempoolKey t h).
Proof. intros HT Hh. unfold mempool_get. by rewrite (table_is_get MempoolStorage db T (mkMempoolKey t h) HT Hh). Qed.

Lemma mempool_find_ok db T h : holds db T → hash_ok OperationHash h → h ∈ stored T →
  ∃ op, mempool_find h db = Ok (Some op).
Proof.
  intros HT Hh (t & op & Hop)%elem_of_stored. unfold mempool_find.
  rewrite !(mempool_get_ok db T _ h HT Hh).
  destruct (T !! mkMempoolKey Pending h) as [op'|] eqn:E; [by exists op'|].
  destruct t; [congruence|]. exists op. cbn. by rewrite Hop.
Qed.

Lemma stored_hash_ok db T h : holds db T → h ∈ stored T → hash_ok OperationHash h.
Proof. intros (_ & _ & Hk) (t & op & Hop)%elem_of_stored. exact (Hk _ _ Hop). Qed.

Lemma mempool_delete_ok db T h : holds db T → hash_ok OperationHash h →
  ∃ db', mempool_delete h db = (db', Ok ()) ∧
    holds db' (delete (mkMempoolKey KnownValid h) (delete (mkMempoolKey Pending h) T)).
Proof.
  intros HT Hh. unfold mempool_delete, err_into.
  destruct (table_is_delete MempoolStorage db T (mkMempoolKey Pending h) HT Hh) as (db1 & E1 & H1' & _).
  destruct (table_is_delete MempoolStorage db1 _ (mkMempoolKey KnownValid h) H1' Hh) as (db2 & E2 & H2' & _).
  rewrite E1. cbn [map_err]. rewrite E2. by exists db2.
Qed.

Lemma mempool_put_ok t op h db T : holds db T → operation_ok op →
  ∃ T', holds (mempool_put t op h db).1 T' ∧ stored T ⊆ stored T'.
Proof.
  intros HT Hop. unfold mempool_put, pure, err_into. destruct h as [h|e]; cbn [map_err]; [|by exists T].
  unfold try_from_bytes. case_decide as Hh; cbn [map_err]; [|by exists T].
  destruct (table_is_put MempoolStorage db T (mkMempoolKey t h) op HT Hh Hop) as (db' & E & HT' & _).
  rewrite E. exists (<[mkMempoolKey t h := op]> T). split; [done|].
  unfold stored. cbn. rewrite dom_insert, set_map_union_L. set_solver.
Qed.

Lemma stored_unique db T T' : holds db T → holds db T' → stored T = stored T'.
Proof.
  intros HT HT'. assert (T = T') as ->; [|done]. apply map_eq. intros k. apply option_eq. intros op.
  destruct HT as (_ & G & K), HT' as (_ & G' & K').
  assert (∀ k, mempool_key_ok k → T !! k = T' !! k) as E.
  { intros k' Hk'. pose proof (G k' Hk') as E. rewrite (G' k' Hk') in E. by injection E. }
  split; intros Hop; [rewrite <- E|rewrite E]; eauto.
Qed.

(** Without the entries of the hashes of [l]. *)
Definition without (l : list bytes) (T : gmap MempoolKey Operation_t) : gmap MempoolKey Operation_t :=
  filter (λ e, key_hash e.1 ∉ l) T.

Lemma without_cons h l T :
  without l (delete (mkMempoolKey KnownValid h) (delete (mkMempoolKey Pending h) T)) = without (h :: l) T.
Proof.
  apply map_eq. intros [t k]. unfold without. apply option_eq. intros op.
  rewrite !map_lookup_filter_Some, !lookup_delete_Some. cbn [fst key_hash]. rewrite not_elem_of_cons.
  split; [|naive_solver]. intros ((N1 & N2 & Hop) & Hl). split; [done|]. split; [|done].
  intros ->. by destruct t.
Qed.

Lemma delete_operations_ok l : ∀ db T, holds db T → Forall (hash_ok OperationHash) l →
  holds (delete_operations l db) (without l T).
Proof.
  induction l as [|h l IH]; intros db T HT Hl; cbn [delete_operations].
  - assert (without [] T = T) as ->; [|done]. apply map_filter_id. intros k op _. apply not_elem_of_nil.
  - apply Forall_cons in Hl as [Hh Hl]. destruct (mempool_delete_ok db T h HT Hh) as (db' & E & HT').
    rewrite E. cbn [fst]. rewrite <- without_cons. by apply IH.
Qed.

Lemma stored_without l T : stored (without l T) = stored T ∖ list_to_set l.
Proof.
  apply set_eq. intros h. rewrite elem_of_difference, elem_of_list_to_set, !elem_of_stored.
  unfold without. setoid_rewrite map_lookup_filter_Some. cbn [fst key_hash]. naive_solver.
Qed.

Lemma collect_entries_ok (l : list (MempoolKey * Operation_t)) :
  collect_entries (map (λ e, (Ok e.1, Ok e.2)) l) = Ok ((λ e, (key_hash e.1, e.2)) <$> l).
Proof. induction l as [|e l IH]; [done|]. cbn. by rewrite IH. Qed.

Lemma mempool_iter_ok db T : holds db T →
  ∃ l, mempool_iter db = Ok l ∧ ∀ h, h ∈ l.*1 ↔ h ∈ stored T.
Proof.
  intros HT. destruct (table_is_iterator MempoolStorage db T HT) as (l & E & _ & Hl).
  exists ((λ e, (key_hash e.1, e.2)) <$> l). unfold mempool_iter. rewrite E. cbn [map_err].
  split; [apply collect_entries_ok|]. intros h. rewrite <- list_fmap_compose, list_elem_of_fmap, elem_of_stored.
  split.
  - intros ([[t k] op] & -> & Hin). exists t, op. by apply Hl.
  - intros (t & op & Hop). exists (mkMempoolKey t h, op). split; [done|]. by apply Hl.
Qed.

(** ** The steps *)

Definition event_ok (ev : Event) : Prop :=
  match ev with ValidateOperation oph _ _ => hash_ok OperationHash oph | _ => True end.

(** A round of the loop; the start of the loop, at the start of the thread and
    after each error; an operation stored by the chain manager or the rpc; a removal
    by the rpc; a new process; writes of the node to other tables. *)
Inductive thread_step (chain_id : bytes) : Thread → Thread → Prop :=
| step_round iter api ev t t' out r :
    iterates iter → (∀ e, ev = Some e → event_ok e) →
    prevalidation_round iter api chain_id ev t = (t', out, r) → thread_step chain_id t t'
| step_hydrate iter api now logs t t' out r :
    iterates iter → hydrate_state iter api chain_id now logs t = (t', out, r) → thread_step chain_id t t'
| step_store ty op h t db' r :
    operation_ok op → mempool_put ty op h (thread_db t) = (db', r) →
    thread_step chain_id t (mkThread (mempool t) db' (validator_run t))
| step_remove h t :
    thread_step chain_id t (mkThread (remove_operation (mempool t) h) (thread_db t) (validator_run t))
| step_new_process t :
    thread_step chain_id t (mkThread default_state (thread_db t) true)
| step_other_tables t db' :
    (∀ kb, get_cf db' (name MempoolStorage) kb = get_cf (thread_db t) (name MempoolStorage) kb) →
    thread_step chain_id t (mkThread (mempool t) db' (validator_run t)).

Definition thread_ok (t : Thread) : Prop :=
  state_ok (mempool t) ∧
  ∃ T, holds (thread_db t) T ∧ dom (operations (mempool t)) ⊆ stored T.

(** ** The operations of the thread *)

Lemma handle_pending_ok iter api s :
  state_ok s →
  let '(s', out, r) := handle_pending_operations iter api s in
  state_ok s' ∧ operations s' = operations s.
Proof.
  intros (Hp & Hv & Hr). unfold handle_pending_operations.
  destruct (can_handle_pending s) as [[p head]|]; [|done].
  pose proof (validate_pending_ok api p (operations s) (iter (pending s)) (validation_result s) Hr) as Hr'.
  destruct (validate_pending _ _ _ _ _) as [r outcome].
  assert (state_ok (mkMempoolState (prevalidator s) (prevalidator_started s) (predecessor s) r (operations s) ∅)).
  { split; [|split; [|done]]; cbn [pending operations]; set_solver. }
  by destruct outcome as [[]|e].
Qed.

Lemma process_event_ok iter api chain_id ev t :
  iterates iter → event_ok ev → thread_ok t →
  thread_ok (process_event iter api chain_id ev t).1.1.
Proof.
  intros Hit He Ht. pose proof Ht as (Hs & T & HT & Hsub).
  destruct ev as [header|oph ty cb|]; cbn [process_event].
  - destruct (match predecessor _ with Some _ => _ | None => _ end); [|done].
    destruct (begin_construction _ _ _ _) as [[p head]|e]; [|done].
    pose proof (reinit_ok iter (mempool t) p head Hit Hs) as Hri.
    destruct (reinit _ _ _ _) as [s' un]. destruct Hri as (Hs' & Ep & _ & _ & _ & Hops & Hun).
    split; [done|]. exists (without un T). cbn [fst thread_db mempool]. split.
    + apply delete_operations_ok; [done|]. apply Forall_forall. intros h [Hh _]%Hun.
      eapply stored_hash_ok; eauto.
    + rewrite stored_without. intros h Hh. apply elem_of_dom in Hh as [op Hop]. rewrite Hops in Hop.
      case_decide as Hin; [|done]. apply elem_of_difference. rewrite elem_of_list_to_set, Hun.
      split; [|tauto]. apply Hsub. by eapply elem_of_dom_2.
  - rewrite (mempool_get_ok _ T ty oph HT He). destruct (T !! mkMempoolKey ty oph) as [op|] eqn:E; [|done].
    pose proof (add_to_pending_ok (mempool t) oph op Hs) as Ha.
    destruct (add_to_pending _ _ _) as [s' added]. destruct Ha as (Hs' & _ & _ & _ & _ & _ & _ & Hops).
    split; [done|]. exists T. split; [done|]. cbn [fst mempool]. rewrite Hops.
    destruct added; [|done]. rewrite dom_insert. intros h [->%elem_of_singleton|Hh]%elem_of_union; [|by apply Hsub].
    apply elem_of_stored. eauto.
  - by split; [|exists T].
Qed.

Lemma round_ok iter api chain_id ev t :
  iterates iter → (∀ e, ev = Some e → event_ok e) → thread_ok t →
  thread_ok (prevalidation_round iter api chain_id ev t).1.1.
Proof.
  intros Hit He Ht. unfold prevalidation_round.
  assert (thread_ok (match ev with
    | Some event => process_event iter api chain_id event t | None => (t, [], Ok ()) end).1.1) as Ht1.
  { destruct ev as [e|]; [|done]. by apply process_event_ok, Ht; [|apply He]. }
  destruct (match ev with Some _ => _ | None => _ end) as [[t1 out] [[]|e]]; [|done]. cbn [fst] in Ht1.
  destruct Ht1 as (Hs & T & HT & Hsub). pose proof (handle_pending_ok iter api (mempool t1) Hs) as Hh.
  destruct (handle_pending_operations _ _ _) as [[s out'] r]. destruct Hh as [Hs' Hops].
  split; [done|]. exists T. split; [done|]. cbn [fst mempool]. by rewrite Hops.
Qed.

(** ** The start of the loop *)

Lemma add_all_ok l : ∀ s,
  state_ok s → validation_result s = empty_result →
  let s' := add_all_to_pending s l in
  state_ok s' ∧ validation_result s' = empty_result ∧ prevalidator s' = prevalidator s ∧
  predecessor s' = predecessor s ∧ pending s' = pending s ∪ list_to_set l.*1 ∧
  dom (operations s') = dom (operations s) ∪ list_to_set l.*1.
Proof.
  induction l as [|[h op] l IH]; intros s Hs Hv; cbn [add_all_to_pending fmap list_fmap fst].
  { cbn. by rewrite !union_empty_r_L. }
  pose proof (add_to_pending_ok s h op Hs) as Ha.
  destruct (add_to_pending s h op) as [s1 added]. destruct Ha as (Hs1 & P1 & P2 & V1 & _ & Ea & Ep & Eo).
  destruct (IH s1) as (IH1 & IH2 & IH3 & IH4 & IH5 & IH6); [done|congruence|]. cbn [fst].
  split; [done|]. split; [done|]. split; [congruence|]. split; [congruence|]. rewrite IH5, IH6, Ep, Eo.
  destruct added; [rewrite dom_insert_L; cbn; set_solver|].
  symmetry in Ea. apply negb_false_iff, in_mempool_spec in Ea as [Ea|Ea].
  - pose proof (proj1 Hs h Ea). cbn. set_solver.
  - rewrite Hv in Ea. by apply not_validated_empty in Ea.
Qed.

(** The prevalidator for the head. *)
Definition construction (api : ProtocolController) (chain_id : bytes)
    (current_head : option (Head * BlockHeader_t))
    : result (option PrevalidatorWrapper * option bytes) PrevalidationError :=
  match current_head with
  | Some (head, header) => begin_construction api chain_id (block_hash head) header
  | None => Ok (None, None)
  end.

(** The operations that wait at the start are those of the storage. *)
Lemma hydrate_pending iter api chain_id now logs t T ch p head :
  iterates iter → state_ok (mempool t) → holds (thread_db t) T →
  dom (operations (mempool t)) ⊆ stored T →
  current_head_block chain_id (mkPersistent (thread_db t) logs) = Ok ch →
  construction api chain_id ch = Ok (p, head) →
  ∃ s, state_ok s ∧ pending s = stored T ∧ dom (operations s) = stored T ∧
    validation_result s = empty_result ∧ prevalidator s = p ∧ predecessor s = head ∧
    hydrate_state iter api chain_id now logs t =
      let '(s, out, r) := handle_pending_operations iter api s in
      (mkThread s (thread_db t) (validator_run t), out, r).
Proof.
  intros Hit Hs HT Hsub Ech Ec. unfold hydrate_state. rewrite Ech. cbn [map_err].
  fold (construction api chain_id ch). rewrite Ec.
  destruct (mempool_iter_ok _ T HT) as (l & El & Hl). rewrite El. cbn [map_err].
  pose proof (reinit_ok iter (mempool t) p head Hit Hs) as Hri.
  destruct (reinit _ _ _ _) as [s1 un]. destruct Hri as (Hs1 & Ep & Ev & Epv & Epr & Hops & _).
  destruct (add_all_ok l s1 Hs1 Ev) as (Hs2 & Ev2 & Epv2 & Epr2 & Ep2 & Eo2).
  set (s2 := add_all_to_pending s1 l) in *.
  assert (list_to_set l.*1 = stored T) as Eset.
  { apply set_eq. intros h. by rewrite elem_of_list_to_set, Hl. }
  assert (pending s1 ⊆ stored T ∧ dom (operations s1) ⊆ stored T) as [Hp1 Ho1].
  { rewrite Ep. split; [etransitivity; [apply Hs|done]|]. intros h [op Hop]%elem_of_dom. rewrite Hops in Hop.
    case_decide; [|done]. apply Hsub. by eapply elem_of_dom_2. }
  exists (match prevalidator_started s2 with Some _ => s2 | None => set_prevalidator_started s2 now end).
  rewrite Eset in *.
  destruct (prevalidator_started s2); cbn [set_prevalidator_started pending operations validation_result
    prevalidator predecessor]; (split; [done|]);
    (split; [rewrite Ep2; set_solver|]); (split; [rewrite Eo2; set_solver|]); repeat split; congruence.
Qed.

Lemma hydrate_ok iter api chain_id now logs t :
  iterates iter → thread_ok t → thread_ok (hydrate_state iter api chain_id now logs t).1.1.
Proof.
  intros Hit Ht. pose proof Ht as (Hs & T & HT & Hsub).
  destruct (current_head_block chain_id (mkPersistent (thread_db t) logs)) as [ch|e] eqn:Ech.
  2: { unfold hydrate_state. by rewrite Ech. }
  destruct (construction api chain_id ch) as [[p head]|e] eqn:Ec.
  2: { unfold hydrate_state. rewrite Ech. cbn [map_err]. fold (construction api chain_id ch). by rewrite Ec. }
  destruct (hydrate_pending iter api chain_id now logs t T ch p head) as (s & Hs' & _ & Eo & _ & _ & _ & ->);
    try done.
  pose proof (handle_pending_ok iter api s Hs') as Hh.
  destruct (handle_pending_operations _ _ _) as [[s' out] r]. destruct Hh as [Hs2 Eo2].
  split; [done|]. exists T. split; [done|]. cbn [fst mempool]. by rewrite Eo2, Eo.
Qed.

Lemma step_ok chain_id t t' : thread_step chain_id t t' → thread_ok t → thread_ok t'.
Proof.
  destruct 1 as [iter api ev t t' out r Hit He E|iter api now logs t t' out r Hit E
    |ty op h t db' r Hop E|h t|t|t db' Hf]; intros Ht.
  - pose proof (round_ok iter api chain_id ev t Hit He Ht) as Ht'. by rewrite E in Ht'.
  - pose proof (hydrate_ok iter api chain_id now logs t Hit Ht) as Ht'. by rewrite E in Ht'.
  - destruct Ht as (Hs & T & HT & Hsub). split; [done|]. cbn [thread_db mempool].
    destruct (mempool_put_ok ty op h (thread_db t) T HT Hop) as (T' & HT' & Hsub'). rewrite E in HT'.
    exists T'. split; [done|]. by etransitivity.
  - destruct Ht as (Hs & T & HT & Hsub).
    destruct (remove_operation_ok (mempool t) h Hs) as (Hs' & _ & Eo). split; [done|].
    exists T. split; [done|]. cbn [mempool]. rewrite Eo.
    destruct (is_already_in_mempool _ _); [|done]. rewrite dom_delete. set_solver.
  - destruct Ht as (_ & T & HT & _). split; [apply default_state_ok|]. exists T. split; [done|]. set_solver.
  - destruct Ht as (Hs & T & HT & Hsub). split; [done|]. exists T. split; [|done].
    by apply (table_is_frame MempoolStorage (thread_db t)).
Qed.

Lemma steps_ok chain_id t t' : rtc (thread_step chain_id) t t' → thread_ok t → thread_ok t'.
Proof. induction 1 as [|t1 t2 t3 Hstep _ IH]; [done|]. intros Ht. by apply IH, (step_ok chain_id t1). Qed.

(** ** Memory and storage *)

(** C27: Invariant of the mempool.  Whatever the protocol answers, in whatever order
    hash sets are iterated, and however rounds of the loop, restarts of it, new
    operations, removals by the rpc, new processes and writes to other tables follow
    each other, each operation that waits for validation is at hand (the branch of
    the code that must not happen does not) and has not been validated, no list of
    results names an operation twice, and each operation held in memory is still in
    the storage, from where it is recovered. *)
Theorem mempool_invariant chain_id db T t :
  holds db T → rtc (thread_step chain_id) (mkThread default_state db true) t →
  pending (mempool t) ⊆ dom (operations (mempool t)) ∧
  (∀ h, h ∈ pending (mempool t) → is_already_validated (mempool t) h = false) ∧
  result_ok (validation_result (mempool t)) ∧
  ∀ h, h ∈ dom (operations (mempool t)) → ∃ op, mempool_find h (thread_db t) = Ok (Some op).
Proof.
  intros HT Hr. assert (thread_ok t) as ((Hp & Hv & Hres) & T' & HT' & Hsub).
  { apply (steps_ok chain_id _ _ Hr). split; [apply default_state_ok|]. exists T. split; [done|]. cbn. set_solver. }
  split; [done|]. split; [|split; [done|]].
  - intros h Hh. apply not_true_is_false. unfold is_already_validated. rewrite result_any_spec. by apply Hv.
  - intros h Hh%Hsub. eapply mempool_find_ok; eauto using stored_hash_ok.
Qed.

End Thread.

Module MempoolWitnesses.
Import ConcreteDb.

Definition families : list ColumnFamilyDescriptor := [mempool_descriptor; chain_meta_descriptor].

#[local] Instance mempool_db : RocksDb := memory_db families.
#[local] Instance mempool_db_laws : RocksDbLaws families.
Proof. apply memory_db_laws. apply (bool_decide_unpack _). vm_compute. exact I. Qed.

Lemma mempool_opened : mempool_descriptor ∈ families.
Proof. left. Qed.

(** A log is the list of its messages. *)
#[local] Instance message_log : CommitLogLib := {|
  CommitLog := list bytes;
  next_offset l := len l;
  append_msg l b := (l ++ [b], Ok (len l));
  log_read l o _ := Ok (drop (Z.to_nat o) l)
|}.

#[local] Instance operation_bincode : Bincode Operation_t := {|
  bincode_serialize o := Some (len (branch o) :: branch o ++ operation_data o);
  bincode_deserialize b :=
    match b with
    | n :: b => Some (mkOperation (take (Z.to_nat n) b) (drop (Z.to_nat n) b))
    | [] => None
    end
|}.
#[local] Instance operation_bincode_laws : BincodeLaws Operation_t (λ _, True).
Proof.
  constructor. intros [b d] _. exists (len b :: b ++ d). split; [done|]. cbn.
  by rewrite len_nat, take_app_length, drop_app_length.
Qed.

(** No block has been stored. *)
#[local] Instance no_column : Bincode BlockStorageColumn :=
  {| bincode_serialize _ := None; bincode_deserialize _ := None |}.
#[local] Instance no_location : Bincode BlockStorageColumnsLocation :=
  {| bincode_serialize _ := None; bincode_deserialize _ := None |}.
#[local] Instance no_metadata : Bincode MetadataValue :=
  {| bincode_serialize _ := None; bincode_deserialize _ := None |}.

Definition op : Operation_t := mkOperation (replicate 32 1) [5; 6].
Definition oph : bytes := replicate 32 2.
Definition api : ProtocolController :=
  mkProtocolController (λ _ _, Ok ()) (λ _ _ _, Err (IpcError "timeout"))
    (λ _ _, Err (IpcError "timeout")) (λ _ _, Err (IpcError "timeout")).
Definition chain : bytes := [1; 2; 3; 4].

Lemma elements_iterates : iterates elements.
Proof. intros X. reflexivity. Qed.

Lemma empty_holds : holds ∅ ∅.
Proof.
  pose proof (mempool_table (operation_ok := λ _, True) mempool_opened).
  apply (table_is_empty MempoolStorage). reflexivity.
Qed.

(** An operation is stored, then announced to the mempool. *)
Definition stored_once : Thread := mkThread default_state (mempool_put Pending op (Ok oph) ∅).1 true.
Definition waiting : Thread :=
  (prevalidation_round elements api chain (Some (ValidateOperation oph Pending false)) stored_once).1.1.

Lemma waiting_reached :
  rtc (thread_step (operation_ok := λ _, True) chain) (mkThread default_state ∅ true) waiting.
Proof.
  eapply rtc_l.
  { exact (step_store chain Pending op (Ok oph) (mkThread default_state ∅ true)
      (mempool_put Pending op (Ok oph) ∅).1 (Ok ()) I eq_refl). }
  apply rtc_once. eapply (step_round chain elements api (Some (ValidateOperation oph Pending false))).
  - apply elements_iterates.
  - by intros e [= <-].
  - unfold waiting, stored_once. cbn [mempool validator_run].
    rewrite (surjective_pairing (prevalidation_round _ _ _ _ _)). apply f_equal2; [|reflexivity].
    apply surjective_pairing.
Qed.

Lemma mempool_invariant_witness :
  oph ∈ dom (operations (mempool waiting)) ∧ ∃ op, mempool_find oph (thread_db waiting) = Ok (Some op).
Proof.
  assert (oph ∈ dom (operations (mempool waiting))) as Hin by (apply elem_of_dom; by eexists).
  split; [exact Hin|].
  exact (proj2 (proj2 (proj2 (mempool_invariant mempool_opened chain ∅ ∅ waiting empty_holds waiting_reached)))
    oph Hin).
Defined.

(** The rpc removes the operation from the memory. *)
Definition removed : Thread := mkThread (remove_operation (mempool waiting) oph) (thread_db waiting) true.

Lemma removed_holds : holds (thread_db removed) {[mkMempoolKey Pending oph := op]}.
Proof.
  pose proof (mempool_table (operation_ok := λ _, True) mempool_opened).
  destruct (table_is_put MempoolStorage ∅ ∅ (mkMempoolKey Pending oph) op empty_holds eq_refl I)
    as (db' & E & HT & _).
  assert (thread_db removed = (kv_put MempoolStorage (mkMempoolKey Pending oph) op ∅).1) as Edb by reflexivity.
  rewrite E in Edb. by rewrite Edb.
Qed.

Lemma removed_ok : thread_ok removed.
Proof.
  split; [|exists {[mkMempoolKey Pending oph := op]}; split; [apply removed_holds|]].
  - apply remove_operation_ok.
    apply (steps_ok (operation_ok := λ _, True) mempool_opened chain (mkThread default_state ∅ true) waiting).
    + exact waiting_reached.
    + split; [apply default_state_ok|]. exists ∅. split; [apply empty_holds|]. cbn. set_solver.
  - assert (operations (mempool removed) = ∅) as -> by reflexivity. set_solver.
Qed.


End MempoolWitnesses.
