(* ===== verification/Validation.v ===== *)
(** * Validation of operations and blocks, and the current head

    The rest of [shell/src/validation/mod.rs] (operations that are accepted from rpc
    and peers, blocks that can be applied, prevalidation, multipass validation) and
    [shell/src/state/head_state.rs]. *)

From stdpp Require Import gmap.
From S2P Require Import Prelude Hash Kv Blocks BlockMeta BlockStorage ChainMeta Fitness Prevalidator.

(** ** Operations *)

Definition can_accept_operation_from_rpc (oph : bytes) (r : ValidateOperationResult) : bool :=
  any_hash oph (applied r).

Definition can_accept_operation_from_p2p (oph : bytes) (r : ValidateOperationResult) : bool :=
  if any_hash oph (refused r) then false
  else if any_hash oph (applied r) then true
  else if any_hash oph (branch_refused r) then true
  else if any_hash oph (branch_delayed r) then true
  else false.

(** ** Blocks *)

Inductive CanApplyStatus :=
| Ready | AlreadyApplied | MissingPredecessor | PredecessorNotApplied | MissingOperations.
#[export] Instance CanApplyStatus_eq_dec : EqDecision CanApplyStatus.
Proof. solve_decision. Defined.

Definition can_apply_block {E} (block : bytes) (block_metadata : BlockMeta.Meta)
    (operations_complete predecessor_applied : bytes → result bool E) : result CanApplyStatus E :=
  if is_applied block_metadata then Ok AlreadyApplied
  else
    match BlockMeta.predecessor block_metadata with
    | None => Ok MissingPredecessor
    | Some predecessor =>
        let? complete := operations_complete block in
        if negb complete then Ok MissingOperations
        else
          let? applied := predecessor_applied predecessor in
          if applied then Ok Ready else Ok PredecessorNotApplied
    end.

Lemma can_apply_block_ready {E} block m (oc pa : bytes → result bool E) :
  can_apply_block block m oc pa = Ok Ready ↔
    is_applied m = false ∧ oc block = Ok true ∧
    ∃ p, BlockMeta.predecessor m = Some p ∧ pa p = Ok true.
Proof.
  unfold can_apply_block. split.
  - destruct (is_applied m); [done|]. destruct (BlockMeta.predecessor m) as [p|]; [|done].
    destruct (oc block) as [[]|] eqn:Eo; [|done..]. cbn [negb]. destruct (pa p) as [[]|] eqn:Ep; [|done..].
    intros _. split; [done|]. split; [done|]. by exists p.
  - intros (-> & Eo & p & -> & Ep). by rewrite Eo, Ep.
Qed.

(** ** Prevalidation *)

Section Prevalidate.
Context `{RocksDb, CommitLogLib}.
Context `{Bincode BlockStorageColumn, Bincode BlockStorageColumnsLocation}.

Inductive PrevalidateOperationError :=
| UnknownBranch (branch : bytes)
| BranchNotAppliedYet (branch : bytes)
| PrevalidatorNotInitialized (reason : string)
| PrevalidateStorageError (error : StorageError)
| ValidationError (operation_hash : bytes) (reason : ProtocolServiceError)
| AlreadyInMempool (operation_hash : bytes)
| PrevalidateUnexpectedError (operation_hash : bytes) (reason : string).

Definition prevalidate_operation (chain_id oph : bytes) (operation : Operation_t)
    (mempool_state : MempoolState) (api : ProtocolController) (s : Persistent)
    : result ValidateOperationResult PrevalidateOperationError :=
  let? metadata := map_err PrevalidateStorageError (BlockMeta.get (branch operation) (BlockStorage.db s)) in
  let? is_applied :=
    match metadata with
    | Some metadata => Ok (is_applied metadata)
    | None => Err (UnknownBranch (branch operation))
    end in
  if negb is_applied then Err (BranchNotAppliedYet (branch operation))
  else if is_already_in_mempool mempool_state oph then Err (AlreadyInMempool oph)
  else
    let? mempool_head :=
      match Prevalidator.predecessor mempool_state with
      | Some head =>
          let? block := map_err PrevalidateStorageError (BlockStorage.get head s) in
          ok_or block (UnknownBranch head)
      | None => Err (PrevalidatorNotInitialized "no head in mempool")
      end in
    let? prevalidator :=
      map_err (ValidationError oph) (begin_construction_call api chain_id (header mempool_head)) in
    map_err (ValidationError oph) (validate_operation_call api prevalidator operation).

(** [None]: every check passed. *)
Definition check_multipass_validation (chain_id protocol_hash : bytes)
    (validated_block_header : BlockHeader_t) (predecessor : option BlockHeaderWithHash)
    (api : ProtocolController) : option ProtocolServiceError :=
  match
    assert_encoding_for_protocol_data_call api protocol_hash (protocol_data validated_block_header)
  with
  | Err e => Some e
  | Ok _ =>
      match predecessor with
      | Some predecessor =>
          match begin_application_call api chain_id (header predecessor) validated_block_header with
          | Err e => Some e
          | Ok _ => None
          end
      | None => None
      end
  end.

End Prevalidate.

(** ** The current head *)

Section HeadState.
Context `{RocksDb, Bincode MetadataValue}.

Inductive StateError :=
| StateStorageError (error : StorageError)
| LockError (reason : string)
| ProcessingError (reason : string).

Inductive HeadResult := BranchSwitch | HeadIncrement | GenesisInitialized.

(** [current_head_state] with the database; the other fields are arguments. *)
Record Heads := mkHeads { current_head_state : option Head; heads_db : DB }.

(** Operations of the storage, on the state of the shell. *)
Definition on_db {A} (op : io DB A StorageError) : io Heads A StateError := λ s,
  let '(db', r) := op (heads_db s) in
  (mkHeads (current_head_state s) db', map_err StateStorageError r).

Definition set_current_head_state (head : Head) : io Heads () StateError := λ s,
  (mkHeads (Some head) (heads_db s), Ok ()).

Definition current_context_fitness (mempool : MempoolState) (current_head : Head) : Fitness :=
  match prevalidator mempool with
  | Some p => match context_fitness p with Some fitness => fitness | None => head_fitness current_head end
  | None => head_fitness current_head
  end.

Definition head_result (chain_genesis_block_hash : bytes) (previous_head : option Head)
    (potential_new_head : BlockHeaderWithHash) : HeadResult :=
  match previous_head with
  | Some previous_head =>
      if decide (block_hash previous_head = header_predecessor (header potential_new_head))
      then HeadIncrement else BranchSwitch
  | None =>
      if decide (chain_genesis_block_hash = hash potential_new_head)
      then GenesisInitialized else HeadIncrement
  end.

Definition head_of (b : BlockHeaderWithHash) : Head :=
  mkHead (hash b) (header_level (header b)) (header_fitness (header b)).

Definition try_update_new_current_head (chain_id chain_genesis_block_hash : bytes)
    (mempool : MempoolState) (potential_new_head : BlockHeaderWithHash)
    : io Heads (option (Head * HeadResult)) StateError := λ s,
  let ignored :=
    match current_head_state s with
    | Some current_head =>
        negb (can_update_current_head potential_new_head current_head
                (current_context_fitness mempool current_head))
    | None => false
    end in
  if ignored then (s, Ok None)
  else
    let result := head_result chain_genesis_block_hash (current_head_state s) potential_new_head in
    let head := head_of potential_new_head in
    (do? _ := on_db (set_current_head chain_id head) in
     do? _ := set_current_head_state head in
     ret (Some (head, result))) s.

Definition load_current_head_state (chain_id : bytes) : io Heads (option Head) StateError :=
  do? head := on_db (reads_state (get_current_head chain_id)) in
  match head with
  | Some head =>
      do? _ := set_current_head_state head in
      ret (Some head)
  | None => ret None
  end.

End HeadState.

(** ** The head in memory and in the database *)

Section HeadProofs.
Context `{RocksDbLaws cfs} `{BincodeLaws MetadataValue value_ok} (Hopen : chain_meta_descriptor ∈ cfs).
Context (chain_id chain_genesis_block_hash : bytes) (Hchain : hash_ok ChainId chain_id).

Definition block_ok (b : BlockHeaderWithHash) : Prop :=
  value_ok (MetaHead (head_of b)) ∧ fitness_ok (header_fitness (header b)).

(** The context of the mempool has not been built for a weaker block than the head. *)
Definition context_not_stale (mempool : MempoolState) (s : Heads) : Prop :=
  ∀ head, current_head_state s = Some head →
    let ctx := current_context_fitness mempool head in
    fitness_ok ctx ∧ (ctx = head_fitness head ∨ fitness_lt (head_fitness head) ctx).

Inductive head_step : Heads → Heads → Prop :=
| step_update mempool b s s' r :
    block_ok b → context_not_stale mempool s →
    try_update_new_current_head chain_id chain_genesis_block_hash mempool b s = (s', r) → head_step s s'
| step_load s s' r : load_current_head_state chain_id s = (s', r) → head_step s s'.

(** The facts of the chain, with the head that is in memory. *)
Definition agree (s : Heads) : Prop :=
  ∃ f, facts chain_id (heads_db s) f ∧ ChainMeta.current_head f = current_head_state s ∧
    ∀ h, current_head_state s = Some h → fitness_ok (head_fitness h).

Lemma set_head_ok s f b :
  facts chain_id (heads_db s) f → block_ok b →
  ∃ db', on_db (set_current_head chain_id (head_of b)) s = (mkHeads (current_head_state s) db', Ok ()) ∧
    facts chain_id db' (mkChainFacts (Some (head_of b)) (caboose f) (genesis f) (test_chain f)).
Proof.
  intros Hf [Hv _].
  destruct (set_current_head_updates Hopen chain_id (head_of b) (heads_db s) f) as (db' & E & Hf' & _); [done..|].
  exists db'. unfold on_db. by rewrite E.
Qed.

(** An update either is ignored or makes the block the head in both places. *)
Lemma try_update_cases mempool b s :
  agree s → block_ok b →
  (∃ head, current_head_state s = Some head ∧
     can_update_current_head b head (current_context_fitness mempool head) = false ∧
     try_update_new_current_head chain_id chain_genesis_block_hash mempool b s = (s, Ok None)) ∨
  ((∀ head, current_head_state s = Some head →
     can_update_current_head b head (current_context_fitness mempool head) = true) ∧
   ∃ s' r, try_update_new_current_head chain_id chain_genesis_block_hash mempool b s
             = (s', Ok (Some (head_of b, r))) ∧
     current_head_state s' = Some (head_of b) ∧ agree s').
Proof.
  intros (f & Hf & Eh & Hfit) Hb. unfold try_update_new_current_head.
  destruct (set_head_ok s f b Hf Hb) as (db' & E & Hf').
  assert (agree (mkHeads (Some (head_of b)) db')) as Hag.
  { eexists. split; [exact Hf'|]. split; [done|]. intros h [= <-]. apply Hb. }
  destruct (current_head_state s) as [head|] eqn:Es.
  - destruct (can_update_current_head b head _) eqn:Ec; cbn [negb]; [|by left; exists head].
    right. split; [by intros ? [= <-]|]. rewrite E. cbn [set_current_head_state ret].
    by eexists _, _.
  - right. split; [done|]. rewrite E. by eexists _, _.
Qed.

Lemma load_ok s : agree s → ∃ r, load_current_head_state chain_id s = (s, Ok r).
Proof.
  intros (f & Hf & Eh & _). unfold load_current_head_state, on_db, reads_state.
  destruct Hf as (E & _). rewrite E, Eh. cbn [map_err]. destruct s as [[h|] db]; by eexists.
Qed.

(** One step keeps the head or replaces it by a fitter one. *)
Lemma head_step_grows s s' :
  head_step s s' → agree s →
  agree s' ∧ ∀ h, current_head_state s = Some h →
    ∃ h', current_head_state s' = Some h' ∧ (h' = h ∨ fitness_lt (head_fitness h) (head_fitness h')).
Proof.
  destruct 1 as [mempool b s s' r Hb Hctx E|s s' r E]; intros Hs.
  - destruct (try_update_cases mempool b s Hs Hb) as [(head & Es & _ & E')|[Hcan (s1 & r1 & E' & Es1 & Hs1)]];
      rewrite E in E'; injection E' as -> ->.
    + split; [done|]. intros h ->. eauto.
    + split; [done|]. intros h Eh. exists (head_of b). split; [done|]. right.
      specialize (Hcan h Eh). destruct (Hctx h Eh) as [Hcok Hc]. destruct Hs as (f & _ & _ & Hfit).
      apply can_update_spec in Hcan; [|apply Hb|by apply Hfit|done]. cbn [head_of head_fitness].
      destruct Hcan as [[_ Hlt]|[Hne Hge]]; [done|]. destruct Hc as [Hc|Hc]; [done|].
      destruct Hge as [Hge|<-]; [by eapply fitness_lt_trans|done].
  - destruct (load_ok s Hs) as [r' E']. rewrite E in E'. injection E' as -> ->. split; [done|]. eauto.
Qed.


(** While the mempool still works on a predecessor of the head, a block that is
    weaker than the head, but not than this predecessor, replaces the head. *)
Theorem stale_context_lowers_head (s : Heads) (h : Head) (p : PrevalidatorWrapper) (m : MempoolState) b ctx :
  agree s → block_ok b → current_head_state s = Some h →
  prevalidator m = Some p → context_fitness p = Some ctx → fitness_ok ctx →
  fitness_lt ctx (header_fitness (header b)) → fitness_lt (header_fitness (header b)) (head_fitness h) →
  ∃ s' r, try_update_new_current_head chain_id chain_genesis_block_hash m b s = (s', Ok (Some (head_of b, r))) ∧
    current_head_state s' = Some (head_of b).
Proof.
  intros Hs Hb Eh Ep Ec Hc Hlt1 Hlt2.
  destruct (try_update_cases m b s Hs Hb) as [(head & Es & Hno & _)|[_ (s' & r & E & Es' & _)]]; [|eauto].
  exfalso. rewrite Eh in Es. injection Es as <-. apply not_true_iff_false in Hno. apply Hno.
  unfold current_context_fitness. rewrite Ep, Ec. destruct Hs as (f & _ & _ & Hfit).
  apply can_update_spec; [apply Hb|by apply Hfit|done|]. right. split; [|by left]. intros ->.
  apply (fitness_lt_irrefl (head_fitness h)). by eapply fitness_lt_trans.
Qed.
End HeadProofs.

Module HeadWitnesses.
Import ConcreteDb.

Definition families : list ColumnFamilyDescriptor := [chain_meta_descriptor].

#[local] Instance head_db : RocksDb := memory_db families.
#[local] Instance head_db_laws : RocksDbLaws families.
Proof. apply memory_db_laws. apply NoDup_singleton. Qed.

Lemma head_opened : chain_meta_descriptor ∈ families.
Proof. left. Qed.

(** Heads whose fitness is one byte. *)
#[local] Instance head_bincode : Bincode MetadataValue := {|
  bincode_serialize v :=
    match v with
    | MetaHead h => match head_fitness h with [[x]] => Some (0 :: head_level h :: x :: block_hash h) | _ => None end
    | MetaTestChainId c => Some (1 :: c)
    end;
  bincode_deserialize b :=
    match b with
    | 0 :: l :: x :: h => Some (MetaHead (mkHead h l [[x]]))
    | 1 :: c => Some (MetaTestChainId c)
    | _ => None
    end
|}.

Definition short (v : MetadataValue) : Prop :=
  match v with MetaHead h => ∃ x, head_fitness h = [[x]] | _ => True end.

#[local] Instance head_bincode_laws : BincodeLaws MetadataValue short.
Proof. constructor. intros [[h l f]|c] Hv; [destruct Hv as [x Hx]; cbn in Hx; subst|]; by eexists. Qed.

Definition chain : bytes := [1; 2; 3; 4].
Definition block (fitness : Z) : BlockHeaderWithHash :=
  mkBlockHeaderWithHash (replicate 32 fitness)
    (mkBlockHeader fitness 0 (replicate 32 0) 0 0 [] [[fitness]] [] []).

Lemma block_short x : is_byte x → block_ok (value_ok := short) (block x).
Proof. intros Hx. split; [by exists x|]. repeat constructor; apply Hx. Qed.

Lemma no_head : agree chain (mkHeads None ∅).
Proof. exists (mkChainFacts None None None None). split; [|done]. repeat split. Qed.

(** A mempool whose context has the fitness [x]. *)
Definition context (x : Z) : MempoolState :=
  mkMempoolState (Some (mkPrevalidatorWrapper chain [] (Some [[x]]))) None None empty_result ∅ ∅.


Lemma stale_context_lowers_head_witness :
  ∃ s h s' r, current_head_state s = Some h ∧ fitness_lt [[4]] (head_fitness h) ∧
    try_update_new_current_head chain [] (context 3) (block 4) s = (s', Ok (Some (head_of (block 4), r))).
Proof.
  destruct (try_update_cases head_opened chain [] eq_refl default_state (block 5) (mkHeads None ∅) no_head)
    as [(head & Es & _)|[_ (s1 & r1 & _ & Es1 & Hs1)]]; [by apply block_short|done|].
  assert (fitness_lt [[3]] [[4]] ∧ fitness_lt [[4]] [[5]]) as [L1 L2].
  { split; right; (split; [done|]); eexists [], _, _, [], []; (split; [done|]); (split; [done|]); right; done. }
  destruct (stale_context_lowers_head head_opened chain [] eq_refl s1 (head_of (block 5))
    (mkPrevalidatorWrapper chain [] (Some [[3]])) (context 3) (block 4) [[3]]) as (s' & r & E & _).
  - exact Hs1.
  - by apply block_short.
  - exact Es1.
  - reflexivity.
  - reflexivity.
  - repeat constructor; done.
  - exact L1.
  - exact L2.
  - exists s1, (head_of (block 5)), s', r. split; [exact Es1|]. split; [exact L2|exact E].
Defined.

End HeadWitnesses.
