(* ===== verification/ShellState.v ===== *)
(** * Batches, peers and synchronisation

    [shell/src/state/mod.rs] (batches of blocks to apply, operations to download),
    [shell/src/state/peer_state.rs] (what was asked from a peer) and
    [shell/src/state/synchronization_state.rs] (when the node is bootstrapped). *)

From stdpp Require Import gmap.
From S2P Require Import Prelude Kv Blocks Messages Prevalidator.

(** ** Batches of blocks *)

Record ApplyBlockBatch := mkBatch { block_to_apply : bytes; batch_successors : list bytes }.

Definition one (block_hash : bytes) : ApplyBlockBatch := mkBatch block_hash [].
Definition start_batch (block_hash : bytes) : ApplyBlockBatch := mkBatch block_hash [].
Definition batch (starting_block : bytes) (successors : list bytes) : ApplyBlockBatch :=
  mkBatch starting_block successors.

Definition add_successor (self : ApplyBlockBatch) (block_hash : bytes) : ApplyBlockBatch :=
  if decide (block_hash ∈ batch_successors self) then self
  else mkBatch (block_to_apply self) (batch_successors self ++ [block_hash]).

Definition successors_size (self : ApplyBlockBatch) : Z := len (batch_successors self).
Definition batch_total_size (self : ApplyBlockBatch) : Z := successors_size self + 1.

Definition take_all_blocks_to_apply (self : ApplyBlockBatch) : list bytes :=
  block_to_apply self :: batch_successors self.

Definition shift (self : ApplyBlockBatch) : option ApplyBlockBatch :=
  match batch_successors self with
  | [] => None
  | head :: successors => Some (batch head successors)
  end.

(** ** Operations to download *)

(** [retries] is a [u8]. *)
Record MissingOperations_t := mkMissingOperations {
  missing_block_hash : bytes;
  missing_validation_passes : gset Z;
  history_order_priority : Z;
  retries : Z
}.

Definition retry (self : MissingOperations_t) : MissingOperations_t * bool :=
  if decide (retries self = 0) then (self, false)
  else (mkMissingOperations (missing_block_hash self) (missing_validation_passes self)
          (history_order_priority self) (retries self - 1), true).

(** ** Queues of a peer *)

(** The numbers are [u16]. *)
Record DataQueuesLimits := mkLimits {
  max_queued_block_headers_count : Z;
  max_queued_block_operations_count : Z
}.

(** An [Instant] is a number of milliseconds. *)
Record DataQueues := mkQueues {
  limits : DataQueuesLimits;
  queued_block_headers : gmap bytes Z;
  queued_block_operations : gmap bytes (gset Z * Z)
}.

Definition queues_new (limits : DataQueuesLimits) : DataQueues := mkQueues limits ∅ ∅.

(** What is left of a limit. *)
Definition available (queued limit : Z) : Z := if decide (queued < limit) then limit - queued else 0.

Definition get_already_queued_block_headers_and_max_capacity (self : DataQueues) : gset bytes * Z :=
  let already_queued := dom (queued_block_headers self) in
  (already_queued, available (Z.of_nat (size already_queued)) (max_queued_block_headers_count (limits self))).

Definition get_already_queued_block_operations_and_max_capacity (self : DataQueues) : gset bytes * Z :=
  let already_queued := dom (queued_block_operations self) in
  (already_queued, available (Z.of_nat (size already_queued)) (max_queued_block_operations_count (limits self))).

(** [find] over the entries in the order [iter]. *)
Definition find_any_block_header_response_pending (iter : Iteration) (now timeout : Z) (self : DataQueues)
    : option (bytes * Z) :=
  head (omap (λ b, match queued_block_headers self !! b with
                   | Some requested_time =>
                       if decide (now - requested_time > timeout) then Some (b, now - requested_time) else None
                   | None => None
                   end) (iter (dom (queued_block_headers self)))).

Definition find_any_block_operations_response_pending (iter : Iteration) (now timeout : Z) (self : DataQueues)
    : option (bytes * Z) :=
  head (omap (λ b, match queued_block_operations self !! b with
                   | Some (_, requested_time) =>
                       if decide (now - requested_time > timeout) then Some (b, now - requested_time) else None
                   | None => None
                   end) (iter (dom (queued_block_operations self)))).

(** ** Peers *)

Record MessageStats := mkMessageStats {
  unexpected_response_block : Z;
  unexpected_response_operations : Z
}.

Record PeerState := mkPeerState {
  mempool_enabled : bool;
  peer_is_bootstrapped : bool;
  queues : DataQueues;
  missing_operations_for_blocks : gmap bytes (gset Z);
  current_head_level : option Z;
  current_head_update_last : Z;
  current_head_request_last : Z;
  current_head_response_last : Z;
  mempool_operations_request_last : Z;
  mempool_operations_response_last : Z;
  missing_mempool_operations : list (bytes * MempoolOperationType);
  queued_mempool_operations : gmap bytes MempoolOperationType;
  message_stats : MessageStats
}.

Definition peer_new (now : Z) (disable_mempool : bool) (limits : DataQueuesLimits) : PeerState :=
  mkPeerState (negb disable_mempool) false (queues_new limits) ∅ None now now now now now [] ∅
    (mkMessageStats 0 0).

Definition MEMPOOL_OPERATIONS_BATCH_SIZE : Z := MEMPOOL_MAX_OPERATIONS.

Definition available_mempool_operations_queue_capacity (self : PeerState) : Z :=
  available (Z.of_nat (size (queued_mempool_operations self))) MEMPOOL_OPERATIONS_BATCH_SIZE.

Definition set_head_level (self : PeerState) (level now : Z) : PeerState :=
  mkPeerState (mempool_enabled self) (peer_is_bootstrapped self) (queues self)
    (missing_operations_for_blocks self) (Some level) now (current_head_request_last self)
    (current_head_response_last self) (mempool_operations_request_last self)
    (mempool_operations_response_last self) (missing_mempool_operations self)
    (queued_mempool_operations self) (message_stats self).

Definition set_mempool_queues (self : PeerState) (missing : list (bytes * MempoolOperationType))
    (queued : gmap bytes MempoolOperationType) (request_last : Z) : PeerState :=
  mkPeerState (mempool_enabled self) (peer_is_bootstrapped self) (queues self)
    (missing_operations_for_blocks self) (current_head_level self) (current_head_update_last self)
    (current_head_request_last self) (current_head_response_last self) request_last
    (mempool_operations_response_last self) missing queued (message_stats self).

Definition update_current_head_level (self : PeerState) (new_level now : Z) : PeerState * bool :=
  match current_head_level self with
  | Some level => if decide (level ≤ new_level) then (set_head_level self new_level now, true) else (self, false)
  | None => (set_head_level self new_level now, true)
  end.

Definition update_current_head (self : PeerState) (block_header : BlockHeaderWithHash) (now : Z)
    : PeerState * bool :=
  let level := header_level (header block_header) in
  match current_head_level self with
  | Some current => if decide (level >= current) then (set_head_level self level now, true) else (self, false)
  | None => (set_head_level self level now, true)
  end.

Definition clear (self : PeerState) : PeerState :=
  mkPeerState (mempool_enabled self) (peer_is_bootstrapped self) (queues self) ∅ (current_head_level self)
    (current_head_update_last self) (current_head_request_last self) (current_head_response_last self)
    (mempool_operations_request_last self) (mempool_operations_response_last self) [] ∅ (message_stats self).

Definition add_missing_mempool_operations (self : PeerState) (oph : bytes) (t : MempoolOperationType)
    : PeerState :=
  if decide (oph ∈ (missing_mempool_operations self).*1) then self
  else
    match queued_mempool_operations self !! oph with
    | Some _ => self
    | None =>
        set_mempool_queues self (missing_mempool_operations self ++ [(oph, t)])
          (queued_mempool_operations self) (mempool_operations_request_last self)
    end.

(** The messages that are sent are the hashes that they ask for. *)
Definition schedule_missing_operations (now : Z) (peer : PeerState) : PeerState * list (list bytes) :=
  let capacity := available_mempool_operations_queue_capacity peer in
  match missing_mempool_operations peer with
  | [] => (peer, [])
  | _ =>
      if decide (capacity > 0) then
        let num_opts_to_get := Z.min (len (missing_mempool_operations peer)) capacity in
        let ops_to_enqueue := take (Z.to_nat num_opts_to_get) (missing_mempool_operations peer) in
        let queued :=
          foldl (λ m e, <[e.1 := e.2]> m) (queued_mempool_operations peer) ops_to_enqueue in
        let ops_to_get := ops_to_enqueue.*1 in
        (set_mempool_queues peer (drop (Z.to_nat num_opts_to_get) (missing_mempool_operations peer)) queued now,
         if decide (GET_OPERATIONS_MAX_LENGTH > 0)
         then chunks (Z.to_nat GET_OPERATIONS_MAX_LENGTH) ops_to_get else [ops_to_get])
      else (peer, [])
  end.

Definition schedule_missing_operations_for_mempool (now : Z) (peers : gmap string PeerState)
    : gmap string (PeerState * list (list bytes)) :=
  schedule_missing_operations now <$> peers.

(** ** Synchronisation *)

(** The peer is its public key hash. *)
Record PeerBranchSynchronizationDone := mkSynchronizationDone { done_peer : bytes; to_level : Z }.

Record SynchronizationBootstrapState := mkSynchronization {
  num_of_peers_for_bootstrap_threshold : Z;
  current_bootstrapped_status : bool;
  peer_levels : gmap bytes Z
}.

Definition HIGH_LEVEL_MARGIN_PERCENTAGE : Z := 99.

Definition synchronization_new (threshold : Z) (status : bool) : SynchronizationBootstrapState :=
  mkSynchronization threshold (if decide (threshold = 0) then true else status) ∅.

(** [i32::checked_mul] and [i32::checked_div]; the division truncates. *)
Definition checked_i32 (v : Z) : option Z := if decide (int_range 32 v) then Some v else None.
Definition checked_mul_i32 (a b : Z) : option Z := checked_i32 (a * b).
Definition checked_div_i32 (a b : Z) : option Z := if decide (b = 0) then None else checked_i32 (Z.quot a b).

Definition consider_as_bootstrapped (tested_level target_level percentage_margin : Z) : bool :=
  match checked_mul_i32 tested_level 100 with
  | Some p => bool_decide (default 0 (checked_div_i32 p target_level) >= percentage_margin)
  | None => false
  end.

Definition num_of_bootstrapped_peers (self : SynchronizationBootstrapState) (best_known_level : Z) : Z :=
  Z.of_nat (size (filter (λ e, consider_as_bootstrapped e.2 best_known_level HIGH_LEVEL_MARGIN_PERCENTAGE = true)
    (peer_levels self))).

Definition update_by_new_local_head (self : SynchronizationBootstrapState) (remote local : Z)
    : SynchronizationBootstrapState * bool :=
  let self :=
    if decide (num_of_peers_for_bootstrap_threshold self ≤ num_of_bootstrapped_peers self remote) then
      if consider_as_bootstrapped local remote HIGH_LEVEL_MARGIN_PERCENTAGE
      then mkSynchronization (num_of_peers_for_bootstrap_threshold self) true ∅
      else self
    else self in
  (self, current_bootstrapped_status self).

(** Returns also the flag that is set for the peer, if any. *)
Definition update_by_peer_state (self : SynchronizationBootstrapState)
    (new_update : PeerBranchSynchronizationDone) (remote local : Z)
    : SynchronizationBootstrapState * option bool :=
  if current_bootstrapped_status self then (self, None)
  else
    let update_to_level := to_level new_update in
    let '(levels, reached) :=
      match peer_levels self !! done_peer new_update with
      | Some peer_to_level =>
          if decide (peer_to_level < update_to_level)
          then (<[done_peer new_update := update_to_level]> (peer_levels self), update_to_level)
          else (peer_levels self, peer_to_level)
      | None => (<[done_peer new_update := update_to_level]> (peer_levels self), update_to_level)
      end in
    let target := consider_as_bootstrapped reached remote HIGH_LEVEL_MARGIN_PERCENTAGE in
    let self := mkSynchronization (num_of_peers_for_bootstrap_threshold self) false levels in
    (fst (update_by_new_local_head self remote local), Some target).

(** ** Requests of operations *)

Definition peer_ok (p : PeerState) : Prop :=
  NoDup (missing_mempool_operations p).*1 ∧
  (∀ h, h ∈ (missing_mempool_operations p).*1 → queued_mempool_operations p !! h = None) ∧
  Z.of_nat (size (queued_mempool_operations p)) ≤ MEMPOOL_OPERATIONS_BATCH_SIZE.

Lemma peer_new_ok now d l : peer_ok (peer_new now d l).
Proof. split; [constructor|]. split; [done|]. cbn. rewrite map_size_empty. done. Qed.

Lemma add_missing_ok p h t : peer_ok p → peer_ok (add_missing_mempool_operations p h t).
Proof.
  intros Hp. unfold add_missing_mempool_operations. case_decide as Hin; [done|].
  destruct (queued_mempool_operations p !! h) eqn:E; [done|]. destruct Hp as (Hnd & Hd & Hs).
  split; [|split; [|done]]; cbn [set_mempool_queues missing_mempool_operations queued_mempool_operations];
    rewrite fmap_app; cbn.
  - apply NoDup_app. split; [done|]. split; [|apply NoDup_singleton].
    by intros x Hx ->%list_elem_of_singleton.
  - intros x [Hx| ->%list_elem_of_singleton]%elem_of_app; [by apply Hd|done].
Qed.

Lemma enqueue_lookup (l : list (bytes * MempoolOperationType)) : ∀ m h,
  NoDup l.*1 → foldl (λ m e, <[e.1 := e.2]> m) m l !! h = (list_to_map l ∪ m : gmap _ _) !! h.
Proof.
  induction l as [|[k t] l IH]; intros m h Hnd; cbn [foldl]; [by rewrite list_to_map_nil, map_empty_union|].
  apply NoDup_cons in Hnd as [Hk Hnd]. rewrite IH by done. cbn [fst snd]. rewrite list_to_map_cons.
  rewrite <- insert_union_l, <- insert_union_r; [done|]. by apply not_elem_of_list_to_map_1.
Qed.

Lemma enqueue_union (l : list (bytes * MempoolOperationType)) (m : gmap bytes MempoolOperationType) :
  NoDup l.*1 → foldl (λ m e, <[e.1 := e.2]> m) m l = list_to_map l ∪ m.
Proof. intros Hnd. apply map_eq. intros h. by apply enqueue_lookup. Qed.

(** The queue after a part of the missing operations has been added. *)
Lemma moved_queue p moved rest :
  peer_ok p → missing_mempool_operations p = moved ++ rest →
  let queued := list_to_map moved ∪ queued_mempool_operations p in
  NoDup moved.*1 ∧ NoDup rest.*1 ∧ (∀ h, h ∈ rest.*1 → queued !! h = None) ∧
  size queued = (length moved + size (queued_mempool_operations p))%nat.
Proof.
  intros (Hnd & Hd & _) E. rewrite E, fmap_app in *. apply NoDup_app in Hnd as (N1 & N2 & N3).
  split; [done|]. split; [done|]. split.
  - intros h Hh. apply lookup_union_None. split; [|apply Hd, elem_of_app; by right].
    apply not_elem_of_list_to_map_1. intros Hm. by apply (N2 h).
  - rewrite map_size_disj_union, map_size_list_to_map; [done|done|].
    apply map_disjoint_spec. intros h t t' Ht Ht'. apply elem_of_list_to_map_2 in Ht.
    rewrite Hd in Ht'; [done|]. apply elem_of_app. left. by apply (list_elem_of_fmap_2 fst _ (h, t)).
Qed.

(** Requests of mempool operations.  For a peer whose queues are consistent,
    scheduling moves a prefix of the missing operations to the queue, keeping their
    types, asks for exactly these, in order and in messages of the allowed length,
    never has more than the allowed number of operations queued, and leaves missing
    operations behind only if the queue is full.  The queues stay consistent, so that
    no operation is asked for twice. *)
Theorem mempool_requests_exact now p :
  peer_ok p →
  let '(p', messages) := schedule_missing_operations now p in
  peer_ok p' ∧
  (∃ moved, missing_mempool_operations p = moved ++ missing_mempool_operations p' ∧
     concat messages = moved.*1 ∧
     queued_mempool_operations p' = list_to_map moved ∪ queued_mempool_operations p) ∧
  Forall (λ m, m ≠ [] ∧ len m ≤ GET_OPERATIONS_MAX_LENGTH) messages ∧
  (missing_mempool_operations p' = [] ∨
   Z.of_nat (size (queued_mempool_operations p')) = MEMPOOL_OPERATIONS_BATCH_SIZE).
Proof.
  intros Hp. pose proof Hp as (Hnd & Hd & Hs). unfold schedule_missing_operations.
  destruct (missing_mempool_operations p) as [|e l] eqn:El.
  { split; [done|]. split; [|split; [constructor|by left]]. exists []. rewrite El.
    split; [done|]. split; [done|]. by rewrite list_to_map_nil, map_empty_union. }
  rewrite <- El in *. clear El.
  assert (available_mempool_operations_queue_capacity p
    = MEMPOOL_OPERATIONS_BATCH_SIZE - Z.of_nat (size (queued_mempool_operations p))) as ->.
  { unfold available_mempool_operations_queue_capacity, available. case_decide; lia. }
  case_decide as Hfree.
  2: { split; [done|]. split; [|split; [constructor|right; lia]]. exists [].
       by rewrite list_to_map_nil, map_empty_union. }
  rewrite decide_True by done. set (n := Z.to_nat _). set (missing := missing_mempool_operations p) in *.
  destruct (moved_queue p (take n missing) (drop n missing) Hp) as (N1 & N3 & N4 & Esize);
    [by rewrite take_drop|].
  destruct (chunks_concat (Z.to_nat GET_OPERATIONS_MAX_LENGTH) (take n missing).*1) as [Ec Fc];
    [vm_compute; lia|].
  cbn [set_mempool_queues missing_mempool_operations queued_mempool_operations].
  rewrite enqueue_union by done. rewrite length_take in Esize.
  assert (Z.of_nat n = Z.min (Z.of_nat (length missing))
    (MEMPOOL_OPERATIONS_BATCH_SIZE - Z.of_nat (size (queued_mempool_operations p)))) as En
    by (unfold n, len; lia). clearbody n.
  split; [split; [done|]; split; [done|]; cbn [set_mempool_queues queued_mempool_operations]; rewrite Esize; lia|].
  split; [exists (take n missing); by rewrite take_drop|]. split.
  - eapply Forall_impl; [exact Fc|]. intros m [Hm Hl]. split; [done|].
    unfold len, GET_OPERATIONS_MAX_LENGTH in *. lia.
  - destruct (decide (n = length missing)) as [->|Hn]; [left; by apply drop_ge|right; rewrite Esize; lia].
Qed.

(** ** When the node is bootstrapped *)

(** Levels are [i32]; the product is checked. *)
Lemma considered_iff tested target :
  int_range 32 tested → 0 < target < 2 ^ 31 →
  consider_as_bootstrapped tested target HIGH_LEVEL_MARGIN_PERCENTAGE = true ↔
    99 * target ≤ 100 * tested ≤ 2 ^ 31 - 1.
Proof.
  intros Ht Hg. unfold consider_as_bootstrapped, checked_mul_i32, checked_i32, HIGH_LEVEL_MARGIN_PERCENTAGE.
  case_decide as Hr; [|unfold int_range in *; split; [done|lia]].
  unfold checked_div_i32, checked_i32. rewrite decide_False by lia. rewrite bool_decide_eq_true.
  destruct (decide (tested < 0)) as [Hneg|Hpos].
  - assert (Z.quot (tested * 100) target ≤ 0) as Hq by (apply Z.quot_le_upper_bound; lia || nia).
    destruct (decide (int_range 32 _)); cbn; lia.
  - rewrite Z.quot_div_nonneg by lia. pose proof (Z.div_pos (tested * 100) target) as Hd0.
    pose proof (Z.div_le_upper_bound (tested * 100) target (tested * 100)) as Hd1.
    rewrite decide_True by (unfold int_range in *; nia). cbn. unfold int_range in Hr.
    pose proof (Z.div_le_lower_bound (tested * 100) target 99) as Hl.
    pose proof (Z.mul_div_le (tested * 100) target) as Hm. split; [nia|lia].
Qed.

Inductive SyncEvent :=
| PeerDone (update : PeerBranchSynchronizationDone) (remote local : Z)
| NewLocalHead (remote local : Z).

Definition event_levels (e : SyncEvent) : Z * Z :=
  match e with PeerDone _ remote local => (remote, local) | NewLocalHead remote local => (remote, local) end.

Definition sync_step (s : SynchronizationBootstrapState) (e : SyncEvent) : SynchronizationBootstrapState :=
  match e with
  | PeerDone u remote local => fst (update_by_peer_state s u remote local)
  | NewLocalHead remote local => fst (update_by_new_local_head s remote local)
  end.

(** The highest level that each peer has reported. *)
Definition report (levels : gmap bytes Z) (e : SyncEvent) : gmap bytes Z :=
  match e with
  | PeerDone u _ _ =>
      <[done_peer u := match levels !! done_peer u with Some l => Z.max l (to_level u) | None => to_level u end]> levels
  | NewLocalHead _ _ => levels
  end.

Definition reported (events : list SyncEvent) : gmap bytes Z := foldl report ∅ events.

(** At least 99%, of levels that the check can handle. *)
Definition close (level remote : Z) : Prop := 99 * remote ≤ 100 * level ≤ 2 ^ 31 - 1.

Definition enough (threshold : Z) (events : list SyncEvent) (remote local : Z) : Prop :=
  threshold ≤ Z.of_nat (size (filter (λ e, close e.2 remote) (reported events))) ∧ close local remote.

Definition event_ok (e : SyncEvent) : Prop :=
  0 < (event_levels e).1 < 2 ^ 31 ∧ int_range 32 (event_levels e).2 ∧
  match e with PeerDone u _ _ => int_range 32 (to_level u) | _ => True end.

Definition levels_ok (L : gmap bytes Z) : Prop := map_Forall (λ _ l, int_range 32 l) L.

Lemma report_ok L e : levels_ok L → event_ok e → levels_ok (report L e).
Proof.
  intros HL (_ & _ & He). destruct e as [u remote local|remote local]; [|done]. cbn [report].
  apply map_Forall_insert_2; [|done]. destruct (L !! done_peer u) as [l|] eqn:E; [|done].
  apply HL in E. unfold int_range in *. lia.
Qed.

Lemma reported_ok events : Forall event_ok events → levels_ok (reported events).
Proof.
  unfold reported. assert (levels_ok ∅) as HL by apply map_Forall_empty. revert HL. generalize (∅ : gmap bytes Z).
  induction events as [|e events IH]; intros L HL He; [done|]. apply Forall_cons in He as [He Hes].
  cbn. apply IH; [by apply report_ok|done].
Qed.

Lemma count_close L remote threshold b :
  levels_ok L → 0 < remote < 2 ^ 31 →
  num_of_bootstrapped_peers (mkSynchronization threshold b L) remote
    = Z.of_nat (size (filter (λ e, close e.2 remote) L)).
Proof.
  intros HL Hr. unfold num_of_bootstrapped_peers. cbn [peer_levels]. do 2 f_equal. apply map_filter_ext.
  intros k l Hl. apply considered_iff; [by apply (HL k)|done].
Qed.

(** One event, while the node is not bootstrapped. *)
Lemma sync_step_spec threshold L e :
  levels_ok L → event_ok e →
  let '(remote, local) := event_levels e in
  let L' := report L e in
  sync_step (mkSynchronization threshold false L) e =
    if decide (threshold ≤ Z.of_nat (size (filter (λ x, close x.2 remote) L')) ∧ close local remote)
    then mkSynchronization threshold true ∅ else mkSynchronization threshold false L'.
Proof.
  intros HL He. pose proof (report_ok L e HL He) as HL'. destruct He as (Hr & Hlocal & _).
  assert (∀ remote local L', levels_ok L' → 0 < remote < 2 ^ 31 → int_range 32 local →
    fst (update_by_new_local_head (mkSynchronization threshold false L') remote local) =
    if decide (threshold ≤ Z.of_nat (size (filter (λ x, close x.2 remote) L')) ∧ close local remote)
    then mkSynchronization threshold true ∅ else mkSynchronization threshold false L') as Hnew.
  { intros remote local L2 H2 Hr2 Hl2. unfold update_by_new_local_head. rewrite (count_close L2) by done.
    cbn [num_of_peers_for_bootstrap_threshold fst]. pose proof (considered_iff local remote Hl2 Hr2) as Hc.
    fold (close local remote) in Hc. case_decide as Hn; [|by rewrite decide_False by tauto].
    destruct (consider_as_bootstrapped _ _ _); [rewrite decide_True by tauto|rewrite decide_False by naive_solver];
      done. }
  destruct e as [u remote local|remote local]; cbn [event_levels sync_step report fst snd] in *; [|by apply Hnew].
  unfold update_by_peer_state. cbn [current_bootstrapped_status peer_levels num_of_peers_for_bootstrap_threshold].
  rewrite <- Hnew by done. destruct (L !! done_peer u) as [l|] eqn:E; [|done].
  case_decide as Hlt; cbn [fst]; do 3 f_equal; [f_equal; lia|].
  rewrite Z.max_l by lia. by rewrite insert_id.
Qed.

Lemma sync_step_stays s e :
  current_bootstrapped_status s = true → current_bootstrapped_status (sync_step s e) = true.
Proof.
  intros Hs. destruct e as [u remote local|remote local]; cbn [sync_step].
  - unfold update_by_peer_state. by rewrite Hs.
  - unfold update_by_new_local_head. cbn [fst]. case_decide; [|done].
    by destruct (consider_as_bootstrapped _ _ _).
Qed.

(** The state after events that never were enough. *)
Lemma not_enough threshold events :
  Forall event_ok events →
  let s := foldl sync_step (mkSynchronization threshold false ∅) events in
  if current_bootstrapped_status s
  then ∃ before e after, events = before ++ e :: after ∧
    enough threshold (before ++ [e]) (event_levels e).1 (event_levels e).2
  else s = mkSynchronization threshold false (reported events) ∧
    ¬ ∃ before e after, events = before ++ e :: after ∧
        enough threshold (before ++ [e]) (event_levels e).1 (event_levels e).2.
Proof.
  induction events as [|e events IH] using rev_ind; intros He.
  { split; [done|]. intros (before & e & after & E & _). by destruct before. }
  apply Forall_app in He as [Hes He]. apply Forall_cons in He as [He _]. specialize (IH Hes).
  rewrite foldl_app. cbn [foldl]. set (s := foldl _ _ events) in *. cbv zeta in *.
  destruct (current_bootstrapped_status s) eqn:Es.
  - rewrite sync_step_stays by done. destruct IH as (before & e' & after & -> & Hen).
    exists before, e', (after ++ [e]). by rewrite <- app_assoc.
  - destruct IH as [-> Hno]. pose proof (sync_step_spec threshold (reported events) e (reported_ok _ Hes) He) as Hstep.
    assert (report (reported events) e = reported (events ++ [e])) as Er by (unfold reported; by rewrite foldl_app).
    rewrite Er in Hstep. destruct (event_levels e) as [remote local] eqn:Ee. rewrite Hstep.
    destruct (decide (threshold ≤ _ ∧ _)) as [Hen|Hen]; cbn [current_bootstrapped_status].
    + exists events, e, []. by rewrite Ee.
    + split; [done|]. intros (before & e' & after & E & Hen').
      induction after as [|x after _] using rev_ind.
      * apply app_inj_tail in E as [-> ->]. rewrite Ee in Hen'. done.
      * rewrite app_comm_cons, app_assoc in E. apply app_inj_tail in E as [-> _]. apply Hno. eauto.
Qed.

(** When the node counts as bootstrapped.  With a positive threshold it does so
    exactly if at some event the peers whose highest reported level was at least 99%
    of the best known level were enough, and the own level was at least 99% of it as
    well, all these levels being at most 21474836: the product with 100 is an [i32]. *)
Theorem bootstrapped_exactly threshold events :
  0 < threshold → Forall event_ok events →
  current_bootstrapped_status (foldl sync_step (synchronization_new threshold false) events) = true ↔
    ∃ before e after, events = before ++ e :: after ∧
      enough threshold (before ++ [e]) (event_levels e).1 (event_levels e).2.
Proof.
  intros Ht He. unfold synchronization_new. rewrite decide_False by lia.
  pose proof (not_enough threshold events He) as Hn. cbv zeta in Hn.
  destruct (current_bootstrapped_status _); [done|]. destruct Hn as [_ Hn]. by split; [|intros ?%Hn].
Qed.

(** A level above 21474836 is never considered as bootstrapped. *)
Lemma never_bootstrapped tested target margin :
  21474836 < tested → consider_as_bootstrapped tested target margin = false.
Proof.
  intros Ht. unfold consider_as_bootstrapped, checked_mul_i32, checked_i32.
  rewrite decide_False; [done|]. unfold int_range. lia.
Qed.

Module ShellStateWitnesses.

Definition h (i : Z) : bytes := replicate 32 i.
Definition peer : PeerState :=
  add_missing_mempool_operations
    (add_missing_mempool_operations (peer_new 0 false (mkLimits 10 15)) (h 1) Pending) (h 2) KnownValid.

Lemma mempool_requests_exact_witness :
  missing_mempool_operations (schedule_missing_operations 5 peer).1 = [] ∧
  concat (schedule_missing_operations 5 peer).2 = [h 1; h 2].
Proof.
  pose proof (mempool_requests_exact 5 peer) as Hw.
  assert (peer_ok peer) as Hp by (unfold peer; apply add_missing_ok, add_missing_ok, peer_new_ok).
  specialize (Hw Hp). destruct (schedule_missing_operations 5 peer) as [p' ms] eqn:E.
  destruct Hw as (_ & (moved & E1 & E2 & _) & _ & Hw). cbn [fst snd].
  assert (missing_mempool_operations p' = []) as Em by (injection E as <- <-; reflexivity).
  split; [exact Em|]. rewrite Em, app_nil_r in E1. rewrite E2, <- E1. reflexivity.
Defined.

(** Two peers, one after the other, then the own head. *)
Definition events : list SyncEvent :=
  [PeerDone (mkSynchronizationDone [1] 100) 100 50; PeerDone (mkSynchronizationDone [2] 99) 100 50;
   NewLocalHead 100 99].

Lemma bootstrapped_exactly_witness :
  0 < 2 ∧ ∃ before e after, events = before ++ e :: after ∧
    enough 2 (before ++ [e]) (event_levels e).1 (event_levels e).2.
Proof.
  split; [lia|]. apply (bootstrapped_exactly 2 events).
  - lia.
  - repeat constructor; cbn; unfold int_range; lia.
  - reflexivity.
Defined.

End ShellStateWitnesses.
