(* ===== verification/Requester.v ===== *)
(** * Requests of blocks and operations from peers

    [shell/src/state/data_requester.rs]: what is asked from a peer and what is
    accepted from it, and which block of a batch is applied next. *)

From stdpp Require Import gmap.
From S2P Require Import Prelude Kv Blocks BlockMeta OperationsMeta Messages Prevalidator Validation ShellState.

(** [u8 as i8] *)
Definition as_i8 (v : Z) : Z := to_signed 8 (v mod 256).

(** The messages that are sent to a peer. *)
Inductive Request :=
| GetBlockHeaders (blocks : list bytes)
| GetOperationsForBlocks (operations : list OperationsForBlock_t).

Section Requester.
Context `{RocksDb}.

(** *** Headers *)

Definition already_downloaded (db : DB) (block_hash : bytes) : bool :=
  match BlockMeta.get block_hash db with Ok (Some metadata) => is_downloaded metadata | _ => false end.

Definition set_queued_headers (self : DataQueues) (queued : gmap bytes Z) : DataQueues :=
  mkQueues (limits self) queued (queued_block_operations self).
Definition set_queued_operations (self : DataQueues) (queued : gmap bytes (gset Z * Z)) : DataQueues :=
  mkQueues (limits self) (queued_block_headers self) queued.

Definition fetch_block_headers (now : Z) (blocks_to_download : list bytes) (peer_queues : DataQueues)
    (db : DB) : DataQueues * list Request * bool :=
  match blocks_to_download with
  | [] => (peer_queues, [], false)
  | _ =>
      let queued := queued_block_headers peer_queues in
      let queued_count := Z.of_nat (base.size queued) in
      if decide (queued_count < max_queued_block_headers_count (limits peer_queues)) then
        let available_capacity := max_queued_block_headers_count (limits peer_queues) - queued_count in
        let blocks_to_download :=
          take (Z.to_nat available_capacity)
            (filter (λ block_hash, queued !! block_hash = None ∧ already_downloaded db block_hash = false)
               blocks_to_download) in
        match blocks_to_download with
        | [] => (peer_queues, [], false)
        | _ =>
            (set_queued_headers peer_queues (foldl (λ m btd, <[btd := now]> m) queued blocks_to_download),
             if decide (GET_BLOCK_HEADERS_MAX_LENGTH > 0)
             then map GetBlockHeaders (chunks (Z.to_nat GET_BLOCK_HEADERS_MAX_LENGTH) blocks_to_download)
             else [GetBlockHeaders blocks_to_download],
             true)
        end
      else (peer_queues, [], false)
  end.

(** *** Operations *)

(** The missing passes of each block; the second list are the blocks that have
    none, which the caller is told. *)
Fixpoint collect_missing (db : DB) (blocks_to_download : list bytes)
    : list (bytes * gset Z) * list bytes :=
  match blocks_to_download with
  | [] => ([], [])
  | b :: rest =>
      let '(missing, downloaded) := collect_missing db rest in
      match OperationsMeta.get b db with
      | Ok (Some metadata) =>
          match get_missing_validation_passes metadata with
          | Some missing_operations =>
              if decide (missing_operations ≠ ∅)
              then ((b, set_map as_i8 missing_operations) :: missing, downloaded)
              else (missing, b :: downloaded)
          | None => (missing, b :: downloaded)
          end
      | _ => (missing, downloaded)
      end
  end.

(** [iter] is the order in which sets of passes are iterated. *)
Definition operations_for_blocks (iter : gset Z → list Z) (blocks : list (bytes * gset Z))
    : list OperationsForBlock_t :=
  concat (map (λ '(block, missing_ops), map (mkOperationsForBlock block) (iter missing_ops)) blocks).

Definition fetch_block_operations (iter : gset Z → list Z) (now : Z) (blocks_to_download : list bytes)
    (peer_queues : DataQueues) (db : DB) : DataQueues * list Request * list bytes * bool :=
  match blocks_to_download with
  | [] => (peer_queues, [], [], false)
  | _ =>
      let queued := queued_block_operations peer_queues in
      let queued_count := Z.of_nat (base.size queued) in
      if decide (queued_count < max_queued_block_operations_count (limits peer_queues)) then
        let available_capacity := max_queued_block_operations_count (limits peer_queues) - queued_count in
        let blocks_to_download :=
          take (Z.to_nat available_capacity)
            (filter (λ block_hash, queued !! block_hash = None) blocks_to_download) in
        let '(blocks_to_download, downloaded) := collect_missing db blocks_to_download in
        match blocks_to_download with
        | [] => (peer_queues, [], downloaded, false)
        | _ =>
            let operations := operations_for_blocks iter blocks_to_download in
            (set_queued_operations peer_queues
               (foldl (λ m e, <[e.1 := (e.2, now)]> m) queued blocks_to_download),
             if decide (GET_OPERATIONS_FOR_BLOCKS_MAX_LENGTH > 0)
             then map GetOperationsForBlocks (chunks (Z.to_nat GET_OPERATIONS_FOR_BLOCKS_MAX_LENGTH) operations)
             else [GetOperationsForBlocks operations],
             downloaded, true)
        end
      else (peer_queues, [], [], false)
  end.

(** *** Answers *)

Definition set_queues (self : PeerState) (q : DataQueues) (stats : MessageStats) : PeerState :=
  mkPeerState (mempool_enabled self) (peer_is_bootstrapped self) q (missing_operations_for_blocks self)
    (current_head_level self) (current_head_update_last self) (current_head_request_last self)
    (current_head_response_last self) (mempool_operations_request_last self)
    (mempool_operations_response_last self) (missing_mempool_operations self)
    (queued_mempool_operations self) stats.

Definition increment_unexpected_response_block (self : MessageStats) : MessageStats :=
  mkMessageStats (unexpected_response_block self + 1) (unexpected_response_operations self).
Definition increment_unexpected_response_operations (self : MessageStats) : MessageStats :=
  mkMessageStats (unexpected_response_block self) (unexpected_response_operations self + 1).

(** [RequestedBlockDataLock] and [RequestedOperationDataLock] *)
Record RequestedBlockDataLock := mkBlockLock { lock_block_hash : bytes }.
Record RequestedOperationDataLock := mkOperationLock { lock_validation_pass : Z; lock_operation_block : bytes }.

Definition block_header_received (block_hash : bytes) (peer : PeerState)
    : PeerState * option RequestedBlockDataLock :=
  match queued_block_headers (queues peer) !! block_hash with
  | None => (set_queues peer (queues peer) (increment_unexpected_response_block (message_stats peer)), None)
  | Some _ => (peer, Some (mkBlockLock block_hash))
  end.

Definition block_operations_received (operations_for_block : OperationsForBlock_t) (peer : PeerState)
    : PeerState * option RequestedOperationDataLock :=
  let block_hash := operations_block_hash operations_for_block in
  let validation_pass := operations_validation_pass operations_for_block in
  let unexpected :=
    set_queues peer (queues peer) (increment_unexpected_response_operations (message_stats peer)) in
  match queued_block_operations (queues peer) !! block_hash with
  | Some (missing_operations, _) =>
      if decide (validation_pass ∈ missing_operations)
      then (peer, Some (mkOperationLock validation_pass block_hash))
      else (unexpected, None)
  | None => (unexpected, None)
  end.

(** [Drop] *)
Definition drop_block_lock (self : RequestedBlockDataLock) (q : DataQueues) : DataQueues :=
  set_queued_headers q (delete (lock_block_hash self) (queued_block_headers q)).

Definition drop_operation_lock (self : RequestedOperationDataLock) (q : DataQueues) : DataQueues :=
  match queued_block_operations q !! lock_operation_block self with
  | Some (missing_operations, t) =>
      let missing_operations := missing_operations ∖ {[lock_validation_pass self]} in
      set_queued_operations q
        (if decide (missing_operations = ∅)
         then delete (lock_operation_block self) (queued_block_operations q)
         else <[lock_operation_block self := (missing_operations, t)]> (queued_block_operations q))
  | None => q
  end.

(** *** Blocks to apply *)

(** The loop; it ends since each round shifts the batch. *)
Fixpoint batch_to_use (db : DB) (block : bytes) (successors : list bytes)
    : result ApplyBlockBatch StateError :=
  let? block_metadata := map_err StateStorageError (BlockMeta.get block db) in
  match block_metadata with
  | None => Err (ProcessingError "No metadata found for block_hash")
  | Some block_metadata =>
      let? status :=
        map_err StateStorageError
          (can_apply_block block block_metadata
             (λ bh, OperationsMeta.operations_complete bh db) (λ predecessor, is_applied_block predecessor db)) in
      match status with
      | Ready => Ok (batch block successors)
      | AlreadyApplied =>
          match successors with
          | [] => Err (ProcessingError "Block cannot be applied, because the whole batch is already applied")
          | next :: successors => batch_to_use db next successors
          end
      | MissingPredecessor => Err (ProcessingError "Block cannot be applied because missing predecessor block")
      | PredecessorNotApplied =>
          Err (ProcessingError "Block cannot be applied because predecessor block is not applied yet")
      | MissingOperations => Err (ProcessingError "Block cannot be applied because missing operations")
      end
  end.

(** What the chain feeder is told: a batch to apply. *)
Definition call_apply_block (batch : ApplyBlockBatch) (db : DB) : result ApplyBlockBatch StateError :=
  batch_to_use db (block_to_apply batch) (batch_successors batch).

Definition try_apply_block (block_hash : bytes) (db : DB) : result ApplyBlockBatch StateError :=
  call_apply_block (one block_hash) db.

End Requester.

(** ** The next block of a batch *)

Section Batches.
Context `{RocksDb} (db : DB).

Definition known_applied (b : bytes) : Prop :=
  ∃ m, BlockMeta.get b db = Ok (Some m) ∧ is_applied m = true.

(** The block is not applied, has all its operations, and its predecessor is applied. *)
Definition ready (b : bytes) : Prop :=
  ∃ m p, BlockMeta.get b db = Ok (Some m) ∧ is_applied m = false ∧ BlockMeta.predecessor m = Some p ∧
    operations_complete b db = Ok true ∧ is_applied_block p db = Ok true.

Lemma batch_to_use_applied b next successors :
  known_applied b → batch_to_use db b (next :: successors) = batch_to_use db next successors.
Proof.
  intros (m & E & Ha). cbn [batch_to_use]. rewrite E. cbn [map_err]. unfold can_apply_block. by rewrite Ha.
Qed.

Lemma batch_to_use_ready b successors :
  ready b → batch_to_use db b successors = Ok (batch b successors).
Proof.
  intros (m & p & E & Ha & Ep & Eo & Epa).
  assert (can_apply_block b m (λ bh, operations_complete bh db) (λ p, is_applied_block p db) = Ok Ready) as Er.
  { apply can_apply_block_ready. eauto. }
  destruct successors; cbn [batch_to_use]; rewrite E; cbn [map_err]; by rewrite Er.
Qed.

Lemma batch_to_use_ok b successors batch' :
  batch_to_use db b successors = Ok batch' →
  (ready b ∧ batch' = batch b successors) ∨
  (known_applied b ∧ ∃ next rest, successors = next :: rest ∧ batch_to_use db next rest = Ok batch').
Proof.
  intros E. destruct successors as [|next rest]; cbn [batch_to_use] in E;
    (destruct (BlockMeta.get b db) as [[m|]|] eqn:Em; cbn [map_err] in E; [|done..]);
    (destruct (can_apply_block _ _ _ _) as [[]|] eqn:Ec; cbn [map_err] in E; try done).
  1, 2: left; apply can_apply_block_ready in Ec as (Ha & Eo & p & Ep & Epa); split; [by exists m, p|congruence].
  right. split; [|eauto]. exists m. split; [done|]. unfold can_apply_block in Ec.
  destruct (is_applied m); [done|]. destruct (BlockMeta.predecessor m); [|done].
  destruct (operations_complete b db) as [[]|]; [|done..]. cbn [negb] in Ec.
  by destruct (is_applied_block _ db) as [[]|].
Qed.

(** Of a batch, exactly the part from the first block on that is not applied is
    sent to be applied, provided that this block has all its operations and its
    predecessor is applied; in all other cases nothing is sent. *)
Theorem batch_from_first_unapplied b b' :
  call_apply_block b db = Ok b' ↔
    ∃ before, take_all_blocks_to_apply b = before ++ take_all_blocks_to_apply b' ∧
      Forall known_applied before ∧ ready (block_to_apply b').
Proof.
  destruct b as [x l]. unfold call_apply_block, take_all_blocks_to_apply. cbn [block_to_apply batch_successors].
  revert x. induction l as [|next l IH]; intros x.
  - split.
    + intros [[Hr ->]|(_ & ? & ? & ? & _)]%batch_to_use_ok; [|done]. by exists [].
    + destruct b' as [y k]. cbn [block_to_apply batch_successors]. intros ([|z before] & E & _ & Hr).
      * injection E as -> <-. by apply batch_to_use_ready.
      * injection E as _ E. symmetry in E. by apply app_eq_nil in E as [_ E].
  - split.
    + intros [[Hr ->]|(Ha & ? & ? & [= <- <-] & Hb)]%batch_to_use_ok; [by exists []|].
      apply IH in Hb as (before & E & Hf & Hr). exists (x :: before). rewrite E. by repeat constructor.
    + destruct b' as [y k]. cbn [block_to_apply batch_successors]. intros ([|z before] & E & Hf & Hr).
      * injection E as -> <-. by apply batch_to_use_ready.
      * apply Forall_cons in Hf as [Ha Hf]. injection E as <- E. rewrite batch_to_use_applied by done.
        apply IH. by exists before.
Qed.

End Batches.

(** ** Limits of the queues *)

Section Limits.
Context {A B : Type} (key : B → bytes) (value : B → A).

Lemma enqueue_dom (l : list B) (m : gmap bytes A) :
  dom (foldl (λ m e, <[key e := value e]> m) m l) = dom m ∪ list_to_set (map key l).
Proof.
  revert m. induction l as [|e l IH]; intros m; cbn; [by rewrite union_empty_r_L|].
  rewrite IH, dom_insert_L. set_solver.
Qed.

Lemma enqueue_size (l : list B) (m : gmap bytes A) :
  (base.size (foldl (λ m e, <[key e := value e]> m) m l) ≤ base.size m + length l)%nat.
Proof.
  revert m. induction l as [|e l IH]; intros m; cbn; [lia|]. etransitivity; [apply IH|].
  rewrite map_size_insert. destruct (m !! key e); cbn; lia.
Qed.

Lemma enqueue_lookup_cases (l : list B) (m : gmap bytes A) h a :
  foldl (λ m e, <[key e := value e]> m) m l !! h = Some a →
  m !! h = Some a ∨ ∃ e, e ∈ l ∧ key e = h ∧ value e = a.
Proof.
  revert m. induction l as [|e l IH]; intros m; cbn; [by left|].
  intros [Hm|(e' & He & Hk & Hv)]%IH; [|right; exists e'; by split; [right|]].
  destruct (decide (key e = h)) as [<-|Hne].
  - rewrite lookup_insert_eq in Hm. right. exists e. split; [left|]. by injection Hm.
  - rewrite lookup_insert_ne in Hm by done. by left.
Qed.

End Limits.

Definition queues_ok (q : DataQueues) : Prop :=
  Z.of_nat (base.size (queued_block_headers q)) ≤ max_queued_block_headers_count (limits q) ∧
  Z.of_nat (base.size (queued_block_operations q)) ≤ max_queued_block_operations_count (limits q).

(** What a list of messages asks for. *)
Definition asked_headers (requests : list Request) : list bytes :=
  concat (map (λ r, match r with GetBlockHeaders l => l | _ => [] end) requests).
Definition asked_operations (requests : list Request) : list OperationsForBlock_t :=
  concat (map (λ r, match r with GetOperationsForBlocks l => l | _ => [] end) requests).

(** Messages that are read by the other end: see the declarations of [Messages]. *)
Definition request_ok (r : Request) : Prop :=
  match r with
  | GetBlockHeaders l => l ≠ [] ∧ len l ≤ GET_BLOCK_HEADERS_MAX_LENGTH
  | GetOperationsForBlocks l => l ≠ [] ∧ len l ≤ GET_OPERATIONS_FOR_BLOCKS_MAX_LENGTH
  end.

Section Fetch.
Context `{RocksDb} (db : DB).

Lemma header_requests_ok l :
  asked_headers (map GetBlockHeaders (chunks (Z.to_nat GET_BLOCK_HEADERS_MAX_LENGTH) l)) = l ∧
  Forall request_ok (map GetBlockHeaders (chunks (Z.to_nat GET_BLOCK_HEADERS_MAX_LENGTH) l)).
Proof.
  destruct (chunks_concat (Z.to_nat GET_BLOCK_HEADERS_MAX_LENGTH) l) as [E F]; [vm_compute; lia|].
  unfold asked_headers. rewrite map_map, map_id. split; [done|]. apply Forall_map.
  eapply Forall_impl; [exact F|]. intros c [Hc Hl]. split; [done|].
  unfold len, GET_BLOCK_HEADERS_MAX_LENGTH in *. lia.
Qed.

Lemma operation_requests_ok l :
  asked_operations (map GetOperationsForBlocks (chunks (Z.to_nat GET_OPERATIONS_FOR_BLOCKS_MAX_LENGTH) l)) = l ∧
  Forall request_ok (map GetOperationsForBlocks (chunks (Z.to_nat GET_OPERATIONS_FOR_BLOCKS_MAX_LENGTH) l)).
Proof.
  destruct (chunks_concat (Z.to_nat GET_OPERATIONS_FOR_BLOCKS_MAX_LENGTH) l) as [E F]; [vm_compute; lia|].
  unfold asked_operations. rewrite map_map, map_id. split; [done|]. apply Forall_map.
  eapply Forall_impl; [exact F|]. intros c [Hc Hl]. split; [done|].
  unfold len, GET_OPERATIONS_FOR_BLOCKS_MAX_LENGTH in *. lia.
Qed.

(** Headers: what is asked for was wanted, neither queued nor downloaded, and is
    queued now. *)
Lemma fetch_block_headers_ok now blocks q :
  queues_ok q →
  let '(q', requests, sent) := fetch_block_headers now blocks q db in
  queues_ok q' ∧ queued_block_operations q' = queued_block_operations q ∧ limits q' = limits q ∧
  Forall request_ok requests ∧ (sent = true ↔ asked_headers requests ≠ []) ∧
  dom (queued_block_headers q') = dom (queued_block_headers q) ∪ list_to_set (asked_headers requests) ∧
  ∀ b, b ∈ asked_headers requests →
    b ∈ blocks ∧ queued_block_headers q !! b = None ∧ already_downloaded db b = false.
Proof.
  intros [Hh Ho]. assert (∀ sent, sent = false →
    queues_ok q ∧ queued_block_operations q = queued_block_operations q ∧ limits q = limits q ∧
    Forall request_ok [] ∧ (sent = true ↔ asked_headers [] ≠ []) ∧
    dom (queued_block_headers q) = dom (queued_block_headers q) ∪ list_to_set (asked_headers []) ∧
    ∀ b, b ∈ asked_headers [] →
      b ∈ blocks ∧ queued_block_headers q !! b = None ∧ already_downloaded db b = false) as Hnone.
  { intros sent ->. split; [done|]. split; [done|]. split; [done|]. split; [constructor|]. cbn.
    split; [by split|]. split; [by rewrite union_empty_r_L|]. by intros b ?%elem_of_nil. }
  unfold fetch_block_headers. destruct blocks as [|b0 blocks0]; [by apply Hnone|].
  set (blocks := b0 :: blocks0) in *. case_decide as Hcap; [|by apply Hnone].
  set (n := Z.to_nat _). set (wanted := take n _).
  assert (∀ b, b ∈ wanted → b ∈ blocks ∧ queued_block_headers q !! b = None ∧ already_downloaded db b = false)
    as Hwanted.
  { intros b Hb. unfold wanted in Hb. apply elem_of_take in Hb as (i & Hi & _).
    apply list_elem_of_lookup_2, list_elem_of_filter in Hi. tauto. }
  assert (length wanted ≤ n)%nat as Hlen by (unfold wanted; rewrite length_take; lia).
  destruct wanted as [|w ws] eqn:Ew; [by apply Hnone|]. rewrite <- Ew in *.
  assert (wanted ≠ []) as Hne by (by rewrite Ew). clear Ew.
  rewrite decide_True by done. destruct (header_requests_ok wanted) as [Ea Fr]. rewrite Ea.
  split; [|split; [done|split; [done|split; [done|]]]].
  - split; [|done]. cbn [set_queued_headers queued_block_headers limits].
    pose proof (enqueue_size (λ b, b) (λ _, now) wanted (queued_block_headers q)) as Hs. lia.
  - split; [done|]. split; [|done]. cbn [set_queued_headers queued_block_headers].
    rewrite (enqueue_dom (λ b, b) (λ _, now)), map_id. done.
Qed.

(** The passes of a block that are missing, as they are asked for. *)
Definition missing_of (b : bytes) (passes : gset Z) : Prop :=
  ∃ m M, OperationsMeta.get b db = Ok (Some m) ∧ get_missing_validation_passes m = Some M ∧ M ≠ ∅ ∧
    passes = set_map as_i8 M.

Lemma collect_missing_ok blocks :
  let '(missing, downloaded) := collect_missing db blocks in
  (length missing ≤ length blocks)%nat ∧
  ∀ b passes, (b, passes) ∈ missing → b ∈ blocks ∧ missing_of b passes.
Proof.
  induction blocks as [|x blocks IH]; cbn [collect_missing].
  { split; [done|]. by intros b passes ?%elem_of_nil. }
  destruct (collect_missing db blocks) as [missing downloaded]. destruct IH as [IH1 IH2].
  assert ((length missing ≤ length (x :: blocks))%nat ∧
    ∀ b passes, (b, passes) ∈ missing → b ∈ x :: blocks ∧ missing_of b passes) as Hskip.
  { split; [cbn; lia|]. intros b passes Hin. destruct (IH2 b passes Hin). split; [by right|done]. }
  destruct (OperationsMeta.get x db) as [[m|]|] eqn:Em; [|done..].
  destruct (get_missing_validation_passes m) as [M|] eqn:EM; [|done]. case_decide as HM; [|done].
  split; [cbn; lia|]. intros b passes [[= -> ->]|Hin]%elem_of_cons; [|by apply Hskip].
  split; [left|]. by exists m, M.
Qed.

Lemma elem_of_operations_for_blocks iter missing m :
  (∀ X, iter X ≡ₚ elements X) →
  m ∈ operations_for_blocks iter missing ↔
    ∃ passes, (operations_block_hash m, passes) ∈ missing ∧ operations_validation_pass m ∈ passes.
Proof.
  intros Hit. unfold operations_for_blocks. rewrite list_elem_of_In, in_concat. split.
  - intros (l & Hl & Hm). apply in_map_iff in Hl as ([b passes] & <- & Hin).
    apply in_map_iff in Hm as (p & <- & Hp). exists passes. cbn. split; [by apply list_elem_of_In|].
    apply list_elem_of_In in Hp. by rewrite Hit, elem_of_elements in Hp.
  - intros (passes & Hin & Hp). exists (map (mkOperationsForBlock (operations_block_hash m)) (iter passes)). split.
    + apply in_map_iff. exists (operations_block_hash m, passes). split; [done|by apply list_elem_of_In].
    + apply in_map_iff. exists (operations_validation_pass m). split; [by destruct m|].
      apply list_elem_of_In. by rewrite Hit, elem_of_elements.
Qed.

(** The queue after the missing passes of the blocks [wanted] were added. *)
Lemma enqueued_operations iter now (blocks wanted : list bytes) missing q :
  (∀ X, iter X ≡ₚ elements X) →
  (∀ b, b ∈ wanted → b ∈ blocks ∧ queued_block_operations q !! b = None) →
  (∀ b passes, (b, passes) ∈ missing → b ∈ wanted ∧ missing_of b passes) →
  let queued := foldl (λ m e, <[e.1 := (e.2, now)]> m) (queued_block_operations q) missing in
  (∀ m, m ∈ operations_for_blocks iter missing ↔ ∃ passes,
     queued !! operations_block_hash m = Some (passes, now) ∧
     queued_block_operations q !! operations_block_hash m = None ∧
     operations_validation_pass m ∈ passes) ∧
  (∀ b e, queued !! b = Some e →
     queued_block_operations q !! b = Some e ∨
     (b ∈ blocks ∧ queued_block_operations q !! b = None ∧ e.2 = now ∧ missing_of b e.1)).
Proof.
  intros Hit Hw Hm queued. pose proof (enqueue_lookup_cases fst (λ e : bytes * gset Z, (e.2, now)) missing
    (queued_block_operations q)) as Hcases. fold queued in Hcases. split.
  - intros m. rewrite elem_of_operations_for_blocks by done. split.
    + intros (passes & Hin & Hp). destruct (Hm _ _ Hin) as [Hwin (x & M & Ex & EM & _ & ->)].
      destruct (Hw _ Hwin) as [_ Hq]. assert (is_Some (queued !! operations_block_hash m)) as [[ps t] Hps].
      { apply elem_of_dom. unfold queued. rewrite (enqueue_dom fst (λ e, (e.2, now))).
        apply elem_of_union_r, elem_of_list_to_set. by apply (list_elem_of_fmap_2 fst) in Hin. }
      destruct (Hcases _ _ Hps) as [?|([b' ps'] & Hin' & Eb & [= <- <-])]; [congruence|]. cbn in Eb. subst b'.
      destruct (Hm _ _ Hin') as [_ (x' & M' & Ex' & EM' & _ & ->)]. exists (set_map as_i8 M').
      split; [done|]. split; [done|]. congruence.
    + intros (passes & Hps & Hq & Hp). destruct (Hcases _ _ Hps) as [?|([b' ps'] & Hin' & Eb & E)]; [congruence|].
      cbn in Eb, E. injection E as ->. subst b'. by exists passes.
  - intros b [ps t] [?|([b' ps'] & Hin' & Eb & [= -> ->])]%Hcases; [by left|]. cbn in Eb. subst b'. right.
    destruct (Hm _ _ Hin') as [Hwin Hmo]. destruct (Hw _ Hwin). done.
Qed.

(** Operations: what is asked for are the missing passes of blocks that were wanted and
    not queued; these are queued now with the passes. *)
Lemma fetch_block_operations_ok iter now blocks q :
  (∀ X, iter X ≡ₚ elements X) → queues_ok q →
  let '(q', requests, downloaded, sent) := fetch_block_operations iter now blocks q db in
  queues_ok q' ∧ queued_block_headers q' = queued_block_headers q ∧ limits q' = limits q ∧
  Forall request_ok requests ∧
  (∀ m, m ∈ asked_operations requests ↔ ∃ passes,
     queued_block_operations q' !! operations_block_hash m = Some (passes, now) ∧
     queued_block_operations q !! operations_block_hash m = None ∧
     operations_validation_pass m ∈ passes) ∧
  (∀ b e, queued_block_operations q' !! b = Some e →
     queued_block_operations q !! b = Some e ∨
     (b ∈ blocks ∧ queued_block_operations q !! b = None ∧ e.2 = now ∧ missing_of b e.1)).
Proof.
  intros Hit [Hh Ho]. unfold fetch_block_operations.
  assert (queues_ok q ∧ queued_block_headers q = queued_block_headers q ∧ limits q = limits q ∧
    Forall request_ok [] ∧
    (∀ m, m ∈ asked_operations [] ↔ ∃ passes,
       queued_block_operations q !! operations_block_hash m = Some (passes, now) ∧
       queued_block_operations q !! operations_block_hash m = None ∧
       operations_validation_pass m ∈ passes) ∧
    (∀ b e, queued_block_operations q !! b = Some e →
       queued_block_operations q !! b = Some e ∨
       (b ∈ blocks ∧ queued_block_operations q !! b = None ∧ e.2 = now ∧ missing_of b e.1))) as Hnone.
  { split; [done|]. split; [done|]. split; [done|]. split; [constructor|]. split; [|by left].
    intros m. cbn. rewrite elem_of_nil. split; [done|]. intros (passes & E & E' & _). congruence. }
  destruct blocks as [|b0 blocks0]; [exact Hnone|]. set (blocks := b0 :: blocks0) in *.
  case_decide as Hcap; [|exact Hnone]. set (n := Z.to_nat _).
  set (wanted := take n _). pose proof (collect_missing_ok wanted) as Hc.
  destruct (collect_missing db wanted) as [missing downloaded]. destruct Hc as [Hlen Hmiss].
  destruct missing as [|e0 missing0]; [exact Hnone|]. set (missing := e0 :: missing0) in *.
  rewrite decide_True by done.
  destruct (operation_requests_ok (operations_for_blocks iter missing)) as [Ea Fr]. rewrite Ea.
  assert (length wanted ≤ n)%nat as Hn by (unfold wanted; rewrite length_take; lia).
  assert (∀ b, b ∈ wanted → b ∈ blocks ∧ queued_block_operations q !! b = None) as Hwanted.
  { intros b Hb. unfold wanted in Hb. apply elem_of_take in Hb as (i & Hi & _).
    apply list_elem_of_lookup_2, list_elem_of_filter in Hi. tauto. }
  split; [|split; [done|split; [done|split; [done|]]]].
  - split; [done|]. cbn [set_queued_operations queued_block_operations limits].
    pose proof (enqueue_size fst (λ e, (e.2, now)) missing (queued_block_operations q)) as Hs. lia.
  - by apply (enqueued_operations iter now blocks wanted).
Qed.
End Fetch.
