(* ===== verification/OperationsStorage.v ===== *)
(** * The operations of blocks

    [storage/src/operations_storage.rs]: the operations of a block, by validation
    pass, and the iteration over all passes of a block. *)

From stdpp Require Import gmap sorting.
From S2P Require Import Prelude Hash Kv OperationsMeta MerklePath Prevalidator.

Record OperationsForBlocksMessage_t := mkOperationsForBlocksMessage {
  operations_for_block : OperationsForBlock_t;
  operation_hashes_path : list PathItem;
  message_operations : list Operation_t
}.

Record OperationKey := mkOperationKey { key_block_hash : bytes; key_validation_pass : Z }.
#[export] Instance OperationKey_eq_dec : EqDecision OperationKey.
Proof. solve_decision. Defined.
#[export] Instance OperationKey_countable : Countable OperationKey.
Proof.
  refine (inj_countable (λ k, (key_block_hash k, key_validation_pass k)) (λ p, Some (mkOperationKey p.1 p.2)) _).
  by intros [].
Defined.

(** [From<&OperationsForBlock>] *)
Definition operation_key (ops : OperationsForBlock_t) : OperationKey :=
  mkOperationKey (operations_block_hash ops)
    (if decide (operations_validation_pass ops >= 0) then as_u8 (operations_validation_pass ops) else 0).

Definition operation_key_encode (self : OperationKey) : result bytes SchemaError :=
  Ok (key_block_hash self ++ [key_validation_pass self]).

Definition operation_key_decode (bytes : bytes) : result OperationKey SchemaError :=
  if decide (len bytes < size BlockHash + 1) then Err DecodeError
  else
    let? block_hash := ok_or (slice bytes 0 (size BlockHash)) SchemaPanic in
    let? block_hash := map_err (λ _, DecodeError) (try_from_bytes BlockHash block_hash) in
    let? validation_pass := ok_or (bytes !! Z.to_nat (size BlockHash)) SchemaPanic in
    Ok (mkOperationKey block_hash validation_pass).

#[export] Instance operation_key_codec : Codec OperationKey :=
  {| encode := operation_key_encode; decode := operation_key_decode |}.

Definition operations_storage_descriptor : ColumnFamilyDescriptor :=
  mkPrefixedFamily "operations_storage" None (Some (Z.to_nat (size BlockHash))).

Section Storage.
Context `{RocksDb, Bincode OperationsForBlocksMessage_t}.

Definition OperationsStorage : KeyValueSchema :=
  mkSchema OperationKey OperationsForBlocksMessage_t operation_key_codec
    (bincode_codec OperationsForBlocksMessage_t) "operations_storage".

Definition store_operations (message : OperationsForBlocksMessage_t) : io DB () StorageError :=
  let ops := operations_for_block message in
  let key := mkOperationKey (operations_block_hash ops) (as_u8 (operations_validation_pass ops)) in
  err_into StorageDBError (kv_put OperationsStorage key message).

Definition get_stored (key : OperationKey) (db : DB)
    : result (option OperationsForBlocksMessage_t) StorageError :=
  map_err StorageDBError (kv_get OperationsStorage key db).

Fixpoint collect_values
    (entries : list (result OperationKey SchemaError * result OperationsForBlocksMessage_t SchemaError))
    : result (list OperationsForBlocksMessage_t) StorageError :=
  match entries with
  | [] => Ok []
  | (_, value) :: entries =>
      let? v := map_err (λ e, StorageDBError (DBSchemaError e)) value in
      let? rest := collect_values entries in
      Ok (v :: rest)
  end.

Definition pass_of (message : OperationsForBlocksMessage_t) : Z :=
  operations_validation_pass (operations_for_block message).

(** [sort_by_key] *)
Definition pass_le (m m' : OperationsForBlocksMessage_t) : Prop := pass_of m ≤ pass_of m'.
#[export] Instance pass_le_dec : RelDecision pass_le.
Proof. intros m m'. unfold pass_le. apply _. Defined.

Definition get_operations (block_hash : bytes) (db : DB)
    : result (list OperationsForBlocksMessage_t) StorageError :=
  let key := mkOperationKey block_hash 0 in
  let? entries := map_err StorageDBError (kv_prefix_iterator OperationsStorage key db) in
  let? operations := collect_values entries in
  Ok (merge_sort pass_le operations).

End Storage.

(** ** The table *)

Definition operation_key_ok (k : OperationKey) : Prop :=
  hash_ok BlockHash (key_block_hash k) ∧ 0 ≤ key_validation_pass k < 256.

#[export] Instance operation_key_codec_laws : CodecLaws OperationKey operation_key_ok.
Proof.
  constructor. intros [h p] [Hh Hp]. unfold hash_ok in Hh. cbn [key_block_hash key_validation_pass] in *.
  exists (h ++ [p]). split; [done|]. cbn [decode operation_key_codec]. unfold operation_key_decode.
  assert (len (h ++ [p]) = size BlockHash + 1) as El by (rewrite len_app, Hh; done).
  rewrite decide_False by lia.
  assert (slice (h ++ [p]) 0 (size BlockHash) = Some h) as ->.
  { unfold slice. rewrite decide_True by (rewrite El; unfold size; lia). f_equal.
    apply take_app_length'. unfold len in Hh. lia. }
  cbn [ok_or]. unfold try_from_bytes. rewrite decide_True by done. cbn [map_err].
  assert ((h ++ [p]) !! Z.to_nat (size BlockHash) = Some p) as ->; [|done].
  apply list_lookup_middle. unfold len in Hh. lia.
Qed.

Section Table.
Context `{RocksDbLaws cfs, BincodeLaws OperationsForBlocksMessage_t message_ok}.
Context (Hopen : operations_storage_descriptor ∈ cfs).

#[local] Instance operations_table : Table cfs OperationsStorage operation_key_ok message_ok.
Proof.
  split; [by exists operations_storage_descriptor|apply operation_key_codec_laws|by apply bincode_codec_laws].
Qed.

(** The key of a message. *)
Definition message_key (m : OperationsForBlocksMessage_t) : OperationKey :=
  mkOperationKey (operations_block_hash (operations_for_block m)) (as_u8 (pass_of m)).

(** The table holds [T], each message under its key; a pass is an [i8]. *)
Definition operations_are (db : DB) (T : gmap OperationKey OperationsForBlocksMessage_t) : Prop :=
  table_is OperationsStorage operation_key_ok db T ∧
  map_Forall (λ k m, message_key m = k ∧ int_range 8 (pass_of m)) T.

Lemma store_operations_ok db T m :
  operations_are db T → message_ok m → hash_ok BlockHash (operations_block_hash (operations_for_block m)) →
  int_range 8 (pass_of m) →
  ∃ db', store_operations m db = (db', Ok ()) ∧ operations_are db' (<[message_key m := m]> T) ∧
    ∀ n' kb, n' ≠ "operations_storage"%string → get_cf db' n' kb = get_cf db n' kb.
Proof.
  intros [HT Hk] Hm Hh Hp.
  destruct (table_is_put OperationsStorage db T (message_key m) m HT) as (db' & E & HT' & Hf); [|done|].
  { split; [done|]. apply Z.mod_pos_bound. lia. }
  exists db'. unfold store_operations, err_into. fold (pass_of m). fold (message_key m). rewrite E.
  split; [done|]. split; [|done]. split; [done|]. by apply map_Forall_insert_2.
Qed.

Lemma collect_values_ok (l : list (OperationKey * OperationsForBlocksMessage_t)) :
  collect_values (map (λ e, (Ok e.1, Ok e.2)) l) = Ok l.*2.
Proof. induction l as [|e l IH]; [done|]. cbn. by rewrite IH. Qed.

Lemma key_bytes_is k : key_bytes OperationsStorage k = key_block_hash k ++ [key_validation_pass k].
Proof. done. Qed.

(** The entries that the iteration over a block sees. *)
Lemma block_entries db T h :
  table_is OperationsStorage operation_key_ok db T → hash_ok BlockHash h →
  ∃ l, kv_prefix_iterator OperationsStorage (mkOperationKey h 0) db = Ok (map (λ e, (Ok e.1, Ok e.2)) l) ∧
    NoDup l.*1 ∧ ∀ k m, (k, m) ∈ l ↔ T !! k = Some m ∧ key_block_hash k = h.
Proof.
  intros HT Hh. destruct (table_is_prefix OperationsStorage db T operations_storage_descriptor
    (Z.to_nat (size BlockHash)) (mkOperationKey h 0) HT Hopen) as (l & E & Hnd & Hin); [done|done|done| |].
  { intros k [Hk _]. rewrite key_bytes_is, length_app. cbn [length]. unfold hash_ok, len in Hk. lia. }
  exists l. split; [done|]. split; [done|]. intros k m. rewrite Hin, !key_bytes_is.
  cbn [key_block_hash key_validation_pass]. destruct HT as (_ & _ & Hkeys). split.
  - intros (Tm & _ & Et). split; [done|]. destruct (Hkeys _ _ Tm) as [Hk _]. unfold hash_ok, len in *.
    rewrite !take_app_length' in Et by lia. done.
  - intros [Tm <-]. split; [done|]. destruct (Hkeys _ _ Tm) as [Hk Hp]. unfold hash_ok, len in *.
    split; [|by rewrite !take_app_length' by lia]. apply bytes_le_app. cbn. lia.
Qed.

Lemma sorted_strictly (l : list OperationsForBlocksMessage_t) :
  NoDup (pass_of <$> l) → Sorted pass_le l → Sorted (λ m m', pass_of m < pass_of m') l.
Proof.
  intros Hnd Hs. induction Hs as [|m l Hs IH Hm]; [constructor|]. cbn in Hnd. apply NoDup_cons in Hnd as [Hn Hnd].
  constructor; [by apply IH|]. destruct Hm as [|m' l Hle]; constructor. unfold pass_le in Hle.
  assert (pass_of m ≠ pass_of m') by (intros E; apply Hn; rewrite E; left). lia.
Qed.

(** The operations of a block: [get_operations] returns exactly the messages that
    were stored for the block, each once, sorted by validation pass (as an [i8]). *)
Lemma get_operations_ok db T h :
  operations_are db T → hash_ok BlockHash h →
  ∃ l, get_operations h db = Ok l ∧ Sorted (λ m m', pass_of m < pass_of m') l ∧
    ∀ m, m ∈ l ↔ ∃ p, T !! mkOperationKey h p = Some m.
Proof.
  intros [HT Hk] Hh. destruct (block_entries db T h HT Hh) as (l & E & Hnd & Hin).
  exists (merge_sort pass_le l.*2). unfold get_operations. rewrite E. cbn [map_err].
  rewrite collect_values_ok. split; [done|]. split.
  - apply sorted_strictly; [|apply Sorted_merge_sort; intros m m'; unfold pass_le; lia].
    rewrite merge_sort_Permutation. rewrite <- list_fmap_compose.
    assert (∀ k m, (k, m) ∈ l → k = message_key m ∧ key_block_hash k = h ∧ int_range 8 (pass_of m)) as Hmk.
    { intros k m [Tm Ek]%Hin. destruct (Hk k m Tm) as [<- Hr]. done. }
    clear -Hnd Hmk. induction l as [|[k m] l IH]; [constructor|]. cbn in *. apply NoDup_cons in Hnd as [Hn Hnd].
    apply NoDup_cons. split; [|apply IH; [done|]; intros k' m' Hin; apply Hmk; by right].
    intros Hin. apply Hn. apply list_elem_of_fmap in Hin as ([k' m'] & Ep & Hin). cbn in Ep.
    apply list_elem_of_fmap. exists (k', m'). split; [|done]. cbn.
    destruct (Hmk k m) as (-> & E1 & _); [left|]. destruct (Hmk k' m') as (-> & E2 & _); [by right|].
    unfold message_key in *. cbn in E1, E2. by rewrite E1, E2, Ep.
  - intros m. rewrite merge_sort_Permutation, list_elem_of_fmap. split.
    + intros ([k m'] & -> & [Tm <-]%Hin). exists (key_validation_pass k). by destruct k.
    + intros (p & Tm). exists (mkOperationKey h p, m). split; [done|]. by apply Hin.
Qed.

End Table.
