(* ===== verification/ChainState.v ===== *)
(** * The state of the chain

    [shell/src/state/chain_state.rs]: which branches and heads are accepted, what is
    stored of received headers and operations, what is left to download of a branch,
    and the history that is sent to peers.  The handlers for received headers and
    operations are those of [shell/src/chain_manager.rs]. *)

From stdpp Require Import gmap.
From S2P Require Import Prelude Hash Kv Blocks BlockMeta Predecessors OperationsMeta BlockStorage ChainMeta StorageOps SeededStep Fitness Prevalidator Validation ShellState Requester OperationsStorage.

(** What the bootstrapper of branches is told. *)
Inductive BootstrapperMessage :=
| UpdateBlockState (block_hash : bytes) (applied operations_downloaded : bool)
| UpdateOperationsState (block_hash : bytes).

Section ChainState.
Context `{RocksDb, CommitLogLib, Timestamps}.
Context `{Bincode BlockStorageColumn, Bincode BlockStorageColumnsLocation, Bincode PredecessorKey}.
Context `{Bincode BlockAdditionalData, Bincode OperationsForBlocksMessage_t}.

(** ** Heads and branches *)

Inductive BlockAcceptanceResult :=
| AcceptBlock
| IgnoreBlock
| UnknownBranchBlock
| MutlipassValidationError (error : ProtocolServiceError).

(** The branch of a peer: the chain, its head and its history. *)
Definition can_accept_branch (chain_id branch_chain_id : bytes) (branch_head : BlockHeader_t)
    (current_head : option Head) : bool :=
  if decide (chain_id ≠ branch_chain_id) then false
  else if decide (header_level branch_head ≤ 0) then false
  else
    match current_head with
    | Some current_head => is_fitness_increases current_head (header_fitness branch_head)
    | None => true
    end.

Definition resolve_protocol (validated_header : BlockHeader_t) (current_head : Head) (s : Persistent)
    : result (option bytes * option BlockHeaderWithHash * bool) StateError :=
  let predecessor := header_predecessor validated_header in
  let? predecessor_meta := map_err StateStorageError (BlockMeta.get predecessor (db s)) in
  let? (protocol_hash, predecessor_header, missing_predecessor) :=
    match predecessor_meta with
    | Some predecessor_meta =>
        if is_applied predecessor_meta then
          let? additional := map_err StateStorageError (get_additional_data predecessor (db s)) in
          match additional with
          | Some predecessor_additional_data =>
              let? predecessor_header := map_err StateStorageError (BlockStorage.get predecessor s) in
              match predecessor_header with
              | Some predecessor_header =>
                  Ok (Some (next_protocol_hash predecessor_additional_data), Some predecessor_header, false)
              | None => Ok (Some (next_protocol_hash predecessor_additional_data), None, true)
              end
          | None => Err (ProcessingError "Missing data for applied predecessor")
          end
        else Ok (None, None, false)
    | None => Ok (None, None, true)
    end in
  match protocol_hash with
  | Some _ => Ok (protocol_hash, predecessor_header, missing_predecessor)
  | None =>
      let? current_head_header := map_err StateStorageError (BlockStorage.get (block_hash current_head) s) in
      match current_head_header with
      | Some current_head_header =>
          if decide (proto (header current_head_header) = proto validated_header) then
            let? metadata := map_err StateStorageError (get_additional_data (block_hash current_head) (db s)) in
            match metadata with
            | Some metadata => Ok (Some (next_protocol_hash metadata), predecessor_header, missing_predecessor)
            | None => Err (ProcessingError "Missing `next_protocol` attribute for applied predecessor")
            end
          else Ok (None, predecessor_header, missing_predecessor)
      | None => Err (ProcessingError "Missing data for applied current_head")
      end
  end.

(** [message_hash] is the hash of the received header; [None] is a panic of
    [is_future_block]. *)
Definition can_accept_head (chain_id head_chain_id : bytes) (validated_header : BlockHeader_t)
    (message_hash : result bytes string) (current_head : option Head) (now : Z) (api : ProtocolController)
    (s : Persistent) : option (result BlockAcceptanceResult StateError) :=
  if decide (chain_id ≠ head_chain_id) then Some (Ok IgnoreBlock)
  else if decide (header_level validated_header ≤ 0) then Some (Ok IgnoreBlock)
  else
    match current_head with
    | None => Some (Ok IgnoreBlock)
    | Some current_head =>
        match is_same_head current_head validated_header message_hash with
        | Err e => Some (Err (ProcessingError e))
        | Ok true => Some (Ok AcceptBlock)
        | Ok false =>
            match is_future_block now validated_header with
            | None => None
            | Some true => Some (Ok IgnoreBlock)
            | Some false =>
                if negb (is_fitness_increases_or_same current_head (header_fitness validated_header))
                then Some (Ok IgnoreBlock)
                else
                  Some
                    (let? (protocol_hash, predecessor_header, missing_predecessor) :=
                       resolve_protocol validated_header current_head s in
                     if (missing_predecessor : bool) then Ok UnknownBranchBlock
                     else
                       match protocol_hash with
                       | Some protocol_hash =>
                           match check_multipass_validation head_chain_id protocol_hash validated_header
                                   predecessor_header api with
                           | Some error => Ok (MutlipassValidationError error)
                           | None => Ok AcceptBlock
                           end
                       | None => Ok UnknownBranchBlock
                       end)
            end
        end
    end.

(** ** What is left to download of a branch *)

(** The history with the predecessor and the block itself, newest first. *)
Definition branch_history (block_header : BlockHeaderWithHash) (history : list bytes) : list bytes :=
  let history :=
    if decide (header_predecessor (header block_header) ∈ history) then history
    else header_predecessor (header block_header) :: history in
  if decide (hash block_header ∈ history) then history else hash block_header :: history.

Definition known_as_applied (db : DB) (b : bytes) : bool :=
  match BlockMeta.get b db with Ok (Some metadata) => is_applied metadata | _ => false end.

(** The last index with an applied block. *)
Fixpoint last_applied_index (idx : nat) (applied : list (bytes * bool)) (found : option nat) : option nat :=
  match applied with
  | [] => found
  | (_, is_applied) :: applied => last_applied_index (S idx) applied (if is_applied then Some idx else found)
  end.

(** The block to start from, and the history after it, oldest first. *)
Definition missing_history (chain_genesis_block_hash : bytes) (block_header : BlockHeaderWithHash)
    (history : list bytes) (db : DB) : bytes * list bytes :=
  let locator := map (λ b, (b, known_as_applied db b)) (rev (branch_history block_header history)) in
  match last_applied_index 0 locator None with
  | Some last_applied_idx =>
      match locator !! last_applied_idx with
      | Some (last_applied, _) => (last_applied, drop (S last_applied_idx) locator.*1)
      | None => (chain_genesis_block_hash, locator.*1)
      end
  | None => (chain_genesis_block_hash, locator.*1)
  end.

Record StartBranchBootstraping := mkStartBranchBootstraping {
  start_last_applied_block : bytes;
  start_missing_history : list bytes;
  start_to_level : Z
}.

(** The message to the bootstrapper, if there is something to download. *)
Definition schedule_history_bootstrap (chain_genesis_block_hash : bytes) (block_header : BlockHeaderWithHash)
    (history : list bytes) (db : DB) : option StartBranchBootstraping :=
  let '(last_applied_block, missing) := missing_history chain_genesis_block_hash block_header history db in
  match missing with
  | [] => None
  | _ => Some (mkStartBranchBootstraping last_applied_block missing (header_level (header block_header)))
  end.

(** ** Received headers and operations *)

Definition process_block_header_operations (block_header : BlockHeaderWithHash)
    : io DB (bool * option (gset Z)) StorageError :=
  do? meta := reads_state (OperationsMeta.get (hash block_header)) in
  match meta with
  | Some meta => ret (is_complete meta, get_missing_validation_passes meta)
  | None => OperationsMeta.put_block_header block_header
  end.

Definition process_injected_block_header_operations (block_header : BlockHeaderWithHash)
    : io DB bool StorageError :=
  do? meta := reads_state (OperationsMeta.get (hash block_header)) in
  match meta with
  | Some meta => ret (is_complete meta)
  | None =>
      do? (is_complete, _) := OperationsMeta.put_block_header block_header in
      ret is_complete
  end.

(** Returns true, if it is a new block, and what the bootstrapper is told, if there
    is one. *)
Definition process_block_header_from_peer (chain_id : bytes) (received_block : BlockHeaderWithHash)
    : io Persistent (bool * BootstrapperMessage) StorageError :=
  do? is_new_block := BlockStorage.put_block_header received_block in
  do? block_metadata := in_db (BlockMeta.put_block_header received_block chain_id) in
  do? (are_operations_complete, _) := in_db (process_block_header_operations received_block) in
  ret (is_new_block, UpdateBlockState (hash received_block) (is_applied block_metadata) are_operations_complete).

Definition process_injected_block_header (chain_id : bytes) (block_header : BlockHeaderWithHash)
    : io Persistent (BlockMeta.Meta * bool * bool) StorageError :=
  do? is_new_block := BlockStorage.put_block_header block_header in
  do? metadata := in_db (BlockMeta.put_block_header block_header chain_id) in
  do? are_operations_complete := in_db (process_injected_block_header_operations block_header) in
  ret (metadata, is_new_block, are_operations_complete).

Definition process_block_operations (message : OperationsForBlocksMessage_t)
    : io DB (bool * option (gset Z)) StorageError :=
  let ops := operations_for_block message in
  do? complete := reads_state (operations_complete (operations_block_hash ops)) in
  if complete then ret (true, None)
  else
    do? _ := store_operations message in
    put_operations ops.

(** Returns true, if the block is complete by this call. *)
Definition process_block_operations_from_peer (message : OperationsForBlocksMessage_t)
    : io DB (bool * option BootstrapperMessage) StorageError :=
  let block_hash := operations_block_hash (operations_for_block message) in
  do? complete := reads_state (operations_complete block_hash) in
  do? (are_operations_complete, was_block_finished_now) :=
    (if complete then ret (true, false)
     else
       do? (are_operations_complete, _) := process_block_operations message in
       ret (are_operations_complete, are_operations_complete)) in
  ret (was_block_finished_now,
       if are_operations_complete then Some (UpdateOperationsState block_hash) else None).

(** ** The history of a block *)

Definition HISTORY_MAX_SIZE : Z := 200.

(** The caboose closes a history that reached the end of the chain. *)
Definition close_history (caboose : option Head) (current_block_hash : bytes) (history : list bytes) : list bytes :=
  match caboose with
  | Some caboose =>
      match last history with
      | Some last => if decide (last = block_hash caboose) then history else history ++ [block_hash caboose]
      | None =>
          if decide (current_block_hash = block_hash caboose) then history else history ++ [block_hash caboose]
      end
  | None => history
  end.

(** [None] if a search for a block does not end. *)
Fixpoint history_loop `{Base58Lib} (counter : nat) (step : Step) (caboose : option Head)
    (current_block_hash : bytes) (history : list bytes) (db : DB)
    : option (result (list bytes) StorageError) :=
  match counter with
  | O => Some (Ok history)
  | S counter =>
      let '(distance, step) := next step in
      match find_block_at_distance current_block_hash distance db with
      | None => None
      | Some (Err e) => Some (Err e)
      | Some (Ok (Some predecessor)) =>
          history_loop counter step caboose predecessor (history ++ [predecessor]) db
      | Some (Ok None) => Some (Ok (close_history caboose current_block_hash history))
      end
  end.

(** [max_size] is a [u8]. *)
Definition compute_history `{Base58Lib} (caboose : option Head) (head : bytes) (max_size : Z) (seed : Seed)
    (db : DB) : option (result (list bytes) StorageError) :=
  if decide (max_size = 0) then Some (Ok [])
  else history_loop (Z.to_nat max_size) (init seed head) caboose head [] db.

Definition get_history `{Base58Lib, Bincode MetadataValue} (chain_id head : bytes) (seed : Seed) (db : DB)
    : option (result (list bytes) StorageError) :=
  match get_caboose chain_id db with
  | Err e => Some (Err e)
  | Ok caboose => compute_history caboose head HISTORY_MAX_SIZE seed db
  end.

(** ** Messages of peers *)

(** The connected peers and the storages. *)
Record Node := mkNode { node_peers : gmap string PeerState; node_storage : Persistent }.

Definition set_peer (id : string) (peer : PeerState) (node : Node) : Node :=
  mkNode (<[id := peer]> (node_peers node)) (node_storage node).

Definition update_queues (peer : PeerState) (f : DataQueues → DataQueues) : PeerState :=
  set_queues peer (f (queues peer)) (message_stats peer).

(** [PeerMessage::BlockHeader].  The lock is dropped also if the storage fails. *)
Definition receive_block_header (chain_id : bytes) (id : string) (b : BlockHeaderWithHash) (node : Node)
    : Node * result (option BootstrapperMessage) StorageError :=
  match node_peers node !! id with
  | None => (node, Ok None)
  | Some peer =>
      let '(peer, lock) := block_header_received (hash b) peer in
      match lock with
      | None => (set_peer id peer node, Ok None)
      | Some lock =>
          let '(s, r) := process_block_header_from_peer chain_id b (node_storage node) in
          (mkNode (<[id := update_queues peer (drop_block_lock lock)]> (node_peers node)) s,
           let? (_, message) := r in Ok (Some message))
      end
  end.

(** [PeerMessage::OperationsForBlocks].  Returns the level that is announced if the
    block is complete now. *)
Definition receive_operations (id : string) (message : OperationsForBlocksMessage_t) (node : Node)
    : Node * result (option Z * option BootstrapperMessage) StorageError :=
  match node_peers node !! id with
  | None => (node, Ok (None, None))
  | Some peer =>
      let '(peer, lock) := block_operations_received (operations_for_block message) peer in
      match lock with
      | None => (set_peer id peer node, Ok (None, None))
      | Some lock =>
          let '(s, r) := in_db (process_block_operations_from_peer message) (node_storage node) in
          (mkNode (<[id := update_queues peer (drop_operation_lock lock)]> (node_peers node)) s,
           let? (finished, told) := r in
           if (finished : bool) then
             let? block_meta := BlockMeta.get (operations_block_hash (operations_for_block message)) (db s) in
             let? block_meta := ok_or block_meta MissingKey in
             Ok (Some (level block_meta), told)
           else Ok (None, told))
      end
  end.

End ChainState.
