(* ===== verification/Downloads.v ===== *)
(** * Downloads

    The operations of blocks, from the request to the complete block: the steps of
    the node that concern them, over any number of peers that may send anything, and
    the invariant that connects the queues of the peers with the storages. *)

From stdpp Require Import gmap sorting.
From S2P Require Import Prelude Hash Kv Blocks BlockMeta Predecessors OperationsMeta BlockStorage ChainMeta StorageOps SeededStep Fitness Prevalidator Validation ShellState Requester OperationsStorage ChainState.

(** ** Passes *)

Lemma as_u8_as_i8 v : 0 ≤ v < 256 → as_u8 (as_i8 v) = v.
Proof.
  intros Hv. unfold as_u8, as_i8, to_signed. rewrite (Z.mod_small v) by lia. case_decide; [by rewrite Z.mod_small|].
  change (2 ^ 8) with 256. rewrite <- (Z.mod_unique (v - 256) 256 (-1) v); lia.
Qed.

Lemma as_i8_range v : int_range 8 (as_i8 v).
Proof.
  unfold as_i8, to_signed, int_range. pose proof (Z.mod_pos_bound v 256 ltac:(lia)).
  change (2 ^ (8 - 1)) with 128. change (2 ^ 8) with 256. case_decide; lia.
Qed.

Lemma as_u8_inj p q : int_range 8 p → int_range 8 q → as_u8 p = as_u8 q → p = q.
Proof.
  unfold int_range, as_u8. change (2 ^ (8 - 1)) with 128. intros Hp Hq E.
  pose proof (Z.div_mod p 256 ltac:(lia)). pose proof (Z.div_mod q 256 ltac:(lia)).
  pose proof (Z.mod_pos_bound p 256 ltac:(lia)). pose proof (Z.mod_pos_bound q 256 ltac:(lia)). nia.
Qed.

Section Downloads.
Context `{RocksDbLaws cfs, CommitLogLib}.
Context `{Bincode BlockStorageColumn, Bincode BlockStorageColumnsLocation}.
Context `{BincodeLaws OperationsForBlocksMessage_t message_ok}.
Context (Hmeta : block_meta_descriptor ∈ cfs) (Hops : operations_meta_descriptor ∈ cfs).
Context (Hmsg : operations_storage_descriptor ∈ cfs).
Context (Hblocks : block_storage_families ⊆ cfs).

(** ** Frames *)

Lemma block_meta_put_frames may h m : may "block_meta_storage"%string → frames id may (BlockMeta.put h m).
Proof.
  intros Hm. apply frames_err.
  by apply (kv_merge_frames BlockMetaStorage block_meta_descriptor Hmeta eq_refl may Hm BlockMeta.merge_meta_value).
Qed.

Lemma block_meta_header_frames may b c :
  may "block_meta_storage"%string → frames id may (BlockMeta.put_block_header b c).
Proof.
  intros Hm. pose proof (block_meta_put_frames may) as Hput. unfold BlockMeta.put_block_header.
  apply frames_bind; [|intros m; apply frames_bind; [|auto with frames]].
  - apply frames_bind; [auto with frames|]. intros [m|].
    + destruct (BlockMeta.predecessor m); [auto with frames|]. apply frames_bind; auto with frames.
    + apply frames_bind; auto with frames.
  - apply frames_bind; [auto with frames|]. intros [m'|]; [|auto with frames].
    destruct (_ || _); cbv zeta; [by apply Hput|apply frames_ret].
Qed.

Definition block_tables (n : string) : Prop :=
  n ∈ ["block_storage"; "block_by_level_storage"; "block_by_context_hash_storage"]%string.

Lemma on_db_frames {A E} may (f : E → StorageError) (op : io DB A E) :
  frames id may op → frames BlockStorage.db may (BlockStorage.on_db f op).
Proof.
  intros Ho s n kb Hn. pose proof (Ho (BlockStorage.db s) n kb Hn) as E'. unfold BlockStorage.on_db.
  by destruct (op (BlockStorage.db s)).
Qed.

Lemma block_storage_frames b : frames BlockStorage.db block_tables (BlockStorage.put_block_header b).
Proof.
  unfold BlockStorage.put_block_header. apply frames_bind; [auto with frames|]. intros [|]; [auto with frames|].
  apply frames_bind.
  - unfold clog_append, on_logs. intros s n kb Hn. by destruct (log_append _ _).
  - intros loc. apply frames_both; [|auto with frames]. apply frames_both; apply on_db_frames.
    + apply (kv_put_frames BlockPrimaryIndex (mkColumnFamily "block_storage" None)); [|done|left].
      apply Hblocks. left.
    + apply (kv_put_frames BlockByLevelIndex (mkColumnFamily "block_by_level_storage" None)); [|done|right; left].
      apply Hblocks. right. left.
Qed.

(** ** The storages of one block *)

Lemma operations_are_frame db db' T :
  (∀ kb, get_cf db' "operations_storage" kb = get_cf db "operations_storage" kb) →
  operations_are db T → operations_are db' T.
Proof.
  intros Hf [HT Hk]. split; [|done]. pose proof (operations_table Hmsg).
  by apply (table_is_frame OperationsStorage db).
Qed.

(** The operations of a message are stored and marked, unless the block is complete. *)
Lemma process_operations_ok T db m n P :
  let h := operations_block_hash (operations_for_block m) in
  let p := as_u8 (pass_of m) in
  operations_are db T → arrived db h n P → 0 ≤ n ≤ 255 → p < n →
  message_ok m → hash_ok BlockHash h → int_range 8 (pass_of m) →
  ∃ db' finished told T' P',
    process_block_operations_from_peer m db = (db', Ok (finished, told)) ∧
    operations_are db' T' ∧ arrived db' h n P' ∧
    ((T' = T ∧ P' = P ∧ all_present n P = true ∧ finished = false) ∨
     (T' = <[message_key m := m]> T ∧ P' = P ∪ {[p]} ∧ all_present n P = false ∧
      finished = all_present n P')) ∧
    ∀ n' kb, n' ≠ "operations_storage"%string → ¬ (n' = "operations_meta_storage"%string ∧ kb = h) →
      get_cf db' n' kb = get_cf db n' kb.
Proof.
  intros h p HT Ha Hn Hp Hm Hh Hr. unfold process_block_operations_from_peer, reads_state. fold h.
  assert (∀ db, arrived db h n P → operations_complete h db = Ok (all_present n P)) as Hcomplete.
  { intros db1 Ha1. unfold operations_complete. by rewrite (get_arrived Hops db1 h n P) by (done || lia). }
  rewrite (Hcomplete db Ha). destruct (all_present n P) eqn:Ec; cbn [ret].
  { eexists db, false, _, T, P. split; [done|]. do 2 (split; [done|]). split; [by left|done]. }
  unfold process_block_operations, reads_state. fold h. rewrite (Hcomplete db Ha). cbn [negb].
  destruct (store_operations_ok Hmsg db T m HT Hm Hh Hr) as (db1 & E1 & HT1 & Hf1). rewrite E1.
  assert (arrived db1 h n P) as Ha1 by (unfold arrived; by rewrite Hf1).
  destruct (put_pass_arrived Hops db1 h n P (operations_for_block m) Hn Ha1 eq_refl Hp) as (db2 & E2 & Ha2 & Hf2).
  fold (pass_of m) p in E2, Ha2, Hf2. rewrite E2.
  assert (operations_are db2 (<[message_key m := m]> T)) as HT2.
  { apply (operations_are_frame db1); [|done]. intros kb. apply Hf2. by intros [[=] _]. }
  assert ((OperationsMeta.report n (P ∪ {[p]})).1 = all_present n (P ∪ {[p]})) as Erep
    by (unfold OperationsMeta.report; by destruct (all_present n (P ∪ {[p]}))).
  destruct (OperationsMeta.report n (P ∪ {[p]})) as [fin missing]. cbn in Erep. subst fin. cbn [ret].
  eexists db2, _, _, _, _. split; [done|]. split; [exact HT2|]. split; [exact Ha2|].
  split; [by right|]. intros n' kb N1 N2. rewrite Hf2 by done. by apply Hf1.
Qed.

(** ** The invariant *)

(** A block without header has no operations.  Otherwise the record of the block
    names exactly the passes with stored operations. *)
Definition block_downloads (T : gmap OperationKey OperationsForBlocksMessage_t) (M : gmap bytes BlockMeta.Meta)
    (db : DB) (h : bytes) : Prop :=
  (get_cf db "operations_meta_storage" h = Ok None ∧ ∀ p, T !! mkOperationKey h p = None) ∨
  ∃ n P, arrived db h n P ∧ 0 ≤ n ≤ 255 ∧ is_Some (M !! h) ∧ (∀ p, p ∈ P → 0 ≤ p < n) ∧
    ∀ p, is_Some (T !! mkOperationKey h p) ↔ p ∈ P.

Definition downloads_ok (k : Z) (T : gmap OperationKey OperationsForBlocksMessage_t)
    (M : gmap bytes BlockMeta.Meta) (db : DB) : Prop :=
  operations_are db T ∧ BlockMeta.holds db M ∧ records_ok k M ∧
  ∀ h, hash_ok BlockHash h → block_downloads T M db h.

(** The queues are within their limits, and only passes that the block has are asked
    for. *)
Definition queued_ok (db : DB) (q : DataQueues) : Prop :=
  queues_ok q ∧ map_Forall (λ h e, hash_ok BlockHash h ∧ ∃ n P, arrived db h n P ∧ 0 ≤ n ≤ 255 ∧
    ∀ p, p ∈ e.1 → int_range 8 p ∧ as_u8 p < n) (queued_block_operations q).

Definition node_ok (k : Z) (node : Node) : Prop :=
  (∃ T M, downloads_ok k T M (db (node_storage node))) ∧
  map_Forall (λ _ peer, queued_ok (db (node_storage node)) (queues peer)) (node_peers node).

(** The passes of a block are never forgotten. *)
Definition keeps_arrived (db db' : DB) : Prop :=
  ∀ h n P, arrived db h n P → ∃ P', arrived db' h n P'.

Lemma queued_ok_keep db db' q : keeps_arrived db db' → queued_ok db q → queued_ok db' q.
Proof.
  intros Hk [Hl Hq]. split; [done|]. intros h e E. destruct (Hq h e E) as (Hh & n & P & Ha & Hn & Hp). split; [done|].
  destruct (Hk h n P Ha) as [P' Ha']. by exists n, P'.
Qed.

Definition download_tables : list string :=
  ["operations_meta_storage"; "operations_storage"; "block_meta_storage"]%string.

Lemma downloads_ok_frame k T M db db' :
  (∀ n kb, n ∈ download_tables → get_cf db' n kb = get_cf db n kb) →
  downloads_ok k T M db → downloads_ok k T M db'.
Proof.
  intros Hf (HT & HM & Hr & Hb). split; [|split; [|split; [done|]]].
  - apply (operations_are_frame db); [|done]. intros kb. apply Hf. right. left.
  - intros h Hh. destruct (HM h Hh) as (val & E & Hs). exists val. split; [|done].
    rewrite <- E. apply Hf. right. right. left.
  - intros h Hh. assert (∀ r, get_cf db "operations_meta_storage" h = r →
      get_cf db' "operations_meta_storage" h = r) as Hm by (intros r <-; apply Hf; left).
    destruct (Hb h Hh) as [[E HTn]|(n & P & Ha & Hrest)]; [left|right; exists n, P]; (split; [by apply Hm|done]).
Qed.

Lemma block_downloads_arrived T M db h n P :
  block_downloads T M db h → arrived db h n P →
  ∃ P', arrived db h n P' ∧ 0 ≤ n ≤ 255 ∧ is_Some (M !! h) ∧ (∀ p, p ∈ P' → 0 ≤ p < n) ∧
    ∀ p, is_Some (T !! mkOperationKey h p) ↔ p ∈ P'.
Proof.
  unfold arrived. intros [[E _]|(n' & P' & Ha' & Hrest)] Ha; [congruence|].
  assert (n' = n) as -> by (unfold arrived in Ha'; unfold record_bytes in *; congruence).
  by exists P'.
Qed.

(** ** The steps *)

Lemma keeps_arrived_frame db db' :
  (∀ kb, get_cf db' "operations_meta_storage" kb = get_cf db "operations_meta_storage" kb) → keeps_arrived db db'.
Proof. intros Hf h n P Ha. exists P. unfold arrived. by rewrite Hf. Qed.

Lemma records_after_mono M b c h : is_Some (M !! h) → is_Some (records_after M b c !! h).
Proof. intros Hh. unfold records_after. rewrite !lookup_insert_is_Some'. by right; right. Qed.

Lemma header_record_ok k T M db chain_id b :
  0 ≤ k → k + 1 < 2 ^ 64 → downloads_ok k T M db → header_ok b → hash_ok ChainId chain_id →
  ∃ db', BlockMeta.put_block_header b chain_id db = (db', Ok (own_record M b chain_id)) ∧
    downloads_ok (k + 1) T (records_after M b chain_id) db' ∧ keeps_arrived db db'.
Proof.
  intros Hk Hk1 (HT & HM & Hr & Hbl) Hb Hc.
  destruct (meta_put_block_header_holds Hmeta k db M b chain_id) as (db' & E & HM' & Hr'); [done..|].
  pose proof (block_meta_header_frames (eq "block_meta_storage"%string) b chain_id eq_refl db) as Hf.
  rewrite E in Hf. cbn [fst] in Hf. unfold id in Hf.
  exists db'. split; [done|]. split; [|by apply keeps_arrived_frame; intros kb; apply Hf].
  split; [by apply (operations_are_frame db); [intros kb; apply Hf|]|]. do 2 (split; [done|]).
  intros h Hh. unfold block_downloads, arrived. rewrite Hf by done.
  destruct (Hbl h Hh) as [?|(n & P & Ha & Hn & HMh & Hrest)]; [by left|right].
  exists n, P. do 2 (split; [done|]). split; [by apply records_after_mono|done].
Qed.

Lemma header_operations_ok k T M db b :
  downloads_ok k T M db → hash_ok BlockHash (hash b) → is_Some (M !! hash b) →
  0 ≤ validation_pass (header b) ≤ 255 →
  ∃ db' r, process_block_header_operations b db = (db', Ok r) ∧ downloads_ok k T M db' ∧ keeps_arrived db db'.
Proof.
  intros (HT & HM & Hr & Hbl) Hh HMh Hv. unfold process_block_header_operations, reads_state.
  destruct (Hbl _ Hh) as [[E HTn]|(n & P & Ha & Hn & _)].
  - rewrite (get_not_arrived Hops db (hash b) E).
    destruct (put_arrived Hops db (hash b) (validation_pass (header b)) None ∅ ∅) as (db' & E' & Ha' & Hf);
      [lia|done|by left|].
    unfold OperationsMeta.put_block_header, and_both, ret. rewrite meta_new_record, E' by lia.
    eexists db', _. split; [done|]. split.
    + split; [by apply (operations_are_frame db); [intros kb; apply Hf; by intros [[=] _]|]|].
      split; [|split; [done|]].
      * intros h Hh'. destruct (HM h Hh') as (val & Ev & Hs). exists val. split; [|done].
        rewrite <- Ev. apply Hf. by intros [[=] _].
      * intros h Hh'. destruct (decide (h = hash b)) as [->|Hne].
        -- right. exists (validation_pass (header b)), ∅. do 3 (split; [done|]). split; [set_solver|].
           intros p. rewrite HTn. split; [by intros []|set_solver].
        -- unfold block_downloads, arrived. rewrite Hf by (by intros [_ ?]). by apply Hbl.
    + intros h n P Ha. destruct (decide (h = hash b)) as [->|Hne]; [unfold arrived in Ha; congruence|].
      exists P. unfold arrived. by rewrite Hf by (by intros [_ ?]).
  - rewrite (get_arrived Hops db (hash b) n P) by (done || lia). eexists db, _. split; [done|]. split; [done|].
    by apply keeps_arrived_frame.
Qed.

(** A header from a peer.  The block storage may fail; the invariant holds in any case. *)
Lemma process_header_ok k T M s chain_id b :
  0 ≤ k → k + 1 < 2 ^ 64 → downloads_ok k T M (db s) → header_ok b → hash_ok ChainId chain_id →
  0 ≤ validation_pass (header b) ≤ 255 →
  let s' := (process_block_header_from_peer chain_id b s).1 in
  (∃ M', downloads_ok (k + 1) T M' (db s')) ∧ keeps_arrived (db s) (db s').
Proof.
  intros Hk Hk1 Hok Hb Hc Hv. unfold process_block_header_from_peer.
  pose proof (block_storage_frames b s) as Hf.
  assert (∀ n kb, n ∈ download_tables → get_cf (db (BlockStorage.put_block_header b s).1) n kb
    = get_cf (db s) n kb) as Hf'.
  { intros n kb Hn. apply Hf. clear -Hn. unfold block_tables, download_tables in *. set_solver. }
  pose proof (downloads_ok_frame k T M _ _ Hf' Hok) as Hok1.
  assert (keeps_arrived (db s) (db (BlockStorage.put_block_header b s).1)) as Hk0
    by (apply keeps_arrived_frame; intros kb; apply Hf'; left).
  destruct (BlockStorage.put_block_header b s) as [s1 [is_new|e]]; cbn [fst] in *; cycle 1.
  { split; [|done]. exists M. destruct Hok1 as (? & ? & Hr & ?). do 2 (split; [done|]). split; [|done].
    eapply records_ok_mono; [|done]. lia. }
  destruct (header_record_ok k T M (db s1) chain_id b) as (db2 & E2 & Hok2 & Hk2); [done..|].
  destruct (header_operations_ok (k + 1) T (records_after M b chain_id) db2 b) as (db3 & r & E3 & Hok3 & Hk3);
    [done|apply Hb| |done|].
  { unfold records_after. rewrite !lookup_insert_is_Some'. by right; left. }
  unfold in_db, BlockStorage.on_db. rewrite E2. cbn [map_err BlockStorage.db]. rewrite E3. destruct r.
  cbn [map_err id ret fst BlockStorage.db]. split; [by exists (records_after M b chain_id)|].
  intros h n P Ha. destruct (Hk0 h n P Ha) as [P1 Ha1]. destruct (Hk2 h n P1 Ha1) as [P2 Ha2]. by apply (Hk3 h n P2).
Qed.

(** Operations of a pass that the block has. *)
Lemma process_message_ok k T M db m n P :
  let h := operations_block_hash (operations_for_block m) in
  downloads_ok k T M db → hash_ok BlockHash h → message_ok m → int_range 8 (pass_of m) →
  arrived db h n P → as_u8 (pass_of m) < n →
  ∃ db' r T', process_block_operations_from_peer m db = (db', Ok r) ∧
    downloads_ok k T' M db' ∧ keeps_arrived db db' ∧ is_Some (M !! h).
Proof.
  intros h (HT & HM & Hr & Hbl) Hh Hm Hi Ha Hp. set (p := as_u8 (pass_of m)).
  assert (0 ≤ p) as Hp0 by (apply Z.mod_pos_bound; lia).
  destruct (block_downloads_arrived T M db h n P (Hbl h Hh) Ha) as (P1 & Ha1 & Hn & HMh & HP1 & HT1).
  destruct (process_operations_ok T db m n P1 HT Ha1 Hn Hp Hm Hh Hi)
    as (db' & fin & told & T' & P' & E & HT' & Ha' & Hcase & Hf). fold h p in Ha', Hcase, Hf.
  exists db', (fin, told), T'. split; [done|]. split; [|split; [|done]].
  - split; [done|]. split; [|split; [done|]].
    + intros h' Hh'. destruct (HM h' Hh') as (val & Ev & Hs). exists val. split; [|done].
      rewrite <- Ev. apply Hf; [done|by intros [[=] _]].
    + intros h' Hh'. destruct (decide (h' = h)) as [->|Hne].
      * right. exists n, P'. do 3 (split; [done|]). destruct Hcase as [(-> & -> & _)|(-> & -> & _)]; [done|].
        split; [intros q; rewrite elem_of_union, elem_of_singleton; intros [?| ->]; [by apply HP1|lia]|].
        intros q. rewrite lookup_insert_is_Some', HT1, elem_of_union, elem_of_singleton. unfold message_key.
        fold h p. split; [intros [[= ->]|?]; tauto|intros [?| ->]; tauto].
      * unfold block_downloads, arrived. rewrite Hf by (done || by intros [_ ?]).
        assert (∀ q, T' !! mkOperationKey h' q = T !! mkOperationKey h' q) as ET.
        { intros q. destruct Hcase as [(-> & _)|(-> & _)]; [done|]. apply lookup_insert_ne.
          unfold message_key. fold h. congruence. }
        destruct (Hbl h' Hh') as [[E' HTn]|(n' & P'' & Hrest)]; [left|right].
        -- split; [done|]. intros q. by rewrite ET.
        -- exists n', P''. repeat setoid_rewrite ET. done.
  - intros h' n' P'' Ha''. destruct (decide (h' = h)) as [->|Hne].
    + exists P'. assert (n' = n) as -> by (unfold arrived, record_bytes in *; congruence). done.
    + exists P''. unfold arrived. by rewrite Hf by (done || by intros [_ ?]).
Qed.

(** ** The queues *)

Lemma missing_of_ok k T M db h passes :
  downloads_ok k T M db → hash_ok BlockHash h → missing_of db h passes →
  ∃ n P, arrived db h n P ∧ 0 ≤ n ≤ 255 ∧ ∀ p, p ∈ passes → int_range 8 p ∧ as_u8 p < n.
Proof.
  intros (HT & HM & Hr & Hbl) Hh (m & X & E & Em & _ & ->).
  destruct (Hbl h Hh) as [[E' _]|(n & P & Ha & Hn & _)].
  { by rewrite (get_not_arrived Hops db h E') in E. }
  rewrite (get_arrived Hops db h n P) in E by (done || lia). injection E as <-.
  pose proof (f_equal snd (missing_record n P Hn)) as Er. cbn [snd] in Er. rewrite Er in Em.
  unfold OperationsMeta.report in Em.
  exists n, P. do 2 (split; [done|]). intros p (v & -> & Hv)%elem_of_map. split; [apply as_i8_range|].
  destruct (all_present n P); [done|]. injection Em as <-. apply elem_of_missing in Hv.
  rewrite as_u8_as_i8; lia.
Qed.

Lemma size_delete_le {A} (m : gmap bytes A) k : (base.size (delete k m) ≤ base.size m)%nat.
Proof. rewrite map_size_delete. destruct (m !! k); cbn; lia. Qed.

Lemma drop_operation_lock_ok db lock q : queued_ok db q → queued_ok db (drop_operation_lock lock q).
Proof.
  intros [Hl Hq]. unfold drop_operation_lock.
  destruct (queued_block_operations q !! lock_operation_block lock) as [[passes t]|] eqn:E; [|done].
  destruct Hl as [Hlh Hlo]. unfold queued_ok, queues_ok.
  cbn [set_queued_operations queued_block_operations queued_block_headers limits]. case_decide.
  - split; [|by apply map_Forall_delete]. split; [done|].
    pose proof (size_delete_le (queued_block_operations q) (lock_operation_block lock)). lia.
  - split; [by rewrite map_size_insert_Some by done|].
    apply map_Forall_insert_2; [|done]. destruct (Hq _ _ E) as (Hh & n & P & Ha & Hn & Hp). split; [done|].
    exists n, P. do 2 (split; [done|]). cbn [fst] in *. intros p Hin. apply Hp. by apply elem_of_difference in Hin as [? _].
Qed.

Lemma drop_block_lock_ok db lock q : queued_ok db q → queued_ok db (drop_block_lock lock q).
Proof.
  intros [[Hlh Hlo] Hq]. split; [|done]. split; [|done]. cbn.
  pose proof (size_delete_le (queued_block_headers q) (lock_block_hash lock)). lia.
Qed.

Lemma fetch_headers_queued now blocks db q :
  queued_ok db q → queued_ok db (fetch_block_headers now blocks q db).1.1.
Proof.
  intros [Hl Hq]. pose proof (fetch_block_headers_ok db now blocks q Hl) as Hf.
  destruct (fetch_block_headers now blocks q db) as [[q' requests] sent].
  destruct Hf as (Hl' & Eo & _). split; [done|]. cbn [fst]. by rewrite Eo.
Qed.

Lemma fetch_operations_queued iter now (blocks : list bytes) k T M db q :
  (∀ X, iter X ≡ₚ elements X) → downloads_ok k T M db → Forall (hash_ok BlockHash) blocks → queued_ok db q →
  queued_ok db (fetch_block_operations iter now blocks q db).1.1.1.
Proof.
  intros Hit Hok Hb [Hl Hq]. pose proof (fetch_block_operations_ok db iter now blocks q Hit Hl) as Hf.
  destruct (fetch_block_operations iter now blocks q db) as [[[q' requests] downloaded] sent].
  destruct Hf as (Hl' & _ & _ & _ & _ & Hf). split; [done|]. cbn [fst].
  intros h e E. destruct (Hf h e E) as [E'|(Hin & _ & _ & Hmiss)]; [by apply Hq|].
  rewrite Forall_forall in Hb. split; [by apply Hb|]. apply (missing_of_ok k T M); auto.
Qed.

(** ** What is stored for a block *)

Lemma sorted_passes_nodup (l : list OperationsForBlocksMessage_t) :
  Sorted (λ m m', pass_of m < pass_of m') l → NoDup (pass_of <$> l).
Proof.
  intros Hs. apply Sorted_StronglySorted in Hs; [|intros x y z; lia].
  induction Hs as [|m l Hs IH Hf]; cbn; [constructor|]. apply NoDup_cons. split; [|done].
  intros (m' & E & Hin)%list_elem_of_fmap. rewrite Forall_forall in Hf. specialize (Hf m' Hin). lia.
Qed.

Lemma stored_operations_ok k T M db h :
  downloads_ok k T M db → hash_ok BlockHash h →
  ∃ ops, get_operations h db = Ok ops ∧
    let passes := map (λ m, as_u8 (pass_of m)) ops in
    (OperationsMeta.get h db = Ok None ∧ ops = [] ∨
     ∃ meta, OperationsMeta.get h db = Ok (Some meta) ∧ NoDup passes ∧
       (∀ p, p ∈ passes → 0 ≤ p < validation_passes meta) ∧
       (operations_complete h db = Ok true ↔ passes ≡ₚ seqZ 0 (validation_passes meta))).
Proof.
  intros (HT & HM & Hr & Hbl) Hh. destruct (get_operations_ok Hmsg db T h HT Hh) as (ops & E & Hso & Hin).
  exists ops. split; [done|]. destruct HT as [_ Hk]. cbn zeta. set (passes := map _ ops).
  assert (∀ p, p ∈ passes ↔ is_Some (T !! mkOperationKey h p)) as Hpasses.
  { intros p. unfold passes. rewrite list_elem_of_fmap. split.
    - intros (m & -> & (q & Hm)%Hin). destruct (Hk _ _ Hm) as [Ek _]. injection Ek as _ Ek. rewrite Ek. by eauto.
    - intros [m Hm]. exists m. split; [|by apply Hin; exists p]. destruct (Hk _ _ Hm) as [Ek _].
      by injection Ek as _ ->. }
  assert (NoDup passes) as Hnd.
  { unfold passes. change (NoDup ((λ m, as_u8 (pass_of m)) <$> ops)). rewrite (list_fmap_compose pass_of as_u8).
    apply NoDup_fmap_2_strong; [|by apply sorted_passes_nodup].
    assert (∀ p, p ∈ pass_of <$> ops → int_range 8 p) as Hrange.
    { intros p (m & -> & (q & Hm)%Hin)%list_elem_of_fmap. apply (Hk _ _ Hm). }
    intros p q Hp Hq. apply as_u8_inj; auto. }
  destruct (Hbl h Hh) as [[En HTn]|(n & P & Ha & Hn & _ & HP & HTP)]; [left|right].
  - split; [by apply (get_not_arrived Hops)|]. destruct ops as [|m ops]; [done|].
    destruct (proj1 (Hin m)) as [p Hm]; [left|]. congruence.
  - exists (record n P). rewrite (get_arrived Hops db h n P) by (done || lia). split; [done|]. split; [done|].
    cbn [validation_passes record]. split.
    { intros p Hp. by apply HP, HTP, Hpasses. }
    unfold operations_complete. rewrite (get_arrived Hops db h n P) by (done || lia). cbn [is_complete record].
    split.
    + intros [= Hall]. rewrite all_present_spec in Hall. apply NoDup_Permutation; [done|apply NoDup_seqZ|].
      intros p. rewrite Hpasses, HTP, elem_of_seqZ. split; [intros ?%HP; lia|]. intros ?. apply Hall. lia.
    + intros Hp. f_equal. apply all_present_spec. intros i Hi. apply HTP, Hpasses. rewrite Hp.
      apply elem_of_seqZ. lia.
Qed.

(** ** The node *)

(** What peers and the bootstrapper cause.  A message has the types of its encoding:
    hashes have their length, a pass is an [i8]. *)
Definition message_typed (m : OperationsForBlocksMessage_t) : Prop :=
  hash_ok BlockHash (operations_block_hash (operations_for_block m)) ∧ int_range 8 (pass_of m) ∧ message_ok m.

Inductive step : Node → Node → Prop :=
| step_connect id now disable_mempool limits node :
    0 ≤ max_queued_block_headers_count limits → 0 ≤ max_queued_block_operations_count limits →
    step node (set_peer id (peer_new now disable_mempool limits) node)
| step_disconnect id node : step node (mkNode (delete id (node_peers node)) (node_storage node))
| step_fetch_headers id peer now blocks node :
    node_peers node !! id = Some peer →
    step node (set_peer id (update_queues peer (λ q,
      (fetch_block_headers now blocks q (db (node_storage node))).1.1)) node)
| step_fetch_operations iter id peer now blocks node :
    (∀ X, iter X ≡ₚ elements X) → Forall (hash_ok BlockHash) blocks → node_peers node !! id = Some peer →
    step node (set_peer id (update_queues peer (λ q,
      (fetch_block_operations iter now blocks q (db (node_storage node))).1.1.1)) node)
| step_header chain_id id b node :
    header_ok b → hash_ok ChainId chain_id → 0 ≤ validation_pass (header b) ≤ 255 →
    step node (receive_block_header chain_id id b node).1
| step_operations id m node : message_typed m → step node (receive_operations id m node).1.

Lemma set_peer_ok k id peer node :
  node_ok k node → queued_ok (db (node_storage node)) (queues peer) → node_ok k (set_peer id peer node).
Proof. intros [Hs Hp] Hq. split; [done|]. by apply map_Forall_insert_2. Qed.

(** A peer whose answer was stored. *)
Lemma storage_step_ok k k' id peer node s :
  node_ok k node → (∃ T M, downloads_ok k' T M (db s)) → keeps_arrived (db (node_storage node)) (db s) →
  queued_ok (db (node_storage node)) (queues peer) →
  node_ok k' (mkNode (<[id := peer]> (node_peers node)) s).
Proof.
  intros [_ Hp] Hs Hk Hq. split; [done|]. cbn [node_peers node_storage].
  apply map_Forall_insert_2; [by eapply queued_ok_keep|].
  intros id' peer' E. eapply queued_ok_keep; [done|]. by apply (Hp id').
Qed.

Lemma downloads_ok_mono k k' T M db : k ≤ k' → downloads_ok k T M db → downloads_ok k' T M db.
Proof.
  intros Hk (? & ? & Hr & ?). do 2 (split; [done|]). split; [|done]. by eapply records_ok_mono.
Qed.
Lemma node_ok_mono k k' node : k ≤ k' → node_ok k node → node_ok k' node.
Proof. intros Hk [(T & M & Hok) Hp]. split; [|done]. exists T, M. by apply (downloads_ok_mono k). Qed.

Lemma receive_header_ok k chain_id id b node :
  0 ≤ k → k + 1 < 2 ^ 64 → node_ok k node → header_ok b → hash_ok ChainId chain_id →
  0 ≤ validation_pass (header b) ≤ 255 → node_ok (k + 1) (receive_block_header chain_id id b node).1.
Proof.
  intros Hk Hk1 Hok Hb Hc Hv. unfold receive_block_header.
  destruct (node_peers node !! id) as [peer|] eqn:Ep; [|by eapply node_ok_mono; [|done]; lia].
  pose proof (proj2 Hok id peer Ep) as Hq. unfold block_header_received.
  destruct (queued_block_headers (queues peer) !! hash b) as [t|].
  - destruct Hok as [(T & M & Hd) Hp]. destruct (process_header_ok k T M (node_storage node) chain_id b)
      as [(M' & Hd') Hka]; [done..|].
    destruct (process_block_header_from_peer chain_id b (node_storage node)) as [s r]. cbn [fst] in *.
    apply (storage_step_ok k); [by split; [by exists T, M|]|by exists T, M'|done|by apply drop_block_lock_ok].
  - cbn [fst]. apply set_peer_ok; [|done]. eapply node_ok_mono; [|done]. lia.
Qed.

(** Nothing fails if operations are received. *)
Lemma receive_operations_ok k id m node :
  node_ok k node → message_typed m →
  node_ok k (receive_operations id m node).1 ∧ ∃ r, (receive_operations id m node).2 = Ok r.
Proof.
  intros Hok (Hh & Hi & Hm). unfold receive_operations.
  destruct (node_peers node !! id) as [peer|] eqn:Ep; [|by eauto].
  pose proof (proj2 Hok id peer Ep) as Hq. unfold block_operations_received. fold (pass_of m).
  set (h := operations_block_hash (operations_for_block m)) in *.
  destruct (queued_block_operations (queues peer) !! h) as [[passes t]|] eqn:Eq;
    [case_decide as Hin|]; [|split; [by apply set_peer_ok|by eauto]..].
  destruct Hok as [(T & M & Hd) Hp]. destruct (proj2 Hq h _ Eq) as (_ & n & P & Ha & Hn & Hps).
  destruct (Hps (pass_of m) Hin) as [_ Hlt].
  destruct (process_message_ok k T M (db (node_storage node)) m n P Hd Hh Hm Hi Ha Hlt)
    as (db' & r & T' & E & Hd' & Hka & HMh).
  unfold in_db, BlockStorage.on_db. rewrite E. cbn [map_err fst snd db]. split.
  - apply (storage_step_ok k); [by split; [by exists T, M|]|by exists T', M|done|by apply drop_operation_lock_ok].
  - destruct r as [finished told]. destruct finished; [|by eauto].
    destruct Hd' as (_ & HM' & _). rewrite (meta_get_holds Hmeta db' M h HM' Hh).
    fold h in HMh. destruct HMh as [bm ->]. cbn. by eauto.
Qed.

Lemma node_step_ok k node node' : 0 ≤ k → k + 1 < 2 ^ 64 → node_ok k node → step node node' → node_ok (k + 1) node'.
Proof.
  intros Hk Hk1 Hok Hs.
  assert (node_ok (k + 1) node) as Hok1 by (eapply node_ok_mono; [|done]; lia).
  destruct Hs as [id now dm l node H1' H2'|id node|id peer now blocks node Ep|iter id peer now blocks node Hi Hb Ep
    |chain_id id b node Hb Hc Hv|id m node Hm].
  - apply set_peer_ok; [done|]. by split; [split|apply map_Forall_empty].
  - destruct Hok1 as [Hs Hp]. split; [done|]. by apply map_Forall_delete.
  - apply set_peer_ok; [done|]. apply fetch_headers_queued. by apply (proj2 Hok id).
  - apply set_peer_ok; [done|]. destruct (proj1 Hok) as (T & M & Hd).
    apply (fetch_operations_queued iter now blocks k T M); [done..|]. by apply (proj2 Hok id).
  - by apply receive_header_ok.
  - by apply receive_operations_ok.
Qed.

(** The start: an empty storage, no peers. *)
Definition started (node : Node) : Prop :=
  (∀ n kb, get_cf (db (node_storage node)) n kb = Ok None) ∧ node_peers node = ∅.

Lemma started_ok node : started node → node_ok 0 node.
Proof.
  intros [Hf Hp]. split; [|rewrite Hp; apply map_Forall_empty]. exists ∅, ∅.
  pose proof (operations_table Hmsg). split; [|split; [|split]].
  - split; [|apply map_Forall_empty]. by apply (table_is_empty OperationsStorage).
  - intros h Hh. exists None. rewrite lookup_empty. by split.
  - apply map_Forall_empty.
  - intros h Hh. left. split; [by apply Hf|]. intros p. apply lookup_empty.
Qed.

Lemma reachable_ok k node node' :
  started node → nsteps step k node node' → Z.of_nat k < 2 ^ 64 → node_ok (Z.of_nat k) node'.
Proof.
  intros Hs Hst Hk. assert (∀ j, node_ok j node → 0 ≤ j → j + Z.of_nat k < 2 ^ 64 →
    node_ok (j + Z.of_nat k) node') as Hgen; [|by apply (Hgen 0); [by apply started_ok|..]].
  clear Hs Hk. induction Hst as [x|k x y z Hxy Hyz IH]; intros j Hj Hj0 Hb.
  - eapply node_ok_mono; [|done]. lia.
  - replace (j + Z.of_nat (S k)) with ((j + 1) + Z.of_nat k) by lia.
    apply IH; [|lia|lia]. apply (node_step_ok j x); [lia|lia|done|done].
Qed.

(** C30: Operations from peers are harmless.  Whatever happened before and whatever the
    peers sent, receiving operations from any peer neither fails nor panics: operations
    that were not asked for are dropped, and a pass that was asked for is one that the
    block has.  The queues of all peers are within their limits. *)
Theorem receive_operations_never_fails k node node' id m :
  started node → nsteps step k node node' → Z.of_nat k < 2 ^ 64 → message_typed m →
  (∃ r, (receive_operations id m node').2 = Ok r) ∧
  map_Forall (λ _ peer, queues_ok (queues peer)) (node_peers node').
Proof.
  intros Hs Hst Hk Hm. pose proof (reachable_ok k node node' Hs Hst Hk) as Hok. split.
  - by apply (receive_operations_ok (Z.of_nat k)).
  - intros id' peer E. apply (proj2 Hok id' peer E).
Qed.

(** C29: Complete blocks have their operations.  Whatever happened before, a block whose
    header is not known has no operations, and for a known block the operations that
    [get_operations] returns are of distinct passes below the number of passes of the
    block, and of all of them exactly if the block is marked as complete. *)
Theorem complete_blocks_have_operations k node node' h :
  started node → nsteps step k node node' → Z.of_nat k < 2 ^ 64 → hash_ok BlockHash h →
  let db := db (node_storage node') in
  ∃ ops, get_operations h db = Ok ops ∧
    let passes := map (λ m, as_u8 (pass_of m)) ops in
    (OperationsMeta.get h db = Ok None ∧ ops = [] ∨
     ∃ meta, OperationsMeta.get h db = Ok (Some meta) ∧ NoDup passes ∧
       (∀ p, p ∈ passes → 0 ≤ p < validation_passes meta) ∧
       (operations_complete h db = Ok true ↔ passes ≡ₚ seqZ 0 (validation_passes meta))).
Proof.
  intros Hs Hst Hk Hh. cbn zeta.
  destruct (reachable_ok k node node' Hs Hst Hk) as [(T & M & Hok) _].
  by apply (stored_operations_ok (Z.of_nat k) T M).
Qed.
End Downloads.

Module DownloadsWitnesses.
Import ConcreteDb.

Definition families : list ColumnFamilyDescriptor :=
  block_meta_descriptor :: operations_meta_descriptor :: operations_storage_descriptor :: block_storage_families.

#[local] Instance downloads_db : RocksDb := memory_db families.
#[local] Instance downloads_db_laws : RocksDbLaws families.
Proof. apply memory_db_laws. apply (bool_decide_unpack _). vm_compute. exact I. Qed.

#[local] Existing Instance BlockStorageWitnesses.list_log.
#[local] Existing Instance BlockStorageWitnesses.location_bincode.
#[local] Existing Instance BlockStorageWitnesses.column_bincode.

Lemma families_opened : block_meta_descriptor ∈ families ∧ operations_meta_descriptor ∈ families ∧
  operations_storage_descriptor ∈ families ∧ block_storage_families ⊆ families.
Proof. unfold families. set_solver. Qed.

Definition h : bytes := replicate 32 7.
Definition chain : bytes := [1; 2; 3; 4].
Definition block : BlockHeaderWithHash :=
  mkBlockHeaderWithHash h (mkBlockHeader 1 0 (replicate 32 6) 5 1 (replicate 32 1) [] (replicate 32 2) []).

(** Messages of the block without operations. *)
Definition message (p : Z) : OperationsForBlocksMessage_t :=
  mkOperationsForBlocksMessage (mkOperationsForBlock h p) [] [].

#[local] Instance message_bincode : Bincode OperationsForBlocksMessage_t := {|
  bincode_serialize m := Some [pass_of m];
  bincode_deserialize b := match b with [p] => Some (message p) | _ => None end
|}.
Definition small (m : OperationsForBlocksMessage_t) : Prop := m = message (pass_of m).
#[local] Instance message_bincode_laws : BincodeLaws OperationsForBlocksMessage_t small.
Proof. constructor. intros m ->. by eexists. Qed.

Definition queue_limits : DataQueuesLimits := mkLimits 10 10.
Definition start : Node := mkNode ∅ (mkPersistent ∅ {["block_storage"%string := []]}).
Definition update (f : DataQueues → DataQueues) (node : Node) : Node :=
  match node_peers node !! "peer"%string with
  | Some peer => set_peer "peer" (update_queues peer f) node
  | None => node
  end.

Definition node1 : Node := set_peer "peer" (peer_new 0 false queue_limits) start.
Definition node2 : Node := update (λ q, (fetch_block_headers 0 [h] q (db (node_storage node1))).1.1) node1.
Definition node3 : Node := (receive_block_header chain "peer" block node2).1.
Definition node4 : Node :=
  update (λ q, (fetch_block_operations elements 0 [h] q (db (node_storage node3))).1.1.1) node3.
Definition node5 : Node := (receive_operations "peer" (message 0) node4).1.

Definition has_peer (node : Node) : bool := bool_decide (is_Some (node_peers node !! "peer"%string)).

Lemma update_step f node :
  has_peer node = true →
  (∀ peer, node_peers node !! "peer"%string = Some peer →
     step (message_ok := small) node (set_peer "peer" (update_queues peer f) node)) →
  step (message_ok := small) node (update f node).
Proof. intros [peer E]%bool_decide_eq_true Hs. unfold update. rewrite E. by apply Hs. Qed.

Lemma trace : nsteps (step (message_ok := small)) 5 start node5.
Proof.
  apply (nsteps_l _ _ _ node1); [by constructor|].
  apply (nsteps_l _ _ _ node2).
  { apply update_step; [by vm_compute|]. intros peer E. by apply step_fetch_headers. }
  apply (nsteps_l _ _ _ node3); [by apply step_header|].
  apply (nsteps_l _ _ _ node4).
  { apply update_step; [by vm_compute|]. intros peer E.
    apply step_fetch_operations; [done|by apply Forall_singleton|done]. }
  apply (nsteps_l _ _ _ node5); [by apply step_operations|constructor].
Qed.

Lemma start_started : started start.
Proof. by split. Qed.

(** The operations of the block, asked for and sent, are not expected a second time. *)
Lemma receive_operations_never_fails_witness :
  ∃ r, (receive_operations "peer" (message 0) node5).2 = Ok r.
Proof.
  destruct families_opened as (O1 & O2 & O3 & O4).
  destruct (receive_operations_never_fails (message_ok := small) O1 O2 O3 O4 5 start node5 "peer" (message 0)
    start_started trace) as [Hr _]; [done|by repeat split|exact Hr].
Defined.

(** The block has one pass, and is complete. *)
Lemma complete_blocks_have_operations_witness :
  ∃ ops, get_operations h (db (node_storage node5)) = Ok ops ∧
    operations_complete h (db (node_storage node5)) = Ok true ∧ map (λ m, as_u8 (pass_of m)) ops = [0].
Proof.
  destruct families_opened as (O1 & O2 & O3 & O4).
  destruct (complete_blocks_have_operations (message_ok := small) O1 O2 O3 O4 5 start node5 h
    start_started trace) as (ops & E & [[En _]|(meta & Em & _ & _ & Hc)]); [done|done| |].
  - exfalso. assert (match OperationsMeta.get h (db (node_storage node5)) with Ok None => true | _ => false end = false)
      as Hx by (vm_compute; reflexivity). by rewrite En in Hx.
  - exists ops. split; [exact E|].
    assert (match OperationsMeta.get h (db (node_storage node5)) with
      | Ok (Some m) => Some (validation_passes m) | _ => None end = Some 1) as Hx by (vm_compute; reflexivity).
    rewrite Em in Hx. injection Hx as Ex. rewrite Ex in Hc.
    assert (match operations_complete h (db (node_storage node5)) with Ok b => b | _ => false end = true) as Hy
      by (vm_compute; reflexivity).
    destruct (operations_complete h (db (node_storage node5))) as [[]|]; [|done..]. split; [done|].
    apply Permutation_singleton_r. by apply Hc.
Defined.

End DownloadsWitnesses.
