(* ===== verification/Bootstrap.v ===== *)
(** * Bootstrapping of branches

    [shell/src/state/bootstrap_state.rs] with the handlers of
    [shell/src/peer_branch_bootstrapper.rs]: the branches that peers announced, cut
    into intervals, what of them is to be downloaded, and the batches of blocks that
    are scheduled to be applied. *)

From stdpp Require Import gmap.
From S2P Require Import Prelude Kv Blocks BlockMeta OperationsMeta Prevalidator Validation ShellState Requester ChainState.

(** ** The blocks that are scheduled *)

(** A [BlockStateDb] is the map of the scheduled blocks to their predecessors; a
    reference is the hash that it points to.  Each round removes an entry. *)
Fixpoint remove_predecessors (rounds : nat) (block : bytes) (blocks : gmap bytes bytes) (removed : gset bytes)
    : gset bytes * gmap bytes bytes :=
  match rounds with
  | O => (removed, blocks)
  | S rounds =>
      match blocks !! block with
      | Some predecessor => remove_predecessors rounds predecessor (delete block blocks) (removed ∪ {[block]})
      | None => (removed, blocks)
      end
  end.

Definition remove_with_all_predecessors (block_hash : bytes) (blocks : gmap bytes bytes) : gset bytes * gmap bytes bytes :=
  remove_predecessors (S (base.size blocks)) block_hash blocks ∅.

(** [applied_blocks.extend(block_state_db.remove_with_all_predecessors(b))] *)
Definition remove_applied (acc : gset bytes * gmap bytes bytes) (b : bytes) : gset bytes * gmap bytes bytes :=
  let '(removed, blocks) := remove_with_all_predecessors b acc.2 in
  (acc.1 ∪ removed, blocks).

(** ** Intervals *)

Inductive BranchIntervalState := Open | Downloaded | ScheduledForApply.
#[export] Instance BranchIntervalState_eq_dec : EqDecision BranchIntervalState.
Proof. solve_decision. Defined.

Record BranchInterval := mkInterval {
  interval_state : BranchIntervalState;
  interval_start : bytes;
  seek : bytes;
  interval_end : bytes
}.

Definition new_start_end (start end_ : bytes) : BranchInterval := mkInterval Open start end_ end_.
Definition interval_new (start : bytes) : BranchInterval := new_start_end start start.

Definition split_step (intervals : list BranchInterval) (bh : bytes) : list BranchInterval :=
  match last intervals with
  | Some last_part =>
      if decide (interval_start last_part ≠ interval_end last_part)
      then intervals ++ [new_start_end (interval_end last_part) bh]
      else removelast intervals ++ [mkInterval (interval_state last_part) (interval_start last_part) bh bh]
  | None => intervals ++ [interval_new bh]
  end.

Definition interval_split (first_block : bytes) (blocks : list bytes) : list BranchInterval :=
  foldl split_step [interval_new first_block] blocks.

Definition set_state (i : BranchInterval) (s : BranchIntervalState) : BranchInterval :=
  mkInterval s (interval_start i) (seek i) (interval_end i).

Section Bootstrap.
Context `{RocksDb}.

(** The walk over known predecessors, down to a scheduled block, [block_to], an applied
    block or genesis; then the interval can be closed.  Otherwise it ends at a block
    whose header is missing.  The last result is an applied block.  [None] if there are
    not enough rounds. *)
Fixpoint find_last_known_predecessor (rounds : nat) (block block_to : bytes) (missing_operations : gset bytes)
    (blocks : gmap bytes bytes) (db : DB) : option (gset bytes * (bytes * bool) * option bytes) :=
  match rounds with
  | O => None
  | S rounds =>
      if decide (is_Some (blocks !! block)) then Some (missing_operations, (block, true), None)
      else if decide (block_to = block) then Some (missing_operations, (block, true), None)
      else
        match BlockMeta.get block db with
        | Ok (Some block_metadata) =>
            if is_applied block_metadata then Some (missing_operations, (block, true), Some block)
            else if is_downloaded block_metadata then
              let missing_operations :=
                match operations_complete block db with
                | Ok true => missing_operations
                | _ => missing_operations ∪ {[block]}
                end in
              match BlockMeta.predecessor block_metadata with
              | Some predecessor =>
                  if decide (predecessor = block) then Some (missing_operations, (predecessor, true), None)
                  else find_last_known_predecessor rounds predecessor block_to missing_operations blocks db
              | None => Some (missing_operations, (block, false), None)
              end
            else Some (missing_operations, (block, false), None)
        | _ => Some (missing_operations, (block, false), None)
        end
  end.

(** The interval, the missing operations, the block to download and an applied block. *)
Definition shift_and_find_next_missing_predecessor (rounds : nat) (self : BranchInterval)
    (missing_block_operations : gset bytes) (blocks : gmap bytes bytes) (db : DB)
    : option (BranchInterval * gset bytes * option bytes * option bytes) :=
  if decide (interval_state self ≠ Open) then Some (self, missing_block_operations, None, None)
  else
    match find_last_known_predecessor rounds (seek self) (interval_start self) missing_block_operations blocks db with
    | None => None
    | Some (missing_block_operations, (oldest_known_predecessor, can_close_interval), newest_applied_found) =>
        let state :=
          if can_close_interval || bool_decide (oldest_known_predecessor = interval_start self)
          then Downloaded else interval_state self in
        let self := mkInterval state (interval_start self) oldest_known_predecessor (interval_end self) in
        Some (self, missing_block_operations,
              if decide (state ≠ Open) then None else Some (seek self), newest_applied_found)
    end.

(** The blocks from the given predecessor on, newest first. *)
Fixpoint collect_predecessors (rounds : nat) (self : BranchInterval) (predecessor : bytes) (blocks : gmap bytes bytes)
    (db : DB) : option (result (list bytes) StateError) :=
  match rounds with
  | O => None
  | S rounds =>
      if decide (is_Some (blocks !! predecessor)) then Some (Ok [])
      else
        match BlockMeta.get predecessor db with
        | Ok (Some predecessor_metadata) =>
            if is_applied predecessor_metadata then Some (Ok [])
            else if decide (interval_start self = predecessor) then Some (Ok [predecessor])
            else if decide (seek self = predecessor) then Some (Ok [predecessor])
            else
              match BlockMeta.predecessor predecessor_metadata with
              | Some pred_predecessor =>
                  if decide (pred_predecessor = predecessor) then Some (Ok [predecessor])
                  else
                    match collect_predecessors rounds self pred_predecessor blocks db with
                    | None => None
                    | Some r => Some (let? rest := r in Ok (predecessor :: rest))
                    end
              | None => Some (Err (ProcessingError "Invalid interval/block - block does not have predecessor"))
              end
        | _ => Some (Err (ProcessingError "Invalid interval - missing or failed to get block data"))
        end
  end.

(** The blocks of a downloaded interval, oldest first. *)
Definition collect_blocks_for_apply (rounds : nat) (self : BranchInterval) (blocks : gmap bytes bytes) (db : DB)
    : option (result (list bytes) StateError) :=
  if decide (interval_state self ≠ Downloaded) then Some (Ok [])
  else if decide (is_Some (blocks !! interval_end self)) then Some (Ok [])
  else
    match BlockMeta.get (interval_end self) db with
    | Err e => Some (Err (StateStorageError e))
    | Ok None => Some (Err (ProcessingError "Invalid interval, missing end block"))
    | Ok (Some end_metadata) =>
        if is_applied end_metadata then Some (Ok [])
        else
          match
            match BlockMeta.predecessor end_metadata with
            | Some predecessor => collect_predecessors rounds self predecessor blocks db
            | None => Some (Ok [])
            end
          with
          | None => None
          | Some r =>
              Some (
                let? interval_blocks := r in
                let interval_blocks := rev (interval_end self :: interval_blocks) in
                if decide (last interval_blocks = Some (interval_end self)) then Ok interval_blocks
                else Err (ProcessingError "Invalid interval, is_end_ok: false"))
          end
    end.

(** ** Branches *)

Record BranchState := mkBranch {
  branch_to_level : Z;
  intervals : list BranchInterval;
  missing_operations : gset bytes;
  blocks_to_apply : list bytes
}.

Definition branch_new (start_block : bytes) (blocks : list bytes) (to_level : Z) : BranchState :=
  mkBranch to_level (interval_split start_block blocks) ∅ [].

Definition contains_block_to_apply (self : BranchState) (block : bytes) : bool :=
  bool_decide (block ∈ blocks_to_apply self) ||
  existsb (λ interval, bool_decide (interval_start interval = block)
                       || bool_decide (interval_end interval = block)
                       || bool_decide (seek interval = block)) (intervals self).

(** [position(|b| b.eq(block))] *)
Definition position_of (block : bytes) (l : list bytes) : option nat := fst <$> list_find (eq block) l.

(** True if the branch was extended. *)
Definition branch_merge (self : BranchState) (new_bootstrap_level : Z) (new_missing_history : list bytes)
    : BranchState * bool :=
  match last (intervals self) with
  | Some last_interval =>
      match position_of (interval_end last_interval) new_missing_history with
      | Some found_position =>
          if decide (found_position + 1 < length new_missing_history)%nat then
            let new_intervals :=
              interval_split (interval_end last_interval) (drop (found_position + 1) new_missing_history) in
            match new_intervals with
            | [] => (self, false)
            | _ => (mkBranch new_bootstrap_level (intervals self ++ new_intervals)
                      (missing_operations self) (blocks_to_apply self), true)
            end
          else (self, false)
      | None => (self, false)
      end
  | None => (self, false)
  end.

(** The index of the last block that is applied. *)
Definition last_applied_position (applied_blocks : gset bytes) (l : list bytes) : option nat :=
  foldl (λ found '(idx, b), if decide (b ∈ applied_blocks) then Some idx else found) None (imap pair l).

Definition interval_touched (applied_blocks : gset bytes) (interval : BranchInterval) : Prop :=
  interval_start interval ∈ applied_blocks ∨ seek interval ∈ applied_blocks ∨ interval_end interval ∈ applied_blocks.
#[export] Instance interval_touched_dec applied_blocks interval : Decision (interval_touched applied_blocks interval).
Proof. unfold interval_touched. apply _. Defined.

(** The blocks of a removed interval count as applied. *)
Definition remove_interval (acc : gset bytes * gmap bytes bytes) (removed_interval : BranchInterval)
    : gset bytes * gmap bytes bytes :=
  remove_applied (remove_applied (remove_applied acc (interval_start removed_interval)) (seek removed_interval))
    (interval_end removed_interval).

(** The blocks up to the last applied one are removed; then the first interval that
    is touched, if its end is applied, and the intervals before it. *)
Definition branch_block_applied (self : BranchState) (applied_blocks : gset bytes) (blocks : gmap bytes bytes)
    : BranchState * gset bytes * gmap bytes bytes :=
  let '(to_apply, (applied_blocks, blocks)) :=
    match last_applied_position applied_blocks (blocks_to_apply self) with
    | Some idx =>
        (drop (idx + 1) (blocks_to_apply self),
         foldl remove_applied (applied_blocks, blocks) (take (idx + 1) (blocks_to_apply self)))
    | None => (blocks_to_apply self, (applied_blocks, blocks))
    end in
  let '(intervals', (applied_blocks, blocks)) :=
    match list_find (interval_touched applied_blocks) (intervals self) with
    | Some (interval_idx, interval) =>
        let '(intervals', acc) :=
          if decide (interval_end interval ∈ applied_blocks)
          then (delete interval_idx (intervals self), remove_interval (applied_blocks, blocks) interval)
          else (intervals self, (applied_blocks, blocks)) in
        (drop interval_idx intervals', foldl remove_interval acc (take interval_idx intervals'))
    | None => (intervals self, (applied_blocks, blocks))
    end in
  (mkBranch (branch_to_level self) intervals' (missing_operations self) to_apply, applied_blocks, blocks).

Definition branch_operations_downloaded (self : BranchState) (block_hash : bytes) : BranchState :=
  mkBranch (branch_to_level self) (intervals self) (missing_operations self ∖ {[block_hash]}) (blocks_to_apply self).

Definition is_done (self : BranchState) : bool := bool_decide (intervals self = []).

(** Trims the branch after a block that is found to be applied. *)
Definition trim_applied (self : BranchState) (last_applied_block : option bytes) (blocks : gmap bytes bytes)
    : BranchState * gmap bytes bytes :=
  match last_applied_block with
  | Some last_applied_block =>
      let '(applied_blocks, blocks) := remove_with_all_predecessors last_applied_block blocks in
      let '(self, _, blocks) := branch_block_applied self (applied_blocks ∪ {[last_applied_block]}) blocks in
      (self, blocks)
  | None => (self, blocks)
  end.

(** What the loop over the intervals changes: the intervals, the missing operations,
    the blocks to download, the last applied block. *)
Fixpoint collect_headers (rounds : nat) (requested_count : Z) (ignored_blocks : gset bytes)
    (is_previous_interval_downloaded : bool) (intervals : list BranchInterval) (missing : gset bytes)
    (blocks_to_download : list bytes) (last_applied_block : option bytes) (blocks : gmap bytes bytes) (db : DB)
    : option (list BranchInterval * gset bytes * list bytes * option bytes) :=
  match intervals with
  | [] => Some ([], missing, blocks_to_download, last_applied_block)
  | interval :: rest =>
      if negb is_previous_interval_downloaded then Some (intervals, missing, blocks_to_download, last_applied_block)
      else if decide (interval_state interval ≠ Open) then
        match collect_headers rounds requested_count ignored_blocks true rest missing blocks_to_download
                last_applied_block blocks db with
        | Some (rest, missing, blocks_to_download, last_applied_block) =>
            Some (interval :: rest, missing, blocks_to_download, last_applied_block)
        | None => None
        end
      else
        match shift_and_find_next_missing_predecessor rounds interval missing blocks db with
        | None => None
        | Some (interval, missing, missing_block, applied_block) =>
            let blocks_to_download :=
              match missing_block with
              | Some missing_block =>
                  if decide (missing_block ∈ ignored_blocks ∨ missing_block ∈ blocks_to_download)
                  then blocks_to_download else blocks_to_download ++ [missing_block]
              | None => blocks_to_download
              end in
            let last_applied_block :=
              match applied_block with Some b => Some b | None => last_applied_block end in
            if decide (len blocks_to_download >= requested_count)
            then Some (interval :: rest, missing, blocks_to_download, last_applied_block)
            else
              match collect_headers rounds requested_count ignored_blocks
                      (bool_decide (interval_state interval ≠ Open)) rest missing blocks_to_download
                      last_applied_block blocks db with
              | Some (rest, missing, blocks_to_download, last_applied_block) =>
                  Some (interval :: rest, missing, blocks_to_download, last_applied_block)
              | None => None
              end
        end
  end.

Definition collect_next_block_headers_to_download (rounds : nat) (self : BranchState) (requested_count : Z)
    (ignored_blocks : gset bytes) (blocks_to_download : list bytes) (blocks : gmap bytes bytes) (db : DB)
    : option (BranchState * list bytes * gmap bytes bytes) :=
  if decide (requested_count = 0) then Some (self, blocks_to_download, blocks)
  else
    match collect_headers rounds requested_count ignored_blocks true (intervals self) (missing_operations self)
            blocks_to_download None blocks db with
    | None => None
    | Some (intervals, missing, blocks_to_download, last_applied_block) =>
        let self := mkBranch (branch_to_level self) intervals missing (blocks_to_apply self) in
        let '(self, blocks) := trim_applied self last_applied_block blocks in
        Some (self, blocks_to_download, blocks)
    end.

(** [iter] is the order of the set. *)
Fixpoint collect_operations (requested_count : Z) (ignored_blocks : gset bytes) (missing : list bytes)
    (blocks_to_download : list bytes) : list bytes :=
  match missing with
  | [] => blocks_to_download
  | b :: missing =>
      if decide (b ∈ ignored_blocks ∨ b ∈ blocks_to_download)
      then collect_operations requested_count ignored_blocks missing blocks_to_download
      else if decide (len blocks_to_download >= requested_count) then blocks_to_download
      else collect_operations requested_count ignored_blocks missing (blocks_to_download ++ [b])
  end.

Definition collect_next_block_operations_to_download (iter : Iteration) (self : BranchState) (requested_count : Z)
    (ignored_blocks : gset bytes) (blocks_to_download : list bytes) : list bytes :=
  if decide (requested_count = 0) then blocks_to_download
  else collect_operations requested_count ignored_blocks (iter (missing_operations self)) blocks_to_download.

(** ** Scheduling of blocks *)

(** The blocks of the downloaded intervals before the first open one are taken. *)
Fixpoint take_downloaded (rounds : nat) (intervals : list BranchInterval) (to_apply : list bytes)
    (blocks : gmap bytes bytes) (db : DB) : option (list BranchInterval * list bytes * result () StateError) :=
  match intervals with
  | [] => Some ([], to_apply, Ok ())
  | interval :: rest =>
      match interval_state interval with
      | Open => Some (intervals, to_apply, Ok ())
      | Downloaded =>
          match collect_blocks_for_apply rounds interval blocks db with
          | None => None
          | Some (Err e) => Some (intervals, to_apply, Err e)
          | Some (Ok l) =>
              match take_downloaded rounds rest (to_apply ++ l) blocks db with
              | None => None
              | Some (rest, to_apply, r) => Some (set_state interval ScheduledForApply :: rest, to_apply, r)
              end
          end
      | ScheduledForApply =>
          match take_downloaded rounds rest to_apply blocks db with
          | None => None
          | Some (rest, to_apply, r) => Some (interval :: rest, to_apply, r)
          end
      end
  end.

(** The variables of the loop over the blocks, with the batches that were sent. *)
Record Scheduling := mkScheduling {
  cache : gmap bytes bytes;
  missing : gset bytes;
  batch_for_apply : option ApplyBlockBatch;
  last_applied : option bytes;
  last_already_scheduled : option bytes;
  sent : list ApplyBlockBatch
}.

(** The block starts a batch or continues the existing one. *)
Definition add_to_batch (max_block_apply_batch : Z) (st : Scheduling) (b predecessor : bytes) : Scheduling :=
  let cache := <[b := predecessor]> (cache st) in
  let '(batch_for_apply, sent) :=
    match batch_for_apply st with
    | Some batch =>
        let batch := add_successor batch b in
        if decide (successors_size batch >= max_block_apply_batch) then (None, sent st ++ [batch])
        else (Some batch, sent st)
    | None => (Some (start_batch b), sent st)
    end in
  mkScheduling cache (missing st) batch_for_apply (last_applied st) (Some b) sent.

Definition already_scheduled (st : Scheduling) (b : bytes) : Scheduling :=
  mkScheduling (cache st) (missing st) (batch_for_apply st) (last_applied st) (Some b) (sent st).
Definition already_applied (st : Scheduling) (b : bytes) : Scheduling :=
  mkScheduling (cache st) (missing st) (batch_for_apply st) (Some b) (Some b) (sent st).
Definition wait_for_operations (st : Scheduling) (b : bytes) : Scheduling :=
  mkScheduling (cache st) (missing st ∪ {[b]}) (batch_for_apply st) (last_applied st) (last_already_scheduled st)
    (sent st).

Fixpoint schedule_loop (max_block_apply_batch : Z) (l : list bytes) (st : Scheduling) (db : DB)
    : Scheduling * result () StateError :=
  match l with
  | [] => (st, Ok ())
  | b :: l =>
      match cache st !! b with
      | Some _ => schedule_loop max_block_apply_batch l (already_scheduled st b) db
      | None =>
          match BlockMeta.get b db with
          | Err e => (st, Err (StateStorageError e))
          | Ok None => (st, Err (ProcessingError "Block should be already downloaded, but it is not"))
          | Ok (Some block_metadata) =>
              if is_applied block_metadata then schedule_loop max_block_apply_batch l (already_applied st b) db
              else if negb (is_downloaded block_metadata)
              then (st, Err (ProcessingError "Block should be downloaded, but it is not"))
              else
                match operations_complete b db with
                | Ok true =>
                    match BlockMeta.predecessor block_metadata with
                    | Some predecessor =>
                        schedule_loop max_block_apply_batch l (add_to_batch max_block_apply_batch st b predecessor) db
                    | None => (st, Err (ProcessingError "Block does not have predecessor, this should not happen"))
                    end
                | _ => (wait_for_operations st b, Ok ())
                end
          end
      end
  end.

(** The branch, the cache and the sent batches; on an error what was changed before
    it stays. *)
Definition schedule_next_block_to_apply (rounds : nat) (self : BranchState) (max_block_apply_batch : Z)
    (blocks : gmap bytes bytes) (db : DB)
    : option (BranchState * gmap bytes bytes * list ApplyBlockBatch * result () StateError) :=
  match take_downloaded rounds (intervals self) (blocks_to_apply self) blocks db with
  | None => None
  | Some (intervals, to_apply, Err e) =>
      Some (mkBranch (branch_to_level self) intervals (missing_operations self) to_apply, blocks, [], Err e)
  | Some (intervals, to_apply, Ok _) =>
      let '(st, r) :=
        schedule_loop max_block_apply_batch to_apply
          (mkScheduling blocks (missing_operations self) None None None []) db in
      match r with
      | Err e =>
          Some (mkBranch (branch_to_level self) intervals (missing st) to_apply, cache st, sent st, Err e)
      | Ok _ =>
          let sent := sent st ++ match batch_for_apply st with Some batch => [batch] | None => [] end in
          let to_apply' :=
            match last_already_scheduled st with
            | Some b =>
                match position_of b to_apply with
                | Some position => drop (position + 1) to_apply
                | None => to_apply
                end
            | None => to_apply
            end in
          let self := mkBranch (branch_to_level self) intervals (missing st) to_apply' in
          let '(self, blocks) := trim_applied self (last_applied st) (cache st) in
          Some (self, blocks, sent, Ok ())
      end
  end.

(** ** Peers *)

(** The queues of a peer are shared with its [PeerState]: they are arguments. *)
Record PeerBootstrapState := mkPeerBootstrap {
  branches : list BranchState;
  bootstrapped : bool;
  empty_bootstrap_state : option Z;
  peer_ping_scheduled : bool
}.

Record BootstrapState := mkBootstrap {
  bootstrap_peers : gmap string PeerBootstrapState;
  block_state_db : gmap bytes bytes
}.

Definition bootstrap_new : BootstrapState := mkBootstrap ∅ ∅.

Definition set_branches (peer : PeerBootstrapState) (l : list BranchState) : PeerBootstrapState :=
  mkPeerBootstrap l (bootstrapped peer) (empty_bootstrap_state peer) (peer_ping_scheduled peer).

(** [branches.is_empty() && empty_bootstrap_state.is_none()] *)
Definition mark_if_empty (now : Z) (peer : PeerBootstrapState) : PeerBootstrapState :=
  match branches peer, empty_bootstrap_state peer with
  | [], None => mkPeerBootstrap [] (bootstrapped peer) (Some now) (peer_ping_scheduled peer)
  | _, _ => peer
  end.

(** Iteration over the peers in the order of the hash map, with an accumulator. *)
Definition for_each_peer {A} (order : list string) (f : string → A → PeerBootstrapState → A * PeerBootstrapState)
    (acc : A) (peers : gmap string PeerBootstrapState) : A * gmap string PeerBootstrapState :=
  foldl (λ '(acc, peers) id,
    match peers !! id with
    | Some peer => let '(acc, peer) := f id acc peer in (acc, <[id := peer]> peers)
    | None => (acc, peers)
    end) (acc, peers) order.

Definition clean_peer_data (id : string) (self : BootstrapState) : BootstrapState :=
  mkBootstrap (delete id (bootstrap_peers self)) (block_state_db self).

Record BootstrapperConfiguration := mkBootstrapperConfiguration {
  block_header_timeout : Z;
  block_operations_timeout : Z;
  missing_new_branch_bootstrap_timeout : Z;
  max_bootstrap_branches_per_peer : Z;
  max_block_apply_batch : Z
}.

(** What the bootstrapper sends. *)
Inductive BootstrapOutput :=
| SendToPeer (id : string) (request : Request)
| ScheduleApplyBlock (batch : ApplyBlockBatch)
| SynchronizationDone (id : string) (to_level : Z)
| DisconnectPeer (id : string)
| SchedulePing (id : option string).

Definition is_stalled (iter : Iteration) (now : Z) (cfg : BootstrapperConfiguration) (peer : PeerBootstrapState)
    (peer_queues : DataQueues) : bool :=
  match empty_bootstrap_state peer with
  | Some since => bool_decide (now - since > missing_new_branch_bootstrap_timeout cfg)
  | None => false
  end
  || bool_decide (is_Some (find_any_block_header_response_pending iter now (block_header_timeout cfg) peer_queues))
  || bool_decide (is_Some
       (find_any_block_operations_response_pending iter now (block_operations_timeout cfg) peer_queues)).

Definition check_stalled_peers (iter : Iteration) (order : list string) (now : Z) (cfg : BootstrapperConfiguration)
    (peer_queues : string → DataQueues) (self : BootstrapState) : BootstrapState * list BootstrapOutput :=
  let stalled_peers :=
    filter (λ id, match bootstrap_peers self !! id with
                  | Some peer => is_stalled iter now cfg peer (peer_queues id)
                  | None => false
                  end = true) order in
  (foldl (λ self id, clean_peer_data id self) self stalled_peers, map DisconnectPeer stalled_peers).

(** *** Statistics *)

Definition peers_count (self : BootstrapState) : Z := Z.of_nat (base.size (bootstrap_peers self)).
Definition blocks_scheduled_count (self : BootstrapState) : Z := Z.of_nat (base.size (block_state_db self)).

(** All branches, in the order of the peers. *)
Definition all_branches (order : list string) (self : BootstrapState) : list BranchState :=
  concat (omap (λ id, branches <$> bootstrap_peers self !! id) order).

Definition count_state (state : BranchIntervalState) (l : list BranchInterval) : Z :=
  len (filter (λ interval, interval_state interval = state) l).

(** The numbers of branches, intervals, open intervals and scheduled intervals. *)
Definition block_intervals_stats (order : list string) (self : BootstrapState) : Z * (Z * Z * Z) :=
  foldl (λ '(branches_count, (intervals_count, intervals_blocks_open, intervals_scheduled_for_apply)) branch,
    (branches_count + 1,
     (intervals_count + len (intervals branch),
      intervals_blocks_open + count_state Open (intervals branch),
      intervals_scheduled_for_apply + count_state ScheduledForApply (intervals branch))))
    (0, (0, 0, 0)) (all_branches order self).

(** The first open interval of each branch. *)
Definition next_lowest_missing_blocks (order : list string) (self : BootstrapState) : list (nat * bytes) :=
  omap (λ branch, (λ '(interval_idx, interval), (interval_idx, seek interval)) <$>
                  list_find (λ interval, interval_state interval = Open) (intervals branch))
    (all_branches order self).

Definition peers_branches_level (order : list string) (self : BootstrapState) : list (Z * bytes) :=
  omap (λ branch, (λ last_interval, (branch_to_level branch, interval_end last_interval)) <$> last (intervals branch))
    (all_branches order self).

(** *** Changes *)

Definition block_apply_failed (order : list string) (now : Z) (failed_block : bytes) (self : BootstrapState)
    : BootstrapState :=
  let '(_, peers) :=
    for_each_peer order (λ _ _ peer,
      (tt, mark_if_empty now (set_branches peer
             (filter (λ branch, contains_block_to_apply branch failed_block = false) (branches peer)))))
      tt (bootstrap_peers self) in
  mkBootstrap peers (remove_with_all_predecessors failed_block (block_state_db self)).2.

(** The first branch that the history extends is extended. *)
Fixpoint merge_first (l : list BranchState) (to_level : Z) (history : list bytes) : option (list BranchState) :=
  match l with
  | [] => None
  | branch :: l =>
      let '(branch', merged) := branch_merge branch to_level history in
      if (merged : bool) then Some (branch' :: l)
      else match merge_first l to_level history with Some l => Some (branch' :: l) | None => None end
  end.

Definition set_active (peer : PeerBootstrapState) (l : list BranchState) : PeerBootstrapState :=
  mkPeerBootstrap l (bootstrapped peer) None (peer_ping_scheduled peer).

(** [Some true] if the branch was merged, [Some false] if it is new. *)
Definition add_new_branch (id : string) (last_applied_block : bytes) (missing_history : list bytes) (to_level : Z)
    (max_bootstrap_branches_per_peer : Z) (self : BootstrapState) : BootstrapState * option bool :=
  let new_branch := branch_new last_applied_block missing_history to_level in
  match bootstrap_peers self !! id with
  | Some peer_state =>
      match merge_first (branches peer_state) to_level missing_history with
      | Some l =>
          (mkBootstrap (<[id := set_active peer_state l]> (bootstrap_peers self)) (block_state_db self), Some true)
      | None =>
          if decide (len (branches peer_state) >= max_bootstrap_branches_per_peer) then (self, None)
          else
            (mkBootstrap (<[id := set_active peer_state (branches peer_state ++ [new_branch])]> (bootstrap_peers self))
               (block_state_db self), Some false)
      end
  | None =>
      (mkBootstrap (<[id := mkPeerBootstrap [new_branch] false None false]> (bootstrap_peers self))
         (block_state_db self), Some false)
  end.

Definition try_update_branch (id : string) (block : BlockHeaderWithHash) (self : BootstrapState)
    : BootstrapState * bool :=
  match bootstrap_peers self !! id with
  | Some peer_state =>
      match merge_first (branches peer_state) (header_level (header block))
              [header_predecessor (header block); hash block] with
      | Some l => (mkBootstrap (<[id := set_active peer_state l]> (bootstrap_peers self)) (block_state_db self), true)
      | None => (self, false)
      end
  | None => (self, false)
  end.

(** [checked_sub(..).unwrap_or(0)] *)
Definition remaining (capacity used : Z) : Z := if decide (used ≤ capacity) then capacity - used else 0.

Fixpoint collect_headers_of_branches (rounds : nat) (capacity : Z) (already_queued : gset bytes)
    (l : list BranchState) (missing_blocks : list bytes) (blocks : gmap bytes bytes) (db : DB)
    : option (list BranchState * list bytes * gmap bytes bytes) :=
  match l with
  | [] => Some ([], missing_blocks, blocks)
  | branch :: rest =>
      if decide (capacity = 0) then Some (l, missing_blocks, blocks)
      else
        match collect_next_block_headers_to_download rounds branch capacity already_queued missing_blocks blocks db with
        | None => None
        | Some (branch, missing_blocks, blocks) =>
            match collect_headers_of_branches rounds (remaining capacity (len missing_blocks)) already_queued rest
                    missing_blocks blocks db with
            | None => None
            | Some (rest, missing_blocks, blocks) => Some (branch :: rest, missing_blocks, blocks)
            end
        end
  end.

(** The state, the queues and the requests. *)
Definition schedule_blocks_to_download (rounds : nat) (now : Z) (id : string) (peer_queues : DataQueues)
    (self : BootstrapState) (db : DB) : option (BootstrapState * DataQueues * list BootstrapOutput) :=
  match bootstrap_peers self !! id with
  | Some peer =>
      let '(already_queued, capacity) := get_already_queued_block_headers_and_max_capacity peer_queues in
      match collect_headers_of_branches rounds capacity already_queued (branches peer) [] (block_state_db self) db with
      | None => None
      | Some (l, missing_blocks, blocks) =>
          let '(peer_queues, requests, _) := fetch_block_headers now missing_blocks peer_queues db in
          Some (mkBootstrap (<[id := set_branches peer l]> (bootstrap_peers self)) blocks, peer_queues,
                map (SendToPeer id) requests)
      end
  | None => Some (self, peer_queues, [])
  end.

Fixpoint collect_operations_of_branches (iter : Iteration) (capacity : Z) (already_queued : gset bytes)
    (l : list BranchState) (missing_blocks : list bytes) : list bytes :=
  match l with
  | [] => missing_blocks
  | branch :: rest =>
      if decide (capacity = 0) then missing_blocks
      else
        let missing_blocks :=
          collect_next_block_operations_to_download iter branch capacity already_queued missing_blocks in
        collect_operations_of_branches iter (remaining capacity (len missing_blocks)) already_queued rest missing_blocks
  end.

(** The order of the peers does not matter here. *)
Definition block_operations_downloaded (block_hash : bytes) (self : BootstrapState) : BootstrapState :=
  mkBootstrap
    ((λ peer, set_branches peer (map (λ branch, branch_operations_downloaded branch block_hash) (branches peer)))
       <$> bootstrap_peers self)
    (block_state_db self).

Definition schedule_operations_to_download (iter : Iteration) (iter_passes : gset Z → list Z) (now : Z) (id : string)
    (peer_queues : DataQueues) (self : BootstrapState) (db : DB)
    : BootstrapState * DataQueues * list BootstrapOutput :=
  match bootstrap_peers self !! id with
  | Some peer =>
      let '(already_queued, capacity) := get_already_queued_block_operations_and_max_capacity peer_queues in
      let missing_blocks := collect_operations_of_branches iter capacity already_queued (branches peer) [] in
      let '(peer_queues, requests, already_downloaded, _) :=
        fetch_block_operations iter_passes now missing_blocks peer_queues db in
      (foldl (λ self b, block_operations_downloaded b self) self already_downloaded, peer_queues,
       map (SendToPeer id) requests)
  | None => (self, peer_queues, [])
  end.

(** The branches of a peer one after the other; the levels of the branches that fail. *)
Fixpoint schedule_branches (rounds : nat) (max_block_apply_batch : Z) (l : list BranchState) (blocks : gmap bytes bytes)
    (db : DB) : option (list BranchState * gmap bytes bytes * list ApplyBlockBatch * gset Z) :=
  match l with
  | [] => Some ([], blocks, [], ∅)
  | branch :: l =>
      match schedule_next_block_to_apply rounds branch max_block_apply_batch blocks db with
      | None => None
      | Some (branch, blocks, sent, r) =>
          match schedule_branches rounds max_block_apply_batch l blocks db with
          | None => None
          | Some (l, blocks, sent', branches_to_remove) =>
              Some (branch :: l, blocks, sent ++ sent',
                    match r with
                    | Ok _ => branches_to_remove
                    | Err _ => branches_to_remove ∪ {[branch_to_level branch]}
                    end)
          end
      end
  end.

Definition schedule_blocks_for_apply (rounds : nat) (id : string) (max_block_apply_batch : Z) (self : BootstrapState)
    (db : DB) : option (BootstrapState * list BootstrapOutput) :=
  match bootstrap_peers self !! id with
  | Some peer =>
      match schedule_branches rounds max_block_apply_batch (branches peer) (block_state_db self) db with
      | None => None
      | Some (l, blocks, sent, branches_to_remove) =>
          let l := filter (λ branch, branch_to_level branch ∉ branches_to_remove) l in
          Some (mkBootstrap (<[id := set_branches peer l]> (bootstrap_peers self)) blocks, map ScheduleApplyBlock sent)
      end
  | None => Some (self, [])
  end.

(** The finished branches of a peer are removed; only the first one is announced. *)
Definition finish_branches (now : Z) (id : string) (peer : PeerBootstrapState)
    : list BootstrapOutput * PeerBootstrapState :=
  let done := filter (λ branch, is_done branch = true) (branches peer) in
  let kept := filter (λ branch, is_done branch = false) (branches peer) in
  (match done with
   | branch :: _ => if bootstrapped peer then [] else [SynchronizationDone id (branch_to_level branch)]
   | [] => []
   end,
   mark_if_empty now
     (mkPeerBootstrap kept (bootstrapped peer || bool_decide (done ≠ [])) (empty_bootstrap_state peer)
        (peer_ping_scheduled peer))).

Definition check_bootstrapped_branches (order : list string) (now : Z) (filter_peer : option string)
    (self : BootstrapState) : BootstrapState * list BootstrapOutput :=
  let '(messages, peers) :=
    for_each_peer order (λ id messages peer,
      match filter_peer with
      | Some id' =>
          if decide (id' = id) then let '(m, peer) := finish_branches now id peer in (messages ++ m, peer)
          else (messages, peer)
      | None => let '(m, peer) := finish_branches now id peer in (messages ++ m, peer)
      end) [] (bootstrap_peers self) in
  (mkBootstrap peers (block_state_db self), messages).

(** [branches.iter_mut().for_each(|branch| branch.block_applied(..))] *)
Definition branches_block_applied (acc : gset bytes * gmap bytes bytes) (l : list BranchState)
    : gset bytes * gmap bytes bytes * list BranchState :=
  foldl (λ '(applied, blocks, l) branch,
    let '(branch, applied, blocks) := branch_block_applied branch applied blocks in
    (applied, blocks, l ++ [branch])) (acc.1, acc.2, []) l.

Definition block_applied (order : list string) (now : Z) (block_hash : bytes) (self : BootstrapState)
    : BootstrapState * list BootstrapOutput :=
  let '((_, blocks), peers) :=
    for_each_peer order (λ _ acc peer,
      let '(applied, blocks, l) := branches_block_applied acc (branches peer) in
      ((applied, blocks), set_branches peer l))
      (remove_with_all_predecessors block_hash (block_state_db self)) (bootstrap_peers self) in
  check_bootstrapped_branches order now None (mkBootstrap peers blocks).

(** [InnerBlockState] is given by its two fields. *)
Definition block_downloaded (order : list string) (now : Z) (block_hash : bytes) (applied operations_downloaded : bool)
    (self : BootstrapState) : BootstrapState * list BootstrapOutput :=
  if applied then block_applied order now block_hash self
  else if operations_downloaded then (block_operations_downloaded block_hash self, [])
  else (self, []).

(** ** The bootstrapper *)

Record PeerBranchBootstrapper := mkBootstrapper {
  bootstrap_state : BootstrapState;
  ping_scheduled : bool
}.

(** The orders of the hash maps and sets, and the time. *)
Record Surroundings := mkSurroundings {
  order_of_peers : list string;
  order_of_blocks : Iteration;
  order_of_passes : gset Z → list Z;
  instant : Z
}.

Definition process_bootstrap_pipelines (env : Surroundings) (cfg : BootstrapperConfiguration) (rounds : nat)
    (id : string) (queues : DataQueues) (self : BootstrapState) (db : DB)
    : option (BootstrapState * DataQueues * list BootstrapOutput) :=
  match schedule_blocks_to_download rounds (instant env) id queues self db with
  | None => None
  | Some (self, queues, out1) =>
      let '(self, queues, out2) :=
        schedule_operations_to_download (order_of_blocks env) (order_of_passes env) (instant env) id queues self db in
      match schedule_blocks_for_apply rounds id (max_block_apply_batch cfg) self db with
      | None => None
      | Some (self, out3) =>
          let '(self, out4) := check_bootstrapped_branches (order_of_peers env) (instant env) (Some id) self in
          Some (self, queues, out1 ++ out2 ++ out3 ++ out4)
      end
  end.

Definition schedule_process_all_bootstrap_pipelines (self : PeerBranchBootstrapper)
    : PeerBranchBootstrapper * list BootstrapOutput :=
  if ping_scheduled self then (self, []) else (mkBootstrapper (bootstrap_state self) true, [SchedulePing None]).

Definition set_ping (peer : PeerBootstrapState) (scheduled : bool) : PeerBootstrapState :=
  mkPeerBootstrap (branches peer) (bootstrapped peer) (empty_bootstrap_state peer) scheduled.

Definition schedule_process_bootstrap_pipeline_for_peer (acc : BootstrapState * list BootstrapOutput) (id : string)
    : BootstrapState * list BootstrapOutput :=
  let '(self, out) := acc in
  match bootstrap_peers self !! id with
  | Some peer =>
      if peer_ping_scheduled peer then (self, out)
      else (mkBootstrap (<[id := set_ping peer true]> (bootstrap_peers self)) (block_state_db self),
            out ++ [SchedulePing (Some id)])
  | None => (self, out)
  end.

(** The messages of the actor; those of other chains are rejected. *)
Inductive BootstrapperMsg :=
| MsgStartBranchBootstraping (id : string) (chain_id : bytes) (start : StartBranchBootstraping)
| MsgUpdateBranchBootstraping (id : string) (current_head : BlockHeaderWithHash)
| MsgPingBootstrapPipelinesProcessing (id : option string)
| MsgUpdateBlockState (id : string) (block_hash : bytes) (applied operations_downloaded : bool)
| MsgUpdateOperationsState (id : string) (block_hash : bytes)
| MsgApplyBlockBatchDone (last_applied : bytes)
| MsgApplyBlockBatchFailed (failed_block : bytes)
| MsgDisconnectStalledBootstraps
| MsgCleanPeerData (id : string).

(** The queues of a peer; every peer of the state has some. *)
Definition queues_of (queues : gmap string DataQueues) (id : string) : DataQueues :=
  default (queues_new (mkLimits 0 0)) (queues !! id).

(** Processing of the pipelines of a peer with its queues. *)
Definition process_peer (env : Surroundings) (cfg : BootstrapperConfiguration) (rounds : nat) (id : string)
    (self : PeerBranchBootstrapper) (queues : gmap string DataQueues) (out : list BootstrapOutput) (db : DB)
    : option (PeerBranchBootstrapper * gmap string DataQueues * list BootstrapOutput) :=
  match process_bootstrap_pipelines env cfg rounds id (queues_of queues id) (bootstrap_state self) db with
  | None => None
  | Some (state, q, out') => Some (mkBootstrapper state (ping_scheduled self), <[id := q]> queues, out ++ out')
  end.

(** What a handler returns: the actor, the queues and what is sent. *)
Definition Handled : Type := option (PeerBranchBootstrapper * gmap string DataQueues * list BootstrapOutput).

Definition with_state (self : PeerBranchBootstrapper) (state : BootstrapState) : PeerBranchBootstrapper :=
  mkBootstrapper state (ping_scheduled self).

Section Handlers.
Context (env : Surroundings) (cfg : BootstrapperConfiguration) (chain_id : bytes) (rounds : nat).
Context (self : PeerBranchBootstrapper) (queues : gmap string DataQueues) (db : DB).

Definition start_branch_bootstraping (id : string) (chain_id' : bytes) (start : StartBranchBootstraping) : Handled :=
  if decide (chain_id ≠ chain_id') then Some (self, queues, [])
  else
    let '(state, _) :=
      add_new_branch id (start_last_applied_block start) (start_missing_history start) (start_to_level start)
        (max_bootstrap_branches_per_peer cfg) (bootstrap_state self) in
    process_peer env cfg rounds id (with_state self state) queues [] db.

Definition update_branch_bootstraping (id : string) (current_head : BlockHeaderWithHash) : Handled :=
  let '(state, was_updated) := try_update_branch id current_head (bootstrap_state self) in
  if (was_updated : bool) then process_peer env cfg rounds id (with_state self state) queues [] db
  else Some (self, queues, []).

Definition ping_bootstrap_pipelines_processing (id : option string) : Handled :=
  match id with
  | Some id =>
      match bootstrap_peers (bootstrap_state self) !! id with
      | Some peer =>
          let state := mkBootstrap (<[id := set_ping peer false]> (bootstrap_peers (bootstrap_state self)))
                         (block_state_db (bootstrap_state self)) in
          process_peer env cfg rounds id (with_state self state) queues [] db
      | None => Some (self, queues, [])
      end
  | None =>
      let '(state, out) :=
        foldl schedule_process_bootstrap_pipeline_for_peer (bootstrap_state self, []) (order_of_peers env) in
      Some (mkBootstrapper state false, queues, out)
  end.

Definition update_block_state (id : string) (block_hash : bytes) (applied operations_downloaded : bool) : Handled :=
  let '(state, out) :=
    block_downloaded (order_of_peers env) (instant env) block_hash applied operations_downloaded
      (bootstrap_state self) in
  process_peer env cfg rounds id (with_state self state) queues out db.

Definition update_operations_state (id : string) (block_hash : bytes) : Handled :=
  process_peer env cfg rounds id (with_state self (block_operations_downloaded block_hash (bootstrap_state self)))
    queues [] db.

Definition apply_block_batch_done (last_applied : bytes) : Handled :=
  let '(state, out) := block_applied (order_of_peers env) (instant env) last_applied (bootstrap_state self) in
  let '(self, out') := schedule_process_all_bootstrap_pipelines (with_state self state) in
  Some (self, queues, out ++ out').

Definition apply_block_batch_failed (failed_block : bytes) : Handled :=
  let state := block_apply_failed (order_of_peers env) (instant env) failed_block (bootstrap_state self) in
  let '(self, out) := schedule_process_all_bootstrap_pipelines (with_state self state) in
  Some (self, queues, out).

Definition disconnect_stalled_bootstraps : Handled :=
  let '(state, out1) := check_bootstrapped_branches (order_of_peers env) (instant env) None (bootstrap_state self) in
  let '(state, out2) :=
    check_stalled_peers (order_of_blocks env) (order_of_peers env) (instant env) cfg (queues_of queues) state in
  let '(self, out3) := schedule_process_all_bootstrap_pipelines (with_state self state) in
  Some (self, queues, out1 ++ out2 ++ out3).

Definition receive (msg : BootstrapperMsg) : Handled :=
  match msg with
  | MsgStartBranchBootstraping id chain_id' start => start_branch_bootstraping id chain_id' start
  | MsgUpdateBranchBootstraping id current_head => update_branch_bootstraping id current_head
  | MsgPingBootstrapPipelinesProcessing id => ping_bootstrap_pipelines_processing id
  | MsgUpdateBlockState id block_hash applied operations_downloaded =>
      update_block_state id block_hash applied operations_downloaded
  | MsgUpdateOperationsState id block_hash => update_operations_state id block_hash
  | MsgApplyBlockBatchDone last_applied => apply_block_batch_done last_applied
  | MsgApplyBlockBatchFailed failed_block => apply_block_batch_failed failed_block
  | MsgDisconnectStalledBootstraps => disconnect_stalled_bootstraps
  | MsgCleanPeerData id => Some (with_state self (clean_peer_data id (bootstrap_state self)), queues, [])
  end.
End Handlers.
End Bootstrap.
