(* ===== verification/BootstrapFacts.v ===== *)
(** * Bootstrapping of branches: what it guarantees

    The set of scheduled blocks, the walk to the next missing header, the batches
    that are sent, and the invariant of the branches of all peers. *)

From stdpp Require Import gmap.
From S2P Require Import Prelude Kv Blocks BlockMeta OperationsMeta Prevalidator Validation ShellState Requester ChainState Bootstrap.

(** ** Removal of a block with its predecessors *)

Definition scheduled_pred (blocks : gmap bytes bytes) (b p : bytes) : Prop := blocks !! b = Some p.

Lemma path_without (b p : bytes) (blocks : gmap bytes bytes) x :
  blocks !! b = Some p → rtc (scheduled_pred blocks) b x →
  x = b ∨ rtc (scheduled_pred (delete b blocks)) p x.
Proof.
  intros Hb. revert x. apply rtc_ind_r; [by left|]. intros y z _ Hyz IH.
  destruct (decide (y = b)) as [->|Hne].
  - right. unfold scheduled_pred in Hyz. assert (z = p) as -> by congruence. done.
  - destruct IH as [?|IH]; [done|]. right. eapply rtc_r; [exact IH|]. unfold scheduled_pred in *.
    by rewrite lookup_delete_ne.
Qed.

Lemma remove_predecessors_spec (rounds : nat) (b : bytes) (blocks : gmap bytes bytes) (removed : gset bytes) :
  (base.size blocks < rounds)%nat →
  ∃ R, (remove_predecessors rounds b blocks removed).1 = removed ∪ R ∧
    (∀ x, x ∈ R ↔ is_Some (blocks !! x) ∧ rtc (scheduled_pred blocks) b x) ∧
    ∀ x, (remove_predecessors rounds b blocks removed).2 !! x = if decide (x ∈ R) then None else blocks !! x.
Proof.
  revert b blocks removed. induction rounds as [|rounds IH]; intros b blocks removed Hs; [lia|].
  cbn [remove_predecessors]. destruct (blocks !! b) as [p|] eqn:Eb.
  - destruct (IH p (delete b blocks) (removed ∪ {[b]})) as (R & E1 & E2 & E3).
    { rewrite map_size_delete, Eb. cbn. assert (base.size blocks ≠ 0%nat); [|lia].
      intros E0%map_size_empty_iff. subst. by rewrite lookup_empty in Eb. }
    exists ({[b]} ∪ R). split; [rewrite E1; set_solver|]. split.
    + intros x. rewrite elem_of_union, elem_of_singleton, E2. split.
      * intros [->|[Hx Hp]]; [by rewrite Eb; eauto|]. apply lookup_delete_is_Some in Hx as [Hne Hx].
        split; [done|]. eapply rtc_l; [exact Eb|]. eapply rtc_subrel; [|exact Hp].
        intros y z Hyz. unfold scheduled_pred in *. by apply lookup_delete_Some in Hyz as [_ ?].
      * intros [Hx Hp]. destruct (path_without b p blocks x Eb Hp) as [->|Hp']; [by left|].
        destruct (decide (x = b)) as [->|Hne]; [by left|right]. split; [|done].
        by apply lookup_delete_is_Some.
    + intros x. rewrite E3. destruct (decide (x = b)) as [->|Hne].
      * rewrite lookup_delete_eq, (decide_True (P := b ∈ {[b]} ∪ R)) by set_solver. by case_decide.
      * rewrite lookup_delete_ne by done. apply decide_ext. set_solver.
  - exists ∅. split; [set_solver|]. split; [|intros x; by rewrite decide_False by set_solver].
    intros x. split; [set_solver|]. intros [[y Hx] Hp]. apply rtc_inv in Hp as [->|(z & Hz & _)]; [congruence|].
    unfold scheduled_pred in Hz. congruence.
Qed.

(** What is removed are the scheduled blocks that are reached over predecessors. *)
Lemma remove_with_all_predecessors_spec (b : bytes) (blocks : gmap bytes bytes) :
  let '(removed, blocks') := remove_with_all_predecessors b blocks in
  (∀ x, x ∈ removed ↔ is_Some (blocks !! x) ∧ rtc (scheduled_pred blocks) b x) ∧
  ∀ x, blocks' !! x = if decide (x ∈ removed) then None else blocks !! x.
Proof.
  unfold remove_with_all_predecessors.
  destruct (remove_predecessors_spec (S (base.size blocks)) b blocks ∅) as (R & E1 & E2 & E3); [lia|].
  destruct (remove_predecessors _ _ _ _) as [removed blocks']. cbn [fst snd] in *.
  rewrite union_empty_l_L in E1. subst R. done.
Qed.

(** ** Intervals *)

(** Each interval starts where the one before it ends. *)
Fixpoint linked (start : bytes) (l : list BranchInterval) : Prop :=
  match l with
  | [] => True
  | i :: l => interval_start i = start ∧ linked (interval_end i) l
  end.

Definition end_of (start : bytes) (l : list BranchInterval) : bytes :=
  match last l with Some i => interval_end i | None => start end.

Lemma end_of_cons start i l : end_of start (i :: l) = end_of (interval_end i) l.
Proof. unfold end_of. destruct l as [|j l]; [done|]. cbn [last]. destruct (last (j :: l)) eqn:E; [done|]. by apply last_None in E. Qed.

Lemma linked_app start l l' : linked start (l ++ l') ↔ linked start l ∧ linked (end_of start l) l'.
Proof.
  revert start. induction l as [|i l IH]; intros start; [unfold end_of; cbn; tauto|].
  cbn [linked app]. rewrite IH, end_of_cons. tauto.
Qed.

Lemma linked_drop n start l : linked start l → linked (end_of start (take n l)) (drop n l).
Proof. intros Hl. rewrite <- (take_drop n l) in Hl. by apply linked_app in Hl as [_ ?]. Qed.

(** An interval that no search has touched. *)
Definition fresh (i : BranchInterval) : Prop := interval_state i = Open ∧ seek i = interval_end i.

(** First intervals that are scheduled, then downloaded ones, then at most one that is
    being downloaded, then fresh ones; [r] is the stage that was reached before. *)
Fixpoint ordered (r : nat) (l : list BranchInterval) : Prop :=
  match l with
  | [] => True
  | i :: l =>
      match interval_state i with
      | ScheduledForApply => (r ≤ 0)%nat ∧ ordered 0 l
      | Downloaded => (r ≤ 1)%nat ∧ ordered 1 l
      | Open => ((r ≤ 1)%nat ∨ fresh i) ∧ ordered 2 l
      end
  end.

Lemma ordered_mono r r' l : (r' ≤ r)%nat → ordered r l → ordered r' l.
Proof.
  destruct l as [|i l]; [done|]. cbn. intros Hr. destruct (interval_state i); intros [H1 H2]; (split; [|done]); [|lia..].
  destruct H1; [left; lia|by right].
Qed.

Lemma ordered_drop n r l : ordered r l → ordered 0 (drop n l).
Proof.
  revert r l. induction n as [|n IH]; intros r l Hl; [apply (ordered_mono r); [lia|done]|].
  destruct l as [|i l]; [done|]. cbn in *. destruct (interval_state i); destruct Hl as [_ Hl]; by eapply IH.
Qed.

Lemma ordered_app_fresh r l l' : ordered r l → Forall fresh l' → ordered r (l ++ l').
Proof.
  intros Hl Hf. revert r Hl. induction l as [|i l IH]; intros r Hl; cbn in *.
  - clear Hl. revert r. induction Hf as [|i l' Hi Hf IH]; intros r; [done|]. cbn. pose proof Hi as [-> _].
    split; [by right|]. apply IH.
  - destruct (interval_state i); destruct Hl as [H1 Hl]; (split; [done|]); by apply IH.
Qed.

Lemma ordered_open l : ordered 2 l → Forall fresh l.
Proof.
  induction l as [|i l IH]; [done|]. cbn. destruct (interval_state i); [|by intros [??]; lia..].
  intros [[?|Hf] Hl]; [lia|]. by constructor; [|apply IH].
Qed.

Lemma ordered_downloaded l :
  ordered 1 l → ∃ l2 l3 l4, l = l2 ++ l3 ++ l4 ∧ Forall (λ i, interval_state i = Downloaded) l2 ∧
    Forall (λ i, interval_state i = Open) l3 ∧ (length l3 ≤ 1)%nat ∧ Forall fresh l4.
Proof.
  induction l as [|i l IH]; [intros _; exists [], [], []; cbn; repeat split; (lia || constructor)|].
  cbn. destruct (interval_state i) eqn:Ei; [| |by intros [??]; lia].
  - intros [_ Hl]. exists [], [i], l. cbn. repeat split; [constructor|by constructor|lia|by apply ordered_open].
  - intros [_ Hl]. destruct (IH Hl) as (l2 & l3 & l4 & -> & Hp). exists (i :: l2), l3, l4.
    split; [done|]. split; [constructor; [done|]|]; tauto.
Qed.

Lemma ordered_parts l :
  ordered 0 l → ∃ l1 l2 l3 l4, l = l1 ++ l2 ++ l3 ++ l4 ∧ Forall (λ i, interval_state i = ScheduledForApply) l1 ∧
    Forall (λ i, interval_state i = Downloaded) l2 ∧
    Forall (λ i, interval_state i = Open) l3 ∧ (length l3 ≤ 1)%nat ∧ Forall fresh l4.
Proof.
  induction l as [|i l IH]; [intros _; exists [], [], [], []; cbn; repeat split; (lia || constructor)|].
  intros Hl. destruct (interval_state i) eqn:Ei.
  3: { cbn in Hl. rewrite Ei in Hl. destruct Hl as [_ Hl]. destruct (IH Hl) as (l1 & l2 & l3 & l4 & -> & Hp).
       exists (i :: l1), l2, l3, l4. split; [done|]. split; [constructor; [done|]|]; tauto. }
  all: assert (ordered 1 (i :: l)) as Hl1
    by (cbn in *; rewrite Ei in *; destruct Hl; (split; [by left || lia|done]));
    destruct (ordered_downloaded _ Hl1) as (l2 & l3 & l4 & -> & Hp); exists [], l2, l3, l4; (split; [done|]);
    (split; [constructor|done]).
Qed.

Definition intervals_ok (l : list BranchInterval) : Prop := (∃ start, linked start l) ∧ ordered 0 l.

Lemma intervals_ok_drop n l : intervals_ok l → intervals_ok (drop n l).
Proof.
  intros [[start Hl] Ho]. split; [eexists; by apply linked_drop|by eapply ordered_drop].
Qed.

(** *** Splitting *)

Lemma split_step_ok start l b :
  l ≠ [] → linked start l → Forall fresh l →
  let l' := split_step l b in l' ≠ [] ∧ linked start l' ∧ Forall fresh l' ∧ end_of start l' = b.
Proof.
  intros Hne Hl Hf. destruct (exists_last Hne) as (l0 & i & ->). unfold split_step. rewrite last_snoc. cbv zeta.
  rewrite removelast_last. apply linked_app in Hl as [Hl0 [Hs _]]. apply Forall_app in Hf as [Hf0 Hfi].
  apply Forall_singleton in Hfi as [Hi1 Hi2]. case_decide as Hse.
  - split; [by destruct l0|]. split; [|split].
    + rewrite !linked_app. split; [by split; [|split]|]. cbn. unfold end_of. by rewrite last_snoc.
    + rewrite !Forall_app, !Forall_singleton. by repeat split.
    + unfold end_of. by rewrite last_snoc.
  - split; [by destruct l0|]. split; [|split].
    + rewrite linked_app. split; [done|]. by split.
    + rewrite Forall_app, Forall_singleton. by repeat split.
    + unfold end_of. by rewrite last_snoc.
Qed.

Lemma split_fold_ok start blocks l :
  l ≠ [] → linked start l → Forall fresh l →
  let l' := foldl split_step l blocks in
  linked start l' ∧ Forall fresh l' ∧ l' ≠ [] ∧ end_of start l' = default (end_of start l) (last blocks).
Proof.
  revert l. induction blocks as [|b blocks IH]; intros l Hne Hl Hf; [done|]. cbn [foldl].
  destruct (split_step_ok start l b Hne Hl Hf) as (S1 & S2 & S3 & S4).
  destruct (IH _ S1 S2 S3) as (I1 & I2 & I3 & I4). do 3 (split; [done|]). rewrite I4, S4.
  destruct blocks as [|c blocks]; [done|]. cbn [last].
  by destruct (last (c :: blocks)) eqn:E; [|apply last_None in E].
Qed.

Lemma interval_split_ok first blocks :
  linked first (interval_split first blocks) ∧ Forall fresh (interval_split first blocks) ∧
  interval_split first blocks ≠ [] ∧ end_of first (interval_split first blocks) = default first (last blocks).
Proof. apply (split_fold_ok first blocks [interval_new first]); [done|by split|by apply Forall_singleton]. Qed.

(** *** The operations on a branch *)

Definition branch_ok (b : BranchState) : Prop := intervals_ok (intervals b).

Section Branches.
Context `{RocksDb}.

Lemma branch_new_ok start blocks level : branch_ok (branch_new start blocks level).
Proof.
  destruct (interval_split_ok start blocks) as (Hl & Hf & _). split; [by exists start|].
  apply (ordered_app_fresh 0 []); [done|]. exact Hf.
Qed.

Lemma branch_merge_ok b level history : branch_ok b → branch_ok (branch_merge b level history).1.
Proof.
  intros Hb. unfold branch_merge. destruct (last (intervals b)) as [i|] eqn:El; [|done].
  destruct (position_of _ _) as [pos|]; [|done]. case_decide; [|done].
  destruct (interval_split_ok (interval_end i) (drop (pos + 1) history)) as (Hl & Hf & Hne & _).
  destruct (interval_split _ _) as [|j l] eqn:Es; [done|]. destruct Hb as [[start Hs] Ho]. split.
  - exists start. cbn [fst intervals]. apply linked_app. split; [done|]. unfold end_of. by rewrite El.
  - by apply ordered_app_fresh.
Qed.

Lemma branch_block_applied_ok b applied blocks :
  branch_ok b → branch_ok (branch_block_applied b applied blocks).1.1.
Proof.
  intros Hb. unfold branch_block_applied.
  destruct (match last_applied_position _ _ with Some _ => _ | None => _ end) as [to_apply [applied1 blocks1]].
  destruct (list_find _ _) as [[idx i]|]; [|done]. case_decide.
  - destruct (remove_interval _ _) as [a c]. destruct (foldl _ _ _) as [a' c']. unfold branch_ok.
    cbn [fst intervals]. rewrite delete_take_drop. destruct (decide (idx ≤ length (intervals b))%nat) as [Hle|Hgt].
    + rewrite drop_app_length' by (rewrite length_take; lia). by apply intervals_ok_drop.
    + rewrite drop_ge; [by split; [exists []|]|]. rewrite length_app, length_take, length_drop. lia.
  - destruct (foldl _ _ _) as [a' c']. by apply intervals_ok_drop.
Qed.

Lemma trim_applied_ok b last blocks : branch_ok b → branch_ok (trim_applied b last blocks).1.
Proof.
  intros Hb. unfold trim_applied. destruct last as [h|]; [|done].
  destruct (remove_with_all_predecessors h blocks) as [applied blocks1].
  pose proof (branch_block_applied_ok b (applied ∪ {[h]}) blocks1 Hb) as Hok.
  by destruct (branch_block_applied _ _ _) as [[b' a] c].
Qed.

Lemma shift_ok rounds i m blocks db i' m' missing applied :
  shift_and_find_next_missing_predecessor rounds i m blocks db = Some (i', m', missing, applied) →
  interval_start i' = interval_start i ∧ interval_end i' = interval_end i ∧
  (interval_state i = Open → interval_state i' = Open ∨ interval_state i' = Downloaded).
Proof.
  unfold shift_and_find_next_missing_predecessor. case_decide as Hs; [intros [= <- <- <- <-]; tauto|].
  destruct (find_last_known_predecessor _ _ _ _ _ _) as [[[m1 [p close]] a]|]; [|done].
  intros [= <- <- _ <-]. cbn. do 2 (split; [done|]). intros ->. destruct (_ || _); tauto.
Qed.

Lemma collect_headers_ok rounds count ignored prev l m todo last blocks db l' m' todo' last' r start :
  collect_headers rounds count ignored prev l m todo last blocks db = Some (l', m', todo', last') →
  linked start l → ordered r l → (prev = true → (r ≤ 1)%nat) → linked start l' ∧ ordered r l'.
Proof.
  revert prev m todo last l' m' todo' last' r start.
  induction l as [|i l IH]; intros prev m todo last l' m' todo' last' r start E Hl Ho Hr.
  { injection E as <- <- <- <-. done. }
  cbn [collect_headers] in E. destruct prev; cbn [negb] in E; [|by injection E as <- <- <- <-].
  specialize (Hr eq_refl). destruct Hl as [Hs Hl]. cbn [ordered] in Ho. case_decide as Hopen.
  - destruct (collect_headers _ _ _ true l _ _ _ _ _) as [[[[l1 m1] t1] a1]|] eqn:E1; [|done].
    injection E as <- <- <- <-. cbn [linked ordered].
    destruct (interval_state i); [done| |]; destruct Ho as [Hri Ho];
      (destruct (IH _ _ _ _ _ _ _ _ _ _ E1 Hl Ho) as [I1 I2]; [lia|done]).
  - rewrite Hopen in Ho. destruct Ho as [_ Ho].
    destruct (shift_and_find_next_missing_predecessor _ _ _ _ _) as [[[[i' m1] missing] applied]|] eqn:Es; [|done].
    destruct (shift_ok _ _ _ _ _ _ _ _ _ Es) as (Es1 & Es2 & Es3). specialize (Es3 Hopen).
    set (todo1 := match missing with Some _ => _ | None => _ end) in *.
    set (last1 := match applied with Some _ => _ | None => _ end) in *.
    case_decide as Hcount.
    + injection E as <- <- <- <-. cbn [linked ordered]. split; [by rewrite Es1, Es2|].
      destruct Es3 as [->| ->]; (split; [by left || done|]); [done|]. by eapply ordered_mono; [|exact Ho]; lia.
    + destruct (collect_headers _ _ _ _ l _ _ _ _ _) as [[[[l1 m2] t1] a1]|] eqn:E1; [|done].
      injection E as <- <- <- <-. cbn [linked ordered]. rewrite Es1, Es2.
      destruct Es3 as [Es3|Es3]; rewrite Es3 in *.
      * destruct (IH _ _ _ _ _ _ _ _ 2%nat _ E1 Hl Ho) as [I1 I2]; [by rewrite bool_decide_eq_true|].
        split; [done|]. split; [by left|done].
      * destruct (IH _ _ _ _ _ _ _ _ 1%nat _ E1 Hl) as [I1 I2]; [by eapply ordered_mono; [|exact Ho]; lia|done|].
        done.
Qed.

Lemma collect_next_block_headers_ok rounds b count ignored todo blocks db b' todo' blocks' :
  collect_next_block_headers_to_download rounds b count ignored todo blocks db = Some (b', todo', blocks') →
  branch_ok b → branch_ok b'.
Proof.
  unfold collect_next_block_headers_to_download. case_decide; [by intros [= <- <- <-]|].
  destruct (collect_headers _ _ _ _ _ _ _ _ _ _) as [[[[l m] t] a]|] eqn:E; [|done].
  destruct (trim_applied _ _ _) as [b1 c1] eqn:Et. intros [= <- <- <-] [[start Hl] Ho].
  destruct (collect_headers_ok _ _ _ _ _ _ _ _ _ _ _ _ _ _ 0%nat start E Hl Ho) as [Hl' Ho']; [lia|].
  pose proof (trim_applied_ok (mkBranch (branch_to_level b) l m (blocks_to_apply b)) a blocks) as Hok.
  rewrite Et in Hok. apply Hok. split; [by exists start|done].
Qed.

Lemma take_downloaded_ok rounds l to_apply blocks db l' to_apply' r start :
  take_downloaded rounds l to_apply blocks db = Some (l', to_apply', r) →
  linked start l → ordered 0 l → linked start l' ∧ ordered 0 l'.
Proof.
  revert to_apply l' to_apply' r start. induction l as [|i l IH]; intros to_apply l' to_apply' r start E Hl Ho.
  { injection E as <- <- <-. done. }
  cbn [take_downloaded] in E. destruct (interval_state i) eqn:Ei; [by injection E as <- <- <-| |].
  - destruct (collect_blocks_for_apply _ _ _ _) as [[bs|e]|]; [|by injection E as <- <- <-|done].
    destruct (take_downloaded _ l _ _ _) as [[[l1 t1] r1]|] eqn:E1; [|done]. injection E as <- <- <-.
    cbn [linked ordered] in *. rewrite Ei in Ho. destruct Hl as [Hs Hl], Ho as [_ Ho].
    destruct (IH _ _ _ _ _ E1 Hl) as [I1 I2]; [by eapply ordered_mono; [|exact Ho]; lia|]. done.
  - destruct (take_downloaded _ l _ _ _) as [[[l1 t1] r1]|] eqn:E1; [|done]. injection E as <- <- <-.
    cbn [linked ordered] in *. rewrite Ei in *. destruct Hl as [Hs Hl], Ho as [Hr Ho].
    by destruct (IH _ _ _ _ _ E1 Hl Ho) as [I1 I2].
Qed.

Lemma schedule_next_block_ok rounds b max blocks db b' blocks' sent r :
  schedule_next_block_to_apply rounds b max blocks db = Some (b', blocks', sent, r) → branch_ok b → branch_ok b'.
Proof.
  unfold schedule_next_block_to_apply. intros E [[start Hl] Ho].
  destruct (take_downloaded _ _ _ _ _) as [[[l1 t1] [u|e]]|] eqn:E1; [| |done];
    destruct (take_downloaded_ok _ _ _ _ _ _ _ _ start E1 Hl Ho) as [Hl1 Ho1]; [|injection E as <- _ _ _; by split; [exists start|]].
  destruct (schedule_loop _ _ _ _) as [st [u'|e]]; [|injection E as <- _ _ _; by split; [exists start|]].
  destruct (trim_applied _ _ _) as [b1 c1] eqn:Et. injection E as <- _ _ _.
  match type of Et with trim_applied ?x ?y ?z = _ => pose proof (trim_applied_ok x y z) as Hok end.
  rewrite Et in Hok. apply Hok. split; [by exists start|done].
Qed.

(** *** Peers *)

Definition peer_bootstrap_ok (max : Z) (p : PeerBootstrapState) : Prop :=
  Forall branch_ok (branches p) ∧ len (branches p) ≤ Z.max 1 max.
Definition bootstrap_ok (max : Z) (self : BootstrapState) : Prop :=
  map_Forall (λ _, peer_bootstrap_ok max) (bootstrap_peers self).

Lemma for_each_peer_ok {A} max order (f : string → A → PeerBootstrapState → A * PeerBootstrapState) acc peers :
  (∀ id acc p, peer_bootstrap_ok max p → peer_bootstrap_ok max (f id acc p).2) →
  map_Forall (λ _, peer_bootstrap_ok max) peers →
  map_Forall (λ _, peer_bootstrap_ok max) (for_each_peer order f acc peers).2.
Proof.
  intros Hf. unfold for_each_peer. revert acc peers. induction order as [|id order IH]; intros acc peers Hp; [done|].
  cbn [foldl]. destruct (peers !! id) as [p|] eqn:E; [|by apply IH].
  specialize (Hf id acc p (Hp id p E)). destruct (f id acc p) as [acc' p']. apply IH.
  by apply map_Forall_insert_2.
Qed.

Lemma filter_branches_ok max P `{∀ b, Decision (P b)} p :
  peer_bootstrap_ok max p → peer_bootstrap_ok max (set_branches p (filter P (branches p))).
Proof.
  intros [H1 H2]. rewrite Forall_forall in H1. split.
  { apply Forall_forall. intros b [_ Hb]%list_elem_of_filter. by apply H1. }
  cbn [branches set_branches].
  pose proof (length_filter P (branches p)). unfold len in *. lia.
Qed.

Lemma mark_if_empty_ok max now p : peer_bootstrap_ok max p → peer_bootstrap_ok max (mark_if_empty now p).
Proof.
  intros Hp. unfold mark_if_empty. destruct (branches p) eqn:E; [|done].
  destruct (empty_bootstrap_state p); [done|]. split; [constructor|]. change (0 ≤ Z.max 1 max). lia.
Qed.

Lemma peer_same_branches max p p' :
  branches p' = branches p → peer_bootstrap_ok max p → peer_bootstrap_ok max p'.
Proof. unfold peer_bootstrap_ok. by intros ->. Qed.

Lemma merge_first_ok l level history l' :
  merge_first l level history = Some l' → Forall branch_ok l → Forall branch_ok l' ∧ length l' = length l.
Proof.
  revert l'. induction l as [|b l IH]; intros l' E Hl; [done|]. cbn [merge_first] in E.
  apply Forall_cons in Hl as [Hb Hl]. pose proof (branch_merge_ok b level history Hb) as Hm.
  destruct (branch_merge b level history) as [b' [|]]; [injection E as <-; by split; [constructor|]|].
  destruct (merge_first l level history) as [l1|]; [|done]. injection E as <-.
  destruct (IH l1 eq_refl Hl) as [I1 I2]. split; [by constructor|]. cbn. by rewrite I2.
Qed.

Lemma bootstrap_ok_insert max self id p blocks :
  bootstrap_ok max self → peer_bootstrap_ok max p →
  bootstrap_ok max (mkBootstrap (<[id := p]> (bootstrap_peers self)) blocks).
Proof. intros Hs Hp. by apply map_Forall_insert_2. Qed.

Lemma add_new_branch_ok id start history level max self :
  bootstrap_ok max self → bootstrap_ok max (add_new_branch id start history level max self).1.
Proof.
  intros Hs. unfold add_new_branch. pose proof (branch_new_ok start history level) as Hn.
  destruct (bootstrap_peers self !! id) as [p|] eqn:E.
  - destruct (Hs id p E) as [Hb Hl]. destruct (merge_first _ _ _) as [l|] eqn:Em.
    + destruct (merge_first_ok _ _ _ _ Em Hb) as [Hb' Hlen]. apply bootstrap_ok_insert; [done|].
      split; [done|].
  cbn [branches set_branches set_active]. unfold len in *. lia.
    + case_decide; [done|]. apply bootstrap_ok_insert; [done|]. split; [by apply Forall_app_2; [|constructor]|].
      cbn [branches set_active]. rewrite len_app. change (len [_]) with 1. lia.
  - apply bootstrap_ok_insert; [done|]. split; [by constructor|]. change (1 ≤ Z.max 1 max). lia.
Qed.

Lemma try_update_branch_ok id block max self :
  bootstrap_ok max self → bootstrap_ok max (try_update_branch id block self).1.
Proof.
  intros Hs. unfold try_update_branch. destruct (bootstrap_peers self !! id) as [p|] eqn:E; [|done].
  destruct (Hs id p E) as [Hb Hl]. destruct (merge_first _ _ _) as [l|] eqn:Em; [|done].
  destruct (merge_first_ok _ _ _ _ Em Hb) as [Hb' Hlen]. apply bootstrap_ok_insert; [done|].
  split; [done|].
  cbn [branches set_branches set_active]. unfold len in *. lia.
Qed.

Lemma collect_headers_of_branches_ok rounds capacity queued l todo blocks db l' todo' blocks' :
  collect_headers_of_branches rounds capacity queued l todo blocks db = Some (l', todo', blocks') →
  Forall branch_ok l → Forall branch_ok l' ∧ length l' = length l.
Proof.
  revert capacity todo blocks l' todo' blocks'.
  induction l as [|b l IH]; intros capacity todo blocks l' todo' blocks' E Hl; [by injection E as <- <- <-|].
  cbn [collect_headers_of_branches] in E. case_decide; [by injection E as <- <- <-|].
  destruct (collect_next_block_headers_to_download _ _ _ _ _ _ _) as [[[b1 t1] c1]|] eqn:E1; [|done].
  destruct (collect_headers_of_branches _ _ _ l _ _ _) as [[[l1 t2] c2]|] eqn:E2; [|done]. injection E as <- <- <-.
  apply Forall_cons in Hl as [Hb Hl]. destruct (IH _ _ _ _ _ _ E2 Hl) as [I1 I2].
  split; [|cbn; by rewrite I2]. constructor; [|done]. by eapply collect_next_block_headers_ok.
Qed.

Lemma schedule_branches_ok rounds m l blocks db l' blocks' sent levels :
  schedule_branches rounds m l blocks db = Some (l', blocks', sent, levels) →
  Forall branch_ok l → Forall branch_ok l' ∧ length l' = length l.
Proof.
  revert blocks l' blocks' sent levels. induction l as [|b l IH]; intros blocks l' blocks' sent levels E Hl.
  { by injection E as <- <- <- <-. }
  cbn [schedule_branches] in E.
  destruct (schedule_next_block_to_apply _ _ _ _ _) as [[[[b1 c1] s1] r1]|] eqn:E1; [|done].
  destruct (schedule_branches _ _ l _ _) as [[[[l1 c2] s2] r2]|] eqn:E2; [|done]. injection E as <- <- <- <-.
  apply Forall_cons in Hl as [Hb Hl]. destruct (IH _ _ _ _ _ E2 Hl) as [I1 I2].
  split; [|cbn; by rewrite I2]. constructor; [|done]. by eapply schedule_next_block_ok.
Qed.

Lemma schedule_blocks_to_download_ok rounds now id q max self db self' q' out :
  schedule_blocks_to_download rounds now id q self db = Some (self', q', out) →
  bootstrap_ok max self → bootstrap_ok max self'.
Proof.
  unfold schedule_blocks_to_download. intros E Hs. destruct (bootstrap_peers self !! id) as [p|] eqn:Ep;
    [|by injection E as <- <- <-].
  destruct (get_already_queued_block_headers_and_max_capacity q) as [queued capacity].
  destruct (collect_headers_of_branches _ _ _ _ _ _ _) as [[[l t] c]|] eqn:Ec; [|done].
  destruct (fetch_block_headers _ _ _ _) as [[q1 rs] ok]. injection E as <- <- <-. destruct (Hs id p Ep) as [Hb Hl].
  destruct (collect_headers_of_branches_ok _ _ _ _ _ _ _ _ _ _ Ec Hb) as [Hb' Hlen].
  apply bootstrap_ok_insert; [done|]. split; [done|].
  cbn [branches set_branches set_active]. unfold len in *. lia.
Qed.

Lemma block_operations_downloaded_ok b max self :
  bootstrap_ok max self → bootstrap_ok max (block_operations_downloaded b self).
Proof.
  intros Hs id p E. cbn in E. apply lookup_fmap_Some in E as (p0 & <- & E). destruct (Hs id p0 E) as [Hb Hl].
  split; cbn [branches set_branches].
  - apply Forall_map. eapply Forall_impl; [exact Hb|]. done.
  - unfold len in *. by rewrite length_map.
Qed.

Lemma schedule_operations_to_download_ok iter iter' now id q max self db :
  bootstrap_ok max self →
  bootstrap_ok max (schedule_operations_to_download iter iter' now id q self db).1.1.
Proof.
  intros Hs. unfold schedule_operations_to_download. destruct (bootstrap_peers self !! id) as [p|]; [|done].
  destruct (get_already_queued_block_operations_and_max_capacity q) as [queued capacity].
  destruct (fetch_block_operations _ _ _ _ _) as [[[q1 rs] done'] ok]. cbn [fst]. revert self Hs.
  induction done' as [|b l IH]; intros self Hs; [done|]. cbn [foldl]. apply IH. by apply block_operations_downloaded_ok.
Qed.

Lemma schedule_blocks_for_apply_ok rounds id m max self db self' out :
  schedule_blocks_for_apply rounds id m self db = Some (self', out) → bootstrap_ok max self → bootstrap_ok max self'.
Proof.
  unfold schedule_blocks_for_apply. intros E Hs. destruct (bootstrap_peers self !! id) as [p|] eqn:Ep;
    [|by injection E as <- <-].
  destruct (schedule_branches _ _ _ _ _) as [[[[l c] s] lv]|] eqn:Eb; [|done]. injection E as <- <-.
  destruct (Hs id p Ep) as [Hb Hl]. destruct (schedule_branches_ok _ _ _ _ _ _ _ _ _ Eb Hb) as [Hb' Hlen].
  apply bootstrap_ok_insert; [done|].
  apply (filter_branches_ok max (λ b, branch_to_level b ∉ lv) (set_branches p l)).
  split; [done|].
  cbn [branches set_branches set_active]. unfold len in *. lia.
Qed.

Lemma finish_branches_ok now id max p : peer_bootstrap_ok max p → peer_bootstrap_ok max (finish_branches now id p).2.
Proof.
  intros Hp. cbn [finish_branches snd]. apply mark_if_empty_ok.
  eapply peer_same_branches; [|by apply (filter_branches_ok max (λ b, is_done b = false))]. done.
Qed.

Lemma check_bootstrapped_branches_ok order now filter max self :
  bootstrap_ok max self → bootstrap_ok max (check_bootstrapped_branches order now filter self).1.
Proof.
  intros Hs. unfold check_bootstrapped_branches.
  match goal with |- context [for_each_peer order ?f ?a ?p] =>
    pose proof (for_each_peer_ok max order f a p) as Hok; destruct (for_each_peer order f a p) as [msgs peers] end.
  apply Hok; [|done]. intros id acc p Hp. pose proof (finish_branches_ok now id max p Hp) as Hfin.
  destruct (finish_branches now id p) as [m p']. destruct filter as [id'|]; [case_decide|]; done.
Qed.

Lemma branches_block_applied_ok acc l :
  Forall branch_ok l →
  Forall branch_ok (branches_block_applied acc l).2 ∧ length (branches_block_applied acc l).2 = length l.
Proof.
  unfold branches_block_applied. intros Hl.
  assert (∀ a c pre, Forall branch_ok pre →
    let r := foldl (λ '(applied, blocks, l0) branch,
       let '(branch0, applied0, blocks0) := branch_block_applied branch applied blocks in
       (applied0, blocks0, l0 ++ [branch0])) (a, c, pre) l in
    Forall branch_ok r.2 ∧ length r.2 = (length pre + length l)%nat) as Hgen; [|by apply Hgen].
  induction Hl as [|b l Hb Hl IH]; intros a c pre Hpre; cbn [foldl]; [cbn; split; [done|lia]|].
  pose proof (branch_block_applied_ok b a c Hb) as Hb'.
  destruct (branch_block_applied b a c) as [[b' a'] c'].
  destruct (IH a' c' (pre ++ [b'])) as [I1 I2]; [by apply Forall_app_2; [|constructor]|].
  split; [done|]. rewrite I2, length_app. cbn. lia.
Qed.

Lemma block_applied_ok order now b max self :
  bootstrap_ok max self → bootstrap_ok max (block_applied order now b self).1.
Proof.
  intros Hs. unfold block_applied.
  match goal with |- context [for_each_peer order ?f ?a ?p] =>
    pose proof (for_each_peer_ok max order f a p) as Hok; destruct (for_each_peer order f a p) as [[a' c'] peers] end.
  apply check_bootstrapped_branches_ok. apply Hok; [|done]. intros id acc p [Hp Hl].
  destruct (branches_block_applied_ok acc (branches p) Hp) as [Hb Hlen].
  destruct (branches_block_applied acc (branches p)) as [[x y] l]. cbn [snd] in *. split; [done|].
  cbn [branches set_branches]. unfold len in *. lia.
Qed.

Lemma block_apply_failed_ok order now b max self :
  bootstrap_ok max self → bootstrap_ok max (block_apply_failed order now b self).
Proof.
  intros Hs. unfold block_apply_failed.
  match goal with |- context [for_each_peer order ?f ?a ?p] =>
    pose proof (for_each_peer_ok max order f a p) as Hok; destruct (for_each_peer order f a p) as [u peers] end.
  apply Hok; [|done]. intros id acc p Hp. apply mark_if_empty_ok. by apply filter_branches_ok.
Qed.

(** *** The bootstrapper *)

Lemma process_peer_ok env cfg rounds id self queues out db self' queues' out' max :
  process_peer env cfg rounds id self queues out db = Some (self', queues', out') →
  bootstrap_ok max (bootstrap_state self) → bootstrap_ok max (bootstrap_state self').
Proof.
  unfold process_peer, process_bootstrap_pipelines. intros E Hs.
  destruct (schedule_blocks_to_download _ _ _ _ _ _) as [[[s1 q1] o1]|] eqn:E1; [|done].
  pose proof (schedule_blocks_to_download_ok _ _ _ _ max _ _ _ _ _ E1 Hs) as H1.
  pose proof (schedule_operations_to_download_ok (order_of_blocks env) (order_of_passes env) (instant env) id q1
    max s1 db H1) as H2.
  destruct (schedule_operations_to_download _ _ _ _ _ _ _) as [[s2 q2] o2]. cbn [fst] in H2.
  destruct (schedule_blocks_for_apply _ _ _ _ _) as [[s3 o3]|] eqn:E3; [|done].
  pose proof (schedule_blocks_for_apply_ok _ _ _ max _ _ _ _ E3 H2) as H3.
  pose proof (check_bootstrapped_branches_ok (order_of_peers env) (instant env) (Some id) max s3 H3) as H4.
  destruct (check_bootstrapped_branches _ _ _ _) as [s4 o4]. by injection E as <- <- <-.
Qed.

Lemma clean_peer_data_ok id max self : bootstrap_ok max self → bootstrap_ok max (clean_peer_data id self).
Proof. intros Hs. by apply map_Forall_delete. Qed.

Lemma check_stalled_peers_ok iter order now cfg queues max self :
  bootstrap_ok max self → bootstrap_ok max (check_stalled_peers iter order now cfg queues self).1.
Proof.
  unfold check_stalled_peers. cbn [fst]. generalize (filter (λ id, match bootstrap_peers self !! id with
    | Some peer => is_stalled iter now cfg peer (queues id) | None => false end = true) order). intros l.
  revert self. induction l as [|id l IH]; intros self Hs; [done|]. cbn [foldl]. by apply IH, clean_peer_data_ok.
Qed.

Lemma schedule_pings_ok order max acc :
  bootstrap_ok max acc.1 →
  bootstrap_ok max (foldl schedule_process_bootstrap_pipeline_for_peer acc order).1.
Proof.
  revert acc. induction order as [|id order IH]; intros [self out] Hs; [done|]. cbn [foldl]. apply IH.
  cbn [schedule_process_bootstrap_pipeline_for_peer fst] in *.
  destruct (bootstrap_peers self !! id) as [p|] eqn:E; [|done]. destruct (peer_ping_scheduled p); [done|].
  apply bootstrap_ok_insert; [done|]. by apply (peer_same_branches max p); [|apply (Hs id)].
Qed.

Lemma schedule_all_ok max self :
  bootstrap_ok max (bootstrap_state self) →
  bootstrap_ok max (bootstrap_state (schedule_process_all_bootstrap_pipelines self).1).
Proof. intros Hs. unfold schedule_process_all_bootstrap_pipelines. by destruct (ping_scheduled self). Qed.

Lemma bootstrapper_receive_ok env cfg chain rounds msg self queues db self' queues' out :
  receive env cfg chain rounds self queues db msg = Some (self', queues', out) →
  bootstrap_ok (max_bootstrap_branches_per_peer cfg) (bootstrap_state self) →
  bootstrap_ok (max_bootstrap_branches_per_peer cfg) (bootstrap_state self').
Proof.
  set (max := max_bootstrap_branches_per_peer cfg). intros E Hs.
  destruct msg as [id c start|id head|[id|]|id b a o|id b|b|b| |id]; cbn [receive] in E;
    unfold start_branch_bootstraping, update_branch_bootstraping, ping_bootstrap_pipelines_processing, update_block_state,
      update_operations_state, apply_block_batch_done, apply_block_batch_failed, disconnect_stalled_bootstraps in E.
  - case_decide; [by injection E as <- _ _|].
    pose proof (add_new_branch_ok id (start_last_applied_block start) (start_missing_history start)
      (start_to_level start) max _ Hs) as Hn.
    fold max in E. destruct (add_new_branch _ _ _ _ _ _) as [st r]. by eapply process_peer_ok.
  - pose proof (try_update_branch_ok id head max _ Hs) as Hn. destruct (try_update_branch _ _ _) as [st [|]].
    + by eapply process_peer_ok.
    + by injection E as <- _ _.
  - destruct (bootstrap_peers (bootstrap_state self) !! id) as [p|] eqn:Ep; [|by injection E as <- _ _].
    eapply process_peer_ok; [exact E|]. apply bootstrap_ok_insert; [done|].
    by apply (peer_same_branches max p); [|apply (Hs id)].
  - pose proof (schedule_pings_ok (order_of_peers env) max (bootstrap_state self, []) Hs) as Hn.
    destruct (foldl _ _ _) as [st o]. by injection E as <- _ _.
  - unfold block_downloaded in E.
    pose proof (block_applied_ok (order_of_peers env) (instant env) b max _ Hs) as Ha.
    pose proof (block_operations_downloaded_ok b max _ Hs) as Ho.
    destruct (block_applied _ _ _ _) as [st o']. destruct a; [|destruct o]; by eapply process_peer_ok.
  - eapply process_peer_ok; [exact E|]. by apply block_operations_downloaded_ok.
  - pose proof (block_applied_ok (order_of_peers env) (instant env) b max _ Hs) as Ha.
    destruct (block_applied _ _ _ _) as [st o'].
    pose proof (schedule_all_ok max (with_state self st) Ha) as Hp.
    destruct (schedule_process_all_bootstrap_pipelines _) as [self1 o1]. by injection E as <- _ _.
  - pose proof (block_apply_failed_ok (order_of_peers env) (instant env) b max _ Hs) as Ha.
    pose proof (schedule_all_ok max (with_state self _) Ha) as Hp.
    destruct (schedule_process_all_bootstrap_pipelines _) as [self1 o1]. by injection E as <- _ _.
  - pose proof (check_bootstrapped_branches_ok (order_of_peers env) (instant env) None max _ Hs) as H1.
    destruct (check_bootstrapped_branches _ _ _ _) as [s1 o1].
    pose proof (check_stalled_peers_ok (order_of_blocks env) (order_of_peers env) (instant env) cfg
      (queues_of queues) max s1 H1) as H2.
    destruct (check_stalled_peers _ _ _ _ _ _) as [s2 o2].
    pose proof (schedule_all_ok max (with_state self s2) H2) as Hp.
    destruct (schedule_process_all_bootstrap_pipelines _) as [self1 o3]. by injection E as <- _ _.
  - injection E as <- _ _. by apply clean_peer_data_ok.
Qed.

(** The states that messages lead to; queues, storages, orders and times may be
    anything at each message. *)
Inductive bootstrapper_reachable (cfg : BootstrapperConfiguration) (chain_id : bytes) : PeerBranchBootstrapper → Prop :=
| bootstrapper_started : bootstrapper_reachable cfg chain_id (mkBootstrapper bootstrap_new false)
| bootstrapper_received env rounds msg self queues db self' queues' out :
    bootstrapper_reachable cfg chain_id self →
    receive env cfg chain_id rounds self queues db msg = Some (self', queues', out) →
    bootstrapper_reachable cfg chain_id self'.

(** C31: The branches of all peers stay in order.  After any messages, with anything in
    the storages and queues, no peer has more branches than allowed, and in each branch
    the intervals are without gaps, one starting where the one before it ends; first
    come the scheduled ones, then the downloaded ones, then at most one that is being
    downloaded, and then those that no search has touched. *)
Theorem branches_in_order cfg chain_id self :
  bootstrapper_reachable cfg chain_id self →
  ∀ id peer, bootstrap_peers (bootstrap_state self) !! id = Some peer →
    len (branches peer) ≤ Z.max 1 (max_bootstrap_branches_per_peer cfg) ∧
    ∀ branch, branch ∈ branches peer →
      ∃ scheduled downloaded current untouched,
        intervals branch = scheduled ++ downloaded ++ current ++ untouched ∧
        (∃ start, linked start (intervals branch)) ∧
        Forall (λ i, interval_state i = ScheduledForApply) scheduled ∧
        Forall (λ i, interval_state i = Downloaded) downloaded ∧
        Forall (λ i, interval_state i = Open) current ∧ (length current ≤ 1)%nat ∧
        Forall (λ i, interval_state i = Open ∧ seek i = interval_end i) untouched.
Proof.
  intros Hr. assert (bootstrap_ok (max_bootstrap_branches_per_peer cfg) (bootstrap_state self)) as Hok.
  { induction Hr as [|env rounds msg self queues db self' queues' out Hr IH E]; [apply map_Forall_empty|].
    by eapply bootstrapper_receive_ok. }
  intros id peer E. destruct (Hok id peer E) as [Hb Hl]. split; [done|]. intros b Hin.
  rewrite Forall_forall in Hb. destruct (Hb b Hin) as [Hlink Hord].
  destruct (ordered_parts (intervals b) Hord) as (l1 & l2 & l3 & l4 & Hparts).
  exists l1, l2, l3, l4. tauto.
Qed.
End Branches.
