(* ===== verification/BootstrapSchedule.v ===== *)
(** * Bootstrapping of branches: downloads and batches

    Which header is asked for next, which blocks are sent to be applied, and two
    situations in which a branch does not go on. *)

From stdpp Require Import gmap.
From S2P Require Import Prelude Kv Blocks BlockMeta OperationsMeta Prevalidator Validation ShellState Requester ChainState Bootstrap BootstrapFacts.

Section Scheduling.
Context `{RocksDb}.

(** ** Batches *)

Definition pending (st : Scheduling) : list bytes :=
  match batch_for_apply st with Some batch => take_all_blocks_to_apply batch | None => [] end.
Definition all_blocks (batches : list ApplyBlockBatch) : list bytes :=
  concat (map take_all_blocks_to_apply batches).

(** The block is downloaded with its operations, and not applied. *)
Definition schedulable (db : DB) (b p : bytes) : Prop :=
  ∃ m, BlockMeta.get b db = Ok (Some m) ∧ is_applied m = false ∧ is_downloaded m = true ∧
    BlockMeta.predecessor m = Some p ∧ operations_complete b db = Ok true.

(** The batch that is being filled is not full. *)
Definition batch_open (max : Z) (st : Scheduling) : Prop :=
  match batch_for_apply st with Some batch => batch_total_size batch ≤ Z.max 1 max | None => True end.
Definition batches_ok (max : Z) (st : Scheduling) : Prop :=
  batch_open max st ∧ Forall (λ batch, batch_total_size batch ≤ Z.max 1 max + 1) (sent st).

Lemma all_blocks_app l l' : all_blocks (l ++ l') = all_blocks l ++ all_blocks l'.
Proof. unfold all_blocks. by rewrite map_app, concat_app. Qed.

Lemma add_new_successor batch b :
  b ∉ take_all_blocks_to_apply batch →
  add_successor batch b = mkBatch (block_to_apply batch) (batch_successors batch ++ [b]).
Proof. intros Hb. unfold add_successor. rewrite decide_False; [done|]. intros Hin. apply Hb. by right. Qed.

Lemma add_to_batch_ok max st b p :
  batches_ok max st → b ∉ pending st →
  let st' := add_to_batch max st b p in
  batches_ok max st' ∧ all_blocks (sent st') ++ pending st' = all_blocks (sent st) ++ pending st ++ [b] ∧
  (∀ x, x ∈ pending st' → x ∈ pending st ∨ x = b).
Proof.
  intros [Ho Hs] Hb. unfold add_to_batch. unfold batch_open in Ho. unfold pending in *.
  destruct (batch_for_apply st) as [batch|]; [rewrite add_new_successor by done; case_decide as Hc|];
    unfold batches_ok, batch_open, pending; cbn [sent batch_for_apply].
  - unfold batch_total_size, successors_size in *. cbn [batch_successors] in *.
    rewrite len_app in *. change (len [b]) with 1 in *. split; [split; [done|]|split].
    + apply Forall_app_2; [done|]. apply Forall_singleton. cbn [batch_successors]. rewrite len_app.
      change (len [b]) with 1. lia.
    + rewrite all_blocks_app. unfold all_blocks at 2. cbn. rewrite !app_nil_r. done.
    + by intros x ?%elem_of_nil.
  - unfold batch_total_size, successors_size in *. cbn [batch_successors] in *.
    rewrite len_app in *. change (len [b]) with 1 in *. split; [split; [lia|done]|split; [done|]].
    unfold take_all_blocks_to_apply. cbn. set_solver.
  - unfold batch_total_size, successors_size. cbn [start_batch batch_successors]. change (len (@nil bytes)) with 0.
    split; [split; [lia|done]|split; [done|]].
    unfold take_all_blocks_to_apply. cbn. set_solver.
Qed.

(** ** The loop over the blocks *)

(** What the loop adds to the batches: [new], in the order of the list.  If it does
    not fail, all blocks up to the first one with missing operations are dealt with. *)
Definition scheduled_by (max : Z) (db : DB) (l : list bytes) (st st' : Scheduling) (r : result () StateError) : Prop :=
  batches_ok max st' ∧ (∀ x, x ∈ pending st' → is_Some (cache st' !! x)) ∧
  ∃ new, all_blocks (sent st') ++ pending st' = all_blocks (sent st) ++ pending st ++ new ∧
    new `sublist_of` l ∧ NoDup new ∧
    (∀ b, b ∈ new → cache st !! b = None ∧ ∃ p, schedulable db b p ∧ cache st' !! b = Some p) ∧
    (∀ b, b ∉ new → cache st' !! b = cache st !! b) ∧
    (r = Ok () → ∃ past rest, l = past ++ rest ∧
       (∀ b, b ∈ past → is_Some (cache st' !! b) ∨ known_applied db b) ∧
       match rest with
       | [] => True
       | b :: _ => operations_complete b db ≠ Ok true ∧ b ∈ missing st'
       end).

Definition same_batches (st st' : Scheduling) : Prop :=
  cache st' = cache st ∧ batch_for_apply st' = batch_for_apply st ∧ sent st' = sent st.

Definition loop_ok (max : Z) (st : Scheduling) : Prop :=
  batches_ok max st ∧ ∀ x, x ∈ pending st → is_Some (cache st !! x).

Lemma loop_ok_same max st st' : same_batches st st' → loop_ok max st → loop_ok max st' ∧ pending st' = pending st.
Proof. unfold loop_ok, batches_ok, batch_open, pending. intros (-> & -> & ->). done. Qed.

Lemma loop_stop max db l st st' r :
  loop_ok max st → same_batches st st' →
  (r = Ok () → match l with [] => True | b :: _ => operations_complete b db ≠ Ok true ∧ b ∈ missing st' end) →
  scheduled_by max db l st st' r.
Proof.
  intros Hok Hs Hl. destruct (loop_ok_same max st st' Hs Hok) as [[Hb Hp] Epend]. destruct Hs as (Ec & _ & Es).
  split; [done|]. split; [done|]. exists []. rewrite app_nil_r, Epend, Es, Ec.
  split; [done|]. split; [apply sublist_nil_l|]. split; [constructor|]. split; [by intros b ?%elem_of_nil|].
  split; [done|]. intros Er. exists [], l. split; [done|]. split; [by intros b ?%elem_of_nil|by apply Hl].
Qed.

Lemma loop_skip max db b l st st1 st' r :
  same_batches st st1 → is_Some (cache st !! b) ∨ known_applied db b →
  scheduled_by max db l st1 st' r → scheduled_by max db (b :: l) st st' r.
Proof.
  intros Hs Hb (H1 & H2 & new & E & Hsub & Hnd & Hin & Hout & Hr). split; [done|]. split; [done|]. exists new.
  destruct Hs as (Ec & Eb & Es). unfold pending in E. rewrite Eb, Es in E. rewrite Ec in *. split; [done|].
  split; [by apply sublist_cons|]. do 3 (split; [done|]). intros Er.
  destruct (Hr Er) as (past & rest & -> & Hpast & Hrest). exists (b :: past), rest. split; [done|]. split; [|done].
  intros x [->|Hx]%elem_of_cons; [|by apply Hpast]. destruct Hb as [Hb|Hb]; [left|by right].
  destruct (decide (b ∈ new)) as [Hn|Hn]; [|by rewrite Hout].
  destruct (Hin b Hn) as (_ & p & _ & ->). by eexists.
Qed.

Lemma loop_add max db b p l st st' r :
  loop_ok max st → cache st !! b = None → schedulable db b p →
  loop_ok max (add_to_batch max st b p) ∧
  (scheduled_by max db l (add_to_batch max st b p) st' r → scheduled_by max db (b :: l) st st' r).
Proof.
  intros [Hok Hp] Hb Hsch. assert (b ∉ pending st) as Hnb by (intros Hx; apply Hp in Hx as [? ?]; congruence).
  destruct (add_to_batch_ok max st b p Hok Hnb) as (Hok1 & E1 & Hp1).
  assert (cache (add_to_batch max st b p) = <[b := p]> (cache st)) as Ec.
  { unfold add_to_batch. destruct (batch_for_apply st); [case_decide|]; done. }
  split.
  { split; [done|]. intros x [Hx| ->]%Hp1; rewrite Ec; [|by rewrite lookup_insert_eq; eauto].
    apply lookup_insert_is_Some'. right. by apply Hp. }
  intros (H1 & H2 & new & E & Hsub & Hnd & Hin & Hout & Hr). rewrite Ec in Hin, Hout.
  split; [done|]. split; [done|]. exists (b :: new).
  assert (b ∉ new) as Hn by (intros Hx; destruct (Hin b Hx) as [Hx' _]; by rewrite lookup_insert_eq in Hx').
  assert (cache st' !! b = Some p) as Ecb by (rewrite Hout, lookup_insert_eq by done; done).
  split; [|split; [by constructor|split; [by apply NoDup_cons|split; [|split]]]].
  - rewrite app_assoc in E. rewrite E, E1. by rewrite <- !app_assoc.
  - intros x [->|Hx]%elem_of_cons; [by eauto|]. destruct (Hin x Hx) as [Hx' ?]. split; [|done].
    by apply lookup_insert_None in Hx' as [? _].
  - intros x [Hne Hx]%not_elem_of_cons. rewrite Hout by done. by rewrite lookup_insert_ne.
  - intros Er. destruct (Hr Er) as (past & rest & -> & Hpast & Hrest). exists (b :: past), rest.
    split; [done|]. split; [|done]. intros x [->|Hx]%elem_of_cons; [left; by rewrite Ecb; eauto|by apply Hpast].
Qed.

Lemma schedule_loop_spec max l st db st' r :
  schedule_loop max l st db = (st', r) → loop_ok max st → scheduled_by max db l st st' r.
Proof.
  revert st. induction l as [|b l IH]; intros st E Hok; cbn [schedule_loop] in E.
  { injection E as <- <-. by apply loop_stop. }
  destruct (cache st !! b) as [p|] eqn:Eb.
  { apply (loop_skip _ _ _ _ _ (already_scheduled st b)); [done|by rewrite Eb; eauto|].
    apply IH; [done|]. by apply (loop_ok_same max st). }
  destruct (BlockMeta.get b db) as [[m|]|e] eqn:Em; [|by injection E as <- <-; apply loop_stop..].
  destruct (is_applied m) eqn:Ea.
  { apply (loop_skip _ _ _ _ _ (already_applied st b)); [done|by right; exists m|].
    apply IH; [done|]. by apply (loop_ok_same max st). }
  destruct (is_downloaded m) eqn:Ed; cbn [negb] in E; [|by injection E as <- <-; apply loop_stop].
  assert (operations_complete b db ≠ Ok true → (st', r) = (wait_for_operations st b, Ok ()) →
    scheduled_by max db (b :: l) st st' r) as Hwait.
  { intros Ho [= -> ->]. apply loop_stop; [done|done|]. intros _. split; [done|]. cbn. set_solver. }
  destruct (operations_complete b db) as [[|]|e] eqn:Eo; [|by apply Hwait..].
  destruct (BlockMeta.predecessor m) as [p|] eqn:Ep; [|by injection E as <- <-; apply loop_stop].
  destruct (loop_add max db b p l st st' r Hok Eb) as [Hok' Hadd]; [by exists m|]. apply Hadd. by apply IH.
Qed.

(** ** Scheduling of a branch *)

Lemma take_downloaded_prefix rounds l to_apply blocks db l' to_apply' r :
  take_downloaded rounds l to_apply blocks db = Some (l', to_apply', r) → to_apply `prefix_of` to_apply'.
Proof.
  revert to_apply l' to_apply' r. induction l as [|i l IH]; intros to_apply l' to_apply' r E;
    cbn [take_downloaded] in E; [by injection E as <- <- <-|].
  destruct (interval_state i); [by injection E as <- <- <-| |].
  - destruct (collect_blocks_for_apply _ _ _ _) as [[bs|e]|]; [|by injection E as <- <- <-|done].
    destruct (take_downloaded _ l _ _ _) as [[[l1 t1] r1]|] eqn:E1; [|done]. injection E as <- <- <-.
    etransitivity; [|by eapply IH]. by apply prefix_app_r.
  - destruct (take_downloaded _ l _ _ _) as [[[l1 t1] r1]|] eqn:E1; [|done]. injection E as <- <- <-. by eapply IH.
Qed.

Lemma remove_applied_subset acc b x : (remove_applied acc b).2 !! x = None ∨ (remove_applied acc b).2 !! x = acc.2 !! x.
Proof.
  unfold remove_applied. pose proof (remove_with_all_predecessors_spec b acc.2) as Hr.
  destruct (remove_with_all_predecessors b acc.2) as [removed blocks]. destruct Hr as [_ Hr]. cbn [snd].
  rewrite Hr. case_decide; tauto.
Qed.

Lemma fold_removed {A} (f : gset bytes * gmap bytes bytes → A → gset bytes * gmap bytes bytes) l acc x :
  (∀ acc a, (f acc a).2 !! x = None ∨ (f acc a).2 !! x = acc.2 !! x) →
  (foldl f acc l).2 !! x = None ∨ (foldl f acc l).2 !! x = acc.2 !! x.
Proof.
  intros Hf. revert acc. induction l as [|a l IH]; intros acc; [by right|]. cbn [foldl].
  destruct (IH (f acc a)) as [->| ->]; [by left|apply Hf].
Qed.

Lemma remove_interval_subset acc i x :
  (remove_interval acc i).2 !! x = None ∨ (remove_interval acc i).2 !! x = acc.2 !! x.
Proof.
  exact (fold_removed remove_applied [interval_start i; seek i; interval_end i] acc x
    (λ acc a, remove_applied_subset acc a x)).
Qed.

(** Applied blocks only remove blocks from the scheduled ones. *)
Lemma branch_block_applied_subset b applied blocks x :
  let '(b', _, blocks') := branch_block_applied b applied blocks in
  (blocks' !! x = None ∨ blocks' !! x = blocks !! x) ∧ missing_operations b' = missing_operations b.
Proof.
  unfold branch_block_applied.
  set (first := match last_applied_position _ _ with Some _ => _ | None => _ end).
  assert (first.2.2 !! x = None ∨ first.2.2 !! x = blocks !! x) as H1.
  { unfold first. destruct (last_applied_position _ _) as [idx|]; [|by right]. cbn [snd].
    exact (fold_removed remove_applied _ (applied, blocks) x (λ acc a, remove_applied_subset acc a x)). }
  destruct first as [to_apply [applied1 blocks1]]. cbn [snd] in H1.
  destruct (list_find _ _) as [[idx i]|]; [|by split].
  set (second := if decide _ then _ else _).
  assert (second.2.2 !! x = None ∨ second.2.2 !! x = blocks1 !! x) as H2.
  { unfold second. case_decide; [|by right]. apply (remove_interval_subset (applied1, blocks1)). }
  destruct second as [l2 acc2]. cbn [snd] in H2.
  pose proof (fold_removed remove_interval (take idx l2) acc2 x (λ acc a, remove_interval_subset acc a x)) as H3.
  destruct (foldl remove_interval acc2 (take idx l2)) as [a c]. cbn [snd] in H3. split; [|done].
  destruct H3 as [->| ->]; [by left|]. destruct H2 as [->| ->]; [by left|done].
Qed.

Lemma trim_applied_subset b last blocks x :
  ((trim_applied b last blocks).2 !! x = None ∨ (trim_applied b last blocks).2 !! x = blocks !! x) ∧
  missing_operations (trim_applied b last blocks).1 = missing_operations b.
Proof.
  unfold trim_applied. destruct last as [h|]; [|by split; [right|]].
  pose proof (remove_with_all_predecessors_spec h blocks) as Hr.
  destruct (remove_with_all_predecessors h blocks) as [applied blocks1]. destruct Hr as [_ Hr].
  pose proof (branch_block_applied_subset b (applied ∪ {[h]}) blocks1 x) as Hs.
  destruct (branch_block_applied _ _ _) as [[b' a] c]. destruct Hs as [Hs Hm]. split; [|done].
  cbn [snd]. destruct Hs as [->| ->]; [by left|]. rewrite Hr. case_decide; tauto.
Qed.

(** A block is not sent while it is scheduled. *)
Lemma sent_not_scheduled rounds self max blocks db self' blocks' sent r b :
  schedule_next_block_to_apply rounds self max blocks db = Some (self', blocks', sent, r) →
  b ∈ all_blocks sent → blocks !! b = None.
Proof.
  unfold schedule_next_block_to_apply. intros E Hb.
  destruct (take_downloaded _ _ _ _ _) as [[[l1 t1] [u|e]]|]; [| |done];
    [|injection E as <- <- <- <-; by apply elem_of_nil in Hb].
  destruct (schedule_loop _ _ _ _) as [st r'] eqn:El.
  apply schedule_loop_spec in El as (_ & _ & new & Enew & _ & _ & Hin & _);
    [|split; [by split; [|constructor]|by intros x ?%elem_of_nil]].
  cbn [cache Bootstrap.sent all_blocks pending batch_for_apply map concat app] in *. apply Hin. rewrite <- Enew.
  destruct r' as [u'|e]; [destruct (trim_applied _ _ _) as [b1 c1]|]; injection E as <- <- <- <-;
    [|apply elem_of_app; by left].
  rewrite all_blocks_app in Hb. unfold pending. destruct (batch_for_apply st); [|done].
  unfold all_blocks at 2 in Hb. cbn [map concat] in Hb. by rewrite app_nil_r in Hb.
Qed.


(** ** The walk to the next missing header *)

(** [path] leads from [b] over known predecessors, itself included, to [e], excluded. *)
Fixpoint walks (db : DB) (b : bytes) (path : list bytes) (e : bytes) : Prop :=
  match path with
  | [] => b = e
  | x :: path => x = b ∧ ∃ m p, BlockMeta.get b db = Ok (Some m) ∧ is_applied m = false ∧ is_downloaded m = true ∧
      BlockMeta.predecessor m = Some p ∧ p ≠ b ∧ walks db p path e
  end.

(** The block is its own predecessor. *)
Definition own_predecessor (db : DB) (b : bytes) : Prop :=
  ∃ m, BlockMeta.get b db = Ok (Some m) ∧ is_applied m = false ∧ is_downloaded m = true ∧
    BlockMeta.predecessor m = Some b.

(** The header, or its predecessor, is not known. *)
Definition header_missing (db : DB) (b : bytes) : Prop :=
  ∀ m, BlockMeta.get b db = Ok (Some m) →
    is_applied m = false ∧ (is_downloaded m = false ∨ BlockMeta.predecessor m = None).

(** Predecessors are lower, as far as they are known. *)
Definition lower_predecessors (db : DB) (height : bytes → nat) : Prop :=
  ∀ b m p, BlockMeta.get b db = Ok (Some m) → BlockMeta.predecessor m = Some p → p ≠ b →
    (height p < height b)%nat.

(** Why a walk ends at [e]. *)
Definition walk_end (blocks : gmap bytes bytes) (db : DB) (to e : bytes) (close : bool) (applied : option bytes) : Prop :=
  if close then
    (applied = None ∧ (is_Some (blocks !! e) ∨ e = to ∨ own_predecessor db e)) ∨
    (applied = Some e ∧ known_applied db e)
  else applied = None ∧ blocks !! e = None ∧ e ≠ to ∧ header_missing db e.

Lemma find_last_known_predecessor_spec height rounds b to missing blocks db :
  lower_predecessors db height → (height b < rounds)%nat →
  ∃ missing' e close applied path,
    find_last_known_predecessor rounds b to missing blocks db = Some (missing', (e, close), applied) ∧
    walks db b path e ∧ (∀ x, x ∈ path → blocks !! x = None ∧ x ≠ to) ∧ walk_end blocks db to e close applied ∧
    missing ⊆ missing' ∧ (∀ x, x ∈ path → operations_complete x db ≠ Ok true → x ∈ missing').
Proof.
  intros Hlow. revert b missing. induction rounds as [|rounds IH]; intros b missing Hh; [lia|].
  cbn [find_last_known_predecessor].
  assert (∀ missing' close applied, missing ⊆ missing' → walk_end blocks db to b close applied →
    ∃ m' e close' applied' path,
      Some (missing', (b, close), applied) = Some (m', (e, close'), applied') ∧
      walks db b path e ∧ (∀ x, x ∈ path → blocks !! x = None ∧ x ≠ to) ∧ walk_end blocks db to e close' applied' ∧
      missing ⊆ m' ∧ (∀ x, x ∈ path → operations_complete x db ≠ Ok true → x ∈ m')) as Hend.
  { intros missing' close applied Hm He. exists missing', b, close, applied, [].
    split; [done|]. split; [done|]. split; [by intros x ?%elem_of_nil|]. split; [done|]. split; [done|].
    by intros x ?%elem_of_nil. }
  case_decide as Hc; [by apply Hend; [|left; auto]|]. apply eq_None_not_Some in Hc.
  case_decide as Ht; [subst to; by apply Hend; [|left; auto]|].
  assert (header_missing db b → walk_end blocks db to b false None) as Hmiss.
  { intros Hx. do 2 (split; [done|]). split; [by intros ->|done]. }
  destruct (BlockMeta.get b db) as [[m|]|e] eqn:Em;
    [|by apply Hend; [|apply Hmiss; intros m' Em'; congruence]..].
  destruct (is_applied m) eqn:Ea; [by apply Hend; [|right; split; [done|]; exists m]|].
  assert (is_downloaded m = false ∨ BlockMeta.predecessor m = None → header_missing db b) as Hm.
  { intros Hd m' Em'. assert (m' = m) as -> by congruence. by split. }
  destruct (is_downloaded m) eqn:Ed; [|by apply Hend; [|apply Hmiss, Hm; left]].
  set (missing1 := match operations_complete b db with Ok true => missing | _ => missing ∪ {[b]} end).
  assert (missing ⊆ missing1) as Hsub
    by (unfold missing1; destruct (operations_complete b db) as [[|]|]; [done|apply union_subseteq_l..]).
  assert (operations_complete b db ≠ Ok true → b ∈ missing1) as Hb1.
  { unfold missing1. destruct (operations_complete b db) as [[|]|]; [done|intros _; by apply elem_of_union_r, elem_of_singleton_2..]. }
  clearbody missing1.
  destruct (BlockMeta.predecessor m) as [p|] eqn:Ep; [|by apply Hend; [|apply Hmiss, Hm; right]].
  case_decide as Hpb; [subst p; apply Hend; [done|left; split; [done|]; right; right; by exists m]|].
  destruct (IH p missing1) as (m' & e & close & applied & path & E & Hw & Hpath & He & Hm' & Hops).
  { pose proof (Hlow b m p Em Ep Hpb). lia. }
  exists m', e, close, applied, (b :: path). split; [done|]. split; [by split; [done|]; exists m, p|].
  split; [by intros x [->|Hx]%elem_of_cons; auto|]. split; [done|]. split; [by etransitivity|].
  intros x [->|Hx]%elem_of_cons Hx'; [|by apply Hops]. apply Hm'. by apply Hb1.
Qed.

(** The next header.  With rounds for the height of the block, the search in an open
    interval ends.  It walks from its last position over blocks whose headers are known,
    that are neither applied nor scheduled, and notes which of them lack operations.  It
    asks for the header at which it stops exactly if this header or its predecessor is
    not known.  Otherwise the interval is downloaded: the search has reached the start,
    a scheduled block, an applied one, which it returns, or one that is its own
    predecessor. *)
Theorem next_missing_header height rounds i missing blocks db :
  lower_predecessors db height → (height (seek i) < rounds)%nat → interval_state i = Open →
  ∃ i' missing' want applied path,
    shift_and_find_next_missing_predecessor rounds i missing blocks db = Some (i', missing', want, applied) ∧
    interval_start i' = interval_start i ∧ interval_end i' = interval_end i ∧
    walks db (seek i) path (seek i') ∧ (∀ x, x ∈ path → blocks !! x = None ∧ x ≠ interval_start i) ∧
    missing ⊆ missing' ∧ (∀ x, x ∈ path → operations_complete x db ≠ Ok true → x ∈ missing') ∧
    match want with
    | Some b => b = seek i' ∧ interval_state i' = Open ∧ walk_end blocks db (interval_start i) b false applied
    | None => interval_state i' = Downloaded ∧ walk_end blocks db (interval_start i) (seek i') true applied
    end.
Proof.
  intros Hlow Hh Ho.
  destruct (find_last_known_predecessor_spec height rounds (seek i) (interval_start i) missing blocks db Hlow Hh)
    as (missing' & e & close & applied & path & E & Hw & Hpath & He & Hm & Hops).
  unfold shift_and_find_next_missing_predecessor. rewrite decide_False by (by intros []). rewrite E.
  assert (close || bool_decide (e = interval_start i) = close) as ->.
  { destruct close; [done|]. destruct He as (_ & _ & Hne & _). by rewrite bool_decide_eq_false_2. }
  eexists _, missing', _, applied, path. split; [reflexivity|]. cbn [interval_start interval_end seek interval_state].
  do 6 (split; [done|]). rewrite Ho. destruct close; [by rewrite decide_True|].
  rewrite decide_False by (by intros []). done.
Qed.

(** ** The blocks of an interval *)

Definition predecessor_is (db : DB) (b p : bytes) : Prop :=
  ∃ m, BlockMeta.get b db = Ok (Some m) ∧ is_applied m = false ∧ BlockMeta.predecessor m = Some p.

(** Each block is the predecessor of the one before it; [b] is before the first. *)
Fixpoint descends (db : DB) (b : bytes) (l : list bytes) : Prop :=
  match l with [] => True | x :: l => predecessor_is db b x ∧ descends db x l end.

(** Where the blocks of an interval may end, going down. *)
Definition bottom (blocks : gmap bytes bytes) (db : DB) (i : BranchInterval) (b : bytes) : Prop :=
  b = interval_start i ∨ b = seek i ∨ predecessor_is db b b ∨
  ∃ p, predecessor_is db b p ∧ (is_Some (blocks !! p) ∨ known_applied db p).

Lemma collect_predecessors_spec height rounds i b p blocks db :
  lower_predecessors db height → (height p < rounds)%nat → predecessor_is db b p →
  ∃ r, collect_predecessors rounds i p blocks db = Some r ∧
    ∀ l, r = Ok l → descends db b l ∧ bottom blocks db i (default b (last l)) ∧
      (∀ x, x ∈ l → blocks !! x = None ∧ ∃ m, BlockMeta.get x db = Ok (Some m) ∧ is_applied m = false).
Proof.
  intros Hlow. revert b p. induction rounds as [|rounds IH]; intros b p Hh Hb; [lia|].
  cbn [collect_predecessors].
  assert (∀ x, x ∈ [] → blocks !! x = None ∧ ∃ m, BlockMeta.get x db = Ok (Some m) ∧ is_applied m = false) as Hnil
    by (by intros x ?%elem_of_nil).
  case_decide as Hc.
  { eexists. split; [done|]. intros l [= <-]. split; [done|]. split; [|done]. do 3 right. exists p. auto. }
  apply eq_None_not_Some in Hc.
  destruct (BlockMeta.get p db) as [[m|]|e] eqn:Em; [|by eexists; split..].
  destruct (is_applied m) eqn:Ea.
  { eexists. split; [done|]. intros l [= <-]. split; [done|]. split; [|done]. do 3 right. exists p. split; [done|].
    right. by exists m. }
  assert (∀ x, x ∈ [p] → blocks !! x = None ∧ ∃ m, BlockMeta.get x db = Ok (Some m) ∧ is_applied m = false) as Hone
    by (intros x ->%list_elem_of_singleton; eauto).
  case_decide as Hs; [eexists; split; [done|]; intros l [= <-]; split; [done|]; split; [by left|done]|].
  case_decide as Hk; [eexists; split; [done|]; intros l [= <-]; split; [done|]; split; [by right; left|done]|].
  destruct (BlockMeta.predecessor m) as [q|] eqn:Eq; [|by eexists; split].
  assert (predecessor_is db p q) as Hpq by (by exists m). case_decide as Hq.
  { subst q. eexists. split; [done|]. intros l [= <-]. split; [done|]. split; [by do 2 right; left|done]. }
  destruct (IH p q) as (r & -> & Hr); [pose proof (Hlow p m q Em Eq Hq); lia|done|].
  eexists. split; [done|]. intros l El. destruct r as [rest|e]; [|done]. injection El as <-.
  destruct (Hr rest eq_refl) as (H1 & H2 & H3). split; [done|]. split.
  - destruct rest as [|x rest]; [done|]. cbn [last] in *.
    destruct (last (x :: rest)) eqn:E; [done|]. by apply last_None in E.
  - intros x [->|Hx]%elem_of_cons; [eauto|by apply H3].
Qed.

(** The blocks of a downloaded interval.  With rounds for the height of its end,
    collecting them ends.  If there are some, they are a chain of predecessors that ends
    with the end of the interval, none of them scheduled or applied; the chain begins at
    the start of the interval, where the search for headers stopped, or above a block
    that is scheduled or applied. *)
Theorem interval_blocks_chain height rounds i blocks db :
  lower_predecessors db height → (height (interval_end i) < rounds)%nat →
  ∃ r, collect_blocks_for_apply rounds i blocks db = Some r ∧
    ∀ l, r = Ok l → l = [] ∨ ∃ below, l = rev (interval_end i :: below) ∧ descends db (interval_end i) below ∧
      (∀ x, x ∈ l → blocks !! x = None ∧ ∃ m, BlockMeta.get x db = Ok (Some m) ∧ is_applied m = false) ∧
      (bottom blocks db i (default (interval_end i) (head l)) ∨
       below = [] ∧ ∃ m, BlockMeta.get (interval_end i) db = Ok (Some m) ∧ BlockMeta.predecessor m = None).
Proof.
  intros Hlow Hh. unfold collect_blocks_for_apply.
  case_decide; [eexists; split; [done|]; intros l [= <-]; by left|].
  case_decide as Hc; [eexists; split; [done|]; intros l [= <-]; by left|]. apply eq_None_not_Some in Hc.
  destruct (BlockMeta.get (interval_end i) db) as [[m|]|e] eqn:Em; [|by eexists; split..].
  destruct (is_applied m) eqn:Ea; [eexists; split; [done|]; intros l [= <-]; by left|].
  assert (∀ below, last (rev (interval_end i :: below)) = Some (interval_end i)) as Hlast
    by (intros below; cbn [rev]; apply last_snoc).
  assert (∀ below, head (rev below ++ [interval_end i]) = Some (default (interval_end i) (last below))) as Hhead.
  { intros below. destruct (last below) as [y|] eqn:El.
    - apply last_Some in El as [l' ->]. by rewrite rev_unit.
    - apply last_None in El as ->. done. }
  destruct (BlockMeta.predecessor m) as [p|] eqn:Ep.
  - destruct (collect_predecessors_spec height rounds i (interval_end i) p blocks db Hlow) as (r & -> & Hr);
      [|by exists m|].
    { destruct (decide (p = interval_end i)) as [->|Hne]; [done|]. pose proof (Hlow _ m p Em Ep Hne). lia. }
    eexists. split; [done|]. intros l El. destruct r as [below|e]; [|done]. rewrite decide_True in El by apply Hlast.
    injection El as <-. right. exists below. destruct (Hr below eq_refl) as (H1 & H2 & H3).
    split; [done|]. split; [done|]. split; [|left; by rewrite Hhead].
    intros x Hx. cbn [rev] in Hx. apply elem_of_app in Hx as [Hx| ->%list_elem_of_singleton].
    + apply H3. apply list_elem_of_In, in_rev, list_elem_of_In in Hx. done.
    + split; [done|]. by exists m.
  - eexists. split; [done|]. intros l. rewrite decide_True by apply Hlast. intros [= <-]. right. exists [].
    split; [done|]. split; [done|]. split; [|right; split; [done|]; by exists m].
    intros x ->%list_elem_of_singleton. split; [done|]. by exists m.
Qed.

(** ** Branches that do not go on *)

Lemma scheduled_branch_idle rounds b count ignored todo blocks db max :
  Forall (λ i, interval_state i = ScheduledForApply) (intervals b) → blocks_to_apply b = [] →
  collect_next_block_headers_to_download rounds b count ignored todo blocks db = Some (b, todo, blocks) ∧
  schedule_next_block_to_apply rounds b max blocks db = Some (b, blocks, [], Ok ()).
Proof.
  destruct b as [lv l m ta]. cbn [intervals blocks_to_apply]. intros Hl ->. split.
  - unfold collect_next_block_headers_to_download. case_decide; [done|]. cbn [intervals missing_operations].
    assert (collect_headers rounds count ignored true l m todo None blocks db = Some (l, m, todo, None)) as ->; [|done].
    induction Hl as [|i l Hi Hl IH]; [done|]. cbn [collect_headers negb]. rewrite Hi, decide_True by done. by rewrite IH.
  - unfold schedule_next_block_to_apply. cbn [intervals blocks_to_apply].
    assert (take_downloaded rounds l [] blocks db = Some (l, [], Ok ())) as ->; [|done].
    induction Hl as [|i l Hi Hl IH]; [done|]. cbn [take_downloaded]. rewrite Hi. by rewrite IH.
Qed.


Lemma for_each_peer_keep {A} (Q : PeerBootstrapState → Prop) order f (acc : A) peers id :
  (∀ acc p, Q p → Q (f id acc p).2) → (∃ p, peers !! id = Some p ∧ Q p) →
  ∃ p, (for_each_peer order f acc peers).2 !! id = Some p ∧ Q p.
Proof.
  intros Hf. unfold for_each_peer. revert acc peers. induction order as [|id' order IH]; intros acc peers Hp; [done|].
  cbn [foldl]. destruct (peers !! id') as [p'|] eqn:E; [|by apply IH].
  destruct (f id' acc p') as [acc' p1] eqn:Ef. apply IH. destruct (decide (id' = id)) as [->|Hne].
  - destruct Hp as (p & E' & Hp). exists p1. rewrite lookup_insert_eq. split; [done|].
    assert (p = p') as -> by congruence. specialize (Hf acc p' Hp). by rewrite Ef in Hf.
  - by rewrite lookup_insert_ne.
Qed.

(** C34: A failed block blocks its successors.  If the application of a block fails,
    a successor that was scheduled with it stays scheduled, so that no branch sends it
    again, and a branch in which the failed block is inside an interval is kept. *)
Theorem failed_block_blocks_successors order now f s self :
  block_state_db self !! s = Some f → ¬ rtc (scheduled_pred (block_state_db self)) f s →
  let self' := block_apply_failed order now f self in
  block_state_db self' !! s = Some f ∧ block_state_db self' !! f = None ∧
  (∀ rounds branch max db branch' blocks' sent r,
    schedule_next_block_to_apply rounds branch max (block_state_db self') db = Some (branch', blocks', sent, r) →
    s ∉ all_blocks sent) ∧
  (∀ id peer branch, bootstrap_peers self !! id = Some peer → branch ∈ branches peer →
    contains_block_to_apply branch f = false →
    ∃ peer', bootstrap_peers self' !! id = Some peer' ∧ branch ∈ branches peer').
Proof.
  intros Hs Hcycle. cbv zeta.
  pose proof (remove_with_all_predecessors_spec f (block_state_db self)) as Hr.
  assert (block_state_db (block_apply_failed order now f self) !! s = Some f ∧
    block_state_db (block_apply_failed order now f self) !! f = None) as [H1 H2].
  { unfold block_apply_failed. destruct (for_each_peer _ _ _ _) as [u peers]. cbn [block_state_db].
    destruct (remove_with_all_predecessors f (block_state_db self)) as [removed blocks']. cbn [snd].
    destruct Hr as [Hin Hb]. rewrite !Hb. split.
    - rewrite decide_False; [done|]. by intros [_ ?]%Hin.
    - case_decide as Hf; [done|]. destruct (block_state_db self !! f) as [p|] eqn:E; [|done].
      exfalso. apply Hf, Hin. rewrite E. by split; [eexists|]. }
  split; [done|]. split; [done|]. split.
  - intros rounds branch max db branch' blocks' sent r E Hin.
    pose proof (sent_not_scheduled _ _ _ _ _ _ _ _ _ s E Hin). congruence.
  - intros id peer branch Ep Hin Hc. unfold block_apply_failed.
    match goal with |- context [for_each_peer order ?g ?a ?ps] =>
      destruct (for_each_peer_keep (λ q, branch ∈ branches q) order g a ps id) as (p' & E' & Hp');
        [|by exists peer|destruct (for_each_peer order g a ps) as [u peers]; by exists p'] end.
    intros _ p Hp. cbn [snd]. unfold mark_if_empty.
    assert (branch ∈ filter (λ branch0, contains_block_to_apply branch0 f = false) (branches p)) as Hk
      by (by apply list_elem_of_filter).
    cbn [branches set_branches]. destruct (filter _ (branches p)) as [|b0 l]; [by apply elem_of_nil in Hk|done].
Qed.
End Scheduling.

Module BootstrapWitnesses.

Definition h (b : Z) : bytes := replicate 32 b.

(** A store with the chain of the blocks 1, applied, and 2 and 3, with their
    operations. *)
Definition records (b : bytes) : option BlockMeta.Meta :=
  if decide (b = h 1) then Some (BlockMeta.mkMeta (Some (h 0)) [h 2] true 1 [1; 2; 3; 4])
  else if decide (b = h 2) then Some (BlockMeta.mkMeta (Some (h 1)) [h 3] false 2 [1; 2; 3; 4])
  else if decide (b = h 3) then Some (BlockMeta.mkMeta (Some (h 2)) [] false 3 [1; 2; 3; 4])
  else None.

#[local] Instance chain_db : RocksDb := {|
  DB := unit;
  RocksError := unit;
  cf_handle _ _ := true;
  get_cf _ name key :=
    match records key with
    | Some m =>
        if decide (name = "block_meta_storage"%string) then Ok (Some (BlockMeta.meta_bytes (BlockMeta.meta_mask m) m))
        else Ok (Some (record_bytes 0 ∅))
    | None => Ok None
    end;
  put_cf db _ _ _ := (db, Ok ());
  delete_cf db _ _ := (db, Ok ());
  merge_cf db _ _ _ := (db, Ok ());
  write_cf db _ := (db, Ok ());
  iterator_cf _ _ _ := [];
  prefix_iterator_cf _ _ _ := []
|}.

(** The only state of the store *)
Definition chain : DB := tt.

Lemma records_ok b m : records b = Some m → BlockMeta.meta_ok m.
Proof.
  unfold records. intros E.
  destruct (decide (b = h 1)); [|destruct (decide (b = h 2)); [|destruct (decide (b = h 3)); [|done]]].
  all: injection E as <-; split; [by intros p [= <-]|]; split; [by repeat constructor|].
  all: by vm_compute.
Qed.

Lemma get_records b : BlockMeta.get b chain = Ok (records b).
Proof.
  unfold BlockMeta.get, kv_get. change (encode b) with (@Ok bytes SchemaError b).
  cbn [map_err cf_handle chain_db get_cf]. destruct (records b) as [m|] eqn:E; [|reflexivity].
  apply records_ok in E.
  assert (BlockMeta.meta_decode (BlockMeta.meta_bytes (BlockMeta.meta_mask m) m) = Ok m) as Ed
    by (apply BlockMeta.represents_decode, BlockMeta.encode_represents; done).
  unfold family. cbn [cf_handle chain_db map_err].
  rewrite decide_True by reflexivity. cbn [map_err].
  change (decode (BlockMeta.meta_bytes (BlockMeta.meta_mask m) m))
    with (BlockMeta.meta_decode (BlockMeta.meta_bytes (BlockMeta.meta_mask m) m)).
  rewrite Ed. reflexivity.
Qed.

Definition height (b : bytes) : nat := if decide (b = h 3) then 3 else if decide (b = h 2) then 2 else if decide (b = h 1) then 1 else 0.

Lemma heights : lower_predecessors chain height.
Proof.
  intros b m p E Ep _. rewrite get_records in E. unfold records in E.
  destruct (decide (b = h 1)) as [->|];
    [|destruct (decide (b = h 2)) as [->|]; [|destruct (decide (b = h 3)) as [->|]; [|done]]].
  all: injection E as <-; injection Ep as <-; vm_compute; lia.
Qed.

Definition interval : BranchInterval := new_start_end (h 1) (h 3).

Lemma next_missing_header_witness :
  ∃ i' missing', shift_and_find_next_missing_predecessor 4 interval ∅ ∅ chain = Some (i', missing', None, None) ∧
    interval_state i' = Downloaded ∧ seek i' = h 1.
Proof.
  destruct (next_missing_header height 4 interval ∅ ∅ chain heights) as (i' & m' & want & applied & path & E & _).
  - vm_compute. lia.
  - reflexivity.
  - assert (shift_and_find_next_missing_predecessor 4 interval ∅ ∅ chain =
      Some (mkInterval Downloaded (h 1) (h 1) (h 3), ∅, None, None)) as E' by (vm_compute; reflexivity).
    exists i', m'. rewrite E' in E. injection E as <- <- <- <-. by rewrite E'.
Defined.

Definition downloaded_interval : BranchInterval := mkInterval Downloaded (h 1) (h 1) (h 3).

Lemma interval_blocks_chain_witness :
  ∃ l, collect_blocks_for_apply 4 downloaded_interval ∅ chain = Some (Ok l) ∧ l = [h 2; h 3].
Proof.
  destruct (interval_blocks_chain height 4 downloaded_interval ∅ chain heights) as (r & E & _).
  - vm_compute. lia.
  - assert (match collect_blocks_for_apply 4 downloaded_interval ∅ chain with
      | Some (Ok l) => bool_decide (l = [h 2; h 3])
      | _ => false
      end = true) as Hb by (vm_compute; reflexivity).
    rewrite E in Hb. destruct r as [l|e]; [|done]. apply bool_decide_eq_true in Hb. by exists l.
Defined.

Definition branch : BranchState := mkBranch 3 [downloaded_interval] ∅ [].


(** Two intervals that were scheduled in one batch. *)
Definition scheduled_branch : BranchState :=
  mkBranch 3 [mkInterval ScheduledForApply (h 1) (h 1) (h 2); mkInterval ScheduledForApply (h 2) (h 2) (h 3)] ∅ [].


Definition failing : BootstrapState :=
  mkBootstrap {["peer"%string := mkPeerBootstrap [branch] false None false]} (<[h 3 := h 2]> {[h 2 := h 1]}).

Lemma failed_block_blocks_successors_witness :
  block_state_db (block_apply_failed ["peer"%string] 0 (h 2) failing) !! h 3 = Some (h 2).
Proof.
  apply (failed_block_blocks_successors ["peer"%string] 0 (h 2) (h 3) failing).
  - vm_compute. reflexivity.
  - intros Hp. assert (∀ x, rtc (scheduled_pred (block_state_db failing)) (h 2) x → x ∈ [h 0; h 1; h 2]) as Hx.
    { apply rtc_ind_r; [by do 2 apply list_elem_of_further; left|].
      intros y z _ Hyz Hy. unfold scheduled_pred in Hyz.
      apply elem_of_cons in Hy as [->|Hy]; [vm_compute in Hyz; discriminate|].
      apply elem_of_cons in Hy as [->|Hy]; [vm_compute in Hyz; discriminate|].
      apply list_elem_of_singleton in Hy as ->. vm_compute in Hyz. injection Hyz as <-. right. left. }
    specialize (Hx _ Hp).
    assert (bool_decide (h 3 ∈ [h 0; h 1; h 2]) = false) as Hf by (vm_compute; reflexivity).
    by apply bool_decide_eq_false in Hf.
Defined.

Definition cfg : BootstrapperConfiguration := mkBootstrapperConfiguration 30 30 90 2 100.
Definition surroundings : Surroundings := mkSurroundings ["peer"%string] elements elements 0.
Definition message : BootstrapperMsg :=
  MsgStartBranchBootstraping "peer" [1; 2; 3; 4] (mkStartBranchBootstraping (h 1) [h 3; h 5; h 6] 6).
Definition queues : gmap string DataQueues := {["peer"%string := queues_new (mkLimits 10 10)]}.

(** The first interval is scheduled, the second one waits for its first header. *)
Lemma branches_in_order_witness :
  ∃ self peer, bootstrapper_reachable cfg [1; 2; 3; 4] self ∧
    bootstrap_peers (bootstrap_state self) !! "peer"%string = Some peer ∧
    len (branches peer) ≤ 2 ∧ branches peer ≠ [].
Proof.
  destruct (receive surroundings cfg [1; 2; 3; 4] 10 (mkBootstrapper bootstrap_new false) queues chain message)
    as [[[self q] out]|] eqn:E; [|exfalso; vm_compute in E; discriminate].
  assert (bootstrapper_reachable cfg [1; 2; 3; 4] self) as Hr.
  { eapply bootstrapper_received; [apply bootstrapper_started|exact E]. }
  assert (match receive surroundings cfg [1; 2; 3; 4] 10 (mkBootstrapper bootstrap_new false) queues chain message with
    | Some (self, _, _) =>
        match bootstrap_peers (bootstrap_state self) !! "peer"%string with
        | Some peer => bool_decide (branches peer ≠ [])
        | None => false
        end
    | None => false
    end = true) as Hb by (vm_compute; reflexivity).
  rewrite E in Hb. destruct (bootstrap_peers (bootstrap_state self) !! "peer"%string) as [peer|] eqn:Ep; [|done].
  apply bool_decide_eq_true in Hb. exists self, peer. split; [exact Hr|]. split; [exact Ep|]. split; [|exact Hb].
  apply (branches_in_order cfg [1; 2; 3; 4] self Hr "peer"%string peer Ep).
Defined.
End BootstrapWitnesses.
