(* ===== verification/BlockApplier.v ===== *)
(** * The application of blocks: the thread of [shell/src/chain_feeder.rs]

    The thread takes batches of blocks from a channel, collects for each block what the protocol needs,
    lets the protocol apply it, waits until the context was committed and stores the
    result.  It tells others about the outcome.

    The protocol runs in another process, the context is written by another
    thread, and any thread can reset the flag that keeps this one running: these
    are the world outside of the thread, with operations that observe and change it. *)

From stdpp Require Import gmap.
From S2P Require Import Prelude Hash Kv Blocks BlockMeta Predecessors OperationsMeta BlockStorage ChainMeta StorageOps Prevalidator OperationsStorage ShellState.

(** [tezos/api/src/ffi.rs] *)
Record ApplyBlockRequest := mkApplyBlockRequest {
  request_chain_id : bytes;
  request_block_header : BlockHeader_t;
  request_pred_header : BlockHeader_t;
  request_max_operations_ttl : Z;
  request_operations : list (list Operation_t);
  request_predecessor_block_metadata_hash : option bytes;
  request_predecessor_ops_metadata_hash : option bytes
}.

Definition convert_operations (block_operations : list OperationsForBlocksMessage_t) : list (list Operation_t) :=
  message_operations <$> block_operations.

Section Errors.
Context `{RocksDb}.

(** The last case stands for a panic of the thread. *)
Inductive FeedChainError :=
| UnknownCurrentHeadError
| MissingContextError (context_hash : bytes)
| FeedStorageError (error : StorageError)
| FeedProtocolServiceError (error : ProtocolServiceError)
| FeedProcessingError (reason : string)
| FeedPanic (reason : string).

Definition feed_storage_error (e : StorageError) : FeedChainError :=
  match e with StoragePanic reason => FeedPanic reason | e => FeedStorageError e end.

End Errors.

(** What is outside of the thread.  Times are in milliseconds. *)
Class FeederWorld : Type := {
  fw : Type;
  load_run : fw → fw * bool;
  reset_run : fw → fw;
  apply_block_call : ApplyBlockRequest → fw → fw * result ApplyBlockResponse ProtocolServiceError;
  init_protocol_for_write_call :
    bool → option (string * string) → fw → fw * result (option bytes) ProtocolServiceError;
  genesis_result_data_call : bytes → fw → fw * result CommitGenesisResult ProtocolServiceError;
  is_committed_call : bytes → fw → fw * result bool string;
  clock : fw → Z;
  sleep : Z → fw → fw
}.

(** Time goes on, and [thread::sleep] waits at least as long as it is told.  The flag is only ever reset
    while the thread runs: where it was reset, every later load sees it. *)
Class FeederWorldLaws `{FeederWorld} (stopped : fw → Prop) : Prop := {
  is_committed_clock h w : clock w ≤ clock (is_committed_call h w).1;
  sleep_clock d w : clock w + d ≤ clock (sleep d w);
  load_stopped w : stopped w → (load_run w).2 = false;
  load_false w : (load_run w).2 = false → stopped (load_run w).1;
  reset_stops w : stopped (reset_run w);
  apply_block_stopped r w : stopped w → stopped (apply_block_call r w).1;
  is_committed_stopped h w : stopped w → stopped (is_committed_call h w).1;
  sleep_stopped d w : stopped w → stopped (sleep d w)
}.

(** [ApplyBlock]: whether there is a bootstrapper, a callback and a permit to release *)
Record ApplyBlock := mkApplyBlock {
  apply_batch : ApplyBlockBatch;
  apply_chain_id : bytes;
  apply_bootstrapper : bool;
  apply_callback : bool;
  apply_permit : bool
}.

(** What the thread does to others, in order *)
Inductive FeederEffect :=
| TellHeadManager (block : BlockHeaderWithHash) (chain_id : bytes)
| TellBatchFailed (failed_block : bytes)
| TellBatchDone (last_applied : bytes)
| TellApplyBlockDone
| CallbackResult (r : result () string)
| ReleasePermit.

Definition CONTEXT_WAIT_TIMEOUT : Z := 60 * 60 * 2 * 1000.
Definition CONTEXT_WAIT_DELAY : Z := 15.

(** More rounds than fit into the timeout *)
Definition context_wait_rounds : nat := Z.to_nat (CONTEXT_WAIT_TIMEOUT / CONTEXT_WAIT_DELAY + 2).

Section Applier.
Context `{RocksDb, CommitLogLib}.
Context `{Bincode BlockStorageColumn, Bincode BlockStorageColumnsLocation}.
Context `{Bincode PredecessorKey, Bincode BlockAdditionalData, Bincode MetadataValue}.
Context `{Bincode OperationsForBlocksMessage_t}.
Context `{FeederWorld}.

Record Applier := mkApplier {
  storages : Persistent;
  outside : fw;
  effects : list FeederEffect
}.

(** Operations on the parts of the state *)
Definition on_storages {A} (m : io Persistent A StorageError) : io Applier A FeedChainError :=
  λ a, let '(s, r) := m (storages a) in (mkApplier s (outside a) (effects a), map_err feed_storage_error r).

Definition on_world {A E} (f : E → FeedChainError) (m : fw → fw * result A E) : io Applier A FeedChainError :=
  λ a, let '(w, r) := m (outside a) in (mkApplier (storages a) w (effects a), map_err f r).

Definition is_running (a : Applier) : Applier * bool :=
  let '(w, b) := load_run (outside a) in (mkApplier (storages a) w (effects a), b).

Definition emit (e : FeederEffect) (a : Applier) : Applier :=
  mkApplier (storages a) (outside a) (effects a ++ [e]).

Definition emit_if (b : bool) (e : FeederEffect) (a : Applier) : Applier := if b then emit e a else a.

(** ** Waiting for the context *)

Fixpoint wait_loop (rounds : nat) (start : Z) (context_hash : bytes) (w : fw) : fw * result () FeedChainError :=
  match rounds with
  | O => (w, Err (MissingContextError context_hash))
  | S rounds =>
      match is_committed_call context_hash w with
      | (w, Ok true) => (w, Ok ())
      | (w, _) =>
          if decide (clock w - start ≤ CONTEXT_WAIT_TIMEOUT)
          then wait_loop rounds start context_hash (sleep CONTEXT_WAIT_DELAY w)
          else (w, Err (MissingContextError context_hash))
      end
  end.

Definition wait_for_context (context_hash : bytes) (one_context : bool) (w : fw)
    : fw * result () FeedChainError :=
  if one_context then (w, Ok ())
  else wait_loop context_wait_rounds (clock w) context_hash w.

(** ** The data for a block *)

Definition block_data_cache : Type := option (BlockHeaderWithHash * BlockAdditionalData).

Definition load_block_data (block_hash : bytes) (s : Persistent)
    : result (BlockHeaderWithHash * BlockAdditionalData) FeedChainError :=
  let? block := map_err feed_storage_error (BlockStorage.get block_hash s) in
  let? block := ok_or block (FeedStorageError MissingKey) in
  let? additional_data := map_err feed_storage_error (get_additional_data block_hash (db s)) in
  let? additional_data := ok_or additional_data (FeedStorageError MissingKey) in
  Ok (block, additional_data).

Definition resolve_block_data (block_hash : bytes) (cache : block_data_cache) (s : Persistent)
    : result (BlockHeaderWithHash * BlockAdditionalData) FeedChainError :=
  match cache with
  | Some cached =>
      if decide (block_hash = hash cached.1) then Ok cached else load_block_data block_hash s
  | None => load_block_data block_hash s
  end.

Definition prepare_apply_request (block_hash chain_id : bytes) (cache : block_data_cache) (s : Persistent)
    : result (ApplyBlockRequest * BlockMeta.Meta * BlockHeaderWithHash) FeedChainError :=
  let? block := map_err feed_storage_error (BlockStorage.get block_hash s) in
  let? block := ok_or block (FeedStorageError MissingKey) in
  let? block_meta := map_err feed_storage_error (BlockMeta.get block_hash (db s)) in
  let? block_meta := ok_or block_meta (FeedProcessingError "Block metadata not found") in
  let? operations := map_err feed_storage_error (get_operations block_hash (db s)) in
  let? (predecessor, data) := resolve_block_data (header_predecessor (header block)) cache s in
  Ok (mkApplyBlockRequest chain_id (header block) (header predecessor) (max_operations_ttl data)
        (convert_operations operations) (block_metadata_hash data) (ops_metadata_hash data),
      block_meta, block).

(** ** One block *)

(** [_apply_block]; [None] if the block is already applied *)
Definition apply_block (block_hash : bytes) (one_context : bool)
    (data : result (ApplyBlockRequest * BlockMeta.Meta * BlockHeaderWithHash) FeedChainError)
    : io Applier (option (BlockHeaderWithHash * BlockAdditionalData)) FeedChainError :=
  do? (block_request, block_meta, block) := pure data in
  if is_applied block_meta then ret None
  else
    do? apply_block_result := on_world FeedProtocolServiceError (apply_block_call block_request) in
    do? _ := on_world id (wait_for_context (response_context_hash apply_block_result) one_context) in
    do? (block_additional_data, _) :=
      on_storages (store_applied_block_result block_hash apply_block_result block_meta) in
    ret (Some (block, block_additional_data)).

(** ** A batch *)

(** The variables that the loop over the blocks carries *)
Record BatchState := mkBatchState {
  batch_last_applied : option bytes;
  batch_stats : bool;
  batch_oneshot_result : option (result () string);
  batch_cache : block_data_cache
}.

(** How the loop ends: by itself or by [break], by a return because of a shutdown, with an error of the
    protocol that is passed on, or by a panic *)
Inductive BatchEnd :=
| BatchOver (b : BatchState)
| BatchShutdown
| BatchError (e : ProtocolServiceError)
| BatchPanic (reason : string).

(** The branch for a block that cannot be applied.  The text of errors is left out. *)
Definition block_failed (request : ApplyBlock) (block_hash : bytes) (b : BatchState) (e : FeedChainError)
    (a : Applier) : Applier * BatchEnd :=
  let a := emit_if (apply_callback request) (CallbackResult (Err "")) a in
  let oneshot := if apply_callback request then None else batch_oneshot_result b in
  let '(a, running) := is_running a in
  let a := emit_if (running && apply_bootstrapper request) (TellBatchFailed block_hash) a in
  let a := emit_if (batch_stats b) TellApplyBlockDone a in
  let b := mkBatchState (batch_last_applied b) false oneshot (batch_cache b) in
  match e with
  | FeedProtocolServiceError error =>
      match handle_protocol_service_error error with
      | Some error => (a, BatchError error)
      | None => (a, BatchOver b)
      end
  | _ => (a, BatchOver b)
  end.

Fixpoint apply_blocks (request : ApplyBlock) (one_context : bool) (blocks : list bytes) (b : BatchState)
    (a : Applier) : Applier * BatchEnd :=
  match blocks with
  | [] => (a, BatchOver b)
  | block_hash :: blocks =>
      let '(a, running) := is_running a in
      if negb running then (a, BatchShutdown)
      else
        let data := prepare_apply_request block_hash (apply_chain_id request) (batch_cache b) (storages a) in
        (* the cache was moved *)
        let b := mkBatchState (batch_last_applied b) (batch_stats b) (batch_oneshot_result b) None in
        match apply_block block_hash one_context data a with
        | (a, Ok (Some (block, additional_data))) =>
            let oneshot := if apply_callback request then Some (Ok ()) else batch_oneshot_result b in
            let b := mkBatchState (Some block_hash) (batch_stats b) oneshot (Some (block, additional_data)) in
            apply_blocks request one_context blocks b (emit (TellHeadManager block (apply_chain_id request)) a)
        | (a, Ok None) =>
            let oneshot :=
              if apply_callback request then Some (Err "Block/batch is already applied") else batch_oneshot_result b in
            apply_blocks request one_context blocks (mkBatchState (Some block_hash) (batch_stats b) oneshot None) a
        | (a, Err (FeedPanic reason)) => (a, BatchPanic reason)
        | (a, Err e) => block_failed request block_hash b e a
        end
  end.

(** What follows the loop *)
Definition finish_batch (request : ApplyBlock) (b : BatchState) (a : Applier) : Applier :=
  let a := emit_if (apply_permit request) ReleasePermit a in
  let a := match batch_oneshot_result b with
           | Some r => emit_if (apply_callback request) (CallbackResult r) a
           | None => a
           end in
  let '(a, running) := is_running a in
  if running then
    let a := emit_if (batch_stats b) TellApplyBlockDone a in
    match batch_last_applied b with
    | Some last_applied => emit_if (apply_bootstrapper request) (TellBatchDone last_applied) a
    | None => a
    end
  else a.

(** [Event::ApplyBlock].  The permit is a variable of the body: it is released wherever the body is left. *)
Definition apply_event (request : ApplyBlock) (one_context : bool) (a : Applier)
    : Applier * BatchEnd :=
  let release := emit_if (apply_permit request) ReleasePermit in
  match apply_blocks request one_context (take_all_blocks_to_apply (apply_batch request))
          (mkBatchState None true None None) a with
  | (a, BatchOver b) => (finish_batch request b a, BatchOver b)
  | (a, exit) => (release a, exit)
  end.

(** ** The loop of the thread *)

Inductive FeederEvent :=
| EventApplyBlock (request : ApplyBlock)
| EventShuttingDown.

(** How [feed_chain_to_protocol] ends, where the events are those that it receives until then; [FeedWaiting] where
    it waits for the next one *)
Inductive FeedEnd :=
| FeedReturned (r : result () FeedChainError)
| FeedWaiting
| FeedPanicked (reason : string).

Fixpoint feed_events (one_context : bool) (events : list FeederEvent) (a : Applier) : Applier * FeedEnd :=
  let '(a, running) := is_running a in
  if negb running then (a, FeedReturned (Ok ()))
  else
    match events with
    | [] => (a, FeedWaiting)
    | EventShuttingDown :: events =>
        feed_events one_context events (mkApplier (storages a) (reset_run (outside a)) (effects a))
    | EventApplyBlock request :: events =>
        match apply_event request one_context a with
        | (a, BatchOver _) => feed_events one_context events a
        | (a, BatchShutdown) => (a, FeedReturned (Ok ()))
        | (a, BatchError e) => (a, FeedReturned (Err (FeedProtocolServiceError e)))
        | (a, BatchPanic reason) => (a, FeedPanicked reason)
        end
    end.

(** ** The start of the protocol *)

Context `{Base58Lib, Chrono}.

Definition initialize_protocol_context (init_storage_data : StorageInitInfo) (tezos_env : GenesisChain)
    : io Applier () FeedChainError :=
  do? genesis_meta :=
    on_storages (reads_state (λ s, BlockMeta.get (genesis_block_header_hash init_storage_data) (db s))) in
  let need_commit_genesis := match genesis_meta with Some m => negb (is_applied m) | None => true end in
  do? genesis_commit_hash :=
    on_world FeedProtocolServiceError
      (init_protocol_for_write_call need_commit_genesis (patch_context init_storage_data)) in
  match genesis_commit_hash with
  | Some genesis_context_hash =>
      if need_commit_genesis then
        do? genesis_with_hash :=
          on_storages (initialize_storage_with_genesis_block init_storage_data tezos_env genesis_context_hash) in
        do? _ := on_world id (wait_for_context genesis_context_hash (one_context init_storage_data)) in
        do? commit_data := on_world FeedProtocolServiceError (genesis_result_data_call genesis_context_hash) in
        do? _ := on_storages (store_commit_genesis_result init_storage_data commit_data) in
        λ a, let '(a, running) := is_running a in
             (emit_if running (TellHeadManager genesis_with_hash (init_chain_id init_storage_data)) a, Ok ())
      else ret ()
  | None => ret ()
  end.

Definition feed_chain_to_protocol (init_storage_data : StorageInitInfo) (tezos_env : GenesisChain)
    (events : list FeederEvent) (a : Applier) : Applier * FeedEnd :=
  let start :=
    do? _ := initialize_protocol_context init_storage_data tezos_env in
    do? current_head :=
      on_storages (reads_state (λ s, get_current_head (init_chain_id init_storage_data) (db s))) in
    match current_head with
    | Some _ => ret ()
    | None => throw UnknownCurrentHeadError
    end in
  match start a with
  | (a, Ok _) => feed_events (one_context init_storage_data) events a
  | (a, Err (FeedPanic reason)) => (a, FeedPanicked reason)
  | (a, Err e) => (a, FeedReturned (Err e))
  end.

End Applier.
