(* ===== verification/BlockApplierFacts.v ===== *)
(** * The application of blocks: theorems

    Waiting for the context ends.  A batch releases its permit once, answers its
    caller at most once and reports to the others as it should, whatever the
    protocol and the storages do. *)

From stdpp Require Import gmap.
From S2P Require Import Prelude Hash Kv Prevalidator OperationsStorage ShellState Blocks OperationsMeta Predecessors BlockMeta BlockStorage ChainMeta StorageOps BlockApplier.

(** ** Waiting for the context *)

Section Waiting.
Context `{RocksDb} `{FeederWorldLaws stopped}.

Lemma wait_loop_spec rounds start h w w' r :
  wait_loop rounds start h w = (w', r) →
  CONTEXT_WAIT_TIMEOUT < clock w - start + CONTEXT_WAIT_DELAY * Z.of_nat rounds →
  r = Ok () ∨ r = Err (MissingContextError h) ∧ CONTEXT_WAIT_TIMEOUT < clock w' - start.
Proof.
  revert w. induction rounds as [|n IH]; intros w; cbn [wait_loop].
  { intros [= <- <-] Hn. right. split; [done|lia]. }
  pose proof (is_committed_clock h w) as Hc. destruct (is_committed_call h w) as [w1 c]. cbn [fst] in Hc.
  destruct c as [[]|]; [intros [= <- <-] _; by left|..].
  all: case_decide as Ht; [|intros [= <- <-] _; right; split; [done|lia]].
  all: intros E Hn; apply (IH _ E); pose proof (sleep_clock CONTEXT_WAIT_DELAY w1); unfold CONTEXT_WAIT_DELAY in *; lia.
Qed.

(** Waiting ends; it fails only after the timeout, and never for lack of rounds. *)
Lemma wait_for_context_ends h one_context w w' r :
  wait_for_context h one_context w = (w', r) →
  r = Ok () ∨
  r = Err (MissingContextError h) ∧ one_context = false ∧ CONTEXT_WAIT_TIMEOUT < clock w' - clock w.
Proof.
  unfold wait_for_context. destruct one_context; [intros [= <- <-]; by left|].
  intros E. apply wait_loop_spec in E as [->|[-> Ht]]; [by left|by right|].
  unfold context_wait_rounds, CONTEXT_WAIT_TIMEOUT, CONTEXT_WAIT_DELAY.
  assert (60 * 60 * 2 * 1000 / 15 + 2 = 480002) as -> by reflexivity. lia.
Qed.

Lemma wait_stopped h one_context w : stopped w → stopped (wait_for_context h one_context w).1.
Proof.
  intros Hs. unfold wait_for_context. destruct one_context; [done|]. generalize context_wait_rounds, (clock w).
  intros n start. revert w Hs. induction n as [|n IH]; intros w Hs; cbn [wait_loop]; [done|].
  pose proof (is_committed_stopped h w Hs) as Hc. destruct (is_committed_call h w) as [w1 c]. cbn [fst] in Hc.
  destruct c as [[]|]; [done|..]; (case_decide; [|done]); by apply IH, sleep_stopped.
Qed.

End Waiting.

(** ** What a batch tells others *)

Definition is_release (e : FeederEffect) : bool := match e with ReleasePermit => true | _ => false end.
Definition is_ping (e : FeederEffect) : bool := match e with TellApplyBlockDone => true | _ => false end.
Definition is_answer (e : FeederEffect) : bool := match e with CallbackResult _ => true | _ => false end.
Definition is_failure (e : FeederEffect) : bool := match e with TellBatchFailed _ => true | _ => false end.
Definition is_batch_done (e : FeederEffect) : bool := match e with TellBatchDone _ => true | _ => false end.

Definition tally (p : FeederEffect → bool) (es : list FeederEffect) : nat := length (List.filter p es).

Lemma tally_app p es1 es2 : tally p (es1 ++ es2) = (tally p es1 + tally p es2)%nat.
Proof. unfold tally. by rewrite List.filter_app, length_app. Qed.

Section Effects.
Context `{RocksDb, CommitLogLib}.
Context `{Bincode BlockStorageColumn, Bincode BlockStorageColumnsLocation}.
Context `{Bincode PredecessorKey, Bincode BlockAdditionalData, Bincode MetadataValue}.
Context `{Bincode OperationsForBlocksMessage_t}.
Context `{FeederWorldLaws stopped}.

Lemma is_running_effects a : effects (is_running a).1 = effects a.
Proof. unfold is_running. by destruct (load_run (outside a)). Qed.

Lemma emit_if_effects b e a : effects (emit_if b e a) = effects a ++ (if b then [e] else []).
Proof. destruct b; [done|]. by rewrite app_nil_r. Qed.

(** Applying a block tells nobody. *)
Lemma apply_block_effects h oc data a : effects (apply_block h oc data a).1 = effects a.
Proof.
  unfold apply_block, pure. destruct data as [[[req meta] block]|]; [|done].
  destruct (is_applied meta); [done|]. unfold on_world, on_storages, ret.
  destruct (apply_block_call req (outside a)) as [w1 [r|]]; cbn; [|done].
  destruct (wait_for_context _ oc w1) as [w2 []]; cbn; [|done].
  destruct (store_applied_block_result h r meta (storages a)) as [s [[]|]]; cbn; done.
Qed.

(** The effects [es] of the loop over the blocks, by how it ends *)
Definition loop_effects (request : ApplyBlock) (exit : BatchEnd) (es : list FeederEffect) : Prop :=
  tally is_release es = 0%nat ∧ tally is_batch_done es = 0%nat ∧
  let answers := if apply_callback request then 1%nat else 0%nat in
  match exit with
  | BatchOver b =>
      if batch_stats b
      then tally is_ping es = 0%nat ∧ tally is_failure es = 0%nat ∧ tally is_answer es = 0%nat ∧
        (is_Some (batch_oneshot_result b) ↔ apply_callback request = true)
      else tally is_ping es = 1%nat ∧ (tally is_failure es ≤ 1)%nat ∧ tally is_answer es = answers ∧
        batch_oneshot_result b = None
  | BatchError _ => tally is_ping es = 1%nat ∧ (tally is_failure es ≤ 1)%nat ∧ tally is_answer es = answers
  | BatchShutdown | BatchPanic _ => tally is_ping es = 0%nat ∧ tally is_failure es = 0%nat ∧ tally is_answer es = 0%nat
  end.

Lemma block_failed_effects request h b e a a' exit :
  block_failed request h b e a = (a', exit) → batch_stats b = true →
  (apply_callback request = false → batch_oneshot_result b = None) →
  ∃ es, effects a' = effects a ++ es ∧ loop_effects request exit es.
Proof.
  intros E Hs Hone. unfold block_failed in E. rewrite Hs in E.
  destruct (is_running _) as [a1 running] eqn:Er.
  assert (effects a1 = effects a ++ (if apply_callback request then [CallbackResult (Err "")] else [])) as Ea.
  { rewrite <- emit_if_effects, <- (is_running_effects (emit_if _ _ a)). by rewrite Er. }
  set (es := (if apply_callback request then [CallbackResult (Err "")] else []) ++
    (if running && apply_bootstrapper request then [TellBatchFailed h] else []) ++ [TellApplyBlockDone]).
  assert (effects (emit_if true TellApplyBlockDone (emit_if (running && apply_bootstrapper request) (TellBatchFailed h) a1))
    = effects a ++ es) as Ees by (rewrite !emit_if_effects, Ea; unfold es; by rewrite !app_assoc).
  assert (loop_effects request (BatchOver (mkBatchState (batch_last_applied b) false
      (if apply_callback request then None else batch_oneshot_result b) (batch_cache b))) es ∧
    ∀ e', loop_effects request (BatchError e') es) as [H1' H2'].
  { unfold loop_effects, es. destruct (apply_callback request); [|rewrite (Hone eq_refl)];
      destruct running, (apply_bootstrapper request); cbn; split_and!; (done || lia). }
  assert (effects a' = effects a ++ es ∧ loop_effects request exit es); [|by exists es].
  destruct e as [| | |err| |]; try (by injection E as <- <-).
  destruct (handle_protocol_service_error err); by injection E as <- <-.
Qed.

Lemma apply_blocks_effects request oc blocks b a a' exit :
  apply_blocks request oc blocks b a = (a', exit) → batch_stats b = true →
  (apply_callback request = false → batch_oneshot_result b = None) →
  (apply_callback request = true → blocks = [] → is_Some (batch_oneshot_result b)) →
  ∃ es, effects a' = effects a ++ es ∧ loop_effects request exit es.
Proof.
  revert b a. induction blocks as [|h blocks IH]; intros b a; cbn [apply_blocks].
  { intros [= <- <-] Hs Hf Ht. exists []. rewrite app_nil_r. split; [done|]. unfold loop_effects. rewrite Hs. cbn. split_and!; try done.
    destruct (apply_callback request); [by split; [|intros _; apply Ht]|]. rewrite (Hf eq_refl). by split; [intros []|]. }
  destruct (is_running a) as [a1 running] eqn:Er.
  assert (effects a1 = effects a) as <- by (rewrite <- (is_running_effects a); by rewrite Er).
  destruct running; cbn [negb]; [|intros [= <- <-] _ _ _; exists []; rewrite app_nil_r; by unfold loop_effects].
  destruct (apply_block h oc _ a1) as [a2 r] eqn:Ea.
  pose proof (f_equal (λ x, effects x.1) Ea) as Ee. cbn beta in Ee. rewrite apply_block_effects in Ee. cbn [fst] in Ee. rewrite Ee.
  intros E Hs Hf _. destruct r as [[[block additional]|]|e].
  - apply IH in E as (es & Ees & Hes); cbn in *; [|done|intros Hc; rewrite Hc; by apply Hf|intros Hc _; by rewrite Hc].
    exists (TellHeadManager block (apply_chain_id request) :: es). by rewrite Ees, <- app_assoc.
  - apply IH in E as (es & Ees & Hes); cbn in *; [|done|intros Hc; rewrite Hc; by apply Hf|intros Hc _; by rewrite Hc]. by exists es.
  - destruct e; try (by eapply block_failed_effects in E). injection E as <- <-. exists []. by rewrite app_nil_r.
Qed.

Lemma is_running_stopped a a1 : is_running a = (a1, false) → stopped (outside a1).
Proof.
  unfold is_running. pose proof (load_false (outside a)) as Hf. destruct (load_run (outside a)) as [w b]. cbn in Hf.
  intros [= <- ->]. by apply Hf.
Qed.

Lemma block_failed_exit request h b e a a' exit : block_failed request h b e a = (a', exit) → exit ≠ BatchShutdown.
Proof.
  unfold block_failed. destruct (is_running _) as [a1 running].
  destruct e as [| | |err| |]; try (by intros [= _ <-]). destruct (handle_protocol_service_error err); by intros [= _ <-].
Qed.

Lemma apply_blocks_shutdown request oc blocks b a a' :
  apply_blocks request oc blocks b a = (a', BatchShutdown) → stopped (outside a').
Proof.
  revert b a. induction blocks as [|h blocks IH]; intros b a; cbn [apply_blocks]; [done|].
  destruct (is_running a) as [a1 []] eqn:Er; cbn [negb]; [|intros [= <-]; by eapply is_running_stopped].
  destruct (apply_block h oc _ a1) as [a2 [[[block additional]|]|e]]; [by apply IH..|].
  destruct e; try done; intros E; by eapply block_failed_exit in E.
Qed.

Lemma finish_batch_effects request b a :
  ∃ es, effects (finish_batch request b a) = effects a ++ es ∧
    tally is_release es = (if apply_permit request then 1%nat else 0%nat) ∧ tally is_failure es = 0%nat ∧
    (tally is_batch_done es ≤ 1)%nat ∧
    tally is_answer es = (match batch_oneshot_result b with Some _ => if apply_callback request then 1%nat else 0%nat | None => 0%nat end) ∧
    (tally is_ping es = (if batch_stats b then 1 else 0)%nat ∨ tally is_ping es = 0%nat ∧ stopped (outside (finish_batch request b a))).
Proof.
  unfold finish_batch. set (a1 := match batch_oneshot_result b with Some r => _ | None => _ end).
  set (es1 := (if apply_permit request then [ReleasePermit] else []) ++
    match batch_oneshot_result b with Some r => if apply_callback request then [CallbackResult r] else [] | None => [] end).
  assert (effects a1 = effects a ++ es1) as E1.
  { unfold a1, es1. destruct (batch_oneshot_result b) as [r|]; rewrite ?emit_if_effects, ?app_assoc; [done|by rewrite app_nil_r]. }
  destruct (is_running a1) as [a2 running] eqn:Er. pose proof (is_running_effects a1) as E2. rewrite Er in E2. cbn [fst] in E2.
  destruct running.
  - exists (es1 ++ (if batch_stats b then [TellApplyBlockDone] else []) ++
      match batch_last_applied b with Some l => if apply_bootstrapper request then [TellBatchDone l] else [] | None => [] end).
    split.
    { destruct (batch_last_applied b) as [l|]; rewrite ?emit_if_effects, E2, E1, ?app_nil_r, !app_assoc; done. }
    unfold es1. destruct (apply_permit request), (batch_oneshot_result b), (apply_callback request), (batch_stats b),
      (batch_last_applied b), (apply_bootstrapper request); cbn; split_and!; (done || lia || by left).
  - exists es1. rewrite E2, E1. split; [done|]. apply is_running_stopped in Er. unfold es1.
    destruct (apply_permit request), (batch_oneshot_result b), (apply_callback request); cbn; split_and!; (done || lia || by right).
Qed.

(** By how the batch ends *)
Lemma apply_event_effects request oc a a' exit :
  apply_event request oc a = (a', exit) →
  ∃ es, effects a' = effects a ++ es ∧
    tally is_release es = (if apply_permit request then 1%nat else 0%nat) ∧
    (tally is_failure es ≤ 1)%nat ∧ (tally is_batch_done es ≤ 1)%nat ∧
    match exit with
    | BatchOver _ | BatchError _ =>
        tally is_answer es = (if apply_callback request then 1%nat else 0%nat) ∧
        (tally is_ping es = 1%nat ∨ tally is_ping es = 0%nat ∧ stopped (outside a'))
    | BatchShutdown => tally is_answer es = 0%nat ∧ tally is_ping es = 0%nat ∧ stopped (outside a')
    | BatchPanic _ => tally is_answer es = 0%nat ∧ tally is_ping es = 0%nat
    end.
Proof.
  unfold apply_event. destruct (apply_blocks request oc _ _ a) as [a1 exit1] eqn:E.
  pose proof (λ e, apply_blocks_shutdown _ _ _ _ _ _ (eq_trans E (f_equal (pair a1) e))) as Hsh.
  apply apply_blocks_effects in E as (es & Ees & Hr & Hd & Hes); [|done|done|done].
  destruct exit1 as [b| |err|reason]; intros [= <- <-].
  - destruct (finish_batch_effects request b a1) as (es2 & E2 & Hr2 & Hf2 & Hd2 & Ha2 & Hp2).
    exists (es ++ es2). rewrite E2, Ees, app_assoc, !tally_app. split; [done|].
    destruct (batch_stats b); destruct Hes as (Hp & Hf & Ha & Ho).
    + split_and!; [lia|lia|lia| |destruct Hp2 as [?|[? ?]]; [left|right; split; [|done]]; lia].
      rewrite Ha, Ha2. destruct (apply_callback request); [|by destruct (batch_oneshot_result b)].
      by destruct (proj2 Ho eq_refl) as [r ->].
    + rewrite Ho in Ha2. split_and!; [lia|lia|lia|lia|]. left. destruct Hp2 as [?|[? _]]; lia.
  - exists (es ++ (if apply_permit request then [ReleasePermit] else [])). rewrite emit_if_effects, Ees, app_assoc, !tally_app.
    destruct Hes as (-> & -> & ->). rewrite Hr, Hd. split; [done|]. specialize (Hsh eq_refl).
    by destruct (apply_permit request); cbn; split_and!; (done || lia).
  - exists (es ++ (if apply_permit request then [ReleasePermit] else [])). rewrite emit_if_effects, Ees, app_assoc, !tally_app.
    destruct Hes as (-> & Hf & ->). rewrite Hr, Hd. split; [done|].
    destruct (apply_permit request), (apply_callback request); cbn; split_and!; (done || lia || (left; lia)).
  - exists (es ++ (if apply_permit request then [ReleasePermit] else [])). rewrite emit_if_effects, Ees, app_assoc, !tally_app.
    destruct Hes as (-> & -> & ->). rewrite Hr, Hd. split; [done|].
    by destruct (apply_permit request); cbn; split_and!; (done || lia).
Qed.

(** C7: whatever the storages, the protocol and the context do, a batch releases its permit exactly once
    and reports at most one failure and one success.  Unless the thread panics or the node is
    shut down, whoever waits for the result of the batch gets exactly one, and the feeder is told exactly once that
    it can schedule more. *)
Theorem batch_effects request oc a a' exit :
  apply_event request oc a = (a', exit) →
  ∃ es, effects a' = effects a ++ es ∧
    tally is_release es = (if apply_permit request then 1%nat else 0%nat) ∧
    (tally is_failure es ≤ 1)%nat ∧ (tally is_batch_done es ≤ 1)%nat ∧
    match exit with
    | BatchOver _ | BatchError _ =>
        tally is_answer es = (if apply_callback request then 1%nat else 0%nat) ∧
        (tally is_ping es = 1%nat ∨ tally is_ping es = 0%nat ∧ stopped (outside a'))
    | BatchShutdown => tally is_answer es = 0%nat ∧ tally is_ping es = 0%nat ∧ stopped (outside a')
    | BatchPanic _ => tally is_answer es = 0%nat ∧ tally is_ping es = 0%nat
    end.
Proof. apply apply_event_effects. Qed.

End Effects.

(** ** The storages *)

Section Storages.
Context `{RocksDbLaws cfs, CommitLogLaws}.
Context `{Bincode BlockStorageColumn} `{BincodeLaws BlockStorageColumnsLocation columns_location_ok}.
Context `{Bincode PredecessorKey} `{!BincodeLaws PredecessorKey predecessor_key_ok}.
Context `{BincodeLaws BlockAdditionalData additional_ok} `{BincodeLaws MetadataValue value_ok}.
Context `{Bincode OperationsForBlocksMessage_t}.
Context `{FeederWorld}.
Context (Hopen : dbs_families ⊆ cfs).

(** The protocol returns what can be stored. *)
Context (Hresponse : ∀ request w w' r, apply_block_call request w = (w', Ok r) →
  storable (ColumnBlockJsonData (json_of r)) ∧ additional_ok (additional_of r)).

(** The maps are consistent: records have the predecessor of the header; the index of predecessors
    has the blocks with additional data; these are closed under predecessors; applied blocks have
    additional data and results. *)
Record sound (w : Stored) : Prop := {
  sound_predecessor h b j m :
    blocks w !! h = Some (b, j) → metas w !! h = Some m → predecessor m = Some (header_predecessor (header b));
  sound_parents h p : parents w !! h = Some p → is_Some (additional w !! p) ∧ is_Some (additional w !! h);
  sound_indexed h m p :
    is_Some (additional w !! h) → metas w !! h = Some m → predecessor m = Some p → p = h ∨ parents w !! h = Some p;
  sound_closed h b j :
    is_Some (additional w !! h) → blocks w !! h = Some (b, j) → is_Some (additional w !! header_predecessor (header b));
  sound_applied h m :
    metas w !! h = Some m → is_applied m = true →
    is_Some (additional w !! h) ∧ ∃ b j, blocks w !! h = Some (b, Some j)
}.

Lemma sound_in_order w h m b j :
  sound w → blocks w !! h = Some (b, j) → metas w !! h = Some m → in_order (parents w) h m.
Proof.
  intros Hw Eb Em. unfold in_order. rewrite (sound_predecessor w Hw h b j m Eb Em).
  destruct (additional w !! h) as [d|] eqn:Ea.
  - destruct (sound_indexed w Hw h m (header_predecessor (header b))) as [->|Hp]; [by rewrite Ea|done| |by left|by right; left].
    by eapply sound_predecessor.
  - right. right. split.
    + destruct (parents w !! h) as [p|] eqn:Ep; [|done]. destruct (sound_parents w Hw h p Ep) as [_ [? ?]]. congruence.
    + intros c q Ec ->. destruct (sound_parents w Hw c h Ec) as [[? ?] _]. congruence.
Qed.

Lemma merge_set_applied m : merge_meta m (set_is_applied m true) = set_is_applied m true.
Proof. destruct m as [[p|] s ap l c]; unfold merge_meta, set_is_applied; cbn; rewrite decide_True by done; by rewrite orb_true_r. Qed.

(** Applying a block on a predecessor with additional data keeps the maps consistent. *)
Lemma applied_sound w h b j r m :
  sound w → blocks w !! h = Some (b, j) → metas w !! h = Some m →
  is_Some (additional w !! header_predecessor (header b)) → sound (applied w h b r m).
Proof.
  intros Hw Eb Em Hp. pose proof (sound_predecessor w Hw h b j m Eb Em) as Ep.
  assert (Em' : merge_into (metas w !! h) (set_is_applied m true) = set_is_applied m true)
    by (rewrite Em; apply merge_set_applied).
  assert (Hadd : ∀ k, is_Some (additional w !! k) ∨ k = h → is_Some (<[h := additional_of r]> (additional w) !! k)).
  { intros k [Hk| ->]; [|by rewrite lookup_insert_eq]. apply lookup_insert_is_Some. destruct (decide (h = k)); [by left|by right]. }
  assert (Hadd' : ∀ k, is_Some (<[h := additional_of r]> (additional w) !! k) → k = h ∨ k ≠ h ∧ is_Some (additional w !! k)).
  { intros k [<-|[? ?]]%lookup_insert_is_Some; [by left|right; by split]. }
  assert (Hpar : ∀ k p, add_parent (parents w) h m !! k = Some p →
    k = h ∧ p = header_predecessor (header b) ∨ parents w !! k = Some p).
  { intros k p. unfold add_parent. rewrite Ep. case_decide; [by right|]. rewrite lookup_insert_Some. intros [[<- <-]|[_ ?]]; [by left|by right]. }
  split; unfold applied; cbn [blocks metas parents additional].
  - intros k b' j' m' Eb' Emk. rewrite Em' in Emk.
    apply lookup_insert_Some in Emk as [[<- <-]|[Hne Emk]].
    + rewrite lookup_insert_eq in Eb'. by injection Eb' as <- _.
    + rewrite lookup_insert_ne in Eb' by done. by eapply sound_predecessor.
  - intros k p [[-> ->]|Hk]%Hpar; [split; apply Hadd; [by left|by right]|].
    destruct (sound_parents w Hw k p Hk). split; apply Hadd; by left.
  - intros k m' p Hk Emk Epk. rewrite Em' in Emk. apply Hadd' in Hk as [->|[Hne Hk]].
    + rewrite lookup_insert_eq in Emk. injection Emk as <-. cbn in Epk. rewrite Ep in Epk. injection Epk as <-.
      unfold add_parent. rewrite Ep. case_decide; [by left|right]. by rewrite lookup_insert_eq.
    + rewrite lookup_insert_ne in Emk by done. destruct (sound_indexed w Hw k m' p Hk Emk Epk) as [|Hpk]; [by left|right].
      unfold add_parent. rewrite Ep. case_decide; [done|]. by rewrite lookup_insert_ne.
  - intros k b' j' Hk Eb'. apply Hadd. left. apply Hadd' in Hk as [->|[Hne Hk]].
    + rewrite lookup_insert_eq in Eb'. by injection Eb' as <- _.
    + rewrite lookup_insert_ne in Eb' by done. by eapply sound_closed.
  - intros k m' Emk Hap. rewrite Em' in Emk. apply lookup_insert_Some in Emk as [[<- _]|[Hne Emk]].
    + split; [apply Hadd; by right|]. eexists _, _. by rewrite lookup_insert_eq.
    + destruct (sound_applied w Hw k m' Emk Hap) as [? (b' & j' & ?)]. split; [apply Hadd; by left|].
      exists b', j'. by rewrite lookup_insert_ne.
Qed.

Lemma with_json_sound w h b j j' : sound w → blocks w !! h = Some (b, j) → sound (with_json w h b j').
Proof.
  intros Hw Eb. assert (Hb : ∀ k b' j1, <[h := (b, Some j')]> (blocks w) !! k = Some (b', j1) → ∃ j2, blocks w !! k = Some (b', j2)).
  { intros k b' j1. rewrite lookup_insert_Some. intros [[<- [= <- _]]|[_ ?]]; by eexists. }
  split; unfold with_json; cbn [blocks metas parents additional].
  - intros k b' j1 m [j2 E]%Hb Em. by eapply sound_predecessor.
  - apply (sound_parents w Hw).
  - apply (sound_indexed w Hw).
  - intros k b' j1 Hk [j2 E]%Hb. by eapply sound_closed.
  - intros k m Em Hap. destruct (sound_applied w Hw k m Em Hap) as [? (b' & j1 & E)]. split; [done|].
    destruct (decide (k = h)) as [->|Hne]; [eexists _, _; by rewrite lookup_insert_eq|].
    exists b', j1. by rewrite lookup_insert_ne.
Qed.

(** *** Reads *)

Lemma meta_holds_ok db M h m : BlockMeta.holds db M → hash_ok BlockHash h → M !! h = Some m → meta_ok m.
Proof.
  intros HM Hh E. destruct (HM h Hh) as (val & _ & Hs). rewrite E in Hs. destruct val; [|done]. by destruct Hs.
Qed.

Lemma stores_reads s w h :
  stores s w → hash_ok BlockHash h →
  BlockStorage.get h s = Ok (fst <$> blocks w !! h) ∧ BlockMeta.get h (db s) = Ok (metas w !! h) ∧
  get_additional_data h (db s) = Ok (additional w !! h) ∧
  (∀ m, metas w !! h = Some m → meta_ok m) ∧ (∀ b j, blocks w !! h = Some (b, j) → hash b = h).
Proof.
  intros (HB & HM & _ & _ & HA) Hh. split_and!.
  - by apply block_get_holds.
  - apply (meta_get_holds (other_open Hopen _ ltac:(left))); done.
  - by apply HA.
  - intros m. by eapply meta_holds_ok.
  - intros b j E. destruct HB as [_ HB]. specialize (HB h Hh). rewrite E in HB. by destruct HB.
Qed.

(** What is cached is what is stored. *)
Definition cache_ok (w : Stored) (cache : block_data_cache) : Prop :=
  ∀ b d, cache = Some (b, d) → ∃ j, blocks w !! hash b = Some (b, j) ∧ additional w !! hash b = Some d.

Lemma load_block_data_spec s w h :
  stores s w → hash_ok BlockHash h →
  load_block_data h s =
    match blocks w !! h, additional w !! h with
    | Some (b, _), Some d => Ok (b, d)
    | _, _ => Err (FeedStorageError MissingKey)
    end.
Proof.
  intros Hs Hh. destruct (stores_reads s w h Hs Hh) as (Eb & _ & Ea & _). unfold load_block_data. rewrite Eb, Ea. cbn.
  by destruct (blocks w !! h) as [[b j]|], (additional w !! h).
Qed.

(** The cache makes no difference. *)
Lemma resolve_uncached s w h cache :
  stores s w → hash_ok BlockHash h → cache_ok w cache → resolve_block_data h cache s = load_block_data h s.
Proof.
  intros Hs Hh Hc. unfold resolve_block_data. destruct cache as [[b d]|]; [|done]. cbn. case_decide as E; [|done]. subst h.
  destruct (Hc b d eq_refl) as (j & Eb & Ea). by rewrite (load_block_data_spec s w), Eb, Ea.
Qed.

Lemma prepare_uncached s w h c cache :
  stores s w → sound w → hash_ok BlockHash h → cache_ok w cache →
  prepare_apply_request h c cache s = prepare_apply_request h c None s.
Proof.
  intros Hs Hw Hh Hc. destruct (stores_reads s w h Hs Hh) as (Eb & Em & _ & Hm & _). unfold prepare_apply_request.
  rewrite Eb, Em. cbn. destruct (blocks w !! h) as [[b j]|] eqn:EB; [|done]. cbn.
  destruct (metas w !! h) as [m|] eqn:EM; [|done]. cbn. destruct (get_operations h (db s)) as [ops|]; [|done]. cbn.
  rewrite (resolve_uncached s w _ cache); [done|done| |done].
  apply (Hm m eq_refl). by eapply sound_predecessor.
Qed.

(** What the request has, where there is one *)
Lemma prepare_spec s w h c request m b :
  stores s w → sound w → hash_ok BlockHash h → prepare_apply_request h c None s = Ok (request, m, b) →
  ∃ j, blocks w !! h = Some (b, j) ∧ metas w !! h = Some m ∧ hash b = h ∧ meta_ok m ∧
    is_Some (additional w !! header_predecessor (header b)).
Proof.
  intros Hs Hw Hh. destruct (stores_reads s w h Hs Hh) as (Eb & Em & _ & Hm & Hhash). unfold prepare_apply_request.
  rewrite Eb, Em. cbn. destruct (blocks w !! h) as [[b' j]|] eqn:EB; [|done]. cbn.
  destruct (metas w !! h) as [m'|] eqn:EM; [|done]. cbn. destruct (get_operations h (db s)) as [ops|]; [|done]. cbn.
  assert (hash_ok BlockHash (header_predecessor (header b'))) as Hp by (apply (Hm m' eq_refl); by eapply sound_predecessor).
  rewrite (load_block_data_spec s w) by done. destruct (blocks w !! header_predecessor (header b')) as [[pb pj]|]; [|done].
  destruct (additional w !! header_predecessor (header b')) as [d|] eqn:ED; [|done]. intros [= _ <- <-].
  exists j. split_and!; [done|done|by eapply Hhash|by apply Hm|done].
Qed.

(** *** Applying one block *)

Definition applied_in (w : Stored) (h : bytes) : Prop := ∃ m, metas w !! h = Some m ∧ is_applied m = true.

Lemma applied_in_applied w h b r m k :
  applied_in (applied w h b r m) k ↔ k = h ∨ applied_in w k.
Proof.
  unfold applied_in, applied. cbn [metas]. split.
  - intros (m' & [[<- _]|[_ E]]%lookup_insert_Some & Hm'); [by left|right; by exists m'].
  - intros [->|(m' & E & Hm')].
    + eexists. rewrite lookup_insert_eq. split; [done|]. by apply merge_into_applied.
    + destruct (decide (k = h)) as [->|Hne].
      * eexists. rewrite lookup_insert_eq. split; [done|]. by apply merge_into_applied.
      * exists m'. by rewrite lookup_insert_ne.
Qed.

Lemma apply_block_spec n h oc c cache a w a' r :
  stores (storages a) w → sound w → cache_ok w cache → hash_ok BlockHash h → 0 ≤ n → room (n + 1) (storages a) →
  apply_block h oc (prepare_apply_request h c cache (storages a)) a = (a', r) →
  apply_block h oc (prepare_apply_request h c None (storages a)) a = (a', r) ∧
  ∃ w', stores (storages a') w' ∧ sound w' ∧ room n (storages a') ∧
    match r with
    | Ok (Some (b, d)) =>
        hash b = h ∧ ¬ applied_in w h ∧ cache_ok w' (Some (b, d)) ∧ ∀ k, applied_in w' k ↔ k = h ∨ applied_in w k
    | Ok None => w' = w ∧ applied_in w h
    | Err _ => ∀ k, applied_in w' k ↔ applied_in w k
    end.
Proof.
  intros Hs Hw Hc Hh Hn Hr. rewrite (prepare_uncached (storages a) w) by done. intros E. split; [done|].
  assert (room n (storages a)) as Hr' by (eapply room_le; [|done]; lia).
  assert (Hsame : ∀ w1 e, (a', r) = (mkApplier (storages a) w1 (effects a), Err e) →
    ∃ w', stores (storages a') w' ∧ sound w' ∧ room n (storages a') ∧
      match r with Err _ => ∀ k, applied_in w' k ↔ applied_in w k | _ => False end).
  { intros w1 e [= -> ->]. by exists w. }
  unfold apply_block, pure in E. destruct (prepare_apply_request h c None (storages a)) as [[[request m] b]|e] eqn:Ep.
  2: { destruct (Hsame (outside a) e) as (w' & ? & ? & ? & ?); [by destruct a|]. exists w'. by destruct r as [[[]|]|]. }
  destruct (prepare_spec (storages a) w h c request m b Hs Hw Hh Ep) as (j & Eb & Em & Hhash & Hm & Hpred).
  destruct (is_applied m) eqn:Eapp.
  { injection E as <- <-. exists w. split_and!; [done..|]. by exists m. }
  unfold on_world in E. destruct (apply_block_call request (outside a)) as [w1 [resp|e]] eqn:Ecall; cbn in E.
  2: { destruct (Hsame w1 (FeedProtocolServiceError e)) as (w' & ? & ? & ? & ?); [done|]. exists w'. by destruct r as [[[]|]|]. }
  destruct (wait_for_context _ oc w1) as [w2 [[]|e]]; cbn in E.
  2: { destruct (Hsame w2 e) as (w' & ? & ? & ? & ?); [done|]. exists w'. by destruct r as [[[]|]|]. }
  destruct (Hresponse request _ _ resp Ecall) as [Hst Ha].
  destruct (store_applied_known Hopen n (storages a) w h resp m b j) as (s' & Es & Hr2 & Hs'); [done..|by eapply sound_in_order|done|done|done|].
  unfold on_storages in E. cbn in E. rewrite Es in E. destruct (decide (0 ≤ response_max_operations_ttl resp < 2 ^ 16)); cbn in E; injection E as <- <-.
  - exists (applied w h b resp m). split; [done|]. split; [by eapply applied_sound|]. split; [done|]. split; [done|]. split_and!.
    + intros (m' & Em' & Hm'). rewrite Em in Em'. injection Em' as <-. congruence.
    + intros b' d [= <- <-]. rewrite Hhash. unfold applied. cbn. rewrite !lookup_insert_eq. by eexists.
    + intros k. apply applied_in_applied.
  - exists (with_json w h b (json_of resp)). split; [done|]. split; [by eapply with_json_sound|]. by split.
Qed.

(** *** Applying a batch *)

(** The batch without the cache: the data of the predecessor are always read from the storages. *)
Fixpoint apply_blocks_uncached (request : ApplyBlock) (one_context : bool) (blocks : list bytes) (b : BatchState)
    (a : Applier) : Applier * BatchEnd :=
  match blocks with
  | [] => (a, BatchOver b)
  | block_hash :: blocks =>
      let '(a, running) := is_running a in
      if negb running then (a, BatchShutdown)
      else
        match apply_block block_hash one_context
                (prepare_apply_request block_hash (apply_chain_id request) None (storages a)) a with
        | (a, Ok (Some (block, _))) =>
            let oneshot := if apply_callback request then Some (Ok ()) else batch_oneshot_result b in
            apply_blocks_uncached request one_context blocks (mkBatchState (Some block_hash) (batch_stats b) oneshot None)
              (emit (TellHeadManager block (apply_chain_id request)) a)
        | (a, Ok None) =>
            let oneshot :=
              if apply_callback request then Some (Err "Block/batch is already applied") else batch_oneshot_result b in
            apply_blocks_uncached request one_context blocks (mkBatchState (Some block_hash) (batch_stats b) oneshot None) a
        | (a, Err (FeedPanic reason)) => (a, BatchPanic reason)
        | (a, Err e) => block_failed request block_hash b e a
        end
  end.

Definition uncached (b : BatchState) : BatchState :=
  mkBatchState (batch_last_applied b) (batch_stats b) (batch_oneshot_result b) None.

Definition uncached_end (exit : BatchEnd) : BatchEnd :=
  match exit with BatchOver b => BatchOver (uncached b) | exit => exit end.

Definition apply_event_uncached (request : ApplyBlock) (one_context : bool) (a : Applier) : Applier :=
  match apply_blocks_uncached request one_context (take_all_blocks_to_apply (apply_batch request))
          (mkBatchState None true None None) a with
  | (a, BatchOver b) => finish_batch request b a
  | (a, _) => emit_if (apply_permit request) ReleasePermit a
  end.

(** The blocks that the manager of the head is told about, and the last ones that bootstrappers are told about *)
Definition announced (es : list FeederEffect) : list bytes :=
  omap (λ e, match e with TellHeadManager b _ => Some (hash b) | _ => None end) es.
Definition reported (es : list FeederEffect) : list bytes :=
  omap (λ e, match e with TellBatchDone l => Some l | _ => None end) es.

Lemma is_running_storages a : storages (is_running a).1 = storages a.
Proof. unfold is_running. by destruct (load_run (outside a)). Qed.

Lemma emit_if_storages b e a : storages (emit_if b e a) = storages a.
Proof. by destruct b. Qed.

Lemma block_failed_same request h b e a a' exit :
  block_failed request h b e a = (a', exit) →
  storages a' = storages a ∧ announced (effects a') = announced (effects a) ∧ reported (effects a') = reported (effects a) ∧
  block_failed request h (uncached b) e a = (a', uncached_end exit) ∧
  ∀ b', exit = BatchOver b' → batch_last_applied b' = batch_last_applied b.
Proof.
  unfold block_failed, announced, reported. cbn [batch_last_applied batch_stats batch_oneshot_result uncached].
  pose proof (is_running_storages (emit_if (apply_callback request) (CallbackResult (Err "")) a)) as Es.
  pose proof (is_running_effects (emit_if (apply_callback request) (CallbackResult (Err "")) a)) as Ee.
  destruct (is_running _) as [a1 running]. cbn [fst] in *. rewrite emit_if_storages in Es. rewrite emit_if_effects in Ee.
  intros E. assert (a' = emit_if (batch_stats b) TellApplyBlockDone (emit_if (running && apply_bootstrapper request) (TellBatchFailed h) a1)) as ->.
  { destruct e as [| | |err| |]; try (by injection E as <- <-). destruct (handle_protocol_service_error err); by injection E as <- <-. }
  rewrite !emit_if_storages, Es, !emit_if_effects, Ee, !omap_app. split; [done|].
  split; [by destruct (apply_callback request), running, (apply_bootstrapper request), (batch_stats b); cbn; rewrite ?app_nil_r|].
  split; [by destruct (apply_callback request), running, (apply_bootstrapper request), (batch_stats b); cbn; rewrite ?app_nil_r|].
  destruct e as [| | |err| |]; try (injection E as <-; split; [done|by intros b' [= <-]]).
  destruct (handle_protocol_service_error err); injection E as <-; split; try done. by intros b' [= <-].
Qed.

(** What the loop over [blocks] does, from the maps [w] to [w'], where [news] are the blocks that it applied *)
Record loop_applies (w w' : Stored) (blocks news : list bytes) (a a' : Applier) : Prop := {
  loop_stores : stores (storages a') w';
  loop_sound : sound w';
  loop_announced : announced (effects a') = announced (effects a) ++ news;
  loop_reported : reported (effects a') = reported (effects a);
  loop_order : news `sublist_of` blocks;
  loop_nodup : NoDup news;
  loop_new k : k ∈ news → ¬ applied_in w k;
  loop_applied k : applied_in w' k ↔ applied_in w k ∨ k ∈ news
}.

Lemma loop_applies_nil w w' blocks a a' :
  stores (storages a') w' → sound w' → announced (effects a') = announced (effects a) →
  reported (effects a') = reported (effects a) → (∀ k, applied_in w' k ↔ applied_in w k) →
  loop_applies w w' blocks [] a a'.
Proof.
  intros ? ? Ea Er Hk. split; try done.
  - by rewrite Ea, app_nil_r.
  - apply sublist_nil_l.
  - constructor.
  - by intros k ?%elem_of_nil.
  - intros k. rewrite Hk. split; [by left|]. intros [?|?%elem_of_nil]; done.
Qed.

Lemma loop_applies_skip w w' h blocks news a a1 a' :
  loop_applies w w' blocks news a1 a' → effects a1 = effects a → loop_applies w w' (h :: blocks) news a a'.
Proof. intros [] E. rewrite E in *. split; try done. by apply sublist_cons. Qed.

Lemma loop_applies_cons w w1 w' h b c blocks news a a1 a' :
  loop_applies w1 w' blocks news (emit (TellHeadManager b c) a1) a' → effects a1 = effects a → hash b = h →
  ¬ applied_in w h → (∀ k, applied_in w1 k ↔ k = h ∨ applied_in w k) →
  loop_applies w w' (h :: blocks) (h :: news) a a'.
Proof.
  intros [? ? Han Hrep ? ? Hnew Happ] E Hb Hnot Hk. cbn [emit effects] in *. rewrite E in *. split; try done.
  - rewrite Han. unfold announced. rewrite omap_app. cbn. by rewrite Hb, <- app_assoc.
  - rewrite Hrep. unfold reported. rewrite omap_app. cbn. by rewrite app_nil_r.
  - by apply sublist_skip.
  - constructor; [|done]. intros Hin. apply (Hnew h Hin), Hk. by left.
  - intros k [->|Hin]%elem_of_cons; [done|]. intros Hw. apply (Hnew k Hin), Hk. by right.
  - intros k. rewrite Happ, Hk, elem_of_cons. tauto.
Qed.

Lemma apply_blocks_spec request oc bs b a w a' exit :
  stores (storages a) w → sound w → cache_ok w (batch_cache b) → Forall (hash_ok BlockHash) bs →
  room (Z.of_nat (length bs)) (storages a) → apply_blocks request oc bs b a = (a', exit) →
  apply_blocks_uncached request oc bs (uncached b) a = (a', uncached_end exit) ∧
  ∃ w' news, loop_applies w w' bs news a a' ∧
    ∀ b' l, exit = BatchOver b' → batch_last_applied b' = Some l → batch_last_applied b = Some l ∨ applied_in w' l.
Proof.
  revert b a w. induction bs as [|h bs IH]; intros b a w Hs Hw Hc Hbs Hr; cbn [apply_blocks apply_blocks_uncached].
  { intros [= <- <-]. split; [done|]. exists w, []. split; [by apply loop_applies_nil|]. intros b' l [= <-]. by left. }
  apply Forall_cons in Hbs as [Hh Hbs]. pose proof (is_running_storages a) as Es. pose proof (is_running_effects a) as Ee.
  destruct (is_running a) as [a1 running]. cbn [fst] in Es, Ee. rewrite <- Es in Hs, Hr. destruct running; cbn [negb].
  2: { intros [= <- <-]. split; [done|]. exists w, []. split; [|done]. by apply loop_applies_nil; rewrite ?Ee. }
  destruct (apply_block h oc _ a1) as [a2 r] eqn:Ea. cbn [length] in Hr.
  pose proof (f_equal (λ x, effects x.1) Ea) as Ee2. cbn beta in Ee2. rewrite apply_block_effects, Ee in Ee2. cbn [fst] in Ee2.
  apply (apply_block_spec (Z.of_nat (length bs)) h oc _ _ a1 w) in Ea as [-> (w1 & Hs1 & Hw1 & Hr1 & Hres)];
    [|done|done|done|done|lia|by replace (Z.of_nat (length bs) + 1) with (Z.of_nat (S (length bs))) by lia].
  destruct r as [[[block d]|]|e]; cbn [batch_last_applied batch_stats batch_oneshot_result uncached].
  - destruct Hres as (Hhash & Hnot & Hc1 & Happ). intros E.
    apply (IH _ _ w1) in E as [Eu (w' & news & Hloop & Hlast)]; [|done|done|done|done|done].
    split; [exact Eu|]. exists w', (h :: news). split; [by eapply loop_applies_cons|].
    intros b' l Eb El. right. apply (Hlast b' l Eb) in El as [[= <-]|]; [|done]. apply Hloop. left. apply Happ. by left.
  - destruct Hres as [-> Happ]. intros E. apply (IH _ _ w) in E as [Eu (w' & news & Hloop & Hlast)]; [|done|done|done|done|done].
    split; [exact Eu|]. exists w', news. split; [by eapply loop_applies_skip|].
    intros b' l Eb El. right. apply (Hlast b' l Eb) in El as [[= <-]|]; [|done]. apply Hloop. by left.
  - assert ((∃ reason, e = FeedPanic reason) ∨ ¬ ∃ reason, e = FeedPanic reason) as [[reason ->]|Hne]
      by (destruct e; try (right; by intros [? ?]); left; by eexists).
    { intros [= <- <-]. split; [done|]. exists w1, []. split; [|done]. apply loop_applies_nil; rewrite <- ?Ee2; done. }
    intros E. assert (block_failed request h (mkBatchState (batch_last_applied b) (batch_stats b) (batch_oneshot_result b) None) e a2 = (a', exit)) as E'.
    { by destruct e; try done; destruct Hne; eexists. }
    destruct (block_failed_same _ _ _ _ _ _ _ E') as (Est & Ean & Erep & Eu & Hl). split.
    + destruct e; try exact Eu. destruct Hne. by eexists.
    + exists w1, []. split; [apply loop_applies_nil; rewrite ?Est, ?Ean, ?Erep, <- ?Ee2; done|].
      intros b' l Eb El. left. by rewrite <- El, (Hl b' Eb).
Qed.

Lemma finish_batch_same request b a :
  storages (finish_batch request b a) = storages a ∧ announced (effects (finish_batch request b a)) = announced (effects a) ∧
  ∃ l, reported (effects (finish_batch request b a)) = reported (effects a) ++ l ∧
    ∀ k, k ∈ l → batch_last_applied b = Some k.
Proof.
  unfold finish_batch. set (a1 := match batch_oneshot_result b with Some r => _ | None => _ end).
  assert (storages a1 = storages a ∧ announced (effects a1) = announced (effects a) ∧ reported (effects a1) = reported (effects a))
    as (Es & Ea & Er).
  { unfold a1, announced, reported. destruct (batch_oneshot_result b) as [r|]; rewrite ?emit_if_storages, ?emit_if_effects, ?omap_app;
      destruct (apply_permit request), (apply_callback request); cbn; by rewrite ?app_nil_r. }
  pose proof (is_running_storages a1) as Es1. pose proof (is_running_effects a1) as Ee1.
  destruct (is_running a1) as [a2 []]; cbn [fst] in *; [|rewrite Ee1, Es1, Es, Ea, Er; split_and!; [done..|]; exists [];
    rewrite app_nil_r; split; [done|by intros k ?%elem_of_nil]].
  rewrite <- Es, <- Es1, <- Ea, <- Er, <- Ee1. unfold announced, reported. destruct (batch_last_applied b) as [l|].
  - rewrite !emit_if_storages, !emit_if_effects, !omap_app. split; [done|].
    split; [destruct (batch_stats b), (apply_bootstrapper request); cbn; by rewrite ?app_nil_r|].
    exists (if apply_bootstrapper request then [l] else []).
    split; [destruct (batch_stats b), (apply_bootstrapper request); cbn; by rewrite ?app_nil_r|].
    intros k Hk. destruct (apply_bootstrapper request); [by apply list_elem_of_singleton in Hk as ->|by apply elem_of_nil in Hk].
  - rewrite !emit_if_storages, !emit_if_effects, !omap_app. split; [done|].
    split; [destruct (batch_stats b); cbn; by rewrite ?app_nil_r|]. exists [].
    split; [destruct (batch_stats b); cbn; by rewrite ?app_nil_r|by intros k ?%elem_of_nil].
Qed.

(** C8: keeping the data of the block before in memory makes no difference: in storages that are consistent, a
    batch has the same effects on the storages, the protocol and the others as if all data were read from
    the storages. *)
Theorem batch_cache_transparent request oc a w :
  stores (storages a) w → sound w → Forall (hash_ok BlockHash) (take_all_blocks_to_apply (apply_batch request)) →
  room (Z.of_nat (length (take_all_blocks_to_apply (apply_batch request)))) (storages a) →
  (apply_event request oc a).1 = apply_event_uncached request oc a.
Proof.
  intros Hs Hw Hh Hr. unfold apply_event, apply_event_uncached. destruct (apply_blocks request oc _ _ a) as [a1 exit] eqn:E.
  apply (apply_blocks_spec request oc _ _ a w) in E as [Eu _]; [|done..].
  change (uncached _) with (mkBatchState None true None None) in Eu. rewrite Eu. by destruct exit.
Qed.


End Storages.
