(* ===== verification/ChainFeeder.v ===== *)
(** * The queue of batches: the actor of [shell/src/chain_feeder.rs]

    The actor accepts batches of blocks, lets as many of them as there are tickets go to the thread of
    [BlockApplier], and keeps the others in a queue until it is told that a batch is done.  The actor handles one
    message at a time; its steps and those of the thread are interleaved.

    The actor and the thread read the same flag; here the thread sees it through its world, in which it can be reset
    at any time.  The statistics are left out, and so is the start of the protocol, at the beginning and after
    one of its errors ([feed_chain_to_protocol] of [BlockApplier]): it neither takes events nor sends messages to
    the actor. *)

From stdpp Require Import gmap.
From S2P Require Import Prelude Hash Kv Prevalidator OperationsStorage ShellState Blocks OperationsMeta Predecessors BlockMeta BlockStorage ChainMeta StorageOps BlockApplier BlockApplierFacts.

Definition BLOCK_APPLY_BATCH_MAX_TICKETS : nat := 2.

(** [ScheduleApplyBlock] *)
Record ScheduledBatch := mkScheduledBatch {
  scheduled_batch : ApplyBlockBatch;
  scheduled_chain_id : bytes;
  scheduled_bootstrapper : bool
}.

(** The messages of the actor.  An [ApplyBlock] of others is for an injected block, it has a callback and no permit. *)
Inductive ChainFeederMsg :=
| MsgApplyBlock (batch : ApplyBlockBatch) (chain_id : bytes) (callback : bool)
| MsgScheduleApplyBlock (batch : ScheduledBatch)
| MsgApplyBlockDone
| MsgShuttingDown.

Section Feeder.
Context `{RocksDb, CommitLogLib}.
Context `{Bincode BlockStorageColumn, Bincode BlockStorageColumnsLocation}.
Context `{Bincode PredecessorKey, Bincode BlockAdditionalData, Bincode MetadataValue}.
Context `{Bincode OperationsForBlocksMessage_t}.
Context `{FeederWorld}.
Context (one_context : bool).

(** The thread: started, between two events, while the effects of an event take place (with whether it ends
    afterwards), or at its end *)
Inductive FeederThread :=
| FeederStarting
| FeederIdle
| FeederBusy (todo : list FeederEffect) (ending : bool)
| FeederEnded.

(** The actor, its mailbox, the channel to the thread, the thread.  The last two fields are the history: the batches that were
    accepted, and those that the thread has taken. *)
Record ChainFeeder := mkChainFeeder {
  feeder_queue : list ScheduledBatch;
  apply_block_tickets : nat;
  block_applier_run : bool;
  feeder_mailbox : list ChainFeederMsg;
  feeder_channel : list FeederEvent;
  feeder_thread : FeederThread;
  feeder_applier : Applier;
  feeder_accepted : list ScheduledBatch;
  feeder_taken : list ScheduledBatch
}.

Definition with_queue q f :=
  mkChainFeeder q (apply_block_tickets f) (block_applier_run f) (feeder_mailbox f) (feeder_channel f) (feeder_thread f)
    (feeder_applier f) (feeder_accepted f) (feeder_taken f).
Definition with_tickets n f :=
  mkChainFeeder (feeder_queue f) n (block_applier_run f) (feeder_mailbox f) (feeder_channel f) (feeder_thread f)
    (feeder_applier f) (feeder_accepted f) (feeder_taken f).
Definition with_run b f :=
  mkChainFeeder (feeder_queue f) (apply_block_tickets f) b (feeder_mailbox f) (feeder_channel f) (feeder_thread f)
    (feeder_applier f) (feeder_accepted f) (feeder_taken f).
Definition with_mailbox ms f :=
  mkChainFeeder (feeder_queue f) (apply_block_tickets f) (block_applier_run f) ms (feeder_channel f) (feeder_thread f)
    (feeder_applier f) (feeder_accepted f) (feeder_taken f).
Definition with_channel es f :=
  mkChainFeeder (feeder_queue f) (apply_block_tickets f) (block_applier_run f) (feeder_mailbox f) es (feeder_thread f)
    (feeder_applier f) (feeder_accepted f) (feeder_taken f).
Definition with_feeder_thread t f :=
  mkChainFeeder (feeder_queue f) (apply_block_tickets f) (block_applier_run f) (feeder_mailbox f) (feeder_channel f) t
    (feeder_applier f) (feeder_accepted f) (feeder_taken f).

Definition feeder_new (a : Applier) : ChainFeeder :=
  mkChainFeeder [] BLOCK_APPLY_BATCH_MAX_TICKETS false [] [] FeederStarting a [] [].

(** ** The actor *)

(** Whether [send_to_queue] succeeds: the receiver belongs to the thread. *)
Definition feeder_receiver_alive (f : ChainFeeder) : bool :=
  match feeder_thread f with FeederEnded => false | _ => true end.

(** A permit that is dropped *)
Definition release_ticket (permit : bool) (f : ChainFeeder) : ChainFeeder :=
  if permit then with_tickets (S (apply_block_tickets f)) f else f.

Definition apply_completed_block (request : ApplyBlock) (f : ChainFeeder) : ChainFeeder :=
  if feeder_receiver_alive f then with_channel (feeder_channel f ++ [EventApplyBlock request]) f
  else with_mailbox (feeder_mailbox f ++ [MsgApplyBlockDone]) (release_ticket (apply_permit request) f).

Definition add_to_batch_queue (batch : ScheduledBatch) (f : ChainFeeder) : ChainFeeder :=
  mkChainFeeder (feeder_queue f ++ [batch]) (apply_block_tickets f) (block_applier_run f) (feeder_mailbox f)
    (feeder_channel f) (feeder_thread f) (feeder_applier f) (feeder_accepted f ++ [batch]) (feeder_taken f).

Definition scheduled_request (batch : ScheduledBatch) : ApplyBlock :=
  mkApplyBlock (scheduled_batch batch) (scheduled_chain_id batch) (scheduled_bootstrapper batch) false true.

(** As long as there is a ticket and a batch; [queue] are the batches that wait *)
Fixpoint schedule_batches (queue : list ScheduledBatch) (f : ChainFeeder) : ChainFeeder :=
  match apply_block_tickets f, queue with
  | S n, batch :: queue =>
      schedule_batches queue (apply_completed_block (scheduled_request batch) (with_queue queue (with_tickets n f)))
  | _, _ => f
  end.

Definition process_batch_queue (f : ChainFeeder) : ChainFeeder := schedule_batches (feeder_queue f) f.

Definition feeder_receive (msg : ChainFeederMsg) (f : ChainFeeder) : ChainFeeder :=
  match msg with
  | MsgApplyBlock batch chain_id callback =>
      if block_applier_run f
      then apply_completed_block (mkApplyBlock batch chain_id false callback false) f
      else f
  | MsgScheduleApplyBlock batch =>
      if block_applier_run f then process_batch_queue (add_to_batch_queue batch f) else f
  | MsgApplyBlockDone => if block_applier_run f then process_batch_queue f else f
  | MsgShuttingDown =>
      let f := with_run false f in
      if feeder_receiver_alive f then with_channel (feeder_channel f ++ [EventShuttingDown]) f else f
  end.

(** ** The thread *)

(** The receiver is dropped with what is in the channel. *)
Definition channel_permits (events : list FeederEvent) : nat :=
  length (List.filter (λ e, match e with EventApplyBlock r => apply_permit r | EventShuttingDown => false end) events).

Definition thread_ends (f : ChainFeeder) : ChainFeeder :=
  with_feeder_thread FeederEnded
    (with_channel [] (with_tickets (apply_block_tickets f + channel_permits (feeder_channel f)) f)).

Definition batch_of_request (r : ApplyBlock) : ScheduledBatch :=
  mkScheduledBatch (apply_batch r) (apply_chain_id r) (apply_bootstrapper r).

(** What the thread does with an event: the effects are those of [apply_event], and take place one after the other. *)
Definition take_event (e : FeederEvent) (rest : list FeederEvent) (f : ChainFeeder) : ChainFeeder :=
  match e with
  | EventShuttingDown => thread_ends (with_run false (with_channel rest f))
  | EventApplyBlock request =>
      let '(a, exit) := apply_event request one_context (feeder_applier f) in
      let todo := drop (length (effects (feeder_applier f))) (effects a) in
      let ending := match exit with BatchOver _ | BatchError _ => false | BatchShutdown | BatchPanic _ => true end in
      mkChainFeeder (feeder_queue f) (apply_block_tickets f) (block_applier_run f) (feeder_mailbox f) rest
        (FeederBusy todo ending) a (feeder_accepted f)
        (if apply_permit request then feeder_taken f ++ [batch_of_request request] else feeder_taken f)
  end.

Definition perform_effect (e : FeederEffect) (f : ChainFeeder) : ChainFeeder :=
  match e with
  | ReleasePermit => release_ticket true f
  | TellApplyBlockDone => with_mailbox (feeder_mailbox f ++ [MsgApplyBlockDone]) f
  | _ => f
  end.

(** ** Interleavings *)

Inductive FeederStep :=
| StepSend (msg : ChainFeederMsg)
| StepReceive
| StepThread
| StepStop.

(** Somebody sends a message other than [ApplyBlockDone], the actor handles the next one, the thread goes on, or it finds
    the flag reset *)
Definition feeder_step (e : FeederStep) (f : ChainFeeder) : option ChainFeeder :=
  match e with
  | StepSend MsgApplyBlockDone => None
  | StepSend msg => Some (with_mailbox (feeder_mailbox f ++ [msg]) f)
  | StepReceive =>
      match feeder_mailbox f with
      | [] => None
      | msg :: rest => Some (feeder_receive msg (with_mailbox rest f))
      end
  | StepThread =>
      match feeder_thread f with
      | FeederStarting => Some (with_run true (with_feeder_thread FeederIdle f))
      | FeederIdle =>
          match feeder_channel f with [] => None | e :: rest => Some (take_event e rest f) end
      | FeederBusy (e :: todo) ending => Some (perform_effect e (with_feeder_thread (FeederBusy todo ending) f))
      | FeederBusy [] ending => Some (if ending then thread_ends f else with_feeder_thread FeederIdle f)
      | FeederEnded => None
      end
  | StepStop => match feeder_thread f with FeederIdle => Some (thread_ends f) | _ => None end
  end.

Fixpoint feeder_run (es : list FeederStep) (f : ChainFeeder) : option ChainFeeder :=
  match es with
  | [] => Some f
  | e :: es => f' ← feeder_step e f; feeder_run es f'
  end.

End Feeder.

(** ** The invariant *)

Section FeederInvariant.
Context `{RocksDb, CommitLogLib}.
Context `{Bincode BlockStorageColumn, Bincode BlockStorageColumnsLocation}.
Context `{Bincode PredecessorKey, Bincode BlockAdditionalData, Bincode MetadataValue}.
Context `{Bincode OperationsForBlocksMessage_t}.
Context `{FeederWorldLaws stopped}.
Context (one_context : bool).

#[local] Open Scope nat_scope.

(** The effects that are still to come, and whether the thread goes on *)
Definition thread_todo (f : ChainFeeder) : list FeederEffect :=
  match feeder_thread f with FeederBusy todo _ => todo | _ => [] end.

Definition goes_on (f : ChainFeeder) : Prop :=
  match feeder_thread f with FeederIdle | FeederBusy _ false => True | _ => False end.

(** The scheduled batches in the channel *)
Definition channel_batches (events : list FeederEvent) : list ScheduledBatch :=
  omap (λ e, match e with
             | EventApplyBlock r => if apply_permit r then Some (batch_of_request r) else None
             | EventShuttingDown => None
             end) events.

Definition is_apply (e : FeederEvent) : Prop := match e with EventApplyBlock _ => True | EventShuttingDown => False end.

(** The actor will be told that it can schedule more. *)
Definition wake_pending (f : ChainFeeder) : Prop :=
  MsgApplyBlockDone ∈ feeder_mailbox f ∨ 0 < tally is_ping (thread_todo f) ∨ Exists is_apply (feeder_channel f) ∨
  stopped (outside (feeder_applier f)).

Record feeder_ok (f : ChainFeeder) : Prop := {
  ok_tickets : apply_block_tickets f + channel_permits (feeder_channel f) + tally is_release (thread_todo f)
    = BLOCK_APPLY_BATCH_MAX_TICKETS;
  ok_release : tally is_release (thread_todo f) ≤ 1;
  ok_order : feeder_thread f ≠ FeederEnded →
    feeder_accepted f = feeder_taken f ++ channel_batches (feeder_channel f) ++ feeder_queue f;
  ok_starting : feeder_thread f = FeederStarting → block_applier_run f = false ∧ feeder_queue f = [];
  ok_wake : goes_on f → block_applier_run f = true → feeder_queue f ≠ [] → wake_pending f
}.

Lemma channel_permits_app es1 es2 : channel_permits (es1 ++ es2) = channel_permits es1 + channel_permits es2.
Proof. unfold channel_permits. by rewrite List.filter_app, length_app. Qed.

Lemma permits_apply es : 0 < channel_permits es → Exists is_apply es.
Proof.
  induction es as [|[r|] es IH]; unfold channel_permits in *; cbn; [lia| |].
  - intros _. by left.
  - intros Hn. right. by apply IH.
Qed.

Lemma feeder_new_ok a : feeder_ok (feeder_new a).
Proof. by split; cbn; [| lia| | |]. Qed.

#[local] Arguments channel_permits : simpl never.
#[local] Arguments channel_batches : simpl never.
#[local] Arguments tally : simpl never.

(** If no batch or no ticket is left, then a wake-up is pending where batches wait: with two tickets, one of them
    is in the channel. *)
Lemma exhausted_wake f :
  apply_block_tickets f + channel_permits (feeder_channel f) + tally is_release (thread_todo f) = BLOCK_APPLY_BATCH_MAX_TICKETS →
  tally is_release (thread_todo f) ≤ 1 → apply_block_tickets f = 0 ∨ feeder_queue f = [] →
  feeder_queue f ≠ [] → wake_pending f.
Proof.
  intros Ht Hr [Hn|Hn] Hq; [|done]. right. right. left. apply permits_apply. unfold BLOCK_APPLY_BATCH_MAX_TICKETS in Ht. lia.
Qed.

Lemma batch_of_scheduled b : batch_of_request (scheduled_request b) = b.
Proof. by destruct b. Qed.

(** Scheduling leaves no batch or no ticket, and keeps tickets and order. *)
Lemma schedule_batches_spec f :
  feeder_thread f ≠ FeederEnded →
  let f' := process_batch_queue f in
  (apply_block_tickets f' = 0 ∨ feeder_queue f' = []) ∧
  apply_block_tickets f' + channel_permits (feeder_channel f') = apply_block_tickets f + channel_permits (feeder_channel f) ∧
  channel_batches (feeder_channel f') ++ feeder_queue f' = channel_batches (feeder_channel f) ++ feeder_queue f ∧
  feeder_thread f' = feeder_thread f ∧ feeder_applier f' = feeder_applier f ∧ block_applier_run f' = block_applier_run f ∧
  feeder_accepted f' = feeder_accepted f ∧ feeder_taken f' = feeder_taken f.
Proof.
  intros Hal. unfold process_batch_queue. remember (feeder_queue f) as queue eqn:Eq. symmetry in Eq. revert f Hal Eq.
  induction queue as [|b queue IH]; intros f Hal Eq; cbn [schedule_batches].
  { destruct (apply_block_tickets f) eqn:En; rewrite ?Eq, ?En; by split_and!; [right|..]. }
  destruct (apply_block_tickets f) as [|n] eqn:En; [rewrite Eq, ?En; by split_and!; [left|..]|].
  set (f1 := apply_completed_block (scheduled_request b) (with_queue queue (with_tickets n f))).
  assert (f1 = with_channel (feeder_channel f ++ [EventApplyBlock (scheduled_request b)]) (with_queue queue (with_tickets n f))) as Ef1.
  { unfold f1, apply_completed_block, feeder_receiver_alive. cbn. by destruct (feeder_thread f). }
  destruct (IH f1) as (Hd & Ht & Hb & Eth & Eap & Erun & Eacc & Etak); [by rewrite Ef1|by rewrite Ef1|].
  rewrite Ef1 in *. cbn [feeder_queue apply_block_tickets feeder_channel feeder_thread feeder_applier block_applier_run
    feeder_accepted feeder_taken with_channel with_queue with_tickets] in *.
  split; [done|]. rewrite Ht, Hb, channel_permits_app. unfold channel_batches. rewrite omap_app. cbn [omap list_omap apply_permit scheduled_request].
  rewrite batch_of_scheduled, <- app_assoc. split_and!; try done. unfold channel_permits. cbn. lia.
Qed.

(** Where the thread has ended, the tickets come back at once. *)
Lemma schedule_ended f :
  feeder_thread f = FeederEnded →
  let f' := process_batch_queue f in
  apply_block_tickets f' = apply_block_tickets f ∧ feeder_channel f' = feeder_channel f ∧ feeder_thread f' = FeederEnded.
Proof.
  intros Hal. unfold process_batch_queue. generalize (feeder_queue f). intros queue. revert f Hal.
  induction queue as [|b queue IH]; intros f Hal; cbn [schedule_batches].
  { by destruct (apply_block_tickets f) eqn:En; rewrite ?En. }
  destruct (apply_block_tickets f) as [|n] eqn:En; [by rewrite En|].
  set (f1 := apply_completed_block (scheduled_request b) (with_queue queue (with_tickets n f))).
  assert (apply_block_tickets f1 = S n ∧ feeder_channel f1 = feeder_channel f ∧ feeder_thread f1 = FeederEnded) as (E1 & E2 & E3).
  { unfold f1, apply_completed_block, feeder_receiver_alive. cbn. by rewrite Hal. }
  destruct (IH f1 E3) as (-> & -> & ->). by rewrite E1, E2.
Qed.

Lemma process_ok f :
  apply_block_tickets f + channel_permits (feeder_channel f) + tally is_release (thread_todo f) = BLOCK_APPLY_BATCH_MAX_TICKETS →
  tally is_release (thread_todo f) ≤ 1 →
  (feeder_thread f ≠ FeederEnded →
    feeder_accepted f = feeder_taken f ++ channel_batches (feeder_channel f) ++ feeder_queue f) →
  feeder_thread f ≠ FeederStarting → feeder_ok (process_batch_queue f).
Proof.
  intros Ht Hr Ho Hst. assert (feeder_thread f = FeederEnded ∨ feeder_thread f ≠ FeederEnded) as [He|Hal]
    by (destruct (feeder_thread f); [by right..|by left]).
  - destruct (schedule_ended f He) as (E1 & E2 & E3). unfold thread_todo in *. rewrite He in *.
    split; rewrite ?E1, ?E2, ?E3; unfold thread_todo, goes_on; rewrite ?E3; done.
  - destruct (schedule_batches_spec f Hal) as (Hd & E1 & E2 & E3 & E4 & E5 & E6 & E7).
    assert (thread_todo (process_batch_queue f) = thread_todo f) as Et by (unfold thread_todo; by rewrite E3).
    split.
    + rewrite Et. lia.
    + by rewrite Et.
    + intros _. rewrite E6, E7, E2. by apply Ho.
    + by rewrite E3.
    + intros _ _. apply exhausted_wake; [rewrite Et; lia|by rewrite Et|done].
Qed.

Lemma thread_ends_ok f :
  apply_block_tickets f + channel_permits (feeder_channel f) = BLOCK_APPLY_BATCH_MAX_TICKETS → feeder_ok (thread_ends f).
Proof.
  intros Ht. split; [|unfold tally; cbn; lia|done|done|done].
  change (apply_block_tickets f + channel_permits (feeder_channel f) + 0 + 0 = BLOCK_APPLY_BATCH_MAX_TICKETS). lia.
Qed.

Lemma running_not_starting f : feeder_ok f → block_applier_run f = true → feeder_thread f ≠ FeederStarting.
Proof. intros Hf Hr E. destruct (ok_starting f Hf E). congruence. Qed.

Lemma feeder_receive_ok msg rest f :
  feeder_ok f → feeder_mailbox f = msg :: rest → feeder_ok (feeder_receive msg (with_mailbox rest f)).
Proof.
  intros Hf Em. pose proof Hf as [Ht Hr Ho Hst Hw]. pose proof (running_not_starting f Hf) as Hns. unfold feeder_receive.
  assert (Hidle : block_applier_run f = false → feeder_ok (with_mailbox rest f)).
  { intros Hrun. split; try done. cbn. by rewrite Hrun. }
  destruct msg as [batch c cb|batch| |]; cbn [block_applier_run with_mailbox].
  - destruct (block_applier_run f) eqn:Erun; [|by apply Hidle]. specialize (Hns eq_refl).
    unfold apply_completed_block, feeder_receiver_alive. cbn [feeder_thread with_mailbox].
    destruct (feeder_thread f) as [| |todo ending|] eqn:Eth; [done|..].
    1-2: split; unfold thread_todo, wake_pending, channel_batches in *; cbn in *; rewrite ?Eth, ?Erun in *; try done;
      [rewrite channel_permits_app; unfold channel_permits at 2; cbn; lia|intros _; rewrite omap_app, app_nil_r; by apply Ho|
       intros _ _ _; right; right; left; apply Exists_app; right; by left].
    split; unfold thread_todo, goes_on in *; cbn in *; rewrite ?Eth in *; done.
  - destruct (block_applier_run f) eqn:Erun; [|by apply Hidle]. apply process_ok; try done; [|by apply Hns].
    cbn. intros Hal. by rewrite (Ho Hal), <- !app_assoc.
  - destruct (block_applier_run f) eqn:Erun; [|by apply Hidle]. apply process_ok; try done. by apply Hns.
  - unfold feeder_receiver_alive. cbn [feeder_thread with_mailbox with_run].
    destruct (feeder_thread f) as [| |todo ending|] eqn:Eth;
      split; unfold thread_todo, wake_pending, channel_batches in *; cbn in *; rewrite ?Eth in *; try done;
      rewrite ?channel_permits_app, ?omap_app, ?app_nil_r; try (unfold channel_permits at 2; cbn; lia); try done.
    by intros _; destruct (Hst eq_refl).
Qed.

Lemma drop_effects (es es' l : list FeederEffect) : es' = es ++ l → drop (length es) es' = l.
Proof. intros ->. apply drop_app_length. Qed.

Lemma take_event_ok e rest f :
  feeder_ok f → feeder_thread f = FeederIdle → feeder_channel f = e :: rest → feeder_ok (take_event one_context e rest f).
Proof.
  intros [Ht Hr Ho Hst Hw] Eth Ech. unfold thread_todo in Ht. rewrite Eth, Ech in *.
  destruct e as [request|]; cbn [take_event].
  - destruct (apply_event request one_context (feeder_applier f)) as [a exit] eqn:E.
    destruct (apply_event_effects _ _ _ _ _ E) as (es & Ees & Hrel & _ & _ & Hexit).
    rewrite (drop_effects _ _ _ Ees). assert (channel_permits (EventApplyBlock request :: rest) = tally is_release es + channel_permits rest) as Hp.
    { rewrite Hrel. unfold channel_permits. cbn. by destruct (apply_permit request). }
    rewrite Hp in Ht. unfold tally at 2 in Ht. cbn in Ht.
    split; unfold thread_todo; cbn [feeder_thread apply_block_tickets feeder_channel feeder_accepted feeder_taken feeder_queue].
    + lia.
    + rewrite Hrel. destruct (apply_permit request); lia.
    + intros _. rewrite Ho by done. unfold channel_batches. cbn. destruct (apply_permit request); [by rewrite <- !app_assoc|done].
    + done.
    + intros Hgo _ _. unfold goes_on in Hgo. cbn in Hgo. unfold wake_pending, thread_todo. cbn [feeder_thread feeder_applier].
      destruct exit; [|done| |done]; destruct Hexit as [_ [Hping|[_ Hs]]]; (right; first [left; lia|right; right; exact Hs]).
  - apply thread_ends_ok. unfold channel_permits, tally in *. cbn in *. lia.
Qed.

Lemma thread_ok_step f f' : feeder_ok f → feeder_step one_context StepThread f = Some f' → feeder_ok f'.
Proof.
  intros Hf. pose proof Hf as [Ht Hr Ho Hst Hw]. cbn [feeder_step]. unfold thread_todo in *.
  destruct (feeder_thread f) as [| |[|e todo] ending|] eqn:Eth.
  - intros [= <-]. destruct (Hst eq_refl) as [_ Hq]. split; unfold thread_todo; cbn; try done; by intros; first [rewrite Ho|rewrite Hq in *].
  - destruct (feeder_channel f) as [|e rest] eqn:Ech; [done|]. intros [= <-]. by apply take_event_ok.
  - intros [= <-]. destruct ending.
    + apply thread_ends_ok. unfold tally in Ht. cbn in Ht. lia.
    + split; unfold goes_on, wake_pending, thread_todo in *; rewrite ?Eth in *; cbn in *; try done; intros; by first [apply Ho|apply Hw; rewrite ?Eth].
  - intros [= <-].
    assert (tally is_release (e :: todo) = (if is_release e then 1 else 0) + tally is_release todo) as E1
      by (unfold tally; cbn; by destruct (is_release e)).
    assert (tally is_ping (e :: todo) = (if is_ping e then 1 else 0) + tally is_ping todo) as E2
      by (unfold tally; cbn; by destruct (is_ping e)).
    rewrite E1 in *. unfold goes_on, wake_pending, thread_todo in Hw. rewrite Eth, E2 in Hw.
    destruct e; split; unfold thread_todo, goes_on, wake_pending; cbn in *; try done; try lia; try (by intros _; apply Ho).
    intros _ _ _. left. apply elem_of_app. right. left.
  - done.
Qed.

Lemma feeder_step_ok e f f' : feeder_ok f → feeder_step one_context e f = Some f' → feeder_ok f'.
Proof.
  intros Hf. pose proof Hf as [Ht Hr Ho Hst Hw]. destruct e as [msg| | |].
  - cbn. intros E. assert (f' = with_mailbox (feeder_mailbox f ++ [msg]) f) as -> by (destruct msg; congruence).
    split; try done. intros Hgo Hrun Hq. destruct (Hw Hgo Hrun Hq) as [Hin|Hrest]; [left; apply elem_of_app; by left|by right].
  - cbn. destruct (feeder_mailbox f) as [|msg rest] eqn:Em; [done|]. intros [= <-]. by apply feeder_receive_ok.
  - by apply thread_ok_step.
  - cbn. destruct (feeder_thread f) eqn:Eth; try done. intros [= <-]. apply thread_ends_ok.
    unfold thread_todo, tally in Ht. rewrite Eth in Ht. cbn in Ht. lia.
Qed.

(** C6: for all interleavings of the actor with the thread: no more batches are with the thread than there are
    tickets; the accepted batches go to the thread in their order, each once; and as long as the node is not shut down,
    whenever batches wait, the actor is going to be told that it can schedule more.  The last part needs
    more than one ticket: a batch that fails tells the actor before it releases its ticket. *)
Theorem feeder_schedules a es f :
  feeder_run one_context es (feeder_new a) = Some f →
  channel_permits (feeder_channel f) + tally is_release (thread_todo f) ≤ BLOCK_APPLY_BATCH_MAX_TICKETS ∧
  (feeder_thread f ≠ FeederEnded →
    feeder_accepted f = feeder_taken f ++ channel_batches (feeder_channel f) ++ feeder_queue f) ∧
  (goes_on f → block_applier_run f = true → feeder_queue f ≠ [] → wake_pending f).
Proof.
  intros Hr. assert (feeder_ok f) as [Ht _ Ho _ Hw]; [|split_and!; [lia|done|done]].
  pose proof (feeder_new_ok a) as Hok. revert Hok Hr. generalize (feeder_new a). induction es as [|e es IH]; intros f0 Hok; cbn.
  { by intros [= <-]. }
  destruct (feeder_step one_context e f0) as [f1|] eqn:E; [|done]. cbn. apply IH. by eapply feeder_step_ok.
Qed.

End FeederInvariant.
