(* ===== verification/FeederWitnesses.v ===== *)
(** * The application of blocks: examples

    A ledger with an applied genesis and a child that is not applied, a protocol that accepts every block, and the
    theorems on batches and on the actor at these. *)

From stdpp Require Import gmap.
From S2P Require Import Prelude Hash Kv Prevalidator OperationsStorage ShellState Blocks OperationsMeta Predecessors BlockMeta BlockStorage ChainMeta StorageOps BlockApplier BlockApplierFacts ChainFeeder.
Import ConcreteDb.

Module FeederWitnesses.

Definition feeder_families : list ColumnFamilyDescriptor :=
  dbs_families ++ [operations_storage_descriptor; mempool_descriptor].

#[export] Instance feeder_db : RocksDb := memory_db feeder_families.
#[export] Instance feeder_db_laws : RocksDbLaws feeder_families.
Proof. apply memory_db_laws. apply (bool_decide_unpack _). vm_compute. exact I. Qed.

#[local] Existing Instance BlockStorageWitnesses.list_log.
#[local] Existing Instance BlockStorageWitnesses.list_log_laws.
#[local] Existing Instance BlockStorageWitnesses.location_bincode.
#[local] Existing Instance BlockStorageWitnesses.location_bincode_laws.
#[local] Existing Instance PredecessorWitnesses.key_bincode.
#[local] Existing Instance PredecessorWitnesses.key_bincode_laws.
#[local] Existing Instance ChainMetaWitnesses.value_bincode.
#[local] Existing Instance ChainMetaWitnesses.value_bincode_laws.

Lemma feeder_open : dbs_families ⊆ feeder_families.
Proof. intros d Hd. apply elem_of_app. by left. Qed.

(** ** The ledger *)

Definition ledger_chain : bytes := [1; 2; 3; 4].
Definition ledger_genesis : BlockHeaderWithHash :=
  mkBlockHeaderWithHash (replicate 32 1) (mkBlockHeader 0 0 (replicate 32 1) 5 0 (replicate 32 1) [] (replicate 32 3) []).
Definition ledger_child : BlockHeaderWithHash :=
  mkBlockHeaderWithHash (replicate 32 2) (mkBlockHeader 1 0 (replicate 32 1) 6 0 (replicate 32 1) [] (replicate 32 4) []).
Definition ledger_data : BlockAdditionalData :=
  mkBlockAdditionalData 0 0 (replicate 32 1) (replicate 32 1) None None None.
Definition ledger_json : BlockJsonData := mkBlockJsonData [] [] [].

#[export] Instance ledger_columns : Bincode BlockStorageColumn := {|
  bincode_serialize c :=
    match c with
    | ColumnBlockHeader b => Some [if decide (hash b = replicate 32 1) then 0 else 1]
    | ColumnBlockJsonData _ => Some [2]
    end;
  bincode_deserialize b :=
    match b with
    | [0] => Some (ColumnBlockHeader ledger_genesis)
    | [1] => Some (ColumnBlockHeader ledger_child)
    | _ => Some (ColumnBlockJsonData ledger_json)
    end
|}.
#[export] Instance ledger_additional : Bincode BlockAdditionalData := {|
  bincode_serialize _ := Some [];
  bincode_deserialize _ := Some ledger_data
|}.
#[export] Instance ledger_additional_laws : BincodeLaws BlockAdditionalData (λ d, d = ledger_data).
Proof. constructor. intros d ->. by exists []. Qed.
#[export] Instance no_operations : Bincode OperationsForBlocksMessage_t := {|
  bincode_serialize _ := Some [];
  bincode_deserialize _ := None
|}.

Definition ledger_empty : Persistent := mkPersistent ∅ {["block_storage"%string := []]}.

Lemma ledger_empty_stores : stores ledger_empty (mkStored ∅ ∅ ∅ ∅).
Proof.
  split; [split; [by eexists|]|split; [|split; [|split]]].
  - intros h Hh. cbn [blocks]. rewrite lookup_empty. reflexivity.
  - intros h Hh. exists None. split; [reflexivity|]. cbn [metas]. by rewrite lookup_empty.
  - apply map_Forall_empty.
  - intros h i Hh Hi. cbn [parents].
    assert (nth_predecessor ∅ (Z.to_nat (2 ^ i)) h = None) as ->; [|reflexivity].
    destruct (Z.to_nat (2 ^ i)) as [|n] eqn:E; [pose proof (Z.pow_pos_nonneg 2 i); lia|].
    change (S n) with (1 + n)%nat. by rewrite nth_predecessor_add.
  - intros h Hh. reflexivity.
Qed.

Definition genesis_record : BlockMeta.Meta := BlockMeta.genesis_meta (replicate 32 1) ledger_chain true.
Definition child_record : BlockMeta.Meta := BlockMeta.meta_new false (Some (replicate 32 1)) 1 ledger_chain.

Lemma ledger_records_ok : BlockMeta.meta_ok genesis_record ∧ BlockMeta.meta_ok child_record.
Proof. split; (split; [by intros p [= <-]|]); (split; [by apply Forall_nil|]); done. Qed.

Definition ledger : Persistent :=
  let s := (BlockStorage.put_block_header ledger_genesis ledger_empty).1 in
  let s := (put_block_json_data (hash ledger_genesis) ledger_json s).1 in
  let s := (in_db (put_block_additional_data (hash ledger_genesis) ledger_data) s).1 in
  let s := (in_db (BlockMeta.put (hash ledger_genesis) genesis_record) s).1 in
  let s := (BlockStorage.put_block_header ledger_child s).1 in
  (in_db (BlockMeta.put (hash ledger_child) child_record) s).1.

Definition ledger_maps : Stored :=
  mkStored {[hash ledger_child := (ledger_child, None); hash ledger_genesis := (ledger_genesis, Some ledger_json)]}
    {[hash ledger_child := child_record; hash ledger_genesis := genesis_record]} ∅
    {[hash ledger_genesis := ledger_data]}.

Lemma ledger_stores : stores ledger ledger_maps ∧ room 2 ledger.
Proof.
  unfold ledger. cbv zeta.
  destruct (put_header_stores feeder_open 4 ledger_empty _ ledger_genesis ledger_empty_stores)
    as (s1 & -> & R1 & _ & S1); [done|by exists []|by exists [0]|done|done|done|]. cbn [fst].
  destruct (put_json_stores feeder_open 3 s1 _ (hash ledger_genesis) ledger_json S1)
    as (s2 & -> & R2 & _ & S2); [done|exact R1|by exists [2]|done|]. cbn [fst].
  destruct (put_additional_stores feeder_open s2 _ (hash ledger_genesis) ledger_data S2)
    as (s3 & -> & L3 & _ & S3); [done|done|]. cbn [fst].
  destruct (put_meta_stores feeder_open s3 _ (hash ledger_genesis) genesis_record S3)
    as (s4 & -> & L4 & _ & S4); [done|apply ledger_records_ok|]. cbn [fst].
  assert (room 3 s4) as R4 by (unfold room; rewrite L4, L3; exact R2). cbn [fst].
  destruct (put_header_stores feeder_open 2 s4 _ ledger_child S4)
    as (s5 & -> & R5 & _ & S5); [done|exact R4|by exists [1]|done|done|by vm_compute|]. cbn [fst].
  destruct (put_meta_stores feeder_open s5 _ (hash ledger_child) child_record S5)
    as (s6 & -> & L6 & _ & S6); [done|apply ledger_records_ok|].
  split; [|cbn [fst]; unfold room; rewrite L6; exact R5].
  exact S6.
Qed.

Lemma ledger_blocks h b j :
  blocks ledger_maps !! h = Some (b, j) →
  header_predecessor (header b) = hash ledger_genesis ∧
  (h = hash ledger_genesis → b = ledger_genesis ∧ j = Some ledger_json).
Proof.
  cbn [blocks ledger_maps]. intros [[<- [= <- <-]]|[_ [<- [= <- <-]]%lookup_singleton_Some]]%lookup_insert_Some; done.
Qed.

Lemma ledger_metas h m :
  metas ledger_maps !! h = Some m →
  predecessor m = Some (hash ledger_genesis) ∧ (is_applied m = true → h = hash ledger_genesis).
Proof.
  cbn [metas ledger_maps]. intros [[<- <-]|[_ [<- <-]%lookup_singleton_Some]]%lookup_insert_Some; done.
Qed.

Lemma ledger_sound : sound ledger_maps.
Proof.
  split.
  - intros h b j m [-> _]%ledger_blocks [-> _]%ledger_metas. done.
  - intros h p. cbn [parents ledger_maps]. by rewrite lookup_empty.
  - intros h m p [d Hd] [Em _]%ledger_metas Ep. left. rewrite Em in Ep. injection Ep as <-.
    cbn [additional ledger_maps] in Hd. by apply lookup_singleton_Some in Hd as [<- _].
  - intros h b j _ [-> _]%ledger_blocks. eexists. apply lookup_singleton_eq.
  - intros h m [_ Ha]%ledger_metas ->%Ha. split; [eexists; apply lookup_singleton_eq|].
    exists ledger_genesis, ledger_json. by vm_compute.
Qed.

(** ** The world *)

Definition accepted_response : ApplyBlockResponse :=
  mkApplyBlockResponse [] (replicate 32 4) (replicate 32 1) (replicate 32 1) [] [] [] 0 0 false None None None None.

(** The clock, and the flag that keeps the thread running.  The context is committed after a while. *)
#[export] Instance example_world : FeederWorld := {|
  fw := Z * bool;
  load_run w := (w, w.2);
  reset_run w := (w.1, false);
  apply_block_call _ w := ((w.1 + 5, w.2), Ok accepted_response);
  init_protocol_for_write_call _ _ w := (w, Ok None);
  genesis_result_data_call _ w := (w, Ok (mkCommitGenesisResult [] [] []));
  is_committed_call _ w := ((w.1 + 1, w.2), Ok (bool_decide (40 ≤ w.1)));
  clock w := w.1;
  sleep d w := (w.1 + d, w.2)
|}.
#[export] Instance example_world_laws : FeederWorldLaws (λ w, w.2 = false).
Proof. split; cbn; intros; done || lia. Qed.

Lemma example_response request w w' r :
  apply_block_call request w = (w', Ok r) →
  storable (ColumnBlockJsonData (json_of r)) ∧ additional_of r = ledger_data.
Proof. intros [= _ <-]. split; [by exists [2]|done]. Qed.

Definition example_applier : Applier := mkApplier ledger (0, true) [].
Definition example_request : ApplyBlock :=
  mkApplyBlock (batch (hash ledger_genesis) [hash ledger_child]) ledger_chain true false true.
Definition example_end : Applier * BatchEnd := apply_event example_request false example_applier.


(** The genesis is already applied; the child is applied, announced and reported. *)
Lemma batch_effects_witness :
  tally is_release (effects example_end.1) = 1%nat ∧ tally is_ping (effects example_end.1) = 1%nat ∧
  tally is_failure (effects example_end.1) = 0%nat.
Proof.
  destruct (batch_effects example_request false example_applier example_end.1 example_end.2
    (surjective_pairing example_end)) as (es & Ees & Hr & _).
  cbn [effects example_applier app] in Ees. rewrite Ees, Hr. split; [done|]. rewrite <- Ees.
  split; by vm_compute.
Defined.

Lemma batch_cache_transparent_witness :
  announced (effects (apply_event_uncached example_request false example_applier)) = [hash ledger_child].
Proof.
  destruct ledger_stores as [Hs Hr].
  rewrite <- (batch_cache_transparent feeder_open example_response example_request false example_applier ledger_maps Hs ledger_sound);
    [by vm_compute|by repeat constructor|exact Hr].
Defined.


(** Two tickets are in use and a batch waits; the first batch is with the thread. *)
Definition example_steps : list FeederStep :=
  [StepThread;
   StepSend (MsgScheduleApplyBlock (mkScheduledBatch (one (hash ledger_child)) ledger_chain true));
   StepSend (MsgScheduleApplyBlock (mkScheduledBatch (one (hash ledger_genesis)) ledger_chain true));
   StepSend (MsgScheduleApplyBlock (mkScheduledBatch (one (hash ledger_child)) ledger_chain false));
   StepReceive; StepReceive; StepReceive; StepThread].

Definition waits_behind_a_batch (f : ChainFeeder) : bool :=
  match feeder_queue f, feeder_thread f with [_], FeederBusy _ false => block_applier_run f | _, _ => false end.

Lemma example_steps_run :
  match feeder_run false example_steps (feeder_new example_applier) with
  | Some f => waits_behind_a_batch f
  | None => false
  end = true.
Proof. by vm_compute. Qed.

Lemma feeder_schedules_witness :
  ∃ f, feeder_run false example_steps (feeder_new example_applier) = Some f ∧
    length (feeder_queue f) = 1%nat ∧ wake_pending (stopped := λ w, w.2 = false) f.
Proof.
  pose proof example_steps_run as Hf.
  destruct (feeder_run false example_steps (feeder_new example_applier)) as [f|] eqn:E; [|done].
  exists f. split; [done|]. unfold waits_behind_a_batch in Hf.
  destruct (feeder_queue f) as [|q []] eqn:Eq; [done| |done]. split; [done|].
  apply (feeder_schedules false example_applier example_steps f E).
  - unfold goes_on. by destruct (feeder_thread f) as [| |? []|].
  - by destruct (feeder_thread f) as [| |? []|].
  - by rewrite Eq.
Defined.

End FeederWitnesses.
