(* ===== verification/ChainManager.v ===== *)
(** * The chain manager

    [shell/src/chain_manager.rs]: the actor that handles the messages of peers and the commands of the shell.  It
    puts the parts together: the queues of peers, the requester, the decisions on heads and branches, the storages, the
    mempool and the state of synchronisation.

    An actor handles one message at a time: a handler is a function from the state to the state with the messages
    that were sent.  The time, the protocol runner and whether other actors can be started are arguments of
    every handler.  The texts of errors are shortened, and the times that are only logged are left out.  The hash of a
    header or an operation, which the code computes from its encoding, is a parameter. *)

From stdpp Require Import gmap.
From S2P Require Import Prelude Hash Kv Blocks OperationsMeta MerklePath Predecessors BlockStorage ChainMeta StorageOps SeededStep Fitness Prevalidator Validation BlockMeta ShellState Requester OperationsStorage ChainState.

(** ** Messages *)

(** [PeerMessage]; the last case is for the messages that the manager ignores. *)
Inductive PeerMessage_t :=
| PeerAdvertise (addresses : list string)
| PeerBootstrap
| PeerGetCurrentBranch (chain_id : bytes)
| PeerCurrentBranch (chain_id : bytes) (current_head : BlockHeader_t) (history : list bytes)
| PeerGetCurrentHead (chain_id : bytes)
| PeerCurrentHead (chain_id : bytes) (current_block_header : BlockHeader_t) (current_mempool : MempoolMessage)
| PeerGetBlockHeaders (block_hashes : list bytes)
| PeerBlockHeader (block_header : BlockHeader_t)
| PeerGetOperations (operations : list bytes)
| PeerOperation (operation : Operation_t)
| PeerGetOperationsForBlocks (operations : list OperationsForBlock_t)
| PeerOperationsForBlocks (message : OperationsForBlocksMessage_t)
| PeerIgnored.

(** The messages of [network_channel.rs] to the manager *)
Inductive NetworkMessage :=
| PeerBootstrapped (peer : string) (public_key_hash : bytes) (disable_mempool : bool)
| PeerStalled (peer : string)
| PeerMessageReceived (peer : string) (message : PeerMessage_t)
| OtherNetworkMessage.

Record InjectBlock := mkInjectBlock {
  inject_chain_id : bytes;
  inject_block_header : BlockHeaderWithHash;
  inject_operations : option (list (list Operation_t));
  inject_operation_paths : option (list (list PathItem))
}.

(** The messages of [shell_channel.rs] to the manager *)
Inductive ShellMessage :=
| AdvertiseNewMempool (chain_id block_hash : bytes) (mempool : MempoolMessage)
| AdvertiseNewCurrentHead (chain_id block_hash : bytes)
| AdvertiseNewCurrentBranch (chain_id block_hash : bytes)
| ShellInjectBlock (block : InjectBlock) (callback : bool)
| ShellRequestCurrentHead
| BranchSynchronizationDone (peer : string) (update : PeerBranchSynchronizationDone)
| ShellShuttingDown
| OtherShellMessage.

Inductive ManagerMessage :=
| DisconnectStalledPeers (silent_peer_timeout : Z)
| CheckMempoolCompleteness
| AskPeersAboutCurrentHead (last_received_timeout : Z)
| LogStats
| NetworkChannelMessage (message : NetworkMessage)
| ShellChannelMessage (message : ShellMessage)
| ActorTerminated (peer : string).

(** What the bootstrapper of branches is told; the peer is the one the message is about. *)
Inductive ToBootstrapper :=
| TellStartBranch (branch : StartBranchBootstraping)
| TellUpdateBranch (current_head : BlockHeaderWithHash)
| TellBlockState (message : BootstrapperMessage)
| TellCleanPeerData.

Inductive ManagerEffect :=
| TellPeer (peer : string) (message : PeerMessage_t)
| TellBootstrapper (peer : string) (message : ToBootstrapper)
| PublishBlockReceived (block_hash : bytes) (level : Z)
| PublishAllOperationsReceived (level : Z)
| NetworkBlacklistPeer (peer : string)
| NetworkProcessAdvertisedPeers (peer : string) (addresses : list string)
| NetworkSendBootstrapPeers (peer : string)
| TellSelfCheckMempool
| TellResetMempool (block : BlockHeaderWithHash)
| TellOperationReceived (operation_hash : bytes) (t : MempoolOperationType)
| TellApplyBlock (chain_id : bytes) (batch : ApplyBlockBatch) (callback : bool)
| InjectResult (r : result () string)
| StopPeer (peer : string).

(** ** State *)

Section State.
Context `{RocksDb, CommitLogLib}.

(** What the actors share *)
Record Shared := mkShared {
  shared_storage : Persistent;
  local_head : option Head;
  remote_head : option Head;
  shared_mempool : MempoolState;
  shared_bootstrap : SynchronizationBootstrapState
}.

(** The counters of [Stats] *)
Record Stats := mkStats {
  unseen_block_count : Z;
  unseen_block_operations_count : Z;
  actor_received_messages_count : Z
}.

(** The peers with the hashes of their public keys *)
Record ChainManager := mkChainManager {
  manager_peers : gmap string PeerState;
  manager_keys : gmap string bytes;
  manager_shared : Shared;
  has_prevalidator : bool;
  has_bootstrapper : bool;
  shutting_down : bool;
  manager_stats : Stats;
  manager_effects : list ManagerEffect
}.

Record ManagerConfig := mkManagerConfig {
  config_chain_id : bytes;
  config_genesis : bytes;
  identity_peer_id : bytes;
  p2p_disable_mempool : bool
}.

(** [bootstrap_constants::LIMITS] *)
Definition LIMITS : DataQueuesLimits := mkLimits 10 15.

Definition CURRENT_HEAD_LEVEL_UPDATE_TIMEOUT : Z := 60 * 2 * 1000.

Definition with_peers ps m :=
  mkChainManager ps (manager_keys m) (manager_shared m) (has_prevalidator m) (has_bootstrapper m) (shutting_down m)
    (manager_stats m) (manager_effects m).
Definition with_shared s m :=
  mkChainManager (manager_peers m) (manager_keys m) s (has_prevalidator m) (has_bootstrapper m) (shutting_down m)
    (manager_stats m) (manager_effects m).
Definition with_prevalidator b m :=
  mkChainManager (manager_peers m) (manager_keys m) (manager_shared m) b (has_bootstrapper m) (shutting_down m)
    (manager_stats m) (manager_effects m).
Definition with_bootstrapper b m :=
  mkChainManager (manager_peers m) (manager_keys m) (manager_shared m) (has_prevalidator m) b (shutting_down m)
    (manager_stats m) (manager_effects m).
Definition with_stats f m :=
  mkChainManager (manager_peers m) (manager_keys m) (manager_shared m) (has_prevalidator m) (has_bootstrapper m)
    (shutting_down m) (f (manager_stats m)) (manager_effects m).
Definition with_effects es m :=
  mkChainManager (manager_peers m) (manager_keys m) (manager_shared m) (has_prevalidator m) (has_bootstrapper m)
    (shutting_down m) (manager_stats m) es.

Definition with_storage s (sh : Shared) :=
  mkShared s (local_head sh) (remote_head sh) (shared_mempool sh) (shared_bootstrap sh).
Definition with_remote_head h (sh : Shared) :=
  mkShared (shared_storage sh) (local_head sh) h (shared_mempool sh) (shared_bootstrap sh).
Definition with_bootstrap_state b (sh : Shared) :=
  mkShared (shared_storage sh) (local_head sh) (remote_head sh) (shared_mempool sh) b.

Definition manager_new (s : Shared) : ChainManager := mkChainManager ∅ ∅ s false false false (mkStats 0 0 0) [].

End State.

Definition unseen_block (s : Stats) : Stats :=
  mkStats (unseen_block_count s + 1) (unseen_block_operations_count s) (actor_received_messages_count s).
Definition unseen_operations (s : Stats) : Stats :=
  mkStats (unseen_block_count s) (unseen_block_operations_count s + 1) (actor_received_messages_count s).
Definition message_received (s : Stats) : Stats :=
  mkStats (unseen_block_count s) (unseen_block_operations_count s) (actor_received_messages_count s + 1).

(** *** Updates of a peer *)

Definition set_head_request (now : Z) (p : PeerState) : PeerState :=
  mkPeerState (mempool_enabled p) (peer_is_bootstrapped p) (queues p) (missing_operations_for_blocks p)
    (current_head_level p) (current_head_update_last p) now (current_head_response_last p)
    (mempool_operations_request_last p) (mempool_operations_response_last p) (missing_mempool_operations p)
    (queued_mempool_operations p) (message_stats p).
Definition set_head_response (now : Z) (p : PeerState) : PeerState :=
  mkPeerState (mempool_enabled p) (peer_is_bootstrapped p) (queues p) (missing_operations_for_blocks p)
    (current_head_level p) (current_head_update_last p) (current_head_request_last p) now
    (mempool_operations_request_last p) (mempool_operations_response_last p) (missing_mempool_operations p)
    (queued_mempool_operations p) (message_stats p).
Definition set_mempool_response (now : Z) (p : PeerState) : PeerState :=
  mkPeerState (mempool_enabled p) (peer_is_bootstrapped p) (queues p) (missing_operations_for_blocks p)
    (current_head_level p) (current_head_update_last p) (current_head_request_last p) (current_head_response_last p)
    (mempool_operations_request_last p) now (missing_mempool_operations p)
    (queued_mempool_operations p) (message_stats p).
Definition set_synchronized (flag : option bool) (p : PeerState) : PeerState :=
  mkPeerState (mempool_enabled p) (default (peer_is_bootstrapped p) flag) (queues p) ∅
    (current_head_level p) (current_head_update_last p) (current_head_request_last p) (current_head_response_last p)
    (mempool_operations_request_last p) (mempool_operations_response_last p) (missing_mempool_operations p)
    (queued_mempool_operations p) (message_stats p).

(** [queued_mempool_operations.remove] *)
Definition take_queued (oph : bytes) (p : PeerState) : PeerState :=
  set_mempool_queues p (missing_mempool_operations p) (delete oph (queued_mempool_operations p))
    (mempool_operations_request_last p).

(** What a handler finds outside: the monotonic clock in milliseconds and that of the calendar in seconds, whether
    the bootstrapper and the prevalidator can be started, and a protocol runner. *)
Record Environment := mkEnvironment {
  env_now : Z;
  env_utc_now : Z;
  env_bootstrapper : result () string;
  env_mempool : result () string;
  env_api : result ProtocolController string
}.

Definition no_mempool : MempoolMessage := mkMempoolMessage [] [].
Definition mempool_is_empty (m : MempoolMessage) : bool :=
  match known_valid m, message_pending m with [], [] => true | _, _ => false end.

Section Manager.
Context `{RocksDb, CommitLogLib, Timestamps, Base58Lib}.
Context `{Bincode BlockStorageColumn, Bincode BlockStorageColumnsLocation, Bincode PredecessorKey}.
Context `{Bincode BlockAdditionalData, Bincode OperationsForBlocksMessage_t, Bincode MetadataValue, Bincode Operation_t}.
Context (header_hash : BlockHeader_t → result bytes string) (operation_message_hash : Operation_t → result bytes string).
Context (iter : Iteration) (peer_order : gset string → list string).
Context (cfg : ManagerConfig).

(** The last case is a panic of the actor. *)
Inductive ManagerError :=
| ManagerStateError (error : StateError)
| ManagerStorageError (error : StorageError)
| ManagerHashError (reason : string)
| ManagerPoolError (reason : string)
| ManagerFailure (reason : string)
| ManagerPanic.

Definition handler : Type := io ChainManager () ManagerError.

(** *** Steps of handlers *)

Definition current : io ChainManager ChainManager ManagerError := λ m, (m, Ok m).
Definition tell (e : ManagerEffect) : handler := λ m, (with_effects (manager_effects m ++ [e]) m, Ok ()).
Definition update_peer (id : string) (f : PeerState → PeerState) : handler :=
  λ m, (with_peers (alter f id (manager_peers m)) m, Ok ()).
Definition update_stats (f : Stats → Stats) : handler := λ m, (with_stats f m, Ok ()).
Definition update_shared (f : Shared → Shared) : handler := λ m, (with_shared (f (manager_shared m)) m, Ok ()).

Definition on_storage {A} (op : io Persistent A StorageError) : io ChainManager A ManagerError := λ m,
  let '(s, r) := op (shared_storage (manager_shared m)) in
  (with_shared (with_storage s (manager_shared m)) m, map_err ManagerStorageError r).

Definition read_storage {A} (f : Persistent → result A StorageError) : io ChainManager A ManagerError := λ m,
  (m, map_err ManagerStorageError (f (shared_storage (manager_shared m)))).

Fixpoint for_each {A} (f : A → handler) (l : list A) : handler :=
  match l with
  | [] => ret ()
  | x :: l => do? _ := f x in for_each f l
  end.

Definition when (b : bool) (h : handler) : handler := if b then h else ret ().

(** [BlockHeaderWithHash::new] *)
Definition new_block (h : BlockHeader_t) : result BlockHeaderWithHash ManagerError :=
  let? hash := map_err ManagerHashError (header_hash h) in
  Ok (mkBlockHeaderWithHash hash h).

(** ** The heads *)

Definition need_update_remote_level (remote : option Head) (new_remote_level : Z) : bool :=
  match remote with
  | None => true
  | Some current_remote_head => bool_decide (new_remote_level > head_level current_remote_head)
  end.

Definition update_remote_head (block_header : BlockHeaderWithHash) (sh : Shared) : Shared :=
  if need_update_remote_level (remote_head sh) (header_level (header block_header))
  then with_remote_head (Some (head_of block_header)) sh else sh.

Definition has_any_higher_than (sh : Shared) (level_to_check : Z) : bool :=
  let higher head := match head with Some h => bool_decide (head_level h > level_to_check) | None => false end in
  higher (remote_head sh) || higher (local_head sh).

Definition head_level_or_0 (head : option Head) : Z := match head with Some h => head_level h | None => 0 end.

(** ** Headers and operations that are received *)

Definition process_downloaded_header (id : string) (received_block : BlockHeaderWithHash) : handler :=
  do? (is_new_block, message) := on_storage (process_block_header_from_peer (config_chain_id cfg) received_block) in
  do? m := current in
  do? _ := when (has_bootstrapper m) (tell (TellBootstrapper id (TellBlockState message))) in
  when is_new_block
    (do? _ := update_stats unseen_block in
     tell (PublishBlockReceived (hash received_block) (header_level (header received_block)))).

(** [BlockchainState::schedule_history_bootstrap] *)
Definition schedule_history (env : Environment) (id : string) (block_header : BlockHeaderWithHash)
    (history : list bytes) : handler :=
  do? m := current in
  match schedule_history_bootstrap (config_genesis cfg) block_header history
          (db (shared_storage (manager_shared m))) with
  | None => ret ()
  | Some start =>
      do? _ :=
        when (negb (has_bootstrapper m))
          (do? _ := pure (map_err (λ e, ManagerStateError (ProcessingError e)) (env_bootstrapper env)) in
           λ m, (with_bootstrapper true m, Ok ())) in
      tell (TellBootstrapper id (TellStartBranch start))
  end.

(** A part of a handler after which a lock is dropped, whether or not it fails *)
Definition with_lock (id : string) (drop_lock : DataQueues → DataQueues) (h : handler) : handler := λ m,
  let '(m, r) := h m in
  (with_peers (alter (λ p, update_queues p drop_lock) id (manager_peers m)) m, r).

(** An answer of a peer: whether it was asked for, and the lock of the queue *)
Definition received {L} (id : string) (f : PeerState → PeerState * option L)
    : io ChainManager (option L) ManagerError := λ m,
  match manager_peers m !! id with
  | None => (m, Ok None)
  | Some p => let '(p, lock) := f p in (with_peers (<[id := p]> (manager_peers m)) m, Ok lock)
  end.

Definition on_block_header (id : string) (block_header : BlockHeader_t) : handler :=
  do? b := pure (new_block block_header) in
  do? lock := received id (block_header_received (hash b)) in
  match lock with
  | None => ret ()
  | Some lock => with_lock id (drop_block_lock lock) (process_downloaded_header id b)
  end.

Definition on_operations_for_blocks (id : string) (message : OperationsForBlocksMessage_t) : handler :=
  do? lock := received id (block_operations_received (operations_for_block message)) in
  match lock with
  | None => ret ()
  | Some lock =>
      with_lock id (drop_operation_lock lock)
        (do? (finished, told) := on_storage (in_db (process_block_operations_from_peer message)) in
         do? m := current in
         do? _ := match told with
                  | Some told => when (has_bootstrapper m) (tell (TellBootstrapper id (TellBlockState told)))
                  | None => ret ()
                  end in
         when finished
           (do? _ := update_stats unseen_operations in
            do? block_meta :=
              read_storage (λ s, BlockMeta.get (operations_block_hash (operations_for_block message)) (db s)) in
            do? block_meta := pure (ok_or block_meta (ManagerStorageError MissingKey)) in
            tell (PublishAllOperationsReceived (BlockMeta.level block_meta))))
  end.

(** ** Heads and branches of peers *)

Definition on_current_branch (env : Environment) (id : string) (chain_id : bytes) (current_head : BlockHeader_t)
    (history : list bytes) : handler :=
  do? _ := update_peer id (λ p, (update_current_head_level p (header_level current_head) (env_now env)).1) in
  do? m := current in
  if negb (can_accept_branch (config_chain_id cfg) chain_id current_head (local_head (manager_shared m)))
  then ret ()
  else
    do? message_current_head := pure (new_block current_head) in
    do? _ := update_peer id (λ p, (update_current_head p message_current_head (env_now env)).1) in
    do? _ := update_shared (update_remote_head message_current_head) in
    schedule_history env id message_current_head history.

Definition add_peer_mempool (mempool : MempoolMessage) (p : PeerState) : PeerState :=
  let add p oph := add_missing_mempool_operations p oph Pending in
  foldl add (foldl add p (known_valid mempool)) (message_pending mempool).

(** The head of a peer is accepted. *)
Definition accept_head (env : Environment) (id : string) (block_header : BlockHeader_t) (mempool : MempoolMessage)
    : handler :=
  do? message_current_head := pure (new_block block_header) in
  do? _ := update_peer id (λ p, (update_current_head_level p (header_level block_header) (env_now env)).1) in
  do? _ := update_peer id (λ p, (update_current_head p message_current_head (env_now env)).1) in
  do? _ := update_shared (update_remote_head message_current_head) in
  do? _ := process_downloaded_header id message_current_head in
  do? m := current in
  let history := match local_head (manager_shared m) with Some cur => [block_hash cur] | None => [] end in
  do? _ := schedule_history env id message_current_head history in
  when (negb (p2p_disable_mempool cfg))
    (do? _ := update_peer id (add_peer_mempool mempool) in
     tell TellSelfCheckMempool).

(** A head, when the node is bootstrapped: whether it is accepted is decided with a protocol runner. *)
Definition current_head_bootstrapped (env : Environment) (id : string) (chain_id : bytes)
    (block_header : BlockHeader_t) (mempool : MempoolMessage) : handler :=
  do? m := current in
  do? api := pure (map_err ManagerPoolError (env_api env)) in
  do? acceptance :=
    match can_accept_head (config_chain_id cfg) chain_id block_header (header_hash block_header)
            (local_head (manager_shared m)) (env_utc_now env) api (shared_storage (manager_shared m)) with
    | None => throw ManagerPanic
    | Some r => pure (map_err ManagerStateError r)
    end in
  match acceptance with
  | AcceptBlock => accept_head env id block_header mempool
  | IgnoreBlock => ret ()
  | UnknownBranchBlock => tell (TellPeer id (PeerGetCurrentBranch chain_id))
  | MutlipassValidationError _ =>
      do? _ := update_peer id clear in
      tell (NetworkBlacklistPeer id)
  end.

(** A head, when the node is not bootstrapped: only a level that is not lower is of interest. *)
Definition current_head_bootstrapping (env : Environment) (id : string) (chain_id : bytes)
    (block_header : BlockHeader_t) : handler :=
  do? m := current in
  let was_updated :=
    match manager_peers m !! id with
    | Some p => (update_current_head_level p (header_level block_header) (env_now env)).2
    | None => false
    end in
  do? _ := update_peer id (λ p, (update_current_head_level p (header_level block_header) (env_now env)).1) in
  when was_updated
    (if has_bootstrapper m then
       do? message_current_head := pure (new_block block_header) in
       tell (TellBootstrapper id (TellUpdateBranch message_current_head))
     else tell (TellPeer id (PeerGetCurrentBranch chain_id))).

Definition on_current_head (env : Environment) (id : string) (chain_id : bytes) (block_header : BlockHeader_t)
    (mempool : MempoolMessage) : handler :=
  do? _ := update_peer id (set_head_response (env_now env)) in
  do? m := current in
  if current_bootstrapped_status (shared_bootstrap (manager_shared m))
  then current_head_bootstrapped env id chain_id block_header mempool
  else current_head_bootstrapping env id chain_id block_header.

(** ** Requests of peers *)

(** The local head with its header *)
Definition local_block : io ChainManager (option (Head * BlockHeaderWithHash)) ManagerError :=
  do? m := current in
  match local_head (manager_shared m) with
  | Some current_head_local =>
      do? b := read_storage (BlockStorage.get (block_hash current_head_local)) in
      ret (pair current_head_local <$> b)
  | None => ret None
  end.

(** [get_history] for a peer *)
Definition history_for (id : string) (b : BlockHeaderWithHash) : io ChainManager (list bytes) ManagerError :=
  do? m := current in
  let seed := mkSeed (identity_peer_id cfg) (default [] (manager_keys m !! id)) in
  match ChainState.get_history (config_chain_id cfg) (hash b) seed (db (shared_storage (manager_shared m))) with
  | None => throw ManagerPanic
  | Some r => pure (map_err ManagerStorageError r)
  end.

Definition on_get_current_branch (id : string) (chain_id : bytes) : handler :=
  if decide (config_chain_id cfg = chain_id) then
    do? found := local_block in
    match found with
    | Some (_, b) =>
        do? history := history_for id b in
        tell (TellPeer id (PeerCurrentBranch (config_chain_id cfg) (header b) history))
    | None => ret ()
    end
  else ret ().

Definition resolve_mempool_to_send_to_peer (p : PeerState) (mempool_state : MempoolState) (current_head : Head)
    : MempoolMessage :=
  if p2p_disable_mempool cfg then no_mempool
  else if negb (mempool_enabled p) then no_mempool
  else
    match Prevalidator.predecessor mempool_state with
    | Some mempool_head_hash =>
        if decide (mempool_head_hash = block_hash current_head)
        then collect_mempool iter (applied (validation_result mempool_state)) (pending mempool_state)
        else no_mempool
    | None => no_mempool
    end.

Definition on_get_current_head (id : string) (chain_id : bytes) : handler :=
  if decide (config_chain_id cfg = chain_id) then
    do? found := local_block in
    do? m := current in
    match found, manager_peers m !! id with
    | Some (head, b), Some p =>
        tell (TellPeer id (PeerCurrentHead (config_chain_id cfg) (header b)
          (resolve_mempool_to_send_to_peer p (shared_mempool (manager_shared m)) head)))
    | _, _ => ret ()
    end
  else ret ().

Definition on_get_block_headers (id : string) (block_hashes : list bytes) : handler :=
  for_each (λ block_hash,
    do? block := read_storage (BlockStorage.get block_hash) in
    match block with
    | Some block => tell (TellPeer id (PeerBlockHeader (header block)))
    | None => ret ()
    end) block_hashes.

Definition operation_key_of (ops : OperationsForBlock_t) : OperationKey :=
  mkOperationKey (operations_block_hash ops)
    (if decide (operations_validation_pass ops >= 0) then as_u8 (operations_validation_pass ops) else 0).

Definition on_get_operations_for_blocks (id : string) (operations : list OperationsForBlock_t) : handler :=
  for_each (λ get_op,
    if decide (operations_validation_pass get_op < 0) then ret ()
    else
      do? op := read_storage (λ s, get_stored (operation_key_of get_op) (db s)) in
      match op with
      | Some op => tell (TellPeer id (PeerOperationsForBlocks op))
      | None => ret ()
      end) operations.

Definition on_get_operations (id : string) (operations : list bytes) : handler :=
  for_each (λ operation_hash,
    do? found := read_storage (λ s, mempool_find operation_hash (db s)) in
    match found with
    | Some found => tell (TellPeer id (PeerOperation found))
    | None => ret ()
    end) operations.

(** ** Operations for the mempool *)

Definition on_operation (env : Environment) (id : string) (operation : Operation_t) : handler :=
  do? oph := pure (map_err ManagerHashError (operation_message_hash operation)) in
  do? m := current in
  let queued := p ← manager_peers m !! id; queued_mempool_operations p !! oph in
  do? _ := update_peer id (take_queued oph) in
  match queued with
  | None => ret ()
  | Some operation_type =>
      do? api := pure (map_err ManagerPoolError (env_api env)) in
      match prevalidate_operation (config_chain_id cfg) oph operation (shared_mempool (manager_shared m)) api
              (shared_storage (manager_shared m)) with
      | Err (UnknownBranch _ | AlreadyInMempool _ | BranchNotAppliedYet _) => ret ()
      | Err _ => throw (ManagerFailure "Operation from p2p was not added to mempool")
      | Ok result =>
          if negb (can_accept_operation_from_p2p oph result)
          then throw (ManagerFailure "Operation from p2p was not added to mempool")
          else
            do? _ := update_peer id (set_mempool_response (env_now env)) in
            do? _ := on_storage (in_db (mempool_put operation_type operation (operation_message_hash operation))) in
            do? _ := tell TellSelfCheckMempool in
            when (has_prevalidator m) (tell (TellOperationReceived oph operation_type))
      end
  end.

(** ** The messages of peers *)

Definition process_peer_message (env : Environment) (id : string) (message : PeerMessage_t) : handler :=
  match message with
  | PeerCurrentBranch chain_id current_head history => on_current_branch env id chain_id current_head history
  | PeerGetCurrentBranch chain_id => on_get_current_branch id chain_id
  | PeerBlockHeader block_header => on_block_header id block_header
  | PeerGetBlockHeaders block_hashes => on_get_block_headers id block_hashes
  | PeerGetCurrentHead chain_id => on_get_current_head id chain_id
  | PeerOperationsForBlocks message => on_operations_for_blocks id message
  | PeerGetOperationsForBlocks operations => on_get_operations_for_blocks id operations
  | PeerCurrentHead chain_id block_header mempool => on_current_head env id chain_id block_header mempool
  | PeerGetOperations operations => on_get_operations id operations
  | PeerOperation operation => on_operation env id operation
  | PeerAdvertise addresses => tell (NetworkProcessAdvertisedPeers id addresses)
  | PeerBootstrap => tell (NetworkSendBootstrapPeers id)
  | PeerIgnored => ret ()
  end.

Definition connect_peer (env : Environment) (id : string) (key : bytes) (disable_mempool : bool) : handler := λ m,
  (mkChainManager (<[id := peer_new (env_now env) disable_mempool LIMITS]> (manager_peers m))
     (<[id := key]> (manager_keys m)) (manager_shared m) (has_prevalidator m) (has_bootstrapper m) (shutting_down m)
     (manager_stats m) (manager_effects m), Ok ()).

Definition remove_peer (id : string) : handler := λ m, (with_peers (delete id (manager_peers m)) m, Ok ()).

Definition process_network_channel_message (env : Environment) (message : NetworkMessage) : handler :=
  match message with
  | PeerBootstrapped id key disable_mempool =>
      do? _ := connect_peer env id key disable_mempool in
      tell (TellPeer id (PeerGetCurrentBranch (config_chain_id cfg)))
  | PeerStalled id =>
      do? _ := remove_peer id in
      do? m := current in
      when (has_bootstrapper m) (tell (TellBootstrapper id TellCleanPeerData))
  | PeerMessageReceived id message =>
      do? m := current in
      match manager_peers m !! id with
      | Some _ => process_peer_message env id message
      | None => ret ()
      end
  | OtherNetworkMessage => ret ()
  end.

(** ** Advertising *)

Definition manager_order (m : ChainManager) : list string := peer_order (dom (manager_peers m)).

(** To peers with a mempool, with the contents of the mempool; to the others, without *)
Definition current_head_message (chain_id : bytes) (block_header : BlockHeader_t) (mempool : MempoolMessage)
    (p : PeerState) : MempoolMessage * PeerMessage_t :=
  let mempool :=
    if mempool_enabled p then if p2p_disable_mempool cfg then no_mempool else mempool else no_mempool in
  (mempool, PeerCurrentHead chain_id block_header mempool).

Definition advertise_current_head_to_p2p (chain_id : bytes) (block_header : BlockHeader_t)
    (mempool : MempoolMessage) (ignore_msg_with_empty_mempool : bool) : handler :=
  do? m := current in
  for_each (λ id,
    do? m := current in
    match manager_peers m !! id with
    | Some p =>
        let '(contents, message) := current_head_message chain_id block_header mempool p in
        when (negb (ignore_msg_with_empty_mempool && mempool_is_empty contents)) (tell (TellPeer id message))
    | None => ret ()
    end) (manager_order m).

Definition advertise_current_branch_to_p2p (chain_id : bytes) (b : BlockHeaderWithHash) : handler :=
  do? m := current in
  for_each (λ id,
    do? history := history_for id b in
    tell (TellPeer id (PeerCurrentBranch chain_id (header b) history))) (manager_order m).

(** A header that is to be advertised *)
Definition advertised_block (block_hash : bytes) : io ChainManager BlockHeaderWithHash ManagerError :=
  do? header := read_storage (BlockStorage.get block_hash) in
  pure (ok_or header (ManagerFailure "BlockHeader was not found!")).

(** ** Injected blocks *)

Definition dispatch (callback : bool) (r : result () string) : handler := when callback (tell (InjectResult r)).

(** The caller is told, then the handler fails. *)
Definition fail_injection (callback : bool) (reason : string) (e : ManagerError) : handler :=
  do? _ := dispatch callback (Err reason) in throw e.

(** What follows an operation, if it fails and if it does not *)
Definition or_else {A} (op : io ChainManager A ManagerError) (failed : ManagerError → handler)
    (k : A → handler) : handler := λ m,
  match op m with (m, Ok a) => k a m | (m, Err e) => failed e m end.

(** The operations of the passes from [idx] on *)
Fixpoint store_injected_operations (callback : bool) (block_hash : bytes) (block_level : Z) (idx : nat)
    (operations : list (list Operation_t)) (op_paths : list (list PathItem)) (k : handler) : handler :=
  match operations with
  | [] => k
  | ops :: operations =>
      match op_paths !! idx with
      | None =>
          fail_injection callback "Missing operation paths in request for index"
            (ManagerFailure "Missing operation paths in request for index")
      | Some path =>
          let opb := mkOperationsForBlock block_hash (as_i8 (Z.of_nat idx)) in
          or_else (on_storage (in_db (process_block_operations (mkOperationsForBlocksMessage opb path ops))))
            (λ e, fail_injection callback "Failed to store injected block operations" e)
            (λ '(all_operations_received, _),
              do? _ := when all_operations_received
                (do? _ := update_stats unseen_operations in tell (PublishAllOperationsReceived block_level)) in
              store_injected_operations callback block_hash block_level (S idx) operations op_paths k)
      end
  end.

Definition apply_injected (chain_id block_hash : bytes) (callback : bool) : handler :=
  do? m := current in
  match try_apply_block block_hash (db (shared_storage (manager_shared m))) with
  | Ok batch => tell (TellApplyBlock chain_id batch callback)
  | Err e =>
      fail_injection callback "Failed to detect if injected block can be applied" (ManagerStateError e)
  end.

Definition process_injected_block (injected_block : InjectBlock) (callback : bool) : handler :=
  let chain_id := inject_chain_id injected_block in
  let b := inject_block_header injected_block in
  let block_level := header_level (header b) in
  or_else (on_storage (process_injected_block_header chain_id b))
    (λ e, fail_injection callback "Failed to store injected block" e)
    (λ '(block_metadata, is_new_block, are_operations_complete),
      if negb is_new_block then dispatch callback (Err "Injected duplicated block - will be ignored!"%string)
      else
        do? _ := update_stats unseen_block in
        do? _ := tell (PublishBlockReceived (hash b) block_level) in
        let apply := apply_injected chain_id (hash b) callback in
        if are_operations_complete then apply
        else
          match inject_operations injected_block, inject_operation_paths injected_block with
          | None, _ =>
              fail_injection callback "Missing operations in request" (ManagerFailure "Missing operations in request")
          | Some _, None =>
              fail_injection callback "Missing operation paths in request"
                (ManagerFailure "Missing operation paths in request")
          | Some operations, Some op_paths =>
              store_injected_operations callback (hash b) (BlockMeta.level block_metadata) 0 operations op_paths apply
          end).

(** ** Synchronisation *)

(** [start_mempool_if_needed] with [MempoolPrevalidatorFactory::get_or_start_mempool] *)
Definition start_mempool_if_needed (env : Environment) : handler :=
  do? m := current in
  if has_prevalidator m then ret ()
  else if p2p_disable_mempool cfg then ret ()
  else
    do? _ := pure (map_err (λ e, ManagerStateError (ProcessingError e)) (env_mempool env)) in
    λ m, (with_prevalidator true m, Ok ()).

(** Errors that are only logged *)
Definition ignore_error (h : handler) : handler := λ m, let '(m, _) := h m in (m, Ok ()).

Definition synchronize_peer (id : string) (update : PeerBranchSynchronizationDone) : handler := λ m,
  match manager_peers m !! id with
  | None => (m, Ok ())
  | Some p =>
      let sh := manager_shared m in
      let '(state, flag) :=
        update_by_peer_state (shared_bootstrap sh) update (head_level_or_0 (remote_head sh))
          (head_level_or_0 (local_head sh)) in
      (with_shared (with_bootstrap_state state sh)
         (with_peers (<[id := set_synchronized flag p]> (manager_peers m)) m), Ok ())
  end.

Definition resolve_is_bootstrapped (env : Environment) (id : string) (update : PeerBranchSynchronizationDone)
    : handler :=
  do? m := current in
  if current_bootstrapped_status (shared_bootstrap (manager_shared m)) then
    update_peer id (set_synchronized None)
  else
    do? _ := synchronize_peer id update in
    do? m := current in
    if current_bootstrapped_status (shared_bootstrap (manager_shared m)) then
      match local_head (manager_shared m) with
      | None => ret ()
      | Some current_head =>
          do? header := read_storage (BlockStorage.get (block_hash current_head)) in
          do? block := pure (ok_or header (ManagerStateError (ProcessingError "BlockHeader was not found!"))) in
          do? _ :=
            when (negb (p2p_disable_mempool cfg))
              (do? _ := ignore_error (start_mempool_if_needed env) in
               do? m := current in
               when (has_prevalidator m) (tell (TellResetMempool block))) in
          advertise_current_head_to_p2p (config_chain_id cfg) (Blocks.header block) no_mempool false
      end
    else ret ().

(** ** The commands of the shell *)

Definition process_shell_channel_message (env : Environment) (message : ShellMessage) : handler :=
  match message with
  | AdvertiseNewMempool chain_id block_hash mempool =>
      do? b := advertised_block block_hash in
      advertise_current_head_to_p2p chain_id (header b) mempool true
  | AdvertiseNewCurrentHead chain_id block_hash =>
      do? b := advertised_block block_hash in
      advertise_current_head_to_p2p chain_id (header b) no_mempool false
  | AdvertiseNewCurrentBranch chain_id block_hash =>
      do? b := advertised_block block_hash in
      advertise_current_branch_to_p2p chain_id b
  | ShellInjectBlock block callback => process_injected_block block callback
  | ShellRequestCurrentHead =>
      do? m := current in
      for_each (λ id,
        do? _ := update_peer id (set_head_request (env_now env)) in
        tell (TellPeer id (PeerGetCurrentHead (config_chain_id cfg)))) (manager_order m)
  | BranchSynchronizationDone id update => ignore_error (resolve_is_bootstrapped env id update)
  | ShellShuttingDown => λ m,
      (mkChainManager (manager_peers m) (manager_keys m) (manager_shared m) (has_prevalidator m)
         (has_bootstrapper m) true (manager_stats m) (manager_effects m), Ok ())
  | OtherShellMessage => ret ()
  end.

(** ** Timers *)

Definition should_disconnect (now silent_peer_timeout : Z) (sh : Shared) (p : PeerState) : bool :=
  let current_head_response_pending := bool_decide (current_head_request_last p > current_head_response_last p) in
  let mempool_operations_response_pending :=
    bool_decide (mempool_operations_request_last p > mempool_operations_response_last p) in
  let known_higher_head :=
    match current_head_level p with Some peer_level => has_any_higher_than sh peer_level | None => true end in
  (current_head_response_pending &&
     bool_decide (current_head_request_last p - current_head_response_last p > silent_peer_timeout))
  || (known_higher_head && bool_decide (now - current_head_update_last p > CURRENT_HEAD_LEVEL_UPDATE_TIMEOUT))
  || (mempool_operations_response_pending && bool_decide (queued_mempool_operations p ≠ ∅)
        && bool_decide (now - mempool_operations_response_last p > silent_peer_timeout)).

Definition disconnect_stalled_peers (env : Environment) (silent_peer_timeout : Z) : handler :=
  do? m := current in
  for_each (λ id,
    do? m := current in
    match manager_peers m !! id with
    | Some p => when (should_disconnect (env_now env) silent_peer_timeout (manager_shared m) p) (tell (StopPeer id))
    | None => ret ()
    end) (manager_order m).

Definition ask_peers_about_current_head (env : Environment) (last_received_timeout : Z) : handler :=
  do? m := current in
  for_each (λ id,
    do? m := current in
    match manager_peers m !! id with
    | Some p =>
        when (bool_decide (env_now env - current_head_response_last p > last_received_timeout))
          (tell (TellPeer id (PeerGetCurrentHead (config_chain_id cfg))))
    | None => ret ()
    end) (manager_order m).

Definition check_mempool_completeness (env : Environment) : handler :=
  do? m := current in
  for_each (λ id,
    do? m := current in
    match manager_peers m !! id with
    | Some p =>
        do? _ := update_peer id (λ p, (schedule_missing_operations (env_now env) p).1) in
        for_each (λ ops, tell (TellPeer id (PeerGetOperations ops))) (schedule_missing_operations (env_now env) p).2
    | None => ret ()
    end) (manager_order m).

(** ** The actor *)

Definition manager_process (env : Environment) (message : ManagerMessage) : handler :=
  do? _ := update_stats message_received in
  match message with
  | DisconnectStalledPeers silent_peer_timeout => disconnect_stalled_peers env silent_peer_timeout
  | CheckMempoolCompleteness =>
      do? m := current in when (negb (shutting_down m)) (check_mempool_completeness env)
  | AskPeersAboutCurrentHead last_received_timeout => ask_peers_about_current_head env last_received_timeout
  | LogStats => update_stats (λ _, mkStats 0 0 0)
  | NetworkChannelMessage message => process_network_channel_message env message
  | ShellChannelMessage message => process_shell_channel_message env message
  | ActorTerminated id => remove_peer id
  end.

(** [receive]: errors are only logged. *)
Definition manager_receive (env : Environment) (message : ManagerMessage) (m : ChainManager) : ChainManager :=
  (manager_process env message m).1.

(** [post_start] *)
Definition manager_post_start (env : Environment) : handler :=
  do? m := current in
  when (current_bootstrapped_status (shared_bootstrap (manager_shared m))) (ignore_error (start_mempool_if_needed env)).

End Manager.
