(* ===== verification/HeadManager.v ===== *)
(** * The manager of the current head

    [shell/src/chain_current_head_manager.rs]: what happens when a block was applied.  The actor decides whether the
    block is the new head, and tells the shell, the mempool and the peers.  It shares its state with the chain manager. *)

From stdpp Require Import gmap.
From S2P Require Import Prelude Hash Kv Blocks OperationsMeta Predecessors BlockStorage ChainMeta StorageOps SeededStep Fitness Prevalidator Validation BlockMeta ShellState Requester OperationsStorage ChainState ChainManager.

Inductive HeadEffect :=
| PublishNewCurrentHead (head : Head) (block : BlockHeaderWithHash)
| HeadResetMempool (block : BlockHeaderWithHash)
| PublishAdvertiseBranch (chain_id block_hash : bytes)
| PublishAdvertiseHead (chain_id block_hash : bytes).

Section HeadManager.
Context `{RocksDb, CommitLogLib, Bincode MetadataValue}.
Context (cfg : ManagerConfig).

Record HeadManager := mkHeadManager {
  head_shared : Shared;
  head_prevalidator : bool;
  head_effects : list HeadEffect
}.

(** [self.head_state]: the head in memory and the database *)
Definition heads_of (sh : Shared) : Heads := mkHeads (local_head sh) (db (shared_storage sh)).
Definition with_heads (s : Heads) (sh : Shared) : Shared :=
  mkShared (mkPersistent (heads_db s) (logs (shared_storage sh))) (current_head_state s) (remote_head sh)
    (shared_mempool sh) (shared_bootstrap sh).

Definition publish (e : HeadEffect) (h : HeadManager) : HeadManager :=
  mkHeadManager (head_shared h) (head_prevalidator h) (head_effects h ++ [e]).

(** Whether the node is bootstrapped, now that it has a new head *)
Definition resolve_bootstrapped (new_head : Head) (sh : Shared) : Shared * bool :=
  if current_bootstrapped_status (shared_bootstrap sh) then (sh, true)
  else
    let '(state, is_bootstrapped) :=
      update_by_new_local_head (shared_bootstrap sh) (head_level_or_0 (remote_head sh)) (head_level new_head) in
    (with_bootstrap_state state sh, is_bootstrapped).

(** [mempool_if_allowed]; an error to start the mempool is only logged. *)
Definition reset_mempool (can_start : result () string) (block : BlockHeaderWithHash) (h : HeadManager) : HeadManager :=
  if p2p_disable_mempool cfg then h
  else if head_prevalidator h then publish (HeadResetMempool block) h
  else
    match can_start with
    | Ok _ => publish (HeadResetMempool block) (mkHeadManager (head_shared h) true (head_effects h))
    | Err _ => h
    end.

Definition advertise (chain_id : bytes) (new_head : Head) (r : HeadResult) (h : HeadManager) : HeadManager :=
  match r with
  | BranchSwitch => publish (PublishAdvertiseBranch chain_id (block_hash new_head)) h
  | HeadIncrement => publish (PublishAdvertiseHead chain_id (block_hash new_head)) h
  | GenesisInitialized => h
  end.

Definition process_applied_block (can_start : result () string) (block : BlockHeaderWithHash) (chain_id : bytes)
    (h : HeadManager) : HeadManager * result () StateError :=
  let sh := head_shared h in
  let '(heads, r) :=
    try_update_new_current_head (config_chain_id cfg) (config_genesis cfg) (shared_mempool sh) block (heads_of sh) in
  let h := mkHeadManager (with_heads heads sh) (head_prevalidator h) (head_effects h) in
  match r with
  | Err e => (h, Err e)
  | Ok None => (h, Ok ())
  | Ok (Some (new_head, new_head_result)) =>
      let h := publish (PublishNewCurrentHead new_head block) h in
      let '(sh, is_bootstrapped) := resolve_bootstrapped new_head (head_shared h) in
      let h := mkHeadManager sh (head_prevalidator h) (head_effects h) in
      (if is_bootstrapped then advertise chain_id new_head new_head_result (reset_mempool can_start block h) else h,
       Ok ())
  end.

(** [hydrate_current_head_state]: errors are only logged. *)
Definition hydrate_current_head_state (h : HeadManager) : HeadManager :=
  mkHeadManager
    (with_heads (load_current_head_state (config_chain_id cfg) (heads_of (head_shared h))).1 (head_shared h))
    (head_prevalidator h) (head_effects h).

End HeadManager.
