(* ===== verification/ChainManagerFacts.v ===== *)
(** * The chain manager: theorems

    What a message of a peer can change and cause, what is answered, what becomes of injected blocks, and what holds
    of the shared state for all messages. *)

From stdpp Require Import gmap.
From S2P Require Import Prelude Hash Kv Blocks OperationsMeta MerklePath Predecessors BlockStorage ChainMeta StorageOps SeededStep Fitness Prevalidator MempoolThread Validation BlockMeta ShellState Requester OperationsStorage ChainState ChainManager.

(** ** Relations between states that handlers keep *)

Section Moves.
Context `{RocksDb, CommitLogLib}.
Context (R : ChainManager → ChainManager → Prop) `{!PreOrder R}.

Lemma bind_moves {A B} (c : io ChainManager A ManagerError) (k : A → io ChainManager B ManagerError) m :
  R m (c m).1 → (∀ a m', c m = (m', Ok a) → R m' (k a m').1) → R m ((do? x := c in k x) m).1.
Proof.
  intros Hc Hk. cbv beta. destruct (c m) as [m' [a|e]] eqn:E; cbn in *; [|done]. etransitivity; [exact Hc|by apply Hk].
Qed.

Lemma current_moves {B} (k : ChainManager → io ChainManager B ManagerError) m :
  R m (k m m).1 → R m ((do? x := current in k x) m).1.
Proof. done. Qed.

Lemma pure_moves {A B} (r : result A ManagerError) (k : A → io ChainManager B ManagerError) m :
  (∀ a, r = Ok a → R m (k a m).1) → R m ((do? x := pure r in k x) m).1.
Proof. intros Hk. destruct r; cbn; [by apply Hk|reflexivity]. Qed.

Lemma read_moves {A B} (f : Persistent → result A StorageError) (k : A → io ChainManager B ManagerError) m :
  (∀ a, R m (k a m).1) → R m ((do? x := read_storage f in k x) m).1.
Proof. intros Hk. unfold read_storage. destruct (f _); cbn; [by apply Hk|reflexivity]. Qed.

Lemma when_moves b h m : (b = true → R m (h m).1) → R m (when b h m).1.
Proof. destruct b; intros Hh; [by apply Hh|reflexivity]. Qed.

Lemma for_each_moves {A} (f : A → handler) l m :
  (∀ x m', x ∈ l → R m m' → R m' (f x m').1) → R m (for_each f l m).1.
Proof.
  assert (∀ m0, (∀ x m', x ∈ l → R m0 m' → R m' (f x m').1) → R m0 m → R m (for_each f l m).1) as Hgen.
  - revert m. induction l as [|x l IH]; intros m m0 Hf Hm; cbn [for_each]; [reflexivity|].
    apply bind_moves; [apply Hf; [left|done]|]. intros a m' E. apply (IH m' m0).
    + intros y m1 Hy. apply Hf. by right.
    + etransitivity; [exact Hm|]. pose proof (Hf x m ltac:(left) Hm) as Hx. by rewrite E in Hx.
  - intros Hf. by apply (Hgen m).
Qed.

Lemma or_else_moves {A} (op : io ChainManager A ManagerError) failed (k : A → handler) m :
  R m (op m).1 → (∀ e m', R m' (failed e m').1) → (∀ a m', R m' (k a m').1) → R m (or_else op failed k m).1.
Proof.
  intros Ho Hf Hk. unfold or_else. destruct (op m) as [m' [a|e]]; cbn in Ho; (etransitivity; [exact Ho|]); [by apply Hk|by apply Hf].
Qed.

Lemma ignore_moves h m : R m (h m).1 → R m (ignore_error h m).1.
Proof. unfold ignore_error. by destruct (h m). Qed.

End Moves.

(** ** What a peer can cause *)

(** The messages of others that handling a message of the peer [id] may send: none to other peers or about them, and no
    blocks to apply *)
Definition about (id : string) (e : ManagerEffect) : Prop :=
  match e with
  | TellPeer p _ | TellBootstrapper p _ | NetworkBlacklistPeer p | NetworkProcessAdvertisedPeers p _
  | NetworkSendBootstrapPeers p => p = id
  | PublishBlockReceived _ _ | PublishAllOperationsReceived _ | TellSelfCheckMempool | TellOperationReceived _ _ => True
  | TellResetMempool _ | TellApplyBlock _ _ _ | InjectResult _ | StopPeer _ => False
  end.

(** The messages to peers *)
Definition to_peers (es : list ManagerEffect) : nat :=
  length (List.filter (λ e, match e with TellPeer _ _ => true | _ => false end) es).

Lemma to_peers_app es1 es2 : to_peers (es1 ++ es2) = (to_peers es1 + to_peers es2)%nat.
Proof. unfold to_peers. by rewrite List.filter_app, length_app. Qed.

#[global] Arguments to_peers : simpl never.

Definition requested (message : PeerMessage_t) : nat :=
  match message with
  | PeerGetBlockHeaders l | PeerGetOperations l => length l
  | PeerGetOperationsForBlocks l => length l
  | _ => 1
  end.

Section Isolation.
Context `{RocksDb, CommitLogLib, Timestamps, Base58Lib}.
Context `{Bincode BlockStorageColumn, Bincode BlockStorageColumnsLocation, Bincode PredecessorKey}.
Context `{Bincode BlockAdditionalData, Bincode OperationsForBlocksMessage_t, Bincode MetadataValue, Bincode Operation_t}.
Context (header_hash : BlockHeader_t → result bytes string) (operation_message_hash : Operation_t → result bytes string).
Context (iter : Iteration) (peer_order : gset string → list string) (cfg : ManagerConfig).
Context (id : string).

(** What stays as it is *)
Record apart_from (m m' : ChainManager) : Prop := {
  apart_peers id' : id' ≠ id → manager_peers m' !! id' = manager_peers m !! id';
  apart_connected : is_Some (manager_peers m' !! id) ↔ is_Some (manager_peers m !! id);
  apart_keys : manager_keys m' = manager_keys m;
  apart_local : local_head (manager_shared m') = local_head (manager_shared m);
  apart_mempool : shared_mempool (manager_shared m') = shared_mempool (manager_shared m);
  apart_bootstrap : shared_bootstrap (manager_shared m') = shared_bootstrap (manager_shared m);
  apart_flags : has_prevalidator m' = has_prevalidator m ∧ shutting_down m' = shutting_down m;
  apart_effects : ∃ es, manager_effects m' = manager_effects m ++ es ∧ Forall (about id) es
}.

#[local] Instance apart_from_preorder : PreOrder apart_from.
Proof.
  split.
  - intros m. split; try done. exists []. by rewrite app_nil_r.
  - intros m1 m2 m3 [P1 C1 K1 L1 M1 B1 [F1 G1] (es1 & E1 & A1)] [P2 C2 K2 L2 M2 B2 [F2 G2] (es2 & E2 & A2)].
    split; try congruence; [|by rewrite C2|by split; congruence|].
    + intros id' Hid. by rewrite P2, P1.
    + exists (es1 ++ es2). rewrite E2, E1, app_assoc. split; [done|]. by apply Forall_app.
Qed.

Lemma tell_apart e m : about id e → apart_from m (tell e m).1.
Proof. intros He. split; try done. exists [e]. split; [done|]. by apply Forall_singleton. Qed.

Lemma update_peer_apart f m : apart_from m (update_peer id f m).1.
Proof.
  split; try done.
  - intros id' Hid. cbn. by rewrite lookup_alter_ne.
  - cbn. rewrite lookup_alter_eq. apply fmap_is_Some.
  - exists []. by rewrite app_nil_r.
Qed.

Lemma update_stats_apart f m : apart_from m (update_stats f m).1.
Proof. split; try done. exists []. by rewrite app_nil_r. Qed.

Lemma on_storage_apart {A} (op : io Persistent A StorageError) m : apart_from m (on_storage op m).1.
Proof. unfold on_storage. destruct (op _). split; try done. exists []. by rewrite app_nil_r. Qed.

Lemma remote_apart b m : apart_from m (update_shared (update_remote_head b) m).1.
Proof.
  unfold update_shared, update_remote_head.
  destruct (need_update_remote_level _ _); (split; try done; exists []; by rewrite app_nil_r).
Qed.

Lemma received_apart {L} (f : PeerState → PeerState * option L) m : apart_from m (received id f m).1.
Proof.
  unfold received. destruct (manager_peers m !! id) as [p|] eqn:E; [|reflexivity]. destruct (f p) as [p' lock].
  split; try done.
  - intros id' Hid. cbn. by rewrite lookup_insert_ne.
  - cbn. rewrite lookup_insert_eq, E. split; by eexists.
  - exists []. by rewrite app_nil_r.
Qed.

Lemma with_lock_apart drop_lock h m : apart_from m (h m).1 → apart_from m (with_lock id drop_lock h m).1.
Proof.
  intros Hh. unfold with_lock. destruct (h m) as [m' r]. etransitivity; [exact Hh|].
  apply (update_peer_apart (λ p, update_queues p drop_lock)).
Qed.

Create HintDb apart.
#[local] Hint Resolve tell_apart update_peer_apart update_stats_apart on_storage_apart remote_apart received_apart
  with_lock_apart : apart.
#[local] Hint Extern 1 (about _ _) => first [exact I|exact eq_refl] : apart.

(** Go through a handler: the steps are above, everything else only reads. *)
Ltac apart_step :=
  match goal with
  | |- apart_from ?m (ret _ ?m).1 => reflexivity
  | |- apart_from ?m (throw _ ?m).1 => reflexivity
  | |- apart_from ?m (pure _ ?m).1 => reflexivity
  | |- apart_from _ _ => first
      [ solve [eauto with apart]
      | apply current_moves
      | apply pure_moves; [apply _|intros ? _]
      | apply read_moves; [apply _|intros ?]
      | apply when_moves; [apply _|intros _]
      | apply with_lock_apart
      | apply bind_moves; [apply _|solve [eauto with apart]|intros ? ? _]
      | apply bind_moves; [apply _| |intros ? ? _] ]
  end.

Ltac apart := repeat (apart_step || case_match).

Lemma downloaded_header_apart b m : apart_from m (process_downloaded_header cfg id b m).1.
Proof. unfold process_downloaded_header. apart. Qed.

Lemma schedule_history_apart env b history m : apart_from m (schedule_history cfg env id b history m).1.
Proof.
  unfold schedule_history. apart. split; try done. exists []. by rewrite app_nil_r.
Qed.
#[local] Hint Resolve downloaded_header_apart schedule_history_apart : apart.

Lemma block_header_apart h m : apart_from m (on_block_header header_hash cfg id h m).1.
Proof. unfold on_block_header. apart. Qed.

Lemma operations_for_blocks_apart message m : apart_from m (on_operations_for_blocks id message m).1.
Proof. unfold on_operations_for_blocks. apart. Qed.

Lemma current_branch_apart env chain_id h history m :
  apart_from m (on_current_branch header_hash cfg env id chain_id h history m).1.
Proof. unfold on_current_branch. apart. Qed.

Lemma accept_head_apart env h mempool m : apart_from m (accept_head header_hash cfg env id h mempool m).1.
Proof. unfold accept_head. apart. Qed.
#[local] Hint Resolve accept_head_apart : apart.

Lemma current_head_apart env chain_id h mempool m :
  apart_from m (on_current_head header_hash cfg env id chain_id h mempool m).1.
Proof. unfold on_current_head, current_head_bootstrapped, current_head_bootstrapping. apart. Qed.

Lemma local_block_apart m : apart_from m (local_block m).1.
Proof. unfold local_block. apart. Qed.
Lemma history_for_apart b m : apart_from m (history_for cfg id b m).1.
Proof. unfold history_for. apart. Qed.
#[local] Hint Resolve local_block_apart history_for_apart : apart.

Lemma get_current_branch_apart chain_id m : apart_from m (on_get_current_branch cfg id chain_id m).1.
Proof. unfold on_get_current_branch. apart. Qed.
Lemma get_current_head_apart chain_id m : apart_from m (on_get_current_head iter cfg id chain_id m).1.
Proof. unfold on_get_current_head. apart. Qed.

Lemma requests_apart l l' l'' m :
  apart_from m (on_get_block_headers id l m).1 ∧ apart_from m (on_get_operations_for_blocks id l' m).1 ∧
  apart_from m (on_get_operations id l'' m).1.
Proof.
  unfold on_get_block_headers, on_get_operations_for_blocks, on_get_operations.
  split_and!; (apply for_each_moves; [apply _|]; intros x m' _ _); apart.
Qed.

Lemma operation_apart env operation m : apart_from m (on_operation operation_message_hash cfg env id operation m).1.
Proof. unfold on_operation. apart. Qed.

Lemma peer_message_apart env message m :
  apart_from m (process_peer_message header_hash operation_message_hash iter cfg env id message m).1.
Proof.
  destruct message; cbn [process_peer_message]; auto using block_header_apart, operations_for_blocks_apart,
    current_branch_apart, current_head_apart, get_current_branch_apart, get_current_head_apart, operation_apart.
  all: first [apply (requests_apart _ [] [])|apply (requests_apart [] [] _)|apply (requests_apart [] _ [])|apart].
Qed.

(** How many messages are sent to peers *)
Definition sends {A} (n : nat) (c : io ChainManager A ManagerError) : Prop :=
  ∀ m, (to_peers (manager_effects (c m).1) ≤ to_peers (manager_effects m) + n)%nat.

Lemma sends_le {A} n n' (c : io ChainManager A ManagerError) : (n ≤ n')%nat → sends n c → sends n' c.
Proof. intros Hn Hc m. specialize (Hc m). lia. Qed.

Lemma sends_bind {A B} n n' (c : io ChainManager A ManagerError) (k : A → io ChainManager B ManagerError) :
  sends n c → (∀ a, sends n' (k a)) → sends (n + n') (do? x := c in k x).
Proof.
  intros Hc Hk m. specialize (Hc m). cbv beta. destruct (c m) as [m' [a|e]]; cbn in *; [|lia]. specialize (Hk a m'). lia.
Qed.

(** A step that sends nothing, and then the rest *)
Lemma sends_then {A B} n (c : io ChainManager A ManagerError) (k : A → io ChainManager B ManagerError) :
  sends 0 c → (∀ a, sends n (k a)) → sends n (do? x := c in k x).
Proof. apply sends_bind. Qed.

Lemma sends_nothing {A} (c : io ChainManager A ManagerError) :
  (∀ m, manager_effects (c m).1 = manager_effects m) → sends 0 c.
Proof. intros Hc m. rewrite Hc. lia. Qed.

Lemma sends_ret {A} n (a : A) : sends n (ret a).
Proof. intros m. cbn. lia. Qed.
Lemma sends_throw {A} n e : sends n (throw (A := A) e).
Proof. intros m. cbn. lia. Qed.
Lemma sends_pure {A} n (r : result A ManagerError) : sends n (pure r).
Proof. intros m. cbn. lia. Qed.
Lemma sends_current n : sends n current.
Proof. intros m. cbn. lia. Qed.
Lemma sends_read {A} n (f : Persistent → result A StorageError) : sends n (read_storage f).
Proof. intros m. cbn. lia. Qed.
Lemma sends_storage {A} n (op : io Persistent A StorageError) : sends n (on_storage op).
Proof. intros m. unfold on_storage. destruct (op _). cbn. lia. Qed.
Lemma sends_update n f : sends n (update_peer id f).
Proof. intros m. cbn. lia. Qed.
Lemma sends_stats n f : sends n (update_stats f).
Proof. intros m. cbn. lia. Qed.
Lemma sends_shared n f : sends n (update_shared f).
Proof. intros m. cbn. lia. Qed.
Lemma sends_received {L} n (f : PeerState → PeerState * option L) : sends n (received id f).
Proof. intros m. unfold received. destruct (manager_peers m !! id) as [p|]; [destruct (f p)|]; cbn; lia. Qed.
Lemma sends_lock n d h : sends n h → sends n (with_lock id d h).
Proof. intros Hh m. specialize (Hh m). unfold with_lock. by destruct (h m). Qed.
Lemma sends_when n b h : sends n h → sends n (when b h).
Proof. intros Hh. destruct b; [done|apply sends_ret]. Qed.
Lemma sends_tell n e :
  (to_peers [e] ≤ n)%nat → sends n (tell e).
Proof. intros He m. cbn. rewrite to_peers_app. lia. Qed.
Lemma sends_for_each {A} (f : A → handler) l : (∀ x, sends 1 (f x)) → sends (length l) (for_each f l).
Proof.
  intros Hf. induction l as [|x l IH]; cbn [for_each length]; [apply sends_ret|].
  change (S (length l)) with (1 + length l)%nat. by apply sends_bind.
Qed.

Create HintDb sends.
#[local] Hint Resolve sends_ret sends_throw sends_pure sends_current sends_read sends_storage sends_update sends_stats
  sends_shared sends_received sends_lock sends_when : sends.
#[local] Hint Extern 1 (sends _ (tell _)) => apply sends_tell; unfold to_peers; cbn; lia : sends.

Ltac sends_step :=
  first [ solve [auto with sends] | progress match goal with |- sends ?n (λ s, ?h s) => change (sends n h) end
        | apply sends_lock | apply sends_when | apply sends_then; [|intros ?] | case_match ].

Lemma downloaded_header_sends n b : sends n (process_downloaded_header cfg id b).
Proof. apply (sends_le 0); [lia|]. unfold process_downloaded_header. repeat sends_step. Qed.

Lemma schedule_history_sends n env b history : sends n (schedule_history cfg env id b history).
Proof. apply (sends_le 0); [lia|]. unfold schedule_history. repeat sends_step. intros m. cbn. lia. Qed.
#[local] Hint Resolve downloaded_header_sends schedule_history_sends : sends.

Lemma accept_head_sends n env h mempool : sends n (accept_head header_hash cfg env id h mempool).
Proof. apply (sends_le 0); [lia|]. unfold accept_head. repeat sends_step. Qed.
Lemma local_block_sends n : sends n local_block.
Proof. apply (sends_le 0); [lia|]. unfold local_block. repeat sends_step. Qed.
Lemma history_for_sends n b : sends n (history_for cfg id b).
Proof. apply (sends_le 0); [lia|]. unfold history_for. repeat sends_step. Qed.
#[local] Hint Resolve accept_head_sends local_block_sends history_for_sends : sends.

Lemma peer_message_sends env message :
  sends (requested message) (process_peer_message header_hash operation_message_hash iter cfg env id message).
Proof.
  destruct message; cbn [process_peer_message requested].
  all: unfold on_current_branch, on_get_current_branch, on_block_header, on_get_current_head, on_operations_for_blocks,
    on_current_head, current_head_bootstrapped, current_head_bootstrapping, on_operation.
  all: try (apply sends_for_each; intros x).
  all: repeat sends_step.
Qed.


End Isolation.

(** ** Injected blocks *)

Section Injection.
Context `{RocksDb, CommitLogLib}.
Context `{Bincode BlockStorageColumn, Bincode BlockStorageColumnsLocation}.
Context `{Bincode OperationsForBlocksMessage_t}.
Context (chain_id h : bytes) (callback : bool).

Definition published (e : ManagerEffect) : Prop :=
  match e with PublishBlockReceived _ _ | PublishAllOperationsReceived _ => True | _ => False end.

(** The messages after which the handler is done: the caller is told that the injection failed, or the block is
    given to the applier. *)
Definition injection_end (es : list ManagerEffect) (m : ChainManager) (r : result () ManagerError) : Prop :=
  (∃ reason, es = if callback then [InjectResult (Err reason)] else []) ∨
  es = [TellApplyBlock chain_id (one h) callback] ∧ ready (db (shared_storage (manager_shared m))) h ∧ r = Ok ().

Definition ends_injection (c : handler) : Prop :=
  ∀ m, ∃ es1 es2, manager_effects (c m).1 = manager_effects m ++ es1 ++ es2 ∧ Forall published es1 ∧
    injection_end es2 (c m).1 (c m).2.

Definition publishes {A} (c : io ChainManager A ManagerError) : Prop :=
  ∀ m, ∃ es, manager_effects (c m).1 = manager_effects m ++ es ∧ Forall published es.

Lemma publishes_storage {A} (op : io Persistent A StorageError) : publishes (on_storage op).
Proof. intros m. exists []. unfold on_storage. destruct (op _). by rewrite app_nil_r. Qed.

Lemma publishes_then_ends {A} (c : io ChainManager A ManagerError) failed k :
  publishes c → (∀ e, ends_injection (failed e)) → (∀ a, ends_injection (k a)) → ends_injection (or_else c failed k).
Proof.
  intros Hc Hf Hk m. destruct (Hc m) as (es & E & Hes). unfold or_else. destruct (c m) as [m' [a|e]]; cbn in E.
  1: destruct (Hk a m') as (es1 & es2 & E' & H1' & H2').
  2: destruct (Hf e m') as (es1 & es2 & E' & H1' & H2').
  all: exists (es ++ es1), es2; rewrite E', E, <- !app_assoc; split_and!; [done|by apply Forall_app|done].
Qed.

Lemma announces_then_ends f e k :
  published e → ends_injection k → ends_injection (do? _ := update_stats f in do? _ := tell e in k).
Proof.
  intros He Hk m. destruct (Hk (with_effects (manager_effects m ++ [e]) (with_stats f m))) as (es1 & es2 & E & H1' & H2').
  exists (e :: es1), es2. split_and!; [|by constructor|exact H2'].
  etransitivity; [exact E|]. cbn. by rewrite <- app_assoc.
Qed.

Lemma fail_ends reason e : ends_injection (fail_injection callback reason e).
Proof.
  intros m. exists [], (if callback then [InjectResult (Err reason)] else []).
  unfold fail_injection, dispatch, when. split_and!; [|done|left; by exists reason].
  destruct callback; cbn; by rewrite ?app_nil_r.
Qed.

Lemma apply_injected_ends : ends_injection (apply_injected chain_id h callback).
Proof.
  intros m. unfold apply_injected, current. cbv beta iota.
  destruct (try_apply_block h (db (shared_storage (manager_shared m)))) as [batch|e] eqn:E; [|apply fail_ends].
  exists [], [TellApplyBlock chain_id batch callback]. split_and!; [done|done|]. right.
  apply batch_to_use_ok in E as [[Hr ->]|(_ & ? & ? & ? & _)]; [|done]. by split_and!.
Qed.

Lemma store_operations_ends lvl idx operations paths k :
  ends_injection k → ends_injection (store_injected_operations callback h lvl idx operations paths k).
Proof.
  intros Hk. revert idx. induction operations as [|ops operations IH]; intros idx; cbn [store_injected_operations]; [done|].
  destruct (paths !! idx); [|apply fail_ends]. apply publishes_then_ends; [apply publishes_storage|intros e; apply fail_ends|].
  intros [[|] missing]; cbn [when]; [|apply IH].
  intros m. destruct (announces_then_ends unseen_operations (PublishAllOperationsReceived lvl) _ I (IH (S idx)) m)
    as (es1 & es2 & Hes). by exists es1, es2.
Qed.

End Injection.

Section InjectionTheorem.
Context `{RocksDb, CommitLogLib}.
Context `{Bincode BlockStorageColumn, Bincode BlockStorageColumnsLocation}.
Context `{Bincode OperationsForBlocksMessage_t}.

(** C11: an injected block is dealt with exactly once, whatever the storages do and whatever is in the request: either the
    caller is told that the injection failed, or the block is given to the applier together with the duty to answer,
    and then it is not applied yet, has all its operations, and its predecessor is applied. *)
Theorem injected_block_answered block callback m :
  let b := inject_block_header block in
  let '(m', r) := process_injected_block block callback m in
  ∃ es1 es2, manager_effects m' = manager_effects m ++ es1 ++ es2 ∧ Forall published es1 ∧
    ((∃ reason, es2 = if callback then [InjectResult (Err reason)] else []) ∨
     es2 = [TellApplyBlock (inject_chain_id block) (one (hash b)) callback] ∧
       ready (db (shared_storage (manager_shared m'))) (hash b) ∧ r = Ok ()).
Proof.
  cbv zeta. pose proof (fail_ends (inject_chain_id block) (hash (inject_block_header block)) callback) as Hfail.
  assert (ends_injection (inject_chain_id block) (hash (inject_block_header block)) callback
    (process_injected_block block callback)) as He.
  - unfold process_injected_block. apply publishes_then_ends; [apply publishes_storage|intros e; apply Hfail|].
    intros [[meta is_new] complete]. destruct is_new; cbn [negb].
    + apply announces_then_ends; [done|]. destruct complete; [apply apply_injected_ends|].
      destruct (inject_operations block) as [operations|]; [|apply Hfail].
      destruct (inject_operation_paths block) as [paths|]; [|apply Hfail].
      apply store_operations_ends, apply_injected_ends.
    + intros m0. exists [], (if callback then [InjectResult (Err "Injected duplicated block - will be ignored!"%string)] else []).
      unfold dispatch, when. split_and!; [|done|left; by eexists]. destruct callback; cbn; by rewrite ?app_nil_r.
  - destruct (He m) as (es1 & es2 & E & H1' & H2'). destruct (process_injected_block block callback m) as [m' r].
    by exists es1, es2.
Qed.

End InjectionTheorem.

(** ** Answers *)

Section Answers.
Context `{RocksDb, CommitLogLib, Timestamps, Base58Lib}.
Context `{Bincode BlockStorageColumn, Bincode BlockStorageColumnsLocation, Bincode PredecessorKey}.
Context `{Bincode BlockAdditionalData, Bincode OperationsForBlocksMessage_t, Bincode MetadataValue, Bincode Operation_t}.
Context (header_hash : BlockHeader_t → result bytes string) (operation_message_hash : Operation_t → result bytes string).
Context (iter : Iteration) (peer_order : gset string → list string) (cfg : ManagerConfig).

Definition answered (id : string) (es : list PeerMessage_t) (m : ChainManager) : ChainManager :=
  with_effects (manager_effects m ++ (TellPeer id <$> es)) m.

Lemma answered_app id es1 es2 m : answered id es2 (answered id es1 m) = answered id (es1 ++ es2) m.
Proof. unfold answered. cbn. by rewrite fmap_app, app_assoc. Qed.

(** A loop over requests, each of which is answered from the storages *)
Lemma for_each_answers {A} id (f : A → handler) (g : A → option PeerMessage_t) l m :
  (∀ x m', x ∈ l → manager_shared m' = manager_shared m → f x m' = (answered id (option_list (g x)) m', Ok ())) →
  for_each f l m = (answered id (omap g l) m, Ok ()).
Proof.
  revert m. induction l as [|x l IH]; intros m Hf; cbn [for_each omap list_omap].
  { unfold answered. cbn. rewrite app_nil_r. by destruct m. }
  rewrite (Hf x m) by (done || left). cbv beta iota. rewrite IH.
  - rewrite answered_app. by destruct (g x).
  - intros y m' Hy E. apply Hf; [by right|done].
Qed.

Lemma tell_answered id e m : tell (TellPeer id e) m = (answered id [e] m, Ok ()).
Proof. done. Qed.
Lemma ret_answered id m : ret () m = (answered id [] m, Ok () : result () ManagerError).
Proof. unfold ret, answered. cbn. rewrite app_nil_r. by destruct m. Qed.

Definition stored_operation (P : gmap MempoolKey Operation_t) (oph : bytes) : option Operation_t :=
  match P !! mkMempoolKey Pending oph with Some op => Some op | None => P !! mkMempoolKey KnownValid oph end.

Definition stored_pass (T : gmap OperationKey OperationsForBlocksMessage_t) (o : OperationsForBlock_t)
    : option OperationsForBlocksMessage_t :=
  if decide (operations_validation_pass o < 0) then None
  else T !! mkOperationKey (operations_block_hash o) (operations_validation_pass o).

(** C12: requests of peers are answered with exactly what is stored of what was asked for, in the order of the request: headers
    by hash, operations of blocks by block and pass, operations of the mempool in either table.  Nothing else happens. *)
Theorem requests_answered env id m B (T : gmap OperationKey OperationsForBlocksMessage_t) (P : gmap MempoolKey Operation_t) :
  let s := shared_storage (manager_shared m) in
  is_Some (manager_peers m !! id) → BlockStorage.holds s B →
  table_is OperationsStorage operation_key_ok (db s) T → table_is MempoolStorage mempool_key_ok (db s) P →
  let answers request es :=
    manager_process header_hash operation_message_hash iter peer_order cfg env
      (NetworkChannelMessage (PeerMessageReceived id request)) m
    = (answered id es (with_stats message_received m), Ok ()) in
  (∀ l, Forall (hash_ok BlockHash) l →
     answers (PeerGetBlockHeaders l) (omap (λ h, (λ e, PeerBlockHeader (header e.1)) <$> B !! h) l)) ∧
  (∀ l, Forall (λ o, hash_ok BlockHash (operations_block_hash o) ∧ int_range 8 (operations_validation_pass o)) l →
     answers (PeerGetOperationsForBlocks l) (omap (λ o, PeerOperationsForBlocks <$> stored_pass T o) l)) ∧
  (∀ l, Forall (hash_ok OperationHash) l →
     answers (PeerGetOperations l) (omap (λ h, PeerOperation <$> stored_operation P h) l)).
Proof.
  cbv zeta. intros [p Ep] HB HT HP. set (s := shared_storage (manager_shared m)) in *.
  set (m1 := with_stats message_received m). assert (manager_shared m1 = manager_shared m) as E1 by done.
  unfold manager_process, process_network_channel_message, update_stats, current. cbv beta iota.
  change (manager_peers (with_stats message_received m)) with (manager_peers m). rewrite Ep. fold m1.
  split_and!; intros l Hl; cbn [process_peer_message];
    unfold on_get_block_headers, on_get_operations_for_blocks, on_get_operations; apply for_each_answers;
    intros x m' Hx E; rewrite Forall_forall in Hl; specialize (Hl x Hx); unfold read_storage; cbv beta; rewrite E1 in E.
  - rewrite E. fold s. rewrite (proj1 (block_get_holds s B x HB Hl)). cbn. destruct (B !! x) as [[b j]|]; cbn; [apply tell_answered|apply ret_answered].
  - destruct Hl as [Hh Hp]. unfold stored_pass. case_decide as Hneg; [apply ret_answered|].
    cbv beta. rewrite E. fold s. unfold operation_key_of. rewrite decide_True by lia.
    assert (as_u8 (operations_validation_pass x) = operations_validation_pass x) as ->.
    { unfold as_u8, int_range in *. rewrite Z.mod_small; [done|]. lia. }
    set (key := mkOperationKey _ _).
    assert (get_stored key (db s) = Ok (T !! key)) as ->.
    { unfold get_stored. rewrite (table_is_get OperationsStorage (db s) T key HT); [done|].
      split; [done|]. unfold int_range in Hp. cbn. lia. }
    destruct (T !! key); [apply tell_answered|apply ret_answered].
  - rewrite E. fold s. unfold mempool_find, stored_operation.
    assert (∀ t, mempool_get t x (db s) = Ok (P !! mkMempoolKey t x)) as Hg.
    { intros t. unfold mempool_get. by rewrite (table_is_get MempoolStorage (db s) P (mkMempoolKey t x) HP Hl). }
    rewrite !Hg. destruct (P !! mkMempoolKey Pending x); [apply tell_answered|].
    destruct (P !! mkMempoolKey KnownValid x); [apply tell_answered|apply ret_answered].
Qed.

End Answers.

(** ** All messages *)

Section Evolution.
Context `{RocksDb, CommitLogLib, Timestamps, Base58Lib}.
Context `{Bincode BlockStorageColumn, Bincode BlockStorageColumnsLocation, Bincode PredecessorKey}.
Context `{Bincode BlockAdditionalData, Bincode OperationsForBlocksMessage_t, Bincode MetadataValue, Bincode Operation_t}.
Context (header_hash : BlockHeader_t → result bytes string) (operation_message_hash : Operation_t → result bytes string).
Context (iter : Iteration) (peer_order : gset string → list string) (cfg : ManagerConfig).

(** A relation between storages that all writes of the manager keep *)
Context (K : Persistent → Persistent → Prop) `{!PreOrder K}.
Context (K_header : ∀ b s, K s (process_block_header_from_peer (config_chain_id cfg) b s).1).
Context (K_operations : ∀ message s, K s (in_db (process_block_operations_from_peer message) s).1).
Context (K_injected : ∀ chain_id b s, K s (process_injected_block_header chain_id b s).1).
Context (K_injected_operations : ∀ message s, K s (in_db (process_block_operations message) s).1).
Context (K_mempool : ∀ t operation h s, K s (in_db (mempool_put t operation h) s).1).

(** The queues of a peer are consistent and within their limits. *)
Definition peer_fine (p : PeerState) : Prop := peer_ok p ∧ queues_ok (queues p).

(** The contents of the mempool are only sent to peers that want it. *)
Definition private (m : ChainManager) (e : ManagerEffect) : Prop :=
  match e with
  | TellPeer id (PeerCurrentHead _ _ mempool) =>
      mempool ≠ no_mempool →
      p2p_disable_mempool cfg = false ∧ ∃ p, manager_peers m !! id = Some p ∧ mempool_enabled p = true
  | _ => True
  end.

(** A peer stays what it is, and its queues stay consistent. *)
Definition peer_keeps (p p' : PeerState) : Prop :=
  mempool_enabled p' = mempool_enabled p ∧ (peer_fine p → peer_fine p').

Record shared_grows (sh sh' : Shared) : Prop := {
  grows_bootstrapped :
    current_bootstrapped_status (shared_bootstrap sh) = true → current_bootstrapped_status (shared_bootstrap sh') = true;
  grows_storage : K (shared_storage sh) (shared_storage sh');
  grows_remote h : remote_head sh = Some h → ∃ h', remote_head sh' = Some h' ∧ head_level h ≤ head_level h';
}.

Record evolves (m m' : ChainManager) : Prop := {
  evolves_peers id p' : manager_peers m' !! id = Some p' → ∃ p, manager_peers m !! id = Some p ∧ peer_keeps p p';
  evolves_shared : shared_grows (manager_shared m) (manager_shared m');
  evolves_local : local_head (manager_shared m') = local_head (manager_shared m);
  evolves_effects : ∃ es, manager_effects m' = manager_effects m ++ es ∧ Forall (private m) es
}.

#[local] Instance peer_keeps_preorder : PreOrder peer_keeps.
Proof.
  split; [by intros p; split|]. intros p1 p2 p3 [E1 F1] [E2 F2]. split; [congruence|auto].
Qed.

#[local] Instance shared_grows_preorder : PreOrder shared_grows.
Proof.
  split; [intros sh; split; [done|reflexivity|intros h E; exists h; split; [done|lia]]|].
  intros s1 s2 s3 [B1 K1 R1] [B2 K2 R2]. split; [auto|by etransitivity|].
  intros h E. destruct (R1 h E) as (h2 & E2 & L2). destruct (R2 h2 E2) as (h3 & E3 & L3). exists h3. split; [done|lia].
Qed.

#[local] Instance evolves_preorder : PreOrder evolves.
Proof.
  split.
  - intros m. split; [|reflexivity|done|exists []; by rewrite app_nil_r]. intros id p E. exists p. split; [done|reflexivity].
  - intros m1 m2 m3 [P1 S1 L1 (es1 & E1 & A1)] [P2 S2 L2 (es2 & E2 & A2)]. split; [|by etransitivity|congruence|].
    + intros id p3 E3. destruct (P2 id p3 E3) as (p2 & E2' & K2). destruct (P1 id p2 E2') as (p1 & E1' & K1).
      exists p1. split; [done|by etransitivity].
    + exists (es1 ++ es2). rewrite E2, E1, app_assoc. split; [done|]. apply Forall_app. split; [done|].
      eapply Forall_impl; [exact A2|]. intros [id []| | | | | | | | | | | |]; try done. intros Hp Hm.
      destruct (Hp Hm) as (Hd & p2 & Ep & Ee). split; [done|]. destruct (P1 id p2 Ep) as (p1 & Ep1 & Ek & _).
      exists p1. split; [done|congruence].
Qed.

Lemma same_evolves m m' :
  manager_peers m' = manager_peers m → shared_grows (manager_shared m) (manager_shared m') →
  local_head (manager_shared m') = local_head (manager_shared m) → manager_effects m' = manager_effects m → evolves m m'.
Proof.
  intros Ep Hs Hl Ee. split; [|done|done|exists []; by rewrite app_nil_r, Ee].
  intros id p'. rewrite Ep. intros E. exists p'. split; [done|reflexivity].
Qed.

Lemma tell_evolves e m : private m e → evolves m (tell e m).1.
Proof.
  intros He. split; [|reflexivity|done|exists [e]; split; [done|by apply Forall_singleton]].
  intros id p' E. exists p'. split; [done|reflexivity].
Qed.

Lemma update_peer_evolves id f m : (∀ p, peer_keeps p (f p)) → evolves m (update_peer id f m).1.
Proof.
  intros Hf. split; [|reflexivity|done|exists []; by rewrite app_nil_r].
  intros id' p'. cbn. destruct (decide (id' = id)) as [->|Hne].
  - rewrite lookup_alter_eq. intros (p & E & ->)%fmap_Some. exists p. split; [done|apply Hf].
  - rewrite lookup_alter_ne by done. intros E. exists p'. split; [done|reflexivity].
Qed.

Lemma update_stats_evolves f m : evolves m (update_stats f m).1.
Proof. by apply same_evolves. Qed.

Lemma on_storage_evolves {A} (op : io Persistent A StorageError) m :
  (∀ s, K s (op s).1) → evolves m (on_storage op m).1.
Proof.
  intros Hop. unfold on_storage. specialize (Hop (shared_storage (manager_shared m))). destruct (op _).
  apply same_evolves; [done| |done|done]. split; [done|exact Hop|]. intros h E. exists h. split; [done|lia].
Qed.

Lemma remote_evolves b m : evolves m (update_shared (update_remote_head b) m).1.
Proof.
  unfold update_shared, update_remote_head. apply same_evolves; [done| |by destruct (need_update_remote_level _ _)|done].
  cbn. destruct (need_update_remote_level _ _) eqn:E; [|reflexivity]. split; [done|reflexivity|]. intros h Eh. cbn.
  rewrite Eh in E. cbn in E. apply bool_decide_eq_true in E. eexists. split; [done|]. cbn. lia.
Qed.
(** *** Peers *)

Lemma head_level_keeps level now p : peer_keeps p (update_current_head_level p level now).1.
Proof. unfold update_current_head_level. destruct (current_head_level p); [case_decide|]; by split. Qed.
Lemma head_keeps b now p : peer_keeps p (update_current_head p b now).1.
Proof. unfold update_current_head. destruct (current_head_level p); [case_decide|]; by split. Qed.
Lemma request_keeps now p : peer_keeps p (set_head_request now p).
Proof. by split. Qed.
Lemma response_keeps now p : peer_keeps p (set_head_response now p).
Proof. by split. Qed.
Lemma mempool_response_keeps now p : peer_keeps p (set_mempool_response now p).
Proof. by split. Qed.
Lemma synchronized_keeps flag p : peer_keeps p (set_synchronized flag p).
Proof. by split. Qed.

Lemma clear_keeps p : peer_keeps p (clear p).
Proof.
  split; [done|]. intros [_ Hq]. split; [|done]. split; [constructor|]. split; [done|]. cbn. by rewrite map_size_empty.
Qed.

Lemma take_queued_keeps oph p : peer_keeps p (take_queued oph p).
Proof.
  split; [done|]. intros [(Hn & Hd & Hs) Hq]. split; [|done]. split; [done|]. cbn. split.
  - intros h Hh. apply lookup_delete_None. right. by apply Hd.
  - rewrite map_size_delete. destruct (queued_mempool_operations p !! oph); cbn; lia.
Qed.

Lemma add_missing_keeps oph t p : peer_keeps p (add_missing_mempool_operations p oph t).
Proof.
  split.
  - unfold add_missing_mempool_operations. case_decide; [done|]. by destruct (queued_mempool_operations p !! oph).
  - intros [Hp Hq]. split; [by apply add_missing_ok|].
    unfold add_missing_mempool_operations. case_decide; [done|]. by destruct (queued_mempool_operations p !! oph).
Qed.

Lemma add_peer_mempool_keeps mempool p : peer_keeps p (add_peer_mempool mempool p).
Proof.
  assert (∀ l p, peer_keeps p (foldl (λ p oph, add_missing_mempool_operations p oph Pending) p l)) as Hl.
  { induction l as [|oph l IH]; intros p'; cbn; [reflexivity|]. etransitivity; [apply add_missing_keeps|apply IH]. }
  unfold add_peer_mempool. etransitivity; apply Hl.
Qed.

Lemma schedule_keeps now p : peer_keeps p (schedule_missing_operations now p).1.
Proof.
  split.
  - unfold schedule_missing_operations. destruct (missing_mempool_operations p); [done|]. by case_decide.
  - intros [Hp Hq]. pose proof (mempool_requests_exact now p Hp) as Hs.
    destruct (schedule_missing_operations now p) as [p' messages] eqn:E. split; [apply Hs|].
    unfold schedule_missing_operations in E. destruct (missing_mempool_operations p); [by injection E as <- _|].
    case_decide; by injection E as <- _.
Qed.

Lemma set_queues_keeps q st p : (queues_ok (queues p) → queues_ok q) → peer_keeps p (set_queues p q st).
Proof. intros Hq. split; [done|]. intros [Hp Hq']. split; [done|by apply Hq]. Qed.

Lemma block_received_keeps h p : peer_keeps p (block_header_received h p).1.
Proof. unfold block_header_received. destruct (_ !! h); [reflexivity|by apply set_queues_keeps]. Qed.
Lemma operations_received_keeps o p : peer_keeps p (block_operations_received o p).1.
Proof.
  unfold block_operations_received. destruct (_ !! _) as [[missing t]|]; [case_decide; [reflexivity|]|];
    by apply set_queues_keeps.
Qed.

Lemma drop_block_keeps lock q : queues_ok q → queues_ok (drop_block_lock lock q).
Proof.
  intros [Hh Ho]. split; [|done]. cbn. rewrite map_size_delete.
  destruct (queued_block_headers q !! lock_block_hash lock); cbn; lia.
Qed.
Lemma drop_operation_keeps lock q : queues_ok q → queues_ok (drop_operation_lock lock q).
Proof.
  intros [Hh Ho]. unfold drop_operation_lock. destruct (_ !! _) as [[missing t]|] eqn:E; [|done].
  split; [done|]. cbn. case_decide; [rewrite map_size_delete, E; cbn; lia|by rewrite map_size_insert_Some].
Qed.

Lemma received_evolves {L} id (f : PeerState → PeerState * option L) m :
  (∀ p, peer_keeps p (f p).1) → evolves m (received id f m).1.
Proof.
  intros Hf. unfold received. destruct (manager_peers m !! id) as [p|] eqn:E; [|reflexivity].
  specialize (Hf p). destruct (f p) as [p' lock]. split; [|reflexivity|done|exists []; by rewrite app_nil_r].
  intros id' q. cbn. intros [[<- <-]|[Hne Eq]]%lookup_insert_Some; [by exists p|exists q; split; [done|reflexivity]].
Qed.

Lemma with_lock_evolves id d h m :
  (∀ q, queues_ok q → queues_ok (d q)) → evolves m (h m).1 → evolves m (with_lock id d h m).1.
Proof.
  intros Hd Hh. unfold with_lock. destruct (h m) as [m' r]. etransitivity; [exact Hh|].
  apply (update_peer_evolves id (λ p, update_queues p d)). intros p. apply set_queues_keeps, Hd.
Qed.

Create HintDb evolves.
#[local] Hint Resolve tell_evolves update_peer_evolves update_stats_evolves on_storage_evolves remote_evolves
  received_evolves with_lock_evolves head_level_keeps head_keeps request_keeps response_keeps mempool_response_keeps
  synchronized_keeps clear_keeps take_queued_keeps add_peer_mempool_keeps schedule_keeps block_received_keeps
  operations_received_keeps drop_block_keeps drop_operation_keeps : evolves.
#[local] Hint Extern 1 (private _ _) => exact I : evolves.

Ltac evolve_step :=
  match goal with
  | |- evolves ?m (ret _ ?m).1 => reflexivity
  | |- evolves ?m (throw _ ?m).1 => reflexivity
  | |- evolves ?m (pure _ ?m).1 => reflexivity
  | |- evolves _ _ => first
      [ solve [eauto with evolves]
      | apply current_moves
      | apply pure_moves; [apply _|intros ? _]
      | apply read_moves; [apply _|intros ?]
      | apply when_moves; [apply _|intros _]
      | apply with_lock_evolves; [solve [eauto with evolves]|]
      | apply for_each_moves; [apply _|intros ? ? _ _]
      | apply bind_moves; [apply _|solve [eauto with evolves]|intros ? ? _]
      | apply bind_moves; [apply _| |intros ? ? _] ]
  end.
Ltac evolve := repeat (evolve_step || case_match).

Lemma downloaded_header_evolves id b m : evolves m (process_downloaded_header cfg id b m).1.
Proof. unfold process_downloaded_header. evolve. Qed.

Lemma schedule_history_evolves env id b history m : evolves m (schedule_history cfg env id b history m).1.
Proof. unfold schedule_history. evolve. by apply same_evolves. Qed.
#[local] Hint Resolve downloaded_header_evolves schedule_history_evolves : evolves.

Lemma accept_head_evolves env id h mempool m : evolves m (accept_head header_hash cfg env id h mempool m).1.
Proof. unfold accept_head. evolve. Qed.
#[local] Hint Resolve accept_head_evolves : evolves.

Lemma local_block_evolves m : evolves m (local_block m).1.
Proof. unfold local_block. evolve. Qed.
Lemma history_for_evolves id b m : evolves m (history_for cfg id b m).1.
Proof. unfold history_for. evolve. Qed.
#[local] Hint Resolve local_block_evolves history_for_evolves : evolves.

Lemma resolve_mempool_private p mempool head :
  resolve_mempool_to_send_to_peer iter cfg p mempool head ≠ no_mempool →
  p2p_disable_mempool cfg = false ∧ mempool_enabled p = true.
Proof. unfold resolve_mempool_to_send_to_peer. by destruct (p2p_disable_mempool cfg), (mempool_enabled p). Qed.

Lemma get_current_head_evolves id chain_id m : evolves m (on_get_current_head iter cfg id chain_id m).1.
Proof.
  unfold on_get_current_head. evolve. apply tell_evolves. intros [Hd Hp]%resolve_mempool_private. by eauto.
Qed.

Lemma peer_message_evolves env id message m :
  evolves m (process_peer_message header_hash operation_message_hash iter cfg env id message m).1.
Proof.
  destruct message; cbn [process_peer_message]; auto using get_current_head_evolves.
  all: unfold on_current_branch, on_get_current_branch, on_block_header, on_operations_for_blocks, on_get_block_headers,
    on_get_operations_for_blocks, on_get_operations, on_current_head, current_head_bootstrapped, current_head_bootstrapping, on_operation.
  all: evolve.
Qed.

Lemma advertise_head_evolves chain_id h mempool ignore m :
  evolves m (advertise_current_head_to_p2p peer_order cfg chain_id h mempool ignore m).1.
Proof.
  unfold advertise_current_head_to_p2p, current_head_message. evolve.
  all: apply tell_evolves; cbn; intros Hm; by eauto.
Qed.

Lemma advertise_branch_evolves chain_id b m :
  evolves m (advertise_current_branch_to_p2p peer_order cfg chain_id b m).1.
Proof. unfold advertise_current_branch_to_p2p. evolve. Qed.
#[local] Hint Resolve advertise_head_evolves advertise_branch_evolves : evolves.

Lemma synchronize_evolves id update m : evolves m (synchronize_peer id update m).1.
Proof.
  unfold synchronize_peer. destruct (manager_peers m !! id) as [p|] eqn:Ep; [|reflexivity].
  destruct (update_by_peer_state _ _ _ _) as [state flag] eqn:Eu.
  split; [|split|done|exists []; by rewrite app_nil_r].
  - intros id' p'. cbn. intros [[<- <-]|[Hne E]]%lookup_insert_Some; [exists p; split; [done|apply synchronized_keeps]|].
    exists p'. split; [done|reflexivity].
  - cbn. intros Hb. unfold update_by_peer_state in Eu. rewrite Hb in Eu. by injection Eu as <- _.
  - reflexivity.
  - intros h E. exists h. split; [done|lia].
Qed.

Lemma start_mempool_evolves env m : evolves m (start_mempool_if_needed cfg env m).1.
Proof. unfold start_mempool_if_needed. evolve. by apply same_evolves. Qed.
Lemma ignore_evolves h m : evolves m (h m).1 → evolves m (ignore_error h m).1.
Proof. apply ignore_moves. Qed.
#[local] Hint Resolve synchronize_evolves start_mempool_evolves ignore_evolves : evolves.

Lemma resolve_is_bootstrapped_evolves env id update m :
  evolves m (resolve_is_bootstrapped peer_order cfg env id update m).1.
Proof. unfold resolve_is_bootstrapped. evolve. Qed.

Lemma fail_injection_evolves callback reason e m : evolves m (fail_injection callback reason e m).1.
Proof. unfold fail_injection, dispatch. evolve. Qed.
#[local] Hint Resolve resolve_is_bootstrapped_evolves fail_injection_evolves : evolves.

Lemma apply_injected_evolves chain_id h callback m : evolves m (apply_injected chain_id h callback m).1.
Proof. unfold apply_injected. evolve. Qed.

Lemma store_injected_evolves callback h lvl idx operations paths k m :
  (∀ m, evolves m (k m).1) → evolves m (store_injected_operations callback h lvl idx operations paths k m).1.
Proof.
  intros Hk. revert idx m. induction operations as [|ops operations IH]; intros idx m; cbn [store_injected_operations]; [done|].
  destruct (paths !! idx); [|apply fail_injection_evolves].
  apply or_else_moves; [apply _|by apply on_storage_evolves|intros e m'; apply fail_injection_evolves|].
  intros [complete missing] m'. apply bind_moves; [apply _| |intros ? ? _; apply IH]. evolve.
Qed.

Lemma injected_evolves block callback m : evolves m (process_injected_block block callback m).1.
Proof.
  unfold process_injected_block.
  apply or_else_moves; [apply _|by apply on_storage_evolves|intros e m'; apply fail_injection_evolves|].
  intros [[meta is_new] complete] m'. destruct is_new; cbn [negb]; [|unfold dispatch; evolve].
  evolve; eauto using apply_injected_evolves, store_injected_evolves.
Qed.
#[local] Hint Resolve injected_evolves : evolves.

Lemma advertised_block_evolves h m : evolves m (advertised_block h m).1.
Proof. unfold advertised_block. evolve. Qed.
#[local] Hint Resolve advertised_block_evolves : evolves.

Lemma shell_message_evolves env message m :
  evolves m (process_shell_channel_message peer_order cfg env message m).1.
Proof.
  destruct message; cbn [process_shell_channel_message]; try solve [evolve].
  by apply same_evolves.
Qed.

(** Peers come, stay or go. *)
Record received_ok (m m' : ChainManager) : Prop := {
  received_peers id p' : manager_peers m' !! id = Some p' →
    peer_fine p' ∨ ∃ p, manager_peers m !! id = Some p ∧ peer_keeps p p';
  received_shared : shared_grows (manager_shared m) (manager_shared m');
  received_local : local_head (manager_shared m') = local_head (manager_shared m);
  received_effects : ∃ es, manager_effects m' = manager_effects m ++ es ∧ Forall (private m) es
}.

Lemma evolves_received m m' : evolves m m' → received_ok m m'.
Proof. intros [P S L E]. split; [|done|done|done]. intros id p' Ep. right. by apply P. Qed.

Lemma remove_evolves id m : evolves m (remove_peer id m).1.
Proof.
  split; [|reflexivity|done|exists []; by rewrite app_nil_r]. intros id' p'. cbn. intros [Hne E]%lookup_delete_Some.
  exists p'. split; [done|reflexivity].
Qed.
#[local] Hint Resolve remove_evolves : evolves.

Lemma peer_new_fine now disable_mempool : peer_fine (peer_new now disable_mempool LIMITS).
Proof. split; [apply peer_new_ok|]. by split. Qed.

Lemma network_message_received env message m :
  received_ok m (process_network_channel_message header_hash operation_message_hash iter cfg env message m).1.
Proof.
  destruct message as [id key disable|id|id message|]; cbn [process_network_channel_message].
  - split; [|reflexivity|done|].
    + intros id' p'. cbn. intros [[<- <-]|[_ E]]%lookup_insert_Some; [left; apply peer_new_fine|].
      right. exists p'. split; [done|reflexivity].
    + exists [TellPeer id (PeerGetCurrentBranch (config_chain_id cfg))]. split; [done|by apply Forall_singleton].
  - apply evolves_received. evolve.
  - apply evolves_received. evolve. apply peer_message_evolves.
  - by apply evolves_received.
Qed.

Lemma manager_received env message m :
  received_ok m (manager_receive header_hash operation_message_hash iter peer_order cfg env message m).
Proof.
  unfold manager_receive, manager_process. cbv beta iota zeta delta [update_stats].
  enough (received_ok (with_stats message_received m)
    (manager_process header_hash operation_message_hash iter peer_order cfg env message m).1) as [P S L E] by by split.
  unfold manager_process. cbv beta iota zeta delta [update_stats].
  destruct message as [timeout| |timeout| |message|message|id].
  5: apply network_message_received.
  all: apply evolves_received.
  5: apply shell_message_evolves.
  - unfold disconnect_stalled_peers. evolve.
  - unfold check_mempool_completeness. evolve.
  - unfold ask_peers_about_current_head. evolve.
  - by apply same_evolves.
  - apply remove_evolves.
Qed.

End Evolution.

Section Privacy.
Context `{RocksDb, CommitLogLib, Timestamps, Base58Lib}.
Context `{Bincode BlockStorageColumn, Bincode BlockStorageColumnsLocation, Bincode PredecessorKey}.
Context `{Bincode BlockAdditionalData, Bincode OperationsForBlocksMessage_t, Bincode MetadataValue, Bincode Operation_t}.
Context (header_hash : BlockHeader_t → result bytes string) (operation_message_hash : Operation_t → result bytes string).
Context (iter : Iteration) (peer_order : gset string → list string) (cfg : ManagerConfig).

(** C13: the contents of the mempool are private: whatever message is handled, a head that is sent to a peer comes with an empty
    mempool unless the mempool is enabled here and the peer has not disabled its own. *)
Theorem mempool_contents_private env message m :
  let m' := manager_receive header_hash operation_message_hash iter peer_order cfg env message m in
  ∃ es, manager_effects m' = manager_effects m ++ es ∧
    ∀ id chain_id h mempool, TellPeer id (PeerCurrentHead chain_id h mempool) ∈ es → mempool ≠ no_mempool →
      p2p_disable_mempool cfg = false ∧ ∃ p, manager_peers m !! id = Some p ∧ mempool_enabled p = true.
Proof.
  assert (PreOrder (λ _ _ : Persistent, True)) by by split.
  destruct (manager_received header_hash operation_message_hash iter peer_order cfg (λ _ _, True)
    (λ _ _, I) (λ _ _, I) (λ _ _ _, I) (λ _ _, I) (λ _ _ _ _, I) env message m) as [_ _ _ (es & E & Hes)]. exists es. split; [done|].
  intros id chain_id h mempool Hin. rewrite Forall_forall in Hes. by apply (Hes _ Hin).
Qed.

End Privacy.
