(* ===== verification/HeadManagerFacts.v ===== *)
(** * The shell: the chain manager and the manager of the head together

    Both actors share the storages, the heads, the mempool and the state of synchronisation; their messages are handled
    in any order, and other actors write to other tables and to the mempool in between. *)

From stdpp Require Import gmap.
From S2P Require Import Prelude Hash Kv Blocks OperationsMeta MerklePath Predecessors BlockStorage ChainMeta StorageOps SeededStep Fitness Prevalidator MempoolThread Validation BlockMeta ShellState Requester OperationsStorage ChainState Downloads ChainManager ChainManagerFacts HeadManager.

(** The tables that the chain manager writes to *)
Definition manager_tables : list string :=
  ["block_storage"; "block_by_level_storage"; "block_by_context_hash_storage"; "block_meta_storage";
   "operations_meta_storage"; "operations_storage"; "mempool_storage"]%string.

Definition shell_families : list ColumnFamilyDescriptor :=
  operations_storage_descriptor :: mempool_descriptor :: dbs_families.

Section System.
Context `{RocksDbLaws cfs, CommitLogLib, Timestamps, Base58Lib}.
Context `{Bincode BlockStorageColumn, Bincode BlockStorageColumnsLocation, Bincode PredecessorKey}.
Context `{Bincode BlockAdditionalData, Bincode OperationsForBlocksMessage_t, Bincode Operation_t}.
Context `{BincodeLaws MetadataValue value_ok}.
Context (Hopen : shell_families ⊆ cfs).
Context (header_hash : BlockHeader_t → result bytes string) (operation_message_hash : Operation_t → result bytes string).
Context (iter : Iteration) (peer_order : gset string → list string) (cfg : ManagerConfig).

(** ** What the manager writes *)

Definition writes_only (s s' : Persistent) : Prop := only manager_tables (db s) (db s').

#[local] Instance writes_only_preorder : PreOrder writes_only.
Proof. split; [done|]. intros s1 s2 s3 H1' H2' n kb Hn. by rewrite (H2' n kb Hn), (H1' n kb Hn). Qed.

Definition may_write (n : string) : Prop := n ∈ manager_tables.

Lemma writes_frames {A E} (op : io Persistent A E) : frames BlockStorage.db may_write op → ∀ s, writes_only s (op s).1.
Proof. intros Hf s n kb Hn. by apply Hf. Qed.

Lemma in_db_frames {A} (op : io DB A StorageError) : frames id may_write op → frames BlockStorage.db may_write (in_db op).
Proof. apply on_db_frames. Qed.

Ltac opened := apply Hopen; unfold shell_families, dbs_families, block_storage_families; set_solver.
Ltac writable := unfold may_write, manager_tables; set_solver.

Lemma operations_meta_frames h m : frames id may_write (OperationsMeta.put h m).
Proof.
  apply frames_err. apply (kv_merge_frames OperationsMetaStorage operations_meta_descriptor) with (f := OperationsMeta.merge_meta_value);
    [opened|done|writable|done].
Qed.
Lemma meta_header_frames b c : frames id may_write (BlockMeta.put_block_header b c).
Proof. apply block_meta_header_frames; [opened|writable]. Qed.

Lemma block_header_frames b : frames BlockStorage.db may_write (BlockStorage.put_block_header b).
Proof.
  intros s n kb Hn. apply (block_storage_frames ltac:(intros d Hd; opened) b s). intros Hb. apply Hn.
  unfold block_tables in Hb. writable.
Qed.

Lemma header_operations_frames b : frames id may_write (process_block_header_operations b).
Proof.
  apply frames_bind; [auto with frames|]. intros [meta|]; [auto with frames|].
  apply frames_both; [apply operations_meta_frames|auto with frames].
Qed.
Lemma injected_operations_frames b : frames id may_write (process_injected_block_header_operations b).
Proof.
  apply frames_bind; [auto with frames|]. intros [meta|]; [auto with frames|].
  apply frames_bind; [|intros []; auto with frames]. apply frames_both; [apply operations_meta_frames|auto with frames].
Qed.

Lemma block_operations_frames m : frames id may_write (process_block_operations m).
Proof.
  apply frames_bind; [auto with frames|]. intros [|]; [auto with frames|]. apply frames_bind.
  - apply frames_err. apply (kv_put_frames OperationsStorage operations_storage_descriptor); [opened|done|writable].
  - intros _. unfold put_operations. apply frames_bind; [auto with frames|]. intros [meta|]; [|auto with frames].
    case_decide; [|auto with frames]. apply frames_both; [apply operations_meta_frames|auto with frames].
Qed.

Lemma mempool_put_frames t operation h : frames id may_write (mempool_put t operation h).
Proof.
  unfold mempool_put. do 2 (apply frames_bind; [auto with frames|intros ?]). apply frames_err.
  apply (kv_put_frames MempoolStorage mempool_descriptor); [opened|done|writable].
Qed.

Lemma header_writes chain_id b s : writes_only s (process_block_header_from_peer chain_id b s).1.
Proof.
  apply writes_frames. apply frames_bind; [apply block_header_frames|intros ?].
  apply frames_bind; [apply in_db_frames, meta_header_frames|intros ?].
  apply frames_bind; [apply in_db_frames, header_operations_frames|intros []; auto with frames].
Qed.
Lemma injected_writes chain_id b s : writes_only s (process_injected_block_header chain_id b s).1.
Proof.
  apply writes_frames. apply frames_bind; [apply block_header_frames|intros ?].
  apply frames_bind; [apply in_db_frames, meta_header_frames|intros ?].
  apply frames_bind; [apply in_db_frames, injected_operations_frames|auto with frames].
Qed.
Lemma injected_operations_writes m s : writes_only s (in_db (process_block_operations m) s).1.
Proof. apply writes_frames, in_db_frames, block_operations_frames. Qed.
Lemma operations_writes m s : writes_only s (in_db (process_block_operations_from_peer m) s).1.
Proof.
  apply writes_frames, in_db_frames. apply frames_bind; [auto with frames|intros complete].
  apply frames_bind; [destruct complete; [auto with frames|]|intros []; auto with frames].
  apply frames_bind; [apply block_operations_frames|intros []; auto with frames].
Qed.
Lemma mempool_writes t operation h s : writes_only s (in_db (mempool_put t operation h) s).1.
Proof. apply writes_frames, in_db_frames, mempool_put_frames. Qed.

Lemma manager_received_writes env message m :
  received_ok cfg writes_only m
    (manager_receive header_hash operation_message_hash iter peer_order cfg env message m).
Proof.
  apply manager_received; auto using header_writes, injected_writes, injected_operations_writes, operations_writes,
    mempool_writes with typeclass_instances.
Qed.

(** ** The system *)

Record System := mkSystem {
  system_manager : ChainManager;
  system_prevalidator : bool;
  system_announced : list HeadEffect
}.

Definition system_shared (s : System) : Shared := manager_shared (system_manager s).
Definition head_manager_of (s : System) : HeadManager :=
  mkHeadManager (system_shared s) (system_prevalidator s) (system_announced s).

(** What other actors may change: their tables and the mempool *)
Definition others_change (sh sh' : Shared) : Prop :=
  (∀ kb, get_cf (db (shared_storage sh')) "chain_meta_storage" kb
         = get_cf (db (shared_storage sh)) "chain_meta_storage" kb) ∧
  local_head sh' = local_head sh ∧ remote_head sh' = remote_head sh ∧ shared_bootstrap sh' = shared_bootstrap sh.

Inductive shell_step : System → System → Prop :=
| shell_message env message s :
    shell_step s (mkSystem (manager_receive header_hash operation_message_hash iter peer_order cfg env message
      (system_manager s)) (system_prevalidator s) (system_announced s))
| shell_block can_start block chain_id s h r :
    block_ok (value_ok := value_ok) block →
    process_applied_block cfg can_start block chain_id (head_manager_of s) = (h, r) →
    shell_step s (mkSystem (with_shared (head_shared h) (system_manager s)) (head_prevalidator h) (head_effects h))
| shell_other sh s :
    others_change (system_shared s) sh →
    shell_step s (mkSystem (with_shared sh (system_manager s)) (system_prevalidator s) (system_announced s)).

(** The last head that was published *)
Definition last_published (es : list HeadEffect) : option Head :=
  last (omap (λ e, match e with PublishNewCurrentHead head _ => Some head | _ => None end) es).

Record system_ok (s : System) : Prop := {
  system_heads : agree (config_chain_id cfg) (heads_of (system_shared s));
  system_published h : last_published (system_announced s) = Some h → local_head (system_shared s) = Some h;
  system_peers id p : manager_peers (system_manager s) !! id = Some p → peer_fine p
}.
Lemma facts_same c db db' f :
  (∀ kb, get_cf db' "chain_meta_storage" kb = get_cf db "chain_meta_storage" kb) → facts c db f → facts c db' f.
Proof.
  intros Hf. pose proof (chain_meta_table ltac:(opened)) as T.
  assert (∀ k, kv_get ChainMetaStorage k db' = kv_get ChainMetaStorage k db) as E.
  { intros k. apply kv_get_ext; [by rewrite !(family_ok ChainMetaStorage)|]. intros kb _. apply Hf. }
  unfold facts, get_current_head, get_caboose, get_genesis, get_test_chain_id, get_head. by rewrite !E.
Qed.

(** The heads still agree if the table of the facts of chains is as before. *)
Lemma agree_same c sh sh' :
  (∀ kb, get_cf (db (shared_storage sh')) "chain_meta_storage" kb
         = get_cf (db (shared_storage sh)) "chain_meta_storage" kb) →
  local_head sh' = local_head sh → agree c (heads_of sh) → agree c (heads_of sh').
Proof.
  intros Hf El (f & Ff & Ef & Hfit). exists f. unfold heads_of in *. cbn in *. rewrite El.
  split; [by eapply facts_same|done].
Qed.

(** What a block does to the shared state *)
Lemma publish_shared e h : head_shared (publish e h) = head_shared h.
Proof. done. Qed.

Lemma reset_shared can_start b h :
  head_shared (reset_mempool cfg can_start b h) = head_shared h ∧
  last_published (head_effects (reset_mempool cfg can_start b h)) = last_published (head_effects h).
Proof.
  unfold reset_mempool, last_published. destruct (p2p_disable_mempool cfg); [done|].
  destruct (head_prevalidator h); [|destruct can_start; [|done]]; cbn; rewrite omap_app; cbn; by rewrite app_nil_r.
Qed.

Lemma advertise_shared c head r h :
  head_shared (advertise c head r h) = head_shared h ∧
  last_published (head_effects (advertise c head r h)) = last_published (head_effects h).
Proof. unfold last_published. destruct r; cbn; [..|done]; rewrite omap_app; cbn; by rewrite app_nil_r. Qed.

Lemma resolve_bootstrapped_keeps head sh sh' b :
  resolve_bootstrapped head sh = (sh', b) →
  heads_of sh' = heads_of sh ∧
  (current_bootstrapped_status (shared_bootstrap sh) = true → current_bootstrapped_status (shared_bootstrap sh') = true).
Proof.
  unfold resolve_bootstrapped. destruct (current_bootstrapped_status (shared_bootstrap sh)) eqn:Eb.
  - intros [= <- <-]. by rewrite Eb.
  - destruct (update_by_new_local_head _ _ _). by intros [= <- <-].
Qed.

(** A block that was applied leaves everything as it is or becomes the head, which is published. *)
Lemma applied_block_cases can_start b c h h' r :
  agree (config_chain_id cfg) (heads_of (head_shared h)) → hash_ok ChainId (config_chain_id cfg) →
  block_ok (value_ok := value_ok) b → process_applied_block cfg can_start b c h = (h', r) →
  r = Ok () ∧ agree (config_chain_id cfg) (heads_of (head_shared h')) ∧
  (current_bootstrapped_status (shared_bootstrap (head_shared h)) = true →
   current_bootstrapped_status (shared_bootstrap (head_shared h')) = true) ∧
  ((local_head (head_shared h') = local_head (head_shared h) ∧ head_effects h' = head_effects h) ∨
   (local_head (head_shared h') = Some (head_of b) ∧ last_published (head_effects h') = Some (head_of b))).
Proof.
  intros Hag Hc Hb E. unfold process_applied_block in E.
  destruct (try_update_cases ltac:(opened) (config_chain_id cfg) (config_genesis cfg) Hc
    (shared_mempool (head_shared h)) b (heads_of (head_shared h)) Hag Hb) as [(head & _ & _ & Et)|(_ & s' & res & Et & Es & Hag')].
  - rewrite Et in E. injection E as <- <-. split_and!; [done|exact Hag|done|by left].
  - rewrite Et in E. cbn [head_shared publish head_prevalidator head_effects] in E.
    destruct (resolve_bootstrapped (head_of b) (with_heads s' (head_shared h))) as [sh bs] eqn:Er.
    apply resolve_bootstrapped_keeps in Er as [Eh Hbs].
    assert (heads_of sh = s') as Eheads by (rewrite Eh; unfold heads_of, with_heads; cbn; by destruct s').
    set (h1 := mkHeadManager sh (head_prevalidator h) (head_effects h ++ [PublishNewCurrentHead (head_of b) b])) in E.
    assert (last_published (head_effects h1) = Some (head_of b)) as Hl
      by (unfold last_published, h1; cbn [head_effects]; rewrite omap_app; apply last_snoc).
    assert (head_shared h' = sh ∧ last_published (head_effects h') = Some (head_of b)) as [-> Hl'].
    { destruct bs; injection E as <- <-; [|done]. destruct (reset_shared can_start b h1) as [R1 R2].
      destruct (advertise_shared c (head_of b) res (reset_mempool cfg can_start b h1)) as [-> ->]. by rewrite R1, R2. }
    assert (r = Ok ()) as -> by (by destruct bs; injection E as _ <-).
    split_and!; [done|by rewrite Eheads|done|]. right. split; [|done].
    change (local_head sh) with (current_head_state (heads_of sh)). by rewrite Eheads.
Qed.

Lemma shell_step_ok s s' :
  hash_ok ChainId (config_chain_id cfg) → system_ok s → shell_step s s' →
  system_ok s' ∧ (current_bootstrapped_status (shared_bootstrap (system_shared s)) = true →
                  current_bootstrapped_status (shared_bootstrap (system_shared s')) = true).
Proof.
  intros Hc [Ha Hp Hf] Hs. destruct Hs as [env message s|can_start block c s h r Hb E|sh s (Hcf & El & Er & Eb)].
  - destruct (manager_received_writes env message (system_manager s)) as [P [B K _] L _]. split; [|exact B].
    unfold system_shared in *. split; cbn [system_manager system_announced].
    + eapply agree_same; [|exact L|exact Ha]. intros kb. apply K. vm_compute. set_solver.
    + intros hd Hl. unfold system_shared. cbn [system_manager]. by rewrite L, (Hp hd Hl).
    + intros id p' Ep. destruct (P id p' Ep) as [Hfine|(p & Ep0 & _ & Hk)]; [done|]. by apply Hk, (Hf id).
  - destruct (applied_block_cases can_start block c (head_manager_of s) h r Ha Hc Hb E) as (_ & Ha' & Hbs & Hcase).
    split; [|exact Hbs]. split; [exact Ha'| |exact Hf]. cbn. intros hd Hl.
    destruct Hcase as [[El Ee]|[El Ee]]; [|by rewrite El, <- Hl, Ee].
    change (local_head (head_shared h) = Some hd). rewrite El. apply Hp. rewrite Ee in Hl. exact Hl.
  - split; [|unfold system_shared; cbn; by rewrite Eb]. split; cbn.
    + by eapply agree_same.
    + intros hd Hl. change (local_head sh = Some hd). rewrite El. by apply Hp.
    + exact Hf.
Qed.

(** The start: no peers, nothing was published, and the head was loaded from the database. *)
Definition system_start (s : System) : Prop :=
  agree (config_chain_id cfg) (heads_of (system_shared s)) ∧ system_announced s = [] ∧
  manager_peers (system_manager s) = ∅.


End System.
