(* ===== verification/ShellWitnesses.v ===== *)
(** * The shell: examples

    The ledger of [FeederWitnesses] with a connected peer: requests that are answered, a block that is injected, and a block
    that becomes the head. *)

From stdpp Require Import gmap.
From S2P Require Import Prelude Hash Kv Blocks OperationsMeta MerklePath Predecessors BlockStorage ChainMeta StorageOps SeededStep Fitness Prevalidator MempoolThread Validation BlockMeta ShellState Requester OperationsStorage ChainState Downloads ChainManager ChainManagerFacts HeadManager HeadManagerFacts FeederWitnesses.
Import ConcreteDb FeederWitnesses.FeederWitnesses.

Module ShellWitnesses.

#[local] Existing Instance BlockStorageWitnesses.list_log.
#[local] Existing Instance BlockStorageWitnesses.location_bincode.
#[local] Existing Instance PredecessorWitnesses.key_bincode.
#[local] Existing Instance ChainMetaWitnesses.value_bincode.
#[local] Existing Instance ChainMetaWitnesses.value_bincode_laws.

#[local] Instance small_timestamps : Timestamps := {| from_timestamp s := Some s |}.
#[local] Instance empty_base58 : Base58Lib := {|
  sha256_hash _ := replicate 32 0; to_base58 _ := ""; from_base58 _ := None
|}.
#[local] Instance operation_bincode : Bincode Operation_t := {|
  bincode_serialize _ := Some []; bincode_deserialize _ := None
|}.

#[local] Instance no_operations_laws : BincodeLaws OperationsForBlocksMessage_t (λ _, False).
Proof. by constructor. Qed.
#[local] Instance operation_bincode_laws : BincodeLaws Operation_t (λ _, False).
Proof. by constructor. Qed.

Lemma shell_open : shell_families ⊆ feeder_families.
Proof.
  intros d. unfold shell_families, feeder_families. rewrite !elem_of_cons, elem_of_app.
  intros [->|[->|Hd]]; [right; left|right; right; left|by left].
Qed.

(** Headers are told apart by their level. *)
Definition level_hash (h : BlockHeader_t) : result bytes string := Ok (replicate 32 (header_level h + 1)).
Definition data_hash (o : Operation_t) : result bytes string := Ok (operation_data o).

Definition config : ManagerConfig := mkManagerConfig ledger_chain (replicate 32 1) [] false.
Definition idle_api : ProtocolController :=
  mkProtocolController (λ _ _, Ok ()) (λ _ _ _, Ok ""%string) (λ _ _, Err (ProtocolError ""))
    (λ _ _, Err (ProtocolError "")).
Definition outside : Environment := mkEnvironment 100 0 (Ok ()) (Ok ()) (Ok idle_api).

Definition ledger_shared : Shared :=
  mkShared ledger None None default_state (synchronization_new 0 false).
Definition receive (message : ManagerMessage) (m : ChainManager) : ChainManager :=
  manager_receive level_hash data_hash elements elements config outside message m.
Definition connected : ChainManager :=
  receive (NetworkChannelMessage (PeerBootstrapped "peer" [] false)) (manager_new ledger_shared).

(** A table to which nothing was written *)
Lemma unwritten_table (n : string) (db : @DB feeder_db) :
  bool_decide (map_Forall (λ k _, k.1 ≠ n) (db : gmap (string * bytes) (option bytes))) = true →
  ∀ kb, get_cf db n kb = Ok None.
Proof.
  intros Hf%bool_decide_eq_true kb. cbn. destruct (_ !! (n, kb)) as [v|] eqn:E; [|done].
  by apply Hf in E.
Qed.

Lemma requests_answered_witness :
  manager_effects (receive (NetworkChannelMessage (PeerMessageReceived "peer"
    (PeerGetBlockHeaders [replicate 32 2; replicate 32 9; replicate 32 1]))) connected)
  = manager_effects connected ++
    [TellPeer "peer" (PeerBlockHeader (header ledger_child)); TellPeer "peer" (PeerBlockHeader (header ledger_genesis))].
Proof.
  destruct (requests_answered level_hash data_hash elements elements config outside "peer" connected
    (blocks ledger_maps) ∅ ∅) as [Hh _].
  - eexists. reflexivity.
  - apply (proj1 (proj1 ledger_stores)).
  - pose proof (operations_table (message_ok := λ _, False) (shell_open _ ltac:(left))).
    apply (table_is_empty OperationsStorage (key_ok := operation_key_ok)). apply unwritten_table. by vm_compute.
  - pose proof (mempool_table (operation_ok := λ _, False) (shell_open _ ltac:(right; left))).
    apply (table_is_empty MempoolStorage (key_ok := mempool_key_ok)). apply unwritten_table. by vm_compute.
  - unfold receive, manager_receive. rewrite Hh by by repeat constructor. reflexivity.
Defined.

(** A child of the genesis without operations *)
Definition injected : InjectBlock :=
  mkInjectBlock ledger_chain
    (mkBlockHeaderWithHash (replicate 32 5) (mkBlockHeader 1 0 (replicate 32 1) 7 0 (replicate 32 1) [] (replicate 32 4) []))
    None None.

(** It is given to the applier; a second time it is refused. *)
Lemma injected_block_answered_witness :
  ∃ m, (process_injected_block injected true connected).1 = m ∧
    manager_effects m = manager_effects connected ++
      [PublishBlockReceived (replicate 32 5) 1; TellApplyBlock ledger_chain (one (replicate 32 5)) true] ∧
    ∃ es1 es2, manager_effects (process_injected_block injected true m).1 = manager_effects m ++ es1 ++ es2 ∧
      Forall published es1 ∧ ∃ reason, es2 = [InjectResult (Err reason)].
Proof.
  eexists. split; [reflexivity|]. split; [by vm_compute|]. set (m := (process_injected_block injected true connected).1).
  pose proof (injected_block_answered injected true m) as Ha. cbv zeta in Ha.
  destruct (process_injected_block injected true m) as [m' r] eqn:E.
  destruct Ha as (es1 & es2 & Ee & Hp & Hend). exists es1, es2. split; [exact Ee|]. split; [exact Hp|].
  destruct Hend as [Hend|(-> & _)]; [exact Hend|]. exfalso.
  assert (existsb (λ e, match e with InjectResult _ => true | _ => false end)
    (drop (length (manager_effects m)) (manager_effects (process_injected_block injected true m).1)) = true) as Hx
    by (vm_compute; reflexivity).
  rewrite E in Hx. cbn [fst] in Hx. rewrite Ee, drop_app_length, existsb_app, orb_true_iff in Hx. cbn in Hx.
  destruct Hx as [Hx|]; [|done]. apply existsb_exists in Hx as (e & Hin & He).
  rewrite Forall_forall in Hp. apply list_elem_of_In in Hin. specialize (Hp e Hin). by destruct e.
Defined.

(** ** The head *)

Definition system0 : System := mkSystem (manager_new ledger_shared) false [].
Definition system1 : System := mkSystem connected false [].
Definition head_of_child : HeadManager * result () StateError :=
  process_applied_block config (Ok ()) ledger_child ledger_chain (head_manager_of system1).
Definition system2 : System :=
  mkSystem (with_shared (head_shared head_of_child.1) connected) (head_prevalidator head_of_child.1)
    (head_effects head_of_child.1).

Lemma ledger_heads : agree ledger_chain (heads_of ledger_shared).
Proof.
  assert (∀ kb, get_cf (db ledger) (cf_name chain_meta_descriptor) kb = Ok None) as Hn
    by (apply unwritten_table; vm_compute; reflexivity).
  exists (mkChainFacts None None None None). split; [|done].
  unfold facts, get_current_head, get_caboose, get_genesis, get_test_chain_id, get_head, kv_get.
  change (heads_db (heads_of ledger_shared)) with (db ledger).
  repeat split; (destruct (encode_key _) as [kb|] eqn:E; [by rewrite Hn|discriminate E]).
Qed.

Lemma system_steps :
  rtc (shell_step level_hash data_hash elements elements config (value_ok := ChainMetaWitnesses.plain)) system0 system2.
Proof.
  apply (rtc_l _ _ system1); [exact (shell_message level_hash data_hash elements elements config outside _ system0)|].
  apply rtc_once. apply (shell_block level_hash data_hash elements elements config (Ok ()) ledger_child ledger_chain system1
    head_of_child.1 head_of_child.2); [split; [done|constructor]|apply surjective_pairing].
Qed.


End ShellWitnesses.
