(* ===== verification/PeerManager.v ===== *)
(** * The peer manager

    [shell/src/peer_manager.rs]: the actor that keeps the number of connected peers between two thresholds, with the
    listener for incoming connections and the tasks that shake hands with other nodes.  They share the map of
    connected peers, the addresses to try and the permits of incoming connections.

    A handler is a function from the state to the state with the messages that were sent; locks that are poisoned are not
    modelled.  What comes from outside is an argument of every handler: the time, the shuffles of the crate
    [rand], the orders of hash maps and the answers of the name service.  How addresses are written is a parameter. *)

From stdpp Require Import gmap pretty.
From S2P Require Import Prelude ChainManager.

(** ** Addresses *)

Inductive IpAddr := V4 (octets : bytes) | V6 (octets : bytes).
#[export] Instance IpAddr_eq_dec : EqDecision IpAddr.
Proof. solve_decision. Defined.
#[export] Instance IpAddr_countable : Countable IpAddr.
Proof.
  apply (inj_countable' (λ a, match a with V4 o => inl o | V6 o => inr o end)
    (λ s, match s with inl o => V4 o | inr o => V6 o end)). by intros [].
Defined.

Record SocketAddr := mkSocketAddr { ip : IpAddr; port : Z }.
#[export] Instance SocketAddr_eq_dec : EqDecision SocketAddr.
Proof. solve_decision. Defined.
#[export] Instance SocketAddr_countable : Countable SocketAddr.
Proof.
  apply (inj_countable' (λ a, (ip a, port a)) (λ '(i, p), mkSocketAddr i p)). by intros [].
Defined.

(** [to_ipv6_mapped] *)
Definition to_ipv6_mapped (octets : bytes) : bytes := replicate 10 0 ++ [255; 255] ++ octets.

(** *** The name service *)

Inductive AddrFamily := Inet | Inet6 | OtherFamily.
#[export] Instance AddrFamily_eq_dec : EqDecision AddrFamily.
Proof. solve_decision. Defined.

Record AddrInfo := mkAddrInfo { info_address : AddrFamily; info_sockaddr : SocketAddr }.

(** [dns_lookup::getaddrinfo] for stream sockets *)
Definition GetAddrInfo : Type := string → Z → result (list (result AddrInfo string)) string.

Definition uniform_address (info : AddrInfo) : SocketAddr :=
  match ip (info_sockaddr info) with
  | V4 octets => mkSocketAddr (V6 (to_ipv6_mapped octets)) (port (info_sockaddr info))
  | V6 _ => info_sockaddr info
  end.

Definition resolve_dns_name_to_peer_address (getaddrinfo : GetAddrInfo) (address : string) (port : Z)
    : result (list SocketAddr) string :=
  let? infos := getaddrinfo address port in
  Ok (uniform_address <$>
    filter (λ info, info_address info = Inet ∨ info_address info = Inet6)
      (omap (λ r, match r with Ok info => Some info | Err _ => None end) infos)).

Definition dns_lookup_peers (getaddrinfo : GetAddrInfo) (bootstrap_addresses : gset (string * Z)) : gset SocketAddr :=
  foldr (λ '(address, port) resolved_peers,
    match resolve_dns_name_to_peer_address getaddrinfo address port with
    | Ok peers => list_to_set peers ∪ resolved_peers
    | Err _ => resolved_peers
    end) ∅ (elements bootstrap_addresses).

(** ** Thresholds *)

Record PeerConnectionThreshold := mkThreshold {
  low : nat;
  high : nat;
  peers_for_bootstrap_threshold : option nat
}.

Definition try_new (low high : nat) (peers_for_bootstrap_threshold : option nat)
    : result PeerConnectionThreshold string :=
  if decide (high < low)%nat then Err "low must be less than or equal to high"%string
  else Ok (mkThreshold low high peers_for_bootstrap_threshold).

Definition num_of_peers_for_bootstrap_threshold (t : PeerConnectionThreshold) : nat :=
  match peers_for_bootstrap_threshold t with
  | Some sync_tresh => sync_tresh
  | None =>
      let expected_connections := (2 * high t / 3)%nat in
      Nat.max 1 (expected_connections / 4)
  end.

(** ** The state that is shared with the tasks *)

Record P2pPeers := mkP2pPeers {
  peers_threshold : PeerConnectionThreshold;
  connected_peers : gmap string SocketAddr;
  incoming_connection_tickets : nat;
  potential_peers : gset SocketAddr
}.

Definition max_incoming_connection_tickets (t : PeerConnectionThreshold) : nat :=
  if decide (high t = 1%nat) then 1%nat else (high t / 2)%nat.

Definition p2p_peers_new (t : PeerConnectionThreshold) : P2pPeers :=
  mkP2pPeers t ∅ (max_incoming_connection_tickets t) ∅.

Definition with_connected c p := mkP2pPeers (peers_threshold p) c (incoming_connection_tickets p) (potential_peers p).
Definition with_tickets n p := mkP2pPeers (peers_threshold p) (connected_peers p) n (potential_peers p).
Definition with_potential c p :=
  mkP2pPeers (peers_threshold p) (connected_peers p) (incoming_connection_tickets p) c.

Definition release_permit (p : P2pPeers) : P2pPeers := with_tickets (S (incoming_connection_tickets p)) p.

Definition add_outgoing_peer (peer : string) (address : SocketAddr) (p : P2pPeers) : P2pPeers :=
  with_connected (<[peer := address]> (connected_peers p)) p.
Definition add_incoming_peer (peer : string) (address : SocketAddr) (p : P2pPeers) : P2pPeers :=
  with_connected (<[peer := address]> (connected_peers p)) p.

Definition try_remove_peer_actor (peer : string) (p : P2pPeers) : P2pPeers * bool :=
  match connected_peers p !! peer with
  | Some peer_address =>
      (with_potential (potential_peers p ∖ {[peer_address]}) (with_connected (delete peer (connected_peers p)) p), true)
  | None => (p, false)
  end.

Definition is_max_connections_exceeded (p : P2pPeers) : bool :=
  bool_decide (high (peers_threshold p) ≤ size (connected_peers p))%nat.

(** A permit that is taken and not needed is given back. *)
Definition try_acquire_incoming_connection_permit (p : P2pPeers) : P2pPeers * bool :=
  match incoming_connection_tickets p with
  | O => (p, false)
  | S n => if is_max_connections_exceeded p then (p, false) else (with_tickets n p, true)
  end.

(** *** Names of actors *)

(** [ACTOR_ID_GENERATOR] is an [AtomicU64]. *)
Definition next_actor_id (actor_id : Z) : Z := (actor_id + 1) mod 2 ^ 64.
Definition peer_actor_name (actor_id : Z) : string := "peer-" +:+ pretty actor_id.

(** The names of actors are ASCII. *)
Definition is_numeric (c : Ascii.ascii) : bool :=
  let n := Ascii.nat_of_ascii c in (48 <=? n)%nat && (n <=? 57)%nat.
Fixpoint strip_prefix (prefix s : string) : option string :=
  match prefix, s with
  | EmptyString, _ => Some s
  | String a prefix, String b s => if decide (a = b) then strip_prefix prefix s else None
  | String _ _, EmptyString => None
  end.
Definition is_peer_actor_name (actor_name : string) : bool :=
  match strip_prefix "peer-" actor_name with
  | Some rest => forallb is_numeric (String.list_ascii_of_string rest)
  | None => false
  end.

(** ** The actor *)

Inductive PeerManagerMsg :=
| MsgCheckPeerCount
| MsgWhitelistAll
| MsgAcceptPeer (address : SocketAddr)
| MsgConnectToPeer (address : SocketAddr)
| MsgLogPeerStats
| MsgAdvertisedPeers (id : list string)
| MsgSendBootstrapPeers (peer : string)
| MsgBootstrapFailed (address : SocketAddr) (potential_peers_to_connect : option (list string))
| MsgBlacklistPeer (peer : string) (address : SocketAddr)
| MsgOtherNetwork
| MsgShuttingDown
| MsgOtherShell
| MsgActorTerminated (actor : string)
| MsgDeadLetter (recipient : string).

(** Messages, and the tasks that are started *)
Inductive PeerManagerEffect :=
| TellMyself (message : PeerManagerMsg)
| SendToPeer (peer : string) (message : PeerMessage_t)
| StopPeerActor (peer : string)
| PublishPeerBlacklisted (peer : string)
| PublishPeerStalled (peer : string)
| SpawnOutgoing (address : SocketAddr)
| SpawnIncoming (address : SocketAddr).

Record PeerManager := mkPeerManager {
  manager_p2p : P2pPeers;
  bootstrap_addresses : gset (string * Z);
  rx_run : bool;
  ip_blacklist : gset IpAddr;
  discovery_last : option Z;
  check_peer_count_last : option Z;
  peers_shutting_down : bool;
  peer_effects : list PeerManagerEffect
}.

(** The configuration that the manager uses *)
Record P2p := mkP2p {
  disable_bootstrap_lookup : bool;
  bootstrap_lookup_addresses : list (string * Z);
  bootstrap_peers : list SocketAddr;
  peer_threshold : PeerConnectionThreshold
}.

Definition DISCOVERY_INTERVAL : Z := 60 * 1000.
Definition CHECK_PEER_COUNT_LIMIT : Z := 5 * 1000.
Definition ADVERTISE_ID_LIST_MAX_LENGTH_FOR_SEND : nat := 50.

Definition with_p2p p m :=
  mkPeerManager p (bootstrap_addresses m) (rx_run m) (ip_blacklist m) (discovery_last m) (check_peer_count_last m)
    (peers_shutting_down m) (peer_effects m).
Definition with_blacklist b m :=
  mkPeerManager (manager_p2p m) (bootstrap_addresses m) (rx_run m) b (discovery_last m) (check_peer_count_last m)
    (peers_shutting_down m) (peer_effects m).
Definition with_discovery t m :=
  mkPeerManager (manager_p2p m) (bootstrap_addresses m) (rx_run m) (ip_blacklist m) t (check_peer_count_last m)
    (peers_shutting_down m) (peer_effects m).
Definition with_check t m :=
  mkPeerManager (manager_p2p m) (bootstrap_addresses m) (rx_run m) (ip_blacklist m) (discovery_last m) t
    (peers_shutting_down m) (peer_effects m).
Definition with_peer_effects es m :=
  mkPeerManager (manager_p2p m) (bootstrap_addresses m) (rx_run m) (ip_blacklist m) (discovery_last m)
    (check_peer_count_last m) (peers_shutting_down m) es.
Definition emit (es : list PeerManagerEffect) m := with_peer_effects (peer_effects m ++ es) m.

(** What a handler finds outside *)
Record PeerEnvironment := mkPeerEnvironment {
  peer_now : Z;
  shuffle_addresses : list SocketAddr → list SocketAddr;
  shuffle_potential : list SocketAddr → list SocketAddr;
  shuffle_peers : list string → list string;
  connected_order : list (string * SocketAddr) → list (string * SocketAddr);
  getaddrinfo : GetAddrInfo
}.

Section PeerManager.
Context (parse_address : string → option SocketAddr) (show_address : SocketAddr → string) (show_ip : IpAddr → string).

(** [create_args] *)
Definition peer_manager_new (p2p_config : P2p) : PeerManager :=
  let addresses := list_to_set ((λ a, (show_ip (ip a), port a)) <$> bootstrap_peers p2p_config) in
  mkPeerManager (p2p_peers_new (peer_threshold p2p_config))
    (if disable_bootstrap_lookup p2p_config then addresses
     else addresses ∪ list_to_set (bootstrap_lookup_addresses p2p_config))
    true ∅ None None false [].

Definition calculate_count_of_required_peers (p : P2pPeers) : nat :=
  let thresh := ((high (peers_threshold p) + 3 * low (peers_threshold p)) / 4)%nat in
  let connected := size (connected_peers p) in
  if decide (thresh < connected)%nat then 0%nat else (thresh - connected)%nat.

Definition is_blacklisted (ip_address : IpAddr) (m : PeerManager) : bool := bool_decide (ip_address ∈ ip_blacklist m).

Definition blacklist_address (address : SocketAddr) (m : PeerManager) : PeerManager :=
  with_blacklist ({[ip address]} ∪ ip_blacklist m) m.

Definition blacklist_peer (peer : string) (address : SocketAddr) (m : PeerManager) : PeerManager :=
  emit [StopPeerActor peer; PublishPeerBlacklisted peer] (blacklist_address address m).

Definition trigger_check_peer_count (env : PeerEnvironment) (m : PeerManager) : PeerManager :=
  if peers_shutting_down m then m
  else
    let should_trigger :=
      match check_peer_count_last m with
      | Some last => bool_decide (peer_now env - last > CHECK_PEER_COUNT_LIMIT)
      | None => true
      end in
    if should_trigger then emit [TellMyself MsgCheckPeerCount] (with_check (Some (peer_now env)) m) else m.

Definition process_new_potential_peers (env : PeerEnvironment) (new_potential_peers : list SocketAddr)
    (m : PeerManager) : PeerManager :=
  let sock_addresses := filter (λ address, is_blacklisted (ip address) m = false) new_potential_peers in
  let num_of_max_potential_peers := (calculate_count_of_required_peers (manager_p2p m) * 10)%nat in
  let addresses_to_connect := shuffle_addresses env (elements (potential_peers (manager_p2p m)) ++ sock_addresses) in
  let addresses_to_connect :=
    if decide (num_of_max_potential_peers < length addresses_to_connect)%nat
    then take num_of_max_potential_peers addresses_to_connect else addresses_to_connect in
  with_p2p (with_potential (list_to_set addresses_to_connect) (manager_p2p m)) m.

Definition discover_peers (env : PeerEnvironment) (m : PeerManager) : PeerManager :=
  let recent := match discovery_last m with
                | Some last => bool_decide (peer_now env - last ≤ DISCOVERY_INTERVAL)
                | None => false
                end in
  if bool_decide (connected_peers (manager_p2p m) = ∅) || negb recent then
    let m := with_discovery (Some (peer_now env)) m in
    process_new_potential_peers env (elements (dns_lookup_peers (getaddrinfo env) (bootstrap_addresses m))) m
  else
    emit ((λ '(peer, _), SendToPeer peer PeerBootstrap) <$> connected_order env (map_to_list (connected_peers (manager_p2p m)))) m.

Definition try_to_connect_to_potential_peers (env : PeerEnvironment) (m : PeerManager) : PeerManager :=
  let num_of_required_peers := calculate_count_of_required_peers (manager_p2p m) in
  let addresses := shuffle_potential env (elements (potential_peers (manager_p2p m))) in
  let chosen := take (Nat.min num_of_required_peers (length addresses)) addresses in
  emit ((λ address, TellMyself (MsgConnectToPeer address)) <$> chosen)
    (with_p2p (with_potential (potential_peers (manager_p2p m) ∖ list_to_set chosen) (manager_p2p m)) m).

Definition check_peer_count (env : PeerEnvironment) (m : PeerManager) : PeerManager :=
  let threshold := peers_threshold (manager_p2p m) in
  let connected_peers_count := size (connected_peers (manager_p2p m)) in
  let m :=
    if decide (connected_peers_count < low threshold)%nat then
      let m := if decide (size (potential_peers (manager_p2p m)) < low threshold)%nat
               then discover_peers env m else m in
      try_to_connect_to_potential_peers env m
    else if decide (high threshold < connected_peers_count)%nat then
      let peers := shuffle_peers env (map_to_list (connected_peers (manager_p2p m))).*1 in
      emit (StopPeerActor <$> take (connected_peers_count - high threshold) peers) m
    else m in
  with_check (Some (peer_now env)) m.

(** *** Messages of the network *)

Definition send_bootstrap_peers (env : PeerEnvironment) (peer : string) (m : PeerManager) : PeerManager :=
  let others :=
    filter (λ '(other, _), other ≠ peer) (connected_order env (map_to_list (connected_peers (manager_p2p m)))) in
  let addresses := take ADVERTISE_ID_LIST_MAX_LENGTH_FOR_SEND others.*2 in
  emit [SendToPeer peer (PeerAdvertise (show_address <$> addresses))] m.

Definition process_failed_bootstrap (env : PeerEnvironment) (address : SocketAddr)
    (potential_peers_to_connect : option (list string)) (m : PeerManager) : PeerManager :=
  match potential_peers_to_connect with
  | Some peers =>
      trigger_check_peer_count env (process_new_potential_peers env (omap parse_address peers) m)
  | None => blacklist_address address m
  end.

(** *** The end of peers *)

Definition receive_dead_letter (recipient : string) (m : PeerManager) : PeerManager :=
  if negb (is_peer_actor_name recipient) then m
  else
    let '(p, was_removed) := try_remove_peer_actor recipient (manager_p2p m) in
    emit [if was_removed then StopPeerActor recipient else PublishPeerStalled recipient] (with_p2p p m).

Definition receive_terminated (env : PeerEnvironment) (actor : string) (m : PeerManager) : PeerManager :=
  if negb (is_peer_actor_name actor) then m
  else
    let '(p, was_removed) := try_remove_peer_actor actor (manager_p2p m) in
    let m := with_p2p p m in
    if was_removed then trigger_check_peer_count env m else m.

(** *** Connections *)

Definition connect_to_peer (address : SocketAddr) (m : PeerManager) : PeerManager :=
  if is_blacklisted (ip address) m then m else emit [SpawnOutgoing address] m.

(** The permit is in the message: it is dropped with it, or goes with the task. *)
Definition accept_peer (address : SocketAddr) (m : PeerManager) : PeerManager :=
  let drop_permit m := with_p2p (release_permit (manager_p2p m)) m in
  if is_blacklisted (ip address) m then drop_permit m
  else if is_max_connections_exceeded (manager_p2p m) then drop_permit m
  else emit [SpawnIncoming address] m.

Definition shut_down (m : PeerManager) : PeerManager :=
  mkPeerManager (manager_p2p m) (bootstrap_addresses m) false (ip_blacklist m) (discovery_last m)
    (check_peer_count_last m) true (peer_effects m).

Definition peer_manager_receive (env : PeerEnvironment) (message : PeerManagerMsg) (m : PeerManager) : PeerManager :=
  match message with
  | MsgCheckPeerCount => if peers_shutting_down m then m else check_peer_count env m
  | MsgWhitelistAll => with_blacklist ∅ m
  | MsgAcceptPeer address => accept_peer address m
  | MsgConnectToPeer address => connect_to_peer address m
  | MsgLogPeerStats => m
  | MsgAdvertisedPeers id => process_new_potential_peers env (omap parse_address id) m
  | MsgSendBootstrapPeers peer => send_bootstrap_peers env peer m
  | MsgBootstrapFailed address potential => process_failed_bootstrap env address potential m
  | MsgBlacklistPeer peer address => blacklist_peer peer address m
  | MsgOtherNetwork | MsgOtherShell => m
  | MsgShuttingDown => shut_down m
  | MsgActorTerminated actor => receive_terminated env actor m
  | MsgDeadLetter recipient => receive_dead_letter recipient m
  end.

(** [post_start] *)
Definition peer_manager_post_start (env : PeerEnvironment) (m : PeerManager) : PeerManager :=
  try_to_connect_to_potential_peers env (discover_peers env m).

(** ** The listener and the tasks *)

(** A connection: the handshake, then an actor that is not yet in the map *)
Inductive Task :=
| Handshaking (incoming : bool) (address : SocketAddr)
| Registering (incoming : bool) (address : SocketAddr) (peer : string).

Inductive PeerFailure := NackWithMotiveReceived (potential_peers_to_connect : list string) | OtherPeerError.

Definition failed_bootstrap_peer (err : PeerFailure) (peer_address : SocketAddr) : PeerManagerMsg :=
  MsgBootstrapFailed peer_address
    (match err with NackWithMotiveReceived potential => Some potential | OtherPeerError => None end).

(** The actor with its mailbox, the tasks, the actors of peers that run, and the generator of names *)
Record PeerSystem := mkPeerSystem {
  system_peers : PeerManager;
  peer_mailbox : list PeerManagerMsg;
  peer_tasks : list Task;
  peer_actors : gset string;
  actor_id_generator : Z
}.

Definition with_peers_manager m s :=
  mkPeerSystem m (peer_mailbox s) (peer_tasks s) (peer_actors s) (actor_id_generator s).
Definition with_peer_mailbox q s :=
  mkPeerSystem (system_peers s) q (peer_tasks s) (peer_actors s) (actor_id_generator s).
Definition with_tasks ts s :=
  mkPeerSystem (system_peers s) (peer_mailbox s) ts (peer_actors s) (actor_id_generator s).

Definition told_myself (e : PeerManagerEffect) : option PeerManagerMsg :=
  match e with TellMyself message => Some message | _ => None end.
Definition spawned (e : PeerManagerEffect) : option Task :=
  match e with
  | SpawnOutgoing address => Some (Handshaking false address)
  | SpawnIncoming address => Some (Handshaking true address)
  | _ => None
  end.

(** What a handler sent and started *)
Definition run_handler (h : PeerManager → PeerManager) (s : PeerSystem) : PeerSystem :=
  let m := h (with_peer_effects [] (system_peers s)) in
  mkPeerSystem m (peer_mailbox s ++ omap told_myself (peer_effects m)) (peer_tasks s ++ omap spawned (peer_effects m))
    (peer_actors s) (actor_id_generator s).

Definition peer_system_start (env : PeerEnvironment) (p2p_config : P2p) : PeerSystem :=
  run_handler (peer_manager_post_start env) (mkPeerSystem (peer_manager_new p2p_config) [] [] ∅ 0).

(** [begin_listen_incoming], for one connection *)
Definition accept_connection (address : SocketAddr) (s : PeerSystem) : PeerSystem :=
  let m := system_peers s in
  if rx_run m then
    let '(p, permit) := try_acquire_incoming_connection_permit (manager_p2p m) in
    let s := with_peers_manager (with_p2p p m) s in
    if permit then with_peer_mailbox (peer_mailbox s ++ [MsgAcceptPeer address]) s else s
  else s.

(** The end of a task, with the permit it may have *)
Definition end_task (incoming : bool) (tasks : list Task) (s : PeerSystem) : PeerSystem :=
  let m := system_peers s in
  with_tasks tasks
    (if incoming then with_peers_manager (with_p2p (release_permit (manager_p2p m)) m) s else s).

Definition handshake_failed (incoming : bool) (address : SocketAddr) (err : PeerFailure) (tasks : list Task)
    (s : PeerSystem) : PeerSystem :=
  end_task incoming tasks (with_peer_mailbox (peer_mailbox s ++ [failed_bootstrap_peer err address]) s).

Definition advance_actor_id (s : PeerSystem) : PeerSystem :=
  mkPeerSystem (system_peers s) (peer_mailbox s) (peer_tasks s) (peer_actors s) (next_actor_id (actor_id_generator s)).

(** [create_peer]: a name is taken, and the actor starts. *)
Definition create_peer (s : PeerSystem) : PeerSystem * string :=
  let peer := peer_actor_name (actor_id_generator s) in
  let s := advance_actor_id s in
  (mkPeerSystem (system_peers s) (peer_mailbox s) (peer_tasks s) ({[peer]} ∪ peer_actors s) (actor_id_generator s), peer).

Definition add_peer (incoming : bool) (address : SocketAddr) (peer : string) (tasks : list Task) (s : PeerSystem)
    : PeerSystem :=
  let m := system_peers s in
  let p := (if incoming then add_incoming_peer else add_outgoing_peer) peer address (manager_p2p m) in
  end_task incoming tasks (with_peers_manager (with_p2p p m) s).

(** Messages that others send: timers, the chain manager, the shell and the runtime.  The runtime publishes the end
    of other actors as well. *)
Definition external (message : PeerManagerMsg) : bool :=
  match message with
  | MsgAcceptPeer _ | MsgConnectToPeer _ => false
  | MsgActorTerminated actor => negb (is_peer_actor_name actor)
  | _ => true
  end.

Definition environment_ok (env : PeerEnvironment) : Prop :=
  (∀ l, shuffle_addresses env l ≡ₚ l) ∧ (∀ l, shuffle_potential env l ≡ₚ l) ∧ (∀ l, shuffle_peers env l ≡ₚ l) ∧
  (∀ l, connected_order env l ≡ₚ l).

(** Steps of the actor, of the listener, of the tasks and of the actors of peers, in any order, as long as less
    than [2 ^ 64] peers were connected *)
Inductive peer_step : PeerSystem → PeerSystem → Prop :=
| step_receive env message rest s :
    environment_ok env → peer_mailbox s = message :: rest →
    peer_step s (run_handler (peer_manager_receive env message) (with_peer_mailbox rest s))
| step_send message s :
    external message = true → peer_step s (with_peer_mailbox (peer_mailbox s ++ [message]) s)
| step_listen address s : peer_step s (accept_connection address s)
| step_not_connected address l1 l2 s :
    peer_tasks s = l1 ++ Handshaking false address :: l2 → peer_step s (end_task false (l1 ++ l2) s)
| step_handshake_failed incoming address err l1 l2 s :
    peer_tasks s = l1 ++ Handshaking incoming address :: l2 →
    peer_step s (handshake_failed incoming address err (l1 ++ l2) s)
| step_not_created incoming address l1 l2 s :
    peer_tasks s = l1 ++ Handshaking incoming address :: l2 →
    actor_id_generator s + 1 < 2 ^ 64 → peer_step s (end_task incoming (l1 ++ l2) (advance_actor_id s))
| step_created incoming address l1 l2 s :
    peer_tasks s = l1 ++ Handshaking incoming address :: l2 → actor_id_generator s + 1 < 2 ^ 64 →
    peer_step s (with_tasks (l1 ++ Registering incoming address (create_peer s).2 :: l2) (create_peer s).1)
| step_added incoming address peer l1 l2 s :
    peer_tasks s = l1 ++ Registering incoming address peer :: l2 →
    peer_step s (add_peer incoming address peer (l1 ++ l2) s)
| step_terminated peer s :
    peer ∈ peer_actors s →
    peer_step s (mkPeerSystem (system_peers s) (peer_mailbox s ++ [MsgActorTerminated peer]) (peer_tasks s)
      (peer_actors s ∖ {[peer]}) (actor_id_generator s)).

End PeerManager.
