(* ===== verification/PeerManagerFacts.v ===== *)
(** * The peer manager: limits and blacklist

    The invariant of the manager with the listener and the tasks, what a check of the number of peers does, and that a
    blacklisted address is not contacted. *)

From stdpp Require Import gmap pretty.
From S2P Require Import Prelude ChainManager PeerManager.

Lemma size_of_list `{Countable A} (l : list A) : (size (list_to_set l : gset A) ≤ length l)%nat.
Proof.
  induction l as [|x l IH]; [done|]. cbn [list_to_set length]. rewrite size_union_alt, size_singleton.
  pose proof (subseteq_size (list_to_set l ∖ {[x]}) (list_to_set l : gset A) ltac:(set_solver)). lia.
Qed.

(** ** Names of actors *)

Lemma strip_prefix_app a b : strip_prefix a (a +:+ b) = Some b.
Proof.
  induction a as [|c a IH]; [done|]. change (String c a +:+ b) with (String c (a +:+ b)). cbn [strip_prefix].
  by destruct (decide (c = c)).
Qed.

Lemma digit_is_numeric x : is_numeric (pretty_N_char x) = true.
Proof. unfold pretty_N_char. by repeat case_match. Qed.

Lemma digits_are_numeric x s :
  forallb is_numeric (String.list_ascii_of_string s) = true →
  forallb is_numeric (String.list_ascii_of_string (pretty_N_go x s)) = true.
Proof.
  revert s. induction (N.lt_wf_0 x) as [x _ IH]. intros s Hs.
  destruct (decide (0 < x)%N) as [Hx|Hx].
  - rewrite pretty_N_go_step by done. apply IH; [by apply N.div_lt|].
    cbn [String.list_ascii_of_string forallb]. by rewrite digit_is_numeric, Hs.
  - replace x with 0%N by lia. by rewrite pretty_N_go_0.
Qed.

Lemma peer_actor_name_ok k : 0 ≤ k → is_peer_actor_name (peer_actor_name k) = true.
Proof.
  intros Hk. unfold is_peer_actor_name, peer_actor_name. rewrite strip_prefix_app.
  destruct k as [|k|k]; [done| |lia]. by apply (digits_are_numeric (Npos k) "").
Qed.

Lemma peer_actor_name_inj k k' : peer_actor_name k = peer_actor_name k' → k = k'.
Proof. intros E%(inj (String.append "peer-")). by apply (inj pretty). Qed.

(** ** Handlers that start no task *)

Definition target (t : PeerConnectionThreshold) : nat := ((high t + 3 * low t) / 4)%nat.

(** Messages to itself that need no permit *)
Definition told_ok (e : PeerManagerEffect) : Prop :=
  match told_myself e with
  | Some (MsgCheckPeerCount | MsgConnectToPeer _) | None => True
  | Some _ => False
  end.

Record quiet (m m' : PeerManager) : Prop := mkQuiet {
  quiet_threshold : peers_threshold (manager_p2p m') = peers_threshold (manager_p2p m);
  quiet_tickets : incoming_connection_tickets (manager_p2p m') = incoming_connection_tickets (manager_p2p m);
  quiet_connected : connected_peers (manager_p2p m') ⊆ connected_peers (manager_p2p m);
  quiet_potential : (size (potential_peers (manager_p2p m')) ≤ size (potential_peers (manager_p2p m)) ∨
    size (potential_peers (manager_p2p m')) ≤ target (peers_threshold (manager_p2p m)) * 10)%nat;
  quiet_blacklist : ip_blacklist m ⊆ ip_blacklist m';
  quiet_effects : ∃ es, peer_effects m' = peer_effects m ++ es ∧ Forall (λ e, spawned e = None ∧ told_ok e) es
}.

#[global] Instance quiet_preorder : PreOrder quiet.
Proof.
  split.
  - intros m. constructor; try done; [by left|]. exists []. by rewrite app_nil_r.
  - intros m1 m2 m3 [T1 K1 C1 P1 B1 (es1 & E1 & F1)] [T2 K2 C2 P2 B2 (es2 & E2 & F2)]. constructor.
    + congruence.
    + congruence.
    + by trans (connected_peers (manager_p2p m2)).
    + rewrite T1 in P2. destruct P1, P2; (left; lia) || (right; lia).
    + by trans (ip_blacklist m2).
    + exists (es1 ++ es2). rewrite E2, E1, app_assoc. split; [done|]. by apply Forall_app.
Qed.

Section Handlers.
Context (parse_address : string → option SocketAddr) (show_address : SocketAddr → string).

Lemma emit_quiet es m : Forall (λ e, spawned e = None ∧ told_ok e) es → quiet m (emit es m).
Proof. intros Hes. constructor; try done; [by left|]. by exists es. Qed.

Lemma potential_quiet (P : gset SocketAddr) m :
  (size P ≤ size (potential_peers (manager_p2p m)) ∨ size P ≤ target (peers_threshold (manager_p2p m)) * 10)%nat →
  quiet m (with_p2p (with_potential P (manager_p2p m)) m).
Proof. intros Hp. constructor; try done. exists []. by rewrite app_nil_r. Qed.

Lemma required_target p : (calculate_count_of_required_peers p ≤ target (peers_threshold p))%nat.
Proof. unfold calculate_count_of_required_peers, target. case_decide; lia. Qed.

Lemma with_discovery_quiet t m : quiet m (with_discovery t m).
Proof. constructor; try done; [by left|]. exists []. by rewrite app_nil_r. Qed.
Lemma with_check_quiet t m : quiet m (with_check t m).
Proof. constructor; try done; [by left|]. exists []. by rewrite app_nil_r. Qed.

Lemma blacklist_address_quiet address m : quiet m (blacklist_address address m).
Proof. constructor; try done; [by left|cbn; set_solver|]. exists []. by rewrite app_nil_r. Qed.

Lemma trigger_quiet env m : quiet m (trigger_check_peer_count env m).
Proof.
  unfold trigger_check_peer_count. destruct (peers_shutting_down m); [done|].
  destruct (match check_peer_count_last m with Some _ => _ | None => _ end); [|done].
  etrans; [apply with_check_quiet|]. apply emit_quiet. by repeat constructor.
Qed.

Lemma process_new_quiet env new m : quiet m (process_new_potential_peers env new m).
Proof.
  unfold process_new_potential_peers. cbv zeta. apply potential_quiet. right.
  pose proof (required_target (manager_p2p m)). etrans; [apply size_of_list|].
  case_decide; [rewrite length_take; lia|]. lia.
Qed.

Lemma discover_quiet env m : quiet m (discover_peers env m).
Proof.
  unfold discover_peers. destruct (_ || _).
  - etrans; [apply with_discovery_quiet|apply process_new_quiet].
  - apply emit_quiet, Forall_fmap, Forall_true. by intros [].
Qed.

Lemma try_to_connect_quiet env m : quiet m (try_to_connect_to_potential_peers env m).
Proof.
  unfold try_to_connect_to_potential_peers. cbv zeta. etrans; [apply potential_quiet|apply emit_quiet, Forall_fmap, Forall_true; by intros].
  left. apply subseteq_size. set_solver.
Qed.

Lemma check_peer_count_quiet env m : quiet m (check_peer_count env m).
Proof.
  unfold check_peer_count. cbv zeta. etrans; [|apply with_check_quiet]. repeat case_decide; try done.
  - etrans; [apply discover_quiet|apply try_to_connect_quiet].
  - apply try_to_connect_quiet.
  - apply emit_quiet, Forall_fmap, Forall_true. by intros.
Qed.

Lemma try_remove_quiet actor m : quiet m (with_p2p (try_remove_peer_actor actor (manager_p2p m)).1 m).
Proof.
  unfold try_remove_peer_actor. destruct (connected_peers (manager_p2p m) !! actor) as [a|].
  - constructor; try done; [apply delete_subseteq|left; apply subseteq_size; cbn; set_solver|].
    exists []. by rewrite app_nil_r.
  - constructor; try done; [by left|]. exists []. by rewrite app_nil_r.
Qed.

(** Only the two messages about connections start tasks or use permits, and only one message clears the blacklist. *)
Definition starts (message : PeerManagerMsg) : bool :=
  match message with MsgAcceptPeer _ | MsgConnectToPeer _ | MsgWhitelistAll => true | _ => false end.

Lemma receive_quiet env message m : starts message = false →
  quiet m (peer_manager_receive parse_address show_address env message m).
Proof.
  intros Hs. destruct message; try done; cbn [peer_manager_receive].
  - destruct (peers_shutting_down m); [done|apply check_peer_count_quiet].
  - apply process_new_quiet.
  - unfold send_bootstrap_peers. apply emit_quiet. by repeat constructor.
  - unfold process_failed_bootstrap. destruct potential_peers_to_connect; [|apply blacklist_address_quiet].
    etrans; [apply process_new_quiet|apply trigger_quiet].
  - unfold blacklist_peer. etrans; [apply blacklist_address_quiet|]. apply emit_quiet. by repeat constructor.
  - constructor; try done; [by left|]. exists []. by rewrite app_nil_r.
  - unfold receive_terminated. destruct (is_peer_actor_name actor); [|done]. cbn [negb].
    pose proof (try_remove_quiet actor m) as Hr. destruct (try_remove_peer_actor actor (manager_p2p m)) as [p []]; [|done].
    etrans; [exact Hr|apply trigger_quiet].
  - unfold receive_dead_letter. destruct (is_peer_actor_name recipient); [|done]. cbn [negb].
    pose proof (try_remove_quiet recipient m) as Hr. destruct (try_remove_peer_actor recipient (manager_p2p m)) as [p r].
    etrans; [exact Hr|]. apply emit_quiet. destruct r; by repeat constructor.
Qed.

(** ** The invariant of the system *)

Definition message_permit (message : PeerManagerMsg) : nat :=
  match message with MsgAcceptPeer _ => 1 | _ => 0 end.
Definition task_permit (t : Task) : nat :=
  match t with Handshaking true _ | Registering true _ _ => 1 | _ => 0 end.

(** The permits in messages and tasks *)
Definition permits_in_use (s : PeerSystem) : nat :=
  (sum_list_with message_permit (peer_mailbox s) + sum_list_with task_permit (peer_tasks s))%nat.

Definition registering (t : Task) : option string :=
  match t with Registering _ _ peer => Some peer | _ => None end.

Definition generated (s : PeerSystem) (peer : string) : Prop :=
  ∃ k, 0 ≤ k < actor_id_generator s ∧ peer = peer_actor_name k.

Record peers_ok (t : PeerConnectionThreshold) (s : PeerSystem) : Prop := mkPeersOk {
  ok_threshold : peers_threshold (manager_p2p (system_peers s)) = t;
  ok_permits : (incoming_connection_tickets (manager_p2p (system_peers s)) + permits_in_use s
    = max_incoming_connection_tickets t)%nat;
  ok_potential : (size (potential_peers (manager_p2p (system_peers s))) ≤ target t * 10)%nat;
  ok_generator : 0 ≤ actor_id_generator s < 2 ^ 64;
  ok_connected : ∀ peer, is_Some (connected_peers (manager_p2p (system_peers s)) !! peer) → generated s peer;
  ok_registering : Forall (generated s) (omap registering (peer_tasks s));
  ok_distinct : NoDup (omap registering (peer_tasks s));
  ok_fresh : Forall (λ peer, connected_peers (manager_p2p (system_peers s)) !! peer = None)
    (omap registering (peer_tasks s));
  ok_actors : ∀ peer, peer ∈ peer_actors s → generated s peer
}.

Lemma quiet_no_permits es :
  Forall (λ e, spawned e = None ∧ told_ok e) es →
  omap spawned es = [] ∧ sum_list_with message_permit (omap told_myself es) = 0%nat.
Proof.
  induction 1 as [|e es [Hs Ht] _ [IH1 IH2]]; [done|]. cbn [omap list_omap]. rewrite Hs, IH1. split; [done|].
  unfold told_ok in Ht. destruct (told_myself e) as [[]|]; try done; cbn; by rewrite IH2.
Qed.

(** A handler that starts no task *)
Lemma run_quiet_ok t h s :
  (∀ m, quiet m (h m)) → peers_ok t s → peers_ok t (run_handler h s).
Proof.
  intros Hh [T K P G C R D F A]. unfold run_handler.
  destruct (Hh (with_peer_effects [] (system_peers s))) as [T' K' C' P' _ (es & E & Hes)].
  cbn [with_peer_effects peer_effects app] in E. rewrite E. destruct (quiet_no_permits es Hes) as [E1 E2].
  rewrite E1, app_nil_r. cbn [manager_p2p with_peer_effects] in *.
  constructor; cbn [system_peers peer_tasks peer_actors actor_id_generator] in *; try done.
  - by rewrite T'.
  - rewrite K'. unfold permits_in_use in *. cbn [peer_mailbox peer_tasks]. rewrite sum_list_with_app, E2. lia.
  - rewrite T in P'. lia.
  - intros peer [a Ha]. apply C. exists a. by eapply lookup_weaken.
  - eapply Forall_impl; [exact F|]. intros peer Hn. cbn beta in *. by eapply lookup_weaken_None.
Qed.

Lemma start_ok (show_ip : IpAddr → string) env cfg : peers_ok (peer_threshold cfg) (peer_system_start show_ip env cfg).
Proof.
  apply run_quiet_ok; [intros m; etrans; [apply discover_quiet|apply try_to_connect_quiet]|].
  constructor; try done; try (by constructor); try apply Nat.add_0_r.
  - cbn. rewrite size_empty. apply Nat.le_0_l.
  - intros peer [a Ha]. cbn in Ha. by rewrite lookup_empty in Ha.
Qed.

(** A message is taken from the mailbox, or put into it. *)
Lemma mailbox_ok t q s :
  sum_list_with message_permit q = sum_list_with message_permit (peer_mailbox s) →
  peers_ok t s → peers_ok t (with_peer_mailbox q s).
Proof.
  intros Eq [T K P G C R D F A]. constructor; try done. unfold permits_in_use in *. cbn. rewrite Eq. exact K.
Qed.

Lemma connect_ok t address s : peers_ok t s → peers_ok t (run_handler (connect_to_peer address) s).
Proof.
  intros Hok. unfold run_handler, connect_to_peer. destruct (is_blacklisted _ _); cbn;
    rewrite ?app_nil_r; destruct Hok as [T K P G C R D F A]; [done|].
  constructor; cbn; rewrite ?omap_app; cbn; rewrite ?app_nil_r; try done.
  unfold permits_in_use in *. cbn. rewrite sum_list_with_app. cbn. lia.
Qed.

(** The permit of an accepted connection goes to the task, or is given back. *)
Lemma accept_ok t address rest s :
  peer_mailbox s = MsgAcceptPeer address :: rest → peers_ok t s →
  peers_ok t (run_handler (accept_peer address) (with_peer_mailbox rest s)).
Proof.
  intros Em [T K P G C R D F A]. unfold permits_in_use in K. rewrite Em in K. cbn in K.
  unfold run_handler, accept_peer.
  destruct (is_blacklisted _ _); [|destruct (is_max_connections_exceeded _)];
    cbn; rewrite ?app_nil_r; constructor; cbn; rewrite ?omap_app; cbn; rewrite ?app_nil_r; try done;
    unfold permits_in_use; cbn; rewrite ?sum_list_with_app; cbn; lia.
Qed.

Lemma peer_receive_ok t env message rest s :
  peer_mailbox s = message :: rest → peers_ok t s →
  peers_ok t (run_handler (peer_manager_receive parse_address show_address env message) (with_peer_mailbox rest s)).
Proof.
  intros Em Hok. destruct (starts message) eqn:Es.
  - destruct message; try done.
    + cbn [peer_manager_receive].
      destruct (mailbox_ok t rest s ltac:(by rewrite Em) Hok) as [T K P G C R D F A].
      unfold run_handler. cbn. rewrite !app_nil_r. by constructor.
    + by apply accept_ok.
    + apply connect_ok, mailbox_ok; [by rewrite Em|done].
  - apply run_quiet_ok; [intros m; by apply receive_quiet|]. apply mailbox_ok; [|done].
    rewrite Em. by destruct message.
Qed.

Lemma listen_ok t address s : peers_ok t s → peers_ok t (accept_connection address s).
Proof.
  intros [T K P G C R D F A]. unfold accept_connection, try_acquire_incoming_connection_permit.
  destruct (rx_run (system_peers s)); [|done].
  destruct (incoming_connection_tickets _) as [|n] eqn:En; [constructor; cbn; try done; by rewrite En|].
  destruct (is_max_connections_exceeded _); [constructor; cbn; try done; by rewrite En|].
  constructor; try done. unfold permits_in_use in *. cbn. rewrite sum_list_with_app. cbn. lia.
Qed.

(** The end of a task that registers nothing *)
Lemma end_task_ok t (incoming : bool) task l1 l2 s :
  peer_tasks s = l1 ++ task :: l2 → task_permit task = (if incoming then 1%nat else 0%nat) → registering task = None →
  peers_ok t s → peers_ok t (end_task incoming (l1 ++ l2) s).
Proof.
  intros Et Ep Er [T K P G C R D F A]. rewrite Et, omap_app in R, D, F. cbn in R, D, F. rewrite Er in R, D, F.
  unfold permits_in_use in K. rewrite Et, sum_list_with_app in K. cbn in K. rewrite Ep in K.
  unfold end_task. constructor; destruct incoming; cbn; rewrite ?omap_app; try done;
    unfold permits_in_use; cbn; rewrite sum_list_with_app; lia.
Qed.

Lemma generated_later s peer : generated s peer → generated (advance_actor_id s) peer ∨ 2 ^ 64 ≤ actor_id_generator s + 1.
Proof.
  intros (k & Hk & ->). destruct (decide (actor_id_generator s + 1 < 2 ^ 64)) as [Hg|]; [left|right; lia].
  exists k. unfold advance_actor_id, next_actor_id. cbn [actor_id_generator]. rewrite Z.mod_small by lia. split; [lia|done].
Qed.

Lemma advance_ok t s : actor_id_generator s + 1 < 2 ^ 64 → peers_ok t s → peers_ok t (advance_actor_id s).
Proof.
  intros Hg [T K P G C R D F A].
  assert (∀ peer, generated s peer → generated (advance_actor_id s) peer) as Hl
    by (intros peer Hp; destruct (generated_later s peer Hp); [done|lia]).
  constructor; cbn -[Z.pow] in *; try done.
  - unfold next_actor_id. rewrite Z.mod_small by lia. lia.
  - intros peer Hp. by apply Hl, C.
  - eapply Forall_impl; [exact R|]. exact Hl.
  - intros peer Hp. by apply Hl, A.
Qed.

(** The new name was never used. *)
Lemma created_ok t incoming address l1 l2 s :
  peer_tasks s = l1 ++ Handshaking incoming address :: l2 → actor_id_generator s + 1 < 2 ^ 64 → peers_ok t s →
  peers_ok t (with_tasks (l1 ++ Registering incoming address (create_peer s).2 :: l2) (create_peer s).1).
Proof.
  intros Et Hg Hok. pose proof (advance_ok t s Hg Hok) as [T K P G C R D F A].
  assert (generated (advance_actor_id s) (peer_actor_name (actor_id_generator s))) as Hnew.
  { exists (actor_id_generator s). pose proof (ok_generator t s Hok).
    unfold advance_actor_id, next_actor_id. cbn [actor_id_generator]. rewrite Z.mod_small by lia. split; [lia|done]. }
  assert (¬ generated s (peer_actor_name (actor_id_generator s))) as Hold
    by (intros (k & Hk & E%peer_actor_name_inj); lia).
  cbn [peer_tasks advance_actor_id] in R, D, F. rewrite Et, omap_app in R, D, F. cbn in R, D, F.
  pose proof (ok_registering t s Hok) as R0. rewrite Et, omap_app in R0. cbn in R0.
  constructor; cbn -[Z.pow generated] in *; try done; rewrite ?omap_app; cbn -[generated].
  - unfold permits_in_use in *. cbn in *. rewrite Et, sum_list_with_app in K. rewrite sum_list_with_app. cbn in *. lia.
  - apply Forall_app in R as [R1 R2]. apply Forall_app. split; [done|]. by constructor.
  - rewrite <- Permutation_middle. constructor; [|done]. intros Hin. by apply Hold, (proj1 (Forall_forall _ _) R0).
  - apply Forall_app in F as [F1 F2]. apply Forall_app. split; [done|]. constructor; [|done].
    apply eq_None_not_Some. intros Hs. by apply Hold, (ok_connected t s Hok).
  - intros peer [->%elem_of_singleton|Hp]%elem_of_union; [done|]. by apply A.
Qed.

(** A peer that is added is not in the map yet. *)
Lemma added_ok t incoming address peer l1 l2 s :
  peer_tasks s = l1 ++ Registering incoming address peer :: l2 → peers_ok t s →
  connected_peers (manager_p2p (system_peers s)) !! peer = None ∧
  peers_ok t (add_peer incoming address peer (l1 ++ l2) s).
Proof.
  intros Et [T K P G C R D F A]. rewrite Et, omap_app in R, D, F. cbn in R, D, F.
  apply Forall_app in R as [R1 [Rp R2]%Forall_cons], F as [F1 [Fp F2]%Forall_cons].
  rewrite <- Permutation_middle in D. apply NoDup_cons in D as [Dn D].
  split; [done|]. unfold permits_in_use in K. rewrite Et, sum_list_with_app in K. cbn in K.
  assert (∀ p, is_Some (<[peer := address]> (connected_peers (manager_p2p (system_peers s))) !! p) → generated s p) as C'.
  { intros p Hp. destruct (decide (p = peer)) as [->|Hne]; [done|]. rewrite lookup_insert_ne in Hp by done. by apply C. }
  assert (Forall (λ p, <[peer := address]> (connected_peers (manager_p2p (system_peers s))) !! p = None)
    (omap registering l1 ++ omap registering l2)) as F'.
  { apply Forall_forall. intros p Hp. rewrite lookup_insert_ne by (intros ->; done).
    assert (Forall (λ p, connected_peers (manager_p2p (system_peers s)) !! p = None)
      (omap registering l1 ++ omap registering l2)) as Fa by by apply Forall_app.
    by apply (proj1 (Forall_forall _ _) Fa). }
  unfold add_peer, end_task. constructor; destruct incoming; cbn -[generated]; rewrite ?omap_app; try done;
    try (by apply Forall_app); unfold permits_in_use; cbn; rewrite sum_list_with_app; lia.
Qed.

Lemma peer_step_ok t s s' :
  peers_ok t s → peer_step parse_address show_address s s' → peers_ok t s'.
Proof.
  intros Hok Hs. destruct Hs as [env message rest s _ Em|message s He|address s|address l1 l2 s Et
    |incoming address err l1 l2 s Et|incoming address l1 l2 s Et Hg|incoming address l1 l2 s Et Hg
    |incoming address peer l1 l2 s Et|peer s Hp].
  - by apply peer_receive_ok.
  - apply mailbox_ok; [|done]. rewrite sum_list_with_app. destruct message; try done; cbn; lia.
  - by apply listen_ok.
  - by apply (end_task_ok t false (Handshaking false address)).
  - apply (end_task_ok t incoming (Handshaking incoming address)); [done|by destruct incoming|done|].
    apply mailbox_ok; [|done]. rewrite sum_list_with_app. destruct err; cbn; lia.
  - apply (end_task_ok t incoming (Handshaking incoming address)); [done|by destruct incoming|done|]. by apply advance_ok.
  - by apply created_ok.
  - by apply added_ok.
  - destruct Hok as [T K P G C R D F A]. constructor; try done.
    + unfold permits_in_use in *. cbn. rewrite sum_list_with_app. cbn. lia.
    + intros p Hp'. apply A. cbn in Hp'. set_solver.
Qed.

(** C14: for all interleavings of the actor, the listener, the handshakes and the ends of peers: every permit of the
    semaphore is either free, or in exactly one accepted connection that waits for the actor or shakes hands;
    at most ten addresses are kept for each peer that is aimed at; every connected peer has a name by which its end is
    recognized; and a peer that is added never replaces another one. *)
Theorem peer_limits (show_ip : IpAddr → string) env cfg s :
  rtc (peer_step parse_address show_address) (peer_system_start show_ip env cfg) s →
  let p := manager_p2p (system_peers s) in let t := peer_threshold cfg in
  (incoming_connection_tickets p + permits_in_use s = max_incoming_connection_tickets t ∧
   size (potential_peers p) ≤ (high t + 3 * low t) / 4 * 10)%nat ∧
  (∀ peer, is_Some (connected_peers p !! peer) → is_peer_actor_name peer = true) ∧
  (∀ incoming address peer, Registering incoming address peer ∈ peer_tasks s → connected_peers p !! peer = None).
Proof.
  intros Hs. cbv zeta. assert (peers_ok (peer_threshold cfg) s) as [T K P G C R D F A].
  { revert s Hs. apply rtc_ind_r; [apply start_ok|]. intros s1 s2 _ H12 IH. by eapply peer_step_ok. }
  split_and!; [done|done| |].
  - intros peer Hp. destruct (C peer Hp) as (k & Hk & ->). apply peer_actor_name_ok. lia.
  - intros incoming address peer Hin. rewrite Forall_forall in F. apply F, list_elem_of_omap. by eexists.
Qed.

End Handlers.

(** ** The number of peers *)

Lemma shuffled_take {A} (f : list A → list A) n l :
  (∀ l, f l ≡ₚ l) → NoDup l → NoDup (take n (f l)) ∧ take n (f l) ⊆ l ∧ length (take n (f l)) = Nat.min n (length l).
Proof.
  intros Hf Hl. split_and!.
  - apply (sublist_NoDup _ (f l)); [by rewrite Hf|]. apply sublist_take.
  - intros x (i & Hi & _)%elem_of_take. rewrite <- (Hf l). by eapply list_elem_of_lookup_2.
  - by rewrite length_take, (Permutation_length (Hf l)).
Qed.

(** Where an address to try can come from *)
Definition learnt (env : PeerEnvironment) (m : PeerManager) (a : SocketAddr) : Prop :=
  a ∈ potential_peers (manager_p2p m) ∨
  a ∈ dns_lookup_peers (getaddrinfo env) (bootstrap_addresses m) ∧ ip a ∉ ip_blacklist m.

Lemma process_new_learnt env new m a :
  environment_ok env → a ∈ potential_peers (manager_p2p (process_new_potential_peers env new m)) →
  a ∈ potential_peers (manager_p2p m) ∨ a ∈ new ∧ ip a ∉ ip_blacklist m.
Proof.
  intros (Hf & _). unfold process_new_potential_peers. cbn. rewrite elem_of_list_to_set. intros Ha.
  assert (a ∈ shuffle_addresses env (elements (potential_peers (manager_p2p m)) ++
    filter (λ address, is_blacklisted (ip address) m = false) new)) as Hin.
  { destruct (decide _) in Ha; [|done]. apply elem_of_take in Ha as (i & Hi & _). by eapply list_elem_of_lookup_2. }
  rewrite Hf, elem_of_app, elem_of_elements, list_elem_of_filter in Hin. destruct Hin as [Hin|[Hb Hin]]; [by left|right].
  split; [done|]. by apply bool_decide_eq_false in Hb.
Qed.

Lemma discover_spec env m :
  environment_ok env → let m' := discover_peers env m in
  connected_peers (manager_p2p m') = connected_peers (manager_p2p m) ∧
  peers_threshold (manager_p2p m') = peers_threshold (manager_p2p m) ∧
  (∀ a, a ∈ potential_peers (manager_p2p m') → learnt env m a) ∧
  ∃ asked, peer_effects m' = peer_effects m ++ asked ∧
    Forall (λ e, ∃ peer, e = SendToPeer peer PeerBootstrap ∧ is_Some (connected_peers (manager_p2p m) !! peer)) asked.
Proof.
  intros Henv. cbv zeta. unfold discover_peers. destruct (_ || _).
  - split_and!; [done|done| |exists []; by rewrite app_nil_r].
    intros a [Ha|[Ha Hb]]%process_new_learnt; [by left| |done]. right. split; [|done]. by apply elem_of_elements in Ha.
  - split_and!; [done|done|by left|]. eexists. split; [done|]. apply Forall_fmap, Forall_forall.
    intros [peer a] Hin. destruct Henv as (_ & _ & _ & Ho). rewrite Ho, elem_of_map_to_list in Hin. by eexists.
Qed.

Lemma try_to_connect_spec env m :
  environment_ok env → let m' := try_to_connect_to_potential_peers env m in
  connected_peers (manager_p2p m') = connected_peers (manager_p2p m) ∧
  ∃ chosen, peer_effects m' = peer_effects m ++ ((λ a, TellMyself (MsgConnectToPeer a)) <$> chosen) ∧ NoDup chosen ∧
    potential_peers (manager_p2p m) = list_to_set chosen ∪ potential_peers (manager_p2p m') ∧
    (∀ a, a ∈ chosen → a ∉ potential_peers (manager_p2p m')) ∧
    length chosen = Nat.min (calculate_count_of_required_peers (manager_p2p m)) (size (potential_peers (manager_p2p m))).
Proof.
  intros (_ & Hf & _). cbv zeta. split; [done|]. unfold try_to_connect_to_potential_peers. cbv zeta.
  set (P := potential_peers (manager_p2p m)). set (n := calculate_count_of_required_peers (manager_p2p m)).
  destruct (shuffled_take _ (Nat.min n (length (shuffle_potential env (elements P)))) (elements P) Hf (NoDup_elements P)) as (Hd & Hsub & Hlen).
  eexists. split; [done|]. split; [exact Hd|]. cbn. fold P.
  rewrite (Permutation_length (Hf _)) in Hlen. change (length (elements P)) with (size P) in Hlen.
  split_and!; [|set_solver|rewrite (Permutation_length (Hf (elements P))); change (length (elements P)) with (size P); rewrite Hlen; lia].
  apply leibniz_equiv. intros a. rewrite elem_of_union, elem_of_difference, !elem_of_list_to_set.
  destruct (decide (a ∈ take (Nat.min n (length (shuffle_potential env (elements P)))) (shuffle_potential env (elements P))))
    as [Ha|Ha]; [|tauto].
  pose proof (Hsub a Ha) as Hp%elem_of_elements. tauto.
Qed.

(** Peers that end one after the other leave the map. *)
Lemma trigger_p2p env m : manager_p2p (trigger_check_peer_count env m) = manager_p2p m.
Proof. unfold trigger_check_peer_count. destruct (peers_shutting_down m); [done|]. by destruct (match check_peer_count_last m with Some _ => _ | None => _ end). Qed.

Lemma terminated_peers env peers m :
  NoDup peers → Forall (λ peer, is_Some (connected_peers (manager_p2p m) !! peer) ∧ is_peer_actor_name peer = true) peers →
  (size (connected_peers (manager_p2p (foldl (λ m peer, receive_terminated env peer m) m peers))) + length peers
   = size (connected_peers (manager_p2p m)))%nat.
Proof.
  revert m. induction peers as [|peer peers IH]; intros m Hd Hp; [cbn; lia|].
  apply NoDup_cons in Hd as [Hn Hd]. apply Forall_cons in Hp as [[[a Ha] Hname] Hp]. cbn [foldl length].
  assert (connected_peers (manager_p2p (receive_terminated env peer m)) = delete peer (connected_peers (manager_p2p m))) as E.
  { unfold receive_terminated, try_remove_peer_actor. rewrite Hname, Ha. cbn [negb]. by rewrite trigger_p2p. }
  pose proof (IH (receive_terminated env peer m) Hd) as IH'. rewrite E in IH'.
  rewrite map_size_delete_Some in IH' by done.
  assert (size (connected_peers (manager_p2p m)) ≠ 0%nat) by (apply (map_size_ne_0_lookup_2 _ peer); by exists a).
  enough (size (connected_peers (manager_p2p (foldl (λ m peer, receive_terminated env peer m) (receive_terminated env peer m) peers)))
    + length peers = Nat.pred (size (connected_peers (manager_p2p m))))%nat by lia.
  apply IH'. apply Forall_forall. intros q Hq. rewrite Forall_forall in Hp.
  rewrite lookup_delete_ne by (intros ->; done). by apply Hp.
Qed.

(** Too few peers: [m1] is the state after a discovery, if there was one. *)
Lemma too_few_peers env m :
  environment_ok env →
  let p := manager_p2p m in let t := peers_threshold p in let n := size (connected_peers p) in
  let m' := try_to_connect_to_potential_peers env
    (if decide (size (potential_peers p) < low t)%nat then discover_peers env m else m) in
  connected_peers (manager_p2p m') = connected_peers p ∧ ∃ asked chosen,
    peer_effects m' = peer_effects m ++ asked ++ ((λ a, TellMyself (MsgConnectToPeer a)) <$> chosen) ∧ NoDup chosen ∧
    Forall (λ e, ∃ peer, e = SendToPeer peer PeerBootstrap ∧ is_Some (connected_peers p !! peer)) asked ∧
    (∀ a, a ∈ chosen → learnt env m a ∧ a ∉ potential_peers (manager_p2p m')) ∧
    length chosen = Nat.min (target t - n) (length chosen + size (potential_peers (manager_p2p m'))).
Proof.
  intros Henv. cbv zeta. set (m1 := if decide _ then discover_peers env m else m).
  assert (connected_peers (manager_p2p m1) = connected_peers (manager_p2p m) ∧
    peers_threshold (manager_p2p m1) = peers_threshold (manager_p2p m) ∧
    (∀ a, a ∈ potential_peers (manager_p2p m1) → learnt env m a) ∧
    ∃ asked, peer_effects m1 = peer_effects m ++ asked ∧
      Forall (λ e, ∃ peer, e = SendToPeer peer PeerBootstrap ∧ is_Some (connected_peers (manager_p2p m) !! peer)) asked)
    as (Ec & Et & Hl & asked & Ea & Ha).
  { subst m1. case_decide; [by apply discover_spec|]. split_and!; [done|done|by left|exists []; by rewrite app_nil_r]. }
  destruct (try_to_connect_spec env m1 Henv) as (Ec' & chosen & Ee & Hd & Hp & Hn & Hlen).
  split; [congruence|]. exists asked, chosen. split_and!; [by rewrite Ee, Ea, app_assoc|done|done| |].
  - intros a Hin. split; [apply Hl; rewrite Hp; set_solver|by apply Hn].
  - assert (size (potential_peers (manager_p2p m1)) =
      length chosen + size (potential_peers (manager_p2p (try_to_connect_to_potential_peers env m1))))%nat as Es
      by (rewrite Hp at 1; rewrite size_union, size_list_to_set by (done || set_solver); done).
    rewrite Hlen, <- Es at 1. unfold calculate_count_of_required_peers, target. rewrite Et, Ec. case_decide; lia.
Qed.

(** Too many peers *)
Lemma too_many_peers env m excess :
  environment_ok env → let c := connected_peers (manager_p2p m) in let peers := take excess (shuffle_peers env (map_to_list c).*1) in
  (excess ≤ size c)%nat →
  NoDup peers ∧ length peers = excess ∧ (∀ peer, peer ∈ peers → is_Some (c !! peer)) ∧
  ((∀ peer, is_Some (c !! peer) → is_peer_actor_name peer = true) → ∀ env' m', manager_p2p m' = manager_p2p m →
    (size (connected_peers (manager_p2p (foldl (λ m peer, receive_terminated env' peer m) m' peers))) + excess = size c)%nat).
Proof.
  intros (_ & _ & Hf & _). cbv zeta. set (c := connected_peers (manager_p2p m)). intros Hle.
  destruct (shuffled_take (shuffle_peers env) excess (map_to_list c).*1 Hf (NoDup_fst_map_to_list _)) as (Hd & Hsub & Hlen).
  rewrite length_fmap, length_map_to_list, Nat.min_l in Hlen by done.
  assert (∀ peer, peer ∈ take excess (shuffle_peers env (map_to_list c).*1) → is_Some (c !! peer)) as Hin.
  { intros peer ([q a] & -> & Hq)%Hsub%list_elem_of_fmap. apply elem_of_map_to_list in Hq. by exists a. }
  split_and!; [done|done|done|]. intros Hnames env' m' Em.
  pose proof (terminated_peers env' _ m' Hd) as Ht. rewrite Hlen, Em in Ht. apply Ht, Forall_forall.
  intros peer Hp. split; [by apply Hin|]. by apply Hnames, Hin.
Qed.

(** C16: a check of the number of peers does exactly what is needed.  Between the thresholds it does nothing.  Above, it stops as
    many distinct peers as there are too many, and when they have ended, the upper threshold is reached.  Below, it tries
    distinct addresses until the peers that are aimed at would be connected or no address is left; each of them was kept
    or comes from the name service and is not blacklisted, and connected peers are at most asked for more addresses. *)
Theorem peer_count_checked env m :
  environment_ok env →
  let p := manager_p2p m in let t := peers_threshold p in let n := size (connected_peers p) in
  let m' := check_peer_count env m in let p' := manager_p2p m' in
  connected_peers p' = connected_peers p ∧ ∃ es, peer_effects m' = peer_effects m ++ es ∧
  ((low t ≤ n ≤ high t)%nat → es = [] ∧ p' = p) ∧
  ((low t ≤ n)%nat → (high t < n)%nat → p' = p ∧ ∃ peers, es = StopPeerActor <$> peers ∧ NoDup peers ∧
     length peers = (n - high t)%nat ∧ (∀ peer, peer ∈ peers → is_Some (connected_peers p !! peer)) ∧
     ((∀ peer, is_Some (connected_peers p !! peer) → is_peer_actor_name peer = true) → ∀ env',
        size (connected_peers (manager_p2p (foldl (λ m peer, receive_terminated env' peer m) m' peers))) = high t)) ∧
  ((n < low t)%nat → ∃ asked chosen, es = asked ++ ((λ a, TellMyself (MsgConnectToPeer a)) <$> chosen) ∧ NoDup chosen ∧
     Forall (λ e, ∃ peer, e = SendToPeer peer PeerBootstrap ∧ is_Some (connected_peers p !! peer)) asked ∧
     (∀ a, a ∈ chosen → learnt env m a ∧ a ∉ potential_peers p') ∧
     length chosen = Nat.min (target t - n) (length chosen + size (potential_peers p'))).
Proof.
  intros Henv. cbv zeta. unfold check_peer_count. cbv zeta.
  set (n := size (connected_peers (manager_p2p m))). set (t := peers_threshold (manager_p2p m)).
  destruct (decide (n < low t)%nat) as [Hlow|Hlow]; [|destruct (decide (high t < n)%nat) as [Hhigh|Hhigh]].
  - destruct (too_few_peers env m Henv) as (Ec & asked & chosen & Ee & Hd & Ha & Hl & Hlen).
    split; [exact Ec|]. eexists. split; [exact Ee|]. split; [lia|]. split; [lia|]. intros _. by exists asked, chosen.
  - destruct (too_many_peers env m (n - high t) Henv ltac:(lia)) as (Hd & Hlen & Hin & Hend).
    split; [done|]. eexists. split; [done|]. split; [lia|]. split; [|lia]. intros _ _. split; [done|]. eexists. split; [done|].
    split_and!; [exact Hd|exact Hlen|exact Hin|]. intros Hnames env'.
    specialize (Hend Hnames env' (with_check (Some (peer_now env))
      (emit (StopPeerActor <$> take (n - high t) (shuffle_peers env (map_to_list (connected_peers (manager_p2p m))).*1)) m)) eq_refl).
    fold n in Hend. lia.
  - split; [done|]. exists []. rewrite app_nil_r. split_and!; [done|done|lia|lia].
Qed.

(** ** The blacklist *)

Section Blacklist.
Context (parse_address : string → option SocketAddr) (show_address : SocketAddr → string).

Definition task_address (t : Task) : SocketAddr :=
  match t with Handshaking _ address | Registering _ address _ => address end.

(** The connections with an address that are being opened or accepted *)
Definition contacts (a : IpAddr) (tasks : list Task) : nat :=
  sum_list_with (λ t, if decide (ip (task_address t) = a) then 1%nat else 0%nat) tasks.

Lemma receive_contacts a env message rest s :
  a ∈ ip_blacklist (system_peers s) →
  let s' := run_handler (peer_manager_receive parse_address show_address env message) (with_peer_mailbox rest s) in
  contacts a (peer_tasks s') = contacts a (peer_tasks s) ∧
  (a ∈ ip_blacklist (system_peers s') ∨ message = MsgWhitelistAll).
Proof.
  intros Ha. cbv zeta. unfold run_handler. destruct (starts message) eqn:Es.
  - assert (∀ address (incoming : bool), is_blacklisted (ip address) (with_peer_effects [] (system_peers s)) = false →
      contacts a (peer_tasks s ++ [Handshaking incoming address]) = contacts a (peer_tasks s)) as Hnew.
    { intros address incoming Hb%bool_decide_eq_false. unfold contacts. rewrite sum_list_with_app. cbn.
      rewrite decide_False by (intros E; by rewrite E in Hb). lia. }
    destruct message; try done; cbn [peer_manager_receive].
    + cbn. rewrite app_nil_r. auto.
    + unfold accept_peer. cbn [system_peers with_peer_mailbox].
      destruct (is_blacklisted (ip address) (with_peer_effects [] (system_peers s))) eqn:Eb;
        [|destruct (is_max_connections_exceeded _)]; cbn -[contacts]; rewrite ?app_nil_r; auto.
    + unfold connect_to_peer. cbn [system_peers with_peer_mailbox].
      destruct (is_blacklisted (ip address) (with_peer_effects [] (system_peers s))) eqn:Eb; cbn -[contacts]; rewrite ?app_nil_r; auto.
  - destruct (receive_quiet parse_address show_address env message (with_peer_effects [] (system_peers s)) Es) as [_ _ _ _ B (es & E & Hes)].
    cbn [with_peer_effects peer_effects app] in E. cbn [system_peers peer_tasks with_peer_mailbox]. rewrite E.
    destruct (quiet_no_permits es Hes) as [-> _]. rewrite app_nil_r. split; [done|left]. by apply B.
Qed.

Lemma contacts_removed a l1 task l2 : (contacts a (l1 ++ l2) ≤ contacts a (l1 ++ task :: l2))%nat.
Proof. unfold contacts. rewrite !sum_list_with_app. cbn. lia. Qed.

Lemma end_task_tasks incoming tasks s :
  peer_tasks (end_task incoming tasks s) = tasks ∧
  ip_blacklist (system_peers (end_task incoming tasks s)) = ip_blacklist (system_peers s).
Proof. by destruct incoming. Qed.

Lemma blacklisted_step a s s' :
  a ∈ ip_blacklist (system_peers s) → peer_step parse_address show_address s s' →
  (contacts a (peer_tasks s') ≤ contacts a (peer_tasks s))%nat ∧
  (a ∈ ip_blacklist (system_peers s') ∨ head (peer_mailbox s) = Some MsgWhitelistAll).
Proof.
  intros Ha Hs. destruct Hs as [env message rest s _ Em|message s He|address s|address l1 l2 s Et
    |incoming address err l1 l2 s Et|incoming address l1 l2 s Et Hg|incoming address l1 l2 s Et Hg
    |incoming address peer l1 l2 s Et|peer s Hp].
  - destruct (receive_contacts a env message rest s Ha) as [-> [Hb| ->]]; [auto|]. rewrite Em. auto.
  - auto.
  - unfold accept_connection, try_acquire_incoming_connection_permit.
    destruct (rx_run (system_peers s)); [|auto]. destruct (incoming_connection_tickets _); [auto|].
    destruct (is_max_connections_exceeded _); auto.
  - rewrite Et. split; [apply contacts_removed|by left].
  - rewrite Et. unfold handshake_failed. destruct (end_task_tasks incoming (l1 ++ l2)
      (with_peer_mailbox (peer_mailbox s ++ [failed_bootstrap_peer err address]) s)) as [-> ->].
    split; [apply contacts_removed|by left].
  - rewrite Et. destruct (end_task_tasks incoming (l1 ++ l2) (advance_actor_id s)) as [-> ->].
    split; [apply contacts_removed|by left].
  - rewrite Et. unfold contacts. cbn. rewrite !sum_list_with_app. cbn. auto.
  - rewrite Et. unfold add_peer. destruct (end_task_tasks incoming (l1 ++ l2) (with_peers_manager
      (with_p2p ((if incoming then add_incoming_peer else add_outgoing_peer) peer address (manager_p2p (system_peers s)))
        (system_peers s)) s)) as [-> ->].
    split; [apply contacts_removed|by left].
  - auto.
Qed.

(** C15: an address on the blacklist stays there until all addresses are allowed again; and as long as it is there, no connection to
    it or from it is started, whatever happens in between: only handshakes that had begun before go on. *)
Theorem blacklisted_not_contacted a s s' :
  a ∈ ip_blacklist (system_peers s) →
  rtc (λ s s', peer_step parse_address show_address s s' ∧ head (peer_mailbox s) ≠ Some MsgWhitelistAll) s s' →
  a ∈ ip_blacklist (system_peers s') ∧ (contacts a (peer_tasks s') ≤ contacts a (peer_tasks s))%nat.
Proof.
  intros Ha Hs. induction Hs as [s|s1 s2 s3 [H12 Hw] _ IH]; [done|].
  destruct (blacklisted_step a s1 s2 Ha H12) as [Hc [Hb|]]; [|done]. destruct (IH Hb). split; [done|lia].
Qed.

End Blacklist.
