(* ===== verification/PeerManagerWitnesses.v ===== *)
(** * The peer manager: examples

    A node that aims at two peers, finds one by the name service and accepts another one; a blacklisted address; too many peers.
    And two runs that end otherwise than the code intends: a peer that ends before it is added stays in the map, and an
    address that was found by the name service is not recognized when it connects. *)

From stdpp Require Import gmap pretty.
From S2P Require Import Prelude ChainManager PeerManager PeerManagerFacts.

Module PeerManagerWitnesses.

Definition no_text (s : string) : option SocketAddr := None.
Definition show_nothing (a : SocketAddr) : string := "".
Definition show_no_ip (a : IpAddr) : string := "".

Definition found : SocketAddr := mkSocketAddr (V4 [1; 2; 3; 4]) 9732.
Definition stranger : SocketAddr := mkSocketAddr (V4 [5; 6; 7; 8]) 40000.

Definition world : PeerEnvironment :=
  mkPeerEnvironment 0 (λ l, l) (λ l, l) (λ l, l) (λ l, l) (λ _ _, Ok [Ok (mkAddrInfo Inet found)]).
Definition thresholds : PeerConnectionThreshold := mkThreshold 2 4 None.
Definition p2p : P2p := mkP2p false [("seed"%string, 9732)] [] thresholds.

Abbreviation step := (peer_step no_text show_nothing).
Abbreviation receives := (λ message, run_handler (peer_manager_receive no_text show_nothing world message)).

Lemma world_ok : environment_ok world.
Proof. done. Qed.

(** The node at the start, with a handshake, with an actor, with a peer, and with a second connection that was accepted *)
Definition node0 : PeerSystem := peer_system_start show_no_ip world p2p.
Definition node1 : PeerSystem :=
  receives (MsgConnectToPeer (uniform_address (mkAddrInfo Inet found))) (with_peer_mailbox [] node0).
Definition node2 : PeerSystem :=
  with_tasks [Registering false (uniform_address (mkAddrInfo Inet found)) (create_peer node1).2] (create_peer node1).1.
Definition node3 : PeerSystem := add_peer false (uniform_address (mkAddrInfo Inet found)) "peer-0" [] node2.
Definition node4 : PeerSystem := accept_connection stranger node3.

Lemma node0_node2 : rtc step node0 node2.
Proof.
  apply (rtc_l _ _ node1).
  - apply (step_receive _ _ world (MsgConnectToPeer (uniform_address (mkAddrInfo Inet found))) [] node0 world_ok).
    vm_compute. reflexivity.
  - apply rtc_once, (step_created _ _ false (uniform_address (mkAddrInfo Inet found)) [] [] node1); vm_compute; reflexivity.
Qed.

Lemma node4_reached : rtc step node0 node4.
Proof.
  etrans; [exact node0_node2|]. apply (rtc_l _ _ node3).
  - apply (step_added _ _ false (uniform_address (mkAddrInfo Inet found)) "peer-0" [] [] node2). vm_compute. reflexivity.
  - apply rtc_once. exact (step_listen _ _ stranger node3).
Qed.

Lemma peer_limits_witness :
  permits_in_use node4 = 1%nat ∧ incoming_connection_tickets (manager_p2p (system_peers node4)) = 1%nat ∧
  is_peer_actor_name "peer-0" = true.
Proof.
  destruct (peer_limits no_text show_nothing show_no_ip world p2p node4 node4_reached) as ([Hp _] & Hn & _).
  assert (permits_in_use node4 = 1%nat) as E by (vm_compute; reflexivity).
  change (max_incoming_connection_tickets (peer_threshold p2p)) with 2%nat in Hp.
  split; [exact E|]. split; [lia|]. apply Hn. vm_compute. by eexists.
Defined.

(** *** Too many peers *)

Definition crowd : PeerManager :=
  with_p2p (with_connected (list_to_map [("peer-0"%string, found); ("peer-1"%string, stranger)])
    (p2p_peers_new (mkThreshold 0 1 None))) (peer_manager_new show_no_ip p2p).

Lemma peer_count_checked_witness :
  ∃ peer, peer_effects (check_peer_count world crowd) = [StopPeerActor peer] ∧
    is_Some (connected_peers (manager_p2p crowd) !! peer).
Proof.
  destruct (peer_count_checked world crowd world_ok) as (_ & es & Ee & _ & Hmany & _).
  destruct Hmany as (_ & peers & Es & _ & Hlen & Hin & _); [vm_compute; lia|vm_compute; lia|].
  change (length peers = 1%nat) in Hlen. destruct peers as [|peer [|]]; [done| |done].
  exists peer. split; [|apply Hin; by left]. rewrite Ee, Es. done.
Defined.

(** *** The blacklist *)

Definition banned0 : PeerSystem :=
  with_peers_manager (blacklist_address stranger (system_peers node3)) node3.
Definition banned1 : PeerSystem := accept_connection stranger banned0.
Definition banned2 : PeerSystem := receives (MsgAcceptPeer stranger) (with_peer_mailbox [] banned1).

Lemma blacklisted_not_contacted_witness : contacts (ip stranger) (peer_tasks banned2) = 0%nat.
Proof.
  destruct (blacklisted_not_contacted no_text show_nothing (ip stranger) banned0 banned2) as [_ Hc].
  - apply elem_of_union. left. by apply elem_of_singleton.
  - apply (rtc_l _ _ banned1).
    + split; [exact (step_listen _ _ stranger banned0)|]. vm_compute. discriminate.
    + apply rtc_once. split; [|vm_compute; discriminate].
      apply (step_receive _ _ world (MsgAcceptPeer stranger) [] banned1 world_ok). vm_compute. reflexivity.
  - assert (contacts (ip stranger) (peer_tasks banned0) = 0%nat) as E by (vm_compute; reflexivity). lia.
Defined.

(** An address that was found by the name service is kept in the form of version 6.  When it is blacklisted, the same
    machine can still connect to a listener of version 4. *)
Lemma mapped_address_not_recognized octets port port' m :
  V4 octets ∉ ip_blacklist m →
  is_blacklisted (V4 octets)
    (blacklist_address (uniform_address (mkAddrInfo Inet (mkSocketAddr (V4 octets) port))) m) = false ∧
  (is_max_connections_exceeded (manager_p2p m) = false →
   peer_effects (accept_peer (mkSocketAddr (V4 octets) port')
     (blacklist_address (uniform_address (mkAddrInfo Inet (mkSocketAddr (V4 octets) port))) m))
   = peer_effects m ++ [SpawnIncoming (mkSocketAddr (V4 octets) port')]).
Proof.
  intros Hn. assert (is_blacklisted (V4 octets)
    (blacklist_address (uniform_address (mkAddrInfo Inet (mkSocketAddr (V4 octets) port))) m) = false) as E.
  { apply bool_decide_eq_false. cbn. set_solver. }
  split; [done|]. intros Hm. unfold accept_peer. cbn [ip]. rewrite E. cbn [blacklist_address with_blacklist manager_p2p].
  by rewrite Hm.
Qed.

(** A peer whose actor ends between its creation and its registration: the message about its end comes too early, and
    when nothing is left to do the peer is still in the map. *)
Definition ended : PeerSystem :=
  mkPeerSystem (system_peers node2) [MsgActorTerminated "peer-0"] (peer_tasks node2) ∅ (actor_id_generator node2).
Definition told : PeerSystem := receives (MsgActorTerminated "peer-0") (with_peer_mailbox [] ended).
Definition stale : PeerSystem := add_peer false (uniform_address (mkAddrInfo Inet found)) "peer-0" [] told.

Lemma ended_peer_stays :
  rtc step node0 stale ∧ peer_mailbox stale = [] ∧ peer_tasks stale = [] ∧ peer_actors stale = ∅ ∧
  is_Some (connected_peers (manager_p2p (system_peers stale)) !! "peer-0").
Proof.
  split; [|split; [vm_compute; reflexivity|split; [vm_compute; reflexivity|split; [vm_compute; reflexivity|]]];
    vm_compute; by eexists].
  etrans; [exact node0_node2|]. apply (rtc_l _ _ ended); [|apply (rtc_l _ _ told)].
  - assert (ended = mkPeerSystem (system_peers node2) (peer_mailbox node2 ++ [MsgActorTerminated "peer-0"]) (peer_tasks node2)
      (peer_actors node2 ∖ {["peer-0"%string]}) (actor_id_generator node2)) as -> by (vm_compute; reflexivity).
    apply step_terminated. apply elem_of_union. left. apply elem_of_singleton. vm_compute. reflexivity.
  - apply (step_receive _ _ world (MsgActorTerminated "peer-0") [] ended world_ok). vm_compute. reflexivity.
  - apply rtc_once. apply (step_added _ _ false (uniform_address (mkAddrInfo Inet found)) "peer-0" [] [] told).
    vm_compute. reflexivity.
Qed.

End PeerManagerWitnesses.
