(* ===== verification/MerkleTree.v ===== *)
(** * The entries of the context and their hashes: [storage/src/context/merkle/mod.rs],
      [storage/src/context/merkle/hash/mod.rs], [storage/src/context/merkle/hash/ocaml.rs]

    A context is a tree of directories and values.  A node of a directory keeps
    the kind of its entry and, once they are known, the hash of the entry and
    the entry itself.  The hash of a directory is the one of Irmin: a list of
    its entries up to 256 of them, and a tree of inodes above.

    [Tree] is an ordered map; it is the list of its bindings in the order of the
    names.  A [String] is the list of its bytes.  The hash function and the
    variable-length integers are third-party code and parameters. *)

From S2P Require Import Prelude Kv.

(** ** Ordered maps *)

Section OrdMap.
Context {A : Type}.
Implicit Types (k : bytes) (v : A) (l : list (bytes * A)).

Fixpoint omap_get k l : option A :=
  match l with
  | [] => None
  | (k', v) :: l => if decide (k = k') then Some v else omap_get k l
  end.

Fixpoint omap_insert k v l : list (bytes * A) :=
  match l with
  | [] => [(k, v)]
  | (k', v') :: l' =>
      if decide (k = k') then (k, v) :: l'
      else if decide (bytes_le k k') then (k, v) :: l
      else (k', v') :: omap_insert k v l'
  end.

Definition omap_remove k l : list (bytes * A) := filter (λ kv, kv.1 ≠ k) l.

(** The bindings are in the order of the names, each name once. *)
Fixpoint omap_ok l : Prop :=
  match l with
  | [] => True
  | (k, _) :: l => Forall (λ kv, bytes_le k kv.1 ∧ k ≠ kv.1) l ∧ omap_ok l
  end.

End OrdMap.

(** Maps a fallible function over a list, stopping at the first error. *)
Definition map_result {A B E} (f : A → result B E) : list A → result (list B) E :=
  fix go l :=
    match l with
    | [] => Ok []
    | a :: l => let? b := f a in let? bs := go l in Ok (b :: bs)
    end.

(** ** [merkle/mod.rs] *)

Inductive NodeKind := NonLeaf | Leaf.

#[export] Instance NodeKind_eq_dec : EqDecision NodeKind.
Proof. solve_decision. Defined.

Record Commit := mkCommit {
  parent_commit_hash : option bytes;
  root_hash : bytes;
  time : Z;
  author : bytes;
  message : bytes
}.

(** [Node] and [Entry]; the cells of a node hold what is known of its entry. *)
Inductive Node :=
| mkNode (node_kind : NodeKind) (entry_hash : option bytes) (entry : option Entry)
with Entry :=
| ETree (tree : list (bytes * Node))
| EBlob (blob : bytes)
| ECommit (commit : Commit).

Abbreviation Tree := (list (bytes * Node)).

Definition node_kind (n : Node) : NodeKind := let 'mkNode k _ _ := n in k.
Definition node_hash (n : Node) : option bytes := let 'mkNode _ h _ := n in h.
Definition node_entry (n : Node) : option Entry := let 'mkNode _ _ e := n in e.

(** What is written of an entry: the nodes of a directory without their entry
    ([#[serde(skip)]]) and with a hash ([ensure_non_null_entry_hash]). *)
Inductive StoredEntry :=
| STree (tree : list (bytes * (NodeKind * bytes)))
| SBlob (blob : bytes)
| SCommit (commit : Commit).

(** [None] where a node has no hash: the serializer fails. *)
Definition ensure_non_null_entry_hash (n : Node) : option (NodeKind * bytes) :=
  pair (node_kind n) <$> node_hash n.

Definition to_stored (e : Entry) : option StoredEntry :=
  match e with
  | ETree l => STree <$> mapM (λ kn, pair kn.1 <$> ensure_non_null_entry_hash kn.2) l
  | EBlob b => Some (SBlob b)
  | ECommit c => Some (SCommit c)
  end.

Definition of_stored (s : StoredEntry) : Entry :=
  match s with
  | STree l => ETree ((λ '(k, (kind, h)), (k, mkNode kind (Some h) None)) <$> l)
  | SBlob b => EBlob b
  | SCommit c => ECommit c
  end.

(** ** [ocaml.rs]: a hash of strings on 32-bit words *)

Definition u32 (v : Z) : Z := v mod 2 ^ 32.
Definition u32_mul (a b : Z) : Z := u32 (a * b).
Definition u32_shl (a n : Z) : Z := u32 (Z.shiftl a n).

Definition mix (h w : Z) : Z :=
  let w := u32_mul w 0xcc9e2d51 in
  let w := Z.lor (u32_shl w 15) (Z.shiftr w 17) in
  let w := u32_mul w 0x1b873593 in
  let h := Z.lxor h w in
  let h := Z.lor (u32_shl h 13) (Z.shiftr h 19) in
  u32 (u32_mul h 5 + 0xe6546b64).

(** The loop over blocks of four bytes; the rest, of at most three bytes, is mixed at the end. *)
Fixpoint mix_blocks (h : Z) (s : bytes) : Z * bytes :=
  match s with
  | b0 :: b1 :: b2 :: b3 :: s =>
      mix_blocks (mix h (Z.lor (Z.lor (Z.lor (Z.shiftl b3 24) (Z.shiftl b2 16)) (Z.shiftl b1 8)) b0)) s
  | _ => (h, s)
  end.

Definition mix_rest (h : Z) (s : bytes) : Z :=
  match s with
  | [b0; b1; b2] => mix h (Z.lor (Z.lor (Z.shiftl b2 16) (Z.shiftl b1 8)) b0)
  | [b0; b1] => mix h (Z.lor (Z.shiftl b1 8) b0)
  | [b0] => mix h b0
  | _ => h
  end.

(** [len() as u32] keeps 32 bits of the length. *)
Definition ocaml_hash_string (seed : Z) (s : bytes) : Z :=
  let n := u32 (len s) in
  let '(h, rest) := mix_blocks seed (take (Z.to_nat n) s) in
  let h := mix_rest h rest in
  let h := Z.lxor h n in
  let h := Z.lxor h (Z.shiftr h 16) in
  let h := u32_mul h 0x85ebca6b in
  let h := Z.lxor h (Z.shiftr h 13) in
  let h := u32_mul h 0xc2b2ae35 in
  let h := Z.lxor h (Z.shiftr h 16) in
  Z.land h 0x3FFFFFFF.

(** ** [hash/mod.rs] *)

Definition ENTRY_HASH_LEN : Z := 32.

(** [VarBlake2b] of the crate blake2 and [leb128::write::unsigned] *)
Class MerkleLib : Type := {
  blake_state : Type;
  blake_new : Z → option blake_state;
  blake_update : bytes → blake_state → blake_state;
  blake_finalize : blake_state → bytes;
  leb128_unsigned : Z → bytes
}.

(** A hasher of 1 to 64 bytes gives a hash of its size; an integer of 64 bits is
    read back from its encoding, whatever follows. *)
Class MerkleLibLaws `{MerkleLib} : Prop := {
  blake_new_ok n : 1 ≤ n ≤ 64 → is_Some (blake_new n);
  blake_size n s d : blake_new n = Some s →
    len (blake_finalize (blake_update d s)) = n ∧ bytes_ok (blake_finalize (blake_update d s));
  leb128_prefix a b x y :
    uint_range 64 a → uint_range 64 b →
    leb128_unsigned a ++ x = leb128_unsigned b ++ y → a = b ∧ x = y
}.

(** [StackOverflow] is not of the source: the recursion was deeper than the stack. *)
Inductive HashingError :=
| InvalidOutputSize
| ConversionError
| ValueExpected
| UnexpectedEmptyInode
| InvalidHash
| MissingEntry
| EntryBorrow
| StackOverflow.

#[export] Instance HashingError_eq_dec : EqDecision HashingError.
Proof. solve_decision. Defined.

(** An entry of a directory with its hash: name, kind and hash. *)
Abbreviation HashedEntry := (bytes * (NodeKind * bytes))%type.

Inductive Inode :=
| Empty
| Value (entries : list HashedEntry)
| ITree (depth children : Z) (pointers : list (Z * bytes)).

Definition encode_irmin_node_kind (kind : NodeKind) : bytes :=
  match kind with
  | NonLeaf => [0; 0; 0; 0; 0; 0; 0; 0]
  | Leaf => [255; 0; 0; 0; 0; 0; 0; 0]
  end.

Definition index (depth : Z) (name : bytes) : Z := ocaml_hash_string depth name mod 32.

Section Hashing.
Context `{MerkleLib}.

(** The hash of 32 bytes of what the hasher was fed with. *)
Definition blake2b_256 (data : bytes) : result bytes HashingError :=
  let? hasher := ok_or (blake_new ENTRY_HASH_LEN) InvalidOutputSize in
  let hash := blake_finalize (blake_update data hasher) in
  if decide (len hash = ENTRY_HASH_LEN) then Ok hash else Err ConversionError.

(** What the hasher is fed with for each form of an entry *)
Definition value_entry_prehash (e : HashedEntry) : bytes :=
  let '(name, (kind, hash)) := e in
  leb128_unsigned (len name) ++ name ++ [match kind with Leaf => 1 | NonLeaf => 0 end] ++ hash.

Definition pointer_prehash (p : Z * bytes) : bytes := p.1 :: p.2.

Definition inode_prehash (inode : Inode) : bytes :=
  match inode with
  | Empty => []
  | Value entries => [0] ++ [len entries mod 256] ++ concat (value_entry_prehash <$> entries)
  | ITree depth children pointers =>
      [1] ++ leb128_unsigned depth ++ leb128_unsigned children ++
        [len pointers mod 256] ++ concat (pointer_prehash <$> pointers)
  end.

Definition hash_long_inode (inode : Inode) : result bytes HashingError :=
  match inode with
  | Empty => Err UnexpectedEmptyInode
  | _ => blake2b_256 (inode_prehash inode)
  end.

(** The loop over the 32 parts of a directory *)
Fixpoint collect_pointers (partition : list HashedEntry → result Inode HashingError)
    (depth : Z) (entries : list HashedEntry) (indices : list Z) : result (list (Z * bytes)) HashingError :=
  match indices with
  | [] => Ok []
  | i :: indices =>
      let? ti := partition (filter (λ e, index depth e.1 = i) entries) in
      match ti with
      | Empty => collect_pointers partition depth entries indices
      | _ =>
          let? hash := hash_long_inode ti in
          let? pointers := collect_pointers partition depth entries indices in
          Ok ((i mod 256, hash) :: pointers)
      end
  end.

Fixpoint partition_entries (rounds : nat) (depth : Z) (entries : list HashedEntry)
    : result Inode HashingError :=
  if decide (entries = []) then Ok Empty
  else if decide (len entries ≤ 32) then Ok (Value entries)
  else
    match rounds with
    | O => Err StackOverflow
    | S rounds =>
        let? pointers :=
          collect_pointers (partition_entries rounds (depth + 1)) depth entries (seqZ 0 32) in
        Ok (ITree depth (len entries) pointers)
    end.

Definition short_entry_prehash (e : HashedEntry) : bytes :=
  let '(name, (kind, hash)) := e in
  encode_irmin_node_kind kind ++ leb128_unsigned (len name) ++ name ++
    be_bytes 8 ENTRY_HASH_LEN ++ hash.

Definition short_prehash (entries : list HashedEntry) : bytes :=
  be_bytes 8 (len entries) ++ concat (short_entry_prehash <$> entries).

Definition hash_short_inode (entries : list HashedEntry) : result bytes HashingError :=
  blake2b_256 (short_prehash entries).

(** How deep the stack allows the recursion of [partition_entries] to go *)
Context (rounds : nat).

(** [hash_tree] once the hashes of the entries of the directory are known *)
Definition hash_entries (entries : list HashedEntry) : result bytes HashingError :=
  if decide (256 < len entries)
  then let? inode := partition_entries rounds 0 entries in hash_long_inode inode
  else hash_short_inode entries.

Definition blob_prehash (blob : bytes) : bytes := be_bytes 8 (len blob) ++ blob.

Definition hash_blob (blob : bytes) : result bytes HashingError := blake2b_256 (blob_prehash blob).

Definition hash_commit (c : Commit) : result bytes HashingError :=
  blake2b_256 (be_bytes 8 ENTRY_HASH_LEN ++ root_hash c ++
    match parent_commit_hash c with
    | None => be_bytes 8 0
    | Some parent => be_bytes 8 1 ++ be_bytes 8 (len parent) ++ parent
    end ++
    be_bytes 8 (time c) ++ be_bytes 8 (len (author c)) ++ author c ++
    be_bytes 8 (len (message c)) ++ message c).

(** [hash_entry], with [Node::entry_hash] for the nodes of a directory *)
Fixpoint hash_entry (e : Entry) : result bytes HashingError :=
  match e with
  | ECommit c => hash_commit c
  | EBlob b => hash_blob b
  | ETree l =>
      let? entries :=
        map_result (λ '(name, mkNode kind h e),
          let? hash :=
            match h, e with
            | Some h, _ => Ok h
            | None, None => Err MissingEntry
            | None, Some e => hash_entry e
            end in
          Ok (name, (kind, hash))) l in
      hash_entries entries
  end.

Definition entry_hash (n : Node) : result bytes HashingError :=
  match n with
  | mkNode _ (Some h) _ => Ok h
  | mkNode _ None None => Err MissingEntry
  | mkNode _ None (Some e) => hash_entry e
  end.

Definition hashed_entry (kn : bytes * Node) : result HashedEntry HashingError :=
  let? hash := entry_hash kn.2 in Ok (kn.1, (node_kind kn.2, hash)).

Definition hash_tree (t : Tree) : result bytes HashingError :=
  let? entries := map_result hashed_entry t in hash_entries entries.

(** What a successful [hash_entry] leaves in the cells of the nodes.  The nodes
    of a directory of more than 256 entries are cloned before they are hashed
    (lines 94-96), so their own cells do not get the hash; the entries of the
    clones share their nodes with the original. *)
Fixpoint cache_hashes (e : Entry) : Entry :=
  match e with
  | ETree l =>
      ETree ((λ '(name, mkNode kind h e),
        match h, e with
        | None, Some e =>
            (name, mkNode kind
              (if decide (256 < len l) then None
               else match hash_entry e with Ok h => Some h | Err _ => None end)
              (Some (cache_hashes e)))
        | _, _ => (name, mkNode kind h e)
        end) <$> l)
  | _ => e
  end.

Definition cache_tree_hashes (t : Tree) : Tree :=
  match cache_hashes (ETree t) with ETree t => t | _ => t end.

End Hashing.
