(* ===== verification/ContextStore.v ===== *)
(** * Stores of the context and their garbage collection: [storage/src/persistent/mod.rs],
      [storage/src/context/kv_store], [storage/src/context/gc]

    The store of the context maps the hash of an entry to its bytes.  It is an
    interface with several implementations: maps in memory, and a store that
    wraps another one and removes the entries no recent block uses. *)

From stdpp Require Import gmap.
From S2P Require Import Prelude Kv MerkleTree.

(** ** The interface, [KeyValueStoreBackend] *)

Class KeyValueStoreBackend : Type := {
  kv_store : Type;
  kv_error : Type;
  kv_default : kv_store;
  kv_get : bytes → kv_store → result (option bytes) kv_error;
  kv_contains : bytes → kv_store → result bool kv_error;
  kv_put : bytes → bytes → kv_store → kv_store * result unit kv_error;
  kv_merge : bytes → bytes → kv_store → kv_store * result unit kv_error;
  kv_delete : bytes → kv_store → kv_store * result unit kv_error;
  kv_retain : (bytes → bool) → kv_store → kv_store * result unit kv_error;
  kv_write_batch : list (bytes * bytes) → kv_store → kv_store * result unit kv_error
}.

Definition write_all (batch : list (bytes * bytes)) (m : gmap bytes bytes) : gmap bytes bytes :=
  foldl (λ m kv, <[kv.1 := kv.2]> m) m batch.

(** What a store promises: it is a map and its operations do not fail. *)
Class KeyValueStoreLaws `{KeyValueStoreBackend} (kv_map : kv_store → gmap bytes bytes) : Prop := {
  kv_default_map : kv_map kv_default = ∅;
  kv_get_map k s : kv_get k s = Ok (kv_map s !! k);
  kv_contains_map k s : kv_contains k s = Ok (bool_decide (is_Some (kv_map s !! k)));
  kv_put_map k v s : ∃ s', kv_put k v s = (s', Ok tt) ∧ kv_map s' = <[k := v]> (kv_map s);
  kv_merge_map k v s : ∃ s', kv_merge k v s = (s', Ok tt) ∧ kv_map s' = <[k := v]> (kv_map s);
  kv_delete_map k s : ∃ s', kv_delete k s = (s', Ok tt) ∧ kv_map s' = delete k (kv_map s);
  kv_retain_map (p : bytes → bool) s : ∃ s', kv_retain p s = (s', Ok tt) ∧
    kv_map s' = filter (λ kv, p kv.1 = true) (kv_map s);
  kv_write_batch_map batch s : ∃ s', kv_write_batch batch s = (s', Ok tt) ∧
    kv_map s' = write_all batch (kv_map s)
}.

(** [GarbageCollector] *)
Class GarbageCollector `{KeyValueStoreBackend} : Type := {
  gc_error : Type;
  new_cycle_started : kv_store → kv_store * result unit gc_error;
  gc_block_applied : bytes → kv_store → kv_store * result unit gc_error
}.

(** Runs [f] on each element until one fails. *)
Definition for_each {A S E} (f : A → S → S * result unit E) : list A → S → S * result unit E :=
  fix go l s :=
    match l with
    | [] => (s, Ok tt)
    | a :: l => match f a s with (s, Ok _) => go l s | (s, Err e) => (s, Err e) end
    end.

(** [try_delete] *)
Definition kv_try_delete `{KeyValueStoreBackend} (key : bytes) (s : kv_store)
    : kv_store * result (option bytes) kv_error :=
  match kv_get key s with
  | Err e => (s, Err e)
  | Ok None => (s, Ok None)
  | Ok (Some v) =>
      match kv_delete key s with (s, Ok _) => (s, Ok (Some v)) | (s, Err e) => (s, Err e) end
  end.

(** ** Maps in memory: [btree_map.rs], [in_memory_backend.rs]

    The two differ in the map they use and in how they count memory. *)

Module BTreeMapBackend.

Abbreviation T := (gmap bytes bytes).

Definition get (key : bytes) (s : T) : result (option bytes) Empty_set := Ok (s !! key).
Definition contains (key : bytes) (s : T) : result bool Empty_set := Ok (bool_decide (is_Some (s !! key))).
Definition put (key value : bytes) (s : T) : T * result unit Empty_set := (<[key := value]> s, Ok tt).
Definition merge (key value : bytes) (s : T) : T * result unit Empty_set := (<[key := value]> s, Ok tt).
Definition delete (key : bytes) (s : T) : T * result unit Empty_set := (base.delete key s, Ok tt).

Definition retain (predicate : bytes → bool) (s : T) : T * result unit Empty_set :=
  let garbage_keys := (filter (λ kv : bytes * bytes, negb (predicate kv.1) = true) (map_to_list s)).*1 in
  for_each delete garbage_keys s.

Definition write_batch (batch : list (bytes * bytes)) (s : T) : T * result unit Empty_set :=
  for_each (λ kv, merge kv.1 kv.2) batch s.

End BTreeMapBackend.

Definition btree_backend : KeyValueStoreBackend := {|
  kv_default := ∅ : gmap bytes bytes;
  kv_get := BTreeMapBackend.get;
  kv_contains := BTreeMapBackend.contains;
  kv_put := BTreeMapBackend.put;
  kv_merge := BTreeMapBackend.merge;
  kv_delete := BTreeMapBackend.delete;
  kv_retain := BTreeMapBackend.retain;
  kv_write_batch := BTreeMapBackend.write_batch
|}.

(** [NotGarbageCollected] *)
Definition not_garbage_collected `{KeyValueStoreBackend} : GarbageCollector := {|
  gc_error := Empty_set;
  new_cycle_started s := (s, Ok tt);
  gc_block_applied _ s := (s, Ok tt)
|}.

(** ** [gc/mod.rs] *)

Inductive GarbageCollectionError `{KeyValueStoreBackend} :=
| GcDBError (error : kv_error)
| GcSerializationError
| GcHashingError (error : HashingError)
| GcEntryNotFound (hash : bytes)
| GcNotACommit (hash : bytes)
| GcCannotSend.

Section Collect.
Context `{KeyValueStoreBackend, MerkleLib, Bincode StoredEntry}.
(** How deep the stack allows the recursions to go *)
Context (rounds : nat).

Definition fetch_entry_from_store (store : kv_store) (hash : bytes)
    : result Entry GarbageCollectionError :=
  let? entry_bytes := map_err GcDBError (kv_get hash store) in
  match entry_bytes with
  | None => Err (GcEntryNotFound hash)
  | Some b => let? s := ok_or (bincode_deserialize b) GcSerializationError in Ok (of_stored s)
  end.

Abbreviation Cache := (gmap bytes (gset bytes)).

(** The loop over the nodes of a directory: it stops at the first node without entry. *)
Definition collect_children
    (collect : Entry → gset bytes → Cache → Cache * result (gset bytes) GarbageCollectionError)
    : Tree → gset bytes → Cache → Cache * result (gset bytes) GarbageCollectionError :=
  fix go l b cache :=
    match l with
    | [] => (cache, Ok b)
    | (_, n) :: l =>
        match node_entry n with
        | None => (cache, Err (GcHashingError MissingEntry))
        | Some e =>
            match collect e b cache with
            | (cache, Ok b) => go l b cache
            | (cache, Err e) => (cache, Err e)
            end
        end
    end.

(** [batch] and [cache] are changed in place: the new cache and, unless it
    fails, the new batch.  The fuel bounds the depth of the recursion. *)
Fixpoint collect_hashes (fuel : nat) (store : kv_store) (entry : Entry) (batch : gset bytes)
    (cache : Cache) : Cache * result (gset bytes) GarbageCollectionError :=
  match fuel with
  | O => (cache, Err (GcHashingError StackOverflow))
  | S fuel =>
      match hash_entry rounds entry with
      | Err e => (cache, Err (GcHashingError e))
      | Ok hash =>
          let batch := {[hash]} ∪ batch in
          match cache !! hash with
          | Some v => (cache, Ok (batch ∪ v))
          | None =>
              match entry with
              | EBlob _ => (cache, Ok batch)
              | ETree tree =>
                  match collect_children (collect_hashes fuel store) tree ∅ cache with
                  | (cache, Ok b) => (<[hash := b]> cache, Ok (batch ∪ b))
                  | (cache, Err e) => (cache, Err e)
                  end
              | ECommit commit =>
                  match fetch_entry_from_store store (root_hash commit) with
                  | Err e => (cache, Err e)
                  | Ok entry => collect_hashes fuel store entry batch cache
                  end
              end
          end
      end
  end.

(** ** [gc/mark_sweep_gced.rs] *)

Record MarkSweepGCed := mkMarkSweep {
  store : kv_store;
  cycles_limit : nat;
  cycles : list (gset bytes);
  gc_cache : Cache
}.

Definition mark_sweep_new (cycle_count : nat) : MarkSweepGCed := {|
  store := kv_default;
  cycles_limit := S cycle_count;
  cycles := replicate (S cycle_count) ∅;
  gc_cache := ∅
|}.

Definition with_store (g : MarkSweepGCed) (s : kv_store) : MarkSweepGCed :=
  mkMarkSweep s (cycles_limit g) (cycles g) (gc_cache g).

(** [mark_reused]: into the newest cycle *)
Definition extend_back (keys : gset bytes) (cycles : list (gset bytes)) : list (gset bytes) :=
  match last cycles with
  | None => cycles
  | Some cycle => removelast cycles ++ [cycle ∪ keys]
  end.

Definition mark_reused (reused_keys : gset bytes) (g : MarkSweepGCed) : MarkSweepGCed :=
  mkMarkSweep (store g) (cycles_limit g) (extend_back reused_keys (cycles g)) (gc_cache g).

Definition sweep_entries (todo : gset bytes) (g : MarkSweepGCed)
    : MarkSweepGCed * result unit GarbageCollectionError :=
  let '(s, r) := kv_retain (λ k, bool_decide (k ∈ todo)) (store g) in
  (with_store g s, map_err GcDBError r).

(** The loop pops cycles in front until [cycles_limit] are left. *)
Definition mark_sweep_new_cycle (g : MarkSweepGCed)
    : MarkSweepGCed * result unit GarbageCollectionError :=
  let cycles := cycles g ++ [∅] in
  let cycles := drop (length cycles - cycles_limit g) cycles in
  let g := mkMarkSweep (store g) (cycles_limit g) cycles (gc_cache g) in
  sweep_entries (⋃ cycles) g.

Definition store_entries_referenced_by_commit (commit : bytes) (g : MarkSweepGCed)
    : MarkSweepGCed * result unit GarbageCollectionError :=
  match fetch_entry_from_store (store g) commit with
  | Err e => (g, Err e)
  | Ok (ECommit c) =>
      match collect_hashes rounds (store g) (ECommit c) ∅ (gc_cache g) with
      | (cache, Err e) => (mkMarkSweep (store g) (cycles_limit g) (cycles g) cache, Err e)
      | (cache, Ok entries) =>
          let cache := filter (λ kv, kv.1 ∈ entries) cache in
          (mark_reused entries (mkMarkSweep (store g) (cycles_limit g) (cycles g) cache), Ok tt)
      end
  | Ok _ => (g, Err (GcNotACommit commit))
  end.

(** An operation of the store that is wrapped *)
Definition on_store {A} (f : kv_store → kv_store * A) (g : MarkSweepGCed) : MarkSweepGCed * A :=
  let '(s, r) := f (store g) in (with_store g s, r).

End Collect.

Arguments MarkSweepGCed {_}.

(** The wrapped store is a store, and collects garbage. *)
Definition mark_sweep_backend `{KeyValueStoreBackend} (cycle_count : nat) : KeyValueStoreBackend := {|
  kv_store := MarkSweepGCed;
  kv_error := kv_error;
  kv_default := mark_sweep_new cycle_count;
  kv_get k g := kv_get k (store g);
  kv_contains k g := kv_contains k (store g);
  kv_put k v := on_store (kv_put k v);
  kv_merge k v := on_store (kv_merge k v);
  kv_delete k := on_store (kv_delete k);
  kv_retain p := on_store (kv_retain p);
  kv_write_batch batch := on_store (kv_write_batch batch)
|}.

Definition mark_sweep_gc `{KeyValueStoreBackend, MerkleLib, Bincode StoredEntry}
    (rounds cycle_count : nat) : @GarbageCollector (mark_sweep_backend cycle_count) :=
  @Build_GarbageCollector (mark_sweep_backend cycle_count) GarbageCollectionError
    mark_sweep_new_cycle (store_entries_referenced_by_commit rounds).
