(* ===== verification/ContextGc.v ===== *)
(** * Stores of the context: theorems

    The maps in memory and the store with garbage collection keep the promises
    of the interface.  What the collection of unused entries keeps. *)

From stdpp Require Import gmap.
From S2P Require Import Prelude Kv MerkleTree ContextStore.

(** ** The implementations of the interface *)

Lemma for_each_pure {A S E} (f : A → S → S * result unit E) (g : A → S → S) l s :
  (∀ a s, f a s = (g a s, Ok tt)) → for_each f l s = (foldl (λ s a, g a s) s l, Ok tt).
Proof. intros Hf. revert s. induction l as [|a l IH]; intros s; cbn; [done|]. by rewrite Hf, IH. Qed.

Lemma foldl_delete_lookup (keys : list bytes) (m : gmap bytes bytes) (k : bytes) :
  foldl (λ m k, delete k m) m keys !! k = if decide (k ∈ keys) then None else m !! k.
Proof.
  revert m. induction keys as [|k' keys IH]; intros m; cbn; [by rewrite decide_False by apply not_elem_of_nil|].
  rewrite IH. destruct (decide (k ∈ keys)) as [Hin|Hin]; [by rewrite decide_True by (by right)|].
  destruct (decide (k = k')) as [->|Hne].
  - rewrite decide_True by left. by rewrite lookup_delete_eq.
  - rewrite decide_False by (by rewrite not_elem_of_cons). by rewrite lookup_delete_ne.
Qed.

Lemma btree_retain (p : bytes → bool) (s : gmap bytes bytes) :
  BTreeMapBackend.retain p s = (filter (λ kv, p kv.1 = true) s, Ok tt).
Proof.
  unfold BTreeMapBackend.retain. rewrite (for_each_pure _ (λ k s, base.delete k s)) by done. f_equal.
  apply map_eq. intros k. rewrite foldl_delete_lookup, map_lookup_filter.
  destruct (s !! k) as [v|] eqn:E; [|by destruct (decide (k ∈ _))].
  assert (k ∈ (filter (λ kv : bytes * bytes, negb (p kv.1) = true) (map_to_list s)).*1 ↔ p k = false) as Hk.
  { rewrite list_elem_of_fmap. split.
    - intros ([k' v'] & -> & [Hp _]%list_elem_of_filter). by apply negb_true_iff in Hp.
    - intros Hp. exists (k, v). split; [done|]. apply list_elem_of_filter. cbn. rewrite Hp. split; [done|].
      by apply elem_of_map_to_list. }
  destruct (p k) eqn:Ep; [rewrite decide_False by (rewrite Hk; done)|rewrite decide_True by (by rewrite Hk)]; cbn.
  - by rewrite Ep.
  - by rewrite Ep.
Qed.

Lemma write_all_cases (batch : list (bytes * bytes)) (m : gmap bytes bytes) (h : bytes) :
  (write_all batch m !! h = m !! h ∧ ∀ b, (h, b) ∉ batch) ∨
  ∃ b, write_all batch m !! h = Some b ∧ (h, b) ∈ batch.
Proof.
  unfold write_all. revert m. induction batch as [|[h' b'] batch IH]; intros m.
  - left. split; [done|]. intros b. apply not_elem_of_nil.
  - destruct (IH (<[h' := b']> m)) as [[E Hn]|(b & E & Hin)]; [|right; exists b; split; [done|by right]].
    cbn. rewrite E. destruct (decide (h' = h)) as [->|Hne].
    + right. exists b'. rewrite lookup_insert_eq. split; [done|left].
    + left. rewrite lookup_insert_ne by done. split; [done|].
      intros b [[= -> ->]|?]%elem_of_cons; [done|by eapply Hn].
Qed.

#[export] Instance btree_laws : @KeyValueStoreLaws btree_backend (λ m, m).
Proof.
  constructor; [reflexivity..| | | | |].
  - intros k v s. by eexists.
  - intros k v s. by eexists.
  - intros k s. by eexists.
  - intros p s. eexists. split; [apply btree_retain|done].
  - intros batch s. eexists. split; [|done]. by apply (for_each_pure _ (λ kv (s : gmap bytes bytes), <[kv.1 := kv.2]> s)).
Qed.

Section Gc.
Context `{KeyValueStoreBackend, MerkleLib, Bincode StoredEntry}.
Context (kv_map : kv_store → gmap bytes bytes) `{!KeyValueStoreLaws kv_map}.

(** The store with garbage collection keeps the promises of the one it wraps. *)
#[export] Instance mark_sweep_laws n :
  @KeyValueStoreLaws (mark_sweep_backend n) (λ g, kv_map (store g)).
Proof.
  assert (Hon : ∀ (f : kv_store → kv_store * result unit kv_error) (h : gmap bytes bytes → gmap bytes bytes) g,
    (∃ s', f (store g) = (s', Ok tt) ∧ kv_map s' = h (kv_map (store g))) →
    ∃ g', on_store f g = (g', Ok tt) ∧ kv_map (store g') = h (kv_map (store g))).
  { intros f h g (s' & E & Hs). unfold on_store. rewrite E. by eexists. }
  constructor.
  - exact (@kv_default_map _ kv_map _).
  - intros k g. exact (@kv_get_map _ kv_map _ k (store g)).
  - intros k g. exact (@kv_contains_map _ kv_map _ k (store g)).
  - intros k v g. exact (Hon (kv_put k v) (λ m, <[k := v]> m) g (@kv_put_map _ kv_map _ k v (store g))).
  - intros k v g. exact (Hon (kv_merge k v) (λ m, <[k := v]> m) g (@kv_merge_map _ kv_map _ k v (store g))).
  - intros k g. exact (Hon (kv_delete k) (λ m, delete k m) g (@kv_delete_map _ kv_map _ k (store g))).
  - intros p g. exact (Hon (kv_retain p) (λ m, filter (λ kv, p kv.1 = true) m) g (@kv_retain_map _ kv_map _ p (store g))).
  - intros batch g. exact (Hon (kv_write_batch batch) (write_all batch) g (@kv_write_batch_map _ kv_map _ batch (store g))).
Qed.

Context (rounds : nat).

(** A new cycle keeps the entries marked in the cycles that are kept, and no other. *)
Lemma new_cycle_keeps g :
  ∃ g', mark_sweep_new_cycle g = (g', Ok tt) ∧ gc_cache g' = gc_cache g ∧ cycles_limit g' = cycles_limit g ∧
    cycles g' = drop (S (length (cycles g)) - cycles_limit g) (cycles g ++ [∅]) ∧
    ∀ k, kv_map (store g') !! k = if decide (k ∈ ⋃ cycles g') then kv_map (store g) !! k else None.
Proof.
  unfold mark_sweep_new_cycle, sweep_entries. rewrite length_app, Nat.add_1_r. cbn [store].
  set (cs := drop _ _). destruct (kv_retain_map (λ k, bool_decide (k ∈ ⋃ cs)) (store g)) as (s' & E & Hs).
  rewrite E. eexists. split; [done|]. do 3 (split; [done|]). intros k. cbn. rewrite Hs, map_lookup_filter.
  destruct (kv_map (store g) !! k) as [v|]; cbn; [|by destruct (decide _)].
  destruct (decide (k ∈ ⋃ cs)) as [Hin|Hin].
  - by rewrite bool_decide_true.
  - by rewrite bool_decide_false.
Qed.

(** ** What is marked *)

(** What a client of the store does *)
Inductive GcOp :=
| GcWrite (batch : list (bytes * bytes))
| GcBlockApplied (commit : bytes)
| GcNewCycle.

Definition gc_step (g : MarkSweepGCed) (o : GcOp) : MarkSweepGCed :=
  match o with
  | GcWrite batch => (on_store (kv_write_batch batch) g).1
  | GcBlockApplied commit => (store_entries_referenced_by_commit rounds commit g).1
  | GcNewCycle => (mark_sweep_new_cycle g).1
  end.

(** The values that are written *)
Definition written (os : list GcOp) (b : bytes) : Prop :=
  ∃ batch k, GcWrite batch ∈ os ∧ (k, b) ∈ batch.

(** The hash of a written entry other than a directory with entries *)
Definition shallow (W : bytes → Prop) (x : bytes) : Prop :=
  ∃ b st, W b ∧ bincode_deserialize b = Some st ∧ (∀ e l, st ≠ STree (e :: l)) ∧
    hash_entry rounds (of_stored st) = Ok x.

Definition fetched (W : bytes → Prop) (e : Entry) : Prop :=
  ∃ b st, W b ∧ bincode_deserialize b = Some st ∧ e = of_stored st.

Definition cache_ok (W : bytes → Prop) (cache : gmap bytes (gset bytes)) : Prop :=
  ∀ h b, cache !! h = Some b → b = ∅ ∧ shallow W h.

Definition all_shallow (W : bytes → Prop) (b : gset bytes) : Prop := ∀ x, x ∈ b → shallow W x.

Definition store_ok (W : bytes → Prop) (s : kv_store) : Prop := ∀ k b, kv_map s !! k = Some b → W b.

Lemma fetch_fetched W s h e : store_ok W s → fetch_entry_from_store s h = Ok e → fetched W e.
Proof.
  intros Hs. unfold fetch_entry_from_store. rewrite kv_get_map. cbn.
  destruct (kv_map s !! h) as [b|] eqn:Eb; [|done].
  destruct (bincode_deserialize b) as [st|] eqn:Ed; [|done]. intros [= <-]. exists b, st. split; [by eapply Hs|done].
Qed.

(** The entries of a directory that was read are not loaded: collecting stops at the first. *)
Lemma collect_children_stored (collect : Entry → gset bytes → gmap bytes (gset bytes) →
    gmap bytes (gset bytes) * result (gset bytes) GarbageCollectionError) e l b cache :
  ∃ t, of_stored (STree (e :: l)) = ETree t ∧
    collect_children collect t b cache = (cache, Err (GcHashingError MissingEntry)).
Proof. destruct e as [k [kind h]]. by eexists. Qed.

Lemma collect_shallow W fuel s entry batch cache cache' r :
  store_ok W s → fetched W entry → cache_ok W cache → all_shallow W batch →
  collect_hashes rounds fuel s entry batch cache = (cache', r) →
  cache_ok W cache' ∧ ∀ b, r = Ok b → all_shallow W b.
Proof.
  intros Hs. revert entry batch cache. induction fuel as [|fuel IH]; intros entry batch cache He Hc Hb; cbn [collect_hashes].
  { by intros [= <- <-]. }
  destruct (hash_entry rounds entry) as [h|] eqn:Eh; [|by intros [= <- <-]].
  destruct (cache !! h) as [v|] eqn:Ec.
  { destruct (Hc h v Ec) as [-> Hh]. intros [= <- <-]. split; [done|]. intros b [= <-] x.
    rewrite !elem_of_union, elem_of_singleton. intros [[->|Hx]|Hx]; [done|by apply Hb|by apply elem_of_empty in Hx]. }
  destruct He as (b0 & st & Hw & Ed & ->).
  assert (Hadd : (∀ e l, st ≠ STree (e :: l)) → shallow W h ∧ all_shallow W ({[h]} ∪ batch)).
  { intros Hne. assert (shallow W h) by (by exists b0, st). split; [done|].
    intros x [->%elem_of_singleton|Hx]%elem_of_union; [done|by apply Hb]. }
  destruct st as [[|e l]|v|c].
  - destruct (Hadd ltac:(done)) as [Hh Hb']. cbn. intros [= <- <-]. split.
    + intros h' b'. rewrite lookup_insert_Some. intros [[<- <-]|[_ E]]; [done|by apply Hc].
    + intros b [= <-] x [Hx|Hx]%elem_of_union; [by apply Hb'|by apply elem_of_empty in Hx].
  - destruct (collect_children_stored (collect_hashes rounds fuel s) e l ∅ cache) as (t & -> & ->). by intros [= <- <-].
  - destruct (Hadd ltac:(done)) as [_ Hb']. cbn. intros [= <- <-]. split; [done|]. by intros b [= <-].
  - destruct (Hadd ltac:(done)) as [_ Hb']. cbn [of_stored].
    destruct (fetch_entry_from_store s (root_hash c)) as [e|] eqn:Ef; [|by intros [= <- <-]].
    intros E. eapply IH; [|exact Hc|exact Hb'|exact E]. by eapply fetch_fetched.
Qed.

Definition gc_ok (W : bytes → Prop) (g : MarkSweepGCed) : Prop :=
  store_ok W (store g) ∧ cache_ok W (gc_cache g) ∧ Forall (all_shallow W) (cycles g).

Lemma extend_back_shallow W keys cs :
  all_shallow W keys → Forall (all_shallow W) cs → Forall (all_shallow W) (extend_back keys cs).
Proof.
  intros Hk Hcs. unfold extend_back. destruct (last cs) as [c|] eqn:El; [|done].
  apply last_Some in El as [l ->]. rewrite removelast_last. apply Forall_app in Hcs as [Hl Hc]. apply Forall_app.
  split; [done|]. constructor; [|done]. inversion Hc as [|? ? Hc' _]; subst.
  intros x [Hx|Hx]%elem_of_union; [by apply Hc'|by apply Hk].
Qed.

Lemma gc_step_ok W g o :
  (∀ batch k b, o = GcWrite batch → (k, b) ∈ batch → W b) → gc_ok W g → gc_ok W (gc_step g o).
Proof.
  intros Hw (Hs & Hc & Hm). destruct o as [batch|commit|]; cbn.
  - unfold on_store. destruct (kv_write_batch_map batch (store g)) as (s' & -> & Hs'). split_and!; [|done..].
    intros k b. cbn. rewrite Hs'. destruct (write_all_cases batch (kv_map (store g)) k) as [[-> _]|(b' & -> & Hin)].
    + apply Hs.
    + intros [= <-]. by eapply Hw.
  - unfold store_entries_referenced_by_commit.
    destruct (fetch_entry_from_store (store g) commit) as [[l|b|c]|] eqn:Ef; [done|done| |done].
    destruct (collect_hashes rounds rounds (store g) (ECommit c) ∅ (gc_cache g)) as [cache [b|]] eqn:Ec;
      (eapply collect_shallow in Ec as [Hc' Hb]; [|done|by eapply fetch_fetched|done|by intros x ?%elem_of_empty]).
    + split_and!; [done| |by apply extend_back_shallow; [apply Hb|]]. cbn.
      intros h v [E _]%map_lookup_filter_Some. by apply Hc'.
    + by split_and!.
  - destruct (new_cycle_keeps g) as (g' & -> & Ec & _ & Ecy & Hk). split_and!; cbn.
    + intros k b. rewrite Hk. case_decide; [apply Hs|done].
    + by rewrite Ec.
    + rewrite Ecy. apply Forall_drop, Forall_app. split; [done|]. constructor; [|done]. by intros x ?%elem_of_empty.
Qed.

(** C24: whatever blocks were applied, a new cycle keeps no directory that has
    entries.  What is left in the store are hashes of written commits, values and
    empty directories: collecting the entries of a block stops with an error at
    the first directory with entries, since the entries of a directory that was
    read from the store are not loaded, and so nothing of the block is marked. *)
Theorem sweep_removes_directories n os k :
  let g := foldl gc_step (mark_sweep_new n) os in
  is_Some (kv_map (store (gc_step g GcNewCycle)) !! k) → shallow (written os) k.
Proof.
  intros g. assert (gc_ok (written os) g) as Hg.
  { unfold g. assert (∀ os', (∀ o, o ∈ os' → o ∈ os) → ∀ g0, gc_ok (written os) g0 → gc_ok (written os) (foldl gc_step g0 os')) as H'.
    { intros os'. induction os' as [|o os' IH]; intros Hin g0 Hg; [done|]. cbn. apply IH; [intros o' ?; apply Hin; by right|].
      apply gc_step_ok; [|done]. intros batch k' b -> Hb. exists batch, k'. split; [apply Hin; left|done]. }
    apply H'; [done|]. split_and!.
    - intros k' b. cbn. by rewrite kv_default_map.
    - by intros h b.
    - apply Forall_replicate. by intros x ?%elem_of_empty. }
  assert (gc_ok (written os) (gc_step g GcNewCycle)) as (_ & _ & Hm) by (by apply gc_step_ok).
  cbn in *. destruct (new_cycle_keeps g) as (g' & E & _ & _ & _ & Hk). rewrite E in *. cbn in *. rewrite Hk.
  case_decide as Hin; [|by intros [? [=]]]. intros _. apply elem_of_union_list in Hin as (c & Hc & Hx).
  rewrite Forall_forall in Hm. by apply (Hm c Hc).
Qed.

End Gc.
