(* ===== verification/MarkMove.v ===== *)
(** * Garbage collection in a thread: [storage/src/context/gc/mark_move_gced.rs]

    The store keeps one archived store per cycle and writes to the current one.
    The main thread marks entries as reused and announces new cycles over a
    channel.  The garbage collector runs in a thread of its own: before it drops the oldest
    store it moves the marked entries, with all they refer to, to the newest one.

    The steps of the two threads are those between which they can be
    interleaved: the sections in which one of them holds the lock on the stores,
    and the accesses to the channel and to the two atomic variables.  No lock is
    ever poisoned, since nothing panics while it holds one; the two atomic variables
    are sequentially consistent. *)

From stdpp Require Import gmap.
From S2P Require Import Prelude Kv MerkleTree ContextStore.

Definition COUNT_OF_KEYS_TO_CLEANUP_IN_SINGLE_GC_ITERATION : Z := 2048.
Definition usize_MAX : Z := 2 ^ 64 - 1.

(** [unwrap_or(default)] *)
Definition result_or {A E} (r : result A E) (default : A) : A :=
  match r with Ok a => a | Err _ => default end.

(** [Iterator::find_map] *)
Fixpoint find_map {A B} (f : A → option B) (l : list A) : option B :=
  match l with
  | [] => None
  | a :: l => match f a with Some b => Some b | None => find_map f l end
  end.

(** The order in which a [HashSet] is iterated is not specified. *)
Class HashSetOrder : Type := set_into_iter : gset bytes → list bytes.
Class HashSetOrderLaws `{HashSetOrder} : Prop :=
  set_into_iter_elements s : set_into_iter s ≡ₚ elements s.

(** ** The archived stores, older to newer *)

Section Stores.
Context `{KeyValueStoreBackend}.

Definition stores_get (stores : list kv_store) (key : bytes) : option bytes :=
  find_map (λ store, result_or (kv_get key store) None) (rev stores).

(** The index of the oldest store with the key, counted from [index] *)
Fixpoint stores_containing_from (index : nat) (stores : list kv_store) (key : bytes) : option nat :=
  match stores with
  | [] => None
  | store :: stores =>
      if result_or (kv_contains key store) false then Some index
      else stores_containing_from (S index) stores key
  end.

Definition stores_containing : list kv_store → bytes → option nat := stores_containing_from 0.

Definition stores_contains (stores : list kv_store) (key : bytes) : bool :=
  existsb (λ store, result_or (kv_contains key store) false) (rev stores).

(** From the newest store to the oldest, [index] being that of the first one in
    the list *)
Fixpoint stores_delete_from (index : nat) (stores : list kv_store) (key : bytes)
    : list kv_store * option (nat * bytes) :=
  match stores with
  | [] => ([], None)
  | store :: stores =>
      match stores_delete_from (S index) stores key with
      | (stores, Some found) => (store :: stores, Some found)
      | (stores, None) =>
          let '(store, value) := kv_try_delete key store in
          (store :: stores, pair index <$> result_or value None)
      end
  end.

Definition stores_delete : list kv_store → bytes → list kv_store * option (nat * bytes) :=
  stores_delete_from 0.

(** [stores.last_mut().unwrap().put(..)], whose errors are only logged *)
Fixpoint put_last (key value : bytes) (stores : list kv_store) : list kv_store :=
  match stores with
  | [] => []
  | [store] => [(kv_put key value store).1]
  | store :: stores => store :: put_last key value stores
  end.

End Stores.

(** ** The store and its two threads *)

(** The error of a sender whose receiver is gone *)
Inductive SendError := CannotSend.

Inductive CmdMsg :=
| StartNewCycle
| Exit
| MarkReused (key : bytes).

(** Where the loop of the collector is: before [is_busy] is written, before a
    message is received, before it is processed, before the lock is taken to move
    entries, and before stores are dropped. *)
Inductive ThreadPc :=
| LoopTop
| Receive
| Process (msg : option CmdMsg)
| Collect
| DropCycle.

(** The variables of [kvstore_gc_thread_fn].  The last element of the vector
    [todo_keys] is the first of the list. *)
Record GcThread := mkGcThread {
  preserved : nat;
  reused_keys : list (gset bytes);
  todo_keys : list bytes;
  received_exit_msg : bool;
  thread_pc : ThreadPc
}.

Inductive ThreadState :=
| Spawned
| Running (t : GcThread)
| Returned
| Panicked (error : HashingError).

(** Where the main thread is within an operation that sends a message *)
Inductive MainPc :=
| MainIdle
| MainPushing
| MainSending (msg : CmdMsg).

Section MarkMove.
Context `{KeyValueStoreBackend, MerkleLib, Bincode StoredEntry, HashSetOrder}.
(** How deep the stack allows the recursions to go *)
Context (rounds : nat).

Record MarkMoveGCed := mkMarkMove {
  mm_stores : list kv_store;
  mm_current : kv_store;
  is_busy : bool;
  msg_cnt : Z;
  mm_msg : list CmdMsg;
  mm_cache : gmap bytes (gset bytes);
  mm_thread : ThreadState;
  mm_main : MainPc
}.

Definition with_stores stores m :=
  mkMarkMove stores (mm_current m) (is_busy m) (msg_cnt m) (mm_msg m) (mm_cache m) (mm_thread m) (mm_main m).
Definition with_current current m :=
  mkMarkMove (mm_stores m) current (is_busy m) (msg_cnt m) (mm_msg m) (mm_cache m) (mm_thread m) (mm_main m).
Definition with_busy busy m :=
  mkMarkMove (mm_stores m) (mm_current m) busy (msg_cnt m) (mm_msg m) (mm_cache m) (mm_thread m) (mm_main m).
Definition with_cnt cnt m :=
  mkMarkMove (mm_stores m) (mm_current m) (is_busy m) cnt (mm_msg m) (mm_cache m) (mm_thread m) (mm_main m).
Definition with_msg msg m :=
  mkMarkMove (mm_stores m) (mm_current m) (is_busy m) (msg_cnt m) msg (mm_cache m) (mm_thread m) (mm_main m).
Definition with_cache cache m :=
  mkMarkMove (mm_stores m) (mm_current m) (is_busy m) (msg_cnt m) (mm_msg m) cache (mm_thread m) (mm_main m).
Definition with_thread thread m :=
  mkMarkMove (mm_stores m) (mm_current m) (is_busy m) (msg_cnt m) (mm_msg m) (mm_cache m) thread (mm_main m).
Definition with_main main m :=
  mkMarkMove (mm_stores m) (mm_current m) (is_busy m) (msg_cnt m) (mm_msg m) (mm_cache m) (mm_thread m) main.

(** [MarkMoveGCed::new]; [None] where the assertion fails *)
Definition mark_move_new (cycle_count : nat) : option MarkMoveGCed :=
  if decide (1 < cycle_count)%nat then
    Some (mkMarkMove (replicate (cycle_count - 1) kv_default) kv_default true 0 [] ∅ Spawned MainIdle)
  else None.

(** *** The main thread *)

Definition count_msg (m : MarkMoveGCed) : MarkMoveGCed := with_cnt (msg_cnt m + 1) m.

(** [mark_single_reused] up to the lock on the sender *)
Definition begin_mark (key : bytes) (m : MarkMoveGCed) : MarkMoveGCed :=
  with_main (MainSending (MarkReused key)) (count_msg m).

(** [new_cycle_started] up to the lock on the stores, and its push *)
Definition begin_new_cycle (m : MarkMoveGCed) : MarkMoveGCed := with_main MainPushing (count_msg m).

Definition push_current (m : MarkMoveGCed) : MarkMoveGCed :=
  with_main (MainSending StartNewCycle)
    (with_current kv_default (with_stores (mm_stores m ++ [mm_current m]) m)).

(** [send] fails when the receiver is gone. *)
Definition receiver_alive (m : MarkMoveGCed) : bool :=
  match mm_thread m with Spawned | Running _ => true | Returned | Panicked _ => false end.

Definition send_msg (msg : CmdMsg) (m : MarkMoveGCed) : MarkMoveGCed * result unit SendError :=
  let m := with_main MainIdle m in
  if receiver_alive m then (with_msg (mm_msg m ++ [msg]) m, Ok tt) else (m, Err CannotSend).

Definition mark_single_reused (key : bytes) (m : MarkMoveGCed)
    : MarkMoveGCed * result unit SendError :=
  send_msg (MarkReused key) (begin_mark key m).

Definition mm_mark_reused (reused : gset bytes) (m : MarkMoveGCed)
    : MarkMoveGCed * result unit SendError :=
  for_each mark_single_reused (set_into_iter reused) m.

Definition mm_new_cycle_started (m : MarkMoveGCed) : MarkMoveGCed * result unit SendError :=
  send_msg StartNewCycle (push_current (begin_new_cycle m)).

Definition mm_get (key : bytes) (m : MarkMoveGCed) : result (option bytes) kv_error :=
  let? v := kv_get key (mm_current m) in
  Ok (match v with Some v => Some v | None => stores_get (mm_stores m) key end).

Definition mm_contains (key : bytes) (m : MarkMoveGCed) : result bool kv_error :=
  let? b := kv_contains key (mm_current m) in
  Ok (b || stores_contains (mm_stores m) key).

(** [put], [merge], [delete], [retain], [write_batch]: on the current store *)
Definition on_current {A} (f : kv_store → kv_store * A) (m : MarkMoveGCed) : MarkMoveGCed * A :=
  let '(s, r) := f (mm_current m) in (with_current s m, r).

(** [wait_for_gc_finish] returns in these states. *)
Definition gc_finished (m : MarkMoveGCed) : bool := negb (is_busy m || (0 <? msg_cnt m)).

(** *** The thread *)

Definition at_pc (pc : ThreadPc) (t : GcThread) : GcThread :=
  mkGcThread (preserved t) (reused_keys t) (todo_keys t) (received_exit_msg t) pc.
Definition with_reused reused (t : GcThread) : GcThread :=
  mkGcThread (preserved t) reused (todo_keys t) (received_exit_msg t) (thread_pc t).
Definition with_todo todo (t : GcThread) : GcThread :=
  mkGcThread (preserved t) (reused_keys t) todo (received_exit_msg t) (thread_pc t).
Definition exiting (t : GcThread) : GcThread :=
  mkGcThread (preserved t) (reused_keys t) (todo_keys t) true (thread_pc t).

Definition thread_start (m : MarkMoveGCed) : GcThread :=
  let n := length (mm_stores m) in mkGcThread n (replicate n ∅) [] false LoopTop.

Definition no_todo (t : GcThread) : bool := match todo_keys t with [] => true | _ => false end.
(** [reused_keys.len() > len] *)
Definition collecting (t : GcThread) : bool := (preserved t <? length (reused_keys t))%nat.
Definition oldest_reused (t : GcThread) : gset bytes := default ∅ (head (reused_keys t)).

Definition wait_for_events (t : GcThread) : bool :=
  (length (reused_keys t) =? preserved t)%nat && negb (received_exit_msg t).

(** The messages; [true] where the thread returns *)
Definition process_msg (msg : option CmdMsg) (t : GcThread) (m : MarkMoveGCed)
    : GcThread * MarkMoveGCed * bool :=
  match msg with
  | Some StartNewCycle => (with_reused (reused_keys t ++ [∅]) t, with_cnt (msg_cnt m - 1) m, false)
  | Some Exit => (exiting t, m, false)
  | Some (MarkReused key) =>
      let t :=
        match stores_containing (mm_stores m) key with
        | Some index =>
            match reused_keys t !! index with
            | Some keys => with_reused (<[index := {[key]} ∪ keys]> (reused_keys t)) t
            | None => t
            end
        | None => t
        end in
      (t, with_cnt (msg_cnt m - 1) m, false)
  | None =>
      if received_exit_msg t && no_todo t && (length (reused_keys t) =? preserved t)%nat
      then (t, with_busy false m, true)
      else (t, m, false)
  end.

(** The keys that were marked in the oldest cycle are to be done. *)
Definition take_oldest (t : GcThread) : GcThread :=
  match reused_keys t with
  | keys :: rest =>
      if collecting t && negb (bool_decide (keys = ∅))
      then with_todo (rev (set_into_iter keys) ++ todo_keys t) (with_reused (∅ :: rest) t)
      else t
  | [] => t
  end.

(** [for node in tree.values() { todo_keys.push(node.entry_hash()?) }] *)
Fixpoint push_nodes (tree : Tree) (todo : list bytes) : result (list bytes) HashingError :=
  match tree with
  | [] => Ok todo
  | (_, node) :: tree => let? h := entry_hash rounds node in push_nodes tree (h :: todo)
  end.

(** One key of [todo_keys]: its entry goes to the newest store, what it refers to
    is to be done. *)
Definition collect_key (key : bytes) (stores : list kv_store) (todo : list bytes)
    : list kv_store * result (list bytes) HashingError :=
  match stores_delete stores key with
  | (stores, None) => (stores, Ok todo)
  | (stores, Some (_, entry_bytes)) =>
      match bincode_deserialize entry_bytes with
      | None => (stores, Ok todo)
      | Some stored =>
          let stores := put_last key entry_bytes stores in
          match of_stored stored with
          | EBlob _ => (stores, Ok todo)
          | ETree tree => (stores, push_nodes tree todo)
          | ECommit commit => (stores, Ok (root_hash commit :: todo))
          end
      end
  end.

Fixpoint collect_keys (max_iter : nat) (stores : list kv_store) (todo : list bytes)
    : list kv_store * result (list bytes) HashingError :=
  match max_iter, todo with
  | S max_iter, key :: todo =>
      match collect_key key stores todo with
      | (stores, Ok todo) => collect_keys max_iter stores todo
      | (stores, Err e) => (stores, Err e)
      end
  | _, _ => (stores, Ok todo)
  end.

Definition max_iter (t : GcThread) (stores : list kv_store) : nat :=
  Z.to_nat (if (length stores <=? 1 + preserved t)%nat
            then COUNT_OF_KEYS_TO_CLEANUP_IN_SINGLE_GC_ITERATION else usize_MAX).

(** A step of the thread; [None] where it waits for a message or has ended. *)
Definition gc_thread_step (m : MarkMoveGCed) : option MarkMoveGCed :=
  match mm_thread m with
  | Spawned => Some (with_thread (Running (thread_start m)) m)
  | Running t =>
      match thread_pc t with
      | LoopTop =>
          Some (with_busy ((0 <? msg_cnt m) || negb (no_todo t) || collecting t)
                  (with_thread (Running (at_pc Receive t)) m))
      | Receive =>
          match mm_msg m with
          | msg :: rest => Some (with_msg rest (with_thread (Running (at_pc (Process (Some msg)) t)) m))
          | [] =>
              if wait_for_events t then None
              else Some (with_thread (Running (at_pc (Process None) t)) m)
          end
      | Process msg =>
          let '(t, m, return_) := process_msg msg t m in
          if return_ : bool then Some (with_thread Returned m)
          else Some (with_thread (Running (at_pc Collect (take_oldest t))) m)
      | Collect =>
          if no_todo t then Some (with_thread (Running (at_pc DropCycle t)) m)
          else
            match collect_keys (max_iter t (mm_stores m)) (mm_stores m) (todo_keys t) with
            | (stores, Ok todo) =>
                Some (with_thread (Running (at_pc DropCycle (with_todo todo t))) (with_stores stores m))
            | (stores, Err e) => Some (with_thread (Panicked e) (with_stores stores m))
            end
      | DropCycle =>
          if collecting t && bool_decide (oldest_reused t = ∅) && no_todo t
          then Some (with_thread (Running (at_pc LoopTop (with_reused (drop 1 (reused_keys t)) t)))
                       (with_stores (drop 1 (mm_stores m)) m))
          else Some (with_thread (Running (at_pc LoopTop t)) m)
      end
  | Returned | Panicked _ => None
  end.

End MarkMove.

Arguments MarkMoveGCed {_}.

(** ** The interface *)

Definition mark_move_backend `{KeyValueStoreBackend} (new : MarkMoveGCed) : KeyValueStoreBackend := {|
  kv_store := MarkMoveGCed;
  kv_error := kv_error;
  kv_default := new;
  kv_get := mm_get;
  kv_contains := mm_contains;
  kv_put k v := on_current (kv_put k v);
  kv_merge k v := on_current (kv_merge k v);
  kv_delete k := on_current (kv_delete k);
  kv_retain p := on_current (kv_retain p);
  kv_write_batch batch := on_current (kv_write_batch batch)
|}.

Section Interface.
Context `{KeyValueStoreBackend, MerkleLib, Bincode StoredEntry, HashSetOrder}.
Context (rounds : nat) (new : MarkMoveGCed).

Abbreviation GcError := (@GarbageCollectionError (mark_move_backend new)).

(** [block_applied].  The cache was taken out of the store: it is lost if collecting fails. *)
Definition mm_block_applied (commit : bytes) (m : MarkMoveGCed) : MarkMoveGCed * result unit GcError :=
  match @fetch_entry_from_store (mark_move_backend new) _ m commit with
  | Err e => (m, Err e)
  | Ok (ECommit c) =>
      match @collect_hashes (mark_move_backend new) _ _ rounds rounds m (ECommit c) ∅ (mm_cache m) with
      | (_, Err e) => (with_cache ∅ m, Err e)
      | (cache, Ok _) =>
          let m := with_cache ∅ m in
          match (match cache !! commit with
                 | Some r => mm_mark_reused r m
                 | None => (m, Ok tt)
                 end) with
          | (m, Ok _) => (with_cache cache m, Ok tt)
          | (m, Err _) => (m, Err GcCannotSend)
          end
      end
  | Ok _ => (m, Err (GcNotACommit commit))
  end.

Definition mark_move_gc : @GarbageCollector (mark_move_backend new) :=
  @Build_GarbageCollector (mark_move_backend new) GcError
    (λ m, let '(m, r) := mm_new_cycle_started m in (m, map_err (λ _, GcCannotSend) r))
    mm_block_applied.

End Interface.
