(* ===== verification/MarkMoveFacts.v ===== *)
(** * Garbage collection in a thread: theorems

    For all interleavings of the two threads: entries that were marked are kept
    with all they refer to, other entries go with their store, and the collector
    comes to an end when it is left alone. *)

From stdpp Require Import gmap.
From S2P Require Import Prelude Kv MerkleTree ContextStore ContextGc MarkMove.

#[local] Open Scope nat_scope.

Section MarkMoveFacts.
Context `{KeyValueStoreBackend, MerkleLib, Bincode StoredEntry, HashSetOrder}.
Context (kv_map : kv_store → gmap bytes bytes) `{!KeyValueStoreLaws kv_map} `{!HashSetOrderLaws}.
Context (rounds : nat).

(** ** Interleavings *)

(** A step of one of the threads.  [merge] is like [put]. *)
Inductive MmEvent :=
| EvThread
| EvPut (key value : bytes)
| EvWrite (batch : list (bytes * bytes))
| EvDelete (key : bytes)
| EvMark (key : bytes)
| EvNewCycle
| EvPush
| EvSend.

(** [None] where the step is not possible *)
Definition mm_step (e : MmEvent) (m : MarkMoveGCed) : option MarkMoveGCed :=
  match e, mm_main m with
  | EvThread, _ => gc_thread_step rounds m
  | EvPut k v, MainIdle => Some (on_current (kv_put k v) m).1
  | EvWrite batch, MainIdle => Some (on_current (kv_write_batch batch) m).1
  | EvDelete k, MainIdle => Some (on_current (kv_delete k) m).1
  | EvMark k, MainIdle => Some (begin_mark k m)
  | EvNewCycle, MainIdle => Some (begin_new_cycle m)
  | EvPush, MainPushing => Some (push_current m)
  | EvSend, MainSending msg => Some (send_msg msg m).1
  | _, _ => None
  end.

Fixpoint mm_run (es : list MmEvent) (m : MarkMoveGCed) : option MarkMoveGCed :=
  match es with
  | [] => Some m
  | e :: es => m' ← mm_step e m; mm_run es m'
  end.

(** The steps in which the oldest store is dropped *)
Definition dropping (m : MarkMoveGCed) : bool :=
  match mm_thread m with
  | Running t =>
      match thread_pc t with
      | DropCycle => collecting t && bool_decide (oldest_reused t = ∅) && no_todo t
      | _ => false
      end
  | _ => false
  end.

Definition step_drops (e : MmEvent) (m : MarkMoveGCed) : nat :=
  match e with EvThread => if dropping m then 1 else 0 | _ => 0 end.

Fixpoint drops (es : list MmEvent) (m : MarkMoveGCed) : nat :=
  match es with
  | [] => 0
  | e :: es =>
      match mm_step e m with
      | None => 0
      | Some m' => step_drops e m + drops es m'
      end
  end.

(** ** The archived stores *)

(** Some store with index at least [n] has the key. *)
Definition held (n : nat) (k : bytes) (stores : list kv_store) : Prop :=
  ∃ i s, n ≤ i ∧ stores !! i = Some s ∧ is_Some (kv_map s !! k).

Lemma held_weaken n n' k stores : n' ≤ n → held n k stores → held n' k stores.
Proof. intros ? (i & s & ? & ? & ?). exists i, s. split; [lia|done]. Qed.

Lemma held_drop n k stores : 0 < n → held n k stores → held (n - 1) k (drop 1 stores).
Proof.
  intros ? (i & s & ? & E & ?). exists (i - 1), s. split; [lia|]. split; [|done].
  rewrite lookup_drop. by replace (1 + (i - 1)) with i by lia.
Qed.

Lemma held_of_drop n k stores : held n k (drop 1 stores) → held (S n) k stores.
Proof. intros (i & s & ? & E & ?). rewrite lookup_drop in E. exists (S i), s. split; [lia|done]. Qed.

Lemma held_snoc n k stores s : held n k stores → held n k (stores ++ [s]).
Proof. intros (i & s' & ? & E & ?). exists i, s'. split; [done|]. split; [|done]. by apply lookup_app_l_Some. Qed.

Lemma held_of_snoc n k stores s :
  held n k (stores ++ [s]) → held n k stores ∨ is_Some (kv_map s !! k).
Proof.
  intros (i & s' & ? & E & ?). apply lookup_app_Some in E as [E|[_ E]]; [left; by exists i, s'|].
  apply list_lookup_singleton_Some in E as [_ ->]. by right.
Qed.

Lemma try_delete_spec k s :
  (kv_map s !! k = None ∧ kv_try_delete k s = (s, Ok None)) ∨
  ∃ v s', kv_map s !! k = Some v ∧ kv_try_delete k s = (s', Ok (Some v)) ∧ kv_map s' = delete k (kv_map s).
Proof.
  unfold kv_try_delete. rewrite kv_get_map. destruct (kv_map s !! k) as [v|] eqn:E; [right|by left].
  destruct (kv_delete_map k s) as (s' & -> & Hs). by exists v, s'.
Qed.

(** The newest copy is deleted. *)
Lemma stores_delete_spec i stores k :
  (¬ held 0 k stores ∧ stores_delete_from i stores k = (stores, None)) ∨
  ∃ j s v s', stores !! j = Some s ∧ kv_map s !! k = Some v ∧ kv_map s' = delete k (kv_map s) ∧
    stores_delete_from i stores k = (<[j := s']> stores, Some (i + j, v)).
Proof.
  revert i. induction stores as [|s stores IH]; intros i; cbn [stores_delete_from].
  { left. split; [|done]. intros (? & ? & _ & [=] & _). }
  destruct (IH (S i)) as [[Hn E]|(j & s1 & v & s' & E1 & Ev & Es & E)]; rewrite E.
  - destruct (try_delete_spec k s) as [[Ek Et]|(v & s' & Ek & Et & Es)]; rewrite Et.
    + left. split; [|done]. intros ([|j] & s1 & _ & [=] & [? ?]); subst; [congruence|].
      apply Hn. exists j, s1. split; [lia|done].
    + right. exists 0, s, v, s'. cbn. by rewrite Nat.add_0_r.
  - right. exists (S j), s1, v, s'. cbn. by rewrite Nat.add_succ_r.
Qed.

Lemma put_last_spec k v stores s :
  stores !! (length stores - 1) = Some s →
  ∃ s', put_last k v stores = <[length stores - 1 := s']> stores ∧ kv_map s' = <[k := v]> (kv_map s).
Proof.
  induction stores as [|s1 [|s2 stores] IH]; cbn; [done| |].
  - intros [= ->]. destruct (kv_put_map k v s) as (s' & -> & Hs). by exists s'.
  - intros E. cbn in IH. rewrite Nat.sub_0_r in IH. destruct (IH E) as (s' & -> & Hs). by exists s'.
Qed.

Lemma stores_containing_spec i stores k :
  match stores_containing_from i stores k with
  | Some j => i ≤ j ∧ ∃ s, stores !! (j - i) = Some s ∧ is_Some (kv_map s !! k)
  | None => ¬ held 0 k stores
  end.
Proof.
  revert i. induction stores as [|s stores IH]; intros i; cbn [stores_containing_from].
  { intros (? & ? & _ & [=] & _). }
  rewrite kv_contains_map. cbn [result_or]. case_bool_decide as Hk.
  { split; [done|]. exists s. by rewrite Nat.sub_diag. }
  specialize (IH (S i)). destruct (stores_containing_from (S i) stores k) as [j|].
  - destruct IH as (? & s' & E & ?). split; [lia|]. exists s'. by replace (j - i) with (S (j - S i)) by lia.
  - intros ([|j] & s1 & _ & [=] & ?); subst; [done|]. apply IH. exists j, s1. split; [lia|done].
Qed.

(** ** What entries refer to *)

Definition stored_children (st : StoredEntry) : list bytes :=
  match st with
  | STree l => (λ e, e.2.2) <$> l
  | SBlob _ => []
  | SCommit c => [root_hash c]
  end.

(** Entries are stored under their hash: a key has one value, wherever it is stored, which
    is that of an entry. *)
Context (content : bytes → option StoredEntry).

Definition holds_content (k b : bytes) : Prop :=
  ∃ st, bincode_deserialize b = Some st ∧ content k = Some st.

Definition refs (k : bytes) : list bytes := from_option stored_children [] (content k).

Definition addressed (s : kv_store) : Prop := ∀ k b, kv_map s !! k = Some b → holds_content k b.

Lemma push_nodes_stored l todo :
  ∃ tree, of_stored (STree l) = ETree tree ∧
    push_nodes rounds tree todo = Ok (rev (stored_children (STree l)) ++ todo).
Proof.
  eexists. split; [done|]. revert todo. induction l as [|[n [kind h]] l IH]; intros todo; cbn; [done|].
  rewrite IH. by rewrite <- app_assoc.
Qed.

(** The entry of [key] was moved to the newest store. *)
Record moved (key : bytes) (stores stores' : list kv_store) : Prop := {
  moved_length : length stores' = length stores;
  moved_present : held 0 key stores;
  moved_last : held (length stores - 1) key stores';
  moved_held n k : held n k stores → held n k stores';
  moved_spares n k : k ≠ key → held n k stores' → held n k stores
}.

Lemma held_insert n k stores j s s' :
  stores !! j = Some s → (is_Some (kv_map s !! k) → is_Some (kv_map s' !! k)) →
  held n k stores → held n k (<[j := s']> stores).
Proof.
  intros Ej Hs (i & s1 & ? & Ei & Hk). destruct (decide (i = j)) as [->|Hij].
  - exists j, s'. split; [done|]. rewrite list_lookup_insert_eq by (by eapply lookup_lt_Some).
    simplify_eq. split; [done|by apply Hs].
  - exists i, s1. split; [done|]. by rewrite list_lookup_insert_ne.
Qed.

Lemma held_of_insert n k stores j s s' :
  stores !! j = Some s → (is_Some (kv_map s' !! k) → is_Some (kv_map s !! k)) →
  held n k (<[j := s']> stores) → held n k stores.
Proof.
  intros Ej Hs (i & s1 & ? & Ei & Hk). apply list_lookup_insert_Some in Ei as [(-> & <- & _)|[_ Ei]].
  - exists i, s. split; [done|]. split; [done|by apply Hs].
  - by exists i, s1.
Qed.

Lemma moved_intro key v stores j s s1 s2 s3 :
  stores !! j = Some s → is_Some (kv_map s !! key) → kv_map s1 = delete key (kv_map s) →
  <[j := s1]> stores !! (length stores - 1) = Some s2 → kv_map s3 = <[key := v]> (kv_map s2) →
  moved key stores (<[length stores - 1 := s3]> (<[j := s1]> stores)).
Proof.
  intros Ej Hv Es E2 Es3. assert (j < length stores) as Hj by (by eapply lookup_lt_Some).
  assert (Hlast : held (length stores - 1) key (<[length stores - 1 := s3]> (<[j := s1]> stores))).
  { exists (length stores - 1), s3. split; [done|]. rewrite list_lookup_insert_eq by (rewrite length_insert; lia).
    split; [done|]. by rewrite Es3, lookup_insert_eq. }
  split; [by rewrite !length_insert|exists j, s; split; [lia|done]|done| |].
  - intros n k Hk. destruct (decide (k = key)) as [->|Hne].
    { eapply held_weaken; [|exact Hlast]. destruct Hk as (i & ? & ? & Ei%lookup_lt_Some & _). lia. }
    eapply held_insert; [exact E2|by rewrite Es3, lookup_insert_ne by done|].
    eapply held_insert; [exact Ej|by rewrite Es, lookup_delete_ne by done|done].
  - intros n k Hne Hk. eapply held_of_insert in Hk; [|exact E2|by rewrite Es3, lookup_insert_ne by done].
    eapply held_of_insert in Hk; [exact Hk|exact Ej|by rewrite Es, lookup_delete_ne by done].
Qed.

(** The entry of a key that is present goes to the newest store. *)
Lemma collect_key_spec key stores todo :
  Forall addressed stores →
  (¬ held 0 key stores ∧ collect_key rounds key stores todo = (stores, Ok todo)) ∨
  ∃ stores', collect_key rounds key stores todo = (stores', Ok (rev (refs key) ++ todo)) ∧
    Forall addressed stores' ∧ moved key stores stores'.
Proof.
  intros Ha. unfold collect_key, stores_delete.
  destruct (stores_delete_spec 0 stores key) as [[Hn ->]|(j & s & v & s1 & Ej & Ev & Es & ->)]; [by left|right].
  destruct (Forall_lookup_1 _ _ _ _ Ha Ej key v Ev) as (st & Ed & Ec). rewrite Ed.
  assert (j < length stores) as Hj by (by eapply lookup_lt_Some).
  assert (Forall addressed (<[j := s1]> stores)) as Ha'.
  { apply Forall_insert; [done|]. intros k b. rewrite Es, lookup_delete_Some. intros [_ Hk].
    by eapply (Forall_lookup_1 _ _ _ _ Ha Ej). }
  destruct (lookup_lt_is_Some_2 (<[j := s1]> stores) (length stores - 1)) as [s2 E2]; [rewrite length_insert; lia|].
  destruct (put_last_spec key v (<[j := s1]> stores) s2) as (s3 & Ep & Es3); [by rewrite length_insert|].
  rewrite length_insert in Ep. exists (<[length stores - 1 := s3]> (<[j := s1]> stores)). split_and!.
  - unfold refs. rewrite Ec, Ep. cbn. destruct st as [l|b|c]; [|done..].
    destruct (push_nodes_stored l todo) as (tree & -> & ->). done.
  - apply Forall_insert; [done|]. intros k b. rewrite Es3, lookup_insert_Some.
    intros [[<- <-]|[_ Hk]]; [by exists st|]. by eapply (Forall_lookup_1 _ _ _ _ Ha' E2).
  - by eapply moved_intro.
Qed.

(** What is kept for each key is kept for all. *)
Lemma collect_keys_ind (P : list kv_store → list bytes → Prop) :
  (∀ stores key todo, ¬ held 0 key stores → P stores (key :: todo) → P stores todo) →
  (∀ stores stores' key todo, moved key stores stores' → P stores (key :: todo) → P stores' (rev (refs key) ++ todo)) →
  ∀ n stores todo, Forall addressed stores → P stores todo →
  ∃ stores' todo', collect_keys rounds n stores todo = (stores', Ok todo') ∧ Forall addressed stores' ∧
    length stores' = length stores ∧ P stores' todo'.
Proof.
  intros Hskip Hmove n. induction n as [|n IH]; intros stores [|key todo] Ha HP; cbn [collect_keys]; [by eauto 6..|].
  destruct (collect_key_spec key stores todo Ha) as [[Hn ->]|(stores' & -> & Ha' & Hm)].
  - eauto.
  - destruct (IH stores' (rev (refs key) ++ todo)) as (stores2 & todo2 & E & Ha2 & Hl & HP2); [done|eauto|].
    exists stores2, todo2. rewrite Hl. by rewrite (moved_length _ _ _ Hm).
Qed.

(** ** The invariant of the two threads *)

(** What the thread has received and not processed, what is in the channel, and what
    is about to be sent *)
Definition in_process (m : MarkMoveGCed) : list CmdMsg :=
  match mm_thread m with
  | Running t => match thread_pc t with Process (Some msg) => [msg] | _ => [] end
  | _ => []
  end.

Definition in_sending (m : MarkMoveGCed) : list CmdMsg :=
  match mm_main m with MainSending msg => [msg] | _ => [] end.

Definition pending (m : MarkMoveGCed) : list CmdMsg := in_process m ++ mm_msg m ++ in_sending m.

Fixpoint starts (l : list CmdMsg) : nat :=
  match l with
  | [] => 0
  | StartNewCycle :: l => S (starts l)
  | _ :: l => starts l
  end.

Lemma starts_app l1 l2 : starts (l1 ++ l2) = starts l1 + starts l2.
Proof. induction l1 as [|[] l1 IH]; cbn; [done|by rewrite IH|done|done]. Qed.

Definition thread_ok (c : nat) (m : MarkMoveGCed) : Prop :=
  match mm_thread m with
  | Spawned => length (mm_stores m) = c - 1 + starts (pending m)
  | Running t =>
      received_exit_msg t = false ∧ c - 1 ≤ preserved t ≤ length (reused_keys t) ∧
      length (mm_stores m) + preserved t = c - 1 + length (reused_keys t) + starts (pending m) ∧
      (todo_keys t ≠ [] → preserved t < length (reused_keys t)) ∧
      (thread_pc t = Receive → is_busy m = true →
        (0 < msg_cnt m)%Z ∨ preserved t < length (reused_keys t))
  | Returned | Panicked _ => False
  end.

(** The number of archived stores follows that of the sets of marked keys, up to the
    cycles that the thread has not heard of yet. *)
Record mm_ok (c : nat) (m : MarkMoveGCed) : Prop := {
  ok_cycles : 1 < c;
  ok_exit : Exit ∉ pending m;
  ok_cnt : msg_cnt m = (Z.of_nat (length (pending m)) + match mm_main m with MainPushing => 1 | _ => 0 end)%Z;
  ok_thread : thread_ok c m;
  ok_stores : Forall addressed (mm_stores m);
  ok_current : addressed (mm_current m)
}.

Definition event_ok (e : MmEvent) : Prop :=
  match e with
  | EvPut k v => holds_content k v
  | EvWrite batch => ∀ k v, (k, v) ∈ batch → holds_content k v
  | _ => True
  end.

Lemma addressed_default : addressed kv_default.
Proof. intros k b. rewrite kv_default_map. by rewrite lookup_empty. Qed.

Lemma new_ok c m : mark_move_new c = Some m → mm_ok c m.
Proof.
  unfold mark_move_new. case_decide; [|done]. intros [= <-].
  split; [done|by apply not_elem_of_nil|done| | |apply addressed_default].
  - cbn. rewrite length_replicate. lia.
  - apply Forall_replicate, addressed_default.
Qed.

(** *** The steps of the thread on its variables *)

(** The keys that are moved before the oldest store is dropped *)
Definition due (t : GcThread) (k : bytes) : Prop := k ∈ todo_keys t ∨ k ∈ oldest_reused t.

Definition marked (t : GcThread) (k : bytes) : Prop :=
  k ∈ todo_keys t ∨ ∃ s, s ∈ reused_keys t ∧ k ∈ s.

Lemma elem_of_rev_list {A} (k : A) l : k ∈ rev l ↔ k ∈ l.
Proof. rewrite !list_elem_of_In. symmetry. apply in_rev. Qed.

Lemma elem_of_set_into_iter k s : k ∈ set_into_iter s ↔ k ∈ s.
Proof. rewrite set_into_iter_elements. apply elem_of_elements. Qed.

Lemma take_oldest_cases t :
  (take_oldest t = t ∧ (preserved t < length (reused_keys t) → oldest_reused t = ∅)) ∨
  ∃ keys rest, reused_keys t = keys :: rest ∧ preserved t < length (reused_keys t) ∧
    take_oldest t = with_todo (rev (set_into_iter keys) ++ todo_keys t) (with_reused (∅ :: rest) t).
Proof.
  unfold take_oldest, oldest_reused. destruct (reused_keys t) as [|keys rest] eqn:E; [by left|].
  assert (collecting t = (preserved t <? length (keys :: rest))) as -> by (unfold collecting; by rewrite E).
  destruct (Nat.ltb_spec (preserved t) (length (keys :: rest))) as [Hlt|Hge]; cbn [andb].
  - case_bool_decide as Hk; cbn [negb]; [by left|right]. by exists keys, rest.
  - left. split; [done|]. lia.
Qed.

Lemma take_oldest_due t k : due t k → due (take_oldest t) k.
Proof.
  destruct (take_oldest_cases t) as [[-> _]|(keys & rest & E & _ & ->)]; [done|]. unfold due, oldest_reused. cbn. rewrite E. cbn.
  rewrite elem_of_app, elem_of_rev_list, elem_of_set_into_iter. set_solver.
Qed.

Lemma take_oldest_marked t k : marked (take_oldest t) k → marked t k.
Proof.
  destruct (take_oldest_cases t) as [[-> _]|(keys & rest & E & _ & ->)]; [done|]. unfold marked. cbn. rewrite E.
  rewrite elem_of_app, elem_of_rev_list, elem_of_set_into_iter. intros [[Hk|Hk]|(s & [->|Hs]%elem_of_cons & Hk)].
  - right. exists keys. split; [left|done].
  - by left.
  - by apply elem_of_empty in Hk.
  - right. exists s. split; [by right|done].
Qed.

Lemma take_oldest_shape t :
  preserved (take_oldest t) = preserved t ∧ length (reused_keys (take_oldest t)) = length (reused_keys t) ∧
  received_exit_msg (take_oldest t) = received_exit_msg t ∧
  ((todo_keys t ≠ [] → preserved t < length (reused_keys t)) →
    todo_keys (take_oldest t) ≠ [] → preserved t < length (reused_keys t)).
Proof. destruct (take_oldest_cases t) as [[-> _]|(keys & rest & E & Hl & ->)]; [done|]. cbn. by rewrite E in *. Qed.

Definition msg_list (msg : option CmdMsg) : list CmdMsg := from_option (λ m, [m]) [] msg.

Lemma process_msg_shape msg t m t' m' r :
  process_msg msg t m = (t', m', r) → msg ≠ Some Exit → received_exit_msg t = false →
  r = false ∧ m' = with_cnt (msg_cnt m - Z.of_nat (length (msg_list msg)))%Z m ∧
  preserved t' = preserved t ∧ todo_keys t' = todo_keys t ∧ received_exit_msg t' = false ∧
  length (reused_keys t') = length (reused_keys t) + starts (msg_list msg).
Proof.
  destruct msg as [[| |key]|]; cbn [process_msg msg_list from_option option_rect].
  - intros [= <- <- <-] _ He. cbn. rewrite length_app. by split_and!.
  - done.
  - intros [= <- <- <-] _ He. cbn. destruct (stores_containing (mm_stores m) key) as [i|]; [|by split_and!].
    destruct (reused_keys t !! i) as [keys|]; [|by split_and!]. cbn. rewrite length_insert. by split_and!.
  - intros E _ He. rewrite He in E. injection E as <- <- <-. cbn. rewrite Z.sub_0_r. by split_and!; [|destruct m|..].
Qed.

Lemma process_msg_due msg t m t' m' r k :
  process_msg msg t m = (t', m', r) → due t k → due t' k.
Proof.
  destruct msg as [[| |key]|]; cbn [process_msg]; [intros [= <- _ _]..|].
  - unfold due, oldest_reused. cbn. destruct (reused_keys t) as [|s rest]; [|done]. cbn. set_solver.
  - done.
  - destruct (stores_containing (mm_stores m) key) as [i|]; [|done].
    destruct (reused_keys t !! i) as [keys|] eqn:Ei; [|done]. unfold due, oldest_reused. cbn.
    destruct (reused_keys t) as [|s rest]; [done|]. destruct i as [|i]; cbn in *; [|done]. simplify_eq. set_solver.
  - destruct (_ && _ && _); by intros [= <- _ _].
Qed.

Lemma process_msg_marked msg t m t' m' r k :
  process_msg msg t m = (t', m', r) → marked t' k → marked t k ∨ msg = Some (MarkReused k).
Proof.
  destruct msg as [[| |key]|]; cbn [process_msg]; [intros [= <- _ _]..|].
  - intros [Hk|(s & [Hs| ->%list_elem_of_singleton]%elem_of_app & Hk)].
    + left. by left.
    + left. right. by exists s.
    + by apply elem_of_empty in Hk.
  - by left.
  - destruct (stores_containing (mm_stores m) key) as [i|]; [|by left].
    destruct (reused_keys t !! i) as [keys|] eqn:Ei; [|by left].
    intros [Hk|(s & Hs & Hk)]; [left; by left|]. cbn in Hs.
    apply list_elem_of_lookup in Hs as [j Hj]. apply list_lookup_insert_Some in Hj as [(_ & <- & _)|[_ Hj]].
    + apply elem_of_union in Hk as [->%elem_of_singleton|Hk]; [by right|].
      left. right. exists keys. split; [by eapply list_elem_of_lookup_2|done].
    + left. right. exists s. split; [by eapply list_elem_of_lookup_2|done].
  - destruct (_ && _ && _); intros [= <- _ _]; by left.
Qed.

(** *** The steps of the thread *)

Definition drop_now (t : GcThread) : bool :=
  collecting t && bool_decide (oldest_reused t = ∅) && no_todo t.

(** The steps of a thread that runs, under the invariant *)
Inductive thread_move (m : MarkMoveGCed) (t : GcThread) : MarkMoveGCed → Prop :=
| move_top :
    thread_pc t = LoopTop →
    thread_move m t (with_busy ((0 <? msg_cnt m)%Z || negb (no_todo t) || collecting t)
                       (with_thread (Running (at_pc Receive t)) m))
| move_receive msg rest :
    thread_pc t = Receive → mm_msg m = msg :: rest →
    thread_move m t (with_msg rest (with_thread (Running (at_pc (Process (Some msg)) t)) m))
| move_continue :
    thread_pc t = Receive → mm_msg m = [] → preserved t < length (reused_keys t) →
    thread_move m t (with_thread (Running (at_pc (Process None) t)) m)
| move_process msg t' :
    thread_pc t = Process msg →
    process_msg msg t m = (t', with_cnt (msg_cnt m - Z.of_nat (length (msg_list msg)))%Z m, false) →
    thread_move m t (with_thread (Running (at_pc Collect (take_oldest t')))
                       (with_cnt (msg_cnt m - Z.of_nat (length (msg_list msg)))%Z m))
| move_collect n stores todo :
    thread_pc t = Collect → (todo_keys t = [] ∨ 0 < n) →
    collect_keys rounds n (mm_stores m) (todo_keys t) = (stores, Ok todo) →
    thread_move m t (with_thread (Running (at_pc DropCycle (with_todo todo t))) (with_stores stores m))
| move_drop :
    thread_pc t = DropCycle → preserved t < length (reused_keys t) → oldest_reused t = ∅ → todo_keys t = [] →
    thread_move m t (with_thread (Running (at_pc LoopTop (with_reused (drop 1 (reused_keys t)) t)))
                       (with_stores (drop 1 (mm_stores m)) m))
| move_stay :
    thread_pc t = DropCycle → drop_now t = false →
    thread_move m t (with_thread (Running (at_pc LoopTop t)) m).

Lemma drop_now_true t :
  drop_now t = true ↔ preserved t < length (reused_keys t) ∧ oldest_reused t = ∅ ∧ todo_keys t = [].
Proof.
  unfold drop_now, collecting, no_todo. rewrite !andb_true_iff, Nat.ltb_lt, bool_decide_eq_true.
  destruct (todo_keys t); naive_solver.
Qed.

Lemma collect_ok n stores todo :
  Forall addressed stores →
  ∃ stores' todo', collect_keys rounds n stores todo = (stores', Ok todo') ∧ Forall addressed stores' ∧
    length stores' = length stores ∧ (todo = [] → todo' = []).
Proof.
  intros Ha. destruct todo as [|key todo].
  { exists stores, []. by destruct n. }
  destruct (collect_keys_ind (λ _ _, True) ltac:(done) ltac:(done) n stores (key :: todo)) as (s' & t' & ? & ? & ? & _); [done..|].
  by exists s', t'.
Qed.

Lemma max_iter_pos t stores : 0 < max_iter t stores.
Proof. unfold max_iter. destruct (_ <=? _); unfold COUNT_OF_KEYS_TO_CLEANUP_IN_SINGLE_GC_ITERATION, usize_MAX; lia. Qed.

Lemma with_todo_same t pc : todo_keys t = [] → at_pc pc (with_todo [] t) = at_pc pc t.
Proof. destruct t. cbn. by intros ->. Qed.

Lemma with_stores_same (m : MarkMoveGCed) th : with_thread th (with_stores (mm_stores m) m) = with_thread th m.
Proof. by destruct m. Qed.

Lemma thread_moves c m m' t :
  mm_ok c m → mm_thread m = Running t → gc_thread_step rounds m = Some m' → thread_move m t m'.
Proof.
  intros [_ He _ Ht Ha _] Et. unfold thread_ok in Ht. rewrite Et in Ht. destruct Ht as (Hexit & [_ Hp] & _ & _ & _).
  unfold gc_thread_step. rewrite Et. destruct (thread_pc t) as [| |msg| |] eqn:Epc.
  - intros [= <-]. by apply move_top.
  - destruct (mm_msg m) as [|msg rest] eqn:Em.
    + unfold wait_for_events. destruct (Nat.eqb_spec (length (reused_keys t)) (preserved t)); [by rewrite Hexit|].
      intros [= <-]. apply move_continue; [done..|lia].
    + intros [= <-]. by apply move_receive.
  - destruct (process_msg msg t m) as [[t' m1] r] eqn:Ep.
    assert (msg ≠ Some Exit) as Hne.
    { intros ->. apply He. unfold pending, in_process. rewrite Et, Epc. left. }
    destruct (process_msg_shape _ _ _ _ _ _ Ep Hne Hexit) as (-> & -> & _). intros [= <-]. by apply move_process.
  - unfold no_todo. destruct (todo_keys t) as [|key todo] eqn:Etodo.
    + intros [= <-]. rewrite <- (with_todo_same t DropCycle Etodo), <- (with_stores_same m).
      by eapply (move_collect _ _ 0); [done|by left|rewrite Etodo].
    + rewrite <- Etodo. destruct (collect_ok (max_iter t (mm_stores m)) (mm_stores m) (todo_keys t) Ha) as (s' & todo' & E & _).
      rewrite E. intros [= <-]. eapply move_collect; [done| |exact E]. right. apply max_iter_pos.
  - fold (drop_now t). destruct (drop_now t) eqn:Ed; intros [= <-]; [|by apply move_stay].
    apply drop_now_true in Ed as (? & ? & ?). by apply move_drop.
Qed.

Lemma pending_running m t :
  mm_thread m = Running t →
  pending m = (match thread_pc t with Process (Some msg) => [msg] | _ => [] end) ++ mm_msg m ++ in_sending m.
Proof. intros E. unfold pending, in_process. by rewrite E. Qed.

(** The parts of the invariant that concern a thread that runs *)
Lemma ok_running c m t :
  mm_thread m = Running t →
  mm_ok c m ↔ 1 < c ∧ Exit ∉ pending m ∧
    msg_cnt m = (Z.of_nat (length (pending m)) + match mm_main m with MainPushing => 1 | _ => 0 end)%Z ∧
    (received_exit_msg t = false ∧ c - 1 ≤ preserved t ≤ length (reused_keys t) ∧
      length (mm_stores m) + preserved t = c - 1 + length (reused_keys t) + starts (pending m) ∧
      (todo_keys t ≠ [] → preserved t < length (reused_keys t)) ∧
      (thread_pc t = Receive → is_busy m = true →
        (0 < msg_cnt m)%Z ∨ preserved t < length (reused_keys t))) ∧
    Forall addressed (mm_stores m) ∧ addressed (mm_current m).
Proof.
  intros E. assert (∀ P : Prop, P ↔ P) as Hr by done. split.
  - intros [? ? ? Ht ? ?]. unfold thread_ok in Ht. by rewrite E in Ht.
  - intros (? & ? & ? & Ht & ? & ?). split; [done..| |done|done]. unfold thread_ok. by rewrite E.
Qed.

Lemma move_ok c m t m' : mm_ok c m → mm_thread m = Running t → thread_move m t m' → mm_ok c m'.
Proof.
  intros Hok Et Hm. apply (ok_running c m t Et) in Hok as (Hc & He & Hcnt & (Hexit & [Hp1 Hp2] & Hl & Htodo & Hbusy) & Ha & Hcur).
  rewrite (pending_running m t Et) in He, Hcnt, Hl. destruct Hm as [Epc|msg rest Epc Em|Epc Em Hcol|msg t' Epc Ep|n stores todo Epc _ Ec|Epc Hcol Ho Hn|Epc _]; rewrite Epc in *;
    (eapply ok_running; [reflexivity|]); unfold pending, in_process, in_sending in *; cbn in *.
  - split_and!; try done. intros _ [[Hb|Hb]%orb_true_iff|Hb]%orb_true_iff.
    + left. by apply Z.ltb_lt.
    + right. apply Htodo. unfold no_todo in Hb. by destruct (todo_keys t).
    + right. by apply Nat.ltb_lt.
  - rewrite Em in *. by split_and!.
  - by split_and!.
  - assert (msg ≠ Some Exit) as Hne by (intros ->; apply He; left).
    destruct (process_msg_shape _ _ _ _ _ _ Ep Hne Hexit) as (_ & _ & Ep1 & Ep2 & Ep3 & Ep4).
    destruct (take_oldest_shape t') as (-> & -> & -> & Ht). rewrite Ep1, Ep2, Ep4, Ep3 in *.
    destruct msg as [msg|]; cbn [msg_list from_option app length] in *.
    + rewrite not_elem_of_cons in He. assert (starts (msg :: mm_msg m ++ in_sending m) = starts [msg] + starts (mm_msg m ++ in_sending m)) as Hs
        by apply (starts_app [msg]). unfold in_sending in Hs. rewrite Hs in Hl.
      split_and!; try done; try lia; [tauto|]. intros Hx. apply Ht; [|done]. intros Hy. specialize (Htodo Hy). lia.
    + split_and!; try done; cbn in *; try lia. intros Hx. apply Ht; [|done]. intros Hy. specialize (Htodo Hy). lia.
  - destruct (collect_ok n (mm_stores m) (todo_keys t) Ha) as (s' & todo' & E & Ha' & Hl' & Hnil).
    rewrite E in Ec. injection Ec as <- <-. rewrite Hl'. split_and!; try done. intros Hx. apply Htodo. intros Hy. by apply Hx, Hnil.
  - rewrite !length_drop. split_and!; try done; try lia. by apply Forall_drop.
  - by split_and!.
Qed.

Lemma thread_ok_main c m m' :
  mm_thread m' = mm_thread m → is_busy m' = is_busy m → (msg_cnt m ≤ msg_cnt m')%Z →
  length (mm_stores m') + starts (pending m) = length (mm_stores m) + starts (pending m') →
  thread_ok c m → thread_ok c m'.
Proof.
  intros Et Eb Hc Hl. unfold thread_ok. rewrite Et, Eb. destruct (mm_thread m) as [|t| |e]; [lia| |done..].
  intros (? & ? & ? & ? & Hb). split_and!; [done|lia|lia|lia|done|]. intros Hpc Hbusy.
  destruct (Hb Hpc Hbusy); [left; lia|by right].
Qed.

Lemma current_ok c m (s : kv_store) : mm_ok c m → addressed s → mm_ok c (with_current s m).
Proof. by intros [] ?; split. Qed.

(** The steps of the main thread that count or send a message *)
Lemma main_ok c m m' :
  mm_ok c m → mm_thread m' = mm_thread m → is_busy m' = is_busy m → (msg_cnt m ≤ msg_cnt m')%Z →
  Exit ∉ pending m' →
  msg_cnt m' = (Z.of_nat (length (pending m')) + match mm_main m' with MainPushing => 1 | _ => 0 end)%Z →
  length (mm_stores m') + starts (pending m) = length (mm_stores m) + starts (pending m') →
  Forall addressed (mm_stores m') → addressed (mm_current m') → mm_ok c m'.
Proof. intros [Hc _ _ Ht _ _] ? ? ? ? ? ? ? ?. split; [done..| |done|done]. by eapply thread_ok_main. Qed.

Lemma mark_ok c m k : mm_ok c m → mm_main m = MainIdle → mm_ok c (begin_mark k m).
Proof.
  intros Hok Em. pose proof Hok as [Hc Hx Hcnt _ Ha Hcur]. unfold pending, in_sending in Hx, Hcnt. rewrite Em, app_nil_r in Hx, Hcnt.
  eapply main_ok; [exact Hok|done|done|cbn; lia|..|exact Ha|exact Hcur]; unfold pending, in_process, in_sending in *; cbn in *.
  - rewrite app_assoc, elem_of_app, list_elem_of_singleton. by intros [?|[=]].
  - rewrite app_assoc, length_app. cbn. lia.
  - rewrite Em, app_nil_r, !starts_app. cbn. lia.
Qed.

Lemma new_cycle_ok c m : mm_ok c m → mm_main m = MainIdle → mm_ok c (begin_new_cycle m).
Proof.
  intros Hok Em. pose proof Hok as [Hc Hx Hcnt _ Ha Hcur].
  eapply main_ok; [exact Hok|done|done|cbn; lia|..|exact Ha|exact Hcur];
    unfold pending, in_process, in_sending in *; cbn in *; rewrite Em in *; [done|lia|done].
Qed.

Lemma push_ok c m : mm_ok c m → mm_main m = MainPushing → mm_ok c (push_current m).
Proof.
  intros Hok Em. pose proof Hok as [Hc Hx Hcnt _ Ha Hcur]. unfold pending, in_sending in Hx, Hcnt. rewrite Em, app_nil_r in Hx, Hcnt.
  eapply main_ok; [exact Hok|done|done|cbn; lia|..]; unfold pending, in_process, in_sending in *; cbn in *.
  - rewrite app_assoc, elem_of_app, list_elem_of_singleton. by intros [?|[=]].
  - rewrite app_assoc, length_app. cbn. lia.
  - rewrite Em, app_nil_r, length_app, !starts_app. cbn. lia.
  - apply Forall_app. by split; [|constructor].
  - apply addressed_default.
Qed.

Lemma send_msg_ok c m msg :
  mm_ok c m → mm_main m = MainSending msg →
  send_msg msg m = (with_msg (mm_msg m ++ [msg]) (with_main MainIdle m), Ok tt) ∧ mm_ok c (send_msg msg m).1 ∧
  pending (send_msg msg m).1 = pending m.
Proof.
  intros Hok Em. pose proof Hok as [Hc Hx Hcnt Ht Ha Hcur].
  assert (receiver_alive m = true) as Hr.
  { unfold receiver_alive. unfold thread_ok in Ht. by destruct (mm_thread m). }
  assert (send_msg msg m = (with_msg (mm_msg m ++ [msg]) (with_main MainIdle m), Ok tt)) as ->.
  { unfold send_msg. cbn [mm_msg with_main]. unfold receiver_alive in *. cbn. by rewrite Hr. }
  assert (pending (with_msg (mm_msg m ++ [msg]) (with_main MainIdle m)) = pending m) as Ep.
  { unfold pending, in_process, in_sending. cbn. by rewrite Em, app_nil_r. }
  split_and!; [done| |done]. eapply main_ok; [exact Hok|..]; cbn [fst]; try rewrite Ep; try done.
  by rewrite Em in Hcnt.
Qed.

(** Every step of the two threads keeps the invariant. *)
Lemma mm_step_ok c e m m' : mm_ok c m → event_ok e → mm_step e m = Some m' → mm_ok c m'.
Proof.
  intros Hok He. destruct e as [|k v|batch|k|k| | |]; cbn [mm_step];
    [|destruct (mm_main m) as [| |msg] eqn:Em; try done; intros [= <-]..].
  - destruct (mm_thread m) as [|t| |e] eqn:Et; [|intros Hs; eapply move_ok; [done..|by eapply thread_moves]|
      unfold gc_thread_step; by rewrite Et..].
    unfold gc_thread_step. rewrite Et. intros [= <-]. destruct Hok as [Hc Hx Hcnt Ht Ha Hcur].
    unfold thread_ok in Ht. rewrite Et in Ht. eapply ok_running; [reflexivity|].
    unfold pending, in_process, in_sending in *. rewrite Et in *. cbn in *. rewrite length_replicate. split_and!; try done; lia.
  - unfold on_current. destruct (kv_put_map k v (mm_current m)) as (s' & -> & Hs). apply current_ok; [done|].
    intros k' b. rewrite Hs, lookup_insert_Some. intros [[<- <-]|[_ ?]]; [done|by eapply ok_current].
  - unfold on_current. destruct (kv_write_batch_map batch (mm_current m)) as (s' & -> & Hs). apply current_ok; [done|].
    intros k' b. rewrite Hs. destruct (write_all_cases batch (kv_map (mm_current m)) k') as [[-> _]|(b' & -> & Hin)];
      [by eapply ok_current|]. intros [= <-]. by apply He.
  - unfold on_current. destruct (kv_delete_map k (mm_current m)) as (s' & -> & Hs). apply current_ok; [done|].
    intros k' b. rewrite Hs, lookup_delete_Some. intros [_ ?]. by eapply ok_current.
  - by apply mark_ok.
  - by apply new_cycle_ok.
  - by apply push_ok.
  - by apply send_msg_ok.
Qed.

Lemma mm_run_ok c es m m' : mm_ok c m → Forall event_ok es → mm_run es m = Some m' → mm_ok c m'.
Proof.
  revert m. induction es as [|e es IH]; intros m Hok Hes; cbn; [by intros [= <-]|].
  apply Forall_cons in Hes as [He Hes]. destruct (mm_step e m) as [m1|] eqn:E; [|done]. cbn.
  apply IH; [|done]. by eapply mm_step_ok.
Qed.

(** ** Marked entries are kept *)

Lemma main_stores e m m' :
  e ≠ EvThread → mm_step e m = Some m' →
  mm_thread m' = mm_thread m ∧
  (mm_stores m' = mm_stores m ∨ mm_stores m' = mm_stores m ++ [mm_current m]).
Proof.
  intros He. destruct e as [|k v|batch|k|k| | |]; cbn [mm_step]; [done|destruct (mm_main m) as [| |msg]; try done; intros [= <-]..];
    try by (split; [|left]).
  - unfold on_current. destruct (kv_put k v (mm_current m)). by split; [|left].
  - unfold on_current. destruct (kv_write_batch batch (mm_current m)). by split; [|left].
  - unfold on_current. destruct (kv_delete k (mm_current m)). by split; [|left].
  - by split; [|right].
  - unfold send_msg. destruct (receiver_alive _); by (split; [|left]).
Qed.

Lemma collect_held n stores todo stores' todo' k i :
  Forall addressed stores → collect_keys rounds n stores todo = (stores', Ok todo') → held i k stores → held i k stores'.
Proof.
  intros Ha E Hk. destruct (collect_keys_ind (λ stores _, held i k stores)) with (n := n) (stores := stores) (todo := todo)
    as (s' & t' & E' & _ & _ & Hk'); [done|intros ? ? ? ? Hm ?; by apply (moved_held _ _ _ Hm)|done|done|].
  rewrite E in E'. by injection E' as <- <-.
Qed.

(** The oldest store is dropped, or everything stays at least where it is. *)
Lemma step_stores c e m m' :
  mm_ok c m → mm_step e m = Some m' →
  (step_drops e m = 0 ∧ ∀ n k, held n k (mm_stores m) → held n k (mm_stores m')) ∨
  (step_drops e m = 1 ∧ mm_stores m' = drop 1 (mm_stores m)).
Proof.
  intros Hok Hs. assert (e = EvThread ∨ e ≠ EvThread ∧ step_drops e m = 0) as [->|[He Hd]] by (destruct e; [by left|by right..]).
  2: { left. split; [done|]. intros n k Hk. apply main_stores in Hs as [_ [->| ->]]; [done|by apply held_snoc|done]. }
  cbn [mm_step] in Hs. unfold step_drops, dropping. destruct (mm_thread m) as [|t| |] eqn:Et.
  { left. split; [done|]. unfold gc_thread_step in Hs. rewrite Et in Hs. by injection Hs as <-. }
  2-3: unfold gc_thread_step in Hs; by rewrite Et in Hs.
  fold (drop_now t). pose proof (ok_stores c m Hok) as Ha.
  destruct (thread_moves c m m' t Hok Et Hs) as [Epc|msg rest Epc Em|Epc Em Hcol|msg t' Epc Ep|n stores todo Epc _ Ec|Epc Hcol Ho Hn'|Epc Hd];
    rewrite Epc; [by left..| | |].
  - left. split; [done|]. intros i k. by eapply collect_held.
  - right. by rewrite (proj2 (drop_now_true t)).
  - left. by rewrite Hd.
Qed.

(** [d] is reached from [k] through keys in [D]. *)
Inductive reach (D : bytes → Prop) : bytes → bytes → Prop :=
| reach_here k : D k → reach D k k
| reach_child k c d : D k → c ∈ refs k → reach D c d → reach D k d.

Lemma reach_start D k d : reach D k d → D k.
Proof. by destruct 1. Qed.

(** [d] is in one of the newer stores, or will be moved there. *)
Definition covered (n : nat) (D : bytes → Prop) (d : bytes) (stores : list kv_store) (keys : bytes → Prop) : Prop :=
  held n d stores ∨ ∃ k, keys k ∧ reach D k d.

Lemma collect_covered n D d i stores todo stores' todo' (K : bytes → Prop) :
  Forall addressed stores → n ≤ length stores - 1 → (∀ k, D k → held 0 k stores) →
  collect_keys rounds i stores todo = (stores', Ok todo') →
  covered n D d stores (λ k, k ∈ todo ∨ K k) → covered n D d stores' (λ k, k ∈ todo' ∨ K k).
Proof.
  intros Ha Hl HD E Hc.
  destruct (collect_keys_ind (λ stores todo, n ≤ length stores - 1 ∧ (∀ k, D k → held 0 k stores) ∧
      covered n D d stores (λ k, k ∈ todo ∨ K k))) with (n := i) (stores := stores) (todo := todo)
    as (s' & t' & E' & _ & _ & _ & _ & Hk'); [| |done|done|rewrite E in E'; by injection E' as <- <-].
  - intros st key td Hno (? & HD' & Hcov). split_and!; [done..|]. destruct Hcov as [Hh|(k & [Hk|Hk] & Hr)]; [by left| |right; eauto].
    apply elem_of_cons in Hk as [->|Hk]; [|right; eauto]. destruct Hno. by eapply HD', reach_start.
  - intros st st' key td Hm (Hl' & HD' & Hcov). split_and!.
    + by rewrite (moved_length _ _ _ Hm).
    + intros k Hk. by apply (moved_held _ _ _ Hm), HD'.
    + destruct Hcov as [Hh|(k & [Hk|Hk] & Hr)]; [left; by apply (moved_held _ _ _ Hm)| |right; eauto].
      apply elem_of_cons in Hk as [->|Hk]; [|right; exists k; split; [left; apply elem_of_app; by right|done]].
      destruct Hr as [k Hk|k c d Hk Hin Hr].
      * left. eapply held_weaken; [exact Hl'|]. exact (moved_last _ _ _ Hm).
      * right. exists c. split; [|done]. left. apply elem_of_app. left. by apply elem_of_rev_list.
Qed.

Lemma covered_mono n D d stores stores' (K K' : bytes → Prop) :
  (held n d stores → held n d stores') → (∀ k, K k → K' k) →
  covered n D d stores K → covered n D d stores' K'.
Proof. intros Hs HK [Hh|(k & Hk & Hr)]; [left; by apply Hs|right; exists k; split; [by apply HK|done]]. Qed.

(** After [r] stores were dropped *)
Definition surviving (c : nat) (D : bytes → Prop) (d : bytes) (r : nat) (m : MarkMoveGCed) : Prop :=
  match r with
  | O => ∃ t, mm_thread m = Running t ∧ (∀ k, D k → held 0 k (mm_stores m)) ∧
      covered (c - 1) D d (mm_stores m) (due t)
  | S _ => held (c - 1 - r) d (mm_stores m)
  end.

Lemma step_drops_running m t :
  mm_thread m = Running t →
  step_drops EvThread m = match thread_pc t with DropCycle => if drop_now t then 1 else 0 | _ => 0 end.
Proof. intros Et. unfold step_drops, dropping. rewrite Et. by destruct (thread_pc t). Qed.

Lemma move_surviving c D d m t m' :
  mm_ok c m → mm_thread m = Running t → covered (c - 1) D d (mm_stores m) (due t) →
  (∀ k, D k → held 0 k (mm_stores m)) → thread_move m t m' →
  ∃ t', mm_thread m' = Running t' ∧
    if decide (step_drops EvThread m = 0) then covered (c - 1) D d (mm_stores m') (due t')
    else held (c - 1) d (mm_stores m).
Proof.
  intros Hok Et Hcov HD Hm. pose proof (ok_stores c m Hok) as Ha. rewrite (step_drops_running m t Et).
  destruct Hm as [Epc|msg rest Epc Em|Epc Em Hcol|msg t' Epc Ep|n stores todo Epc _ Ec|Epc Hcol Ho Hn|Epc Hd];
    (eexists; split; [reflexivity|]); rewrite Epc; [done..| | | |by rewrite Hd].
  - eapply covered_mono; [..|exact Hcov]; [done|]. intros k Hk. apply (take_oldest_due t' k). by eapply process_msg_due.
  - destruct (todo_keys t) as [|key rest] eqn:Etodo.
    { assert (stores = mm_stores m ∧ todo = []) as [-> ->] by (destruct n; cbn in Ec; by simplify_eq).
      eapply covered_mono; [done| |exact Hcov]. intros k. unfold due. by rewrite Etodo. }
    eapply (collect_covered (c - 1) D d n (mm_stores m) (key :: rest) stores todo (λ k, k ∈ oldest_reused t)); [done| |done|done|].
    + apply (ok_running c m t Et) in Hok as (Hc & _ & _ & (_ & Hp & Hl & Ht & _) & _).
      rewrite Etodo in Ht. specialize (Ht ltac:(done)). lia.
    + eapply covered_mono; [done| |exact Hcov]. intros k. unfold due. by rewrite Etodo.
  - rewrite (proj2 (drop_now_true t)) by done. destruct Hcov as [Hh|(k & [Hk|Hk] & _)]; [done|..].
    + rewrite Hn in Hk. by apply not_elem_of_nil in Hk.
    + rewrite Ho in Hk. by apply elem_of_empty in Hk.
Qed.

Lemma step_surviving c D d r e m m' :
  mm_ok c m → mm_step e m = Some m' → r + step_drops e m ≤ c - 1 →
  surviving c D d r m → surviving c D d (r + step_drops e m) m'.
Proof.
  intros Hok Hs Hle. destruct r as [|r]; cbn [surviving].
  - intros (t & Et & HD & Hcov).
    assert (e = EvThread ∨ e ≠ EvThread ∧ step_drops e m = 0) as [->|[He Hd]] by (destruct e; [by left|by right..]).
    + destruct (move_surviving c D d m t m') as (t' & Et' & Hor); [done..|by eapply thread_moves|].
      destruct (step_stores c EvThread m m' Hok Hs) as [[Hd Hst]|[Hd Hst]]; rewrite Hd in *; cbn in Hor; cbn [surviving Nat.add].
      * exists t'. split; [done|]. split; [intros k Hk; by apply Hst, HD|done].
      * rewrite Hst. apply held_drop; [lia|done].
    + rewrite Hd. destruct (step_stores c e m m' Hok Hs) as [[_ Hst]|[Hd' _]]; [|lia].
      apply main_stores in Hs as [Ht' _]; [|done]. exists t. split; [by rewrite Ht'|].
      split; [intros k Hk; by apply Hst, HD|]. eapply covered_mono; [apply Hst|done|done].
  - intros Hh. destruct (step_stores c e m m' Hok Hs) as [[Hd Hst]|[Hd Hst]]; rewrite Hd in *; cbn [surviving Nat.add].
    + rewrite Nat.add_0_r. by apply Hst.
    + rewrite Hst. replace (c - 1 - S (r + 1)) with (c - 1 - S r - 1) by lia. apply held_drop; [lia|done].
Qed.

Lemma run_surviving c D d r es m m' :
  mm_ok c m → Forall event_ok es → mm_run es m = Some m' → r + drops es m ≤ c - 1 →
  surviving c D d r m → surviving c D d (r + drops es m) m'.
Proof.
  revert r m. induction es as [|e es IH]; intros r m Hok Hes; cbn.
  { intros [= <-]. by rewrite Nat.add_0_r. }
  apply Forall_cons in Hes as [He Hes]. destruct (mm_step e m) as [m1|] eqn:E; [|done]. cbn. intros Hr Hle Hsv.
  rewrite Nat.add_assoc in *. apply (IH _ m1); [by eapply mm_step_ok|done|done|done|].
  apply step_surviving; [done|done|lia|done].
Qed.

Lemma held_contains k m : held 0 k (mm_stores m) → mm_contains k m = Ok true.
Proof.
  intros (i & s & _ & E & Hk). unfold mm_contains. rewrite kv_contains_map. cbn. f_equal. apply orb_true_iff. right.
  unfold stores_contains. apply existsb_exists. exists s. split.
  - rewrite <- in_rev. apply list_elem_of_In. by eapply list_elem_of_lookup_2.
  - rewrite kv_contains_map. cbn. by apply bool_decide_eq_true.
Qed.

Lemma find_map_Some {A B} (f : A → option B) l b : find_map f l = Some b → ∃ a, a ∈ l ∧ f a = Some b.
Proof.
  induction l as [|a l IH]; cbn; [done|]. destruct (f a) as [b'|] eqn:E.
  - intros [= ->]. exists a. split; [left|done].
  - intros (a' & Hin & E')%IH. exists a'. split; [by right|done].
Qed.

(** What is read is the content of the key. *)
Lemma get_content c k m b : mm_ok c m → mm_get k m = Ok (Some b) → holds_content k b.
Proof.
  intros Hok. unfold mm_get. rewrite kv_get_map. cbn. destruct (kv_map (mm_current m) !! k) as [b'|] eqn:E.
  - intros [= <-]. by eapply (ok_current c m Hok).
  - intros [= (s & Hs & E')%find_map_Some]. rewrite kv_get_map in E'. cbn in E'.
    rewrite elem_of_rev_list in Hs. pose proof (ok_stores c m Hok) as Ha. rewrite Forall_forall in Ha. by apply (Ha s Hs).
Qed.

Lemma find_map_is_Some {A B} (f : A → option B) l a : a ∈ l → is_Some (f a) → is_Some (find_map f l).
Proof.
  intros Hin Ha. induction Hin as [a l|a a' l Hin IH]; cbn.
  - destruct Ha as [b ->]. by eexists.
  - destruct (f a'); [by eexists|by apply IH].
Qed.

Lemma held_get c k m : mm_ok c m → held 0 k (mm_stores m) → ∃ b, mm_get k m = Ok (Some b) ∧ holds_content k b.
Proof.
  intros Hok (i & s & _ & E & Hk). assert (∃ b, mm_get k m = Ok (Some b)) as [b Hb].
  { unfold mm_get. rewrite kv_get_map. cbn. destruct (kv_map (mm_current m) !! k) as [b|]; [by eexists|].
    destruct (find_map_is_Some (λ store, result_or (kv_get k store) None) (rev (mm_stores m)) s) as [b Eb].
    - apply elem_of_rev_list. by eapply list_elem_of_lookup_2.
    - by rewrite kv_get_map.
    - exists b. by f_equal. }
  exists b. split; [done|]. by eapply get_content.
Qed.

(** C22: an entry that is marked in the oldest cycle is kept with all it refers to, for
    all interleavings of the collector with the main thread: the entries that can
    be reached from it in the archived stores can be read, with the same content, until as
    many stores were dropped as there are archived cycles. *)
Theorem marked_entries_survive c es0 m0 m t es m' k d :
  mark_move_new c = Some m0 → Forall event_ok es0 → mm_run es0 m0 = Some m → mm_thread m = Running t →
  due t k → reach (λ k, held 0 k (mm_stores m)) k d →
  Forall event_ok es → mm_run es m = Some m' → drops es m ≤ c - 1 →
  ∃ b, mm_get d m' = Ok (Some b) ∧ holds_content d b.
Proof.
  intros H0' Hes0 Hr0 Et Hk Hreach Hes Hr Hd.
  assert (mm_ok c m) as Hok by (apply (mm_run_ok c es0 m0 m); [by apply new_ok|done|done]).
  apply (held_get c); [by eapply mm_run_ok|].
  assert (surviving c (λ k, held 0 k (mm_stores m)) d 0 m) as Hsv by (exists t; split_and!; [done|done|right; eauto]).
  apply (run_surviving c _ d 0 es m m') in Hsv; [|done..]. cbn [Nat.add] in Hsv.
  destruct (drops es m) as [|r] eqn:E; cbn [surviving] in Hsv.
  - destruct Hsv as (t' & _ & HD & _). apply HD.
    clear -Hreach. induction Hreach; done.
  - eapply held_weaken; [|exact Hsv]. lia.
Qed.

(** ** Other entries go *)

(** Nothing that is marked, or will be, refers to [d]. *)
Definition unmarked (d : bytes) (t : GcThread) (m : MarkMoveGCed) : Prop :=
  ∀ k, marked t k ∨ MarkReused k ∈ pending m → ¬ reach (λ _, True) k d.

Definition event_avoids (d : bytes) (e : MmEvent) : Prop :=
  match e with
  | EvPut k _ => k ≠ d
  | EvWrite batch => d ∉ batch.*1
  | EvMark k => ¬ reach (λ _, True) k d
  | _ => True
  end.

(** [d] is in the oldest store at most, and in none after [r] stores were dropped, if [r] is not 0. *)
Definition fading (d : bytes) (r : nat) (m : MarkMoveGCed) : Prop :=
  ∃ t, mm_thread m = Running t ∧ unmarked d t m ∧ kv_map (mm_current m) !! d = None ∧
    ¬ held (1 - r) d (mm_stores m).

Lemma collect_unmarked n d i stores todo stores' todo' :
  Forall addressed stores → collect_keys rounds i stores todo = (stores', Ok todo') →
  ¬ held n d stores → (∀ k, k ∈ todo → ¬ reach (λ _, True) k d) →
  ¬ held n d stores' ∧ ∀ k, k ∈ todo' → ¬ reach (λ _, True) k d.
Proof.
  intros Ha E Hn Ht.
  destruct (collect_keys_ind (λ stores todo, ¬ held n d stores ∧ ∀ k, k ∈ todo → ¬ reach (λ _, True) k d))
    with (n := i) (stores := stores) (todo := todo)
    as (s' & t' & E' & _ & _ & Hk'); [| |done|done|rewrite E in E'; by injection E' as <- <-].
  - intros st key td _ [? Hk]. split; [done|]. intros k ?. apply Hk. by right.
  - intros st st' key td Hm [Hh Hk]. split.
    + intros Hh'. apply Hh. apply (moved_spares _ _ _ Hm); [|done]. intros ->. apply (Hk key); [left|by constructor].
    + intros k [Hin|Hin]%elem_of_app Hr; [|apply (Hk k); [by right|done]].
      rewrite elem_of_rev_list in Hin.
      apply (Hk key); [left|]. by apply (reach_child _ key k d).
Qed.

Lemma move_fading c d n m t m' :
  mm_ok c m → mm_thread m = Running t → unmarked d t m → ¬ held n d (mm_stores m) → thread_move m t m' →
  ∃ t', mm_thread m' = Running t' ∧ unmarked d t' m' ∧ mm_current m' = mm_current m ∧
    ¬ held (n - step_drops EvThread m) d (mm_stores m').
Proof.
  intros Hok Et Hu Hn Hm. pose proof (ok_stores c m Hok) as Ha. rewrite (step_drops_running m t Et).
  unfold unmarked in Hu. rewrite (pending_running m t Et) in Hu.
  destruct Hm as [Epc|msg rest Epc Em|Epc Em Hcol|msg t' Epc Ep|i stores todo Epc _ Ec|Epc Hcol Ho Hn'|Epc Hd];
    rewrite Epc in *; (eexists; split; [reflexivity|]); unfold unmarked, pending, in_process, in_sending in *; cbn in *.
  - by rewrite Nat.sub_0_r.
  - rewrite Em in Hu. by rewrite Nat.sub_0_r.
  - by rewrite Nat.sub_0_r.
  - rewrite Nat.sub_0_r. split_and!; [|done|done]. intros k [Hk|Hk].
    + destruct (process_msg_marked _ _ _ _ _ _ k Ep) as [Hk'| ->]; [by apply (take_oldest_marked t' k)|by apply Hu; left|].
      apply Hu. right. left.
    + apply Hu. right. by apply elem_of_app; right.
  - rewrite Nat.sub_0_r. destruct (collect_unmarked n d i (mm_stores m) (todo_keys t) stores todo) as [Hh Ht]; [done..| |].
    { intros k Hk. apply Hu. left. by left. }
    split_and!; [|done|done]. intros k [[Hk|Hk]|Hk]; [by apply Ht|apply Hu; left; by right|apply Hu; by right].
  - rewrite (proj2 (drop_now_true t)) by done. split_and!; [|done|].
    + intros k [[Hk|(s & Hs & Hk)]|Hk]; apply Hu; [left; by left| |by right]. cbn in Hs.
      left. right. exists s. split; [|done]. destruct (reused_keys t); [done|by right].
    + intros Hh%held_of_drop. apply Hn. eapply held_weaken; [|exact Hh]. lia.
  - rewrite Hd, Nat.sub_0_r. by split_and!.
Qed.

Lemma main_fading d e m m' t :
  e ≠ EvThread → event_avoids d e → mm_step e m = Some m' → mm_thread m = Running t →
  unmarked d t m → kv_map (mm_current m) !! d = None →
  unmarked d t m' ∧ kv_map (mm_current m') !! d = None.
Proof.
  intros He Hv Hs Et Hu Hc. unfold unmarked, pending, in_process, in_sending in *. rewrite Et in Hu.
  destruct e as [|k v|batch|k|k| | |]; [done|..]; cbn [mm_step event_avoids] in Hs, Hv;
    destruct (mm_main m) as [| |msg] eqn:Em; try done; injection Hs as <-; cbn [mm_thread].
  - unfold on_current. destruct (kv_put_map k v (mm_current m)) as (s' & -> & Hs). cbn. rewrite Et, Em, Hs. by rewrite lookup_insert_ne.
  - unfold on_current. destruct (kv_write_batch_map batch (mm_current m)) as (s' & -> & Hs). cbn. rewrite Et, Em, Hs. split; [done|].
    destruct (write_all_cases batch (kv_map (mm_current m)) d) as [[-> _]|(b & _ & Hin)]; [done|].
    destruct Hv. apply list_elem_of_fmap. by exists (d, b).
  - unfold on_current. destruct (kv_delete_map k (mm_current m)) as (s' & -> & Hs). cbn. rewrite Et, Em, Hs. split; [done|].
    apply lookup_delete_None. by right.
  - cbn. rewrite Et. split; [|done]. intros k' [Hk|Hk]; [by apply Hu; left|].
    rewrite app_nil_r in Hu. rewrite app_assoc, elem_of_app, list_elem_of_singleton in Hk.
    destruct Hk as [Hk|[= ->]]; [by apply Hu; right|done].
  - cbn. by rewrite Et.
  - cbn. rewrite Et, kv_default_map. split; [|by rewrite lookup_empty]. intros k' [Hk|Hk]; [by apply Hu; left|].
    rewrite app_nil_r in Hu. rewrite app_assoc, elem_of_app, list_elem_of_singleton in Hk.
    destruct Hk as [Hk|[=]]. by apply Hu; right.
  - unfold send_msg, receiver_alive. cbn [with_main mm_thread]. rewrite Et. cbn. rewrite Et. split; [|done]. by rewrite app_nil_r.
Qed.

Lemma step_fading c d r e m m' :
  mm_ok c m → mm_step e m = Some m' → event_avoids d e → fading d r m → fading d (r + step_drops e m) m'.
Proof.
  intros Hok Hs Hv (t & Et & Hu & Hc & Hh).
  assert (e = EvThread ∨ e ≠ EvThread ∧ step_drops e m = 0) as [->|[He Hd]] by (destruct e; [by left|by right..]).
  - destruct (move_fading c d (1 - r) m t m') as (t' & Et' & Hu' & Hc' & Hh'); [done..|by eapply thread_moves|].
    exists t'. split_and!; [done|done|by rewrite Hc'|]. by replace (1 - (r + _)) with (1 - r - step_drops EvThread m) by lia.
  - rewrite Hd, Nat.add_0_r. destruct (main_fading d e m m' t) as [Hu' Hc']; [done..|].
    apply main_stores in Hs as [Et' Hst]; [|done]. exists t. split_and!; [by rewrite Et'|done|done|].
    destruct Hst as [->| ->]; [done|]. intros [?|[? ?]]%held_of_snoc; [done|congruence].
Qed.

Lemma run_fading c d r es m m' :
  mm_ok c m → Forall event_ok es → Forall (event_avoids d) es → mm_run es m = Some m' →
  fading d r m → fading d (r + drops es m) m'.
Proof.
  revert r m. induction es as [|e es IH]; intros r m Hok Hes Hav; cbn.
  { intros [= <-]. by rewrite Nat.add_0_r. }
  apply Forall_cons in Hes as [He Hes]. apply Forall_cons in Hav as [Hv Hav].
  destruct (mm_step e m) as [m1|] eqn:E; [|done]. cbn. intros Hr Hf.
  rewrite Nat.add_assoc. apply (IH _ m1); [by eapply mm_step_ok|done|done|done|]. by eapply step_fading.
Qed.

(** An entry that only the oldest store has, to which no marked entry refers,
    is gone once that store was dropped, for all interleavings in which it is not
    written again. *)
Theorem unmarked_entries_removed c es0 m0 m t es m' d :
  mark_move_new c = Some m0 → Forall event_ok es0 → mm_run es0 m0 = Some m → mm_thread m = Running t →
  kv_map (mm_current m) !! d = None → ¬ held 1 d (mm_stores m) → unmarked d t m →
  Forall event_ok es → Forall (event_avoids d) es → mm_run es m = Some m' → 0 < drops es m →
  mm_get d m' = Ok None.
Proof.
  intros H0' Hes0 Hr0 Et Hc Hh Hu Hes Hav Hr Hd.
  assert (mm_ok c m) as Hok by (apply (mm_run_ok c es0 m0 m); [by apply new_ok|done|done]).
  assert (fading d 0 m) as Hf by (by exists t). apply (run_fading c d 0 es m m') in Hf as (t' & _ & _ & Hc' & Hh'); [|done..].
  unfold mm_get. rewrite kv_get_map, Hc'. cbn. f_equal. destruct (stores_get (mm_stores m') d) as [b|] eqn:E; [|done].
  apply find_map_Some in E as (s & Hs & E). rewrite kv_get_map in E. cbn in E. rewrite elem_of_rev_list in Hs.
  apply list_elem_of_lookup in Hs as [i Hi]. destruct Hh'. exists i, s. split; [lia|]. by rewrite E.
Qed.

(** ** The collector comes to an end *)

Section Termination.
(** What an entry refers to has a smaller rank: entries contain the hashes of the entries
    they refer to, so that these were there before. *)
Context (rank : bytes → nat) (Hrank : ∀ k c, c ∈ refs k → rank c < rank k).

(** How often keys are popped on behalf of a key: entries that are shared are
    moved once for each path that leads to them. *)
Fixpoint paths (n : nat) (k : bytes) : nat :=
  match n with
  | O => 1
  | S n => S (sum_list (paths n <$> refs k))
  end.

Definition weight (k : bytes) : nat := paths (rank k) k.
Definition total (l : list bytes) : nat := sum_list (weight <$> l).

Lemma refs_leaf k : rank k = 0 → refs k = [].
Proof. intros E. destruct (refs k) as [|c l] eqn:El; [done|]. specialize (Hrank k c). rewrite El in Hrank. specialize (Hrank ltac:(left)). lia. Qed.

Lemma paths_enough n n' k : rank k ≤ n → rank k ≤ n' → paths n k = paths n' k.
Proof.
  revert n' k. induction n as [|n IH]; intros n' k Hn Hn'.
  { destruct n'; [done|]. cbn. by rewrite refs_leaf by lia. }
  destruct n' as [|n']; cbn; [by rewrite refs_leaf by lia|]. do 2 f_equal.
  apply list_fmap_ext. intros i c Hc%list_elem_of_lookup_2. apply Hrank in Hc. apply IH; lia.
Qed.

Lemma weight_refs k : weight k = S (total (refs k)).
Proof.
  unfold weight at 1. destruct (rank k) as [|r] eqn:E; cbn; [by rewrite refs_leaf by done|]. f_equal. unfold total. f_equal.
  apply list_fmap_ext. intros i c Hc%list_elem_of_lookup_2. apply Hrank in Hc. apply paths_enough; lia.
Qed.

Lemma total_app l1 l2 : total (l1 ++ l2) = total l1 + total l2.
Proof. unfold total. induction l1 as [|k l1 IH]; cbn; [done|]. cbn in IH. lia. Qed.

Lemma total_perm l1 l2 : l1 ≡ₚ l2 → total l1 = total l2.
Proof. intros E. unfold total. by rewrite E. Qed.

Lemma collect_total_le n stores todo stores' todo' :
  Forall addressed stores → collect_keys rounds n stores todo = (stores', Ok todo') → total todo' ≤ total todo.
Proof.
  intros Ha E. destruct (collect_keys_ind (λ _ td, total td ≤ total todo)) with (n := n) (stores := stores) (todo := todo)
    as (s' & t' & E' & _ & _ & Hk'); [| |done|done|rewrite E in E'; by injection E' as <- <-].
  - intros _ key td _. unfold total. cbn. lia.
  - intros _ _ key td _. rewrite total_app, (total_perm (rev (refs key)) (refs key)) by (symmetry; apply Permutation_rev).
    change (total (key :: td)) with (weight key + total td). rewrite weight_refs. lia.
Qed.

Lemma collect_total_lt n stores todo stores' todo' :
  Forall addressed stores → todo ≠ [] → 0 < n →
  collect_keys rounds n stores todo = (stores', Ok todo') → total todo' < total todo.
Proof.
  intros Ha Ht Hn. destruct n as [|n]; [lia|]. destruct todo as [|key todo]; [done|]. cbn [collect_keys].
  change (total (key :: todo)) with (weight key + total todo). rewrite weight_refs.
  destruct (collect_key_spec key stores todo Ha) as [[_ ->]|(s1 & -> & Ha1 & _)]; intros E%collect_total_le; try done; [lia|].
  rewrite total_app, (total_perm (rev (refs key)) (refs key)) in E by (symmetry; apply Permutation_rev). lia.
Qed.

(** The thread runs on its own. *)
Definition leads (m m' : MarkMoveGCed) : Prop := ∃ n, mm_run (replicate n EvThread) m = Some m'.

Lemma leads_refl m : leads m m.
Proof. by exists 0. Qed.

Lemma leads_step m m1 m' : gc_thread_step rounds m = Some m1 → leads m1 m' → leads m m'.
Proof. intros E [n Hn]. exists (S n). cbn. by rewrite E. Qed.

Lemma leads_trans m m1 m' : leads m m1 → leads m1 m' → leads m m'.
Proof.
  intros [n Hn]. revert m Hn. induction n as [|n IH]; intros m; cbn; [by intros [= ->]|].
  destruct (gc_thread_step rounds m) as [m2|] eqn:E; [|done]. cbn. intros Hn Hl. eapply leads_step; [exact E|]. by eapply IH.
Qed.

Lemma leads_ok c m m' : mm_ok c m → leads m m' → mm_ok c m'.
Proof.
  intros Hok [n Hn]. eapply mm_run_ok; [exact Hok| |exact Hn]. by apply Forall_replicate.
Qed.

(** One of the two last steps of an iteration makes progress. *)
Lemma collect_progress c m t :
  mm_ok c m → mm_thread m = Running t → thread_pc t = Collect →
  (preserved t < length (reused_keys t) → oldest_reused t = ∅) →
  ∃ m' t', leads m m' ∧ mm_thread m' = Running t' ∧ thread_pc t' = LoopTop ∧ mm_msg m' = mm_msg m ∧
    mm_main m' = mm_main m ∧ preserved t' = preserved t ∧
    (preserved t < length (reused_keys t) →
      length (reused_keys t') < length (reused_keys t) ∨
      length (reused_keys t') = length (reused_keys t) ∧ total (todo_keys t') < total (todo_keys t) ∧ oldest_reused t' = ∅).
Proof.
  intros Hok Et Epc Ho. pose proof (ok_stores c m Hok) as Ha.
  destruct (collect_ok (max_iter t (mm_stores m)) (mm_stores m) (todo_keys t) Ha) as (stores & todo & Ec & _ & _ & Hnil).
  set (m1 := with_thread (Running (at_pc DropCycle (with_todo todo t))) (with_stores stores m)).
  assert (gc_thread_step rounds m = Some m1 ∧ (todo_keys t = [] ∨ total todo < total (todo_keys t))) as [E1 Hlt].
  { unfold gc_thread_step. rewrite Et, Epc. unfold no_todo. destruct (todo_keys t) as [|key rest] eqn:Etodo.
    - assert (stores = mm_stores m ∧ todo = []) as [-> ->] by (destruct (max_iter t (mm_stores m)); cbn in Ec; by simplify_eq).
      split; [|by left]. unfold m1. by rewrite with_stores_same, with_todo_same.
    - rewrite Ec. split; [done|right]. eapply collect_total_lt; [exact Ha|done|apply max_iter_pos|exact Ec]. }
  destruct (drop_now (with_todo todo t)) eqn:Ed.
  - apply drop_now_true in Ed as (Hcol & Ho' & Hn). cbn in Hcol, Hn.
    eexists _, _. split; [eapply leads_step; [exact E1|]; eapply leads_step; [|apply leads_refl]|].
    { unfold m1, gc_thread_step. cbn [mm_thread with_thread thread_pc at_pc]. change (collecting _ && _ && _) with (drop_now (with_todo todo t)).
      rewrite (proj2 (drop_now_true _)); done. }
    do 5 (split; [done|]). intros _. left. cbn. rewrite length_drop. lia.
  - eexists _, _. split; [eapply leads_step; [exact E1|]; eapply leads_step; [|apply leads_refl]|].
    { unfold m1, gc_thread_step. cbn [mm_thread with_thread thread_pc at_pc]. change (collecting _ && _ && _) with (drop_now (with_todo todo t)).
      rewrite Ed. done. }
    do 5 (split; [done|]). intros Hcol. right. cbn. split; [done|]. split; [|by apply Ho].
    destruct Hlt as [Hn|]; [|done]. exfalso. rewrite (proj2 (drop_now_true _)) in Ed; [done|]. cbn. split; [done|]. split; [by apply Ho|by apply Hnil].
Qed.

Definition work (t : GcThread) : nat := total (todo_keys t) + total (elements (oldest_reused t)).

Lemma take_oldest_work t :
  work (take_oldest t) = work t ∧
  (preserved t < length (reused_keys t) → oldest_reused (take_oldest t) = ∅).
Proof.
  destruct (take_oldest_cases t) as [[-> Ho]|(keys & rest & E & _ & ->)]; [done|]. split; [|done].
  unfold work, oldest_reused. rewrite E.
  change (total (rev (set_into_iter keys) ++ todo_keys t) + total (elements (∅ : gset bytes)) = total (todo_keys t) + total (elements keys)).
  rewrite total_app, (total_perm (rev (set_into_iter keys)) (elements keys)).
  - rewrite elements_empty. unfold total. cbn. lia.
  - by rewrite <- Permutation_rev, set_into_iter_elements.
Qed.

Lemma process_progress c m t msg :
  mm_ok c m → mm_thread m = Running t → thread_pc t = Process msg →
  ∃ m' t', leads m m' ∧ mm_thread m' = Running t' ∧ thread_pc t' = LoopTop ∧ mm_msg m' = mm_msg m ∧
    mm_main m' = mm_main m ∧
    (msg = None → preserved t < length (reused_keys t) →
      length (reused_keys t') < length (reused_keys t) ∨
      length (reused_keys t') = length (reused_keys t) ∧ work t' < work t).
Proof.
  intros Hok Et Epc. pose proof Hok as Hok'. apply (ok_running c m t Et) in Hok' as (_ & He & _ & (Hexit & _) & _).
  destruct (process_msg msg t m) as [[t1 m1] r] eqn:Ep. assert (msg ≠ Some Exit) as Hne.
  { intros ->. apply He. rewrite (pending_running m t Et), Epc. left. }
  destruct (process_msg_shape _ _ _ _ _ _ Ep Hne Hexit) as (-> & -> & Ep1 & _).
  assert (E1 : gc_thread_step rounds m = Some (with_thread (Running (at_pc Collect (take_oldest t1)))
    (with_cnt (msg_cnt m - Z.of_nat (length (msg_list msg)))%Z m))) by (unfold gc_thread_step; by rewrite Et, Epc, Ep).
  assert (mm_ok c _) as Hok1 by (eapply move_ok; [exact Hok|exact Et|by eapply thread_moves]).
  destruct (take_oldest_work t1) as [Hw Ho]. destruct (take_oldest_shape t1) as (Es1 & Es2 & _).
  destruct (collect_progress c _ _ Hok1 eq_refl eq_refl) as (m' & t' & Hl & Et' & Epc' & Em & Emain & _ & Hprog).
  { cbn. rewrite Es1, Es2. exact Ho. }
  exists m', t'. split; [by eapply leads_step|]. split_and!; [done..|]. intros -> Hcol.
  assert (t1 = t) as -> by (cbn [process_msg] in Ep; rewrite Hexit in Ep; by injection Ep).
  cbn [preserved reused_keys todo_keys at_pc] in Hprog. rewrite Es1, Es2 in Hprog.
  destruct (Hprog Hcol) as [?|(? & Hlt & Ho')]; [by left|right]. split; [done|]. rewrite <- Hw. unfold work.
  rewrite Ho', elements_empty. change (total []) with 0. lia.
Qed.

Lemma receive_progress c m t :
  mm_ok c m → mm_thread m = Running t → thread_pc t = Receive →
  gc_thread_step rounds m = None ∨
  ∃ m' t', leads m m' ∧ mm_thread m' = Running t' ∧ thread_pc t' = LoopTop ∧ mm_main m' = mm_main m ∧
    (length (mm_msg m') < length (mm_msg m) ∨ mm_msg m' = mm_msg m ∧
      (length (reused_keys t') < length (reused_keys t) ∨
       length (reused_keys t') = length (reused_keys t) ∧ work t' < work t)).
Proof.
  intros Hok Et Epc. destruct (gc_thread_step rounds m) as [m1|] eqn:E1; [right|by left].
  assert (mm_ok c m1) as Hok1 by (by eapply (mm_step_ok c EvThread m)).
  destruct (thread_moves c m m1 t Hok Et E1) as [Epc'|msg rest _ Em|_ Em Hcol|msg t' Epc'|n stores todo Epc'|Epc'|Epc'];
    try (rewrite Epc in Epc'; discriminate).
  - destruct (process_progress c _ _ (Some msg) Hok1 eq_refl eq_refl) as (m' & t' & Hl & Et' & Epc' & Emsg & Emain & _).
    exists m', t'. split; [by eapply leads_step|]. split_and!; [done..|]. left. rewrite Emsg, Em. cbn. lia.
  - destruct (process_progress c _ _ None Hok1 eq_refl eq_refl) as (m' & t' & Hl & Et' & Epc' & Emsg & Emain & Hp).
    exists m', t'. split; [by eapply leads_step|]. split_and!; [done..|]. right. split; [done|]. by apply Hp.
Qed.

Lemma top_finishes c a b w m t :
  mm_ok c m → mm_thread m = Running t → thread_pc t = LoopTop →
  length (mm_msg m) = a → length (reused_keys t) = b → work t = w →
  ∃ m', leads m m' ∧ gc_thread_step rounds m' = None ∧ mm_main m' = mm_main m.
Proof.
  revert b w m t. induction a as [a IHa] using lt_wf_ind. intros b. induction b as [b IHb] using lt_wf_ind.
  intros w. induction w as [w IHw] using lt_wf_ind. intros m t Hok Et Epc Ha Hb Hw.
  assert (E1 : gc_thread_step rounds m = Some (with_busy ((0 <? msg_cnt m)%Z || negb (no_todo t) || collecting t)
    (with_thread (Running (at_pc Receive t)) m))) by (unfold gc_thread_step; by rewrite Et, Epc).
  assert (mm_ok c _) as Hok1 by (by apply (mm_step_ok c EvThread m _ Hok I E1)).
  destruct (receive_progress c _ _ Hok1 eq_refl eq_refl) as [Hn|(m' & t' & Hl & Et' & Epc' & Emain & Hp)].
  { eexists. split; [eapply leads_step; [exact E1|apply leads_refl]|]. by split. }
  assert (mm_ok c m') as Hok' by (by eapply leads_ok). assert (leads m m') as Hlm by (by eapply leads_step).
  assert (Hrec : (∃ m2, leads m' m2 ∧ gc_thread_step rounds m2 = None ∧ mm_main m2 = mm_main m') →
    ∃ m2, leads m m2 ∧ gc_thread_step rounds m2 = None ∧ mm_main m2 = mm_main m).
  { intros (m2 & Hl2 & Hn2 & Em2). exists m2. split; [by eapply leads_trans|]. split; [done|by rewrite Em2]. }
  apply Hrec. change (work (at_pc Receive t)) with (work t) in Hp.
  cbn [mm_msg with_busy with_thread reused_keys at_pc] in Hp. destruct Hp as [Hp|[Em Hp]]; [by eapply (IHa (length (mm_msg m')) ltac:(lia))|].
  destruct Hp as [Hp|[Eb Hp]]; [eapply (IHb (length (reused_keys t')) ltac:(lia)); eauto; by rewrite Em|].
  eapply (IHw (work t')); eauto; [lia|by rewrite Em|by rewrite Eb].
Qed.

Lemma running_finishes c m t :
  mm_ok c m → mm_thread m = Running t →
  ∃ m', leads m m' ∧ gc_thread_step rounds m' = None ∧ mm_main m' = mm_main m.
Proof.
  intros Hok Et.
  assert (gc_thread_step rounds m = None ∨ ∃ m1 t1, leads m m1 ∧ mm_thread m1 = Running t1 ∧ thread_pc t1 = LoopTop ∧
    mm_main m1 = mm_main m) as [Hn|(m1 & t1 & Hl & Et1 & Epc & Em)]; [|by exists m; split; [apply leads_refl|]|].
  - destruct (gc_thread_step rounds m) as [m1|] eqn:E; [right|by left].
    assert (mm_ok c m1) as Hok1 by (by eapply (mm_step_ok c EvThread m)).
    destruct (thread_moves c m m1 t Hok Et E) as [Epc|msg rest Epc Em|Epc Em Hcol|msg t' Epc Ep|n stores todo Epc Hn Ec|Epc Hcol Ho Hn|Epc Hd].
    + by exists m, t; split; [apply leads_refl|].
    + destruct (process_progress c _ _ (Some msg) Hok1 eq_refl eq_refl) as (m' & t' & Hl & ? & ? & _ & ? & _).
      exists m', t'. by split; [by eapply leads_step|].
    + destruct (process_progress c _ _ None Hok1 eq_refl eq_refl) as (m' & t' & Hl & ? & ? & _ & ? & _).
      exists m', t'. by split; [by eapply leads_step|].
    + destruct (process_progress c _ _ msg Hok Et Epc) as (m' & t2 & Hl & ? & ? & _ & ? & _). by exists m', t2.
    + destruct (gc_thread_step rounds (with_thread (Running (at_pc DropCycle (with_todo todo t))) (with_stores stores m))) as [m2|] eqn:E2.
      2: { unfold gc_thread_step in E2. cbn in E2. by destruct (_ && _ && _). }
      destruct (thread_moves c _ m2 _ Hok1 eq_refl E2) as [Epc2|? ? Epc2|Epc2|? ? Epc2|? ? ? Epc2|Epc2|Epc2]; try discriminate Epc2;
        (eexists _, _; split; [eapply leads_step; [exact E|eapply leads_step; [exact E2|apply leads_refl]]|done]).
    + eexists _, _. split; [eapply leads_step; [exact E|apply leads_refl]|done].
    + eexists _, _. split; [eapply leads_step; [exact E|apply leads_refl]|done].
  - destruct (top_finishes c _ _ _ m1 t1 ltac:(by eapply leads_ok) Et1 Epc eq_refl eq_refl eq_refl) as (m' & Hl' & Hn & Em').
    exists m'. split; [by eapply leads_trans|]. split; [done|]. by rewrite Em'.
Qed.

(** Where the thread waits, everything is done. *)
Lemma waiting_state c m :
  mm_ok c m → gc_thread_step rounds m = None → mm_main m = MainIdle →
  gc_finished m = true ∧ mm_msg m = [] ∧ length (mm_stores m) = c - 1.
Proof.
  intros Hok Hn Em. unfold gc_thread_step in Hn. destruct (mm_thread m) as [|t| |e] eqn:Et; [done| |..].
  2-3: destruct Hok as [_ _ _ Ht _ _]; unfold thread_ok in Ht; by rewrite Et in Ht.
  destruct (proj1 (ok_running c m t Et) Hok) as (_ & _ & Hcnt & (Hexit & Hp & Hl & _ & Hbusy) & _).
  unfold pending, in_process, in_sending in *. rewrite Et, Em in *.
  destruct (thread_pc t) as [| |msg| |] eqn:Epc; [done| |..].
  - destruct (mm_msg m) as [|msg rest]; [|done]. unfold wait_for_events in Hn.
    destruct (Nat.eqb_spec (length (reused_keys t)) (preserved t)) as [Hr|]; [|done].
    cbn in Hcnt, Hl. split_and!; [|done|lia]. unfold gc_finished. rewrite Hcnt. cbn.
    destruct (is_busy m); [|done]. destruct (Hbusy eq_refl eq_refl); lia.
  - destruct (process_msg msg t m) as [[t' m'] r]. by destruct r.
  - destruct (no_todo t); [done|]. by destruct (collect_keys _ _ _ _) as [? []].
  - by destruct (_ && _ && _).
Qed.

(** C23: left alone, the thread of the collector processes all messages, moves all entries that are
    due and drops the old stores.  It ends up waiting for messages, with as many
    archived stores as it was made for, and [wait_for_gc_finish] returns. *)
Theorem gc_finishes c es0 m0 m :
  mark_move_new c = Some m0 → Forall event_ok es0 → mm_run es0 m0 = Some m → mm_main m = MainIdle →
  ∃ n m', mm_run (replicate n EvThread) m = Some m' ∧ gc_thread_step rounds m' = None ∧
    gc_finished m' = true ∧ mm_msg m' = [] ∧ length (mm_stores m') = c - 1.
Proof.
  intros H0' Hes0 Hr0 Em. assert (mm_ok c m) as Hok by (apply (mm_run_ok c es0 m0 m); [by apply new_ok|done|done]).
  assert (∃ m', leads m m' ∧ gc_thread_step rounds m' = None ∧ mm_main m' = mm_main m) as (m' & Hl & Hn & Em').
  { pose proof (ok_thread c m Hok) as Ht. unfold thread_ok in Ht. destruct (mm_thread m) as [|t| |] eqn:Et; [|by eapply running_finishes|done..].
    assert (E1 : gc_thread_step rounds m = Some (with_thread (Running (thread_start m)) m)) by (unfold gc_thread_step; by rewrite Et).
    destruct (running_finishes c _ _ (mm_step_ok c EvThread _ _ Hok I E1) eq_refl) as (m' & Hl & ? & ?).
    exists m'. by split; [by eapply leads_step|]. }
  assert (mm_ok c m') as Hok' by (by eapply leads_ok). rewrite Em in Em'.
  destruct (waiting_state c m' Hok' Hn Em') as (? & ? & ?). destruct Hl as [n Hl]. by exists n, m'.
Qed.

End Termination.

End MarkMoveFacts.

(** ** What is marked *)

Section Marks.
Context `{KeyValueStoreBackend, MerkleLib, Bincode StoredEntry}.
Context (rounds : nat).

Definition directory_hashes (cache : gmap bytes (gset bytes)) : Prop :=
  ∀ h, is_Some (cache !! h) → ∃ tree, hash_entry rounds (ETree tree) = Ok h.

Lemma collect_children_cache (collect : Entry → gset bytes → gmap bytes (gset bytes) →
    gmap bytes (gset bytes) * result (gset bytes) GarbageCollectionError) tree b cache cache' r :
  (∀ e b cache cache' r, directory_hashes cache → collect e b cache = (cache', r) → directory_hashes cache') →
  directory_hashes cache → collect_children collect tree b cache = (cache', r) → directory_hashes cache'.
Proof.
  intros Hc. revert b cache. induction tree as [|[name n] tree IH]; intros b cache Hd; cbn; [by intros [= <- _]|].
  destruct (node_entry n) as [e|]; [|by intros [= <- _]].
  destruct (collect e b cache) as [cache1 [b1|]] eqn:E; [|intros [= <- _]; by eapply Hc]. apply IH. by eapply Hc.
Qed.

(** Only directories enter the cache. *)
Lemma collect_cache fuel store entry batch cache cache' r :
  directory_hashes cache → collect_hashes rounds fuel store entry batch cache = (cache', r) → directory_hashes cache'.
Proof.
  revert entry batch cache cache' r. induction fuel as [|fuel IH]; intros entry batch cache cache' r Hd; cbn [collect_hashes].
  { by intros [= <- _]. }
  destruct (hash_entry rounds entry) as [h|] eqn:Eh; [|by intros [= <- _]].
  destruct (cache !! h); [by intros [= <- _]|]. destruct entry as [tree|v|c].
  - destruct (collect_children _ tree ∅ cache) as [cache1 [b1|]] eqn:E;
      pose proof (collect_children_cache _ _ _ _ _ _ IH Hd E) as E'; intros [= <- _]; [|done].
    intros h' [? [[<- _]|[_ ?]]%lookup_insert_Some]; [by exists tree|apply E'; by eexists].
  - by intros [= <- _].
  - destruct (fetch_entry_from_store store (root_hash c)) as [e|]; [by apply IH|by intros [= <- _]].
Qed.

End Marks.

(** Applying a block marks no entry as reused: the marks are looked up in the cache under
    the hash of the commit, and the cache has directories only. *)
Lemma block_applied_marks_nothing `{KeyValueStoreBackend, MerkleLib, Bincode StoredEntry, HashSetOrder}
    (rounds : nat) (new m : MarkMoveGCed) (commit : bytes) :
  directory_hashes rounds (mm_cache m) → (∀ tree, hash_entry rounds (ETree tree) ≠ Ok commit) →
  ∃ cache, (mm_block_applied rounds new commit m).1 = with_cache cache m ∧ directory_hashes rounds cache.
Proof.
  intros Hd Hc. assert (m = with_cache (mm_cache m) m) as Em by (by destruct m).
  assert (directory_hashes rounds ∅) as He by (intros h [? [=]]).
  unfold mm_block_applied. destruct (@fetch_entry_from_store (mark_move_backend new) _ m commit) as [[t|v|c]|]; [by exists (mm_cache m)..| |by exists (mm_cache m)].
  destruct (@collect_hashes (mark_move_backend new) _ _ rounds rounds m (ECommit c) ∅ (mm_cache m)) as [cache [b|]] eqn:E; [|by exists ∅].
  eapply (collect_cache (H := mark_move_backend new)) in E; [|done].
  destruct (cache !! commit) as [s|] eqn:Es; [|by exists cache].
  destruct (E commit) as [tree Ht]; [by eexists|]. by destruct (Hc tree).
Qed.
