(* ===== verification/MerkleStorage.v ===== *)
(** * The context: [storage/src/context/merkle/merkle_storage.rs]

    [MerkleStorage] keeps a working tree over a store of entries.  Entries are
    loaded from the store where the tree only knows their hash; a commit writes
    what was added and a checkout makes a committed tree the working tree.

    Loading an entry and computing a hash fill the cells of a node.  The
    operations below do not record what was loaded; [filled] of [MerkleFacts]
    describes it and the theorems hold for any filling.  Statistics are left
    out: nothing but their report reads them. *)

From stdpp Require Import gmap.
From S2P Require Import Prelude Kv MerkleTree ContextStore.

Abbreviation ContextKey := (list bytes).

(** A path printed with slashes between its names *)
Fixpoint key_to_string (key : ContextKey) : bytes :=
  match key with
  | [] => []
  | [k] => k
  | k :: key => k ++ 47 :: key_to_string key
  end.

(** [split('/')] *)
Fixpoint string_to_key (s : bytes) : ContextKey :=
  match s with
  | [] => [[]]
  | b :: s =>
      match string_to_key s with
      | [] => [[b]]
      | k :: key => if decide (b = 47) then [] :: k :: key else (b :: k) :: key
      end
  end.

(** [StringTreeEntry]; a blob is printed in hexadecimal. *)
Inductive StringTreeEntry :=
| StringTree (tree : list (bytes * StringTreeEntry))
| StringBlob (blob : bytes)
| StringNull.

Section MerkleStorage.
Context `{KeyValueStoreBackend} `{!GarbageCollector} `{MerkleLib, Bincode StoredEntry}.

(** What the code looked for, or found *)
Inductive Sought := SoughtTree | SoughtBlob | SoughtCommit | SoughtTreeOrBlob.

Inductive MerkleError :=
| DBError (error : kv_error)
| MSerializationError
| GarbageCollectionError (error : gc_error)
| ValueIsNotABlob (key : bytes)
| FoundUnexpectedStructure (sought found : Sought)
| EntryNotFound (hash : bytes)
| TreeNotFoundInWorkingTree (tree_id : Z)
| ValueNotFound (key : bytes)
| KeyEmpty
| MHashingError (error : HashingError)
| InvalidState
| GCTriggeredBeforeFirstCommit.

Record MerkleStorage := mkMerkleStorage {
  working_tree : Tree;
  working_tree_id : Z;
  db : kv_store;
  trees : gmap Z Tree;
  last_commit_hash : option bytes
}.

(** How deep the stack allows the recursions to go *)
Context (rounds : nat).

Definition new (db : kv_store) : MerkleStorage := mkMerkleStorage [] 0 db {[0 := []]} None.

(** ** Entries *)

Definition get_entry_from_hash (store : kv_store) (hash : bytes) : result Entry MerkleError :=
  let? entry_bytes := map_err DBError (kv_get hash store) in
  match entry_bytes with
  | None => Err (EntryNotFound hash)
  | Some b => let? s := ok_or (bincode_deserialize b) MSerializationError in Ok (of_stored s)
  end.

Definition get_entry (store : kv_store) (n : Node) : result Entry MerkleError :=
  match node_entry n with
  | Some e => Ok e
  | None => let? hash := ok_or (node_hash n) InvalidState in get_entry_from_hash store hash
  end.

Definition get_tree (e : Entry) : result Tree MerkleError :=
  match e with
  | ETree tree => Ok tree
  | EBlob _ => Err (FoundUnexpectedStructure SoughtTree SoughtBlob)
  | ECommit _ => Err (FoundUnexpectedStructure SoughtTree SoughtCommit)
  end.

Definition get_commit (store : kv_store) (hash : bytes) : result Commit MerkleError :=
  let? e := get_entry_from_hash store hash in
  match e with
  | ECommit commit => Ok commit
  | ETree _ => Err (FoundUnexpectedStructure SoughtCommit SoughtTree)
  | EBlob _ => Err (FoundUnexpectedStructure SoughtCommit SoughtBlob)
  end.

Definition get_non_leaf (e : Entry) : Node := mkNode NonLeaf None (Some e).

(** ** Looking up *)

Fixpoint find_tree (store : kv_store) (root : Tree) (key : ContextKey) : result Tree MerkleError :=
  match key with
  | [] => Ok root
  | first :: key =>
      match omap_get first root with
      | None => Ok []
      | Some child_node =>
          let? e := get_entry store child_node in
          match e with
          | ETree tree => find_tree store tree key
          | EBlob _ => Ok []
          | ECommit _ => Err (FoundUnexpectedStructure SoughtTreeOrBlob SoughtCommit)
          end
      end
  end.

(** [key.last()] and [&key[..key.len() - 1]] *)
Definition split_last (key : ContextKey) : result (ContextKey * bytes) MerkleError :=
  let? file := ok_or (last key) KeyEmpty in Ok (take (length key - 1) key, file).

Definition value_exists (store : kv_store) (tree : Tree) (key : ContextKey) : result bool MerkleError :=
  let? (path, file) := split_last key in
  match find_tree store tree path with
  | Ok node => Ok (bool_decide (is_Some (omap_get file node)))
  | Err _ => Ok false
  end.

Definition directory_exists (store : kv_store) (root : Tree) (key : ContextKey) : bool :=
  match find_tree store root key with
  | Ok node => bool_decide (node ≠ [])
  | Err _ => false
  end.

Definition get_from_tree (store : kv_store) (root : Tree) (key : ContextKey) : result bytes MerkleError :=
  let? (path, file) := split_last key in
  let? node := find_tree store root path in
  let? node := ok_or (omap_get file node) (ValueNotFound (key_to_string key)) in
  let? e := get_entry store node in
  match e with
  | EBlob blob => Ok blob
  | _ => Err (ValueIsNotABlob (key_to_string key))
  end.

Definition get (key : ContextKey) (m : MerkleStorage) : result bytes MerkleError :=
  match get_from_tree (db m) (working_tree m) key with
  | Ok v => Ok v
  | Err _ => Ok []
  end.

Definition mem (key : ContextKey) (m : MerkleStorage) : result bool MerkleError :=
  value_exists (db m) (working_tree m) key.

Definition dirmem (key : ContextKey) (m : MerkleStorage) : result bool MerkleError :=
  Ok (directory_exists (db m) (working_tree m) key).

Definition get_history (commit_hash : bytes) (key : ContextKey) (m : MerkleStorage)
    : result bytes MerkleError :=
  let? commit := get_commit (db m) commit_hash in
  let? e := get_entry_from_hash (db m) (root_hash commit) in
  let? tree := get_tree e in
  get_from_tree (db m) tree key.

(** ** Listing *)

(** The loop over a directory: entries that cannot be loaded are skipped. *)
Definition key_values_of_children
    (rec : bytes → Entry → result (list (ContextKey * bytes)) MerkleError) (store : kv_store) (path : bytes)
    : Tree → result (list (ContextKey * bytes)) MerkleError :=
  fix go l :=
    match l with
    | [] => Ok []
    | (key, child_node) :: l =>
        let? here :=
          match get_entry store child_node with
          | Err _ => Ok []
          | Ok e => rec (path ++ 47 :: key) e
          end in
        let? rest := go l in Ok (here ++ rest)
    end.

Fixpoint get_key_values_from_tree_recursively (fuel : nat) (store : kv_store) (path : bytes) (e : Entry)
    : result (list (ContextKey * bytes)) MerkleError :=
  match fuel with
  | O => Err (MHashingError StackOverflow)
  | S fuel =>
      match e with
      | EBlob blob => Ok [(string_to_key path, blob)]
      | ETree tree =>
          key_values_of_children (get_key_values_from_tree_recursively fuel store) store path tree
      | ECommit commit =>
          let? e := get_entry_from_hash store (root_hash commit) in
          get_key_values_from_tree_recursively fuel store path e
      end
  end.

Definition child_path (prefix : ContextKey) (key : bytes) : bytes :=
  key_to_string prefix ++ (if decide (prefix = []) then [] else [47]) ++ key.

Definition key_values_by_prefix (store : kv_store) (root_tree : Tree) (prefix : ContextKey)
    : result (option (list (ContextKey * bytes))) MerkleError :=
  let? prefixed_tree := find_tree store root_tree prefix in
  let? keyvalues :=
    map_result (λ '(key, child_node),
      let? e := get_entry store child_node in
      get_key_values_from_tree_recursively rounds store (child_path prefix key) e) prefixed_tree in
  let keyvalues := concat keyvalues in
  Ok (if decide (keyvalues = []) then None else Some keyvalues).

Definition get_by_prefix (prefix : ContextKey) (m : MerkleStorage) :=
  key_values_by_prefix (db m) (working_tree m) prefix.

Definition get_key_values_by_prefix (context_hash : bytes) (prefix : ContextKey) (m : MerkleStorage)
    : result (option (list (ContextKey * bytes))) MerkleError :=
  let? commit := get_commit (db m) context_hash in
  let? e := get_entry_from_hash (db m) (root_hash commit) in
  let? root_tree := get_tree e in
  key_values_by_prefix (db m) root_tree prefix.

(** [hex::encode] *)
Definition hex_digit (v : Z) : Z := if decide (v < 10) then 48 + v else 87 + v.
Definition hex_encode (b : bytes) : bytes := concat ((λ v, [hex_digit (v / 16); hex_digit (v mod 16)]) <$> b).

Fixpoint get_context_recursive (fuel : nat) (store : kv_store) (e : Entry) (depth : option Z)
    : result StringTreeEntry MerkleError :=
  match fuel with
  | O => Err (MHashingError StackOverflow)
  | S fuel =>
      if decide (depth = Some 0) then Ok StringNull
      else
        match e with
        | EBlob blob => Ok (StringBlob (hex_encode blob))
        | ETree tree =>
            let? new_tree :=
              map_result (λ '(key, child_node),
                let? e := get_entry store child_node in
                let? s := get_context_recursive fuel store e ((λ d, d - 1) <$> depth) in
                Ok (key, s)) tree in
            Ok (StringTree new_tree)
        | ECommit _ => Err (FoundUnexpectedStructure SoughtTreeOrBlob SoughtCommit)
        end
  end.

Definition get_context_tree_by_prefix (context_hash : bytes) (prefix : ContextKey) (depth : option Z)
    (m : MerkleStorage) : result StringTreeEntry MerkleError :=
  if decide (depth = Some 0) then Ok StringNull
  else
    let? commit := get_commit (db m) context_hash in
    let? e := get_entry_from_hash (db m) (root_hash commit) in
    let? root_tree := get_tree e in
    let? prefixed_tree := find_tree (db m) root_tree prefix in
    let? out :=
      map_result (λ '(key, child_node),
        let? e := get_entry (db m) child_node in
        let? s := get_context_recursive rounds (db m) e ((λ d, d - 1) <$> depth) in
        Ok (key, s)) prefixed_tree in
    Ok (StringTree out).

(** ** Changing the working tree *)

Definition set_working_tree_root (tree : Tree) (tree_id : Z) (m : MerkleStorage) : MerkleStorage :=
  mkMerkleStorage tree tree_id (db m) (<[tree_id := tree]> (trees m)) (last_commit_hash m).

(** The recursion removes the last name of the path; the path is given from its end. *)
Fixpoint new_root_with_change (store : kv_store) (root : Tree) (rkey : ContextKey) (new_node : option Node)
    : result Entry MerkleError :=
  match rkey with
  | [] =>
      match new_node with
      | Some n => ok_or (node_entry n) InvalidState
      | None => Ok (ETree [])
      end
  | last :: rpath =>
      let? tree := find_tree store root (rev rpath) in
      let tree :=
        match new_node with
        | None => omap_remove last tree
        | Some n => omap_insert last n tree
        end in
      if decide (tree = []) then new_root_with_change store root rpath None
      else new_root_with_change store root rpath (Some (get_non_leaf (ETree tree)))
  end.

Definition compute_new_root_with_change (key : ContextKey) (new_node : option Node) (m : MerkleStorage)
    : result Entry MerkleError :=
  new_root_with_change (db m) (working_tree m) (rev key) new_node.

(** [set], [delete] and [copy] install the tree they computed. *)
Definition install (new_tree_id : Z) (r : result Entry MerkleError) (m : MerkleStorage)
    : MerkleStorage * result unit MerkleError :=
  match (let? e := r in get_tree e) with
  | Ok tree => (set_working_tree_root tree new_tree_id m, Ok tt)
  | Err e => (m, Err e)
  end.

Definition set_entry (key : ContextKey) (value : bytes) (m : MerkleStorage) : result Entry MerkleError :=
  compute_new_root_with_change key (Some (mkNode Leaf None (Some (EBlob value)))) m.

Definition set (new_tree_id : Z) (key : ContextKey) (value : bytes) (m : MerkleStorage) :=
  install new_tree_id (set_entry key value m) m.

Definition delete_entry (key : ContextKey) (m : MerkleStorage) : result Entry MerkleError :=
  if decide (key = []) then Ok (ETree (working_tree m)) else compute_new_root_with_change key None m.

Definition delete (new_tree_id : Z) (key : ContextKey) (m : MerkleStorage) :=
  install new_tree_id (delete_entry key m) m.

Definition copy_entry (from_key to_key : ContextKey) (m : MerkleStorage) : result Entry MerkleError :=
  let? source_tree := find_tree (db m) (working_tree m) from_key in
  compute_new_root_with_change to_key (Some (get_non_leaf (ETree source_tree))) m.

Definition copy (new_tree_id : Z) (from_key to_key : ContextKey) (m : MerkleStorage) :=
  install new_tree_id (copy_entry from_key to_key m) m.

Definition working_tree_checkout (tree_id : Z) (m : MerkleStorage) : MerkleStorage * result unit MerkleError :=
  if decide (tree_id = working_tree_id m) then (m, Ok tt)
  else
    match trees m !! tree_id with
    | None => (m, Err (TreeNotFoundInWorkingTree tree_id))
    | Some tree => (set_working_tree_root tree tree_id m, Ok tt)
    end.

(** ** Commits *)

Definition get_working_tree_root_hash (m : MerkleStorage) : result bytes MerkleError :=
  map_err MHashingError (hash_tree rounds (working_tree m)).

Definition entries_of_children
    (rec : Entry → result (list (bytes * bytes)) MerkleError) : Tree → result (list (bytes * bytes)) MerkleError :=
  fix go l :=
    match l with
    | [] => Ok []
    | (_, child_node) :: l =>
        let? here := match node_entry child_node with None => Ok [] | Some e => rec e end in
        let? rest := go l in Ok (here ++ rest)
    end.

(** Computing the hash fills the cells of the nodes before the entry is serialized. *)
Fixpoint get_entries_recursively (fuel : nat) (store : kv_store) (e : Entry) (root : option Tree)
    : result (list (bytes * bytes)) MerkleError :=
  match fuel with
  | O => Err (MHashingError StackOverflow)
  | S fuel =>
      let? hashed := map_err MHashingError (hash_entry rounds e) in
      let e := cache_hashes rounds e in
      let? stored := ok_or (to_stored e) MSerializationError in
      let? serialized := ok_or (bincode_serialize stored) MSerializationError in
      let? rest :=
        match e with
        | EBlob _ => Ok []
        | ETree tree => entries_of_children (λ e, get_entries_recursively fuel store e None) tree
        | ECommit commit =>
            let? e := match root with
                      | Some root => Ok (ETree root)
                      | None => get_entry_from_hash store (root_hash commit)
                      end in
            get_entries_recursively fuel store e None
        end in
      Ok ((hashed, serialized) :: rest)
  end.

(** The first half of [commit]: the hash of the commit and what is to be written *)
Definition commit_batch (time : Z) (author message : bytes) (m : MerkleStorage)
    : result (bytes * list (bytes * bytes)) MerkleError :=
  let? root_hash := get_working_tree_root_hash m in
  let new_commit := mkCommit (last_commit_hash m) root_hash time author message in
  let? new_commit_hash := map_err MHashingError (hash_commit new_commit) in
  let? batch := get_entries_recursively rounds (db m) (ECommit new_commit)
                  (Some (cache_tree_hashes rounds (working_tree m))) in
  Ok (new_commit_hash, batch).

Definition commit (time : Z) (author message : bytes) (m : MerkleStorage)
    : MerkleStorage * result bytes MerkleError :=
  match commit_batch time author message m with
  | Err e => (m, Err e)
  | Ok (new_commit_hash, batch) =>
      let tree := cache_tree_hashes rounds (working_tree m) in
      match kv_write_batch batch (db m) with
      | (s, Err e) =>
          (mkMerkleStorage tree (working_tree_id m) s (trees m) (last_commit_hash m), Err (DBError e))
      | (s, Ok _) =>
          (mkMerkleStorage tree (working_tree_id m) s (trees m) (Some new_commit_hash), Ok new_commit_hash)
      end
  end.

Definition checkout (context_hash : bytes) (m : MerkleStorage) : MerkleStorage * result unit MerkleError :=
  match (let? commit := get_commit (db m) context_hash in
         let? e := get_entry_from_hash (db m) (root_hash commit) in
         get_tree e) with
  | Err e => (m, Err e)
  | Ok tree => (mkMerkleStorage tree 0 (db m) {[0 := tree]} (Some context_hash), Ok tt)
  end.

(** ** Garbage collection *)

Definition on_kv (f : kv_store → kv_store * result unit gc_error) (m : MerkleStorage)
    : MerkleStorage * result unit MerkleError :=
  let '(s, r) := f (db m) in
  (mkMerkleStorage (working_tree m) (working_tree_id m) s (trees m) (last_commit_hash m),
   map_err GarbageCollectionError r).

Definition block_applied (m : MerkleStorage) : MerkleStorage * result unit MerkleError :=
  match last_commit_hash m with
  | Some hash => on_kv (gc_block_applied hash) m
  | None => (m, Err GCTriggeredBeforeFirstCommit)
  end.

Definition start_new_cycle (m : MerkleStorage) : MerkleStorage * result unit MerkleError :=
  on_kv new_cycle_started m.

End MerkleStorage.

Arguments MerkleStorage {_}.
Arguments MerkleError {_ _}.
