(* ===== verification/MerkleFacts.v ===== *)
(** * The context as a tree of values: theorems on [MerkleTree] and [MerkleStorage]

    A working tree stands for a plain tree of names and values, whatever part of
    it is loaded and whatever hashes are known.  The hash of an entry and every
    operation depend on that plain tree only. *)

From stdpp Require Import gmap.
From S2P Require Import Prelude Kv MerkleTree ContextStore MerkleStorage.

(** ** Ordered maps and lists *)

Section OmapFacts.
Context {A : Type}.
Implicit Types (k : bytes) (v : A) (l : list (bytes * A)).

Lemma omap_get_insert k k' v l :
  omap_get k' (omap_insert k v l) = if decide (k' = k) then Some v else omap_get k' l.
Proof.
  induction l as [|[k0 v0] l IH]; cbn; [done|].
  destruct (decide (k = k0)) as [->|Hne]; cbn; [by destruct (decide (k' = k0))|].
  destruct (decide (bytes_le k k0)); cbn; [done|]. rewrite IH.
  destruct (decide (k' = k0)) as [->|]; [|done]. by rewrite decide_False.
Qed.

Lemma omap_get_remove k k' l :
  omap_get k' (omap_remove k l) = if decide (k' = k) then None else omap_get k' l.
Proof.
  unfold omap_remove. induction l as [|[k0 v0] l IH]; [by cbn; destruct (decide _)|].
  rewrite filter_cons. cbn [fst]. destruct (decide (k0 ≠ k)) as [Hne|Heq]; cbn [omap_get].
  - rewrite IH. destruct (decide (k' = k0)) as [->|]; [by rewrite decide_False|done].
  - apply dec_stable in Heq as ->. rewrite IH. by destruct (decide (k' = k)).
Qed.

Lemma omap_insert_ne_nil k v l : omap_insert k v l ≠ [].
Proof. destruct l as [|[k0 v0] l]; cbn; [done|]. by repeat case_decide. Qed.

Lemma omap_insert_fresh k v l : (∀ kv, kv ∈ l → kv.1 ≠ k) → length (omap_insert k v l) = S (length l).
Proof.
  induction l as [|[k0 v0] l IH]; intros Hk; cbn; [done|].
  rewrite decide_False by (intros ->; by apply (Hk (k0, v0)); [left|]). case_decide; [done|].
  cbn. rewrite IH; [done|]. intros kv Hin. apply Hk. by right.
Qed.

Lemma elem_of_omap_insert k v l kv : kv ∈ omap_insert k v l → kv = (k, v) ∨ kv ∈ l.
Proof.
  induction l as [|[k0 v0] l IH]; cbn; [by intros ->%list_elem_of_singleton; left|].
  repeat case_decide; rewrite !elem_of_cons; tauto.
Qed.

End OmapFacts.

Lemma map_result_app {A B E} (f : A → result B E) l l' :
  map_result f (l ++ l') =
    (let? bs := map_result f l in let? bs' := map_result f l' in Ok (bs ++ bs')).
Proof.
  induction l as [|a l IH]; cbn; [by destruct (map_result f l')|].
  destruct (f a); [|done]. rewrite IH. destruct (map_result f l); [|done].
  by destruct (map_result f l').
Qed.

Lemma map_result_ok {A B E} (f : A → result B E) l bs :
  map_result f l = Ok bs ↔ Forall2 (λ a b, f a = Ok b) l bs.
Proof.
  revert bs. induction l as [|a l IH]; intros bs; cbn.
  - split; [by intros [= <-]|by intros ->%Forall2_nil_inv_l].
  - split.
    + destruct (f a) eqn:Ea; [|done]. destruct (map_result f l) eqn:El; [|done].
      intros [= <-]. constructor; [done|]. by apply IH.
    + intros (b & bs' & Eb & Hl & ->)%Forall2_cons_inv_l. rewrite Eb.
      by apply IH in Hl as ->.
Qed.

Lemma map_result_ext {A A' B E} (f : A → result B E) (g : A' → result B E) l l' :
  Forall2 (λ a a', f a = g a') l l' → map_result f l = map_result g l'.
Proof. induction 1 as [|a a' l l' Ha _ IH]; cbn; [done|]. by rewrite Ha, IH. Qed.

(** ** Plain trees *)

Inductive ctx :=
| File (value : bytes)
| Dir (children : list (bytes * ctx)).

Definition kind_of (c : ctx) : NodeKind := match c with File _ => Leaf | Dir _ => NonLeaf end.

Abbreviation dir := (list (bytes * ctx)).

(** The directory at a path; empty where there is none *)
Definition dir_of (o : option ctx) : dir := match o with Some (Dir cs) => cs | _ => [] end.

Fixpoint ctx_dir (cs : dir) (key : ContextKey) : dir :=
  match key with
  | [] => cs
  | k :: key => ctx_dir (dir_of (omap_get k cs)) key
  end.

(** What is at a path *)
Fixpoint ctx_lookup (c : ctx) (key : ContextKey) : option ctx :=
  match key with
  | [] => Some c
  | k :: key =>
      match c with
      | File _ => None
      | Dir cs => match omap_get k cs with Some c => ctx_lookup c key | None => None end
      end
  end.

(** The value at a path *)
Definition ctx_get (cs : dir) (key : ContextKey) : option bytes :=
  match ctx_lookup (Dir cs) key with Some (File v) => Some v | _ => None end.

Definition change (k : bytes) (o : option ctx) (cs : dir) : dir :=
  match o with Some c => omap_insert k c cs | None => omap_remove k cs end.

(** Puts a tree at a path, or removes what is there, and removes the
    directories that became empty. *)
Fixpoint ctx_put (key : ContextKey) (o : option ctx) (cs : dir) : dir :=
  match key with
  | [] => dir_of o
  | k :: key =>
      match key with
      | [] => change k o cs
      | _ =>
          let sub := ctx_put key o (dir_of (omap_get k cs)) in
          change k (if decide (sub = []) then None else Some (Dir sub)) cs
      end
  end.

(** The rest of a path below another one *)
Fixpoint strip_prefix (p key : ContextKey) : option ContextKey :=
  match p, key with
  | [], key => Some key
  | a :: p, b :: key => if decide (a = b) then strip_prefix p key else None
  | _ :: _, [] => None
  end.

Definition prune (cs : dir) : option ctx := if decide (cs = []) then None else Some (Dir cs).

Definition value_of (o : option ctx) : option bytes := match o with Some (File v) => Some v | _ => None end.

(** The value at a path in what is at some place *)
Definition get_in (o : option ctx) (key : ContextKey) : option bytes :=
  match o with Some c => value_of (ctx_lookup c key) | None => None end.

Lemma dir_of_prune cs : dir_of (prune cs) = cs.
Proof. unfold prune. by case_decide. Qed.

Lemma omap_get_change k k' o cs :
  omap_get k' (change k o cs) = if decide (k' = k) then o else omap_get k' cs.
Proof.
  destruct o as [c|]; cbn; [apply omap_get_insert|apply omap_get_remove].
Qed.

Lemma ctx_put_cons k key o cs :
  ctx_put (k :: key) o cs =
    change k (match key with [] => o | _ => prune (ctx_put key o (dir_of (omap_get k cs))) end) cs.
Proof. by destruct key. Qed.

(** The change of a path is the change of the directory that contains it. *)
Lemma ctx_put_snoc p k o cs :
  ctx_put (p ++ [k]) o cs = ctx_put p (prune (change k o (ctx_dir cs p))) cs.
Proof.
  revert cs. induction p as [|k0 p IH]; intros cs; [cbn; by rewrite dir_of_prune|].
  rewrite <- app_comm_cons, !ctx_put_cons, IH. cbn [ctx_dir].
  destruct p as [|k1 p]; cbn [app]; [|done]. cbn [ctx_put ctx_dir]. by rewrite dir_of_prune.
Qed.

Lemma ctx_lookup_snoc cs p k : ctx_lookup (Dir cs) (p ++ [k]) = omap_get k (ctx_dir cs p).
Proof.
  revert cs. induction p as [|k0 p IH]; intros cs; cbn; [by destruct (omap_get k cs)|].
  destruct (omap_get k0 cs) as [[v|cs']|]; cbn; [|apply IH|];
    clear; (destruct p as [|k1 p]; [done|]); cbn; by induction p.
Qed.

Lemma get_in_cons o k key : get_in o (k :: key) = get_in (omap_get k (dir_of o)) key.
Proof. destruct o as [[v|cs]|]; [done| |done]. cbn. by destruct (omap_get k cs). Qed.

Lemma ctx_get_in cs key : ctx_get cs key = get_in (Some (Dir cs)) key.
Proof. done. Qed.

Lemma ctx_get_app cs p k key : ctx_get cs (p ++ k :: key) = get_in (Some (Dir (ctx_dir cs p))) (k :: key).
Proof.
  rewrite ctx_get_in. revert cs. induction p as [|k0 p IH]; intros cs; [done|].
  cbn [app ctx_dir]. rewrite get_in_cons. cbn [dir_of]. rewrite <- IH.
  destruct p as [|k1 p]; cbn [app]; by rewrite !get_in_cons.
Qed.

Lemma get_in_prune cs key : get_in (prune cs) key = get_in (Some (Dir cs)) key.
Proof. destruct key as [|k key]; [|by rewrite !get_in_cons, dir_of_prune]. unfold prune. by case_decide. Qed.

(** What a change does to the value at any path: below the changed path it is
    the value of the new tree, above it there is no value any more, elsewhere
    it is what it was. *)
Lemma ctx_get_put key o cs key' :
  key ≠ [] →
  ctx_get (ctx_put key o cs) key' =
    match strip_prefix key key' with
    | Some rest => get_in o rest
    | None => if decide (is_Some (strip_prefix key' key)) then None else ctx_get cs key'
    end.
Proof.
  rewrite !ctx_get_in. revert cs key'. induction key as [|k key IH]; intros cs [|k' key'] Hne; try done.
  rewrite ctx_put_cons, !get_in_cons. cbn [dir_of strip_prefix]. rewrite omap_get_change.
  destruct (decide (k' = k)) as [->|Hk]; rewrite ?(decide_True (P := k = k)) by done.
  - destruct key as [|k1 key]; [done|]. rewrite get_in_prune, IH by done.
    destruct (strip_prefix (k1 :: key) key'); [done|]. case_decide as Hp; [done|].
    destruct key' as [|k2 key']; [|by rewrite !get_in_cons].
    by destruct Hp.
  - rewrite (decide_False (P := k = k')) by congruence. by rewrite decide_False by (intros [? [=]]).
Qed.

(** Above the root there is nothing to change. *)
Lemma ctx_get_put_root o cs key' : ctx_get (ctx_put [] o cs) key' = get_in (Some (Dir (dir_of o))) key'.
Proof. done. Qed.

(** ** What a working tree stands for *)

Section Denotation.
Context `{KeyValueStoreBackend} `{!GarbageCollector} `{MerkleLib, Bincode StoredEntry}.
Context (rounds : nat).

(** The hash of a plain tree, computed without any cell *)
Fixpoint hash_ctx (c : ctx) : result bytes HashingError :=
  match c with
  | File v => hash_blob v
  | Dir cs =>
      let? entries :=
        map_result (λ '(k, c), let? h := hash_ctx c in Ok (k, (kind_of c, h))) cs in
      hash_entries rounds entries
  end.

Definition hashed_child (kc : bytes * ctx) : result HashedEntry HashingError :=
  let? h := hash_ctx kc.2 in Ok (kc.1, (kind_of kc.2, h)).

Lemma hash_ctx_dir cs :
  hash_ctx (Dir cs) = (let? entries := map_result hashed_child cs in hash_entries rounds entries).
Proof.
  cbn. rewrite (map_result_ext _ hashed_child cs cs); [done|].
  apply Forall_Forall2_diag, Forall_forall. by intros [k c] _.
Qed.

Lemma hash_entry_tree l : hash_entry rounds (ETree l) = hash_tree rounds l.
Proof.
  unfold hash_tree. cbn. rewrite (map_result_ext _ (hashed_entry rounds) l l); [done|].
  apply Forall_Forall2_diag, Forall_forall. by intros [k [kind [h|] [e|]]] _.
Qed.

(** [den s e c]: the entry [e] over the store [s] stands for the plain tree [c].
    A node that is not loaded stands for what the store has under its hash; the
    hash of a node, where it is known, is the hash of its plain tree. *)
Inductive den (s : kv_store) : Entry → ctx → Prop :=
| den_blob v : den s (EBlob v) (File v)
| den_tree l cs : den_list s l cs → den s (ETree l) (Dir cs)
with den_list (s : kv_store) : Tree → dir → Prop :=
| den_nil : den_list s [] []
| den_cons k n l c cs : den_node s n c → den_list s l cs → den_list s ((k, n) :: l) ((k, c) :: cs)
with den_node (s : kv_store) : Node → ctx → Prop :=
| den_loaded h e c :
    den s e c → (∀ h', h = Some h' → hash_ctx c = Ok h') → den_node s (mkNode (kind_of c) h (Some e)) c
| den_hash h e c :
    get_entry_from_hash s h = Ok e → den s e c → hash_ctx c = Ok h →
    den_node s (mkNode (kind_of c) (Some h) None) c.

Scheme den_mind := Minimality for den Sort Prop
with den_list_mind := Minimality for den_list Sort Prop
with den_node_mind := Minimality for den_node Sort Prop.

(** The hash of an entry is the hash of its plain tree. *)
Lemma den_entry_hash s e c : den s e c → hash_entry rounds e = hash_ctx c.
Proof.
  revert e c. apply (den_mind s (λ e c, hash_entry rounds e = hash_ctx c)
    (λ l cs, map_result (hashed_entry rounds) l = map_result hashed_child cs)
    (λ n c, entry_hash rounds n = hash_ctx c ∧ node_kind n = kind_of c)); try done.
  - intros l cs _ IH. rewrite hash_entry_tree, hash_ctx_dir. unfold hash_tree. by rewrite IH.
  - intros k n l c cs _ [Hn Hk] _ IH. cbn. unfold hashed_entry at 1, hashed_child at 1. cbn.
    by rewrite Hn, Hk, IH.
  - intros [h|] e c _ IH Hh; cbn; [by rewrite (Hh h)|done].
Qed.

Lemma den_list_hash s l cs : den_list s l cs → hash_tree rounds l = hash_ctx (Dir cs).
Proof. intros Hl. rewrite <- hash_entry_tree. by apply (den_entry_hash s), den_tree. Qed.

Lemma den_node_hash s n c : den_node s n c → entry_hash rounds n = hash_ctx c.
Proof. intros [h e c' He Hh|h e c' _ _ Hh]; cbn; [|done]. destruct h as [h|]; [by rewrite (Hh h)|by eapply den_entry_hash]. Qed.

(** A node that stands for a tree can be loaded. *)
Lemma den_get_entry s n c : den_node s n c → ∃ e, get_entry s n = Ok e ∧ den s e c.
Proof. intros [h e c' He _|h e c' Eh He _]; exists e; [done|]. by unfold get_entry; cbn. Qed.

Lemma den_list_get s l cs k :
  den_list s l cs →
  match omap_get k l, omap_get k cs with
  | Some n, Some c => den_node s n c
  | None, None => True
  | _, _ => False
  end.
Proof. induction 1 as [|k' n l c cs Hn _ IH]; cbn; [done|]. by destruct (decide (k = k')). Qed.

(** ** Looking up *)

Lemma find_tree_den s l cs key :
  den_list s l cs → ∃ l', find_tree s l key = Ok l' ∧ den_list s l' (ctx_dir cs key).
Proof.
  revert l cs. induction key as [|k key IH]; intros l cs Hl; cbn; [by exists l|].
  assert (Hnil : ∃ l', @Ok Tree MerkleError [] = Ok l' ∧ den_list s l' (ctx_dir [] key)).
  { exists []. split; [done|]. clear IH. induction key as [|k' key IH]; [constructor|done]. }
  pose proof (den_list_get s l cs k Hl) as Hk.
  destruct (omap_get k l) as [n|], (omap_get k cs) as [c|]; try done.
  apply den_get_entry in Hk as (e & -> & He). destruct He as [v|l' cs' Hl']; [done|by apply IH].
Qed.

Lemma split_last_snoc p k : split_last (p ++ [k]) = @Ok _ MerkleError (p, k).
Proof.
  unfold split_last. rewrite last_snoc. cbn. rewrite length_app. cbn.
  by rewrite Nat.add_sub, take_app_length.
Qed.

Lemma key_cases (key : ContextKey) : key = [] ∨ ∃ p k, key = p ++ [k].
Proof. destruct key as [|k p] using rev_ind; [by left|right; eauto]. Qed.

(** The result of a lookup in the plain tree, errors included *)
Definition get_result (cs : dir) (key : ContextKey) : result bytes MerkleError :=
  match key with
  | [] => Err KeyEmpty
  | _ =>
      match ctx_lookup (Dir cs) key with
      | Some (File v) => Ok v
      | Some (Dir _) => Err (ValueIsNotABlob (key_to_string key))
      | None => Err (ValueNotFound (key_to_string key))
      end
  end.

Lemma get_from_tree_den s l cs key : den_list s l cs → get_from_tree s l key = get_result cs key.
Proof.
  intros Hl. destruct (key_cases key) as [->|(p & k & ->)]; [done|].
  unfold get_from_tree. rewrite split_last_snoc.
  destruct (find_tree_den s l cs p Hl) as (l' & -> & Hl').
  transitivity (match ctx_lookup (Dir cs) (p ++ [k]) with
    | Some (File v) => Ok v
    | Some (Dir _) => Err (ValueIsNotABlob (key_to_string (p ++ [k])))
    | None => Err (ValueNotFound (key_to_string (p ++ [k])))
    end); [|by destruct p]. rewrite ctx_lookup_snoc.
  pose proof (den_list_get s l' _ k Hl') as Hk.
  destruct (omap_get k l') as [n|], (omap_get k _) as [c|]; try done. cbn.
  apply den_get_entry in Hk as (e & -> & He). by destruct He.
Qed.

Lemma value_exists_den s l cs p k :
  den_list s l cs → value_exists s l (p ++ [k]) = Ok (bool_decide (is_Some (ctx_lookup (Dir cs) (p ++ [k])))).
Proof.
  intros Hl. unfold value_exists. rewrite split_last_snoc.
  destruct (find_tree_den s l cs p Hl) as (l' & -> & Hl'). rewrite ctx_lookup_snoc.
  pose proof (den_list_get s l' _ k Hl') as Hk. f_equal. apply bool_decide_ext.
  destruct (omap_get k l') as [n|], (omap_get k _) as [c|]; try done.
Qed.

Lemma directory_exists_den s l cs key :
  den_list s l cs → directory_exists s l key = bool_decide (ctx_dir cs key ≠ []).
Proof.
  intros Hl. unfold directory_exists. destruct (find_tree_den s l cs key Hl) as (l' & -> & Hl').
  apply bool_decide_ext. by destruct Hl'.
Qed.

(** ** Changing *)

Lemma den_list_change s l cs k (n : option Node) (o : option ctx) :
  den_list s l cs → option_relation (den_node s) (λ _, False) (λ _, False) n o →
  den_list s (match n with Some n => omap_insert k n l | None => omap_remove k l end) (change k o cs).
Proof.
  intros Hl Ho. destruct n as [n|], o as [c|]; try done; cbn in *.
  - induction Hl as [|k' n' l c' cs Hn Hl IH]; cbn; [by repeat constructor|].
    repeat case_decide; by repeat constructor.
  - unfold omap_remove. induction Hl as [|k' n' l c' cs Hn Hl IH]; [constructor|].
    rewrite !filter_cons. cbn [fst]. case_decide; [by constructor|done].
Qed.

(** The root after a change, [None] being an empty directory *)
Definition root_of (key : ContextKey) (o : option ctx) (cs : dir) : ctx :=
  match key with [] => default (Dir []) o | _ => Dir (ctx_put key o cs) end.

Lemma root_of_snoc p k o cs : root_of p (prune (change k o (ctx_dir cs p))) cs = Dir (ctx_put (p ++ [k]) o cs).
Proof.
  rewrite ctx_put_snoc. destruct p as [|k0 p]; [|done]. cbn. unfold prune. by case_decide as Heq.
Qed.

Lemma new_root_den s l cs rkey n o :
  den_list s l cs → option_relation (den_node s) (λ _, False) (λ _, False) n o →
  (∀ n', n = Some n' → is_Some (node_entry n')) →
  ∃ e, new_root_with_change s l rkey n = Ok e ∧ den s e (root_of (rev rkey) o cs).
Proof.
  intros Hl. revert n o. induction rkey as [|k rpath IH]; intros n o Ho Hn.
  - destruct n as [[kind h e]|], o as [c|]; try done; cbn in *; [|exists (ETree []); by repeat constructor].
    destruct (Hn _ eq_refl) as [e' [= ->]]. exists e'. split; [done|].
    by inversion Ho.
  - cbn [new_root_with_change rev]. destruct (find_tree_den s l cs (rev rpath) Hl) as (t & -> & Ht).
    pose proof (den_list_change s t _ k n o Ht Ho) as Ht'.
    set (t' := match n with Some n => omap_insert k n t | None => omap_remove k t end) in *.
    replace (root_of (rev rpath ++ [k]) o cs)
      with (root_of (rev rpath) (prune (change k o (ctx_dir cs (rev rpath)))) cs)
      by (rewrite root_of_snoc; by destruct (rev rpath)).
    unfold prune. destruct Ht' as [|k' n' l' c' cs' Hn' Hl']; cbn [decide];
      rewrite ?decide_True, ?decide_False by done; apply IH; try done.
    + cbn. apply (den_loaded s None (ETree _) (Dir _)); [by repeat constructor|done].
    + by intros ? [= <-].
Qed.

(** ** Cells

    [filled s e e']: [e'] is [e] after entries were loaded from the store and
    hashes were computed, in any nodes. *)

Inductive filled (s : kv_store) : Entry → Entry → Prop :=
| filled_blob v : filled s (EBlob v) (EBlob v)
| filled_commit c : filled s (ECommit c) (ECommit c)
| filled_tree l l' : filled_list s l l' → filled s (ETree l) (ETree l')
with filled_list (s : kv_store) : Tree → Tree → Prop :=
| filled_nil : filled_list s [] []
| filled_cons k n n' l l' : filled_node s n n' → filled_list s l l' → filled_list s ((k, n) :: l) ((k, n') :: l')
with filled_node (s : kv_store) : Node → Node → Prop :=
| filled_none kind h : filled_node s (mkNode kind h None) (mkNode kind h None)
| filled_entry kind h h' e e' :
    filled s e e' → h' = h ∨ (∃ v, h' = Some v ∧ entry_hash rounds (mkNode kind h (Some e)) = Ok v) →
    filled_node s (mkNode kind h (Some e)) (mkNode kind h' (Some e'))
| filled_load kind h e e' :
    get_entry_from_hash s h = Ok e → filled s e e' →
    filled_node s (mkNode kind (Some h) None) (mkNode kind (Some h) (Some e')).

Scheme filled_mind := Minimality for filled Sort Prop
with filled_list_mind := Minimality for filled_list Sort Prop
with filled_node_mind := Minimality for filled_node Sort Prop.
Combined Scheme filled_mutind from filled_mind, filled_list_mind, filled_node_mind.

(** Filling cells does not change what a tree stands for. *)
Lemma den_filled s :
  (∀ e e', filled s e e' → ∀ c, den s e c → den s e' c) ∧
  (∀ l l', filled_list s l l' → ∀ cs, den_list s l cs → den_list s l' cs) ∧
  (∀ n n', filled_node s n n' → ∀ c, den_node s n c → den_node s n' c).
Proof.
  apply filled_mutind; try (by intros; assumption).
  - intros l l' _ IH c Hc. inversion Hc; subst. constructor. by apply IH.
  - intros k n n' l l' _ IHn _ IHl cs Hl. inversion Hl; subst. constructor; [by apply IHn|by apply IHl].
  - intros kind h h' e e' _ IH Hh c Hc. pose proof (den_node_hash s _ _ Hc) as Hhash.
    inversion Hc as [h0 e0 c0 He Hh0|]; subst. constructor; [by apply IH|].
    intros v ->. destruct Hh as [<-|(v' & [= <-] & Hv)]; [by apply Hh0|congruence].
  - intros kind h e e' Eh _ IH c Hc. inversion Hc as [|h0 e0 c0 Eh0 He Hh0]; subst.
    constructor; [|by intros ? [= <-]]. apply IH. congruence.
Qed.

End Denotation.

(** ** The operations on the working tree *)

(** What is visible of the storage: the working tree, its identifier and the
    trees that can be returned to *)
Record View := mkView { v_tree : dir; v_id : Z; v_trees : gmap Z dir }.

(** The operations that change the working tree, without a commit *)
Inductive Op :=
| OpSet (new_tree_id : Z) (key : ContextKey) (value : bytes)
| OpDelete (new_tree_id : Z) (key : ContextKey)
| OpCopy (new_tree_id : Z) (from_key to_key : ContextKey)
| OpWorkingTreeCheckout (tree_id : Z).

Definition view_install (id : Z) (c : ctx) (v : View) : View * bool :=
  match c with
  | Dir cs => (mkView cs id (<[id := cs]> (v_trees v)), true)
  | File _ => (v, false)
  end.

(** The operations on plain trees, and whether they succeed *)
Definition view_op (o : Op) (v : View) : View * bool :=
  match o with
  | OpSet id key value => view_install id (root_of key (Some (File value)) (v_tree v)) v
  | OpDelete id key =>
      view_install id (if decide (key = []) then Dir (v_tree v) else root_of key None (v_tree v)) v
  | OpCopy id from_key to_key =>
      view_install id (root_of to_key (Some (Dir (ctx_dir (v_tree v) from_key))) (v_tree v)) v
  | OpWorkingTreeCheckout id =>
      if decide (id = v_id v) then (v, true)
      else match v_trees v !! id with
           | None => (v, false)
           | Some cs => view_install id (Dir cs) v
           end
  end.

Fixpoint view_ops (os : list Op) (v : View) : View * list bool :=
  match os with
  | [] => (v, [])
  | o :: os => let '(v, b) := view_op o v in let '(v, bs) := view_ops os v in (v, b :: bs)
  end.

Definition is_ok {A E} (r : result A E) : bool := match r with Ok _ => true | Err _ => false end.

Section Operations.
Context `{KeyValueStoreBackend} `{!GarbageCollector} `{MerkleLib, Bincode StoredEntry}.
Context (rounds : nat).

Definition run_op (o : Op) (m : MerkleStorage) : MerkleStorage * result unit MerkleError :=
  match o with
  | OpSet id key value => set id key value m
  | OpDelete id key => delete id key m
  | OpCopy id from_key to_key => copy id from_key to_key m
  | OpWorkingTreeCheckout id => working_tree_checkout id m
  end.

Definition view_of (m : MerkleStorage) (v : View) : Prop :=
  den_list rounds (db m) (working_tree m) (v_tree v) ∧
  working_tree_id m = v_id v ∧
  ∀ id, option_relation (den_list rounds (db m)) (λ _, False) (λ _, False) (trees m !! id) (v_trees v !! id).

(** What an operation owes to the one on plain trees *)
Definition simulates (m : MerkleStorage) (r : MerkleStorage * result unit MerkleError) (v : View * bool) : Prop :=
  view_of r.1 v.1 ∧ is_ok r.2 = v.2 ∧ db r.1 = db m ∧ last_commit_hash r.1 = last_commit_hash m.

Lemma set_root_view m v l cs id :
  view_of m v → den_list rounds (db m) l cs →
  view_of (set_working_tree_root l id m) (mkView cs id (<[id := cs]> (v_trees v))).
Proof.
  intros (_ & _ & Ht) Hl. split_and!; [done|done|]. intros id'. cbn.
  destruct (decide (id = id')) as [->|]; [by rewrite !lookup_insert_eq|by rewrite !lookup_insert_ne].
Qed.

Lemma install_view m v id e c :
  view_of m v → den rounds (db m) e c → simulates m (install id (Ok e) m) (view_install id c v).
Proof. intros Hv [b|l cs Hl]; [done|]. split_and!; [by apply set_root_view|done..]. Qed.

Lemma op_simulates o m v : view_of m v → simulates m (run_op o m) (view_op o v).
Proof.
  intros Hv. destruct (Hv) as (Hl & Hid & Ht). destruct o as [id key value|id key|id from_key to_key|id]; cbn.
  - unfold set, set_entry, compute_new_root_with_change.
    edestruct (new_root_den rounds (db m) (working_tree m) (v_tree v) (rev key)
      (Some (mkNode Leaf None (Some (EBlob value)))) (Some (File value))) as (e & -> & He); [done|..].
    + by apply (den_loaded _ _ None (EBlob value) (File value)); [constructor|].
    + by intros ? [= <-].
    + rewrite rev_involutive in He. by apply install_view.
  - unfold delete, delete_entry. case_decide; [by apply install_view; [|constructor]|].
    unfold compute_new_root_with_change.
    edestruct (new_root_den rounds (db m) (working_tree m) (v_tree v) (rev key) None None)
      as (e & -> & He); [done..|]. rewrite rev_involutive in He. by apply install_view.
  - unfold copy, copy_entry, compute_new_root_with_change.
    destruct (find_tree_den rounds (db m) (working_tree m) (v_tree v) from_key Hl) as (t & -> & Ht').
    edestruct (new_root_den rounds (db m) (working_tree m) (v_tree v) (rev to_key)
      (Some (get_non_leaf (ETree t))) (Some (Dir (ctx_dir (v_tree v) from_key)))) as (e & -> & He); [done|..].
    + by apply (den_loaded _ _ None (ETree t) (Dir _)); [constructor|].
    + by intros ? [= <-].
    + rewrite rev_involutive in He. by apply install_view.
  - unfold working_tree_checkout. rewrite Hid. case_decide; [by split_and!|].
    specialize (Ht id). destruct (trees m !! id) as [l|], (v_trees v !! id) as [cs|]; try done; cbn in *.
    split_and!; [by apply set_root_view|done..].
Qed.

Lemma view_new store : view_of (new store) (mkView [] 0 {[0 := []]}).
Proof.
  split_and!; [constructor|done|]. intros id. cbn.
  destruct (decide (id = 0)) as [->|]; [rewrite !lookup_singleton_eq; constructor|by rewrite !lookup_singleton_ne].
Qed.

(** What is read of the storage is what is in the plain tree. *)
Lemma view_reads m v key :
  view_of m v →
  get key m = Ok (default [] (ctx_get (v_tree v) key)) ∧
  (key ≠ [] → mem key m = Ok (bool_decide (is_Some (ctx_lookup (Dir (v_tree v)) key)))) ∧
  dirmem key m = Ok (bool_decide (ctx_dir (v_tree v) key ≠ [])) ∧
  get_working_tree_root_hash rounds m = map_err MHashingError (hash_ctx rounds (Dir (v_tree v))).
Proof.
  intros (Hl & _ & _). split_and!.
  - unfold get. rewrite (get_from_tree_den rounds _ _ _ key Hl). unfold get_result, ctx_get.
    destruct key as [|k key]; [done|]. by destruct (ctx_lookup _ _) as [[]|].
  - intros Hne. destruct (key_cases key) as [?|(p & k & ->)]; [done|]. by eapply value_exists_den.
  - unfold dirmem. f_equal. by eapply directory_exists_den.
  - unfold get_working_tree_root_hash. by rewrite (den_list_hash rounds _ _ _ Hl).
Qed.

(** ** Theorems *)

(** [runs os bs m m']: the operations [os] lead from [m] to [m'] with the
    outcomes [bs], cells being filled at any time in between. *)
Definition fills (m m' : MerkleStorage) : Prop :=
  filled_list rounds (db m) (working_tree m) (working_tree m') ∧
  working_tree_id m' = working_tree_id m ∧ db m' = db m ∧ last_commit_hash m' = last_commit_hash m ∧
  ∀ id, option_relation (filled_list rounds (db m)) (λ _, False) (λ _, False) (trees m !! id) (trees m' !! id).

Inductive runs : list Op → list bool → MerkleStorage → MerkleStorage → Prop :=
| runs_nil m : runs [] [] m m
| runs_op o os bs m m1 m2 r :
    run_op o m = (m1, r) → runs os bs m1 m2 → runs (o :: os) (is_ok r :: bs) m m2
| runs_fill os bs m m1 m2 : fills m m1 → runs os bs m1 m2 → runs os bs m m2.

Lemma view_fills m m' v : fills m m' → view_of m v → view_of m' v.
Proof.
  intros (Hl & Hid & Hd & _ & Ht) (Vl & Vid & Vt). unfold view_of. rewrite Hd, Hid. split_and!; [|done|].
  - by eapply (proj1 (proj2 (den_filled rounds _))).
  - intros id. specialize (Ht id). specialize (Vt id).
    destruct (trees m !! id), (trees m' !! id), (v_trees v !! id); try done; cbn in *.
    by eapply (proj1 (proj2 (den_filled rounds _))).
Qed.

Lemma runs_simulate os bs m m' v :
  runs os bs m m' → view_of m v → view_of m' (view_ops os v).1 ∧ bs = (view_ops os v).2 ∧ db m' = db m.
Proof.
  intros Hr. revert v. induction Hr as [m|o os bs m m1 m2 r E _ IH|os bs m m1 m2 Hf _ IH]; intros v Hv; [done| |].
  - destruct (op_simulates o m v Hv) as (Hv' & Hr & Hd & _). rewrite E in *. cbn in *.
    destruct (view_op o v) as [v' b]. cbn in *. subst b. destruct (IH v' Hv') as (Hv'' & Hbs & Hd').
    destruct (view_ops os v') as [v'' bs']. cbn in *. subst bs'. split_and!; [done|done|congruence].
  - destruct (IH v (view_fills m m1 v Hf Hv)) as (Hv' & Hbs & Hd). split_and!; [done|done|].
    destruct Hf as (_ & _ & Hd' & _). congruence.
Qed.


Lemma get_of_view m v key : view_of m v → get key m = Ok (default [] (ctx_get (v_tree v) key)).
Proof. intros Hv. by apply (view_reads m v key). Qed.

Lemma run_ok o m v v' :
  view_of m v → view_op o v = (v', true) → ∃ m', run_op o m = (m', Ok tt) ∧ view_of m' v'.
Proof.
  intros Hv Ho. destruct (op_simulates o m v Hv) as (Hv' & Hr & _). rewrite Ho in *.
  destruct (run_op o m) as [m' [[]|]]; cbn in *; [|done]. by exists m'.
Qed.

(** The values after an operation that puts a tree at a path *)
Lemma put_get o m v id key c :
  view_of m v → view_op o v = view_install id (root_of key c (v_tree v)) v → key ≠ [] →
  ∃ m', run_op o m = (m', Ok tt) ∧ ∀ key', get key' m' =
    match strip_prefix key key' with
    | Some rest => Ok (default [] (get_in c rest))
    | None => if decide (is_Some (strip_prefix key' key)) then Ok [] else get key' m
    end.
Proof.
  intros Hv Ho Hne. set (cs := ctx_put key c (v_tree v)).
  destruct (run_ok o m v (mkView cs id (<[id := cs]> (v_trees v))) Hv) as (m' & E & Hv').
  { rewrite Ho. by destruct key. }
  exists m'. split; [done|]. intros key'. rewrite (get_of_view m' _ key' Hv'), (get_of_view m v key' Hv).
  cbn [v_tree]. unfold cs. rewrite ctx_get_put by done.
  destruct (strip_prefix key key'); [done|]. by case_decide.
Qed.


End Operations.
