(* ===== verification/MerkleCommit.v ===== *)
(** * Commits of the context: theorems on [commit] and [checkout]

    What a commit writes is enough to find the whole working tree again under
    the hash of the commit, and what was stored before stays. *)

From stdpp Require Import gmap.
From S2P Require Import Prelude NomReader Kv MerkleTree ContextStore ContextGc MerkleStorage MerkleFacts.

(** ** Well-formed data *)

(** An [EntryHash] *)
Definition hash_wf (h : bytes) : Prop := len h = ENTRY_HASH_LEN ∧ bytes_ok h.

(** A [String] *)
Definition name_wf (s : bytes) : Prop := from_utf8 s = Ok s.

Definition commit_wf (c : Commit) : Prop :=
  hash_wf (root_hash c) ∧ (∀ h, parent_commit_hash c = Some h → hash_wf h) ∧
  uint_range 64 (time c) ∧ name_wf (author c) ∧ name_wf (message c).

(** The values the types of the source allow *)
Definition stored_wf (s : StoredEntry) : Prop :=
  match s with
  | STree l => Forall (λ e, name_wf e.1 ∧ hash_wf e.2.2) l
  | SBlob b => bytes_ok b
  | SCommit c => commit_wf c
  end.

Inductive ctx_wf : ctx → Prop :=
| wf_file v : bytes_ok v → ctx_wf (File v)
| wf_dir cs : Forall (λ kc, name_wf kc.1 ∧ ctx_wf kc.2) cs → ctx_wf (Dir cs).

(** How deep the loaded part of an entry is *)
Fixpoint height (e : Entry) : nat :=
  match e with
  | ETree l =>
      S (foldr (λ '(_, mkNode _ _ e) n, Nat.max (match e with Some e => height e | None => 0 end) n) 0%nat l)
  | _ => 1
  end.

(** Every loaded directory has at most 256 entries or only nodes whose hash is known. *)
Inductive storable : Entry → Prop :=
| storable_blob v : storable (EBlob v)
| storable_commit c : storable (ECommit c)
| storable_tree l :
    len l ≤ 256 ∨ Forall (λ kn, is_Some (node_hash kn.2)) l →
    Forall (λ kn, ∀ e, node_entry kn.2 = Some e → storable e) l →
    storable (ETree l).

(** Two entries that are written, or one that is written and one that is
    stored, differ in their hash unless they are the same. *)
Definition no_collision (batch : list (bytes * bytes)) (stored : gmap bytes bytes) : Prop :=
  ∀ h b b', (h, b) ∈ batch → (h, b') ∈ batch ∨ stored !! h = Some b' → b = b'.

(** Induction over the loaded part of an entry *)
Section EntryInd.
Context (P : Entry → Prop).
Let child (kn : bytes * Node) : Prop := ∀ e, node_entry kn.2 = Some e → P e.
Hypothesis Hblob : ∀ v, P (EBlob v).
Hypothesis Hcommit : ∀ c, P (ECommit c).
Hypothesis Htree : ∀ l, Forall child l → P (ETree l).

Definition child_of (k : bytes) kind h (o : option Entry)
    (H : match o with Some e => P e | None => True end) : child (k, mkNode kind h o) :=
  λ e E, match E in _ = o' return (match o' with Some e => P e | None => True end) with eq_refl => H end.

Fixpoint Entry_tree_ind (e : Entry) : P e :=
  match e with
  | EBlob v => Hblob v
  | ECommit c => Hcommit c
  | ETree l =>
      Htree l ((fix all (l : Tree) : Forall child l :=
        match l with
        | [] => @List.Forall_nil _ child
        | (k, mkNode kind h o) :: l =>
            @List.Forall_cons _ child (k, mkNode kind h o) l
              (child_of k kind h o
                (match o return (match o with Some e => P e | None => True end) with
                 | Some e => Entry_tree_ind e
                 | None => I
                 end)) (all l)
        end) l)
  end.

End EntryInd.

Lemma height_child l kn e : kn ∈ l → node_entry kn.2 = Some e → (height e < height (ETree l))%nat.
Proof.
  intros Hin He. cbn. apply Nat.lt_succ_r. induction l as [|kn' l IH]; [by apply elem_of_nil in Hin|].
  apply elem_of_cons in Hin as [->|Hin].
  - destruct kn' as [k [kind h e']]. cbn in *. subst e'. lia.
  - specialize (IH Hin). destruct kn' as [k [kind h e']]. cbn in *. lia.
Qed.

Section Cache.
Context `{MerkleLib} (rounds : nat).

(** What hashing leaves in a node of a directory *)
Definition cached_node (n : nat) (kn : bytes * Node) : bytes * Node :=
  match kn with
  | (k, mkNode kind None (Some e)) =>
      (k, mkNode kind
            (if decide (256 < Z.of_nat n) then None
             else match hash_entry rounds e with Ok h => Some h | Err _ => None end)
            (Some (cache_hashes rounds e)))
  | kn => kn
  end.

Lemma cache_hashes_tree l : cache_hashes rounds (ETree l) = ETree (cached_node (length l) <$> l).
Proof.
  cbn. f_equal. apply list_fmap_ext. intros i [k [kind [h|] [e|]]] _; done.
Qed.

Lemma cached_node_entry n kn e :
  node_entry (cached_node n kn).2 = Some e →
  ∃ e0, node_entry kn.2 = Some e0 ∧ (e = e0 ∨ e = cache_hashes rounds e0).
Proof. destruct kn as [k [kind [h|] [e0|]]]; cbn; intros [= <-]; eauto. Qed.

Lemma height_cache e : height (cache_hashes rounds e) = height e.
Proof.
  induction e as [v|c|l IH] using Entry_tree_ind; [done..|]. rewrite cache_hashes_tree. cbn. f_equal.
  generalize (length l). intros n. induction IH as [|kn l Hkn _ IHl]; [done|]. cbn. rewrite IHl.
  destruct kn as [k [kind [h|] [e|]]]; cbn in *; [done..| |done]. by rewrite Hkn.
Qed.

Lemma storable_cache e : storable e → storable (cache_hashes rounds e).
Proof.
  induction e as [v|c|l IH] using Entry_tree_ind; [done..|]. intros Hs. inversion Hs as [| |l' Hl Hc]; subst.
  rewrite cache_hashes_tree. constructor.
  - unfold len in *. rewrite length_fmap. destruct Hl as [Hl|Hl]; [by left|right].
    apply Forall_fmap. eapply Forall_impl; [exact Hl|]. intros [k [kind [h|] [e|]]] Hh; by cbn in *.
  - apply Forall_fmap. rewrite Forall_forall in *. intros kn Hin e He.
    apply cached_node_entry in He as (e0 & He0 & [->| ->]); [by eapply Hc|]. eapply IH; eauto.
Qed.

Lemma hash_cache e : hash_entry rounds (cache_hashes rounds e) = hash_entry rounds e.
Proof.
  induction e as [v|c|l IH] using Entry_tree_ind; [done..|]. rewrite cache_hashes_tree, !hash_entry_tree.
  unfold hash_tree. rewrite (map_result_ext _ (hashed_entry rounds) _ l); [done|].
  apply Forall2_fmap_l, Forall_Forall2_diag. eapply Forall_impl; [exact IH|].
  intros [k [kind [h|] [e|]]] Hn; try done. cbn in Hn. specialize (Hn e eq_refl).
  unfold compose, hashed_entry, cached_node. cbn [snd fst]. case_decide; cbn [entry_hash]; [by rewrite Hn|].
  by destruct (hash_entry rounds e) eqn:E; cbn [entry_hash]; rewrite ?Hn, ?E.
Qed.

End Cache.

Section Commit.
Context `{KeyValueStoreBackend} `{!GarbageCollector} `{MerkleLib, Bincode StoredEntry}.
Context (rounds : nat).

(** ** Stores that grow *)

Definition grows (s s' : kv_store) : Prop :=
  ∀ h e, get_entry_from_hash s h = Ok e → get_entry_from_hash s' h = Ok e.

Lemma den_grows s s' e c : grows s s' → den rounds s e c → den rounds s' e c.
Proof.
  intros Hg. revert e c. apply (den_mind rounds s (den rounds s') (den_list rounds s') (den_node rounds s')).
  all: intros; econstructor; eauto.
Qed.

Lemma den_list_grows s s' l cs : grows s s' → den_list rounds s l cs → den_list rounds s' l cs.
Proof.
  intros Hg Hl. assert (Hd : den rounds s' (ETree l) (Dir cs)) by (by apply (den_grows s), den_tree).
  by inversion Hd.
Qed.

(** ** What hashing leaves in the cells *)

Lemma den_cache s e c : den rounds s e c → den rounds s (cache_hashes rounds e) c.
Proof.
  revert e c. apply (den_mind rounds s (λ e c, den rounds s (cache_hashes rounds e) c)
    (λ l cs, ∀ n, den_list rounds s (cached_node rounds n <$> l) cs)
    (λ n c, ∀ k m, ∃ n', cached_node rounds m (k, n) = (k, n') ∧ den_node rounds s n' c)).
  - intros v. constructor.
  - intros l cs _ IH. rewrite cache_hashes_tree. constructor. apply IH.
  - intros n. constructor.
  - intros k n l c cs _ IHn _ IHl m. rewrite fmap_cons. destruct (IHn k m) as (n' & -> & Hn'). by constructor.
  - intros [h|] e c He IH Hh k m; cbn; (eexists; split; [done|]); constructor; try done.
    intros h' Hh'. case_decide; [done|]. rewrite (den_entry_hash rounds s e c He) in Hh'.
    by destruct (hash_ctx rounds c); simplify_eq.
  - intros h e c Eh He IH Hh k m. eexists. split; [done|]. by econstructor.
Qed.

Lemma hashed_child_ok kc e : hashed_child rounds kc = Ok e → ∃ h, hash_ctx rounds kc.2 = Ok h ∧ e = (kc.1, (kind_of kc.2, h)).
Proof. unfold hashed_child. destruct (hash_ctx rounds kc.2) as [h|]; [|done]. intros [= <-]. by exists h. Qed.

(** A node whose hash is known after hashing is written with its hash. *)
Lemma stored_child s n c h :
  den_node rounds s n c → hash_ctx rounds c = Ok h → is_Some (node_hash n) →
  ensure_non_null_entry_hash n = Some (kind_of c, h).
Proof.
  intros Hn Hc Hh. pose proof (den_node_hash rounds s n c Hn) as E. destruct Hn as [[h'|] e c He Hh'|h' e c _ _ Hh'];
    cbn in *; [|by destruct Hh|].
  - unfold ensure_non_null_entry_hash. cbn. rewrite (Hh' h' eq_refl) in Hc. by simplify_eq.
  - unfold ensure_non_null_entry_hash. cbn. rewrite Hh' in Hc. by simplify_eq.
Qed.

Lemma den_cached_node s n c k m :
  den_node rounds s n c →
  ∃ n', cached_node rounds m (k, n) = (k, n') ∧ den_node rounds s n' c ∧
    (∀ h, hash_ctx rounds c = Ok h → Z.of_nat m ≤ 256 ∨ is_Some (node_hash n) → is_Some (node_hash n')).
Proof.
  intros [[h|] e c' He Hh|h e c' Eh He Hh]; cbn.
  - eexists. split; [done|]. split; [by constructor|done].
  - eexists. split; [done|]. rewrite (den_entry_hash rounds s e c' He). split.
    + constructor; [by apply den_cache|]. intros h. case_decide; [done|].
      by destruct (hash_ctx rounds c'); intros; simplify_eq.
    + intros h Hc [Hm|[? [=]]]. cbn. rewrite decide_False by lia. by rewrite Hc.
  - eexists. split; [done|]. split; [by econstructor|done].
Qed.

Lemma stored_children s m l cs hs :
  den_list rounds s l cs → Forall2 (λ kc e, hashed_child rounds kc = Ok e) cs hs →
  Z.of_nat m ≤ 256 ∨ Forall (λ kn, is_Some (node_hash kn.2)) l →
  mapM (λ kn, pair kn.1 <$> ensure_non_null_entry_hash kn.2) (cached_node rounds m <$> l) = Some hs.
Proof.
  intros Hl. revert hs. induction Hl as [|k n l c cs Hn Hl IH]; intros hs Hhs Hm.
  - by apply Forall2_nil_inv_l in Hhs as ->.
  - apply Forall2_cons_inv_l in Hhs as (e & hs' & He & Hhs & ->).
    apply hashed_child_ok in He as (h & Hc & ->). cbn in Hc.
    destruct (den_cached_node s n c k m Hn) as (n' & E & Hn' & Hk).
    rewrite fmap_cons, E. cbn [mapM fst snd].
    assert ((Z.of_nat m ≤ 256 ∨ is_Some (node_hash n)) ∧
      (Z.of_nat m ≤ 256 ∨ Forall (λ kn, is_Some (node_hash kn.2)) l)) as [Hm1 Hm2].
    { destruct Hm as [|Hm]; [by split; left|]. inversion Hm; subst. split; by right. }
    rewrite (stored_child s n' c h Hn' Hc (Hk h Hc Hm1)). cbn. by rewrite (IH hs' Hhs Hm2).
Qed.

Lemma to_stored_cache s l cs hs :
  den_list rounds s l cs → map_result (hashed_child rounds) cs = Ok hs → storable (ETree l) →
  to_stored (cache_hashes rounds (ETree l)) = Some (STree hs).
Proof.
  intros Hl Hhs%map_result_ok Hs. inversion Hs as [| |l' Hlen _]; subst. rewrite cache_hashes_tree. cbn.
  by rewrite (stored_children s (length l) l cs hs).
Qed.

(** ** What is written *)

Context `{!MerkleLibLaws, !BincodeLaws StoredEntry stored_wf}.

Lemma blake_wf d h : blake2b_256 d = Ok h → hash_wf h.
Proof.
  unfold blake2b_256. destruct (blake_new ENTRY_HASH_LEN) as [st|] eqn:E; [|done]. cbn.
  case_decide; [|done]. intros [= <-]. split; [done|]. by eapply blake_size.
Qed.

Lemma blake_ok d : ∃ h, blake2b_256 d = Ok h.
Proof.
  unfold blake2b_256. destruct (blake_new_ok ENTRY_HASH_LEN) as [st E]; [done|]. rewrite E. cbn.
  rewrite decide_True; [eauto|]. by eapply blake_size.
Qed.

Lemma hash_ctx_wf c h : hash_ctx rounds c = Ok h → hash_wf h.
Proof.
  destruct c as [v|cs]; [apply blake_wf|]. rewrite hash_ctx_dir.
  destruct (map_result _ cs) as [hs|]; [|done]. unfold hash_entries, hash_short_inode.
  case_decide; [|apply blake_wf]. destruct (partition_entries _ _ _) as [[| |]|]; [done|apply blake_wf..|done].
Qed.

Definition holds (s : kv_store) (batch : list (bytes * bytes)) : Prop :=
  ∀ h b, (h, b) ∈ batch → kv_get h s = Ok (Some b).

(** A store with what is written, and with what there was, has the tree under its hash. *)
Definition restores (s : kv_store) (batch : list (bytes * bytes)) (h : bytes) (c : ctx) : Prop :=
  ∀ s', grows s s' → holds s' batch → ∃ e, get_entry_from_hash s' h = Ok e ∧ den rounds s' e c.

Lemma holds_app s b1 b2 : holds s (b1 ++ b2) ↔ holds s b1 ∧ holds s b2.
Proof.
  unfold holds. setoid_rewrite elem_of_app. split; [|by intros [H1' H2'] h b [?|?]; auto].
  intros Hh. split; intros h b ?; apply Hh; auto.
Qed.

Lemma holds_cons s kv batch : holds s (kv :: batch) ↔ kv_get kv.1 s = Ok (Some kv.2) ∧ holds s batch.
Proof.
  unfold holds. split.
  - intros Hh. split; [apply Hh; destruct kv; left|]. intros h b ?. apply Hh. by right.
  - intros [Hk Hh] h b [<-|?]%elem_of_cons; [done|by apply Hh].
Qed.

Lemma get_stored s h st b :
  bincode_serialize st = Some b → bincode_deserialize b = Some st → kv_get h s = Ok (Some b) →
  get_entry_from_hash s h = Ok (of_stored st).
Proof. intros _ Ed Eg. unfold get_entry_from_hash. rewrite Eg. cbn. by rewrite Ed. Qed.

(** The nodes of a directory that was read *)
Definition stored_nodes (hs : list HashedEntry) : Tree :=
  (λ '(k, (kind, h)), (k, mkNode kind (Some h) None)) <$> hs.

Lemma children_restored rec s l cs hs :
  den_list rounds s l cs → Forall2 (λ kc e, hashed_child rounds kc = Ok e) cs hs →
  (∀ k n c e h, (k, n) ∈ l → (k, c) ∈ cs → node_entry n = Some e → den rounds s e c → hash_ctx rounds c = Ok h →
     ∃ batch, rec e = Ok batch ∧ restores s batch h c) →
  ∃ batch, entries_of_children rec l = Ok batch ∧
    ∀ s', grows s s' → holds s' batch → den_list rounds s' (stored_nodes hs) cs.
Proof.
  intros Hl. revert hs. induction Hl as [|k n l c cs Hn Hl IH]; intros hs Hhs Hrec.
  - apply Forall2_nil_inv_l in Hhs as ->. exists []. split; [done|]. constructor.
  - apply Forall2_cons_inv_l in Hhs as (e & hs' & He & Hhs & ->).
    apply hashed_child_ok in He as (h & Hc & ->). cbn in Hc.
    destruct (IH hs' Hhs) as (batch & Eb & Hb).
    { intros k' n' c' e' h' Hin Hin'. by apply (Hrec k' n' c' e' h'); right. }
    assert (∃ here, match node_entry n with None => Ok [] | Some e => rec e end = Ok here ∧ restores s here h c)
      as (here & Eh & Hh).
    { destruct Hn as [h' e c He _|h' e c Eg He Hh]; cbn.
      - by apply (Hrec k (mkNode (kind_of c) h' (Some e)) c e h); [left|left|..].
      - exists []. split; [done|]. intros s' Hg _. exists e. assert (h' = h) as -> by congruence.
        split; [by apply Hg|by eapply den_grows]. }
    exists (here ++ batch). cbn. rewrite Eh. split; [by rewrite Eb|].
    intros s' Hg [Hh1 Hh2]%holds_app. destruct (Hh s' Hg Hh1) as (e & Ee & Hde).
    cbn. constructor; [by econstructor|by apply Hb].
Qed.

Lemma stored_dir_wf cs hs :
  Forall (λ kc, name_wf kc.1 ∧ ctx_wf kc.2) cs → Forall2 (λ kc e, hashed_child rounds kc = Ok e) cs hs →
  stored_wf (STree hs).
Proof.
  intros Hcs Hhs. cbn. induction Hhs as [|kc e cs hs He _ IH]; [constructor|].
  inversion Hcs as [|? ? [Hn _] Hcs']; subst. apply hashed_child_ok in He as (h & Hh & ->).
  constructor; [|by apply IH]. split; [done|]. by eapply hash_ctx_wf.
Qed.

Lemma entries_restored fuel s e c h :
  den rounds s e c → storable e → (height e ≤ fuel)%nat → hash_ctx rounds c = Ok h → ctx_wf c →
  ∃ batch, get_entries_recursively rounds fuel s e None = Ok batch ∧ restores s batch h c.
Proof.
  revert e c h. induction fuel as [|fuel IH]; intros e c h Hd Hs Hf Hc Hw; [destruct e; cbn in Hf; lia|].
  cbn [get_entries_recursively]. rewrite (den_entry_hash rounds s e c Hd), Hc. cbn [map_err].
  destruct Hd as [v|l cs Hl].
  - inversion Hw as [? Hv|]; subst. cbn. destruct (bincode_roundtrip (SBlob v) Hv) as (b & Es & Ed). rewrite Es. cbn.
    exists [(h, b)]. split; [done|]. intros s' _ [Hk _]%holds_cons. exists (EBlob v).
    split; [by apply (get_stored s' h (SBlob v) b)|constructor].
  - rewrite hash_ctx_dir in Hc. destruct (map_result (hashed_child rounds) cs) as [hs|] eqn:Ehs; [|done].
    rewrite (to_stored_cache s l cs hs Hl Ehs Hs). cbn [ok_or].
    assert (Hst : stored_wf (STree hs)).
    { inversion Hw; subst. apply (stored_dir_wf cs); [done|by apply map_result_ok]. }
    destruct (bincode_roundtrip (STree hs) Hst) as (b & Es & Ed). rewrite Es. cbn [ok_or].
    rewrite cache_hashes_tree.
    pose proof (den_cache s _ _ (den_tree rounds s l cs Hl)) as Hd'. rewrite cache_hashes_tree in Hd'.
    inversion Hd' as [|? ? Hl']; subst.
    destruct (children_restored (λ e, get_entries_recursively rounds fuel s e None) s _ cs hs Hl') as (batch & Eb & Hb).
    { by apply map_result_ok. }
    { intros k n c e h' Hin Hin' He Hde Hc'. apply list_elem_of_fmap in Hin as (kn & Ekn & Hin).
      rewrite (surjective_pairing kn) in Ekn.
      destruct (cached_node_entry rounds (length l) kn e) as (e0 & He0 & Hcase); [by rewrite <- (surjective_pairing kn) in Ekn; rewrite <- Ekn|].
      inversion Hs as [| |? _ Hsc]; subst. inversion Hw as [|? Hwc]; subst.
      rewrite Forall_forall in Hsc. rewrite Forall_forall in Hwc. pose proof (height_child l kn e0 Hin He0).
      apply (IH e c h'); [done| | |done|by apply (Hwc (k, c))];
        destruct Hcase as [->| ->]; rewrite ?height_cache; try lia; [by eapply Hsc|apply storable_cache; by eapply Hsc]. }
    rewrite Eb. exists ((h, b) :: batch). split; [done|]. intros s' Hg [Hk Hh]%holds_cons.
    exists (ETree (stored_nodes hs)). split; [by apply (get_stored s' h (STree hs) b)|]. constructor. by apply Hb.
Qed.

(** ** Commit and checkout *)

Context (kv_map : kv_store → gmap bytes bytes) `{!KeyValueStoreLaws kv_map}.

(** Nothing is lost where hashes do not collide. *)
Lemma write_batch_spec s batch :
  no_collision batch (kv_map s) →
  ∃ s', kv_write_batch batch s = (s', Ok tt) ∧ holds s' batch ∧ grows s s'.
Proof.
  intros Hnc. destruct (kv_write_batch_map batch s) as (s' & E & Hm). exists s'. split; [done|]. split.
  - intros h b Hin. rewrite kv_get_map, Hm. f_equal.
    destruct (write_all_cases batch (kv_map s) h) as [[_ Hn]|(b' & Eb & Hin')]; [by destruct (Hn b)|].
    rewrite Eb. f_equal. symmetry. eapply Hnc; [exact Hin|by left].
  - intros h e. unfold get_entry_from_hash. rewrite !kv_get_map, Hm. cbn [map_err].
    destruct (kv_map s !! h) as [b|] eqn:Eb; [|done].
    destruct (write_all_cases batch (kv_map s) h) as [[-> _]|(b' & Eb' & Hin')]; [by rewrite Eb|].
    rewrite Eb'. by rewrite (Hnc h b' b Hin' (or_intror Eb)).
Qed.

Lemma no_collision_new (batch : list (bytes * bytes)) : NoDup batch.*1 → no_collision batch ∅.
Proof.
  intros Hnd h b b' Hin [Hin'|?]; [|done]. apply list_elem_of_lookup in Hin as [i Hi], Hin' as [j Hj].
  assert (i = j) as <-; [|congruence]. eapply NoDup_lookup; [exact Hnd|..]; rewrite list_lookup_fmap.
  - by rewrite Hi.
  - by rewrite Hj.
Qed.

Lemma view_grows m v tree s' h :
  view_of rounds m v → grows (db m) s' → den_list rounds (db m) tree (v_tree v) →
  view_of rounds (mkMerkleStorage tree (working_tree_id m) s' (trees m) h) v.
Proof.
  intros (_ & Hid & Ht) Hg Hl. split_and!; [by eapply den_list_grows|done|]. intros id. specialize (Ht id). cbn.
  destruct (trees m !! id), (v_trees v !! id); try done; cbn in *. by eapply den_list_grows.
Qed.

(** What can be committed: a tree of valid names and values, whose hash can be
    computed, with few or hashed nodes in each loaded directory, and within the stack *)
Record committable (m : MerkleStorage) (v : View) (time : Z) (author message : bytes) : Prop := {
  com_wf : ctx_wf (Dir (v_tree v));
  com_hash : is_ok (hash_ctx rounds (Dir (v_tree v))) = true;
  com_storable : storable (ETree (working_tree m));
  com_height : (height (ETree (working_tree m)) < rounds)%nat;
  com_parent : ∀ h, last_commit_hash m = Some h → hash_wf h;
  com_time : uint_range 64 time;
  com_author : name_wf author;
  com_message : name_wf message
}.

Lemma hash_commit_ok c : ∃ h, hash_commit c = Ok h ∧ hash_wf h.
Proof. unfold hash_commit. edestruct blake_ok as [h E]. exists h. split; [exact E|]. by eapply blake_wf. Qed.

Lemma cache_tree_entry l : ETree (cache_tree_hashes rounds l) = cache_hashes rounds (ETree l).
Proof. unfold cache_tree_hashes. by rewrite cache_hashes_tree. Qed.

(** What a commit computes and writes *)
Lemma commit_batch_spec m v time author message :
  view_of rounds m v → committable m v time author message →
  ∃ r hc batch, hash_ctx rounds (Dir (v_tree v)) = Ok r ∧
    hash_commit (mkCommit (last_commit_hash m) r time author message) = Ok hc ∧
    commit_batch rounds time author message m = Ok (hc, batch) ∧
    restores (db m) batch r (Dir (v_tree v)) ∧
    ∀ s', holds s' batch →
      get_entry_from_hash s' hc = Ok (ECommit (mkCommit (last_commit_hash m) r time author message)).
Proof.
  intros (Hl & _ & _) [Hw Hh Hs Hf Hp Ht Ha Hm]. destruct (hash_ctx rounds (Dir (v_tree v))) as [r|] eqn:Er; [|done].
  set (c := mkCommit (last_commit_hash m) r time author message).
  destruct (hash_commit_ok c) as (hc & Ehc & Hhc).
  assert (Hcw : stored_wf (SCommit c)) by (split_and!; [by eapply hash_ctx_wf|done..]).
  destruct (bincode_roundtrip (SCommit c) Hcw) as (b & Es & Ed).
  destruct (entries_restored (pred rounds) (db m) (cache_hashes rounds (ETree (working_tree m))) (Dir (v_tree v)) r)
    as (batch & Eb & Hb); [by apply den_cache, den_tree|by apply storable_cache|rewrite height_cache; lia|done..|].
  assert (Hall : ∀ n, n = S (pred n) → pred n = pred rounds →
    get_entries_recursively rounds n (db m) (ECommit c) (Some (cache_tree_hashes rounds (working_tree m)))
      = Ok ((hc, b) :: batch)).
  { intros n -> Hn. cbn [get_entries_recursively hash_entry]. rewrite Ehc. cbn [map_err cache_hashes to_stored ok_or].
    rewrite Es. cbn [ok_or Nat.pred]. rewrite cache_tree_entry, <- Hn in *. cbn [Nat.pred] in Eb. by rewrite Eb. }
  exists r, hc, ((hc, b) :: batch). split; [done|]. split; [done|]. split; [|split].
  - unfold commit_batch, get_working_tree_root_hash. rewrite (den_list_hash rounds _ _ _ Hl), Er. cbn [map_err].
    fold c. rewrite Ehc. cbn [map_err]. by rewrite Hall by lia.
  - intros s' Hg [_ Hh']%holds_cons. by apply Hb.
  - intros s' [Hk _]%holds_cons. by apply (get_stored s' hc (SCommit c) b).
Qed.


(** ** Large directories *)

Lemma mapM_none {A B} (f : A → option B) l a : a ∈ l → f a = None → mapM f l = None.
Proof.
  induction l as [|a' l IH]; [by intros ?%elem_of_nil|]. intros [->|Hin]%elem_of_cons Hf; cbn; [by rewrite Hf|].
  destruct (f a'); [|done]. cbn. by rewrite IH.
Qed.

(** The nodes of a large directory that were never hashed stay so. *)
Lemma large_not_stored l kn :
  256 < len l → kn ∈ l → node_hash kn.2 = None → to_stored (cache_hashes rounds (ETree l)) = None.
Proof.
  intros Hlen Hin Hh. rewrite cache_hashes_tree. cbn.
  rewrite (mapM_none _ _ (cached_node rounds (length l) kn)); [done|by apply list_elem_of_fmap_2|].
  destruct kn as [k [kind [h|] [e|]]]; cbn in *; [done..| |done].
  by rewrite decide_True by (unfold len in Hlen; lia).
Qed.

Lemma large_entries m kn c fuel :
  256 < len (working_tree m) → kn ∈ working_tree m → node_hash kn.2 = None →
  ∃ e, get_entries_recursively rounds fuel (db m) (ECommit c)
         (Some (cache_tree_hashes rounds (working_tree m))) = Err e ∧
    ((2 ≤ fuel)%nat → is_ok (hash_tree rounds (working_tree m)) = true → e = MSerializationError).
Proof.
  intros Hlen Hin Hh. set (l := working_tree m) in *.
  destruct fuel as [|[|fuel]]; cbn [get_entries_recursively]; [eexists; split; [done|lia]|..];
    change (hash_entry rounds (ECommit c)) with (hash_commit c);
    change (cache_hashes rounds (ECommit c)) with (ECommit c);
    destruct (hash_commit_ok c) as (hc & -> & _); cbn [map_err ok_or];
    change (to_stored (ECommit c)) with (Some (SCommit c)); cbn [ok_or].
  all: destruct (bincode_serialize (SCommit c)); cbn [ok_or]; [|by eexists; split].
  - eexists. split; [done|lia].
  - rewrite cache_tree_entry, hash_cache, hash_entry_tree. destruct (hash_tree rounds l); cbn [map_err];
      [|by eexists; split].
    rewrite cache_hashes_tree.
    rewrite (large_not_stored _ (cached_node rounds (length l) kn)); [by eexists; split|..].
    + unfold len in *. by rewrite length_fmap.
    + by apply list_elem_of_fmap_2.
    + destruct kn as [k [kind [h|] [e|]]]; cbn in *; [done..| |done].
      by rewrite decide_True by (unfold len in Hlen; lia).
Qed.

Lemma large_not_committed m kn time author message :
  256 < len (working_tree m) → kn ∈ working_tree m → node_hash kn.2 = None →
  ∃ e, commit rounds time author message m = (m, Err e) ∧
    ((2 ≤ rounds)%nat → is_ok (get_working_tree_root_hash rounds m) = true → e = MSerializationError).
Proof.
  intros Hlen Hin Hh. unfold commit.
  assert (Hb : ∃ e, commit_batch rounds time author message m = Err e ∧
    ((2 ≤ rounds)%nat → is_ok (get_working_tree_root_hash rounds m) = true → e = MSerializationError)).
  { unfold commit_batch. destruct (get_working_tree_root_hash rounds m) as [r|e] eqn:Er; [|by exists e].
    set (c := mkCommit (last_commit_hash m) r time author message).
    destruct (hash_commit_ok c) as (hc & Ehc & _). rewrite Ehc. cbn [map_err].
    destruct (large_entries m kn c rounds Hlen Hin Hh) as (e & -> & He). exists e. split; [done|]. intros Hr _.
    apply He; [done|]. unfold get_working_tree_root_hash in Er. by destruct (hash_tree rounds (working_tree m)). }
  destruct Hb as (e & -> & He). by exists e.
Qed.

(** Values set one after the other directly below the root *)
Definition set_all (kvs : list (bytes * bytes)) (m : MerkleStorage) : MerkleStorage :=
  foldl (λ m kv, (set 1 [kv.1] kv.2 m).1) m kvs.

Definition new_leaf (v : bytes) : Node := mkNode Leaf None (Some (EBlob v)).

Lemma set_root_key id k v m :
  set id [k] v m = (set_working_tree_root (omap_insert k (new_leaf v) (working_tree m)) id m, Ok tt).
Proof.
  unfold set, set_entry, compute_new_root_with_change. cbn.
  by rewrite decide_False by apply omap_insert_ne_nil.
Qed.

Lemma set_all_tree kvs store :
  NoDup kvs.*1 →
  let l := working_tree (set_all kvs (new store)) in
  length l = length kvs ∧ (∀ kn, kn ∈ l → ∃ v, kn = (kn.1, new_leaf v) ∧ kn.1 ∈ kvs.*1) ∧
  ∀ k v, (k, v) ∈ kvs → omap_get k l = Some (new_leaf v).
Proof.
  induction kvs as [|[k v] kvs IH] using rev_ind; intros Hnd.
  { split_and!; [done|by intros kn ?%elem_of_nil|by intros k v ?%elem_of_nil]. }
  rewrite fmap_app in Hnd. apply NoDup_app in Hnd as (Hnd & Hout & _). destruct (IH Hnd) as (Hlen & Hin & Hget).
  assert (Hk : k ∉ kvs.*1) by (intros Hk; by apply (Hout k Hk); left).
  unfold set_all in *. rewrite foldl_app. cbn [foldl fst snd]. rewrite set_root_key.
  cbn [fst working_tree set_working_tree_root]. split_and!.
  - rewrite omap_insert_fresh, Hlen, length_app; [cbn; lia|].
    intros kn Hkn Heq. destruct (Hin kn Hkn) as (_ & _ & Hkn'). by rewrite Heq in Hkn'.
  - intros kn [->|Hkn]%elem_of_omap_insert.
    + exists v. split; [done|]. rewrite fmap_app. apply elem_of_app. right. left.
    + destruct (Hin kn Hkn) as (v' & E & Hkn'). exists v'. split; [done|]. rewrite fmap_app. apply elem_of_app. by left.
  - intros k' v' [Hin'|[= -> ->]%list_elem_of_singleton]%elem_of_app; rewrite omap_get_insert.
    + rewrite decide_False; [by apply Hget|]. intros ->. apply Hk. by apply (list_elem_of_fmap_2 fst) in Hin'.
    + by rewrite decide_True.
Qed.

(** C21: a directory of more than 256 new values cannot be committed.  Each of the
    values is set and can be read, but the nodes of a directory of that size are
    cloned before they are hashed, their own hash stays unknown, and the
    serialization of the directory fails; the storage is left as it was. *)
Theorem large_directory_not_committed store kvs time author message :
  NoDup kvs.*1 → 256 < len kvs →
  let m := set_all kvs (new store) in
  (∀ k v, (k, v) ∈ kvs → get [k] m = Ok v) ∧
  ∃ e, commit rounds time author message m = (m, Err e) ∧
    ((2 ≤ rounds)%nat → is_ok (get_working_tree_root_hash rounds m) = true → e = MSerializationError).
Proof.
  intros Hnd Hlen m. destruct (set_all_tree kvs store Hnd) as (Hl & Hin & Hget). fold m in Hl, Hin, Hget. split.
  - intros k v Hkv. unfold get, get_from_tree. cbn. by rewrite (Hget k v Hkv).
  - destruct (working_tree m) as [|kn l] eqn:El.
    { unfold len in Hlen. rewrite <- Hl in Hlen. cbn in Hlen. lia. }
    destruct (Hin kn) as (v & E & _); [left|]. rewrite <- El in *.
    apply (large_not_committed m kn).
    + unfold len in *. by rewrite Hl.
    + rewrite El. left.
    + by rewrite E.
Qed.

End Commit.
