(* ===== verification/MerkleBinding.v ===== *)
(** * What the root hash commits to

    Two directories with the same hash are the same, with everything below
    them, unless two of the byte strings that were hashed collide. *)

From stdpp Require Import gmap.
From S2P Require Import Prelude Kv MerkleTree ContextStore MerkleStorage MerkleFacts MerkleCommit.

(** ** Lists *)

Lemma app_inj_len {A} (a b x y : list A) : length a = length b → a ++ x = b ++ y → a = b ∧ x = y.
Proof. intros Hl. by apply app_inj_1. Qed.

(** Lists with the same elements, each in the order of the names, are the same. *)
Lemma omap_ok_unique {A} (l l' : list (bytes * A)) :
  omap_ok l → omap_ok l' → (∀ e, e ∈ l ↔ e ∈ l') → l = l'.
Proof.
  revert l'. induction l as [|[k v] l IH]; intros [|[k' v'] l'] Hl Hl' He; [done| | |].
  - by assert ((k', v') ∈ @nil (bytes * A)) as ?%elem_of_nil by (apply He; left).
  - by assert ((k, v) ∈ @nil (bytes * A)) as ?%elem_of_nil by (apply He; left).
  - destruct Hl as [Hk Hl], Hl' as [Hk' Hl']. rewrite Forall_forall in Hk, Hk'. cbn in *.
    assert ((k, v) = (k', v')) as [= -> ->].
    { destruct (proj1 (elem_of_cons _ _ _) (proj1 (He (k, v)) ltac:(left))) as [?|Hin]; [done|].
      destruct (proj1 (elem_of_cons _ _ _) (proj2 (He (k', v')) ltac:(left))) as [?|Hin']; [done|].
      destruct (Hk _ Hin') as [Hle Hne], (Hk' _ Hin) as [Hle' _]. cbn in *. destruct Hne. by apply bytes_le_antisymm. }
    f_equal. apply IH; [done..|]. intros e. specialize (He e). rewrite !elem_of_cons in He.
    split; intros Hin.
    + destruct (proj1 He (or_intror Hin)) as [->|?]; [|done]. by destruct (Hk _ Hin) as [_ []].
    + destruct (proj2 He (or_intror Hin)) as [->|?]; [|done]. by destruct (Hk' _ Hin) as [_ []].
Qed.

Lemma omap_ok_keys {A B} (l : list (bytes * A)) (l' : list (bytes * B)) :
  l.*1 = l'.*1 → omap_ok l → omap_ok l'.
Proof.
  revert l'. induction l as [|[k v] l IH]; intros [|[k' v'] l'] E; try done. cbn in E. injection E as <- E.
  intros [Hk Hl]. split; [|by apply IH].
  apply (Forall_fmap fst (λ k', bytes_le k k' ∧ k ≠ k')). rewrite <- E. by apply Forall_fmap.
Qed.

Lemma omap_ok_filter {A} (P : bytes * A → Prop) `{∀ x, Decision (P x)} l : omap_ok l → omap_ok (filter P l).
Proof.
  induction l as [|[k v] l IH]; [done|]. intros [Hk Hl]. rewrite filter_cons. case_decide; [|by apply IH].
  split; [|by apply IH]. rewrite Forall_forall in *. intros e [_ Hin]%list_elem_of_filter. by apply Hk.
Qed.

(** An encoding of elements each of which is read back, whatever follows, gives
    back a list of known length. *)
Lemma concat_inj {A} (f : A → bytes) (ok : A → Prop) (l l' : list A) :
  (∀ a a' x y, ok a → ok a' → f a ++ x = f a' ++ y → a = a' ∧ x = y) →
  Forall ok l → Forall ok l' → length l = length l' → concat (f <$> l) = concat (f <$> l') → l = l'.
Proof.
  intros Hf Hl. revert l'. induction Hl as [|a l Ha _ IH]; intros [|a' l'] Hl' Hlen E; try done.
  apply Forall_cons in Hl' as [Ha' Hl']. cbn in *. apply Hf in E as [<- E]; [|done..].
  f_equal. apply IH; [done|lia|done].
Qed.

Lemma be_bytes_inj n v v' : 0 ≤ v < 256 ^ Z.of_nat n → 0 ≤ v' < 256 ^ Z.of_nat n → be_bytes n v = be_bytes n v' → v = v'.
Proof.
  intros Hv Hv' E. apply (f_equal be_val) in E. rewrite !be_val_be_bytes, !Z.mod_small in E by done. done.
Qed.

(** ** Entries of a directory *)

Definition entry_wf (e : HashedEntry) : Prop := uint_range 64 (len e.1) ∧ len e.2.2 = ENTRY_HASH_LEN.

Definition dir_wf (es : list HashedEntry) : Prop := Forall entry_wf es ∧ omap_ok es ∧ uint_range 64 (len es).

Section Binding.
Context `{MerkleLib} `{!MerkleLibLaws}.

Lemma len_eq {A} (a b : list A) : len a = len b → length a = length b.
Proof. unfold len. lia. Qed.

Lemma short_entry_inj e e' x y :
  entry_wf e → entry_wf e' → short_entry_prehash e ++ x = short_entry_prehash e' ++ y → e = e' ∧ x = y.
Proof.
  destruct e as [k [kind h]], e' as [k' [kind' h']]. intros [Hk Hh] [Hk' Hh']. cbn [fst snd] in *.
  unfold short_entry_prehash. rewrite <- !app_assoc. intros E. apply app_inj_len in E as [Ekind E]; [|by destruct kind, kind'].
  assert (kind = kind') as -> by (by destruct kind, kind').
  apply leb128_prefix in E as [Ek E]; [|done..]. apply app_inj_len in E as [-> E]; [|by apply len_eq].
  apply app_inv_head in E. apply app_inj_len in E as [-> ->]; [done|]. apply len_eq. congruence.
Qed.

Lemma value_entry_inj e e' x y :
  entry_wf e → entry_wf e' → value_entry_prehash e ++ x = value_entry_prehash e' ++ y → e = e' ∧ x = y.
Proof.
  destruct e as [k [kind h]], e' as [k' [kind' h']]. intros [Hk Hh] [Hk' Hh']. cbn [fst snd] in *.
  unfold value_entry_prehash. rewrite <- !app_assoc. intros E. apply leb128_prefix in E as [Ek E]; [|done..]. apply app_inj_len in E as [-> E]; [|by apply len_eq].
  cbn in E. injection E as Ekind E. assert (kind = kind') as -> by (by destruct kind, kind').
  apply app_inj_len in E as [-> ->]; [done|]. apply len_eq. congruence.
Qed.

Lemma pointer_inj (p p' : Z * bytes) x y :
  len p.2 = ENTRY_HASH_LEN → len p'.2 = ENTRY_HASH_LEN →
  pointer_prehash p ++ x = pointer_prehash p' ++ y → p = p' ∧ x = y.
Proof.
  destruct p as [i h], p' as [i' h']. cbn. intros Hh Hh' [= -> E].
  apply app_inj_len in E as [-> ->]; [done|]. apply len_eq. congruence.
Qed.

Lemma short_inj es es' : dir_wf es → dir_wf es' → short_prehash es = short_prehash es' → es = es'.
Proof.
  intros (Hes & _ & Hl) (Hes' & _ & Hl') E. unfold short_prehash in E.
  apply app_inj_len in E as [El E]; [|by rewrite !length_be_bytes].
  apply be_bytes_inj in El; [|done..]. eapply concat_inj; [apply short_entry_inj|done..|by apply len_eq|done].
Qed.

Lemma value_inj es es' :
  Forall entry_wf es → Forall entry_wf es' → len es ≤ 32 → len es' ≤ 32 →
  inode_prehash (Value es) = inode_prehash (Value es') → es = es'.
Proof.
  intros Hes Hes' Hl Hl' E. cbn in E. injection E as El E. pose proof (len_nonneg es). pose proof (len_nonneg es').
  rewrite !Z.mod_small in El by lia.
  eapply concat_inj; [apply value_entry_inj|done..|by apply len_eq|done].
Qed.

(** ** Large directories *)

(** Inputs do not collide. *)
Definition collision_free (xs ys : list bytes) : Prop :=
  ∀ x y, x ∈ xs → y ∈ ys → blake2b_256 x = blake2b_256 y → x = y.

(** What is hashed below an inode *)
Fixpoint partition_inputs (rounds : nat) (depth : Z) (entries : list HashedEntry) : list bytes :=
  match rounds with
  | O => []
  | S rounds =>
      if decide (len entries ≤ 32) then []
      else
        concat ((λ i,
          let part := filter (λ e : HashedEntry, index depth e.1 = i) entries in
          match partition_entries rounds (depth + 1) part with
          | Ok Empty | Err _ => []
          | Ok ti => inode_prehash ti :: partition_inputs rounds (depth + 1) part
          end) <$> seqZ 0 32)
  end.

Abbreviation part depth i entries := (filter (λ e : HashedEntry, index depth e.1 = i) entries).

Lemma partition_cases rounds depth es t :
  partition_entries rounds depth es = Ok t →
  (es = [] ∧ t = Empty) ∨ (es ≠ [] ∧ len es ≤ 32 ∧ t = Value es) ∨
  (32 < len es ∧ ∃ r ps, rounds = S r ∧
     collect_pointers (partition_entries r (depth + 1)) depth es (seqZ 0 32) = Ok ps ∧
     t = ITree depth (len es) ps).
Proof.
  destruct rounds as [|r]; cbn [partition_entries]; (case_decide; [by intros [= <-]; left|]);
    (case_decide; [by intros [= <-]; right; left|]); [done|].
  destruct (collect_pointers _ _ _ _) as [ps|] eqn:E; [|done]. intros [= <-]. right. right. split; [lia|]. eauto.
Qed.

Lemma collect_step f depth es i indices ps :
  collect_pointers f depth es (i :: indices) = Ok ps →
  ∃ t, f (part depth i es) = Ok t ∧
    ((t = Empty ∧ collect_pointers f depth es indices = Ok ps) ∨
     (t ≠ Empty ∧ ∃ h ps', hash_long_inode t = Ok h ∧ collect_pointers f depth es indices = Ok ps' ∧
        ps = (i mod 256, h) :: ps')).
Proof.
  cbn. destruct (f _) as [t|]; [|done]. intros E. exists t. split; [done|].
  destruct t; [by left|..]; right; (split; [done|]); (destruct (hash_long_inode _) as [h|]; [|done]);
    (destruct (collect_pointers f depth es indices) as [ps'|]; [|done]); injection E as <-; eauto.
Qed.

Lemma collect_elem f depth es indices ps :
  collect_pointers f depth es indices = Ok ps →
  (length ps ≤ length indices)%nat ∧
  Forall (λ p, (∃ i, i ∈ indices ∧ p.1 = i mod 256) ∧ len p.2 = ENTRY_HASH_LEN) ps.
Proof.
  revert ps. induction indices as [|i indices IH]; intros ps; [by intros [= <-]|].
  assert (Hmono : ∀ ps', Forall (λ p : Z * bytes, (∃ j, j ∈ indices ∧ p.1 = j mod 256) ∧ len p.2 = ENTRY_HASH_LEN) ps' →
    Forall (λ p : Z * bytes, (∃ j, j ∈ i :: indices ∧ p.1 = j mod 256) ∧ len p.2 = ENTRY_HASH_LEN) ps').
  { intros ps' Hps. eapply Forall_impl; [exact Hps|]. intros p [(j & Hj & Ej) Hl]. split; [|done].
    exists j. split; [by right|done]. }
  intros (t & _ & [[-> Ep]|(Ht & h & ps' & Eh & Ep & ->)])%collect_step; destruct (IH _ Ep) as [Hlen Hps].
  - split; [cbn; lia|by apply Hmono].
  - split; [cbn; lia|]. constructor; [|by apply Hmono].
    split; [exists i; split; [left|done]|]. by destruct t; [done|eapply blake_wf, Eh..].
Qed.

(** The same pointers come from parts with the same hashes. *)
Lemma collect_same f depth es es' indices ps i :
  Forall (λ i, 0 ≤ i < 256) indices → NoDup indices →
  collect_pointers f depth es indices = Ok ps → collect_pointers f depth es' indices = Ok ps → i ∈ indices →
  ∃ t t', f (part depth i es) = Ok t ∧ f (part depth i es') = Ok t' ∧
    ((t = Empty ∧ t' = Empty) ∨ (t ≠ Empty ∧ t' ≠ Empty ∧ hash_long_inode t = hash_long_inode t')).
Proof.
  intros Hr Hnd. revert ps. induction indices as [|j indices IH]; intros ps E E' Hi; [by apply elem_of_nil in Hi|].
  inversion Hr as [|? ? Hj Hr']; subst. inversion Hnd as [|? ? Hout Hnd']; subst.
  assert (Hfresh : ∀ es0 ps0 h, collect_pointers f depth es0 indices = Ok ((j mod 256, h) :: ps0) → False).
  { intros es0 ps0 h Ec. apply collect_elem in Ec as [_ Hps]. inversion Hps as [|? ? [(j' & Hj' & Ej) _]]; subst.
    rewrite Forall_forall in Hr'. specialize (Hr' j' Hj'). cbn in Ej. rewrite !Z.mod_small in Ej by lia. by subst. }
  apply collect_step in E as (t & Et & E). apply collect_step in E' as (t' & Et' & E').
  destruct E as [[-> E]|(Ht & h & ps1 & Eh & E & ->)], E' as [[-> E']|(Ht' & h' & ps1' & Eh' & E' & Eps)].
  - apply elem_of_cons in Hi as [->|Hi]; [|by apply (IH Hr' Hnd' ps)].
    exists Empty, Empty. split; [done|]. split; [done|by left].
  - subst ps. by destruct (Hfresh _ _ _ E).
  - by destruct (Hfresh _ _ _ E').
  - injection Eps as -> ->. apply elem_of_cons in Hi as [->|Hi]; [|by apply (IH Hr' Hnd' ps1')].
    exists t, t'. split; [done|]. split; [done|]. right. split_and!; [done|done|congruence].
Qed.

Lemma pointers_inj f depth n n' es es' ps ps' :
  uint_range 64 n → uint_range 64 n' →
  collect_pointers f depth es (seqZ 0 32) = Ok ps → collect_pointers f depth es' (seqZ 0 32) = Ok ps' →
  inode_prehash (ITree depth n ps) = inode_prehash (ITree depth n' ps') → ps = ps'.
Proof.
  intros Hn Hn' E E' Eq. apply collect_elem in E as [Hl Hps]. apply collect_elem in E' as [Hl' Hps'].
  rewrite length_seqZ in Hl, Hl'. cbn [inode_prehash] in Eq. apply app_inv_head in Eq. apply app_inv_head in Eq.
  apply leb128_prefix in Eq as [_ Eq]; [|done..]. cbn in Eq. injection Eq as Elen Eq. unfold len in Elen.
  rewrite !Z.mod_small in Elen by lia.
  apply (concat_inj pointer_prehash (λ p, len p.2 = ENTRY_HASH_LEN)); [apply pointer_inj| | |lia|done];
    (eapply Forall_impl; [eassumption|]); by intros p [_ ?].
Qed.

Lemma index_range depth name : index depth name ∈ seqZ 0 32.
Proof. apply elem_of_seqZ. unfold index. pose proof (Z.mod_pos_bound (ocaml_hash_string depth name) 32). lia. Qed.

Lemma parts_inj depth es es' :
  omap_ok es → omap_ok es' → (∀ i, i ∈ seqZ 0 32 → part depth i es = part depth i es') → es = es'.
Proof.
  intros Hes Hes' Hp. apply omap_ok_unique; [done..|]. intros e.
  specialize (Hp (index depth e.1) (index_range depth e.1)).
  assert (∀ l : list HashedEntry, e ∈ l ↔ e ∈ part depth (index depth e.1) l) as Hin.
  { intros l. rewrite list_elem_of_filter. naive_solver. }
  by rewrite (Hin es), (Hin es'), Hp.
Qed.

Lemma dir_wf_part depth i es : dir_wf es → dir_wf (part depth i es).
Proof.
  intros (Hf & Ho & Hl). split_and!; [|by apply omap_ok_filter|].
  - rewrite Forall_forall in *. intros e [_ ?]%list_elem_of_filter. by apply Hf.
  - unfold uint_range, len in *. pose proof (length_filter (λ e : HashedEntry, index depth e.1 = i) es). lia.
Qed.

Lemma inputs_part rounds depth es i t :
  32 < len es → i ∈ seqZ 0 32 → partition_entries rounds (depth + 1) (part depth i es) = Ok t → t ≠ Empty →
  inode_prehash t ∈ partition_inputs (S rounds) depth es ∧
  ∀ x, x ∈ partition_inputs rounds (depth + 1) (part depth i es) → x ∈ partition_inputs (S rounds) depth es.
Proof.
  intros Hlen Hi E Ht. cbn [partition_inputs]. rewrite decide_False by lia.
  assert (∀ x, x ∈ inode_prehash t :: partition_inputs rounds (depth + 1) (part depth i es) →
    x ∈ concat ((λ i, match partition_entries rounds (depth + 1) (part depth i es) with
      | Ok Empty | Err _ => []
      | Ok ti => inode_prehash ti :: partition_inputs rounds (depth + 1) (part depth i es)
      end) <$> seqZ 0 32)) as Hx.
  { intros x Hx. apply list_elem_of_In, in_concat.
    eexists. split; [|by apply list_elem_of_In, Hx]. apply list_elem_of_In, list_elem_of_fmap. exists i. split; [|done].
    rewrite E. by destruct t. }
  split; [apply Hx; left|]. intros x Hin. apply Hx. by right.
Qed.

(** An inode determines the entries it was made of. *)
Lemma partition_inj rounds depth es es' t t' :
  dir_wf es → dir_wf es' →
  partition_entries rounds depth es = Ok t → partition_entries rounds depth es' = Ok t' →
  t ≠ Empty → t' ≠ Empty → inode_prehash t = inode_prehash t' →
  collision_free (partition_inputs rounds depth es) (partition_inputs rounds depth es') → es = es'.
Proof.
  revert depth es es' t t'. induction rounds as [|rounds IH]; intros depth es es' t t' Hes Hes' E E' Ht Ht' Eq Hcf.
  all: apply partition_cases in E as [[-> ->]|[(Hne & Hl & ->)|(Hl & r & ps & Hr & Ec & ->)]]; [done|..].
  all: apply partition_cases in E' as [[-> ->]|[(Hne' & Hl' & ->)|(Hl' & r' & ps' & Hr' & Ec' & ->)]]; [done|..].
  all: try done; try (by apply value_inj; [apply Hes|apply Hes'|..]).
  injection Hr as <-. injection Hr' as <-.
  assert (ps = ps') as <-.
  { eapply pointers_inj; [apply Hes|apply Hes'|exact Ec|exact Ec'|exact Eq]. }
  apply (parts_inj depth); [apply Hes|apply Hes'|]. intros i Hi.
  assert (Forall (λ i, 0 ≤ i < 256) (seqZ 0 32)) as Hrange.
  { apply Forall_forall. intros j Hj%elem_of_seqZ. lia. }
  destruct (collect_same _ depth es es' _ ps i Hrange (NoDup_seqZ 0 32) Ec Ec' Hi)
    as (t & t' & Et & Et' & Hcase).
  destruct Hcase as [[-> ->]|(Hnt & Hnt' & Eh)].
  - apply partition_cases in Et as [[-> _]|[(_ & _ & [=])|(_ & ? & ? & _ & _ & [=])]].
    by apply partition_cases in Et' as [[-> _]|[(_ & _ & [=])|(_ & ? & ? & _ & _ & [=])]].
  - destruct (inputs_part rounds depth es i t Hl Hi Et Hnt) as [Hin Hsub].
    destruct (inputs_part rounds depth es' i t' Hl' Hi Et' Hnt') as [Hin' Hsub'].
    apply (IH (depth + 1) _ _ t t'); [by apply dir_wf_part..|exact Et|exact Et'|exact Hnt|exact Hnt'| |].
    + apply Hcf; [done|done|]. by destruct t, t'.
    + intros x y Hx Hy. apply Hcf; auto.
Qed.

(** ** Whole contexts *)

(** What is hashed for a directory whose entries are hashed *)
Definition dir_inputs (rounds : nat) (es : list HashedEntry) : list bytes :=
  if decide (256 < len es)
  then match partition_entries rounds 0 es with
       | Ok t => inode_prehash t :: partition_inputs rounds 0 es
       | Err _ => []
       end
  else [short_prehash es].

Lemma entries_inj rounds es es' h :
  dir_wf es → dir_wf es' → hash_entries rounds es = Ok h → hash_entries rounds es' = Ok h →
  collision_free (dir_inputs rounds es) (dir_inputs rounds es') → es = es'.
Proof.
  unfold hash_entries, dir_inputs. intros Hes Hes' E E' Hcf.
  assert (Hlong : ∀ es0, 256 < len es0 → (let? inode := partition_entries rounds 0 es0 in hash_long_inode inode) = Ok h →
    ∃ t, partition_entries rounds 0 es0 = Ok t ∧ t ≠ Empty ∧ blake2b_256 (inode_prehash t) = Ok h ∧
      ∃ x, inode_prehash t = 1 :: x).
  { intros es0 Hl Eh. destruct (partition_entries rounds 0 es0) as [t|] eqn:Ep; [|done]. exists t.
    apply partition_cases in Ep as [[-> _]|[(_ & Hs & _)|(_ & r & ps & _ & _ & ->)]]; [by unfold len in Hl; cbn in Hl|lia|].
    split_and!; [done|done|done|by eexists]. }
  assert (Hshort : ∀ es0 x, ¬ 256 < len es0 → short_prehash es0 = 1 :: x → False).
  { intros es0 x Hl Ex. unfold short_prehash in Ex. pose proof (len_nonneg es0). cbn [be_bytes app] in Ex.
    injection Ex as E1 _. rewrite Z.div_small in E1; [done|]. change (256 ^ Z.of_nat 7) with 72057594037927936. lia. }
  destruct (decide (256 < len es)) as [Hl|Hl], (decide (256 < len es')) as [Hl'|Hl'].
  - destruct (Hlong es Hl E) as (t & Ep & Ht & Eh & _), (Hlong es' Hl' E') as (t' & Ep' & Ht' & Eh' & _).
    rewrite Ep, Ep' in Hcf. apply (partition_inj rounds 0 es es' t t'); [done..| |].
    + apply Hcf; [left|left|congruence].
    + intros x y Hx Hy. apply Hcf; by right.
  - destruct (Hlong es Hl E) as (t & Ep & Ht & Eh & x & Ex). rewrite Ep in Hcf.
    destruct (Hshort es' x Hl'). rewrite <- Ex. symmetry. apply Hcf; [left|left|]. by rewrite Eh.
  - destruct (Hlong es' Hl' E') as (t & Ep & Ht & Eh & x & Ex). rewrite Ep in Hcf.
    destruct (Hshort es x Hl). rewrite <- Ex. apply Hcf; [left|left|]. by rewrite Eh.
  - apply short_inj; [done..|]. apply Hcf; [left|left|]. unfold hash_short_inode in *. congruence.
Qed.

Section CtxInd.
Context (P : ctx → Prop).
Hypothesis Hfile : ∀ v, P (File v).
Hypothesis Hdir : ∀ cs, Forall (λ kc, P kc.2) cs → P (Dir cs).

(** Induction over plain trees *)
Fixpoint ctx_dir_ind (c : ctx) : P c :=
  match c with
  | File v => Hfile v
  | Dir cs =>
      Hdir cs ((fix all (cs : dir) : Forall (λ kc, P kc.2) cs :=
        match cs with
        | [] => @List.Forall_nil _ (λ kc : bytes * ctx, P kc.2)
        | (k, c) :: cs => @List.Forall_cons _ (λ kc : bytes * ctx, P kc.2) (k, c) cs (ctx_dir_ind c) (all cs)
        end) cs)
  end.

End CtxInd.

Context (rounds : nat).

(** Everything that is hashed for a context *)
Fixpoint ctx_inputs (c : ctx) : list bytes :=
  match c with
  | File v => [blob_prehash v]
  | Dir cs =>
      concat ((λ '(_, c), ctx_inputs c) <$> cs) ++
      match map_result (hashed_child rounds) cs with
      | Ok es => dir_inputs rounds es
      | Err _ => []
      end
  end.

(** Directories in the order of their names; sizes that fit in 64 bits *)
Inductive sizes_wf : ctx → Prop :=
| sizes_file v : uint_range 64 (len v) → sizes_wf (File v)
| sizes_dir cs :
    omap_ok cs → uint_range 64 (len cs) → Forall (λ kc, uint_range 64 (len kc.1) ∧ sizes_wf kc.2) cs →
    sizes_wf (Dir cs).

Lemma hashed_dir_wf cs es :
  sizes_wf (Dir cs) → map_result (hashed_child rounds) cs = Ok es → dir_wf es.
Proof.
  intros Hw Hes%map_result_ok. inversion Hw as [|? Ho Hl Hf]; subst.
  assert (Hkeys : cs.*1 = es.*1).
  { clear -Hes. induction Hes as [|kc e cs es He _ IH]; [done|]. cbn. apply hashed_child_ok in He as (h & _ & ->). by f_equal. }
  split_and!.
  - clear Ho Hl Hw Hkeys. induction Hes as [|kc e cs es He _ IH]; [constructor|].
    apply Forall_cons in Hf as [[Hk _] Hf]. constructor; [|by apply IH].
    apply hashed_child_ok in He as (h & Hh & ->). split; [done|]. by eapply hash_ctx_wf.
  - by eapply omap_ok_keys.
  - unfold uint_range, len in *. by rewrite <- (Forall2_length _ _ _ Hes).
Qed.

Lemma children_inj cs cs' es :
  Forall2 (λ kc e, hashed_child rounds kc = Ok e) cs es → Forall2 (λ kc e, hashed_child rounds kc = Ok e) cs' es →
  (∀ kc kc' h, kc ∈ cs → kc' ∈ cs' → kind_of kc.2 = kind_of kc'.2 →
     hash_ctx rounds kc.2 = Ok h → hash_ctx rounds kc'.2 = Ok h → kc.2 = kc'.2) →
  cs = cs'.
Proof.
  intros Hes. revert cs'. induction Hes as [|kc e cs es He _ IH]; intros cs' Hes' Hc.
  - by apply Forall2_nil_inv_r in Hes' as ->.
  - apply Forall2_cons_inv_r in Hes' as (kc' & cs1 & He' & Hes' & ->).
    apply hashed_child_ok in He as (h & Hh & ->). apply hashed_child_ok in He' as (h' & Hh' & [= Ek Ekind ->]).
    f_equal; [|apply IH; [done|]; intros k k' h0 ? ?; apply Hc; by right].
    destruct kc as [k c], kc' as [k' c']. cbn in *. subst k'. f_equal. by apply (Hc (k, c) (k, c') h'); [left|left|..].
Qed.

Lemma child_sizes cs k c : sizes_wf (Dir cs) → (k, c) ∈ cs → sizes_wf c.
Proof. intros Hw Hin. inversion Hw as [|? _ _ Hf]; subst. rewrite Forall_forall in Hf. by apply (Hf (k, c)). Qed.

Lemma child_inputs (cs : dir) k c x :
  (k, c) ∈ cs → x ∈ ctx_inputs c → x ∈ concat ((λ '((_, c) : bytes * ctx), ctx_inputs c) <$> cs).
Proof.
  intros Hin Hx. apply list_elem_of_In, in_concat. exists (ctx_inputs c). split; [|by apply list_elem_of_In].
  apply list_elem_of_In, list_elem_of_fmap. by exists (k, c).
Qed.

(** C19: the hash of a context binds everything below it.  Two values, or two
    directories, with the same hash are equal, unless two of the byte strings
    that were hashed for them are different and have the same hash. *)
Theorem root_hash_binding c c' h :
  kind_of c = kind_of c' → sizes_wf c → sizes_wf c' →
  hash_ctx rounds c = Ok h → hash_ctx rounds c' = Ok h →
  collision_free (ctx_inputs c) (ctx_inputs c') → c = c'.
Proof.
  revert c' h. induction c as [v|cs IH] using ctx_dir_ind; intros c' h Hk Hw Hw' E E' Hcf.
  - destruct c' as [v'|]; [|done]. cbn in *. inversion Hw; inversion Hw'; subst.
    assert (blob_prehash v = blob_prehash v') as Eq by (apply Hcf; [left|left|]; unfold hash_blob in *; congruence).
    unfold blob_prehash in Eq. apply app_inj_len in Eq as [_ ->]; [done|]. by rewrite !length_be_bytes.
  - destruct c' as [|cs']; [done|]. rewrite hash_ctx_dir in E, E'. cbn [ctx_inputs] in Hcf.
    destruct (map_result (hashed_child rounds) cs) as [es|] eqn:Ees; [|done].
    destruct (map_result (hashed_child rounds) cs') as [es'|] eqn:Ees'; [|done].
    assert (es = es') as <-.
    { apply (entries_inj rounds es es' h); [by apply (hashed_dir_wf cs)|by apply (hashed_dir_wf cs')|done|done|].
      intros x y Hx Hy. apply Hcf; apply elem_of_app; by right. }
    f_equal. apply map_result_ok in Ees. apply map_result_ok in Ees'. apply (children_inj cs cs' es Ees Ees').
    intros [k c] [k' c1] h' Hin Hin' Hkind Hh Hh'. rewrite Forall_forall in IH. cbn [snd] in *.
    apply (IH (k, c) Hin c1 h'); [done|by eapply (child_sizes cs k)|by eapply (child_sizes cs' k')|done|done|].
    intros x y Hx Hy. apply Hcf; apply elem_of_app; left; [by eapply (child_inputs cs k c)|by eapply (child_inputs cs' k' c1)].
Qed.

(** An empty value and an empty directory have the same hash, so a store can hold one of the two. *)
Lemma empty_value_and_directory : hash_entry rounds (EBlob []) = hash_entry rounds (ETree []).
Proof. done. Qed.

End Binding.

(** The values of OCaml's hash function that the tests of the source list *)
Example ocaml_hash_vectors :
  ocaml_hash_string 0 <$> [[]; [97]; [97; 98]; [97; 98; 99]; [97; 98; 99; 100]; [97; 98; 99; 100; 101];
    [97; 98; 99; 100; 101; 102]] = [0; 721651713; 856662637; 767105082; 65890154; 335633756; 926323203].
Proof. vm_compute. reflexivity. Qed.
