(* ===== verification/MerkleWitnesses.v ===== *)
(** * A concrete context: the theorems on the context at work

    A hash function that adds up its input, a serialization by enumeration and
    a map in memory instantiate the parameters. *)

From stdpp Require Import gmap.
From S2P Require Import Prelude NomReader Kv MerkleTree ContextStore ContextGc MerkleStorage MerkleFacts MerkleCommit MerkleBinding.

(** ** The parameters *)

Definition digest (data : bytes) : Z := foldl (λ acc b, acc * 257 + b + 1) 0 data.

#[export] Instance sum_lib : MerkleLib := {|
  blake_state := Z * bytes;
  blake_new n := if decide (1 ≤ n ≤ 64) then Some (n, []) else None;
  blake_update d s := (s.1, s.2 ++ d);
  blake_finalize s := be_bytes (Z.to_nat s.1) (digest s.2);
  leb128_unsigned := be_bytes 8
|}.

#[export] Instance sum_lib_laws : MerkleLibLaws.
Proof.
  split.
  - intros n Hn. cbn. rewrite decide_True by done. eauto.
  - intros n s d. cbn. case_decide; [|done]. intros [= <-]. cbn [fst snd]. split; [rewrite len_be_bytes; lia|apply be_bytes_ok].
  - intros a b x y Ha Hb. cbn [leb128_unsigned sum_lib]. intros E. apply app_inj_len in E as [E ->]; [|by rewrite !length_be_bytes].
    split; [|done]. by apply (be_bytes_inj 8).
Qed.

#[export] Instance NodeKind_countable : Countable NodeKind :=
  inj_countable' (λ k, match k with Leaf => true | NonLeaf => false end)
    (λ b : bool, if b then Leaf else NonLeaf) ltac:(by intros []).

#[export] Instance Commit_eq_dec : EqDecision Commit.
Proof. solve_decision. Defined.
#[export] Instance Commit_countable : Countable Commit :=
  inj_countable' (λ c, (parent_commit_hash c, root_hash c, time c, author c, message c))
    (λ '(p, r, t, a, m), mkCommit p r t a m) ltac:(by intros []).

#[export] Instance StoredEntry_eq_dec : EqDecision StoredEntry.
Proof. solve_decision. Defined.
#[export] Instance StoredEntry_countable : Countable StoredEntry :=
  inj_countable' (λ s, match s with STree l => inl (inl l) | SBlob b => inl (inr b) | SCommit c => inr c end)
    (λ s, match s with inl (inl l) => STree l | inl (inr b) => SBlob b | inr c => SCommit c end) ltac:(by intros []).

#[export] Instance enumerated : Bincode StoredEntry := {|
  bincode_serialize s := Some [Z.pos (countable.encode s)];
  bincode_deserialize b := match b with [Z.pos p] => countable.decode p | _ => None end
|}.

#[export] Instance enumerated_laws : BincodeLaws StoredEntry stored_wf.
Proof. split. intros s _. eexists. split; [done|]. apply countable.decode_encode. Qed.

#[local] Existing Instance btree_backend.
#[local] Instance btree_gc : GarbageCollector := not_garbage_collected.

(** ** Witnesses *)

Module MerkleWitnesses.

Definition a : bytes := [97].
Definition b : bytes := [98].
Definition c : bytes := [99].

Definition start : MerkleStorage := new (∅ : gmap bytes bytes).

Definition copied : MerkleStorage :=
  (delete 3 [a] (copy 2 [a] [c] (set 1 [a; b] [1; 2] start).1).1).1.

Lemma copied_runs : runs 64 [OpSet 1 [a; b] [1; 2]; OpCopy 2 [a] [c]; OpDelete 3 [a]] [true; true; true] start copied.
Proof. do 3 (eapply (runs_op _ _ _ _ _ _ _ (Ok tt)); [reflexivity|]). constructor. Qed.



(** A context with one value *)
Definition one : MerkleStorage := (set 1 [a; b] [1; 2] start).1.
Definition one_view : View := (view_op (OpSet 1 [a; b] [1; 2]) (mkView [] 0 {[0 := []]})).1.

Lemma one_is : view_of 64 one one_view.
Proof. apply (op_simulates 64 (OpSet 1 [a; b] [1; 2])), view_new. Qed.

Lemma one_committable : committable 64 one one_view 5 [97] [98].
Proof.
  split.
  - by repeat constructor.
  - by vm_compute.
  - do 2 (apply storable_tree; [by left; vm_compute|]; constructor; [|constructor]; intros e [= <-]). constructor.
  - apply Nat.ltb_lt. reflexivity.
  - done.
  - done.
  - done.
  - done.
Qed.


Definition many : list (bytes * bytes) := (λ i, ([i / 256; i mod 256], [1])) <$> seqZ 0 257.

Lemma large_directory_not_committed_witness :
  ∃ e, commit 64 5 [97] [98] (set_all many start) = (set_all many start, Err e).
Proof.
  destruct (large_directory_not_committed (H := btree_backend) 64 ∅ many 5 [97] [98]) as [_ (e & E & _)].
  - apply (bool_decide_eq_true_1 (NoDup many.*1)). vm_compute. reflexivity.
  - vm_compute. reflexivity.
  - by exists e.
Defined.

Lemma root_hash_binding_witness :
  hash_ctx 8 (Dir [(a, File [1])]) ≠ hash_ctx 8 (Dir [(a, File [2])]).
Proof.
  intros E. destruct (hash_ctx 8 (Dir [(a, File [1])])) as [h|] eqn:Eh; [|vm_compute in Eh; discriminate].
  assert (Dir [(a, File [1])] = Dir [(a, File [2])]) as [=].
  apply (root_hash_binding 8 (Dir [(a, File [1])]) (Dir [(a, File [2])]) h); try done.
  - repeat constructor; done.
  - repeat constructor; done.
  - assert (Hx : forallb (λ x, forallb (λ y, bool_decide (blake2b_256 x = blake2b_256 y → x = y))
      (ctx_inputs 8 (Dir [(a, File [2])]))) (ctx_inputs 8 (Dir [(a, File [1])])) = true) by (vm_compute; reflexivity).
    intros x y Hin%list_elem_of_In Hin'%list_elem_of_In. rewrite forallb_forall in Hx. specialize (Hx x Hin).
    rewrite forallb_forall in Hx. specialize (Hx y Hin'). by apply bool_decide_eq_true in Hx.
Defined.

(** A commit of an empty context stays, and nothing else could. *)
Definition empty_root : bytes := match hash_entry 8 (ETree []) with Ok h => h | Err _ => [] end.
Definition empty_commit : Commit := mkCommit None empty_root 5 [97] [98].
Definition commit_key : bytes := match hash_commit empty_commit with Ok h => h | Err _ => [] end.
Definition stored (s : StoredEntry) : bytes := match bincode_serialize s with Some b => b | None => [] end.

Definition gc_ops : list GcOp :=
  [GcWrite [(commit_key, stored (SCommit empty_commit)); (empty_root, stored (STree []))]; GcBlockApplied commit_key].

Lemma sweep_removes_directories_witness : shallow 8 (written gc_ops) commit_key.
Proof.
  apply (sweep_removes_directories (H := btree_backend) (λ m, m) 8 3 gc_ops commit_key).
  apply (bool_decide_eq_true_1 (is_Some _)). vm_compute. reflexivity.
Defined.

End MerkleWitnesses.
