(* ===== verification/MarkMoveWitnesses.v ===== *)
(** * A concrete run of the garbage collector in a thread

    A directory with one value is marked and kept when its cycle is dropped;
    another value of the cycle is removed.  Applying a block marks nothing. *)

From stdpp Require Import gmap.
From S2P Require Import Prelude Kv MerkleTree ContextStore ContextGc MarkMove MarkMoveFacts MerkleWitnesses.

#[local] Open Scope nat_scope.
#[local] Existing Instance btree_backend.
#[local] Instance elements_order : HashSetOrder := elements.
#[local] Instance elements_order_laws : HashSetOrderLaws.
Proof. by intros s. Qed.

#[export] Instance CmdMsg_eq_dec : EqDecision CmdMsg.
Proof. solve_decision. Defined.

Module MarkMoveWitnesses.

Definition value_key : bytes := [1%Z].
Definition dir_key : bytes := [2%Z].
Definition other_key : bytes := [3%Z].

(** The entries, by their keys *)
Definition entries (k : bytes) : option StoredEntry :=
  if decide (k = value_key) then Some (SBlob [7%Z])
  else if decide (k = dir_key) then Some (STree [([97%Z], (Leaf, value_key))])
  else if decide (k = other_key) then Some (SBlob [8%Z])
  else None.

Definition stored_value (k : bytes) : bytes := default [] (s ← entries k; bincode_serialize s).

Abbreviation start := (mkMarkMove (H := btree_backend) [kv_default] kv_default true 0 [] ∅ Spawned MainIdle).

Definition first_batch : list (bytes * bytes) := (λ k, (k, stored_value k)) <$> [value_key; dir_key; other_key].
Definition new_cycle : list MmEvent := [EvNewCycle; EvPush; EvSend].
Definition threads (n : nat) : list MmEvent := replicate n EvThread.

(** The entries are in the oldest store, and the directory was marked. *)
Definition prepare : list MmEvent :=
  [EvWrite first_batch; EvThread] ++ new_cycle ++ threads 6 ++ [EvMark dir_key; EvSend] ++ threads 4.
(** The store is dropped. *)
Definition proceed : list MmEvent := new_cycle ++ threads 6.

Lemma batch_ok k v : (k, v) ∈ first_batch → holds_content entries k v.
Proof.
  intros Hin. apply list_elem_of_fmap in Hin as (k' & [= -> ->] & Hin).
  rewrite !elem_of_cons, elem_of_nil in Hin. destruct Hin as [->|[->|[->|[]]]]; eexists; split; vm_compute; reflexivity.
Qed.

Lemma prepare_ok : Forall (event_ok entries) prepare.
Proof. apply Forall_cons. split; [exact batch_ok|]. by repeat constructor. Qed.

Lemma proceed_ok : Forall (event_ok entries) proceed.
Proof. by repeat constructor. Qed.

Lemma contains_held (k : bytes) (stores : list (@kv_store btree_backend)) :
  stores_contains stores k = true → held (H := btree_backend) (λ m, m) 0 k stores.
Proof.
  unfold stores_contains. rewrite existsb_exists. intros (s & Hs & Hk). apply in_rev, list_elem_of_In in Hs.
  apply list_elem_of_lookup in Hs as [i Hi]. exists i, s. split; [lia|]. split; [done|]. by apply bool_decide_eq_true in Hk.
Qed.

(** A check of the state after [prepare] and of the one after [proceed] *)
Definition checks (f : MarkMoveGCed → GcThread → MarkMoveGCed → bool) : bool :=
  match mm_run 8 prepare start with
  | Some m =>
      match mm_thread m, mm_run 8 proceed m with
      | Running t, Some m' => f m t m'
      | _, _ => false
      end
  | None => false
  end.

Lemma checks_true f :
  checks f = true →
  ∃ m t m', mm_run 8 prepare start = Some m ∧ mm_thread m = Running t ∧ mm_run 8 proceed m = Some m' ∧ f m t m' = true.
Proof.
  unfold checks. destruct (mm_run 8 prepare start) as [m|]; [|done]. destruct (mm_thread m) as [|t| |] eqn:Et; try done.
  destruct (mm_run 8 proceed m) as [m'|] eqn:Er; [|done]. by exists m, t, m'.
Qed.

Lemma marked_entries_survive_witness :
  ∃ m m' b, mm_run 8 prepare start = Some m ∧ mm_run 8 proceed m = Some m' ∧ drops 8 proceed m = 1 ∧
    mm_get value_key m' = Ok (Some b) ∧ holds_content entries value_key b.
Proof.
  destruct (checks_true (λ m t m', bool_decide (dir_key ∈ oldest_reused t) && stores_contains (mm_stores m) dir_key &&
    stores_contains (mm_stores m) value_key && (drops 8 proceed m =? 1))) as (m & t & m' & E & Et & E' & Hc).
  { vm_compute. reflexivity. }
  rewrite !andb_true_iff, bool_decide_eq_true in Hc. destruct Hc as [[[Hk Hd] Hv] Hn%Nat.eqb_eq].
  destruct (marked_entries_survive (H := btree_backend) (λ m, m) 8 entries 2 prepare start m t proceed m' dir_key value_key) as (b & Hb & Hcont);
    [reflexivity|exact prepare_ok|exact E|exact Et|by right| |exact proceed_ok|exact E'|by rewrite Hn|by exists m, m', b].
  eapply reach_child; [by apply contains_held| |apply reach_here; by apply contains_held]. vm_compute. left.
Defined.

Lemma refs_entries k c : c ∈ refs entries k → k = dir_key ∧ c = value_key.
Proof.
  unfold refs, entries. repeat case_decide; cbn; rewrite ?list_elem_of_singleton; try by intros ?%not_elem_of_nil.
  by intros ->.
Qed.

Lemma other_unreachable k : reach entries (λ _, True) k other_key → k = other_key.
Proof.
  remember other_key as d eqn:Ed. induction 1 as [k|k c d _ Hin Hr IH]; [done|]. specialize (IH Ed). subst.
  by apply refs_entries in Hin as [_ ?].
Qed.

Lemma unmarked_entries_removed_witness :
  ∃ m m', mm_run 8 prepare start = Some m ∧ mm_run 8 proceed m = Some m' ∧
    mm_get other_key m ≠ Ok None ∧ mm_get other_key m' = Ok None.
Proof.
  destruct (checks_true (λ m t m', bool_decide (mm_current m = (∅ : gmap bytes bytes)) && (length (mm_stores m) =? 1) &&
    bool_decide (other_key ∉ todo_keys t) && bool_decide (Forall (λ s : gset bytes, other_key ∉ s) (reused_keys t)) &&
    bool_decide (MarkReused other_key ∉ pending m) && (drops 8 proceed m =? 1) &&
    negb (bool_decide (mm_get other_key m = Ok None)))) as (m & t & m' & E & Et & E' & Hc).
  { vm_compute. reflexivity. }
  rewrite !andb_true_iff, negb_true_iff, bool_decide_eq_false, !bool_decide_eq_true in Hc. destruct Hc as [[[[[[Hcur Hl%Nat.eqb_eq] Ht] Hr] Hp] Hn%Nat.eqb_eq] Hg].
  exists m, m'. split; [exact E|]. split; [exact E'|]. split; [exact Hg|].
  apply (unmarked_entries_removed (H := btree_backend) (λ m, m) 8 entries 2 prepare start m t proceed m' other_key);
    [reflexivity|exact prepare_ok|exact E|exact Et|by rewrite Hcur| | |exact proceed_ok|by repeat constructor|exact E'|by rewrite Hn; lia].
  - intros (i & s & Hi & Es%lookup_lt_Some & _). lia.
  - intros k Hk ->%other_unreachable. rewrite Forall_forall in Hr. destruct Hk as [[Hk|(s & Hs & Hk)]|Hk]; [done|by eapply Hr|done].
Defined.

Lemma gc_finishes_witness :
  ∃ m n m', mm_run 8 prepare start = Some m ∧ mm_run 8 (replicate n EvThread) m = Some m' ∧ gc_finished m' = true.
Proof.
  destruct (checks_true (λ m _ _, match mm_main m with MainIdle => true | _ => false end)) as (m & t & m' & E & Et & _ & Hc).
  { vm_compute. reflexivity. }
  destruct (gc_finishes (H := btree_backend) (λ m, m) 8 entries (λ k, if decide (k = dir_key) then 1 else 0)) with (c := 2) (es0 := prepare) (m0 := start) (m := m)
    as (n & m2 & Hr & _ & Hf & _); [|reflexivity|exact prepare_ok|exact E|by destruct (mm_main m)|by exists m, n, m2].
  intros k c [-> ->]%refs_entries. vm_compute. lia.
Defined.

End MarkMoveWitnesses.
