(* ===== verification/TezedgeContext.v ===== *)
(** * The interface of the context: [storage/src/context/tezedge_context.rs],
      [storage/src/context/mod.rs], [storage/src/context/actions/mod.rs],
      [tezos/context/src/channel.rs]

    [TezedgeContext] runs the operations of the protocol on a [MerkleStorage]
    and notes in the block storage which context belongs to which block.  The
    lock around the storage is held for each operation and is never poisoned.

    [perform_context_action] replays an action that was recorded by the
    protocol: it returns to the tree the action started from, runs it, and
    compares the hash of the new tree with the recorded one. *)

From stdpp Require Import gmap.
From S2P Require Import Prelude Hash Kv BlockMeta BlockStorage MerkleTree ContextStore MerkleStorage MerkleFacts.

(** What is read of a recorded action; times and values that were read are only kept for reports. *)
Inductive ContextAction :=
| ActionSet (context_hash new_tree_hash : option bytes) (tree_id new_tree_id : Z) (key : ContextKey) (value : bytes)
| ActionDelete (context_hash new_tree_hash : option bytes) (tree_id new_tree_id : Z) (key : ContextKey)
| ActionRemoveRecursively (context_hash new_tree_hash : option bytes) (tree_id new_tree_id : Z) (key : ContextKey)
| ActionCopy (context_hash new_tree_hash : option bytes) (tree_id new_tree_id : Z) (from_key to_key : ContextKey)
| ActionCheckout (context_hash : bytes)
| ActionCommit (parent_context_hash block_hash : option bytes) (new_context_hash : bytes) (tree_id : Z)
    (author message : bytes) (date : Z)
| ActionMem (tree_id : Z) (key : ContextKey)
| ActionDirMem (tree_id : Z) (key : ContextKey)
| ActionGet (tree_id : Z) (key : ContextKey)
| ActionFold (tree_id : Z)
| ActionShutdown.

(** [actions/mod.rs]: the reader takes the first 32 bytes. *)
Definition get_new_tree_hash (action : ContextAction) : result (option bytes) HashingError :=
  match action with
  | ActionSet _ new_tree_hash _ _ _ _
  | ActionCopy _ new_tree_hash _ _ _ _
  | ActionDelete _ new_tree_hash _ _ _
  | ActionRemoveRecursively _ new_tree_hash _ _ _ =>
      match new_tree_hash with
      | Some hash =>
          if decide (ENTRY_HASH_LEN ≤ len hash) then Ok (Some (take 32 hash)) else Err InvalidHash
      | None => Ok None
      end
  | _ => Ok None
  end.

Definition get_tree_id (action : ContextAction) : option Z :=
  match action with
  | ActionGet tree_id _ | ActionMem tree_id _ | ActionDirMem tree_id _
  | ActionSet _ _ tree_id _ _ _ | ActionCopy _ _ tree_id _ _ _ | ActionDelete _ _ tree_id _ _
  | ActionRemoveRecursively _ _ tree_id _ _ | ActionCommit _ _ _ tree_id _ _ _ | ActionFold tree_id =>
      Some tree_id
  | ActionCheckout _ | ActionShutdown => None
  end.

Section TezedgeContext.
Context `{RocksDb, CommitLogLib, Bincode BlockStorageColumn, Bincode BlockStorageColumnsLocation}.
Context `{KeyValueStoreBackend} `{!GarbageCollector} `{MerkleLib, Bincode StoredEntry}.
(** How deep the stack allows the recursions to go *)
Context (rounds : nat).

Inductive ContextError :=
| ContextHashAssignError (context_hash block_hash : bytes) (error : StorageError)
| UnknownContextHashError (context_hash : bytes)
| MerkleStorageError (error : MerkleError)
| InvalidCommitDate
| HashConversionError
| CStorageError (error : StorageError)
| CHashError (error : FromBytesError)
| CommitStatusCheckFailure.

Record TezedgeContext := mkTezedgeContext {
  block_storage : option Persistent;
  merkle : MerkleStorage
}.

Abbreviation step A := (TezedgeContext → TezedgeContext * result A ContextError).

(** [merkle.lock()?.f()?] *)
Definition on_merkle {A} (f : MerkleStorage → MerkleStorage * result A MerkleError) : step A :=
  λ c, let '(m, r) := f (merkle c) in (mkTezedgeContext (block_storage c) m, map_err MerkleStorageError r).

Definition reads_merkle {A} (f : MerkleStorage → result A MerkleError) : step A :=
  λ c, (c, map_err MerkleStorageError (f (merkle c))).

(** A [ContextHash] as an array of 32 bytes *)
Definition context_hash_arr (h : bytes) : result bytes ContextError :=
  if decide (len h = ENTRY_HASH_LEN) then Ok h else Err HashConversionError.

Definition tc_set (new_tree_id : Z) (key : ContextKey) (value : bytes) : step unit :=
  on_merkle (set new_tree_id key value).

Definition tc_checkout (context_hash : bytes) : step unit :=
  λ c, match context_hash_arr context_hash with
       | Err e => (c, Err e)
       | Ok h => on_merkle (checkout h) c
       end.

Definition associate_block_and_context_hash (block_hash commit_hash : bytes) (parent_context_hash : option bytes)
    : step unit :=
  λ c,
    match block_storage c with
    | None => (c, Ok tt)
    | Some storage =>
        match assign_to_context block_hash commit_hash storage with
        | (storage, Ok _) => (mkTezedgeContext (Some storage) (merkle c), Ok tt)
        | (storage, Err e) =>
            (mkTezedgeContext (Some storage) (merkle c),
             match e, parent_context_hash with
             | MissingKey, None => Ok tt
             | _, _ => Err (ContextHashAssignError commit_hash block_hash e)
             end)
        end
    end.

Definition tc_commit (block_hash : bytes) (parent_context_hash : option bytes) (author message : bytes) (date : Z)
    : step bytes :=
  λ c,
    if decide (date < 0) then (c, Err InvalidCommitDate)
    else
      match on_merkle (commit rounds date author message) c with
      | (c, Err e) => (c, Err e)
      | (c, Ok commit_hash) =>
          match map_err CHashError (try_from_bytes ContextHash commit_hash) with
          | Err e => (c, Err e)
          | Ok commit_hash =>
              match associate_block_and_context_hash block_hash commit_hash parent_context_hash c with
              | (c, Ok _) => (c, Ok commit_hash)
              | (c, Err e) => (c, Err e)
              end
          end
      end.

(** [delete_to_diff] and [remove_recursively_to_diff] *)
Definition tc_delete (new_tree_id : Z) (key : ContextKey) : step unit := on_merkle (delete new_tree_id key).

Definition copy_to_diff (new_tree_id : Z) (from_key to_key : ContextKey) : step unit :=
  on_merkle (copy new_tree_id from_key to_key).

Definition get_key (key : ContextKey) : step bytes := reads_merkle (get key).
Definition tc_mem (key : ContextKey) : step bool := reads_merkle (mem key).
Definition tc_dirmem (key : ContextKey) : step bool := reads_merkle (dirmem key).

Definition get_key_from_history (context_hash : bytes) (key : ContextKey) (c : TezedgeContext)
    : result (option bytes) ContextError :=
  let? h := context_hash_arr context_hash in
  match get_history h key (merkle c) with
  | Err (ValueNotFound _) => Ok None
  | Err (EntryNotFound _) => Err (UnknownContextHashError context_hash)
  | Err e => Err (MerkleStorageError e)
  | Ok v => Ok (Some v)
  end.

Definition is_committed (context_hash : bytes) (c : TezedgeContext) : result bool ContextError :=
  match block_storage c with
  | Some storage => map_err CStorageError (contains_context_hash context_hash storage)
  | None => Err CommitStatusCheckFailure
  end.

Definition set_merkle_root (tree_id : Z) : step unit := on_merkle (working_tree_checkout tree_id).
Definition get_merkle_root : step bytes := reads_merkle (get_working_tree_root_hash rounds).
Definition tc_block_applied : step unit := on_merkle block_applied.
Definition cycle_started : step unit := on_merkle start_new_cycle.

(** ** Replaying a recorded action *)

(** An error that is returned, or a failed assertion *)
Inductive PerformError :=
| PerformContext (error : ContextError)
| PerformHashing (error : HashingError)
| PerformFromBytes (error : FromBytesError)
| PerformPanic.

Definition try_from_untyped_option (t : HashType) (h : option bytes) : result (option bytes) FromBytesError :=
  match h with
  | None => Ok None
  | Some h => let? h := try_from_bytes t h in Ok (Some h)
  end.

Abbreviation performed := (TezedgeContext * result unit PerformError)%type.

(** Runs [f] and goes on with [k] unless it fails. *)
Definition and_then {A} (f : step A) (k : A → TezedgeContext → performed) (c : TezedgeContext) : performed :=
  match f c with
  | (c, Ok a) => k a c
  | (c, Err e) => (c, Err (PerformContext e))
  end.

Definition and_done {A} (f : step A) : TezedgeContext → performed := and_then f (λ _ c, (c, Ok tt)).

(** The hash of the context must be of the right size; it is not used. *)
Definition with_context_hash (context_hash : option bytes) (f : step unit) (c : TezedgeContext) : performed :=
  match try_from_untyped_option ContextHash context_hash with
  | Err e => (c, Err (PerformFromBytes e))
  | Ok _ => and_done f c
  end.

Definition run_action (action : ContextAction) (c : TezedgeContext) : performed :=
  match action with
  | ActionGet _ key => and_done (get_key key) c
  | ActionMem _ key => and_done (tc_mem key) c
  | ActionDirMem _ key => and_done (tc_dirmem key) c
  | ActionSet context_hash _ _ new_tree_id key value =>
      with_context_hash context_hash (tc_set new_tree_id key value) c
  | ActionCopy context_hash _ _ new_tree_id from_key to_key =>
      with_context_hash context_hash (copy_to_diff new_tree_id from_key to_key) c
  | ActionDelete context_hash _ _ new_tree_id key
  | ActionRemoveRecursively context_hash _ _ new_tree_id key =>
      with_context_hash context_hash (tc_delete new_tree_id key) c
  | ActionCommit parent_context_hash (Some block_hash) new_context_hash _ author message date =>
      match (let? parent := try_from_untyped_option ContextHash parent_context_hash in
             let? block := try_from_bytes BlockHash block_hash in Ok (parent, block)) with
      | Err e => (c, Err (PerformFromBytes e))
      | Ok (parent, block) =>
          and_then (tc_commit block parent author message date) (λ hash c,
            match try_from_bytes ContextHash new_context_hash with
            | Err e => (c, Err (PerformFromBytes e))
            | Ok new_context_hash =>
                (c, if decide (hash = new_context_hash) then Ok tt else Err PerformPanic)
            end) c
      end
  | ActionCheckout context_hash =>
      match try_from_bytes ContextHash context_hash with
      | Err e => (c, Err (PerformFromBytes e))
      | Ok h => and_done (tc_checkout h) c
      end
  | ActionCommit _ None _ _ _ _ _ | ActionFold _ | ActionShutdown => (c, Ok tt)
  end.

(** The hash of the working tree after the action is the recorded one. *)
Definition check_post_hash (new_tree_hash : option bytes) (c : TezedgeContext) : performed :=
  match new_tree_hash with
  | None => (c, Ok tt)
  | Some post_hash =>
      and_then get_merkle_root (λ hash c, (c, if decide (hash = post_hash) then Ok tt else Err PerformPanic)) c
  end.

Definition perform_context_action (action : ContextAction) (c : TezedgeContext) : performed :=
  match get_new_tree_hash action with
  | Err e => (c, Err (PerformHashing e))
  | Ok new_tree_hash =>
      let start c :=
        match get_tree_id action with
        | None => (c, Ok tt)
        | Some tree_id => and_done (set_merkle_root tree_id) c
        end in
      match start c with
      | (c, Err e) => (c, Err e)
      | (c, Ok _) =>
          match run_action action c with
          | (c, Err e) => (c, Err e)
          | (c, Ok _) => check_post_hash new_tree_hash c
          end
      end
  end.

(** ** Theorems *)

(** The operation on the working tree that an action records *)
Definition action_op (action : ContextAction) : option Op :=
  match action with
  | ActionSet _ _ _ new_tree_id key value => Some (OpSet new_tree_id key value)
  | ActionDelete _ _ _ new_tree_id key | ActionRemoveRecursively _ _ _ new_tree_id key =>
      Some (OpDelete new_tree_id key)
  | ActionCopy _ _ _ new_tree_id from_key to_key => Some (OpCopy new_tree_id from_key to_key)
  | _ => None
  end.

(** The hash of the context in an action is absent or of the right size. *)
Definition action_hash_ok (action : ContextAction) : Prop :=
  match action with
  | ActionSet h _ _ _ _ _ | ActionDelete h _ _ _ _ | ActionRemoveRecursively h _ _ _ _ | ActionCopy h _ _ _ _ _ =>
      is_ok (try_from_untyped_option ContextHash h) = true
  | _ => True
  end.

Lemma run_action_op action op c :
  action_op action = Some op → action_hash_ok action → run_action action c = and_done (on_merkle (run_op op)) c.
Proof.
  destruct action; cbn; try done; intros [= <-] Hh; unfold with_context_hash;
    by destruct (try_from_untyped_option ContextHash _).
Qed.

Lemma on_merkle_op op c v v' :
  view_of rounds (merkle c) v → view_op op v = (v', true) →
  ∃ m, view_of rounds m v' ∧ and_done (on_merkle (run_op op)) c = (mkTezedgeContext (block_storage c) m, Ok tt).
Proof.
  intros Hv Ho. destruct (run_ok rounds op (merkle c) v v' Hv Ho) as (m & E & Hm). exists m. split; [done|].
  unfold and_done, and_then, on_merkle. by rewrite E.
Qed.

(** Replaying a recorded change goes back to the tree it started from, makes
    the change on its contents, and succeeds exactly if no hash was recorded or
    the recorded one is the hash of the new contents; any other hash is found
    out, whatever part of the trees is loaded. *)
Theorem replay_checks_hash action op c v v' post h :
  action_op action = Some op → action_hash_ok action → get_new_tree_hash action = Ok post →
  view_of rounds (merkle c) v →
  view_ops [OpWorkingTreeCheckout (default 0 (get_tree_id action)); op] v = (v', [true; true]) →
  hash_ctx rounds (Dir (v_tree v')) = Ok h →
  ∃ m, view_of rounds m v' ∧
    perform_context_action action c =
      (mkTezedgeContext (block_storage c) m,
       if decide (post = None ∨ post = Some h) then Ok tt else Err PerformPanic).
Proof.
  intros Hop Hok Hpost Hv Hvs Hh. assert (∃ tid, get_tree_id action = Some tid) as [tid Hid] by (destruct action; eauto; done).
  rewrite Hid in Hvs. change (default 0 (Some tid)) with tid in Hvs. cbn [view_ops] in Hvs.
  destruct (view_op (OpWorkingTreeCheckout tid) v) as [v1 b1] eqn:E1.
  destruct (view_op op v1) as [v2 b2] eqn:E2. cbn in Hvs. injection Hvs as -> -> ->.
  destruct (on_merkle_op _ c v v1 Hv E1) as (m1 & Hv1 & Er1).
  destruct (on_merkle_op op (mkTezedgeContext (block_storage c) m1) v1 v' Hv1 E2) as (m2 & Hv2 & Er2).
  exists m2. split; [done|]. unfold perform_context_action. rewrite Hpost, Hid.
  change (and_done (set_merkle_root tid)) with (and_done (on_merkle (run_op (OpWorkingTreeCheckout tid)))).
  rewrite Er1. rewrite (run_action_op action op _ Hop Hok), Er2. cbn [block_storage].
  unfold check_post_hash. destruct post as [ph|]; [|by rewrite decide_True by (by left)].
  unfold and_then, get_merkle_root, reads_merkle. cbn [merkle].
  destruct (view_reads rounds m2 v' [] Hv2) as (_ & _ & _ & ->). rewrite Hh. cbn [map_err]. f_equal.
  destruct (decide (h = ph)) as [->|Hne].
  - by rewrite decide_True by (by right).
  - rewrite decide_False; [done|]. intros [?|[= ->]]; done.
Qed.

End TezedgeContext.
