(* ===== verification/TezedgeWitnesses.v ===== *)
(** * A recorded action at work *)

From stdpp Require Import gmap.
From S2P Require Import Prelude Hash Kv BlockMeta BlockStorage MerkleTree ContextStore MerkleStorage MerkleFacts MerkleWitnesses TezedgeContext.

Module TezedgeWitnesses.
#[local] Existing Instance BlockStorageWitnesses.block_storage_db.
#[local] Existing Instance BlockStorageWitnesses.list_log.
#[local] Existing Instance BlockStorageWitnesses.column_bincode.
#[local] Existing Instance BlockStorageWitnesses.location_bincode.
#[local] Existing Instance btree_backend.
#[local] Existing Instance MerkleWitnesses.btree_gc.
Import MerkleWitnesses.

(** A wrong hash is found out. *)
Definition wrong : ContextAction := ActionSet None (Some (replicate 32 0)) 0 1 [a; b] [1; 2].

Lemma replay_checks_hash_witness :
  ∃ m, perform_context_action 64 wrong (mkTezedgeContext None start) = (mkTezedgeContext None m, Err PerformPanic).
Proof.
  destruct (hash_ctx 64 (Dir (v_tree one_view))) as [h|] eqn:Eh; [|vm_compute in Eh; discriminate].
  assert (Hne : match hash_ctx 64 (Dir (v_tree one_view)) with
    | Ok h => bool_decide (h ≠ replicate 32 0)
    | Err _ => false
    end = true) by (vm_compute; reflexivity).
  rewrite Eh in Hne. apply bool_decide_eq_true in Hne.
  destruct (replay_checks_hash 64 wrong (OpSet 1 [a; b] [1; 2]) (mkTezedgeContext None start)
    (mkView [] 0 {[0 := []]}) one_view (Some (replicate 32 0)) h) as (m & _ & E).
  - reflexivity.
  - reflexivity.
  - reflexivity.
  - apply view_new.
  - reflexivity.
  - exact Eh.
  - exists m. rewrite E, decide_False; [reflexivity|]. intros [[=]|Heq]. injection Heq as Heq. apply Hne. exact (eq_sym Heq).
Defined.
End TezedgeWitnesses.
